(* ===== verification/_CoqProject ===== *)
-Q . S2P
Prelude.v
Slab.v
SlabList.v
IoUring.v
Op.v
Driver.v
DriverSpec.v
System.v
Mailbox.v
Ownership.v
RingSpec.v
DropSpec.v
Handle.v
Link.v
Runtime.v
EventLoop.v
HandleSpec.v
EventLoopSpec.v
Buf.v
Buffer.v
BufSpec.v
FixedBuf.v
FixedBufSpec.v
Lender.v
Poison.v
BufferFlight.v
PoolWait.v
PoolWaitSpec.v
Types.v
SharedFd.v
Descriptor.v
ReadWrite.v
ReadWriteSpec.v
Register.v
BufferTyped.v
RecvMultishot.v
Libc.v
OpenOptions.v
WriteAll.v
Compat.v
IoOps.v
Messages.v
WritevAll.v
Clients.v
Answers.v
ClientBuffers.v
AsyncOp.v
AsyncOpSpec.v
EndToEnd.v
Api.v
ApiSpec.v
Path.v
Dirs.v
Statx.v
Net.v
Tests.v
CopyExamples.v
StreamExamples.v
EchoExample.v
DirSuite.v
Legacy.v
