(* ===== verification/Prelude.v ===== *)
(** * A model of tokio-uring

    tokio-uring runs asynchronous I/O on the Linux [io_uring] interface. A
    task builds an operation, the runtime's driver writes a submission entry
    to the ring, the kernel works on it and posts completions, and the driver
    stores the results until the task polls for them. The danger is in
    the ownership: the kernel reads and writes the operation's memory while
    the task may drop, cancel or forget the operation. This development
    translates that machinery and the operations built on it from [src/src/],
    and proves that it keeps its promises, or states precisely where not.

    ** The parts, and where they are modelled

    - Runtime driver ([runtime/driver/]). [SlabList.v]: [op/slab_list.rs], the
      FIFO lists of received completions that share one slab. [Op.v]:
      [op/mod.rs], the life cycles of operations and [Lifecycle::complete].
      [Driver.v]: [mod.rs], the table [Ops] and every method of [Driver], its
      destructor included. [Handle.v]: [handle.rs], [runtime/context.rs] and
      the futures of [op/mod.rs], with the [RefCell] around the driver and
      the thread-local context as explicit state. [Link.v]: [op/link.rs].
    - The runtime ([runtime/mod.rs], [lib.rs]). [Runtime.v]: [block_on] and
      the thread-local context under panics. [EventLoop.v]: the builder,
      [Runtime::new], the task that moves completions from the ring to the
      table, the hook that flushes the ring before the thread parks, and
      shutdown; [EventLoopSpec.v] runs the event loop as a transition system,
      and [EndToEnd.v] joins it to the table of [System.v].
    - Properties of the driver. [DriverSpec.v] has an abstract table, in which
      a list of completions is a list, and the refinement of every operation
      of [Ops] to it. [System.v] puts the table, the clients and the kernel
      into one transition system, whose effects are the functions of
      [Driver.v]; the class [ClientLaws] is what the driver asks of an
      operation type. [Mailbox.v] has the abstract specification that
      clients see, one mailbox for each submission, and the forward
      simulation of [System.v] by it. [Ownership.v] follows the data of each
      operation through handles and boxes. [Clients.v] has the operations of
      the crate as one type and shows that they are such clients;
      [Answers.v] lets each poll that finds a completion hand it to the
      operation's own [complete], or to its transform, with what the kernel
      wrote into the operation's boxes. [RingSpec.v] is about the queue,
      [DropSpec.v] about the driver's destructor, [HandleSpec.v] about
      futures and chains.
    - Buffers ([buf/]). [Buf.v]: the buffer traits, views ([Slice]) and a heap
      of bytes. [Buffer.v]: the type-erased [Buffer]. [FixedBuf.v]: the pool
      and the registry of registered buffers. Properties in [BufSpec.v] and
      [FixedBufSpec.v]. [PoolWait.v]: the asynchronous [FixedBufPool::next]
      on tokio's [Notify], with [PoolWaitSpec.v] for any interleaving of
      tasks. [Lender.v]: the interface that the pool and the registry share;
      [BufferFlight.v] joins a collection behind it to the driver, and
      [ClientBuffers.v] to the operations of the crate and their answers.
      [Poison.v]: the lock around the registry when tasks panic.
      [Register.v]: registration of a collection with the ring, from the
      public method to the table of the kernel. [BufferTyped.v]: every
      conversion of a [Buffer] as the step of one machine, and its types.
    - Operations ([io/], [fs/]). [Types.v]: results that carry buffers.
      [SharedFd.v]: [shared_fd.rs], closing a descriptor that operations
      share; [Descriptor.v] joins it to the driver, where the clones live
      inside the data of operations. [ReadWrite.v], with [ReadWriteSpec.v]:
      reads and writes, plain, vectored and registered. [WriteAll.v]: the loops of [file.rs] and
      [socket.rs] that write a whole buffer. [RecvMultishot.v]: the multishot
      receive, which is a client of the driver in the sense of [ClientLaws].
      [OpenOptions.v]: [open_options.rs] and [open.rs]. [IoOps.v]: the
      remaining operations. [Messages.v]: [send_to], [send_zc], [sendmsg],
      [sendmsg_zc], [recv_from], [recvmsg]. [Path.v] and [Dirs.v]:
      [create_dir_all.rs] and the builder of [statx.rs]; [Compat.v]: the
      structure the kernel fills ([compat.rs]), with its layout.
      [WritevAll.v]: [io/writev_all.rs]. [Net.v]: making, binding,
      connecting and accepting sockets ([socket.rs] and the constructors of
      [net/]).
    - The public methods. [AsyncOp.v]: an [async fn] that submits one
      operation and awaits it, as the state machine of its polls and its
      destructor; [AsyncOpSpec.v] follows one through the real table. [Api.v]:
      the methods of [Socket], [TcpStream], [UnixStream], [UdpSocket], [File]
      and of [fs/] as such state machines; [ApiSpec.v], and [Statx.v] for
      the calls that ask for metadata.
    - Users of the library. [Tests.v]: the unit tests of the crate, run on the
      definitions. The programs of [examples/]: [CopyExamples.v] ([cat.rs],
      [mix.rs]), [StreamExamples.v] ([tcp_stream.rs], [unix_stream.rs],
      [unix_listener.rs], [udp_socket.rs]), [EchoExample.v]
      ([tcp_listener_fixed_buffers.rs]), [DirSuite.v]
      ([test_create_dir_all.rs], with a file system that has permissions to
      run it on). [Legacy.v]: [io/pool.rs] and [buf/fixed/handle.rs].
    - Interfaces of code that is not here. [Slab.v]: the crate [slab].
      [IoUring.v]: the crate [io-uring], its ring and opcodes, and error
      numbers. [Libc.v]: flags. [RecvMultishot.v] has the class of [socket2]'s
      addresses, [Dirs.v] that of the file system, [CopyExamples.v] and
      [StreamExamples.v] those of reads and writes of files and streams,
      [PoolWait.v] that of
      tokio's [Notify], [EventLoop.v] those of tokio, of the builder of
      [io-uring] and of epoll. Each is a class with the documented laws, and
      has an instance for the witnesses.

    ** Conventions

    A call returns [outcome]: a value ([Ret]), a panic with its reason, an
    [unsafe] contract that is broken ([Undefined]), or exhausted fuel. An
    [io::Result] is a value of type [io_result]. Unsigned integers are [N],
    signed ones [Z]; arithmetic that can overflow goes through [add_usize]
    and its like, which depend on the build profile ([Profile]). A [Waker] is
    its two pointers, and a call that wakes tasks lists their wakers.
    [Box<dyn Any>] is a value with its type.

    ** What is shown

    - The driver's table (System): no reachable event panics; nothing leaks;
      the very data that was submitted lives as long as the kernel may touch
      it (Ownership);
      indices are not reused early; a pending poll is woken; a multishot poll
      loses no completion. Under it, the intrusive lists are FIFO queues.
      Over it (Mailbox), every run is a run of independent mailboxes.
    - The driver with what operations own. A descriptor is open while the
      kernel works on an operation that was submitted on it, it is closed
      once, and a close that waits is woken by whatever takes the last clone
      away (Descriptor). A registered buffer inside an operation is nobody
      else's, and comes back (BufferFlight). Both hold for any mix of events
      of the driver, and for any mix of the crate's operations, none of whose
      completions panics (Answers) and whose answers give back just the
      buffers that were submitted (ClientBuffers). The results on all
      operations together are for a build without overflow checks, in which
      the byte counts of zero-copy sends wrap.
    - The event loop (EventLoopSpec): a completion that is in the queue when
      the thread parks is dispatched by the next poll of the task that waits
      for the ring; with a lawful kernel this wakes each task whose operation
      has ended, and its poll answers (EndToEnd); what the builder asks of
      the ring; tasks are destroyed
      while the driver exists. One operation from its first poll to its
      answer or destruction (AsyncOpSpec, ApiSpec).
    - The ring (RingSpec, HandleSpec): batches and chains that fit the queue
      are queued whole, in order, and a chain that does not is split; a batch
      that is too long is never queued; cancellation; futures
      that have resolved do not reach the driver again; an error of the ring
      in [submit_op] ends in a [RefCell] panic; a batch is equivalent to its
      entries one by one.
    - Shutdown (DropSpec, Runtime): the driver's destructor flushes the queue,
      cancels each operation in flight and returns with an empty table, on a
      kernel that ends nothing that it was not asked to cancel, if the queue
      has an entry for each; the context is balanced whatever panics.
    - Buffers: which ranges a view accepts, that slicing a buffer again and
      again shows what slicing its bytes does, and what the kernel is shown
      of it; round trip of
      the type erasure; watermarks; the pool never hands out a buffer twice
      and gets each one back; the registry lends exclusively; a task that
      waits for a buffer is not forgotten; the tag of a buffer always names
      the type behind its pointer; the kernel's table has the buffers of the
      pool that is registered.
    - Metadata: the fields of [statx] stand where the kernel writes them.
    - Operations: entries name only memory of the buffer; what a completed,
      failed or partial operation gives back; whole writes tile the buffer
      and the file range; a descriptor is closed exactly once; parsing
      inverts the kernel's layout of a datagram; provided buffers are
      conserved; flags of [openat]; zero-copy byte counts; [create_dir_all]
      terminates, only adds directories, and its result tells what it did, on
      a file system that may refuse anything; every public call makes the
      transfer its name says and gives its buffers back; constructors of
      sockets lose no descriptor.
    - Programs: the contract of [IoBufMut] as a class ([WatermarkLaws]), its
      instances and views, and that [Buffer] is no instance (BufSpec); on any
      kernel with the documented reads and writes, [cat] prints the file and
      [mix] serves it, byte for byte; an exchange prints what the peer sent, a
      datagram goes back to its sender; the suite of [create_dir_all] meets
      its expectations; the unit tests pass.
    - Theorems that show a defect say so in their comment: reversed views,
      [put_slice] on a vectored buffer, the buffer of a failed read,
      [recvmsg] across two vectors, unchecked address lengths, link flags
      on chains, chains that are split, batches longer than the queue, data
      freed by the driver's destructor while the kernel still works on it, an
      interrupted call in that destructor, a registry that one wrong
      index poisons, a descriptor whose close is refused, a builder of
      [statx] that is used twice, the checks of [writev_all.rs], an echo server
      that never echoes.

    ** Fuel

    [drop_list] and [drain] run with one more unit than the slab has entries,
    which is enough since each turn removes one (proved in [SlabList.v] and
    [DriverSpec.v]). [push_loop], [submit] and [reap] wait for the kernel,
    which may never answer: their fuel bounds the rounds, theorems say how
    many are used. [recurse_create_dir_all] needs one unit per byte of the
    path at most, since parents are shorter. [write_all_loop] recurses on
    the answers of the kernel.

    A poll of [FixedBufPool::next] goes at most three times round its loop
    ([poll_fuel]) and a poll of the task of the ring twice ([wakes_fuel]):
    a future that has just been made is not notified yet, and a readiness
    that has just been cleared is gone. [PoolWaitSpec.v] and
    [EventLoopSpec.v] prove that the fuel does not run out. The loops of
    [CopyExamples.v] run with one unit more than the file has bytes; each
    round moves at least one byte.

    ** What is not modelled

    tokio itself (its scheduler, [spawn], [AsyncFd] beyond the class of
    [EventLoop.v]) and the compatibility types over it ([compat.rs],
    [future.rs]); conversions between descriptors and sockets ([AsRawFd],
    [FromRawFd]); formatting ([Display], [Debug]) and tracing; other threads
    (all types of the driver are thread-local; of the locks around registered
    buffers only the poisoning is modelled, not contention). The files
    [io/writev_all.rs], [io/pool.rs], [io/bind.rs] and [buf/fixed/handle.rs]
    are in no module: [bind.rs] is empty, the others are modelled, with what
    they name and is gone as a parameter. Of the users of the library the
    integration tests ([tests/], which need a real kernel), the benchmarks and
    [wrk-bench.rs] are left out, and the accept loops around the tasks of the
    examples.
    What is left of the compiled code are declarations, [Default]
    instances and one-line conversions. *)
From Stdlib Require Export Lia ZArith NArith.
From stdpp Require Export base strings functions fin_maps gmap list.

#[export] Set Default Goal Selector "!".
Open Scope N_scope.

Declare Scope tokio_scope.
Delimit Scope tokio_scope with tokio.
Open Scope tokio_scope.

(** * Outcomes: how a Rust call can end *)

(** The reasons for which the modelled code panics. The string is the text
    of the source ([expect], [assert!], [unreachable!] messages). *)
Inductive panic : Type :=
  | PUnwrap (msg : string)        (* [expect]/[unwrap] on [None] or [Err] *)
  | PAssert (msg : string)        (* [assert!], [assert_eq!], [debug_assert!] *)
  | PUnreachable (msg : string)   (* [unreachable!], [unimplemented!], [panic!] *)
  | PIndex (msg : string)         (* indexing out of range *)
  | POverflow (msg : string)      (* arithmetic overflow, checks enabled *)
  | PBorrow                       (* [RefCell] already borrowed *)
  | PCapacity.                    (* a collection cannot grow any further *)

(** A call returns, panics, has undefined behaviour (an [unsafe] contract is
    broken), or exhausts the fuel that bounds a loop of the model. *)
Inductive outcome (A : Type) : Type :=
  | Ret (a : A)
  | Panic (p : panic)
  | Undefined (why : string)
  | NoFuel.
Arguments Ret {A} a.
Arguments Panic {A} p.
Arguments Undefined {A} why.
Arguments NoFuel {A}.

#[export] Instance outcome_ret : MRet outcome := fun A a => Ret a.
#[export] Instance outcome_bind : MBind outcome := fun A B f o =>
  match o with
  | Ret a => f a
  | Panic p => Panic p
  | Undefined w => Undefined w
  | NoFuel => NoFuel
  end.

Definition unwrap {A} (msg : string) (o : option A) : outcome A :=
  match o with Some a => Ret a | None => Panic (PUnwrap msg) end.

Definition assert (b : bool) (msg : string) : outcome unit :=
  if b then Ret tt else Panic (PAssert msg).

(** [or_else p o] runs the fallible allocation [o]; [None] is the panic [p]. *)
Definition or_panic {A} (p : panic) (o : option A) : outcome A :=
  match o with Some a => Ret a | None => Panic p end.

(** The calls that the safety theorems accept: a normal return, or the
    panic of a collection that cannot grow. *)
Definition safe {A} (P : A -> Prop) (o : outcome A) : Prop :=
  match o with
  | Ret a => P a
  | Panic PCapacity => True
  | _ => False
  end.

(** [ret_with P o] : the call returns, and the value satisfies [P]. *)
Definition ret_with {A} (P : A -> Prop) (o : outcome A) : Prop :=
  match o with Ret a => P a | _ => False end.

(** * Machine integers *)

(** Unsigned integers are [N], signed ones [Z]; a conversion [as] truncates
    to the target width. *)
Definition wrap (w n : N) : N := n mod 2 ^ w.
Definition as_u16 : N -> N := wrap 16.
Definition as_u32 : N -> N := wrap 32.
Definition as_u64 : N -> N := wrap 64.
Definition as_usize : N -> N := wrap 64.

Definition usize_max : N := 18446744073709551615.
Definition u64_max : N := 18446744073709551615.
Definition u16_max : N := 65535.

(** [x as i32] of an unsigned value. *)
Definition as_i32 (n : N) : Z :=
  let m := Z.of_N (as_u32 n) in
  if (m <? 2147483648)%Z then m else (m - 4294967296)%Z.
(** [x as u32], [x as usize] of an [i32]: two's complement. *)
Definition u32_of_i32 (z : Z) : N := Z.to_N (z mod 4294967296).
Definition usize_of_i32 (z : Z) : N := Z.to_N (z mod 18446744073709551616).

Definition i32_range (z : Z) : Prop := (-2147483648 <= z < 2147483648)%Z.

(** [usize::checked_add]. *)
Definition checked_add (a b : N) : option N :=
  if a + b <=? usize_max then Some (a + b) else None.

(** The build profile decides what unchecked arithmetic does on overflow
    and whether [debug_assert!] is compiled in. *)
Class Profile : Type := {
  overflow_checks : bool;
  debug_assertions : bool;
}.

Section arith.
Context {Prof : Profile}.

(** [a + b], [a - b] on [usize]/[u64]. *)
Definition add_usize (a b : N) : outcome N :=
  if a + b <=? usize_max then Ret (a + b)
  else if overflow_checks then Panic (POverflow "attempt to add with overflow")
  else Ret (wrap 64 (a + b)).
Definition sub_usize (a b : N) : outcome N :=
  if b <=? a then Ret (a - b)
  else if overflow_checks then Panic (POverflow "attempt to subtract with overflow")
  else Ret (a + (usize_max + 1) - b).
(** [-z] on [i32]. *)
Definition neg_i32 (z : Z) : outcome Z :=
  if (z =? -2147483648)%Z then
    if overflow_checks then Panic (POverflow "attempt to negate with overflow")
    else Ret z
  else Ret (- z)%Z.
Definition debug_assert (b : bool) (msg : string) : outcome unit :=
  if debug_assertions then assert b msg else Ret tt.
End arith.

Definition debug_profile : Profile :=
  {| overflow_checks := true; debug_assertions := true |}.
Definition release_profile : Profile :=
  {| overflow_checks := false; debug_assertions := false |}.

(** * Results and [std::io::Error] *)

Inductive result (A E : Type) : Type :=
  | Ok (a : A)
  | Err (e : E).
Arguments Ok {A E} a.
Arguments Err {A E} e.

Definition map_ok {A B E} (f : A -> B) (r : result A E) : result B E :=
  match r with Ok a => Ok (f a) | Err e => Err e end.

Inductive ErrorKind : Type :=
  | InvalidInput | InvalidData | WriteZero | BrokenPipe | NotFound | Other.
#[export] Instance ErrorKind_eq_dec : EqDecision ErrorKind.
Proof. solve_decision. Defined.

(** [io::Error]: a raw OS error ([from_raw_os_error]) or a custom one
    ([io::Error::new]). *)
Inductive io_error : Type :=
  | OsError (code : Z)
  | CustomError (kind : ErrorKind) (msg : string).

Definition raw_os_error (e : io_error) : option Z :=
  match e with OsError c => Some c | CustomError _ _ => None end.

Abbreviation io_result A := (result A io_error).

#[export] Instance byte_eq_dec : EqDecision Byte.byte := Byte.byte_eq_dec.

(** [std::task::Poll]. *)
Inductive Poll (A : Type) : Type :=
  | Ready (a : A)
  | Pending.
Arguments Ready {A} a.
Arguments Pending {A}.

(** * Tactics of the development *)

Create HintDb tokio.

(** Case analysis on the first [match] that blocks a monadic hypothesis or
    goal, then simplification of the equations. *)
Ltac outcome_simpl :=
  cbn [mbind outcome_bind mret outcome_ret unwrap assert or_panic] in *.
Ltac outcome_case :=
  match goal with
  | |- context [match ?x with _ => _ end] => destruct x eqn:?
  | H : context [match ?x with _ => _ end] |- _ => destruct x eqn:?
  end; outcome_simpl; simplify_eq.
Ltac outcome_cases := outcome_simpl; repeat outcome_case.

(** * Lemmas shared by the components *)

Lemma usize_max_pow : usize_max = 2 ^ 64 - 1.
Proof. reflexivity. Qed.

Lemma wrap_small w n : n < 2 ^ w -> wrap w n = n.
Proof. apply N.mod_small. Qed.

Lemma wrap_lt w n : wrap w n < 2 ^ w.
Proof. apply N.mod_lt. lia. Qed.

Lemma as_u16_small n : n < 65536 -> as_u16 n = n.
Proof. apply (wrap_small 16). Qed.

Lemma as_u64_small n : n <= usize_max -> as_u64 n = n.
Proof. intros. apply wrap_small. change (2 ^ 64) with 18446744073709551616.
  unfold usize_max in *. lia. Qed.

Lemma checked_add_Some a b n :
  checked_add a b = Some n <-> n = a + b /\ a + b <= usize_max.
Proof. unfold checked_add. destruct (N.leb_spec (a + b) usize_max); split; intros; destruct_and?; simplify_eq; auto; lia. Qed.

Lemma add_usize_Ret {Prof : Profile} a b :
  a + b <= usize_max -> add_usize a b = Ret (a + b).
Proof. intros. unfold add_usize. by rewrite (proj2 (N.leb_le _ _)). Qed.

Lemma sub_usize_Ret {Prof : Profile} a b : b <= a -> sub_usize a b = Ret (a - b).
Proof. intros. unfold sub_usize. by rewrite (proj2 (N.leb_le _ _)). Qed.

Lemma usize_of_i32_nonneg z : (0 <= z < 2147483648)%Z -> usize_of_i32 z = Z.to_N z.
Proof. intros. unfold usize_of_i32. rewrite Z.mod_small; lia. Qed.

Lemma u32_of_i32_nonneg z : (0 <= z < 2147483648)%Z -> u32_of_i32 z = Z.to_N z.
Proof. intros. unfold u32_of_i32. rewrite Z.mod_small; lia. Qed.

(** The monad: binding is what the case analyses need of it. *)
Lemma bind_Ret {A B} (o : outcome A) (f : A -> outcome B) b :
  (o ≫= f) = Ret b <-> exists a, o = Ret a /\ f a = Ret b.
Proof.
  split.
  - destruct o; cbn; naive_solver.
  - intros (a & -> & ?). done.
Qed.

Lemma bind_assoc {A B C} (o : outcome A) (f : A -> outcome B) (g : B -> outcome C) :
  ((o ≫= f) ≫= g) = (o ≫= fun a => f a ≫= g).
Proof. by destruct o. Qed.

Lemma safe_mono {A} (P Q : A -> Prop) o :
  safe P o -> (forall a, P a -> Q a) -> safe Q o.
Proof. destruct o as [a|[]| |]; cbn; naive_solver. Qed.

Lemma safe_bind {A B} (P : A -> Prop) (Q : B -> Prop) o (f : A -> outcome B) :
  safe P o -> (forall a, P a -> safe Q (f a)) -> safe Q (o ≫= f).
Proof. destruct o as [a|[]| |]; cbn; naive_solver. Qed.

Lemma safe_ret_with {A} (P : A -> Prop) o : ret_with P o -> safe P o.
Proof. destruct o as [a|[]| |]; done. Qed.

(** The two ways a safe call can end. *)
Lemma safe_cases {A} (P : A -> Prop) o :
  safe P o -> (exists a, o = Ret a /\ P a) \/ o = Panic PCapacity.
Proof. destruct o as [a|[]| |]; cbn; naive_solver. Qed.

Lemma ret_with_bind {A B} (P : A -> Prop) (Q : B -> Prop) o (f : A -> outcome B) :
  ret_with P o -> (forall a, P a -> ret_with Q (f a)) -> ret_with Q (o ≫= f).
Proof. destruct o; cbn; naive_solver. Qed.

Lemma ret_with_Ret {A} (P : A -> Prop) o : ret_with P o -> exists a, o = Ret a /\ P a.
Proof. destruct o; cbn; naive_solver. Qed.

(** Option helpers. *)
Lemma option_case_map {A B} (f : A -> B) (o : option A) (b : B) :
  f <$> o = Some b -> exists a, o = Some a /\ f a = b.
Proof. destruct o; cbn; naive_solver. Qed.

#[export] Hint Resolve wrap_lt : tokio.
