(* ===== verification/Slab.v ===== *)
(** The interface of the third-party crate [slab], which the driver uses for
    its two tables (operation life cycles and received completions), the laws
    its documentation states, and a concrete slab used by the witnesses.

    A slab is a map from keys that the slab itself chooses to values. The
    laws are stated against the map [slab_view] of the occupied entries. A
    slab panics when it cannot grow ([slab_insert] is then [None]); it is
    only known to accept an entry while it holds fewer than [slab_limit],
    and its keys are below that limit, hence never [usize::MAX], the value
    [slab_list.rs] uses as its null index. *)
From S2P Require Import Prelude.

Class SlabOps (slab : Type -> Type) : Type := {
  slab_empty : forall {A}, slab A;                            (* with_capacity *)
  slab_insert : forall {A}, A -> slab A -> option (N * slab A);
  slab_get : forall {A}, N -> slab A -> option A;             (* get, contains *)
  slab_set : forall {A}, N -> A -> slab A -> slab A;          (* write by get_mut *)
  slab_try_remove : forall {A}, N -> slab A -> option (A * slab A);
  slab_len : forall {A}, slab A -> nat;
  slab_keys : forall {A}, slab A -> list N;                   (* order of iter *)
}.

Class SlabLaws (slab : Type -> Type) `{!SlabOps slab} : Type := {
  slab_view : forall {A}, slab A -> gmap N A;
  slab_limit : N;
  slab_limit_max : slab_limit <= usize_max;
  slab_view_empty A : slab_view (slab_empty (A := A)) = ∅;
  slab_get_view A k (s : slab A) : slab_get k s = slab_view s !! k;
  slab_insert_view A (v : A) s k s' :
    slab_insert v s = Some (k, s') ->
    slab_view s !! k = None /\ k < slab_limit /\ slab_view s' = <[k:=v]> (slab_view s);
  slab_insert_some A (v : A) s :
    N.of_nat (size (slab_view s)) < slab_limit -> is_Some (slab_insert v s);
  slab_set_view A k (v : A) s :
    is_Some (slab_view s !! k) -> slab_view (slab_set k v s) = <[k:=v]> (slab_view s);
  slab_try_remove_some A k (v : A) s :
    slab_view s !! k = Some v ->
    exists s', slab_try_remove k s = Some (v, s') /\ slab_view s' = delete k (slab_view s);
  slab_try_remove_none A k (s : slab A) :
    slab_view s !! k = None -> slab_try_remove k s = None;
  slab_len_view A (s : slab A) : slab_len s = size (slab_view s);
  slab_keys_NoDup A (s : slab A) : NoDup (slab_keys s);
  slab_keys_view A (s : slab A) k : k ∈ slab_keys s <-> is_Some (slab_view s !! k);
}.

(** The calls the code makes, with the panics of the ones that can panic:
    [Slab::insert], [Slab::remove] and the index expression [slab[i]]. *)
Section calls.
Context `{!SlabOps slab}.
Context {A : Type}.
Implicit Types s : slab A.

Definition insert_slab (v : A) s : outcome (N * slab A) :=
  or_panic PCapacity (slab_insert v s).
Definition remove_slab (k : N) s : outcome (A * slab A) :=
  or_panic (PIndex "invalid key") (slab_try_remove k s).
Definition index_slab (k : N) s : outcome A :=
  or_panic (PIndex "invalid key") (slab_get k s).
Definition contains_slab (k : N) s : bool := bool_decide (is_Some (slab_get k s)).
Definition is_empty_slab s : bool := Nat.eqb (slab_len s) 0.
End calls.

Section laws.
Context `{!SlabOps slab} `{!SlabLaws slab}.
Context {A : Type}.
Implicit Types s : slab A.

Lemma insert_slab_inv v s k s' :
  insert_slab v s = Ret (k, s') ->
  slab_view s !! k = None /\ k <> usize_max /\ slab_view s' = <[k:=v]> (slab_view s).
Proof.
  unfold insert_slab. destruct (slab_insert v s) as [[k0 s0]|] eqn:E; cbn; [|done].
  intros [= <- <-]. apply slab_insert_view in E as (? & ? & ?).
  pose proof slab_limit_max. split_and!; [done|lia|done].
Qed.

Lemma insert_slab_safe v s :
  safe (fun '(k, s') => slab_view s !! k = None /\ k <> usize_max /\
                        slab_view s' = <[k:=v]> (slab_view s)) (insert_slab v s).
Proof.
  destruct (insert_slab v s) as [[k s']|p| |] eqn:E; cbn.
  - by apply insert_slab_inv.
  - unfold insert_slab in E. destruct (slab_insert v s); cbn in *; by simplify_eq.
  - unfold insert_slab in E. destruct (slab_insert v s); cbn in *; by simplify_eq.
  - unfold insert_slab in E. destruct (slab_insert v s); cbn in *; by simplify_eq.
Qed.

Lemma insert_slab_room v s :
  N.of_nat (size (slab_view s)) < slab_limit ->
  exists k s', insert_slab v s = Ret (k, s').
Proof.
  intros [[k s'] E]%(slab_insert_some _ v). exists k, s'. unfold insert_slab. by rewrite E.
Qed.

Lemma remove_slab_Ret v k s :
  slab_view s !! k = Some v ->
  exists s', remove_slab k s = Ret (v, s') /\ slab_view s' = delete k (slab_view s).
Proof.
  intros (s' & E & ?)%slab_try_remove_some. exists s'. unfold remove_slab. by rewrite E.
Qed.

Lemma remove_slab_inv k s v s' :
  remove_slab k s = Ret (v, s') ->
  slab_view s !! k = Some v /\ slab_view s' = delete k (slab_view s).
Proof.
  intros E. destruct (slab_view s !! k) as [v0|] eqn:Ek.
  - destruct (remove_slab_Ret _ _ _ Ek) as (s0 & E0 & ?).
    rewrite E in E0. by simplify_eq.
  - apply slab_try_remove_none in Ek. unfold remove_slab in E. rewrite Ek in E. discriminate E.
Qed.

Lemma index_slab_Ret v k s : slab_view s !! k = Some v -> index_slab k s = Ret v.
Proof. unfold index_slab. rewrite slab_get_view. by intros ->. Qed.

Lemma contains_slab_view k s : contains_slab k s = bool_decide (is_Some (slab_view s !! k)).
Proof. unfold contains_slab. by rewrite slab_get_view. Qed.

Lemma is_empty_slab_view s : is_empty_slab s = true <-> slab_view s = ∅.
Proof.
  unfold is_empty_slab. rewrite slab_len_view, Nat.eqb_eq. apply map_size_empty_iff.
Qed.
End laws.

Create Rewrite HintDb slab.
#[export] Hint Rewrite @slab_get_view @slab_view_empty using typeclasses eauto : slab.

(** * A concrete slab

    A finite map whose insertion takes the least vacant key. Only the
    witnesses and the evaluated examples use it; every theorem is proved for
    an arbitrary slab that satisfies the laws. *)
Fixpoint least_vacant {A} (fuel : nat) (k : N) (m : gmap N A) : option N :=
  match fuel with
  | O => None
  | S f => match m !! k with
           | None => if k <? usize_max then Some k else None
           | Some _ => least_vacant f (k + 1) m
           end
  end.

Definition gmap_insert {A} (v : A) (m : gmap N A) : option (N * gmap N A) :=
  match least_vacant (S (size m)) 0 m with
  | Some k => Some (k, <[k:=v]> m)
  | None => None
  end.

#[export] Instance gmap_slab_ops : SlabOps (gmap N) := {
  slab_empty := fun A => ∅;
  slab_insert := fun A v m => gmap_insert v m;
  slab_get := fun A k m => m !! k;
  slab_set := fun A k v m => <[k:=v]> m;
  slab_try_remove := fun A k m => (fun v => (v, delete k m)) <$> (m !! k);
  slab_len := fun A m => size m;
  slab_keys := fun A m => (map_to_list m).*1;
}.

Lemma least_vacant_Some {A} fuel k (m : gmap N A) k' :
  least_vacant fuel k m = Some k' -> m !! k' = None /\ k' < usize_max.
Proof.
  revert k. induction fuel as [|f IH]; intros k; cbn; [done|].
  destruct (m !! k) eqn:E; [by apply IH|].
  destruct (N.ltb_spec k usize_max); naive_solver.
Qed.

(** Failing to find a vacant key among [fuel] candidates needs [fuel]
    occupied ones. *)
Lemma least_vacant_None {A} fuel k (m : gmap N A) :
  least_vacant fuel k m = None -> k + N.of_nat fuel <= usize_max ->
  (forall j, (j < fuel)%nat -> is_Some (m !! (k + N.of_nat j))).
Proof.
  revert k. induction fuel as [|f IH]; intros k H Hk j Hj; [lia|].
  cbn in H. destruct (m !! k) eqn:E.
  - destruct j as [|j]; [rewrite N.add_0_r; by rewrite E|].
    replace (k + N.of_nat (S j)) with (k + 1 + N.of_nat j) by lia.
    apply IH; [done|lia|lia].
  - destruct (N.ltb_spec k usize_max); [done|lia].
Qed.

Lemma size_ge_keys {A} (m : gmap N A) (n : nat) (f : nat -> N) :
  (forall i j, f i = f j -> i = j) ->
  (forall j, (j < n)%nat -> is_Some (m !! f j)) -> (n <= size m)%nat.
Proof.
  revert m. induction n as [|n IH]; intros m Hf H; [lia|].
  destruct (H n) as [v Hv]; [lia|].
  rewrite <- (insert_delete_id _ _ _ Hv), map_size_insert_None by apply lookup_delete_eq.
  apply le_n_S, IH; [done|]. intros j Hj.
  rewrite lookup_delete_ne; [apply H; lia|]. intros ?%Hf. lia.
Qed.

Lemma gmap_insert_view {A} (v : A) m k m' :
  gmap_insert v m = Some (k, m') -> m !! k = None /\ k < usize_max /\ m' = <[k:=v]> m.
Proof.
  unfold gmap_insert. destruct (least_vacant _ _ _) eqn:E; intros; simplify_eq.
  by apply least_vacant_Some in E as [? ?].
Qed.

Lemma gmap_insert_some {A} (v : A) m :
  N.of_nat (size m) < usize_max -> is_Some (gmap_insert v m).
Proof.
  unfold gmap_insert. intros Hs.
  destruct (least_vacant (S (size m)) 0 m) eqn:E; [by eexists|].
  exfalso. apply (Nat.nle_succ_diag_l (size m)).
  apply (size_ge_keys m (S (size m)) N.of_nat); [intros ??; lia|].
  intros j Hj. apply (least_vacant_None _ 0 _ E); lia.
Qed.

#[export] Instance gmap_slab_laws : SlabLaws (gmap N).
Proof.
  refine {| slab_view := fun A m => m; slab_limit := usize_max |}; intros; cbn in *.
  - lia.
  - done.
  - done.
  - by apply gmap_insert_view.
  - by apply gmap_insert_some.
  - done.
  - exists (delete k s). by rewrite H.
  - by rewrite H.
  - done.
  - apply NoDup_fst_map_to_list.
  - rewrite list_elem_of_fmap. split.
    + intros ([k' v] & -> & Hv%elem_of_map_to_list). by eexists.
    + intros [v Hv]. exists (k, v). split; [done|]. by apply elem_of_map_to_list.
Defined.
