(* ===== verification/SlabList.v ===== *)
(** [src/src/runtime/driver/op/slab_list.rs]: a linked list whose entries
    live in slab storage, several lists sharing one slab.

    The section [list] translates the operations. [slist] is the
    representation predicate: which keys and which values a list has. Each
    operation has a specification against it, together with the frame
    [upd_frame] that says what happens to the rest of the slab. *)
From S2P Require Import Prelude Slab.

(** [SlabListIndices]; [usize::MAX] is the null index. *)
Record SlabListIndices : Type := Indices { start : N; end_ : N }.

Record SlabListEntry (A : Type) : Type := Entry { entry : A; next : N }.
Arguments Entry {A} entry next.
Arguments entry {A} _.
Arguments next {A} _.

#[export] Instance SlabListIndices_eq_dec : EqDecision SlabListIndices.
Proof. solve_decision. Defined.

Definition new_indices : SlabListIndices := Indices usize_max usize_max.
Definition is_empty_indices (ix : SlabListIndices) : bool := start ix =? usize_max.

Record SlabList (slab : Type -> Type) (A : Type) : Type := mkSlabList {
  index : SlabListIndices;
  store : slab (SlabListEntry A);
}.
Arguments mkSlabList {slab A} index store.
Arguments index {slab A} _.
Arguments store {slab A} _.

Section list.
Context `{!SlabOps slab} {A : Type}.
Implicit Types l : SlabList slab A.

Definition into_list (ix : SlabListIndices) (s : slab (SlabListEntry A)) :
  SlabList slab A := mkSlabList ix s.

Definition is_empty l : bool := start (index l) =? usize_max.

Definition peek_end l : outcome (option A) :=
  if end_ (index l) =? usize_max then Ret None
  else e ← index_slab (end_ (index l)) (store l); Ret (Some (entry e)).

Definition pop l : option A * SlabList slab A :=
  match slab_try_remove (start (index l)) (store l) with
  | None => (None, l)
  | Some (e, s) =>
      let end' := if next e =? usize_max then usize_max else end_ (index l) in
      (Some (entry e), mkSlabList (Indices (next e) end') s)
  end.

Definition push (x : A) l : outcome (SlabList slab A) :=
  let prev := end_ (index l) in
  '(k, s) ← insert_slab (Entry x usize_max) (store l);
  if negb (prev =? usize_max) then
    e ← index_slab prev s;
    Ret (mkSlabList (Indices (start (index l)) k) (slab_set prev (Entry (entry e) k) s))
  else Ret (mkSlabList (Indices k k) s).

(** [Drop for SlabList]: the loop removes one entry per turn, so the fuel
    of [drop_list] (one more than the entries of the slab) is never
    exhausted, see [drop_loop_fuel]. *)
Fixpoint drop_loop (fuel : nat) l : outcome (slab (SlabListEntry A)) :=
  match fuel with
  | O => NoFuel
  | S f =>
      if is_empty l then Ret (store l)
      else '(removed, s) ← remove_slab (start (index l)) (store l);
           drop_loop f (mkSlabList (Indices (next removed) (end_ (index l))) s)
  end.
Definition drop_list l : outcome (slab (SlabListEntry A)) :=
  drop_loop (S (slab_len (store l))) l.

(** [into_indices] leaves the empty list behind, which is then dropped. *)
Definition into_indices l : outcome (SlabListIndices * slab (SlabListEntry A)) :=
  s ← drop_list (mkSlabList new_indices (store l));
  Ret (index l, s).
End list.

(** * Representation *)

(** [chain m i ks xs]: following [next] from key [i] visits the keys [ks]
    holding [xs], and ends at the null index. *)
Fixpoint chain {A} (m : gmap N (SlabListEntry A)) (i : N) (ks : list N) (xs : list A) : Prop :=
  match ks, xs with
  | [], [] => i = usize_max
  | k :: ks, x :: xs =>
      i = k /\ k <> usize_max /\ exists j, m !! k = Some (Entry x j) /\ chain m j ks xs
  | _, _ => False
  end.

Definition slist {A} (m : gmap N (SlabListEntry A)) (ix : SlabListIndices)
    (ks : list N) (xs : list A) : Prop :=
  chain m (start ix) ks xs /\ end_ ix = default usize_max (last ks).

(** [m'] is [m] except that the entries of [ks] became those of [ks']:
    every other key keeps its entry, the keys of [ks'] are old or were
    vacant, and the keys that left [ks] are vacant. *)
Definition upd_frame {A} (m : gmap N A) (ks : list N) (m' : gmap N A) (ks' : list N) : Prop :=
  (forall k, k ∉ ks -> k ∉ ks' -> m' !! k = m !! k) /\
  (forall k, k ∈ ks' -> k ∈ ks \/ m !! k = None) /\
  (forall k, k ∈ ks -> k ∉ ks' -> m' !! k = None).

Section chain.
Context {A : Type}.
Implicit Types (m : gmap N (SlabListEntry A)) (ks : list N) (xs : list A).

Lemma chain_length m i ks xs : chain m i ks xs -> length ks = length xs.
Proof.
  revert i xs. induction ks as [|k ks IH]; intros i [|x xs]; cbn; try done.
  intros (_ & _ & j & _ & H). by rewrite (IH _ _ H).
Qed.

Lemma chain_keys m i ks xs : chain m i ks xs -> Forall (fun k => k <> usize_max) ks.
Proof.
  revert i xs. induction ks as [|k ks IH]; intros i [|x xs]; cbn; try done.
  intros (_ & ? & j & _ & ?). constructor; eauto.
Qed.

Lemma chain_lookup m i ks xs k : chain m i ks xs -> k ∈ ks -> is_Some (m !! k).
Proof.
  revert i xs. induction ks as [|k0 ks IH]; intros i [|x xs]; cbn; try done.
  { by intros _ ?%not_elem_of_nil. }
  intros (_ & _ & j & ? & ?) [->|?]%elem_of_cons; eauto.
Qed.

Lemma chain_det m i ks1 xs1 ks2 xs2 :
  chain m i ks1 xs1 -> chain m i ks2 xs2 -> ks1 = ks2 /\ xs1 = xs2.
Proof.
  revert i xs1 ks2 xs2.
  induction ks1 as [|k1 ks1 IH]; intros i [|x1 xs1] [|k2 ks2] [|x2 xs2]; cbn; try done.
  - intros -> (-> & ? & _). done.
  - intros (-> & ? & _). done.
  - intros (-> & _ & j1 & E1 & H1) (-> & _ & j2 & E2 & H2). simplify_eq.
    destruct (IH _ _ _ _ H1 H2) as [-> ->]. done.
Qed.

(** A suffix of a chain is a chain: from any of its keys. *)
Lemma chain_from m i ks xs k :
  chain m i ks xs -> k ∈ ks ->
  exists ks' xs', chain m k (k :: ks') xs' /\ (length ks' < length ks)%nat.
Proof.
  revert i xs. induction ks as [|k0 ks IH]; intros i [|x xs]; cbn [chain]; try done.
  { by intros _ ?%not_elem_of_nil. }
  intros (-> & Hk & j & Hj & H) [->|Hin]%elem_of_cons.
  - exists ks, (x :: xs). cbn. eauto 10.
  - destruct (IH _ _ H Hin) as (ks' & xs' & ? & ?). exists ks', xs'. cbn. auto with lia.
Qed.

Lemma chain_NoDup m i ks xs : chain m i ks xs -> NoDup ks.
Proof.
  revert i xs. induction ks as [|k ks IH]; intros i [|x xs]; cbn [chain]; try done.
  { constructor. }
  intros (-> & Hk & j & Hj & H). constructor; [|eauto].
  intros Hin. destruct (chain_from _ _ _ _ _ H Hin) as (ks' & xs' & Hc & Hlen).
  destruct xs' as [|x' xs']; [done|]. destruct Hc as (_ & _ & j' & Hj' & Hc).
  simplify_eq. destruct (chain_det _ _ _ _ _ _ H Hc) as [-> _]. lia.
Qed.

Lemma chain_frame m m' i ks xs :
  (forall k, k ∈ ks -> m' !! k = m !! k) -> chain m i ks xs -> chain m' i ks xs.
Proof.
  revert i xs. induction ks as [|k ks IH]; intros i [|x xs]; cbn [chain]; try done.
  intros Hm (-> & Hk & j & Hj & H). split_and!; [done..|]. exists j.
  rewrite Hm by set_solver. split; [done|]. apply IH; [set_solver|done].
Qed.

(** Linking a new last entry. *)
Lemma chain_snoc m i ks xs k0 k x :
  chain m i (ks ++ [k0]) xs -> m !! k = None -> k <> usize_max ->
  exists x0, m !! k0 = Some (Entry x0 usize_max) /\
    chain (<[k0:=Entry x0 k]> (<[k:=Entry x usize_max]> m)) i ((ks ++ [k0]) ++ [k]) (xs ++ [x]).
Proof.
  intros Hc Hk Hmax. pose proof (chain_NoDup _ _ _ _ Hc) as Hnd.
  revert i xs Hc. induction ks as [|k1 ks IH]; intros i [|y ys] Hc; try done.
  - cbn in Hc. destruct Hc as (-> & ? & j & Hj & Hc).
    destruct ys as [|? ?]; [|done]. subst j. exists y. split; [done|]. cbn.
    assert (k0 <> k) by congruence.
    split_and!; [done..|]. exists k. rewrite lookup_insert_eq. split; [done|].
    split_and!; [done..|]. exists usize_max.
    by rewrite lookup_insert_ne, lookup_insert_eq.
  - cbn [app] in Hc, Hnd. destruct Hc as (-> & ? & j & Hj & Hc).
    apply NoDup_cons in Hnd as [Hk1 Hnd].
    destruct (IH Hnd _ _ Hc) as (x0 & Hx0 & Hc'). exists x0. split; [done|].
    cbn [app chain]. split_and!; [done..|]. exists j. split; [|done].
    rewrite lookup_insert_ne by set_solver. by rewrite lookup_insert_ne by congruence.
Qed.

(** Unlinking the first entry. *)
Lemma chain_delete_head m i k ks x xs :
  chain m i (k :: ks) (x :: xs) ->
  exists j, i = k /\ m !! k = Some (Entry x j) /\ chain (delete k m) j ks xs /\
            upd_frame m (k :: ks) (delete k m) ks.
Proof.
  intros H. pose proof (chain_NoDup _ _ _ _ H) as [Hfresh _]%NoDup_cons.
  destruct H as (-> & Hk & j & Hj & Hc). exists j. split_and!; [done..| |].
  - eapply chain_frame; [|done]. intros k' ?. rewrite lookup_delete_ne; set_solver.
  - split_and!; intros k' ?.
    + intros ?. rewrite lookup_delete_ne; set_solver.
    + set_solver.
    + intros ?. assert (k' = k) as -> by set_solver. apply lookup_delete_eq.
Qed.

Lemma slist_nil m : slist m new_indices [] [].
Proof. by split. Qed.

Lemma slist_frame m m' ix ks xs :
  (forall k, k ∈ ks -> m' !! k = m !! k) -> slist m ix ks xs -> slist m' ix ks xs.
Proof. intros Hm [Hc He]. split; [|done]. by eapply chain_frame. Qed.

Lemma slist_is_empty m ix ks xs :
  slist m ix ks xs -> (start ix =? usize_max) = bool_decide (xs = []).
Proof.
  intros [Hc _]. destruct ks as [|k ks], xs as [|x xs]; cbn in Hc; try done.
  - rewrite Hc. by rewrite N.eqb_refl.
  - destruct Hc as (-> & ? & _). by rewrite (proj2 (N.eqb_neq _ _)).
Qed.

Lemma upd_frame_refl (m : gmap N (SlabListEntry A)) ks : upd_frame m ks m ks.
Proof. split_and!; intros; [done|by left|done]. Qed.

Lemma upd_frame_trans (m1 m2 m3 : gmap N (SlabListEntry A)) ks1 ks2 ks3 :
  upd_frame m1 ks1 m2 ks2 -> upd_frame m2 ks2 m3 ks3 -> upd_frame m1 ks1 m3 ks3.
Proof.
  intros (F1 & N1 & D1) (F2 & N2 & D2). split_and!.
  - intros k H1 H3. destruct (decide (k ∈ ks2)) as [H2|H2].
    + rewrite (D2 k H2 H3). destruct (N1 k H2) as [?|?]; done.
    + rewrite (F2 k H2 H3). by apply F1.
  - intros k H3. destruct (decide (k ∈ ks1)) as [?|H1]; [by left|right].
    destruct (N2 k H3) as [H2|H2].
    + destruct (N1 k H2); done.
    + destruct (decide (k ∈ ks2)) as [H2'|H2']; [destruct (N1 k H2'); done|].
      by rewrite <- (F1 k H1 H2').
  - intros k H1 H3. destruct (decide (k ∈ ks2)) as [H2|H2]; [by apply D2|].
    rewrite (F2 k H2 H3). by apply D1.
Qed.
End chain.

#[export] Hint Resolve slist_nil upd_frame_refl : tokio.

(** * Specifications of the operations *)
Section specs.
Context `{!SlabOps slab} `{!SlabLaws slab} {A : Type}.
Implicit Types (l : SlabList slab A) (ks : list N) (xs : list A).

(** The list [l] holds [xs] at the keys [ks] of its slab. *)
Definition rep l ks xs : Prop := slist (slab_view (store l)) (index l) ks xs.

(** What an operation may do to the slab: [l] had the keys [ks], its
    successor has [ks'], everything else is untouched. *)
Definition only_changes l ks (s' : slab (SlabListEntry A)) ks' : Prop :=
  upd_frame (slab_view (store l)) ks (slab_view s') ks'.

Lemma rep_into_list ix s ks xs :
  slist (slab_view s) ix ks xs -> rep (into_list ix s) ks xs.
Proof. done. Qed.

Lemma is_empty_spec l ks xs : rep l ks xs -> is_empty l = bool_decide (xs = []).
Proof. apply slist_is_empty. Qed.

(** The end index of a non-empty list is the key of its last entry. *)
Lemma rep_last l ks k xs :
  rep l (ks ++ [k]) xs -> end_ (index l) = k /\ k <> usize_max.
Proof.
  intros [Hc He]. rewrite last_snoc in He. split; [done|].
  apply chain_keys in Hc. apply Forall_app in Hc as [_ Hc]. by inversion Hc.
Qed.

Lemma push_spec l ks xs x :
  rep l ks xs ->
  safe (fun l' => exists k, slab_view (store l) !! k = None /\
          rep l' (ks ++ [k]) (xs ++ [x]) /\ only_changes l ks (store l') (ks ++ [k]))
       (push x l).
Proof.
  intros H. unfold push. eapply safe_bind; [apply insert_slab_safe|].
  intros [k s] (Hk & Hmax & Hs). destruct ks as [|k0 ks0 _] using rev_ind.
  - destruct H as [Hc He]. destruct xs as [|? ?]; [|done]. cbn in He. rewrite He. cbn.
    exists k. split; [done|]. split.
    + split; [|done]. cbn. rewrite Hs. split_and!; [done..|].
      exists usize_max. by rewrite lookup_insert_eq.
    + unfold only_changes. cbn. rewrite Hs. split_and!; intros k' ?; [|set_solver|set_solver].
      intros ?. rewrite lookup_insert_ne; set_solver.
  - destruct (rep_last _ _ _ _ H) as [He Hk0]. rewrite He.
    rewrite (proj2 (N.eqb_neq _ _)) by done. cbn [negb].
    destruct H as [Hc _].
    destruct (chain_snoc _ _ _ _ _ _ x Hc Hk Hmax) as (x0 & Hx0 & Hc').
    assert (Hne : k0 <> k) by congruence.
    assert (Hk0s : slab_view s !! k0 = Some (Entry x0 usize_max)).
    { by rewrite Hs, lookup_insert_ne. }
    rewrite (index_slab_Ret _ _ _ Hk0s). cbn. exists k. split; [done|].
    unfold rep, only_changes, slist. cbn. rewrite slab_set_view by eauto. rewrite Hs.
    split; [by rewrite last_snoc|]. split_and!; intros k' ?.
    + intros ?. rewrite !lookup_insert_ne; set_solver.
    + set_solver.
    + set_solver.
Qed.

Lemma pop_spec l ks k xs x :
  rep l (k :: ks) (x :: xs) ->
  exists l', pop l = (Some x, l') /\ rep l' ks xs /\
             only_changes l (k :: ks) (store l') ks.
Proof.
  intros [Hc He]. destruct (chain_delete_head _ _ _ _ _ _ Hc) as (j & Hst & Hj & Hc' & F).
  unfold pop. rewrite Hst. destruct (slab_try_remove_some _ _ _ _ Hj) as (s' & -> & Hs').
  eexists. split; [done|]. unfold rep, only_changes. cbn. rewrite Hs'.
  split; [|done]. split; [done|]. cbn. destruct ks as [|k1 ks], xs as [|x1 xs]; try done.
  - cbn in Hc'. by rewrite Hc'.
  - destruct Hc' as (-> & ? & _). rewrite (proj2 (N.eqb_neq _ _)) by done. by rewrite He.
Qed.

Lemma pop_nil_spec l :
  rep l [] [] -> slab_view (store l) !! usize_max = None -> pop l = (None, l).
Proof.
  intros [Hc _] Hm. cbn in Hc. unfold pop. rewrite Hc.
  by rewrite slab_try_remove_none.
Qed.

Lemma peek_end_spec l ks xs x : rep l ks (xs ++ [x]) -> peek_end l = Ret (Some x).
Proof.
  intros H. unfold peek_end. destruct ks as [|k0 ks0 _] using rev_ind.
  { destruct H as [Hc _]. by apply chain_length in Hc; destruct xs. }
  destruct (rep_last _ _ _ _ H) as [He Hk0]. rewrite He.
  rewrite (proj2 (N.eqb_neq _ _)) by done. destruct H as [Hc _].
  revert Hc. generalize (start (index l)). revert xs.
  induction ks0 as [|k1 ks0 IH]; intros xs i Hc.
  - destruct xs as [|y ys]; cbn in Hc; destruct Hc as (-> & _ & j & Hj & Hc).
    + by rewrite (index_slab_Ret _ _ _ Hj).
    + by destruct ys.
  - destruct xs as [|y ys]; cbn in Hc; destruct Hc as (-> & _ & j & Hj & Hc).
    + by destruct ks0.
    + by eapply IH.
Qed.

Lemma peek_end_nil l : rep l [] [] -> peek_end l = Ret None.
Proof. intros [_ He]. unfold peek_end. rewrite He. done. Qed.

(** Dropping a list removes exactly its entries. *)
Lemma drop_loop_spec fuel l ks xs :
  chain (slab_view (store l)) (start (index l)) ks xs -> (length ks < fuel)%nat ->
  exists s', drop_loop fuel l = Ret s' /\ only_changes l ks s' [].
Proof.
  revert l ks xs. induction fuel as [|f IH]; intros l ks xs H Hf; [lia|]. cbn.
  unfold is_empty. destruct ks as [|k ks], xs as [|x xs]; try done.
  { cbn in H. rewrite H, N.eqb_refl. exists (store l). split; [done|]. apply upd_frame_refl. }
  pose proof H as (_ & Hk & _).
  destruct (chain_delete_head _ _ _ _ _ _ H) as (j & Hst & Hj & Hc & F).
  rewrite Hst, (proj2 (N.eqb_neq _ _)) by done.
  destruct (remove_slab_Ret _ _ _ Hj) as (s1 & -> & Hs1). cbn.
  destruct (IH (mkSlabList (Indices j (end_ (index l))) s1) ks xs) as (s' & Hd & F').
  - cbn. by rewrite Hs1.
  - cbn in Hf. lia.
  - exists s'. split; [done|]. unfold only_changes in *. cbn in F'. rewrite Hs1 in F'.
    by eapply upd_frame_trans.
Qed.

Lemma chain_size m i ks xs :
  chain (A := A) m i ks xs -> (length ks <= size m)%nat.
Proof.
  intros Hc. pose proof (chain_NoDup _ _ _ _ Hc) as Hnd.
  rewrite <- (size_dom m), <- (size_list_to_set (C := gset N) ks Hnd).
  apply subseteq_size. intros k Hk%elem_of_list_to_set.
  apply elem_of_dom. by eapply chain_lookup.
Qed.

Lemma drop_list_spec l ks xs :
  rep l ks xs -> exists s', drop_list l = Ret s' /\ only_changes l ks s' [].
Proof.
  intros [Hc _]. eapply drop_loop_spec; [exact Hc|].
  rewrite slab_len_view. apply chain_size in Hc. lia.
Qed.

(** [into_indices] keeps the entries: the drop of the emptied list that
    follows it does nothing. *)
Lemma into_indices_spec l : into_indices l = Ret (index l, store l).
Proof.
  unfold into_indices, drop_list. cbn. unfold is_empty. cbn. done.
Qed.

(** The loop of [drop] ends on every list, well formed or not: each turn
    removes an entry of the slab or panics. *)
Lemma drop_loop_fuel fuel l :
  (size (slab_view (store l)) < fuel)%nat -> drop_loop fuel l <> NoFuel.
Proof.
  revert l. induction fuel as [|f IH]; intros l Hf; [lia|]. cbn.
  destruct (is_empty l); [done|].
  destruct (remove_slab (start (index l)) (store l)) as [[e s]|p|w|] eqn:E; cbn; try done.
  - apply IH. cbn. apply remove_slab_inv in E as [E ->].
    assert (size (slab_view (store l)) <> 0)%nat.
    { intros Hz%map_size_empty_iff. by rewrite Hz in E. }
    rewrite map_size_delete, E. cbn. lia.
  - unfold remove_slab in E. by destruct (slab_try_remove _ _).
Qed.
End specs.

#[export] Hint Resolve rep_into_list : tokio.

(** * The list is a FIFO queue

    A client is a script of pushes and pops; the reference implementation
    is a pure list. *)
Inductive list_call (A : Type) : Type := CPush (x : A) | CPop | CPeekEnd.
Arguments CPush {A} x.
Arguments CPop {A}.
Arguments CPeekEnd {A}.

Section fifo.
Context `{!SlabOps slab} `{!SlabLaws slab} {A : Type}.

Definition run_call (c : list_call A) (l : SlabList slab A) :
  outcome (option A * SlabList slab A) :=
  match c with
  | CPush x => l' ← push x l; Ret (None, l')
  | CPop => Ret (pop l)
  | CPeekEnd => o ← peek_end l; Ret (o, l)
  end.
Fixpoint run_calls (cs : list (list_call A)) (l : SlabList slab A) :
  outcome (list (option A) * SlabList slab A) :=
  match cs with
  | [] => Ret ([], l)
  | c :: cs => '(o, l) ← run_call c l; '(os, l) ← run_calls cs l; Ret (o :: os, l)
  end.

Definition ref_call (c : list_call A) (q : list A) : option A * list A :=
  match c with
  | CPush x => (None, q ++ [x])
  | CPop => (head q, tail q)
  | CPeekEnd => (last q, q)
  end.
Fixpoint ref_calls (cs : list (list_call A)) (q : list A) : list (option A) * list A :=
  match cs with
  | [] => ([], q)
  | c :: cs => let '(o, q) := ref_call c q in
               let '(os, q) := ref_calls cs q in (o :: os, q)
  end.

(** The list [l] holds [q] and the rest of the slab is that of [m0]. *)
Definition holds (m0 : gmap N (SlabListEntry A)) (q : list A) (l : SlabList slab A) : Prop :=
  slab_view (store l) !! usize_max = None /\
  exists ks, rep l ks q /\ upd_frame m0 [] (slab_view (store l)) ks.

Lemma run_call_spec m0 q c l :
  holds m0 q l ->
  safe (fun '(o, l') => o = (ref_call c q).1 /\ holds m0 (ref_call c q).2 l') (run_call c l).
Proof.
  intros (Hm & ks & Hr & F). destruct c as [x| |]; cbn [run_call ref_call fst snd].
  - eapply safe_bind; [by apply push_spec|].
    intros l' (k & Hk & Hr' & F'). cbn. split; [done|]. split.
    + apply rep_last in Hr' as [_ Hne].
      destruct F' as (F1 & F2 & _). destruct (decide (usize_max ∈ ks)) as [Hin|Hin].
      { destruct Hr as [Hc _]. by destruct (chain_lookup _ _ _ _ _ Hc Hin) as [? ?]; simplify_eq. }
      rewrite F1; [done|done|set_solver].
    + eexists. split; [done|]. by eapply upd_frame_trans.
  - cbn. destruct ks as [|k ks], q as [|x q]; try (by destruct Hr).
    + rewrite (pop_nil_spec _ Hr Hm). cbn. split; [done|]. split; eauto.
    + destruct (pop_spec _ _ _ _ _ Hr) as (l' & -> & Hr' & F'). cbn. split; [done|]. split.
      * destruct F' as (F1 & F2 & F3). destruct (decide (usize_max ∈ k :: ks)) as [Hin|Hin].
        { destruct Hr as [Hc _].
          by destruct (chain_lookup _ _ _ _ _ Hc Hin) as [? ?]; simplify_eq. }
        rewrite F1; [done|done|set_solver].
      * eexists. split; [done|]. by eapply upd_frame_trans.
  - destruct q as [|x q _] using rev_ind.
    + destruct ks as [|k ks]; [|by destruct Hr]. rewrite (peek_end_nil _ Hr). cbn.
      split; [done|]. split; eauto.
    + rewrite (peek_end_spec _ _ _ _ Hr), last_snoc. cbn. split; [done|]. split; eauto.
Qed.

Lemma run_calls_spec m0 cs q l :
  holds m0 q l ->
  safe (fun '(os, l') => os = (ref_calls cs q).1 /\ holds m0 (ref_calls cs q).2 l')
       (run_calls cs l).
Proof.
  revert q l. induction cs as [|c cs IH]; intros q l H; cbn; [done|].
  eapply safe_bind; [by apply run_call_spec|]. intros [o l'] [-> H'].
  destruct (ref_call c q) as [o q']. cbn in *.
  eapply safe_bind; [by apply IH|]. intros [os l''] [-> H''].
  destruct (ref_calls cs q') as [os q'']. done.
Qed.

(** C4. Any sequence of [push], [pop] and [peek_end] on a fresh list
    in a slab shared with other lists answers like a pure FIFO queue, and
    dropping the list afterwards gives back every entry it used: the slab
    is what it was. Only the slab's own capacity can stop it. *)
Theorem slab_list_fifo (cs : list (list_call A)) (s : slab (SlabListEntry A)) :
  slab_view s !! usize_max = None ->
  safe (fun '(os, l') =>
          os = (ref_calls cs []).1 /\
          exists s', drop_list l' = Ret s' /\ slab_view s' = slab_view s)
       (run_calls cs (into_list new_indices s)).
Proof.
  intros Hs. eapply safe_mono.
  - apply (run_calls_spec (slab_view s) cs []). split; [done|].
    exists []. auto with tokio.
  - intros [os l'] [-> (Hm & ks & Hr & F)]. split; [done|].
    destruct (drop_list_spec _ _ _ Hr) as (s' & -> & F'). exists s'. split; [done|].
    destruct (upd_frame_trans _ _ _ _ _ _ F F') as (G & _).
    apply map_eq. intros k. apply G; set_solver.
Qed.
End fifo.

Definition shared_slab : gmap N (SlabListEntry N) := {[ 0 := Entry 7 usize_max ]}.

Lemma slab_list_fifo_witness :
  safe (fun '(os, l') =>
          os = [None; None; Some 1; Some 2; Some 2; None] /\
          exists s', drop_list l' = Ret s' /\ slab_view s' = slab_view shared_slab)
       (run_calls [CPush 1; CPush 2; CPop; CPeekEnd; CPop; CPop]
                  (into_list new_indices shared_slab)).
Proof.
  apply (slab_list_fifo [CPush 1; CPush 2; CPop; CPeekEnd; CPop; CPop] shared_slab).
  vm_compute. reflexivity.
Defined.
