(* ===== verification/IoUring.v ===== *)
(** The interfaces of the third-party crates [io-uring] and [libc] as far as
    the modelled code uses them: completion and submission queue entries,
    the functions of [io_uring::cqueue] and the ring. Nothing here is code
    of the repository, so there are only data, the signatures the code calls
    and the documented laws, gathered in classes; the witnesses instantiate
    them at the end of the file. *)
From S2P Require Import Prelude.

(** [cqueue::Entry]: [user_data] u64, [result] i32, [flags] u32. *)
Record cqe : Type := Cqe {
  cqe_user_data : N;
  cqe_result : Z;
  cqe_flags : N;
}.
#[export] Instance cqe_eq_dec : EqDecision cqe.
Proof. solve_decision. Defined.

(** [mem::zeroed()] at type [cqueue::Entry]. *)
Definition zeroed_cqe : cqe := Cqe 0 0 0.

(** [io_uring::cqueue::{more, buffer_select}]. *)
Class Cqueue : Type := {
  more : N -> bool;
  buffer_select : N -> option N;
}.

(** * Submission queue entries

    The builders of [io_uring::opcode], as free constructors: the arguments
    the code passes, in its order, then the options it sets. File
    descriptors and modes are [Z], addresses, lengths and offsets [N]. *)
Inductive opcode : Type :=
  | Nop
  | OpAsyncCancel (user_data : N)
  | OpRead (fd : Z) (ptr len offset : N)
  | OpWrite (fd : Z) (ptr len offset : N)
  | OpReadFixed (fd : Z) (ptr len buf_index offset : N)
  | OpWriteFixed (fd : Z) (ptr len buf_index offset : N)
  | OpReadv (fd : Z) (iovec len offset : N)
  | OpWritev (fd : Z) (iovec len offset : N)
  | OpAccept (fd : Z) (addr addrlen : N) (flags : Z)
  | OpClose (fd : Z)
  | OpConnect (fd : Z) (addr addrlen : N)
  | OpFallocate (fd : Z) (len offset : N) (mode : Z)
  | OpFsync (fd : Z) (datasync : bool)
  | OpMkDirAt (fd : Z) (path : list Byte.byte) (mode : N)
  | OpOpenAt (fd : Z) (path : list Byte.byte) (flags : Z) (mode : N)
  | OpRenameAt (fd : Z) (from : list Byte.byte) (fd2 : Z) (to : list Byte.byte) (flags : N)
  | OpSymlinkAt (fd : Z) (from to : list Byte.byte)
  | OpUnlinkAt (fd : Z) (path : list Byte.byte) (flags : Z)
  | OpStatx (fd : Z) (path : list Byte.byte) (flags : Z) (mask : N)
  | OpSendZc (fd : Z) (ptr len : N)
  | OpSendMsg (fd : Z) (msghdr : N)
  | OpSendMsgZc (fd : Z) (msghdr : N)
  | OpRecvMsg (fd : Z) (msghdr : N)
  | OpRecvMsgMulti (fd : Z) (msghdr buf_group : N)
  | OpProvideBuffers (addr : N) (len : Z) (nbufs bgid bid : N).

Record sqe : Type := Sqe {
  sqe_op : opcode;
  sqe_flags : N;
  sqe_user_data : N;
}.

(** [opcode::X::new(..).build()], [Entry::user_data]. *)
Definition build (o : opcode) : sqe := Sqe o 0 0.
Definition set_user_data (u : N) (s : sqe) : sqe := Sqe (sqe_op s) (sqe_flags s) u.

(** [squeue::Flags] and [Entry::flags]; whether the builder replaces the
    flags or adds to them is left to the crate. *)
Class SqueueFlags : Type := {
  IO_LINK : N;
  IO_HARDLINK : N;
  update_flags : N -> N -> N;     (* old flags, argument *)
}.
Definition set_sqe_flags {Sf : SqueueFlags} (f : N) (s : sqe) : sqe :=
  Sqe (sqe_op s) (update_flags (sqe_flags s) f) (sqe_user_data s).

(** * The ring

    [ring] is everything the kernel and the crate keep, including whatever
    the kernel will decide: an operation is a function of it. *)
Class Uring (ring : Type) : Type := {
  sq_push : sqe -> ring -> option ring;                (* None: PushError *)
  sq_push_multiple : list sqe -> ring -> option ring;
  sq_is_empty : ring -> bool;
  sq_sync : ring -> ring;
  ring_submit : ring -> io_result N * ring;
  ring_submit_and_wait : N -> ring -> io_result N * ring;
  cq_take : ring -> list cqe * ring;                   (* sync, then iterate *)
}.

(** The submission queue has a fixed number of entries: a push succeeds
    exactly while the entries fit, and appends to the pending ones. *)
Class UringLaws (ring : Type) `{!Uring ring} : Type := {
  sq_pending : ring -> list sqe;
  sq_capacity : ring -> nat;
  sq_push_some r e :
    (length (sq_pending r) < sq_capacity r)%nat ->
    exists r', sq_push e r = Some r' /\ sq_pending r' = sq_pending r ++ [e] /\
               sq_capacity r' = sq_capacity r;
  sq_push_none r e : (sq_capacity r <= length (sq_pending r))%nat -> sq_push e r = None;
  sq_push_multiple_none r es :
    (sq_capacity r < length (sq_pending r) + length es)%nat -> sq_push_multiple es r = None;
  sq_push_multiple_some r es :
    (length (sq_pending r) + length es <= sq_capacity r)%nat ->
    exists r', sq_push_multiple es r = Some r' /\ sq_pending r' = sq_pending r ++ es /\
               sq_capacity r' = sq_capacity r;
  sq_is_empty_spec r : sq_is_empty r = true <-> sq_pending r = [];
  sq_sync_pending r : sq_pending (sq_sync r) = sq_pending r;
  sq_sync_capacity r : sq_capacity (sq_sync r) = sq_capacity r;
  submit_capacity r : sq_capacity (ring_submit r).2 = sq_capacity r;
  submit_wait_capacity n r : sq_capacity (ring_submit_and_wait n r).2 = sq_capacity r;
  cq_take_capacity r : sq_capacity (cq_take r).2 = sq_capacity r;
  cq_take_pending r : sq_pending (cq_take r).2 = sq_pending r;
}.

(** [libc] error numbers the driver tests for. *)
Class Errno : Type := { EBUSY : Z; EINTR : Z; EINVAL : Z; EBUSY_EINTR : EBUSY <> EINTR }.

(** * Instances for the witnesses: Linux values, and a scripted kernel *)
#[export] Instance linux_cqueue : Cqueue := {
  more := fun f => N.testbit f 1;
  buffer_select := fun f => if N.testbit f 0 then Some (N.shiftr f 16) else None;
}.
#[export] Instance linux_flags : SqueueFlags := {
  IO_LINK := 4; IO_HARDLINK := 8; update_flags := N.lor;
}.
#[export] Instance linux_errno : Errno := {
  EBUSY := 16; EINTR := 4; EINVAL := 22; EBUSY_EINTR := ltac:(done);
}.

(** A kernel that follows a script: each submission consumes the head of
    [sk_script], a result and the completions that arrive with it; an
    accepted submission empties the submission queue. *)
Record script_ring : Type := ScriptRing {
  sk_pending : list sqe;
  sk_capacity : nat;
  sk_cq : list cqe;
  sk_script : list (io_result N * list cqe);
}.
Definition script_submit (r : script_ring) : io_result N * script_ring :=
  match sk_script r with
  | [] => (Ok (N.of_nat (length (sk_pending r))),
           ScriptRing [] (sk_capacity r) (sk_cq r) [])
  | (Ok n, cs) :: sc => (Ok n, ScriptRing [] (sk_capacity r) (sk_cq r ++ cs) sc)
  | (Err e, cs) :: sc =>
      (Err e, ScriptRing (sk_pending r) (sk_capacity r) (sk_cq r ++ cs) sc)
  end.
Definition script_push_multiple (es : list sqe) (r : script_ring) : option script_ring :=
  if Nat.leb (length (sk_pending r) + length es) (sk_capacity r)
  then Some (ScriptRing (sk_pending r ++ es) (sk_capacity r) (sk_cq r) (sk_script r))
  else None.

#[export] Instance script_uring : Uring script_ring := {
  sq_push := fun e r => script_push_multiple [e] r;
  sq_push_multiple := script_push_multiple;
  sq_is_empty := fun r => match sk_pending r with [] => true | _ => false end;
  sq_sync := fun r => r;
  ring_submit := script_submit;
  ring_submit_and_wait := fun _ => script_submit;
  cq_take := fun r => (sk_cq r, ScriptRing (sk_pending r) (sk_capacity r) [] (sk_script r));
}.

Lemma script_push_multiple_some es r :
  (length (sk_pending r) + length es <= sk_capacity r)%nat ->
  script_push_multiple es r =
    Some (ScriptRing (sk_pending r ++ es) (sk_capacity r) (sk_cq r) (sk_script r)).
Proof. intros H. unfold script_push_multiple. by rewrite (proj2 (Nat.leb_le _ _)). Qed.

Lemma script_push_multiple_none es r :
  (sk_capacity r < length (sk_pending r) + length es)%nat -> script_push_multiple es r = None.
Proof. intros H. unfold script_push_multiple. by rewrite (proj2 (Nat.leb_gt _ _)). Qed.

Lemma script_submit_capacity r : sk_capacity (script_submit r).2 = sk_capacity r.
Proof. unfold script_submit. by destruct (sk_script r) as [|[[?|?] ?] ?]. Qed.

#[export] Instance script_uring_laws : UringLaws script_ring.
Proof.
  refine {| sq_pending := sk_pending; sq_capacity := sk_capacity |}; intros; cbn.
  - eexists. rewrite script_push_multiple_some; [done|cbn; lia].
  - apply script_push_multiple_none. cbn. lia.
  - by apply script_push_multiple_none.
  - eexists. by rewrite script_push_multiple_some.
  - by destruct (sk_pending r).
  - done.
  - done.
  - apply script_submit_capacity.
  - apply script_submit_capacity.
  - done.
  - done.
Defined.
