(* ===== verification/Op.v ===== *)
(** [src/src/runtime/driver/op/mod.rs]: life cycles of operations, the
    completion handler [Lifecycle::complete], and the traits through which
    operations consume completions. What needs the driver (polling, dropping
    and submitting) is in [Driver.v] and [Handle.v]. *)
From S2P Require Import Prelude Slab IoUring SlabList.

(** [std::task::Waker] and [Waker::will_wake], which compares the two raw
    pointers of the waker. *)
Record Waker : Type := mkWaker { wk_data : N; wk_vtable : N }.
#[export] Instance Waker_eq_dec : EqDecision Waker.
Proof. solve_decision. Defined.
Definition will_wake (a b : Waker) : bool :=
  (wk_data a =? wk_data b) && (wk_vtable a =? wk_vtable b).

(** [Box<dyn Any>]. *)
Inductive BoxAny : Type := box_any (T : Type) (v : T).

(** A single CQE entry. *)
Record CqeResult : Type := mkCqeResult {
  result_ : io_result N;
  flags : N;
}.

Section conversions.
Context {Prof : Profile}.

(** [impl From<cqueue::Entry> for CqeResult]. *)
Definition from_cqe (c : cqe) : outcome CqeResult :=
  let res := cqe_result c in
  r ← (if (0 <=? res)%Z then Ret (Ok (u32_of_i32 res))
       else e ← neg_i32 res; Ret (Err (OsError e)));
  Ret (mkCqeResult r (cqe_flags c)).
End conversions.

Inductive Lifecycle : Type :=
  | Submitted
  | Waiting (w : Waker)
  | Ignored (data : BoxAny)
  | Completed (c : cqe)
  | CompletionList (ix : SlabListIndices).

Abbreviation Completion := (SlabListEntry CqeResult).

Section complete.
Context {Prof : Profile} {Cq : Cqueue} `{!SlabOps slab}.

(** What [Lifecycle::complete] answers: whether the caller must remove the
    entry, the new state, the completion slab, and the wakers woken. *)
Definition completed : Type := bool * Lifecycle * slab Completion * list Waker.

(** The first completion of an operation somebody is interested in. *)
Definition first_completion (completions : slab Completion) (c : cqe)
    (woken : list Waker) : outcome completed :=
  if more (cqe_flags c) then
    r ← from_cqe c;
    list ← push r (into_list new_indices completions);
    '(ix, completions) ← into_indices list;
    Ret (false, CompletionList ix, completions, woken)
  else Ret (false, Completed c, completions, woken).

(** [Lifecycle::complete]. *)
Definition complete_lifecycle (lc : Lifecycle) (completions : slab Completion) (c : cqe) :
  outcome completed :=
  match lc with
  | Submitted => first_completion completions c []
  | Waiting waker => first_completion completions c [waker]
  | Ignored data =>
      if more (cqe_flags c) then Ret (false, Ignored data, completions, [])
      else Ret (true, Submitted, completions, [])
  | Completed _ => Panic (PUnreachable "invalid operation state")
  | CompletionList indices =>
      r ← from_cqe c;
      list ← push r (into_list indices completions);
      '(ix, completions) ← into_indices list;
      Ret (false, CompletionList ix, completions, [])
  end.
End complete.

(** * Operations and their traits *)

(** [Op<T, CqeType>], less its weak handle to the driver. *)
Record Op (T : Type) : Type := mkOp {
  op_index : N;
  op_data : option T;
}.
Arguments mkOp {T} op_index op_data.
Arguments op_index {T} _.
Arguments op_data {T} _.

Definition new_op {T} (data : T) (index : N) : Op T := mkOp index (Some data).
Definition is_finished {T} (op : Op T) : bool :=
  match op_data op with None => true | Some _ => false end.
Definition take_data {T} (op : Op T) : option T * Op T :=
  (op_data op, mkOp (op_index op) None).
Definition insert_data {T} (data : T) (op : Op T) : Op T :=
  mkOp (op_index op) (Some data).

(** [trait Completable]. *)
Class Completable (T Output : Type) : Type :=
  complete : T -> CqeResult -> outcome Output.
Arguments complete {T Output _} _ _.

(** [trait Updateable: Completable]; [default_should_yield] and
    [default_yield_result] are the trait's default methods. *)
Class Updateable (T Output : Type) : Type := {
  update : T -> CqeResult -> outcome T;
  should_yield : T -> bool;
  yield_result : T -> outcome (Output * T);
}.
Arguments should_yield {T Output _} _.

Definition default_should_yield {T} (_ : T) : bool := false.
Definition default_yield_result {T Output} (_ : T) : outcome (Output * T) :=
  Panic (PUnreachable
    "yield_result called but not implemented - should_yield() must not return true").

(** [trait OneshotOutputTransform]. *)
Class OneshotOutputTransform (T StoredData Output : Type) : Type :=
  transform_oneshot_output : T -> StoredData -> cqe -> outcome Output.

(** * Results of the conversion *)

Section from_cqe_lemmas.
Context {Prof : Profile}.

(** The kernel reports errors as [-errno], so never [i32::MIN]. *)
Definition cqe_ok (c : cqe) : Prop := (-2147483648 < cqe_result c < 2147483648)%Z.

Definition pure_result (c : cqe) : CqeResult :=
  mkCqeResult
    (if (0 <=? cqe_result c)%Z then Ok (Z.to_N (cqe_result c))
     else Err (OsError (- cqe_result c)))
    (cqe_flags c).

Lemma from_cqe_ok c : cqe_ok c -> from_cqe c = Ret (pure_result c).
Proof.
  intros [Hlo Hhi]. unfold from_cqe, pure_result, neg_i32.
  destruct (Z.leb_spec 0 (cqe_result c)); cbn.
  - by rewrite u32_of_i32_nonneg.
  - destruct (Z.eqb_spec (cqe_result c) (-2147483648)); [lia|done].
Qed.

Lemma from_cqe_flags c r : from_cqe c = Ret r -> flags r = cqe_flags c.
Proof.
  unfold from_cqe. intros (x & _ & E)%bind_Ret. by injection E as <-.
Qed.

Lemma will_wake_spec a b : will_wake a b = true <-> a = b.
Proof.
  unfold will_wake. destruct a as [a1 a2], b as [b1 b2]; cbn.
  rewrite andb_true_iff, !N.eqb_eq. split; [intros [-> ->]; done|by intros [= -> ->]].
Qed.
End from_cqe_lemmas.
