(* ===== verification/Driver.v ===== *)
(** [src/src/runtime/driver/mod.rs]: the table of operations [Ops] and the
    driver, which owns it together with the ring.

    A function of the source that takes [&mut self] takes the state and
    returns the new one; the lists of wakers are the [wake] calls it made,
    in order. The loops that wait for the kernel are bounded by a fuel
    argument; [NoFuel] stands for still looping. *)
From S2P Require Import Prelude Slab IoUring SlabList Op.

Record Ops (slab : Type -> Type) : Type := mkOps {
  lifecycle : slab Lifecycle;
  completions : slab Completion;
}.
Arguments mkOps {slab} lifecycle completions.
Arguments lifecycle {slab} _.
Arguments completions {slab} _.

Section ops.
Context {Prof : Profile} {Cq : Cqueue} `{!SlabOps slab}.
Implicit Types ops : Ops slab.

Definition ops_new : Ops slab := mkOps slab_empty slab_empty.

Definition get_mut (i : N) ops : option Lifecycle := slab_get i (lifecycle ops).

(** [*lifecycle = lc] through the reference that [get_mut] returned. *)
Definition set_lifecycle (i : N) (lc : Lifecycle) ops : Ops slab :=
  mkOps (slab_set i lc (lifecycle ops)) (completions ops).
Definition set_completions (s : slab Completion) ops : Ops slab := mkOps (lifecycle ops) s.

Definition ops_insert ops : outcome (N * Ops slab) :=
  '(i, s) ← insert_slab Submitted (lifecycle ops);
  Ret (i, mkOps s (completions ops)).

Definition ops_remove (i : N) ops : outcome (Ops slab) :=
  '(_, s) ← remove_slab i (lifecycle ops);
  Ret (mkOps s (completions ops)).

Definition ops_complete (i : N) (c : cqe) ops : outcome (Ops slab * list Waker) :=
  lc ← index_slab i (lifecycle ops);
  '(done, lc, s, woken) ← complete_lifecycle lc (completions ops) c;
  let ops := mkOps (slab_set i lc (lifecycle ops)) s in
  ops ← (if (done : bool) then ops_remove i ops else Ret ops);
  Ret (ops, woken).

(** The last received completion of a list, and the list deallocated. *)
Definition peek_and_drop (indices : SlabListIndices) ops : outcome (bool * Ops slab) :=
  let list := into_list indices (completions ops) in
  peeked ← peek_end list;
  last ← unwrap "called `Option::unwrap()` on a `None` value" peeked;
  s ← drop_list list;
  Ret (more (flags last), set_completions s ops).

(** [Driver::remove_op]. *)
Definition remove_op {T} (op : Op T) ops : outcome (Op T * Ops slab) :=
  if is_finished op then Ret (op, ops)
  else
    let i := op_index op in
    match get_mut i ops with
    | None => Ret (op, ops)
    | Some lc =>
        match lc with
        | Submitted | Waiting _ =>
            let '(data, op) := take_data op in
            Ret (op, set_lifecycle i (Ignored (box_any (option T) data)) ops)
        | Completed _ => ops ← ops_remove i ops; Ret (op, ops)
        | CompletionList indices =>
            '(more_expected, ops) ← peek_and_drop indices ops;
            if (more_expected : bool) then
              let '(data, op) := take_data op in
              Ret (op, set_lifecycle i (Ignored (box_any (option T) data)) ops)
            else ops ← ops_remove i ops; Ret (op, ops)
        | Ignored _ => Panic (PUnreachable "internal error: entered unreachable code")
        end
    end.

(** [Driver::remove_op_2]. *)
Definition remove_op_2 {T} (i : N) (data : T) ops : outcome (Ops slab) :=
  match get_mut i ops with
  | None => Ret ops
  | Some lc =>
      match lc with
      | Submitted | Waiting _ => Ret (set_lifecycle i (Ignored (box_any T data)) ops)
      | Completed _ => ops_remove i ops
      | CompletionList indices =>
          '(more_expected, ops) ← peek_and_drop indices ops;
          if (more_expected : bool) then Ret (set_lifecycle i (Ignored (box_any T data)) ops)
          else ops_remove i ops
      | Ignored _ => Panic (PUnreachable "internal error: entered unreachable code")
      end
  end.

(** The state in which a pending poll leaves an operation. *)
Definition wait_with (cx : Waker) (lc : Lifecycle) : Lifecycle :=
  match lc with
  | Waiting waker => if negb (will_wake waker cx) then Waiting cx else Waiting waker
  | _ => Waiting cx
  end.

(** [Driver::poll_op_2]. *)
Definition poll_op_2 (i : N) (cx : Waker) ops : outcome (Poll cqe * Ops slab) :=
  lc ← unwrap "invalid internal state" (get_mut i ops);
  match lc with
  | Submitted | Waiting _ => Ret (Pending, set_lifecycle i (wait_with cx lc) ops)
  | Ignored _ => Panic (PUnreachable "internal error: entered unreachable code")
  | Completed c => ops ← ops_remove i ops; Ret (Ready c, ops)
  | CompletionList _ => Panic (PUnreachable "No `more` flag set for SingleCQE")
  end.

(** [Driver::poll_op]. *)
Definition poll_op `{!Completable T Output} (op : Op T) (cx : Waker) ops :
  outcome (Poll Output * Op T * Ops slab) :=
  let i := op_index op in
  lc ← unwrap "invalid internal state" (get_mut i ops);
  match lc with
  | Submitted | Waiting _ => Ret (Pending, op, set_lifecycle i (wait_with cx lc) ops)
  | Ignored _ => Panic (PUnreachable "internal error: entered unreachable code")
  | Completed c =>
      ops ← ops_remove i ops;
      let '(taken, op) := take_data op in
      data ← unwrap "called `Option::unwrap()` on a `None` value" taken;
      r ← from_cqe c;
      out ← complete data r;
      Ret (Ready out, op, ops)
  | CompletionList _ => Panic (PUnreachable "No `more` flag set for SingleCQE")
  end.

(** How the [while let Some(cqe) = list.pop()] loop of
    [poll_multishot_op] ends: a batch is yielded, the final completion was
    popped, or the list ran empty. *)
Inductive drained (T : Type) : Type :=
  | Yielded (data : T) (remaining : SlabList slab CqeResult)
  | Final (data : T) (c : CqeResult) (remaining : SlabList slab CqeResult)
  | Emptied (data : T) (remaining : SlabList slab CqeResult).
Arguments Yielded {T} data remaining.
Arguments Final {T} data c remaining.
Arguments Emptied {T} data remaining.

Fixpoint drain `{!Updateable T Output} (fuel : nat) (data : T)
    (list : SlabList slab CqeResult) : outcome (drained T) :=
  match fuel with
  | O => NoFuel
  | S f =>
      match pop list with
      | (None, list) => Ret (Emptied data list)
      | (Some c, list) =>
          if more (flags c) then
            data ← update data c;
            if should_yield data then Ret (Yielded data list) else drain f data list
          else Ret (Final data c list)
      end
  end.

Definition terminated : CqeResult :=
  mkCqeResult (Err (CustomError BrokenPipe "multishot operation was terminated")) 0.

(** [Driver::poll_multishot_op]. *)
Definition poll_multishot_op `{!Completable T Output} `{!Updateable T Output}
    (op : Op T) (cx : Waker) ops : outcome (Poll Output * Op T * Ops slab * list Waker) :=
  _ ← assert (negb (is_finished op)) "multishot op polled after its final completion";
  let i := op_index op in
  match get_mut i ops with
  | None =>
      match take_data op with
      | (Some data, op) => out ← complete data terminated; Ret (Ready out, op, ops, [])
      | (None, op) => Ret (Pending, op, ops, [])
      end
  | Some lc =>
      match lc with
      | Submitted | Waiting _ =>
          Ret (Pending, op, set_lifecycle i (wait_with cx lc) ops, [])
      | Ignored _ => Panic (PUnreachable "internal error: entered unreachable code")
      | Completed c =>
          ops ← ops_remove i ops;
          let '(taken, op) := take_data op in
          data ← unwrap "called `Option::unwrap()` on a `None` value" taken;
          r ← from_cqe c;
          out ← complete data r;
          Ret (Ready out, op, ops, [])
      | CompletionList indices =>
          let '(taken, op) := take_data op in
          data ← unwrap "called `Option::unwrap()` on a `None` value" taken;
          let list := into_list indices (completions ops) in
          d ← drain (S (slab_len (completions ops))) data list;
          match d with
          | Yielded data list =>
              '(remaining, s) ← into_indices list;
              '(result, data) ← yield_result data;
              let op := insert_data data op in
              let ops := set_completions s ops in
              if negb (is_empty_indices remaining) then
                Ret (Ready result, op, set_lifecycle i (CompletionList remaining) ops, [cx])
              else Ret (Ready result, op, set_lifecycle i (Waiting cx) ops, [])
          | Final data c list =>
              s ← drop_list list;
              ops ← ops_remove i (set_completions s ops);
              out ← complete data c;
              Ret (Ready out, op, ops, [])
          | Emptied data list =>
              s ← drop_list list;
              let op := insert_data data op in
              Ret (Pending, op, set_lifecycle i (Waiting cx) (set_completions s ops), [])
          end
      end
  end.
End ops.

Arguments Yielded {slab T} data remaining.
Arguments Final {slab T} data c remaining.
Arguments Emptied {slab T} data remaining.

(** * The driver: operations and ring *)
Record Driver (slab : Type -> Type) (ring : Type) : Type := mkDriver {
  ops : Ops slab;
  uring : ring;
}.
Arguments mkDriver {slab ring} ops uring.
Arguments ops {slab ring} _.
Arguments uring {slab ring} _.

Section driver.
Context {Prof : Profile} {Cq : Cqueue} {Er : Errno} `{!SlabOps slab} `{!Uring ring}.
Implicit Types d : Driver slab ring.

(** The call's answer, the driver after it, and the wakers woken. *)
Definition driver_result (A : Type) : Type := outcome (A * Driver slab ring * list Waker).

Definition wait d : io_result N * Driver slab ring :=
  let '(r, u) := ring_submit_and_wait 1 (uring d) in (r, mkDriver (ops d) u).

Definition num_operations d : nat := slab_len (lifecycle (ops d)).

(** The loop over the received completions. *)
Fixpoint dispatch (cs : list cqe) (o : Ops slab) : outcome (Ops slab * list Waker) :=
  match cs with
  | [] => Ret (o, [])
  | c :: cs =>
      if cqe_user_data c =? u64_max then dispatch cs o
      else
        '(o, woken) ← ops_complete (as_usize (cqe_user_data c)) c o;
        '(o, woken') ← dispatch cs o;
        Ret (o, woken ++ woken')
  end.
Definition dispatch_completions d : outcome (Driver slab ring * list Waker) :=
  let '(cs, u) := cq_take (uring d) in
  '(o, woken) ← dispatch cs (ops d);
  Ret (mkDriver o u, woken).

Fixpoint submit (fuel : nat) d : driver_result (io_result unit) :=
  match fuel with
  | O => NoFuel
  | S f =>
      let '(r, u) := ring_submit (uring d) in
      let d := mkDriver (ops d) u in
      match r with
      | Ok _ => Ret (Ok tt, mkDriver (ops d) (sq_sync u), [])
      | Err e =>
          if decide (raw_os_error e = Some EBUSY) then
            '(d, woken) ← dispatch_completions d;
            '(r, d, woken') ← submit f d;
            Ret (r, d, woken ++ woken')
          else if decide (raw_os_error e <> Some EINTR) then Ret (Err e, d, [])
          else submit f d
      end
  end.

(** [while push(..).is_err() { self.submit() .. }], shared by the four
    callers; [Err] is the result of the [submit] that failed. *)
Fixpoint push_loop (fuel : nat) (try_push : ring -> option ring) d :
  driver_result (io_result unit) :=
  match fuel with
  | O => NoFuel
  | S f =>
      match try_push (uring d) with
      | Some u => Ret (Ok tt, mkDriver (ops d) u, [])
      | None =>
          '(r, d, woken) ← submit f d;
          match r with
          | Ok _ => '(r, d, woken') ← push_loop f try_push d; Ret (r, d, woken ++ woken')
          | Err e => Ret (Err e, d, woken)
          end
      end
  end.

Definition expect_submitted (r : io_result unit) : outcome unit :=
  match r with
  | Ok _ => Ret tt
  | Err _ => Panic (PUnwrap "Internal error, failed to submit ops")
  end.

Definition submit_op_2 (fuel : nat) (s : sqe) d : driver_result N :=
  '(i, o) ← ops_insert (ops d);
  let s := set_user_data (as_u64 i) s in
  '(r, d, woken) ← push_loop fuel (sq_push s) (mkDriver o (uring d));
  _ ← expect_submitted r;
  Ret (i, d, woken).

Fixpoint insert_all (sqes : list sqe) (o : Ops slab) : outcome (list N * list sqe * Ops slab) :=
  match sqes with
  | [] => Ret ([], [], o)
  | s :: sqes =>
      '(i, o) ← ops_insert o;
      '(indices, entries, o) ← insert_all sqes o;
      Ret (i :: indices, set_user_data (as_u64 i) s :: entries, o)
  end.
Definition submit_ops (fuel : nat) (sqes : list sqe) d : driver_result (list N) :=
  '(indices, entries, o) ← insert_all sqes (ops d);
  '(r, d, woken) ← push_loop fuel (sq_push_multiple entries) (mkDriver o (uring d));
  _ ← expect_submitted r;
  Ret (indices, d, woken).

(** [f] builds the entry from the data, which it may update, or panics. [drop_op] is what
    happens when the early return drops the new operation: its destructor
    runs against the driver in its present state (see [Handle.v]). *)
Definition submit_op {T} (fuel : nat) (data : T) (f : T -> outcome (sqe * T))
    (drop_op : Op T -> Driver slab ring -> outcome (Driver slab ring)) d :
  driver_result (io_result (Op T)) :=
  '(i, o) ← ops_insert (ops d);
  '(s, data) ← f data;
  let s := set_user_data (as_u64 i) s in
  let op := new_op data i in
  '(r, d, woken) ← push_loop fuel (sq_push s) (mkDriver o (uring d));
  match r with
  | Ok _ => Ret (Ok op, d, woken)
  | Err e => d ← drop_op op d; Ret (Err e, d, woken)
  end.

Definition cancel_sqe (i : N) : sqe :=
  set_user_data u64_max (build (OpAsyncCancel (as_u64 i))).

Definition cancel_op (fuel : nat) (i : N) d : driver_result (io_result unit) :=
  if negb (contains_slab i (lifecycle (ops d))) then Ret (Ok tt, d, [])
  else push_loop fuel (sq_push (cancel_sqe i)) d.
End driver.

(** * Dropping the driver *)
Section drop.
Context {Prof : Profile} {Cq : Cqueue} {Er : Errno} `{!SlabOps slab} `{!Uring ring}.
Implicit Types d : Driver slab ring.

Definition drop_msg : string := "Internal error when dropping driver".

(** [while !submission().is_empty() { self.submit().expect(..) }] *)
Fixpoint flush_loop (fuel : nat) d : outcome (Driver slab ring * list Waker) :=
  match fuel with
  | O => NoFuel
  | S f =>
      if sq_is_empty (uring d) then Ret (d, [])
      else
        '(r, d, woken) ← submit f d;
        match r with
        | Ok _ => '(d, woken') ← flush_loop f d; Ret (d, woken ++ woken')
        | Err _ => Panic (PUnwrap drop_msg)
        end
  end.

(** First pass, one life cycle: [mem::replace] puts [Ignored(Box::new(()))]
    in place and the old value is dropped, unless it was [Completed]. *)
Definition mark_cycle (i : N) (o : Ops slab) : outcome (Ops slab) :=
  match slab_get i (lifecycle o) with
  | None => Ret o
  | Some (Completed _) => Ret o
  | Some (CompletionList indices) =>
      '(more_expected, o) ← peek_and_drop indices o;
      Ret (set_lifecycle i
             (if (more_expected : bool) then Ignored (box_any unit tt)
              else Completed zeroed_cqe) o)
  | Some _ => Ret (set_lifecycle i (Ignored (box_any unit tt)) o)
  end.
Fixpoint mark_cycles (is_ : list N) (o : Ops slab) : outcome (Ops slab) :=
  match is_ with
  | [] => Ret o
  | i :: is_ => o ← mark_cycle i o; mark_cycles is_ o
  end.

(** Second pass: an [AsyncCancel] for each life cycle marked [Ignored]. *)
Fixpoint cancel_push (fuel : nat) (i : N) d : outcome (Driver slab ring) :=
  match fuel with
  | O => NoFuel
  | S f =>
      match sq_push (cancel_sqe i) (uring d) with
      | Some u => Ret (mkDriver (ops d) u)
      | None =>
          let '(r, d) := wait d in
          match r with
          | Ok _ => cancel_push f i d
          | Err _ => Panic (PUnwrap drop_msg)
          end
      end
  end.
Fixpoint cancel_ignored (fuel : nat) (is_ : list N) d : outcome (Driver slab ring) :=
  match is_ with
  | [] => Ret d
  | i :: is_ =>
      d ← match slab_get i (lifecycle (ops d)) with
          | Some (Ignored _) => cancel_push fuel i d
          | _ => Ret d
          end;
      cancel_ignored fuel is_ d
  end.

(** Third pass: reap the completions until the table is empty. *)
Fixpoint reap (fuel : nat) (id : N) d : outcome (Driver slab ring * list Waker) :=
  match fuel with
  | O => NoFuel
  | S f =>
      if is_empty_slab (lifecycle (ops d)) then Ret (d, [])
      else
        match slab_get id (lifecycle (ops d)) with
        | Some (Ignored _) =>
            let '(_, d) := wait d in
            '(d, woken) ← dispatch_completions d;
            '(d, woken') ← reap f id d;
            Ret (d, woken ++ woken')
        | Some _ =>
            o ← ops_remove id (ops d);
            reap f (id + 1) (mkDriver o (uring d))
        | None => reap f (id + 1) d
        end
  end.

(** [Drop for Ops]. *)
Definition drop_ops (o : Ops slab) : outcome unit :=
  assert (forallb (fun i => match slab_get i (lifecycle o) with
                            | Some (Completed _) => true
                            | _ => false
                            end) (slab_keys (lifecycle o)))
    "assertion failed: all cycles are completed".

(** [impl Drop for Driver]: the driver as the body leaves it, and the wakers
    it woke. *)
Definition drop_body (fuel : nat) d : outcome (Driver slab ring * list Waker) :=
  '(d, woken1) ← flush_loop fuel d;
  o ← mark_cycles (slab_keys (lifecycle (ops d))) (ops d);
  d ← cancel_ignored fuel (slab_keys (lifecycle o)) (mkDriver o (uring d));
  '(d, woken2) ← reap fuel 0 d;
  Ret (d, woken1 ++ woken2).
(** Dropping a [Driver]: its destructor, then that of the field [ops]. *)
Definition drop_driver (fuel : nat) d : outcome (list Waker) :=
  '(d, woken) ← drop_body fuel d;
  _ ← drop_ops (ops d);
  Ret woken.
End drop.
