(* ===== verification/DriverSpec.v ===== *)
(** The abstract driver and the refinement of [Driver.v] to it.

    Abstractly the table of operations is a finite map from indices to
    states in which a list of received completions is just a list: no slab
    of completions, no linked lists, no sharing. [related] connects the two:
    it says which keys of the completion slab each operation owns, that no
    two operations share an entry and that no entry is leaked. Every
    operation of [Ops] refines its abstract counterpart, panics included;
    the slabs' own capacity is the only extra way to fail. *)
From S2P Require Import Prelude Slab IoUring SlabList Op Driver.

Inductive alifecycle : Type :=
  | ASubmitted
  | AWaiting (w : Waker)
  | AIgnored (data : BoxAny)
  | ACompleted (c : cqe)
  | AList (xs : list CqeResult).

Abbreviation aops := (gmap N alifecycle).

(** * The abstract operations *)
Section abstract.
Context {Prof : Profile} {Cq : Cqueue}.
Implicit Types a : aops.

(** The state after the first completion of a live operation. *)
Definition received (c : cqe) : alifecycle :=
  if more (cqe_flags c) then AList [pure_result c] else ACompleted c.

Definition a_complete (i : N) (c : cqe) a : outcome (aops * list Waker) :=
  match a !! i with
  | None => Panic (PIndex "invalid key")
  | Some ASubmitted => Ret (<[i := received c]> a, [])
  | Some (AWaiting w) => Ret (<[i := received c]> a, [w])
  | Some (AIgnored data) =>
      if more (cqe_flags c) then Ret (a, []) else Ret (delete i a, [])
  | Some (ACompleted _) => Panic (PUnreachable "invalid operation state")
  | Some (AList xs) => Ret (<[i := AList (xs ++ [pure_result c])]> a, [])
  end.

(** Whether the kernel will still post completions for a list. *)
Definition expects_more (xs : list CqeResult) : outcome bool :=
  r ← unwrap "called `Option::unwrap()` on a `None` value" (last xs); Ret (more (flags r)).

Definition a_remove {T} (i : N) (data : T) a : outcome aops :=
  match a !! i with
  | None => Ret a
  | Some (ASubmitted | AWaiting _) => Ret (<[i := AIgnored (box_any T data)]> a)
  | Some (ACompleted _) => Ret (delete i a)
  | Some (AList xs) =>
      b ← expects_more xs;
      Ret (if (b : bool) then <[i := AIgnored (box_any T data)]> a else delete i a)
  | Some (AIgnored _) => Panic (PUnreachable "internal error: entered unreachable code")
  end.

Definition a_wait_with (cx : Waker) (al : alifecycle) : alifecycle :=
  match al with
  | AWaiting w => if negb (will_wake w cx) then AWaiting cx else AWaiting w
  | _ => AWaiting cx
  end.

Definition a_poll_2 (i : N) (cx : Waker) a : outcome (Poll cqe * aops) :=
  al ← unwrap "invalid internal state" (a !! i);
  match al with
  | ASubmitted | AWaiting _ => Ret (Pending, <[i := a_wait_with cx al]> a)
  | AIgnored _ => Panic (PUnreachable "internal error: entered unreachable code")
  | ACompleted c => Ret (Ready c, delete i a)
  | AList _ => Panic (PUnreachable "No `more` flag set for SingleCQE")
  end.

(** One round of [dispatch_completions]. *)
Fixpoint a_dispatch (cs : list cqe) a : outcome (aops * list Waker) :=
  match cs with
  | [] => Ret (a, [])
  | c :: cs =>
      if cqe_user_data c =? u64_max then a_dispatch cs a
      else
        '(a, woken) ← a_complete (as_usize (cqe_user_data c)) c a;
        '(a, woken') ← a_dispatch cs a;
        Ret (a, woken ++ woken')
  end.

Inductive adrained (T : Type) : Type :=
  | AYielded (data : T) (remaining : list CqeResult)
  | AFinal (data : T) (c : CqeResult)
  | AEmptied (data : T).
Arguments AYielded {T} data remaining.
Arguments AFinal {T} data c.
Arguments AEmptied {T} data.

Fixpoint a_drain `{!Updateable T Output} (data : T) (xs : list CqeResult) :
  outcome (adrained T) :=
  match xs with
  | [] => Ret (AEmptied data)
  | c :: xs =>
      if more (flags c) then
        data ← update data c;
        if should_yield data then Ret (AYielded data xs) else a_drain data xs
      else Ret (AFinal data c)
  end.

Definition a_poll_multishot `{!Completable T Output} `{!Updateable T Output}
    (op : Op T) (cx : Waker) a : outcome (Poll Output * Op T * aops * list Waker) :=
  let i := op_index op in
  data ← or_panic (PAssert "multishot op polled after its final completion") (op_data op);
  match a !! i with
  | None => out ← complete data terminated; Ret (Ready out, mkOp i None, a, [])
  | Some ((ASubmitted | AWaiting _) as al) =>
      Ret (Pending, op, <[i := a_wait_with cx al]> a, [])
  | Some (AIgnored _) => Panic (PUnreachable "internal error: entered unreachable code")
  | Some (ACompleted c) =>
      r ← from_cqe c;
      out ← complete data r;
      Ret (Ready out, mkOp i None, delete i a, [])
  | Some (AList xs) =>
      d ← a_drain data xs;
      match d with
      | AYielded data rest =>
          '(result, data) ← yield_result data;
          Ret (match rest with
               | [] => (Ready result, mkOp i (Some data), <[i := AWaiting cx]> a, [])
               | _ => (Ready result, mkOp i (Some data), <[i := AList rest]> a, [cx])
               end)
      | AFinal data c =>
          out ← complete data c; Ret (Ready out, mkOp i None, delete i a, [])
      | AEmptied data =>
          Ret (Pending, mkOp i (Some data), <[i := AWaiting cx]> a, [])
      end
  end.
End abstract.

Arguments AYielded {T} data remaining.
Arguments AFinal {T} data c.
Arguments AEmptied {T} data.

(** * The relation *)

Definition lc_rel (m : gmap N Completion) (ks : list N) (lc : Lifecycle) (al : alifecycle) :
  Prop :=
  match lc, al with
  | Submitted, ASubmitted => ks = []
  | Waiting w, AWaiting w' => w = w' /\ ks = []
  | Ignored d, AIgnored d' => d = d' /\ ks = []
  | Completed c, ACompleted c' => c = c' /\ ks = []
  | CompletionList ix, AList xs => slist m ix ks xs /\ xs <> []
  | _, _ => False
  end.

Section relation.
Context `{!SlabOps slab} `{!SlabLaws slab}.
Implicit Types (o : Ops slab) (a : aops) (own : N -> list N).

Definition entry_rel m ks (lc : option Lifecycle) (al : option alifecycle) : Prop :=
  match lc, al with
  | Some lc, Some al => lc_rel m ks lc al
  | None, None => ks = []
  | _, _ => False
  end.

(** [own i] are the keys of the completion slab that operation [i] uses. *)
Record ops_rel own o a : Prop := {
  rel_entry i : entry_rel (slab_view (completions o)) (own i)
                  (slab_view (lifecycle o) !! i) (a !! i);
  rel_disjoint i j k : k ∈ own i -> k ∈ own j -> i = j;
  rel_cover k : is_Some (slab_view (completions o) !! k) -> exists i, k ∈ own i;
}.
Definition related o a : Prop := exists own, ops_rel own o a.

Lemma entry_rel_keys m ks lc al k :
  entry_rel m ks lc al -> k ∈ ks -> is_Some (m !! k) /\ k <> usize_max.
Proof.
  destruct lc as [[]|], al as [[]|]; cbn; try done;
    try (intros ? ?; destruct_and?; subst; by set_solver).
  intros [[Hc _] _] Hk. split; [by eapply chain_lookup|].
  apply chain_keys in Hc. rewrite Forall_forall in Hc. by apply Hc.
Qed.

Lemma rel_keys own o a i k :
  ops_rel own o a -> k ∈ own i ->
  is_Some (slab_view (completions o) !! k) /\ k <> usize_max.
Proof. intros H. eapply entry_rel_keys, rel_entry, H. Qed.

Lemma rel_no_max own o a :
  ops_rel own o a -> slab_view (completions o) !! usize_max = None.
Proof.
  intros H. destruct (slab_view (completions o) !! usize_max) eqn:E; [|done].
  destruct (rel_cover _ _ _ H usize_max) as [i Hi]; [by eexists|].
  by destruct (rel_keys _ _ _ _ _ H Hi).
Qed.

Lemma lc_rel_frame m m' ks lc al :
  (forall k, k ∈ ks -> m' !! k = m !! k) -> lc_rel m ks lc al -> lc_rel m' ks lc al.
Proof.
  destruct lc, al; cbn; try done. intros Hm [Hs ?]. split; [|done].
  by eapply slist_frame.
Qed.

(** The generic step: operation [i] exchanged its keys for [ks'] and its
    state for [lc'] ([None]: it left the table); nothing else changed. *)
Lemma ops_rel_step own o a i ks' o' lc' al' :
  ops_rel own o a ->
  upd_frame (slab_view (completions o)) (own i) (slab_view (completions o')) ks' ->
  (forall j, slab_view (lifecycle o') !! j =
     (if decide (i = j) then lc' else slab_view (lifecycle o) !! j)) ->
  entry_rel (slab_view (completions o')) ks' lc' al' ->
  ops_rel (<[i := ks']> own) o' (partial_alter (fun _ => al') i a).
Proof.
  intros H (F1 & F2 & F3) Hlc Hi.
  assert (Hother : forall j k, j <> i -> k ∈ own j -> (k ∉ own i) /\ (k ∉ ks')).
  { intros j k Hj Hk. assert (k ∉ own i) as Hki.
    { intros Hki. by apply Hj, (rel_disjoint _ _ _ H j i k). }
    split; [done|]. intros Hk'. destruct (F2 k Hk') as [?|Hnone]; [done|].
    destruct (rel_keys _ _ _ _ _ H Hk) as [[? ?] _]. congruence. }
  split.
  - intros j. rewrite Hlc. destruct (decide (i = j)) as [<-|Hj].
    + by rewrite fn_lookup_insert, lookup_partial_alter_eq.
    + rewrite fn_lookup_insert_ne, lookup_partial_alter_ne by done.
      pose proof (rel_entry _ _ _ H j) as Hr. unfold entry_rel in *.
      destruct (slab_view (lifecycle o) !! j), (a !! j); try done.
      eapply lc_rel_frame; [|done]. intros k Hk.
      destruct (Hother j k) as [? ?]; [done..|]. by apply F1.
  - intros j1 j2 k. destruct (decide (i = j1)) as [<-|H1], (decide (i = j2)) as [<-|H2];
      rewrite ?fn_lookup_insert, ?fn_lookup_insert_ne by done.
    + done.
    + intros Hk1 Hk2. by destruct (Hother j2 k) as [? ?].
    + intros Hk1 Hk2. by destruct (Hother j1 k) as [? ?].
    + by apply (rel_disjoint _ _ _ H).
  - intros k Hk. destruct (decide (k ∈ ks')) as [Hk'|Hk'].
    { exists i. by rewrite fn_lookup_insert. }
    destruct (decide (k ∈ own i)) as [Hki|Hki].
    { rewrite F3 in Hk by done. by destruct Hk. }
    rewrite F1 in Hk by done. destruct (rel_cover _ _ _ H k Hk) as [j Hj].
    exists j. rewrite fn_lookup_insert_ne; [done|]. by intros <-.
Qed.

Lemma related_set own o a i ks' lc' al' s :
  ops_rel own o a -> is_Some (slab_view (lifecycle o) !! i) ->
  upd_frame (slab_view (completions o)) (own i) (slab_view s) ks' ->
  lc_rel (slab_view s) ks' lc' al' ->
  related (mkOps (slab_set i lc' (lifecycle o)) s) (<[i := al']> a).
Proof.
  intros H Hi F Hlc. exists (<[i := ks']> own).
  apply (ops_rel_step own o a i ks' _ (Some lc') (Some al')); [done|done| |done].
  intros j. cbn. rewrite slab_set_view by done. apply lookup_insert.
Qed.

Lemma related_remove own o a i lc s sl :
  ops_rel own o a -> slab_view (lifecycle o) !! i = Some lc ->
  slab_view sl = delete i (slab_view (lifecycle o)) ->
  upd_frame (slab_view (completions o)) (own i) (slab_view s) [] ->
  related (mkOps sl s) (delete i a).
Proof.
  intros H Hi Hsl F. exists (<[i := []]> own).
  apply (ops_rel_step own o a i [] _ None None); [done|done| |done].
  intros j. cbn. rewrite Hsl. apply lookup_delete.
Qed.

Lemma related_new : related (ops_new (slab := slab)) ∅.
Proof.
  exists (fun _ => []). split; cbn.
  - intros i. rewrite (slab_view_empty Lifecycle), !lookup_empty. reflexivity.
  - intros i j k ?%not_elem_of_nil. done.
  - intros k. rewrite slab_view_empty, lookup_empty. by intros [? ?].
Qed.

(** The completion slab holds nothing but what operations own: with no
    operation in the table it is empty. *)
Lemma related_empty o : related o ∅ -> slab_view (completions o) = ∅.
Proof.
  intros [own H]. apply map_empty. intros k. destruct (_ !! k) eqn:E; [|done].
  destruct (rel_cover _ _ _ H k) as [i Hi]; [by eexists|].
  pose proof (rel_entry _ _ _ H i) as Hr. rewrite lookup_empty in Hr.
  unfold entry_rel in Hr. destruct (_ !! i); [done|]. rewrite Hr in Hi. set_solver.
Qed.
End relation.

(** * Refinement of outcomes *)

(** The concrete call fails for want of slab capacity, or it ends the way
    the abstract one does, in related states. *)
Definition refines {A B} (R : A -> B -> Prop) (c : outcome A) (a : outcome B) : Prop :=
  match c, a with
  | Panic PCapacity, _ => True
  | Ret x, Ret y => R x y
  | Panic p, Panic q => p = q
  | Undefined w, Undefined w' => w = w'
  | NoFuel, NoFuel => True
  | _, _ => False
  end.

Lemma refines_bind {A B A' B'} (R : A -> B -> Prop) (R' : A' -> B' -> Prop) c a f g :
  refines R c a -> (forall x y, R x y -> refines R' (f x) (g y)) ->
  refines R' (c ≫= f) (a ≫= g).
Proof.
  destruct c as [x|[]| |], a as [y|?| |]; cbn; intros; subst; try done; by auto.
Qed.

Lemma refines_inv {A B} (R : A -> B -> Prop) c a x y :
  refines R c a -> c = Ret x -> a = Ret y -> R x y.
Proof. by intros H -> ->. Qed.

Lemma refines_refl {A} (c : outcome A) : refines eq c c.
Proof. by destruct c as [|[]| |]. Qed.

Lemma refines_same {A A' B'} (R' : A' -> B' -> Prop) (c : outcome A) f g :
  (forall x, c = Ret x -> refines R' (f x) (g x)) -> refines R' (c ≫= f) (c ≫= g).
Proof. destruct c as [x|[]| |]; cbn; auto. Qed.

(** Against an abstract call that returns, a [safe] concrete call refines. *)
Lemma refines_safe {A B} (P : A -> Prop) (R : A -> B -> Prop) c b :
  safe P c -> (forall x, P x -> R x b) -> refines R c (Ret b).
Proof. destruct c as [x|[]| |]; cbn; auto; by intros []. Qed.

(** * The operations refine *)
Section refinement.
Context {Prof : Profile} {Cq : Cqueue} `{!SlabOps slab} `{!SlabLaws slab}.
Implicit Types (o : Ops slab) (a : aops).

(** Case analysis on the two tables at index [i] under [rel_entry]. *)
Lemma related_cases own o a i :
  ops_rel own o a ->
  (slab_view (lifecycle o) !! i = None /\ a !! i = None /\ own i = []) \/
  (exists lc al, slab_view (lifecycle o) !! i = Some lc /\ a !! i = Some al /\
                 lc_rel (slab_view (completions o)) (own i) lc al).
Proof.
  intros H. pose proof (rel_entry _ _ _ H i) as Hr. unfold entry_rel in Hr.
  destruct (slab_view (lifecycle o) !! i), (a !! i); naive_solver.
Qed.

Lemma insert_spec o a :
  related o a ->
  safe (fun '(i, o') => a !! i = None /\ i <> usize_max /\
                        related o' (<[i := ASubmitted]> a)) (ops_insert o).
Proof.
  intros [own H]. unfold ops_insert. eapply safe_bind; [apply insert_slab_safe|].
  intros [i s] (Hi & Hmax & Hs). cbn.
  destruct (related_cases _ _ _ i H) as [(_ & Ha & Ho)|(? & ? & ? & _)]; [|congruence].
  split_and!; [done..|]. exists (<[i := []]> own).
  apply (ops_rel_step own o a i [] _ (Some Submitted) (Some ASubmitted)); [done| | |done].
  - rewrite Ho. apply upd_frame_refl.
  - intros j. cbn. rewrite Hs. apply lookup_insert.
Qed.

Definition same_answer {A} (x : A * Ops slab) (y : A * aops) : Prop :=
  x.1 = y.1 /\ related x.2 y.2.
Definition same_wakes (x : Ops slab * list Waker) (y : aops * list Waker) : Prop :=
  x.2 = y.2 /\ related x.1 y.1.

Lemma first_completion_refines own o a i c woken :
  ops_rel own o a -> is_Some (slab_view (lifecycle o) !! i) -> own i = [] -> cqe_ok c ->
  refines same_wakes
    ('(fin, lc, s, woken) ← first_completion (completions o) c woken;
     let o := mkOps (slab_set i lc (lifecycle o)) s in
     o ← (if (fin : bool) then ops_remove i o else Ret o);
     Ret (o, woken))
    (Ret (<[i := received c]> a, woken)).
Proof.
  intros H Hi Ho Hc. unfold first_completion, received.
  destruct (more (cqe_flags c)).
  - rewrite from_cqe_ok by done. cbn [mbind outcome_bind].
    assert (Hr := rep_into_list _ _ _ _ (slist_nil (slab_view (completions o)))).
    destruct (safe_cases _ _ (push_spec _ _ _ (pure_result c) Hr))
      as [(l & -> & k & _ & Hl & F)| ->]; [|done].
    cbn [mbind outcome_bind]. rewrite into_indices_spec. cbn. split; [done|].
    eapply related_set; [done|done|by rewrite Ho|done].
  - cbn. split; [done|]. cbn.
    eapply related_set; [done|done|rewrite Ho; apply upd_frame_refl|done].
Qed.

(** Removing operation [i] from a table that differs from [o] at [i] only,
    once its completion entries are gone. *)
Lemma remove_related own o a i (L : slab Lifecycle) s :
  ops_rel own o a -> is_Some (slab_view L !! i) ->
  (forall j, i <> j -> slab_view L !! j = slab_view (lifecycle o) !! j) ->
  upd_frame (slab_view (completions o)) (own i) (slab_view s) [] ->
  exists o', ops_remove i (mkOps L s) = Ret o' /\ related o' (delete i a).
Proof.
  intros H [lc Hi] HL F. unfold ops_remove. cbn.
  destruct (remove_slab_Ret _ _ _ Hi) as (L' & -> & HL'). cbn. eexists. split; [done|].
  exists (<[i := []]> own). apply (ops_rel_step own o a i [] _ None None); [done|done| |done].
  intros j. cbn. rewrite HL', lookup_delete. destruct (decide (i = j)); [done|]. by apply HL.
Qed.

Lemma remove_related_id own o a i s :
  ops_rel own o a -> is_Some (slab_view (lifecycle o) !! i) ->
  upd_frame (slab_view (completions o)) (own i) (slab_view s) [] ->
  exists o', ops_remove i (mkOps (lifecycle o) s) = Ret o' /\ related o' (delete i a).
Proof. intros. by eapply remove_related. Qed.

Lemma upd_frame_nil (m : gmap N Completion) ks : ks = [] -> upd_frame m ks m [].
Proof. intros ->. apply upd_frame_refl. Qed.

Lemma remove_related_self own o a i :
  ops_rel own o a -> is_Some (slab_view (lifecycle o) !! i) -> own i = [] ->
  exists o', ops_remove i o = Ret o' /\ related o' (delete i a).
Proof.
  intros H Hi Ho. destruct o as [L s].
  exact (remove_related_id own (mkOps L s) a i s H Hi (upd_frame_nil _ _ Ho)).
Qed.

Lemma slab_set_ne i j lc o :
  is_Some (slab_view (lifecycle o) !! i) -> i <> j ->
  slab_view (slab_set i lc (lifecycle o)) !! j = slab_view (lifecycle o) !! j.
Proof. intros Hi ?. rewrite slab_set_view by done. by apply lookup_insert_ne. Qed.

Lemma slab_set_eq i lc o :
  is_Some (slab_view (lifecycle o) !! i) ->
  is_Some (slab_view (slab_set i lc (lifecycle o)) !! i).
Proof. intros Hi. rewrite slab_set_view by done. rewrite lookup_insert_eq. by eexists. Qed.

(** A completion arrives. *)
Lemma complete_refines o a i c :
  related o a -> cqe_ok c -> refines same_wakes (ops_complete i c o) (a_complete i c a).
Proof.
  intros [own H] Hc. unfold ops_complete, a_complete, index_slab. rewrite slab_get_view.
  destruct (related_cases _ _ _ i H) as [(-> & -> & _)|(lc & al & Hi & Ha & Hr)]; [done|].
  assert (His : is_Some (slab_view (lifecycle o) !! i)) by eauto.
  rewrite Hi, Ha. cbn [or_panic mbind outcome_bind].
  destruct lc, al; try done; cbn in Hr.
  - by eapply first_completion_refines.
  - destruct Hr as [-> Ho]. by eapply first_completion_refines.
  - destruct Hr as [-> Ho]. cbn [complete_lifecycle]. destruct (more (cqe_flags c)); cbn.
    + split; [done|]. cbn. rewrite <- (insert_id _ _ _ Ha).
      eapply related_set; [done|done|by apply upd_frame_nil|done].
    + destruct (remove_related own o a i (slab_set i Submitted (lifecycle o)) (completions o))
        as (o' & -> & ?); eauto using slab_set_eq, slab_set_ne, upd_frame_nil; done.
  - destruct Hr as [Hs Hne]. cbn [complete_lifecycle]. rewrite from_cqe_ok by done.
    cbn [mbind outcome_bind]. apply rep_into_list in Hs.
    destruct (safe_cases _ _ (push_spec _ _ _ (pure_result c) Hs))
      as [(l & -> & k & _ & Hl & F)| ->]; [|done].
    cbn [mbind outcome_bind]. rewrite into_indices_spec. cbn. split; [done|].
    eapply related_set; [done|done|exact F|]. split; [done|]. by destruct xs.
Qed.

Lemma dispatch_refines cs o a :
  related o a -> Forall cqe_ok cs -> refines same_wakes (dispatch cs o) (a_dispatch cs a).
Proof.
  intros H Hcs. revert o a H. induction Hcs as [|c cs Hc _ IH]; intros o a H; cbn.
  { by split. }
  destruct (cqe_user_data c =? u64_max); [by apply IH|].
  eapply refines_bind; [by apply complete_refines|]. intros [o1 w] [a1 w'] [Hw H1].
  cbn in Hw. subst w'. eapply refines_bind; [by apply IH|].
  intros [o2 w2] [a2 w2'] [Hw2 H2]. cbn in *. subst w2'. by split.
Qed.

(** Peeking at a list and dropping it. *)
Lemma peek_and_drop_spec own o a i ix xs :
  ops_rel own o a -> slist (slab_view (completions o)) ix (own i) xs -> xs <> [] ->
  exists s b, peek_and_drop ix o = Ret (b, set_completions s o) /\
    expects_more xs = Ret b /\
    upd_frame (slab_view (completions o)) (own i) (slab_view s) [].
Proof.
  intros H Hs Hne. destruct xs as [|x xs _] using rev_ind; [done|].
  apply rep_into_list in Hs. unfold peek_and_drop, expects_more.
  rewrite (peek_end_spec _ _ _ _ Hs), last_snoc. cbn [mbind outcome_bind unwrap].
  destruct (drop_list_spec _ _ _ Hs) as (s & -> & F). cbn. eauto.
Qed.

Lemma remove_2_refines {T} o a i (data : T) :
  related o a -> refines related (remove_op_2 i data o) (a_remove i data a).
Proof.
  intros Hrel. pose proof Hrel as [own H]. unfold remove_op_2, a_remove, get_mut.
  rewrite slab_get_view.
  destruct (related_cases _ _ _ i H) as [(-> & -> & _)|(lc & al & Hi & Ha & Hr)]; [done|].
  assert (His : is_Some (slab_view (lifecycle o) !! i)) by eauto.
  rewrite Hi, Ha. destruct lc, al; try done; cbn in Hr.
  - cbn. eapply related_set; [done|done|by apply upd_frame_nil|done].
  - destruct Hr as [-> Ho]. cbn. eapply related_set; [done|done|by apply upd_frame_nil|done].
  - destruct Hr as [-> Ho].
    by destruct (remove_related_self _ _ _ _ H His Ho) as (o' & -> & ?).
  - destruct Hr as [Hs Hne].
    destruct (peek_and_drop_spec _ _ _ _ _ _ H Hs Hne) as (s & b & -> & -> & F). cbn.
    destruct b.
    + cbn. eapply (related_set own o a i []); [done|done|exact F|done].
    + destruct (remove_related_id own o a i s) as (o' & E & ?); eauto.
      unfold set_completions. rewrite E. done.
Qed.

(** [remove_op] is [remove_op_2] on the data that the operation still has;
    a finished operation leaves the table alone. *)
Lemma remove_op_as {T} (op : Op T) o :
  is_finished op = false ->
  (o' ← remove_op op o; Ret o'.2) = remove_op_2 (op_index op) (op_data op) o.
Proof.
  intros Hf. unfold remove_op, remove_op_2. rewrite Hf.
  destruct (get_mut (op_index op) o) as [[]|]; cbn; try done.
  - by destruct (ops_remove _ o).
  - destruct (peek_and_drop ix o) as [[[] o1]| | |]; cbn; try done.
    by destruct (ops_remove _ o1).
Qed.

Lemma wait_refines own o a i lc al cx :
  ops_rel own o a -> slab_view (lifecycle o) !! i = Some lc ->
  (lc = Submitted /\ al = ASubmitted \/ exists w, lc = Waiting w /\ al = AWaiting w) ->
  own i = [] ->
  related (set_lifecycle i (wait_with cx lc) o) (<[i := a_wait_with cx al]> a).
Proof.
  intros H Hi Hlc Ho. unfold set_lifecycle.
  eapply (related_set own o a i []); [done|by eexists|by apply upd_frame_nil|].
  destruct Hlc as [[-> ->]|(w & -> & ->)]; cbn; [done|by destruct (will_wake w cx)].
Qed.

Lemma poll_2_refines o a i cx :
  related o a -> refines same_answer (poll_op_2 i cx o) (a_poll_2 i cx a).
Proof.
  intros [own H]. unfold poll_op_2, a_poll_2, get_mut. rewrite slab_get_view.
  destruct (related_cases _ _ _ i H) as [(-> & -> & _)|(lc & al & Hi & Ha & Hr)]; [done|].
  rewrite Hi, Ha. cbn [unwrap mbind outcome_bind].
  destruct lc, al; try done; cbn in Hr.
  - split; [done|]. eapply (wait_refines _ _ _ _ _ ASubmitted); eauto.
  - destruct Hr as [-> Ho]. split; [done|]. eapply (wait_refines _ _ _ _ _ (AWaiting w0)); eauto.
  - destruct Hr as [-> Ho].
    by destruct (remove_related_self _ _ _ i H) as (o' & -> & ?).
Qed.

(** [poll_op] is [poll_op_2] followed by the delivery of the result. *)
Lemma poll_op_as `{!Completable T Output} (op : Op T) cx o :
  poll_op op cx o =
    ('(p, o) ← poll_op_2 (op_index op) cx o;
     match p with
     | Pending => Ret (Pending, op, o)
     | Ready c =>
         data ← unwrap "called `Option::unwrap()` on a `None` value" (op_data op);
         r ← from_cqe c;
         out ← complete data r;
         Ret (Ready out, mkOp (op_index op) None, o)
     end).
Proof.
  unfold poll_op, poll_op_2. destruct (get_mut (op_index op) o) as [[]|]; cbn; try done.
  by destruct (ops_remove (op_index op) o).
Qed.

(** ** The multishot poll *)
Definition same_drained {T} (s : slab Completion) ks (d : drained (slab := slab) T)
    (ad : adrained T) : Prop :=
  match d, ad with
  | Yielded data l, AYielded data' xs =>
      data = data' /\ exists ks', rep l ks' xs /\
        upd_frame (slab_view s) ks (slab_view (store l)) ks'
  | Final data c l, AFinal data' c' =>
      data = data' /\ c = c' /\ exists ks' xs, rep l ks' xs /\
        upd_frame (slab_view s) ks (slab_view (store l)) ks'
  | Emptied data l, AEmptied data' =>
      data = data' /\ rep l [] [] /\
        upd_frame (slab_view s) ks (slab_view (store l)) []
  | _, _ => False
  end.

Lemma same_drained_step {T} (s s' : slab Completion) ks ks' (d : drained T) ad :
  upd_frame (slab_view s) ks (slab_view s') ks' ->
  same_drained s' ks' d ad -> same_drained s ks d ad.
Proof.
  intros F. destruct d, ad; cbn; try done.
  - intros (-> & ks2 & ? & ?). eauto using upd_frame_trans.
  - intros (-> & -> & ks2 & xs & ? & ?). eauto 10 using upd_frame_trans.
  - intros (-> & ? & ?). eauto using upd_frame_trans.
Qed.

Lemma drain_refines `{!Updateable T Output} fuel (data : T) l ks xs :
  rep l ks xs -> slab_view (store l) !! usize_max = None -> (length xs < fuel)%nat ->
  refines (same_drained (store l) ks) (drain fuel data l) (a_drain data xs).
Proof.
  revert data l ks xs. induction fuel as [|f IH]; intros data l ks xs H Hm Hf; [lia|].
  destruct ks as [|k ks], xs as [|x xs]; try (by destruct H as [? _]); cbn.
  { rewrite (pop_nil_spec _ H Hm). cbn. auto with tokio. }
  destruct (pop_spec _ _ _ _ _ H) as (l' & -> & H' & F). destruct (more (flags x)).
  - apply refines_same. intros data' _. destruct (should_yield data').
    + cbn. eauto.
    + assert (Hm' : slab_view (store l') !! usize_max = None).
      { destruct F as (F & _ & _). pose proof H as [Hc _]. apply chain_keys in Hc.
        rewrite Forall_forall in Hc. rewrite F; [done| |];
          intros Hin; by apply (Hc usize_max); set_solver. }
      cbn in Hf. specialize (IH data' l' ks xs H' Hm' ltac:(lia)).
      destruct (drain f data' l') as [d|[]| |], (a_drain data' xs) as [ad| | |]; try done.
      cbn in *. by eapply same_drained_step.
  - cbn. eauto 10.
Qed.

Definition same_multishot {T Output}
    (x : Poll Output * Op T * Ops slab * list Waker)
    (y : Poll Output * Op T * aops * list Waker) : Prop :=
  let '(p, op, o, w) := x in let '(p', op', a, w') := y in
  p = p' /\ op = op' /\ w = w' /\ related o a.

Lemma slist_length_size m ix ks xs :
  slist (A := CqeResult) m ix ks xs -> (length xs < S (size m))%nat.
Proof. intros [Hc _]. rewrite <- (chain_length _ _ _ _ Hc). apply chain_size in Hc. lia. Qed.

(** The [CompletionList] branch. *)
Lemma poll_list_refines `{!Completable T Output} `{!Updateable T Output}
    own o a i ix xs (data : T) cx :
  ops_rel own o a -> slab_view (lifecycle o) !! i = Some (CompletionList ix) ->
  slist (slab_view (completions o)) ix (own i) xs ->
  get_mut i o = Some (CompletionList ix) -> a !! i = Some (AList xs) ->
  refines same_multishot (poll_multishot_op (mkOp i (Some data)) cx o)
    (a_poll_multishot (mkOp i (Some data)) cx a).
Proof.
  intros H Hi Hs Hg Ha. assert (His : is_Some (slab_view (lifecycle o) !! i)) by eauto.
  unfold poll_multishot_op, a_poll_multishot.
  cbn [is_finished op_data op_index negb assert or_panic mbind outcome_bind].
  rewrite Hg, Ha. cbn [take_data op_data op_index unwrap mbind outcome_bind].
  pose proof (slist_length_size _ _ _ _ Hs) as Hlen.
  apply rep_into_list in Hs. pose proof (rel_no_max _ _ _ H) as Hm.
  eapply refines_bind; [eapply drain_refines; [exact Hs|exact Hm|by rewrite slab_len_view]|].
  intros d ad Hd. destruct d as [data' l|data' c l|data' l],
    ad as [data'' rest|data'' c'|data'']; try done; cbn in Hd.
  - destruct Hd as (<- & ks' & Hr & F). rewrite into_indices_spec.
    cbn [mbind outcome_bind]. apply refines_same. intros [result data2] _.
    change (is_empty_indices (index l)) with (is_empty l).
    rewrite (is_empty_spec _ _ _ Hr). destruct rest as [|r rest]; cbn.
    + split_and!; [done..|]. destruct ks'; [|by destruct Hr].
      eapply (related_set own o a i []); done.
    + split_and!; [done..|]. eapply (related_set own o a i ks'); done.
  - destruct Hd as (<- & <- & ks' & xs' & Hr & F).
    destruct (drop_list_spec _ _ _ Hr) as (s & -> & F'). cbn [mbind outcome_bind].
    destruct (remove_related_id own o a i s) as (o' & E & ?); [done..| |].
    { by eapply upd_frame_trans. }
    unfold set_completions. rewrite E. cbn [mbind outcome_bind].
    by apply refines_same.
  - destruct Hd as (<- & Hr & F).
    destruct (drop_list_spec _ _ _ Hr) as (s & -> & F'). cbn. split_and!; [done..|].
    eapply (related_set own o a i []); [done|done| |done]. by eapply upd_frame_trans.
Qed.

Lemma poll_multishot_refines `{!Completable T Output} `{!Updateable T Output}
    o a (op : Op T) cx :
  related o a ->
  refines same_multishot (poll_multishot_op op cx o) (a_poll_multishot op cx a).
Proof.
  intros [own H]. destruct op as [i [data|]]; [|done].
  destruct (related_cases _ _ _ i H) as [(Hi & Ha & _)|(lc & al & Hi & Ha & Hr)].
  { unfold poll_multishot_op, a_poll_multishot, get_mut. cbn. rewrite slab_get_view, Hi, Ha.
    cbn. apply refines_same. intros out _. split_and!; [done..|]. by eexists. }
  assert (His : is_Some (slab_view (lifecycle o) !! i)) by eauto.
  assert (Hg : get_mut i o = Some lc) by (unfold get_mut; by rewrite slab_get_view).
  destruct lc as [|w|d|c|ix], al as [|w'|d'|c'|xs]; try done; cbn in Hr;
    [| | | |destruct Hr; by eapply poll_list_refines];
    unfold poll_multishot_op, a_poll_multishot; cbn [is_finished op_data op_index negb
      assert or_panic mbind outcome_bind]; rewrite Hg, Ha.
  - split_and!; [done..|].
    apply (wait_refines own o a i Submitted ASubmitted cx H Hi); [by left|done].
  - destruct Hr as [-> Ho]. split_and!; [done..|].
    apply (wait_refines own o a i (Waiting w') (AWaiting w') cx H Hi); eauto.
  - done.
  - destruct Hr as [-> Ho].
    destruct (remove_related_self _ _ _ _ H His Ho) as (o' & -> & ?).
    cbn [take_data op_data op_index unwrap mbind outcome_bind].
    apply refines_same. intros r _. by apply refines_same.
Qed.
End refinement.
