(* ===== verification/System.v ===== *)
(** The driver's table, its clients and the kernel as one transition system.

    A state has the concrete table [Ops] of [Driver.v], the operations the
    kernel still works on, and the handles that client code holds. An event
    is a submission, a completion posted by the kernel, a poll, a
    cancellation or a drop; its effect is computed by the functions of
    [Driver.v] themselves. [enabled] states what the environment promises:
    the kernel completes only what is in flight, posts one final completion
    per operation, marks no completion of a single-shot operation with
    [more], and keeps the [promise] that the operation's type relies on;
    clients do not poll a future that has resolved, as Rust's [Future]
    contract demands. *)
From S2P Require Import Prelude Slab IoUring SlabList Op Driver DriverSpec.

Inductive Kind : Type := Single | Multi.
#[export] Instance Kind_eq_dec : EqDecision Kind.
Proof. solve_decision. Defined.

(** No condition on what is submitted. *)
Definition anyone {T} : Kind -> T -> Prop := fun _ _ => True.

(** [InFlightOneshot] with its inner part, and [Op<T, MultiCQEFuture>]. An
    [Op<T, SingleCQE>] uses the table like the former: polling it is polling
    its index ([poll_op_as] of [DriverSpec.v]) and handing the answer to
    [Completable::complete], dropping it is [remove_op_as]. *)
Inductive handle (T : Type) : Type :=
  | HSingle (index : N) (data : T)
  | HMulti (op : Op T).
Arguments HSingle {T} index data.
Arguments HMulti {T} op.

Record sys (slab : Type -> Type) (T : Type) : Type := mkSys {
  s_ops : Ops slab;
  s_kernel : gmap N Kind;
  s_handles : gmap N (handle T);
}.
Arguments mkSys {slab T} s_ops s_kernel s_handles.
Arguments s_ops {slab T} _.
Arguments s_kernel {slab T} _.
Arguments s_handles {slab T} _.

Inductive event (T : Type) : Type :=
  | ESubmit (h : N) (k : Kind) (data : T)
  | ECompletion (i : N) (c : cqe)
  | EPoll (h : N) (cx : Waker)
  | EDrop (h : N).
Arguments ESubmit {T} h k data.
Arguments ECompletion {T} i c.
Arguments EPoll {T} h cx.
Arguments EDrop {T} h.

Section system.
Context {Prof : Profile} {Cq : Cqueue} `{!SlabOps slab}.
Context {T Output : Type} `{!Completable T Output} `{!Updateable T Output}.
(** What the kernel promises of the completions, and what holds of the
    data that is submitted. *)
Context (promise : CqeResult -> Prop) (good : Kind -> T -> Prop).
Implicit Types s : sys slab T.

Definition sys_init : sys slab T := mkSys ops_new ∅ ∅.

(** The index and kind of a handle whose operation is not finished. *)
Definition live (hd : handle T) : option (N * Kind) :=
  match hd with
  | HSingle i _ => Some (i, Single)
  | HMulti op => if is_finished op then None else Some (op_index op, Multi)
  end.

(** One event. A resolved single-shot future has given up its inner part,
    so its handle disappears; the handle of a finished multishot operation
    stays until it is dropped. *)
Definition run_event s (e : event T) : outcome (sys slab T) :=
  match e with
  | ESubmit h k data =>
      '(i, o) ← ops_insert (s_ops s);
      let hd := match k with Single => HSingle i data | Multi => HMulti (new_op data i) end in
      Ret (mkSys o (<[i := k]> (s_kernel s)) (<[h := hd]> (s_handles s)))
  | ECompletion i c =>
      '(o, _) ← ops_complete i c (s_ops s);
      Ret (mkSys o (if more (cqe_flags c) then s_kernel s else delete i (s_kernel s))
                 (s_handles s))
  | EPoll h cx =>
      match s_handles s !! h with
      | None => Ret s
      | Some (HSingle i data) =>
          '(p, o) ← poll_op_2 i cx (s_ops s);
          Ret (mkSys o (s_kernel s)
                 (match p with Ready _ => delete h (s_handles s) | Pending => s_handles s end))
      | Some (HMulti op) =>
          '(_, op, o, _) ← poll_multishot_op (Output := Output) op cx (s_ops s);
          Ret (mkSys o (s_kernel s) (<[h := HMulti op]> (s_handles s)))
      end
  | EDrop h =>
      match s_handles s !! h with
      | None => Ret s
      | Some (HSingle i data) =>
          o ← remove_op_2 i data (s_ops s);
          Ret (mkSys o (s_kernel s) (delete h (s_handles s)))
      | Some (HMulti op) =>
          '(_, o) ← remove_op op (s_ops s);
          Ret (mkSys o (s_kernel s) (delete h (s_handles s)))
      end
  end.

Definition enabled s (e : event T) : Prop :=
  match e with
  | ESubmit h k data => s_handles s !! h = None /\ good k data
  | ECompletion i c =>
      cqe_ok c /\ promise (pure_result c) /\
      match s_kernel s !! i with
      | Some Single => more (cqe_flags c) = false
      | Some Multi => True
      | None => False
      end
  | EPoll h _ => exists hd, s_handles s !! h = Some hd /\ is_Some (live hd)
  | EDrop h => is_Some (s_handles s !! h)
  end.

Inductive step : sys slab T -> sys slab T -> Prop :=
  | step_event s e s' : enabled s e -> run_event s e = Ret s' -> step s s'.

Inductive reachable : sys slab T -> Prop :=
  | reach_init : reachable sys_init
  | reach_step s s' : reachable s -> step s s' -> reachable s'.
End system.

(** What the type of an operation with several completions owes the driver:
    consuming a completion does not panic and keeps the data [good]. *)
Class ClientLaws {Cq : Cqueue} (T Output : Type) `{!Completable T Output} `{!Updateable T Output}
    (promise : CqeResult -> Prop) (good : Kind -> T -> Prop) : Prop := {
  client_update d c :
    good Multi d -> promise c -> more (flags c) = true -> ret_with (good Multi) (update d c);
  client_yield d :
    good Multi d -> should_yield d = true -> ret_with (fun '(_, d') => good Multi d') (yield_result d);
  client_complete d c : good Multi d -> promise c -> ret_with (fun _ => True) (complete d c);
}.

(** * The invariant *)
Section invariant.
Context {Prof : Profile} {Cq : Cqueue} `{!SlabOps slab} `{!SlabLaws slab}.
Context {T Output : Type} `{!Completable T Output} `{!Updateable T Output}.
Context (promise : CqeResult -> Prop) (good : Kind -> T -> Prop) `{!ClientLaws T Output promise good}.
Implicit Types (s : sys slab T) (hs : gmap N (handle T)) (kn : gmap N Kind) (a : aops).

(** A box that really holds the data of an operation. *)
Definition holds_data (b : BoxAny) : Prop :=
  exists d : T, b = box_any T d \/ b = box_any (option T) (Some d).

(** Every completion of a queue but the last announces more; the last one
    does exactly when the kernel is not done. *)
Fixpoint queue_ok (in_flight : bool) (xs : list CqeResult) : Prop :=
  match xs with
  | [] => False
  | c :: xs =>
      promise c /\
      match xs with
      | [] => more (flags c) = in_flight
      | _ => more (flags c) = true /\ queue_ok in_flight xs
      end
  end.

Definition op_ok (in_flight owner : option Kind) (al : alifecycle) : Prop :=
  match al with
  | ASubmitted | AWaiting _ => is_Some in_flight /\ owner = in_flight
  | AIgnored b => is_Some in_flight /\ owner = None /\ holds_data b
  | ACompleted c => in_flight = None /\ is_Some owner /\ cqe_ok c /\ promise (pure_result c) /\
                    more (cqe_flags c) = false
  | AList xs => owner = Some Multi /\ (in_flight = None \/ in_flight = Some Multi) /\
                queue_ok (bool_decide (is_Some in_flight)) xs
  end.

(** [owner_is hs i ow]: the live handle of operation [i], if any. *)
Definition owner_is hs (i : N) (ow : option Kind) : Prop :=
  match ow with
  | Some k => exists h hd, hs !! h = Some hd /\ live hd = Some (i, k)
  | None => forall h hd k, hs !! h = Some hd -> live hd <> Some (i, k)
  end.
Definition unique_owners hs : Prop :=
  forall h1 h2 hd1 hd2 i k1 k2,
    hs !! h1 = Some hd1 -> hs !! h2 = Some hd2 ->
    live hd1 = Some (i, k1) -> live hd2 = Some (i, k2) -> h1 = h2.

Definition slot_ok hs kn (i : N) (al : option alifecycle) : Prop :=
  match al with
  | Some al => exists ow, owner_is hs i ow /\ op_ok (kn !! i) ow al
  | None => kn !! i = None /\ owner_is hs i None
  end.

Record abs_inv a kn hs : Prop := {
  inv_slots i : slot_ok hs kn i (a !! i);
  inv_unique : unique_owners hs;
}.
Definition good_handle (hd : handle T) : Prop :=
  match hd with
  | HSingle _ d => good Single d
  | HMulti op => match op_data op with Some d => good Multi d | None => True end
  end.
Definition sys_inv s : Prop :=
  exists a, related (s_ops s) a /\ abs_inv a (s_kernel s) (s_handles s) /\
            map_Forall (fun _ => good_handle) (s_handles s).

Lemma owner_is_det hs i ow1 ow2 :
  unique_owners hs -> owner_is hs i ow1 -> owner_is hs i ow2 -> ow1 = ow2.
Proof.
  intros Hu. destruct ow1 as [k1|], ow2 as [k2|]; cbn; try done.
  - intros (h1 & hd1 & H1 & L1) (h2 & hd2 & H2 & L2).
    assert (h1 = h2) as -> by (by eapply Hu). by simplify_eq.
  - intros (h & hd & H1 & L1) H2. by destruct (H2 _ _ _ H1 L1).
  - intros H2 (h & hd & H1 & L1). by destruct (H2 _ _ _ H1 L1).
Qed.

(** Replacing the handle [h] does not change who owns the operations that
    neither the old nor the new handle is about. *)
Lemma owner_is_update hs (h i : N) hd ow :
  (forall hd0 k, hs !! h = Some hd0 -> live hd0 <> Some (i, k)) ->
  (forall hd0 k, hd = Some hd0 -> live hd0 <> Some (i, k)) ->
  owner_is hs i ow -> owner_is (partial_alter (fun _ => hd) h hs) i ow.
Proof.
  intros Hold Hnew. destruct ow as [k|]; cbn.
  - intros (h' & hd' & H' & L'). exists h', hd'. split; [|done].
    rewrite lookup_partial_alter_ne; [done|]. intros ->. by apply (Hold hd' k).
  - intros H h' hd' k. destruct (decide (h = h')) as [<-|Hne].
    + rewrite lookup_partial_alter_eq. intros ->. by apply Hnew.
    + rewrite lookup_partial_alter_ne by done. apply H.
Qed.

Lemma unique_update hs h hd :
  unique_owners hs ->
  (forall hd0 i k, hd = Some hd0 -> live hd0 = Some (i, k) ->
     (exists hd1 k1, hs !! h = Some hd1 /\ live hd1 = Some (i, k1)) \/ owner_is hs i None) ->
  unique_owners (partial_alter (fun _ => hd) h hs).
Proof.
  intros Hu Hn h1 h2 hd1 hd2 i k1 k2 H1 H2 L1 L2.
  destruct (decide (h = h1)) as [<-|N1], (decide (h = h2)) as [<-|N2]; [done| | |].
  - rewrite lookup_partial_alter_eq in H1. rewrite lookup_partial_alter_ne in H2 by done.
    destruct (Hn _ _ _ H1 L1) as [(hd0 & k0 & H0 & L0)|Ho]; [by eapply Hu|].
    by destruct (Ho _ _ _ H2 L2).
  - rewrite lookup_partial_alter_eq in H2. rewrite lookup_partial_alter_ne in H1 by done.
    destruct (Hn _ _ _ H2 L2) as [(hd0 & k0 & H0 & L0)|Ho]; [by eapply Hu|].
    by destruct (Ho _ _ _ H1 L1).
  - rewrite lookup_partial_alter_ne in H1, H2 by done. by eapply Hu.
Qed.

(** The generic step: everything that changes concerns operation [i]. *)
Lemma abs_inv_step a kn hs i h al' k' hd' :
  abs_inv a kn hs ->
  (forall hd0 j k, hs !! h = Some hd0 -> live hd0 = Some (j, k) -> j = i) ->
  (forall hd0 j k, hd' = Some hd0 -> live hd0 = Some (j, k) -> j = i /\
     ((exists hd1 k1, hs !! h = Some hd1 /\ live hd1 = Some (i, k1)) \/ owner_is hs i None)) ->
  slot_ok (partial_alter (fun _ => hd') h hs) (partial_alter (fun _ => k') i kn) i al' ->
  abs_inv (partial_alter (fun _ => al') i a) (partial_alter (fun _ => k') i kn)
          (partial_alter (fun _ => hd') h hs).
Proof.
  intros [Hs Hu] Hold Hnew Hi. split.
  - intros j. destruct (decide (i = j)) as [<-|Hj].
    + by rewrite lookup_partial_alter_eq.
    + rewrite lookup_partial_alter_ne by done. specialize (Hs j).
      assert (Hown : forall ow, owner_is hs j ow ->
                owner_is (partial_alter (fun _ => hd') h hs) j ow).
      { intros ow. apply owner_is_update.
        - intros hd0 k H0 L0. by apply Hj, eq_sym, (Hold hd0 j k).
        - intros hd0 k H0 L0. by destruct (Hnew hd0 j k H0 L0). }
      unfold slot_ok in *. rewrite lookup_partial_alter_ne by done.
      destruct (a !! j).
      * destruct Hs as (ow & ? & ?). eauto.
      * destruct Hs. auto.
  - apply unique_update; [done|]. intros hd0 j k H0 L0.
    destruct (Hnew hd0 j k H0 L0) as [-> ?]. done.
Qed.

Lemma abs_inv_ops a kn hs i al' k' :
  abs_inv a kn hs -> slot_ok hs (partial_alter (fun _ => k') i kn) i al' ->
  abs_inv (partial_alter (fun _ => al') i a) (partial_alter (fun _ => k') i kn) hs.
Proof.
  intros [Hs Hu] Hi. split; [|done]. intros j. destruct (decide (i = j)) as [<-|Hj].
  - by rewrite lookup_partial_alter_eq.
  - rewrite lookup_partial_alter_ne by done. specialize (Hs j). unfold slot_ok in *.
    by rewrite lookup_partial_alter_ne by done.
Qed.

Lemma abs_inv_set a kn hs i al' :
  abs_inv a kn hs -> slot_ok hs kn i (Some al') -> abs_inv (<[i := al']> a) kn hs.
Proof.
  intros H Hi. rewrite <- (partial_alter_self kn i). apply (abs_inv_ops _ _ _ i (Some al'));
    [done|]. by rewrite partial_alter_self.
Qed.

Lemma owner_deleted hs h hd i k :
  unique_owners hs -> hs !! h = Some hd -> live hd = Some (i, k) ->
  owner_is (delete h hs) i None.
Proof.
  intros Hu H L h' hd' k' H' L'. apply lookup_delete_Some in H' as [Hne H'].
  by apply Hne, (Hu h h' hd hd' i k k').
Qed.

(** Dropping the live handle [h] of operation [i]. *)
Lemma abs_inv_drop a kn hs i h hd k al' :
  abs_inv a kn hs -> hs !! h = Some hd -> live hd = Some (i, k) ->
  match al' with Some al' => op_ok (kn !! i) None al' | None => kn !! i = None end ->
  abs_inv (partial_alter (fun _ => al') i a) kn (delete h hs).
Proof.
  intros H Hh Hl Hi. pose proof (inv_unique _ _ _ H) as Hu.
  rewrite <- (partial_alter_self kn i).
  apply (abs_inv_step a kn hs i h al' (kn !! i) None); [done| |done|].
  - intros hd0 j k0 H0 L0. by simplify_eq.
  - rewrite partial_alter_self. pose proof (owner_deleted _ _ _ _ _ Hu Hh Hl) as Ho.
    destruct al' as [al'|]; [by exists None|done].
Qed.

Lemma queue_ok_snoc b xs c :
  (xs = [] \/ queue_ok true xs) -> promise c -> more (flags c) = b -> queue_ok b (xs ++ [c]).
Proof.
  intros Hxs Hc <-. induction xs as [|x xs IH]; [done|]. destruct Hxs as [?|[Hp Hx]]; [done|].
  cbn [app queue_ok]. split; [done|]. destruct xs as [|x' xs].
  - cbn. auto.
  - destruct Hx as [? Hx]. cbn [app]. split; [done|]. apply IH. by right.
Qed.

Lemma queue_ok_expects b xs : queue_ok b xs -> expects_more xs = Ret b.
Proof.
  induction xs as [|x xs IH]; [done|]. intros [_ Hx]. destruct xs as [|x' xs].
  - unfold expects_more. cbn. by rewrite Hx.
  - destruct Hx as [_ Hx]. apply IH in Hx. exact Hx.
Qed.

(** How draining a well-formed queue ends. *)
Lemma a_drain_ok b xs (d : T) :
  xs = [] /\ b = true \/ queue_ok b xs -> good Multi d ->
  ret_with (fun r => match r with
    | AYielded d' rest =>
        good Multi d' /\ should_yield d' = true /\ (rest = [] /\ b = true \/ queue_ok b rest)
    | AFinal d' c => good Multi d' /\ promise c /\ b = false
    | AEmptied d' => good Multi d' /\ b = true
    end) (a_drain d xs).
Proof.
  revert d. induction xs as [|c xs IH]; intros d [[? ->]|Hq] Hd; cbn; try done.
  destruct Hq as [Hc Hq]. destruct (more (flags c)) eqn:Em.
  - eapply ret_with_bind; [by apply client_update|]. intros d' Hd'.
    assert (Hrest : xs = [] /\ b = true \/ queue_ok b xs).
    { destruct xs; [by left|right; apply Hq]. }
    destruct (should_yield d') eqn:Ey; [by cbn|]. by apply IH.
  - cbn. destruct xs; [by split_and!; congruence|]. by destruct Hq.
Qed.

(** A live handle's operation is in the table. *)
Lemma owned a kn hs h hd i k :
  abs_inv a kn hs -> hs !! h = Some hd -> live hd = Some (i, k) ->
  exists al, a !! i = Some al /\ op_ok (kn !! i) (Some k) al.
Proof.
  intros [Hs Hu] Hh Hl. specialize (Hs i). assert (owner_is hs i (Some k)) by (cbn; eauto).
  unfold slot_ok in Hs. destruct (a !! i) as [al|].
  - destruct Hs as (ow & Ho & Hok). exists al. split; [done|].
    by rewrite (owner_is_det hs i (Some k) ow).
  - destruct Hs as [_ Hs]. by destruct (Hs h hd k).
Qed.

(** Replacing the live handle [h] of operation [i] by [hd']. *)
Lemma abs_inv_poll a kn hs i h hd k hd' al' :
  abs_inv a kn hs -> hs !! h = Some hd -> live hd = Some (i, k) ->
  match al' with
  | Some al' => live hd' = Some (i, k) /\ op_ok (kn !! i) (Some k) al'
  | None => live hd' = None /\ kn !! i = None
  end ->
  abs_inv (partial_alter (fun _ => al') i a) kn (<[h := hd']> hs).
Proof.
  intros H Hh Hl Hi. pose proof (inv_unique _ _ _ H) as Hu.
  rewrite <- (partial_alter_self kn i).
  apply (abs_inv_step a kn hs i h al' (kn !! i) (Some hd')); [done| | |].
  - intros hd0 j k0 H0 L0. by simplify_eq.
  - intros hd0 j k0 [= <-] L0. destruct al' as [al'|]; destruct Hi as [Hl' Hi].
    + simplify_eq. eauto 10.
    + congruence.
  - rewrite partial_alter_self. change (partial_alter (fun _ => Some hd') h hs)
      with (<[h := hd']> hs). destruct al' as [al'|]; destruct Hi as [Hl' Hi].
    + exists (Some k). split; [|done]. exists h, hd'. by rewrite lookup_insert_eq.
    + split; [done|]. intros h2 hd2 k2 H2 L2.
      destruct (decide (h = h2)) as [<-|Hne].
      * rewrite lookup_insert_eq in H2. congruence.
      * rewrite lookup_insert_ne in H2 by done.
        by apply Hne, (Hu h h2 hd hd2 i k k2).
Qed.

(** Dropping a handle whose operation has finished. *)
Lemma abs_inv_drop_finished a kn hs h hd :
  abs_inv a kn hs -> hs !! h = Some hd -> live hd = None -> abs_inv a kn (delete h hs).
Proof.
  intros [Hs Hu] Hh Hl. split.
  - intros j. specialize (Hs j).
    assert (Ho : forall ow, owner_is hs j ow -> owner_is (delete h hs) j ow).
    { intros ow. apply (owner_is_update hs h j None); congruence. }
    unfold slot_ok in *. destruct (a !! j); [destruct Hs as (ow & ? & ?); by eauto|].
    destruct Hs. by auto.
  - by apply (unique_update hs h None).
Qed.

(** ** Each event preserves the invariant *)
Lemma refines_safe_with {A B} (R : A -> B -> Prop) (Q : B -> Prop) c y :
  refines R c y -> ret_with Q y -> safe (fun x => exists b, R x b /\ Q b) c.
Proof. destruct c as [x|[]| |], y as [b|?| |]; cbn; eauto; done. Qed.

(** A submission: the new handle owns the fresh index. *)
Lemma a_submit_ok a kn hs i h hd k :
  abs_inv a kn hs -> a !! i = None -> hs !! h = None -> live hd = Some (i, k) ->
  abs_inv (<[i := ASubmitted]> a) (<[i := k]> kn) (<[h := hd]> hs).
Proof.
  intros Ha Hi Hh Hl. pose proof (inv_slots _ _ _ Ha i) as Hs. rewrite Hi in Hs.
  destruct Hs as [Hk Hown].
  apply (abs_inv_step a _ _ i h (Some ASubmitted) (Some k) (Some _)); [done|congruence| |].
  - intros hd0 j k0 [= <-] L0. rewrite Hl in L0. simplify_eq. auto.
  - exists (Some k). split.
    + eexists h, _. by rewrite lookup_partial_alter_eq.
    + cbn. rewrite lookup_partial_alter_eq. eauto.
Qed.

Lemma submit_inv s h k data :
  sys_inv s -> s_handles s !! h = None -> good k data ->
  safe sys_inv (run_event (Output := Output) s (ESubmit h k data)).
Proof.
  intros (a & Hr & Ha & Hg) Hh Hd. cbn.
  eapply safe_bind; [by apply insert_spec|]. intros [i o] (Hi & _ & Ho).
  exists (<[i := ASubmitted]> a). split_and!; [done| |].
  - apply a_submit_ok; [done..|]. by destruct k.
  - cbn. apply map_Forall_insert_2; [|done]. by destruct k.
Qed.

Lemma a_complete_ok a kn hs i c k :
  abs_inv a kn hs -> kn !! i = Some k -> (k = Single -> more (cqe_flags c) = false) ->
  cqe_ok c -> promise (pure_result c) ->
  ret_with (fun '(a', _) =>
    abs_inv a' (if more (cqe_flags c) then kn else delete i kn) hs) (a_complete i c a).
Proof.
  intros Ha Hk Hm Hc Hp. pose proof (inv_slots _ _ _ Ha i) as Hs. unfold a_complete, slot_ok in *.
  assert (Hset : forall al ow, owner_is hs i ow ->
    op_ok (if more (cqe_flags c) then Some k else None) ow al ->
    abs_inv (<[i := al]> a) (if more (cqe_flags c) then kn else delete i kn) hs).
  { intros al ow Ho Hal. destruct (more (cqe_flags c)).
    - apply abs_inv_set; [done|]. exists ow. by rewrite Hk.
    - apply (abs_inv_ops a kn hs i (Some al) None Ha). exists ow.
      by rewrite lookup_partial_alter_eq. }
  assert (Hrec : owner_is hs i (Some k) ->
    abs_inv (<[i := received c]> a) (if more (cqe_flags c) then kn else delete i kn) hs).
  { intros Ho. apply (Hset _ (Some k) Ho). unfold received.
    destruct (more (cqe_flags c)) eqn:E; [|by split_and!].
    destruct k; [naive_solver|]. cbn. rewrite E. auto. }
  destruct (a !! i) as [[|w|b|c'|xs]|]; cbn in *; [| | | | |destruct Hs; congruence];
    destruct Hs as (ow & Ho & Hok).
  - destruct Hok as [_ ->]. rewrite Hk in Ho. by apply Hrec.
  - destruct Hok as [_ ->]. rewrite Hk in Ho. by apply Hrec.
  - destruct Hok as (_ & -> & _). destruct (more (cqe_flags c)); [done|]. cbn.
    apply (abs_inv_ops a kn hs i None None Ha). split; [by rewrite lookup_partial_alter_eq|done].
  - destruct Hok. congruence.
  - destruct Hok as (-> & [?|Hkn] & Hq); [congruence|]. cbn. apply (Hset _ (Some Multi) Ho).
    rewrite Hkn in Hq. split; [done|]. destruct (more (cqe_flags c)) eqn:E.
    + split; [right; congruence|]. apply queue_ok_snoc; auto.
    + split; [by left|]. apply queue_ok_snoc; auto.
Qed.

Lemma completion_inv s i c k :
  sys_inv s -> s_kernel s !! i = Some k -> (k = Single -> more (cqe_flags c) = false) ->
  cqe_ok c -> promise (pure_result c) ->
  safe sys_inv (run_event (Output := Output) s (ECompletion i c)).
Proof.
  intros (a & Hr & Ha & Hg) Hk Hm Hc Hp. cbn. eapply safe_bind.
  { eapply refines_safe_with; [by apply complete_refines|by eapply a_complete_ok]. }
  intros [o w] ([a' w'] & [_ Ho] & Ha'). exists a'. by split_and!.
Qed.

Lemma a_poll_2_ok a kn hs h i data cx :
  abs_inv a kn hs -> hs !! h = Some (HSingle i data) ->
  ret_with (fun '(p, a') =>
    abs_inv a' kn (match p with Ready _ => delete h hs | Pending => hs end)) (a_poll_2 i cx a).
Proof.
  intros Ha Hh. destruct (owned _ _ _ _ _ _ _ Ha Hh eq_refl) as (al & Hal & Hok).
  assert (Hw : forall w, is_Some (kn !! i) /\ Some Single = kn !! i ->
                         abs_inv (<[i := AWaiting w]> a) kn hs).
  { intros w [? Hk]. apply abs_inv_set; [done|]. exists (Some Single).
    split; [cbn; eauto|by split]. }
  unfold a_poll_2. rewrite Hal. destruct al; cbn in *.
  - by apply Hw.
  - destruct (negb (will_wake w cx)); by apply Hw.
  - naive_solver.
  - destruct Hok as (Hk & _). by apply (abs_inv_drop a kn hs i h (HSingle i data) Single None).
  - naive_solver.
Qed.

Lemma poll_single_inv s h i data cx :
  sys_inv s -> s_handles s !! h = Some (HSingle i data) ->
  safe sys_inv (run_event (Output := Output) s (EPoll h cx)).
Proof.
  intros (a & Hr & Ha & Hg) Hh. cbn. rewrite Hh. eapply safe_bind.
  { eapply refines_safe_with; [by apply poll_2_refines|by eapply a_poll_2_ok]. }
  intros [p o] ([p' a'] & [Hp Ho] & Ha'). cbn in *. subst p'. exists a'. split_and!; [done..|].
  destruct p; [by apply map_Forall_delete|done].
Qed.

Lemma a_remove_ok {D} a kn hs h hd i k (data : D) :
  abs_inv a kn hs -> hs !! h = Some hd -> live hd = Some (i, k) ->
  holds_data (box_any D data) ->
  ret_with (fun a' => abs_inv a' kn (delete h hs)) (a_remove i data a).
Proof.
  intros Ha Hh Hl Hb. destruct (owned _ _ _ _ _ _ _ Ha Hh Hl) as (al & Hal & Hok).
  assert (Hig : is_Some (kn !! i) ->
    abs_inv (<[i := AIgnored (box_any D data)]> a) kn (delete h hs)).
  { intros Hk. by apply (abs_inv_drop a kn hs i h hd k (Some _) Ha Hh Hl). }
  assert (Hdel : kn !! i = None -> abs_inv (delete i a) kn (delete h hs)).
  { intros Hk. by apply (abs_inv_drop a kn hs i h hd k None Ha Hh Hl). }
  unfold a_remove. rewrite Hal. destruct al; cbn in *.
  - naive_solver.
  - naive_solver.
  - naive_solver.
  - naive_solver.
  - destruct Hok as (_ & Hk & Hq). rewrite (queue_ok_expects _ _ Hq). cbn.
    destruct (kn !! i) as [k'|]; cbn; [apply Hig; eauto|by apply Hdel].
Qed.

(** Dropping a live handle hands its data to [remove_op_2], whichever the
    kind; dropping a finished one leaves the table alone. *)
Lemma drop_event_live s h hd i k :
  s_handles s !! h = Some hd -> live hd = Some (i, k) ->
  exists (D : Type) (data : D), holds_data (box_any D data) /\
    run_event (Output := Output) s (EDrop h) =
      (o ← remove_op_2 i data (s_ops s);
       Ret (mkSys o (s_kernel s) (delete h (s_handles s)))).
Proof.
  intros Hh Hl. cbn. rewrite Hh. destruct hd as [j d|op]; cbn in Hl.
  - simplify_eq. exists T, d. split; [|done]. exists d. by left.
  - destruct (is_finished op) eqn:Hf; [done|]. simplify_eq.
    exists (option T), (op_data op). split.
    + destruct op as [j [d|]]; [|done]. exists d. by right.
    + rewrite <- (remove_op_as op _ Hf). by destruct (remove_op op (s_ops s)) as [[]| | |].
Qed.
Lemma drop_event_finished s h hd :
  s_handles s !! h = Some hd -> live hd = None ->
  run_event (Output := Output) s (EDrop h) =
    Ret (mkSys (s_ops s) (s_kernel s) (delete h (s_handles s))).
Proof.
  intros Hh Hl. cbn. rewrite Hh. destruct hd as [|op]; [done|]. cbn in Hl.
  unfold remove_op. by destruct (is_finished op).
Qed.

Lemma drop_inv s h hd :
  sys_inv s -> s_handles s !! h = Some hd ->
  safe sys_inv (run_event (Output := Output) s (EDrop h)).
Proof.
  intros (a & Hr & Ha & Hg) Hh.
  assert (Hg' : map_Forall (fun _ => good_handle) (delete h (s_handles s)))
    by by apply map_Forall_delete.
  destruct (live hd) as [[i k]|] eqn:Hl.
  - destruct (drop_event_live s h hd i k Hh Hl) as (D & data & Hb & ->). eapply safe_bind.
    { eapply refines_safe_with; [by apply remove_2_refines|by eapply (a_remove_ok _ _ _ h hd i k)]. }
    intros o (a' & Ho & Ha'). by exists a'.
  - rewrite (drop_event_finished s h hd Hh Hl). exists a. split_and!; [done| |done].
    by eapply abs_inv_drop_finished.
Qed.

Lemma a_poll_multishot_ok a kn hs h i d cx :
  abs_inv a kn hs -> hs !! h = Some (HMulti (mkOp i (Some d))) -> good Multi d ->
  ret_with (fun '(_, op, a', _) =>
    abs_inv a' kn (<[h := HMulti op]> hs) /\ good_handle (HMulti op))
    (a_poll_multishot (mkOp i (Some d)) cx a).
Proof.
  intros Ha Hh Hd. destruct (owned _ _ _ _ _ i Multi Ha Hh eq_refl) as (al & Hal & Hok).
  assert (Hkeep : forall d' al', op_ok (kn !! i) (Some Multi) al' ->
    abs_inv (<[i := al']> a) kn (<[h := HMulti (mkOp i (Some d'))]> hs)).
  { intros d' al' Hal'. by apply (abs_inv_poll a kn hs i h _ Multi _ (Some al') Ha Hh). }
  assert (Hdel : kn !! i = None ->
    abs_inv (delete i a) kn (<[h := HMulti (mkOp i None)]> hs)).
  { intros Hk. by apply (abs_inv_poll a kn hs i h _ Multi _ None Ha Hh). }
  unfold a_poll_multishot. cbn [op_data op_index or_panic mbind outcome_bind]. rewrite Hal.
  destruct al as [|w|b|c|xs]; cbn [op_ok] in Hok.
  - cbn. split; [by apply Hkeep|done].
  - cbn. split; [|done]. apply Hkeep. by destruct (negb (will_wake w cx)).
  - naive_solver.
  - destruct Hok as (Hk & _ & Hc & Hp & _). rewrite from_cqe_ok by done.
    cbn [mbind outcome_bind]. eapply ret_with_bind; [by eapply client_complete|].
    intros out _. cbn. auto.
  - destruct Hok as (_ & Hk & Hq).
    eapply ret_with_bind; [by eapply a_drain_ok; [right|]|].
    assert (Hinf : bool_decide (is_Some (kn !! i)) = true -> kn !! i = Some Multi).
    { intros ?%bool_decide_eq_true. destruct Hk as [Hk|Hk]; [|done]. rewrite Hk in H.
      by destruct H. }
    intros [d' rest|d' c|d'].
    + intros (Hd' & Hy & Hrest). eapply ret_with_bind; [by apply client_yield|].
      intros [out d2] Hd2. destruct rest as [|r rest]; cbn.
      * split; [|done]. apply Hkeep. destruct Hrest as [[_ Hb]|[]].
        rewrite (Hinf Hb). split; eauto.
      * split; [|done]. apply Hkeep. destruct Hrest as [[? _]|Hrest]; [done|]. by split_and!.
    + intros (Hd' & Hc & Hb). eapply ret_with_bind; [by eapply client_complete|].
      intros out _. cbn. split; [|done]. apply Hdel.
      apply bool_decide_eq_false in Hb. by apply eq_None_not_Some.
    + intros [Hd' Hb]. cbn. split; [|done]. apply Hkeep. rewrite (Hinf Hb). split; eauto.
Qed.

Lemma poll_multi_inv s h op cx :
  sys_inv s -> s_handles s !! h = Some (HMulti op) -> is_finished op = false ->
  safe sys_inv (run_event (Output := Output) s (EPoll h cx)).
Proof.
  intros (a & Hr & Ha & Hg) Hh Hf. destruct op as [i [d|]]; [|done]. cbn. rewrite Hh.
  eapply safe_bind.
  { eapply refines_safe_with; [by apply poll_multishot_refines|].
    eapply a_poll_multishot_ok; [done..|]. exact (Hg _ _ Hh). }
  intros [[[p op] o] w] ([[[p' op'] a'] w'] & (_ & <- & _ & Ho) & Ha' & Hop). cbn.
  exists a'. split_and!; [done..|]. by apply map_Forall_insert_2.
Qed.

Lemma event_inv s e :
  sys_inv s -> enabled promise good s e -> safe sys_inv (run_event (Output := Output) s e).
Proof.
  intros Hs. destruct e as [h k d|i c|h cx|h]; cbn [enabled].
  - intros [? ?]. by apply submit_inv.
  - intros (Hc & Hp & Hk). destruct (s_kernel s !! i) as [k|] eqn:E; [|done].
    eapply completion_inv; [done..| |done|done]. by intros ->.
  - intros (hd & Hh & [[i k] Hl]). destruct hd as [j data|op].
    + by eapply poll_single_inv.
    + eapply poll_multi_inv; [done..|]. cbn in Hl. by destruct (is_finished op).
  - intros [hd Hh]. by eapply drop_inv.
Qed.

Lemma init_inv : sys_inv sys_init.
Proof.
  exists ∅. split_and!; [apply related_new| |apply map_Forall_empty]. split; cbn.
  - intros i. by rewrite lookup_empty.
  - intros h1 h2 hd1 hd2 i k1 k2. by rewrite lookup_empty.
Qed.

Lemma reachable_inv s : reachable (Output := Output) promise good s -> sys_inv s.
Proof.
  induction 1 as [|s s' _ IH Hst]; [apply init_inv|]. destruct Hst as [s e s' He E].
  pose proof (event_inv s e IH He) as H. by rewrite E in H.
Qed.

(** C1. The driver does not panic. In every state that a sequence of
    submissions, completions, polls and drops can reach, each further event
    that the kernel and the clients may produce runs to its end: no
    [unwrap] on [None], no [unreachable!], no invalid slab key and no
    out-of-range list index; only a slab that cannot grow can stop it. *)
Theorem driver_safe s e :
  reachable (Output := Output) promise good s -> enabled promise good s e ->
  safe (reachable (Output := Output) promise good) (run_event (Output := Output) s e).
Proof.
  intros Hs He. pose proof (event_inv s e (reachable_inv s Hs) He) as H.
  destruct (run_event s e) as [s'|p| |] eqn:E; [|exact H..].
  cbn. eapply reach_step; [done|]. by econstructor.
Qed.

(** The data of an operation outlives the operation. As long as the
    kernel may still write to the buffers of an operation, either a live
    handle owns the operation's data, or the driver's table keeps data of
    its type in a box, whatever was dropped or cancelled in the meantime.
    ([Ownership.v] shows that it is the data that was submitted.) *)
Theorem in_flight_data_alive s i k :
  reachable (Output := Output) promise good s -> s_kernel s !! i = Some k ->
  (exists h hd, s_handles s !! h = Some hd /\ live hd = Some (i, k)) \/
  (exists b, get_mut i (s_ops s) = Some (Ignored b) /\ holds_data b).
Proof.
  intros (a & [own Hr] & Ha & _)%reachable_inv Hk. pose proof (inv_slots _ _ _ Ha i) as Hs.
  unfold get_mut. rewrite slab_get_view.
  destruct (related_cases _ _ _ i Hr) as [(_ & Hi & _)|(lc & al & -> & Hi & Hl)];
    unfold slot_ok in Hs; rewrite Hi, Hk in Hs; [naive_solver|].
  destruct Hs as (ow & Ho & Hok).
  destruct al as [|w|b|c|xs]; cbn in Hok.
  - destruct Hok as [_ ->]. by left.
  - destruct Hok as [_ ->]. by left.
  - right. destruct lc; try done. destruct Hl as [-> _]. destruct Hok as (_ & _ & ?). eauto.
  - naive_solver.
  - destruct Hok as (-> & [?|[= ->]] & _); [done|]. by left.
Qed.

(** C8. Nothing leaks. When the kernel has completed everything and no
    live handle is left, both slabs of the driver are empty, whatever
    sequence of events led there. *)
Theorem no_leak s :
  reachable (Output := Output) promise good s -> s_kernel s = ∅ ->
  (forall h hd, s_handles s !! h = Some hd -> live hd = None) ->
  slab_view (lifecycle (s_ops s)) = ∅ /\ slab_view (completions (s_ops s)) = ∅.
Proof.
  intros (a & Hr & Ha & _)%reachable_inv Hk Hh.
  assert (a = ∅) as ->.
  { apply map_empty. intros i. pose proof (inv_slots _ _ _ Ha i) as Hs.
    unfold slot_ok in Hs. destruct (a !! i) as [al|]; [exfalso|done].
    destruct Hs as (ow & Ho & Hok). rewrite Hk, lookup_empty in Hok.
    destruct ow as [k|].
    - destruct Ho as (h & hd & H1 & H2). specialize (Hh _ _ H1). congruence.
    - destruct al; cbn in Hok; destruct_and?; repeat case_match;
        repeat match goal with H : is_Some None |- _ => by destruct H end; done. }
  split; [|by apply related_empty]. destruct Hr as [own Hr]. apply map_empty. intros i.
  by destruct (related_cases _ _ _ i Hr) as [(-> & _)|(? & ? & _ & ? & _)].
Qed.

(** Indices are not reused early. The index of a new operation, which
    is the [user_data] of its entry and the key under which its
    completions will arrive, belongs to no operation the kernel still
    works on and to no live handle, and it is not the value reserved for
    cancellations. *)
Theorem fresh_index s i o :
  reachable (Output := Output) promise good s -> ops_insert (s_ops s) = Ret (i, o) ->
  s_kernel s !! i = None /\ i <> u64_max /\
  (forall h hd k, s_handles s !! h = Some hd -> live hd <> Some (i, k)).
Proof.
  intros (a & Hr & Ha & _)%reachable_inv E. pose proof (insert_spec _ _ Hr) as H.
  rewrite E in H. destruct H as (Hi & Hmax & _). pose proof (inv_slots _ _ _ Ha i) as Hs.
  unfold slot_ok in Hs. rewrite Hi in Hs. destruct Hs. by split_and!.
Qed.
End invariant.

(** * Polls and wake-ups *)
Section wakeups.
Context {Prof : Profile} {Cq : Cqueue} `{!SlabOps slab} `{!SlabLaws slab}.
Implicit Types o : Ops slab.

Lemma get_mut_set i lc o :
  is_Some (get_mut i o) -> get_mut i (set_lifecycle i lc o) = Some lc.
Proof.
  unfold get_mut. rewrite !slab_get_view. intros Hi. cbn. rewrite slab_set_view by done.
  apply lookup_insert_eq.
Qed.

Lemma wait_with_waiting cx lc : wait_with cx lc = Waiting cx.
Proof.
  destruct lc; try done. cbn. destruct (will_wake w cx) eqn:E; [|done]. cbn.
  by apply will_wake_spec in E as ->.
Qed.

(** The next completion of operation [i] wakes exactly the tasks [ws]. *)
Definition next_completion_wakes (i : N) o (ws : list Waker) : Prop :=
  forall c o' woken, ops_complete i c o = Ret (o', woken) -> woken = ws.

(** A completion that arrives at an operation with a registered waker. *)
Lemma complete_waiting i cx o :
  get_mut i o = Some (Waiting cx) -> next_completion_wakes i o [cx].
Proof.
  intros Hi c o' woken. revert Hi. unfold get_mut, ops_complete, index_slab. intros -> E. cbn in E.
  apply bind_Ret in E as ([[[done_ lc] s] w] & E1 & E2).
  assert (w = [cx]) as ->.
  { unfold first_completion in E1. destruct (more (cqe_flags c)).
    - apply bind_Ret in E1 as (r & _ & E1). apply bind_Ret in E1 as (l & _ & E1).
      apply bind_Ret in E1 as ([? ?] & _ & E1). by injection E1 as <-.
    - by injection E1 as <-. }
  apply bind_Ret in E2 as (? & _ & E2). by injection E2 as <-.
Qed.

(** No wake-up is lost on a single-shot operation. After a poll that
    answered [Pending], the next completion of the operation wakes the
    task of that poll, even when an earlier poll came from another task. *)
Theorem poll_then_complete_wakes i cx o o1 :
  poll_op_2 i cx o = Ret (Pending, o1) -> next_completion_wakes i o1 [cx].
Proof.
  unfold poll_op_2. destruct (get_mut i o) as [lc|] eqn:Hi; [|done].
  cbn [unwrap mbind outcome_bind]. intros E. apply complete_waiting.
  assert (Hw : o1 = set_lifecycle i (wait_with cx lc) o).
  { destruct lc; try done; [by injection E as <-..|]. by destruct (ops_remove i o). }
  rewrite Hw, get_mut_set, wait_with_waiting by (rewrite Hi; by eexists). done.
Qed.
End wakeups.

(** * What a multishot poll does with the received completions *)
Section delivery.
Context {Prof : Profile} {Cq : Cqueue} `{!SlabOps slab} `{!SlabLaws slab}.
Context {T Output : Type} `{!Completable T Output} `{!Updateable T Output}.
Implicit Types (o : Ops slab) (a : aops).

(** Consuming completions one after the other, none of which makes the
    data ask for a yield before the last. *)
Fixpoint fold_update (d : T) (cs : list CqeResult) : outcome T :=
  match cs with
  | [] => Ret d
  | c :: cs => d ← update d c; fold_update d cs
  end.
Definition announces_more (c : CqeResult) : Prop := more (flags c) = true.

Lemma a_drain_consumes (d : T) xs r :
  a_drain d xs = Ret r ->
  exists consumed rest, xs = consumed ++ rest /\ Forall announces_more consumed /\
  match r with
  | AYielded d' ys => fold_update d consumed = Ret d' /\ should_yield d' = true /\ rest = ys
  | AFinal d' c =>
      fold_update d consumed = Ret d' /\ more (flags c) = false /\ head rest = Some c
  | AEmptied d' => fold_update d consumed = Ret d' /\ rest = []
  end.
Proof.
  revert d. induction xs as [|c xs IH]; intros d; cbn.
  { intros [= <-]. by exists [], []. }
  destruct (more (flags c)) eqn:Em.
  - intros (d' & Ed & E)%bind_Ret. destruct (should_yield d') eqn:Ey.
    + injection E as <-. exists [c], xs. cbn. rewrite Ed. by split_and!; [|constructor|..].
    + destruct (IH d' E) as (cs & rest & -> & Hcs & Hr). exists (c :: cs), rest.
      split_and!; [done|by constructor|]. cbn. rewrite Ed. exact Hr.
  - intros [= <-]. by exists [], (c :: xs).
Qed.

(** C13. Yielding a batch early loses no completion. When a multishot poll
    finds received completions [xs], it consumes a prefix of them in order
    of arrival, each once. If the data asks for a yield, the rest stays
    queued in the same order and the task is woken to come back for it; if
    the final completion is reached, the operation leaves the table; and
    if the queue runs empty the poll is pending and the operation waits. *)
Theorem multishot_poll_lossless o a i d xs cx p op' o' woken :
  related o a -> a !! i = Some (AList xs) ->
  poll_multishot_op (mkOp i (Some d)) cx o = Ret (p, op', o', woken) ->
  exists consumed rest d1,
    xs = consumed ++ rest /\ Forall announces_more consumed /\
    fold_update d consumed = Ret d1 /\
    ((exists out d2, should_yield d1 = true /\ yield_result d1 = Ret (out, d2) /\
        p = Ready out /\ op_data op' = Some d2 /\
        match rest with
        | [] => related o' (<[i := AWaiting cx]> a) /\ woken = []
        | _ => related o' (<[i := AList rest]> a) /\ woken = [cx]
        end) \/
     (exists c out, head rest = Some c /\ more (flags c) = false /\
        complete d1 c = Ret out /\ p = Ready out /\ op_data op' = None /\
        related o' (delete i a)) \/
     (rest = [] /\ p = Pending /\ op_data op' = Some d1 /\ woken = [] /\
        related o' (<[i := AWaiting cx]> a))).
Proof.
  intros Hr Hi E. pose proof (poll_multishot_refines o a (mkOp i (Some d)) cx Hr) as H.
  rewrite E in H.
  destruct (a_poll_multishot (mkOp i (Some d)) cx a) as [[[[p2 op2] a2] w2]| | |] eqn:E2;
    try done.
  destruct H as (-> & -> & -> & Ho). unfold a_poll_multishot in E2. cbn in E2.
  rewrite Hi in E2. apply bind_Ret in E2 as (r & Ed & E2).
  destruct (a_drain_consumes d xs r Ed) as (cs & rest & -> & Hcs & Hf).
  destruct r as [d' ys|d' c|d'].
  - destruct Hf as (Hf & Hy & ->). apply bind_Ret in E2 as ([out d2] & Ey & E2).
    exists cs, ys, d'. split_and!; [done..|]. left. exists out, d2.
    destruct ys; injection E2 as <- <- <- <-; by split_and!.
  - destruct Hf as (Hf & Hm & Hh). apply bind_Ret in E2 as (out & Ec & E2).
    injection E2 as <- <- <- <-. exists cs, rest, d'. split_and!; [done..|].
    right. left. exists c, out. by split_and!.
  - destruct Hf as (Hf & ->). injection E2 as <- <- <- <-. exists cs, [], d'.
    split_and!; [done..|]. right. right. by split_and!.
Qed.
End delivery.

(** * Concrete runs *)
Section runs.
Context {Prof : Profile} {Cq : Cqueue} `{!SlabOps slab}.
Context {T Output : Type} `{!Completable T Output} `{!Updateable T Output}.
Context (promise : CqeResult -> Prop) (good : Kind -> T -> Prop).

Fixpoint run_all (s : sys slab T) (es : list (event T)) : outcome (sys slab T) :=
  match es with
  | [] => Ret s
  | e :: es => s ← run_event (Output := Output) s e; run_all s es
  end.
Fixpoint all_enabled (s : sys slab T) (es : list (event T)) : Prop :=
  match es with
  | [] => True
  | e :: es => enabled promise good s e /\
               match run_event (Output := Output) s e with
               | Ret s => all_enabled s es
               | _ => True
               end
  end.

Lemma run_all_reachable s es s' :
  reachable (Output := Output) promise good s -> all_enabled s es -> run_all s es = Ret s' ->
  reachable (Output := Output) promise good s'.
Proof.
  revert s. induction es as [|e es IH]; intros s Hs He E; cbn in *; [by simplify_eq|].
  destruct He as [He Hes]. destruct (run_event s e) as [s1| | |] eqn:E1; try done.
  apply (IH s1); [|done..]. eapply reach_step; [done|]. by econstructor.
Qed.
End runs.

(** A small multishot client: it gathers results and yields them in pairs. *)
Module Tally.
Definition data : Type := list (io_result N).

#[export] Instance tally_completable : Completable data data :=
  fun d c => Ret (d ++ [result_ c]).
#[export] Instance tally_updateable : Updateable data data := {
  update := fun d c => Ret (d ++ [result_ c]);
  should_yield := fun d => Nat.leb 2 (length d);
  yield_result := fun d => Ret (d, []);
}.
Definition anything {A} : A -> Prop := fun _ => True.
#[export] Instance tally_laws : ClientLaws data data anything anyone.
Proof. by split. Qed.

#[export] Instance profile : Profile := debug_profile.
Definition start : sys (gmap N) data := sys_init.
Definition w1 : Waker := mkWaker 1 0.
Definition w2 : Waker := mkWaker 2 0.
Definition more_cqe (i : N) (r : Z) : cqe := Cqe i r 2.
Definition last_cqe (i : N) (r : Z) : cqe := Cqe i r 0.

(** Operation 0 is single-shot, operation 1 multishot; the latter gets
    three completions, is polled and dropped while more are expected. *)
Definition events : list (event data) :=
  [ESubmit 7 Single []; ESubmit 8 Multi []; EPoll 7 w1; EPoll 8 w2;
   ECompletion 1 (more_cqe 1 10); ECompletion 1 (more_cqe 1 11);
   ECompletion 1 (more_cqe 1 12); EPoll 8 w2; EDrop 8; ECompletion 0 (last_cqe 0 (-5))].
Definition state (n : nat) : sys (gmap N) data :=
  match run_all (Output := data) start (take n events) with Ret s => s | _ => start end.

Lemma state_reachable n :
  all_enabled (Output := data) anything anyone start (take n events) ->
  run_all (Output := data) start (take n events) = Ret (state n) ->
  reachable (Output := data) anything anyone (state n).
Proof. apply run_all_reachable. constructor. Qed.

Ltac run :=
  apply state_reachable; [|vm_compute; reflexivity]; vm_compute;
  repeat match goal with
         | |- _ /\ _ => split
         | |- ex _ => eexists
         end; auto.
End Tally.
Import Tally.

Lemma driver_safe_witness :
  safe (reachable (Output := Tally.data) Tally.anything anyone)
       (run_event (Output := Tally.data) (Tally.state 7) (EPoll 8 Tally.w2)) /\
  exists s, run_event (Output := Tally.data) (Tally.state 7) (EPoll 8 Tally.w2) = Ret s.
Proof.
  split.
  - apply driver_safe; [exact _|Tally.run|]. vm_compute. do 2 eexists; [done|by eexists].
  - eexists. vm_compute. reflexivity.
Defined.

(** Operation 1 was dropped while the kernel holds it: its data is boxed. *)
Lemma in_flight_data_alive_witness :
  s_kernel (Tally.state 10) !! 1 = Some Multi /\
  ((exists h hd, s_handles (Tally.state 10) !! h = Some hd /\ live hd = Some (1, Multi)) \/
   (exists b, get_mut 1 (s_ops (Tally.state 10)) = Some (Ignored b) /\
              holds_data (T := Tally.data) b)).
Proof.
  split; [vm_compute; reflexivity|].
  apply (in_flight_data_alive Tally.anything anyone (Output := Tally.data));
    [Tally.run|vm_compute; reflexivity].
Defined.

(** The same run, after the final completion of operation 1 and the poll of
    the resolved operation 0. *)
Definition finish : list (event Tally.data) :=
  Tally.events ++ [EPoll 7 Tally.w1; ECompletion 1 (Tally.last_cqe 1 0)].
Definition finished : sys (gmap N) Tally.data :=
  match run_all (Output := Tally.data) Tally.start finish with
  | Ret s => s
  | _ => Tally.start
  end.

Lemma no_leak_witness :
  slab_view (lifecycle (s_ops finished)) = ∅ /\ slab_view (completions (s_ops finished)) = ∅.
Proof.
  apply (no_leak Tally.anything anyone (Output := Tally.data)).
  - apply (run_all_reachable (Output := Tally.data) _ _ Tally.start finish); [constructor| |];
      vm_compute; [|reflexivity].
    repeat match goal with
           | |- _ /\ _ => split
           | |- ex _ => eexists
           end; auto.
  - vm_compute. reflexivity.
  - intros h hd. replace (s_handles finished) with (∅ : gmap N (handle Tally.data))
      by (vm_compute; reflexivity). by rewrite lookup_empty.
Defined.

Lemma fresh_index_witness :
  exists i o, ops_insert (s_ops (Tally.state 10)) = Ret (i, o) /\
  s_kernel (Tally.state 10) !! i = None /\ i <> u64_max /\
  (forall h hd k, s_handles (Tally.state 10) !! h = Some hd -> live hd <> Some (i, k)).
Proof.
  do 2 eexists. split; [vm_compute; reflexivity|].
  eapply (fresh_index Tally.anything anyone (Output := Tally.data));
    [Tally.run|vm_compute; reflexivity].
Defined.

Lemma poll_then_complete_wakes_witness :
  exists o1 o2,
    poll_op_2 0 Tally.w2 (s_ops (Tally.state 4)) = Ret (Pending, o1) /\
    ops_complete 0 (Tally.last_cqe 0 3) o1 = Ret (o2, [Tally.w2]) /\
    next_completion_wakes 0 o1 [Tally.w2].
Proof.
  do 2 eexists. split; [vm_compute; reflexivity|]. split; [vm_compute; reflexivity|].
  eapply (poll_then_complete_wakes 0 Tally.w2 (s_ops (Tally.state 4))).
  vm_compute. reflexivity.
Defined.

(** Three completions are queued on operation 0; two make a batch. *)
Definition queued : list cqe :=
  [Tally.more_cqe 0 1; Tally.more_cqe u64_max 9; Tally.more_cqe 0 2; Tally.last_cqe 0 (-4)].
Definition queued_ops : Ops (gmap N) :=
  match ('(_, o) ← ops_insert ops_new; dispatch queued o) with
  | Ret (o, _) => o
  | _ => ops_new
  end.
Definition queued_aops : aops :=
  <[0 := AList [mkCqeResult (Ok 1) 2; mkCqeResult (Ok 2) 2; mkCqeResult (Err (OsError 4)) 0]]> ∅.

Lemma queued_related : related queued_ops queued_aops.
Proof.
  pose proof (insert_spec (slab := gmap N) _ _ related_new) as H.
  destruct (ops_insert (slab := gmap N) ops_new) as [[i o]| | |] eqn:E; try discriminate E.
  vm_compute in E. injection E as <- <-. destruct H as (_ & _ & H).
  eapply dispatch_refines with (cs := queued) in H; [|by repeat constructor].
  eapply (refines_inv _ _ _ (queued_ops, []) (queued_aops, [])) in H as [_ H];
    [exact H|vm_compute; reflexivity..].
Qed.

Lemma multishot_poll_lossless_witness :
  exists op' o',
    poll_multishot_op (Output := Tally.data) (mkOp 0 (Some [])) Tally.w1 queued_ops =
      Ret (Ready [Ok 1; Ok 2], op', o', [Tally.w1]) /\
    exists consumed rest d1,
      [mkCqeResult (Ok 1) 2; mkCqeResult (Ok 2) 2; mkCqeResult (Err (OsError 4)) 0]
        = consumed ++ rest /\ fold_update (Output := Tally.data) ([] : Tally.data) consumed = Ret d1.
Proof.
  do 2 eexists. split; [vm_compute; reflexivity|].
  edestruct (fun xs => multishot_poll_lossless queued_ops queued_aops 0 ([] : Tally.data) xs Tally.w1)
    as (cs & rest & d1 & E & _ & F & _);
    [apply queued_related|vm_compute; reflexivity|vm_compute; reflexivity|].
  by exists cs, rest, d1.
Defined.
