(* ===== verification/Mailbox.v ===== *)
(** What the driver promises to the holders of operations, without a table.

    To its holder an operation is a mailbox: what the kernel posts for it
    arrives in order, a poll takes it out, and dropping the holder throws
    the mailbox away. In this specification there are no indices that are
    reused, no life cycles, no slabs and no linked lists, and a completion
    is addressed to the submission that it answers. The theorem at the end
    says that every run of the driver, as [System.v] has it, is a run of the
    mailboxes in which all polls give the same answers and the same tasks
    are woken. *)
From S2P Require Import Prelude Slab IoUring SlabList Op Driver DriverSpec System.

(** * Mailboxes *)

(** A submission in the hands of its owner: a single-shot one with the
    completion that has arrived, a multishot one with its queue, both with
    the task to wake at the next arrival, or a multishot one that is over. *)
Inductive slot (T : Type) : Type :=
  | SlotSingle (data : T) (got : option cqe) (waiting : option Waker)
  | SlotMulti (data : T) (queue : list CqeResult) (waiting : option Waker)
  | SlotOver.
Arguments SlotSingle {T} data got waiting.
Arguments SlotMulti {T} data queue waiting.
Arguments SlotOver {T}.

(** The mailboxes by owner, and the submissions the kernel works on. *)
Record mail (T : Type) : Type := mkMail {
  m_slots : gmap N (slot T);
  m_flight : gmap N Kind;
}.
Arguments mkMail {T} m_slots m_flight.
Arguments m_slots {T} _.
Arguments m_flight {T} _.

Inductive mail_event (T : Type) : Type :=
  | MSubmit (h : N) (k : Kind) (data : T)
  | MArrive (h : N) (c : cqe)
  | MPoll (h : N) (cx : Waker)
  | MDrop (h : N).
Arguments MSubmit {T} h k data.
Arguments MArrive {T} h c.
Arguments MPoll {T} h cx.
Arguments MDrop {T} h.

(** What can be seen of an event: answers of polls and woken tasks. *)
Inductive observation (Output : Type) : Type :=
  | Quiet
  | Arrived (woken : list Waker)
  | PolledSingle (p : Poll cqe)
  | PolledMulti (p : Poll Output) (woken : list Waker).
Arguments Quiet {Output}.
Arguments Arrived {Output} woken.
Arguments PolledSingle {Output} p.
Arguments PolledMulti {Output} p woken.

Section mailbox.
Context {Prof : Profile} {Cq : Cqueue}.
Context {T Output : Type} `{!Completable T Output} `{!Updateable T Output}.
Implicit Types m : mail T.

Definition mail_init : mail T := mkMail ∅ ∅.

(** A completion is put into the mailbox. *)
Definition arrive (c : cqe) (sl : slot T) : slot T * list Waker :=
  match sl with
  | SlotSingle d _ w => (SlotSingle d (Some c) None, option_list w)
  | SlotMulti d q w => (SlotMulti d (q ++ [pure_result c]) None, option_list w)
  | SlotOver => (SlotOver, [])
  end.

(** A poll of a multishot mailbox: the data takes in the queue until it asks
    for a yield, the final completion, or the end of the queue. *)
Definition collect (d : T) (q : list CqeResult) (cx : Waker) :
  outcome (slot T * observation Output) :=
  r ← a_drain d q;
  match r with
  | AYielded d rest =>
      '(out, d) ← yield_result d;
      Ret (match rest with
           | [] => (SlotMulti d [] (Some cx), PolledMulti (Ready out) [])
           | _ => (SlotMulti d rest None, PolledMulti (Ready out) [cx])
           end)
  | AFinal d c => out ← complete d c; Ret (SlotOver, PolledMulti (Ready out) [])
  | AEmptied d => Ret (SlotMulti d [] (Some cx), PolledMulti Pending [])
  end.

Definition mail_run m (e : mail_event T) : outcome (observation Output * mail T) :=
  match e with
  | MSubmit h k data =>
      let sl := match k with
                | Single => SlotSingle data None None
                | Multi => SlotMulti data [] None
                end in
      Ret (Quiet, mkMail (<[h := sl]> (m_slots m)) (<[h := k]> (m_flight m)))
  | MArrive h c =>
      let flight := if more (cqe_flags c) then m_flight m else delete h (m_flight m) in
      match m_slots m !! h with
      | None => Ret (Arrived [], mkMail (m_slots m) flight)
      | Some sl => let '(sl, woken) := arrive c sl in
                   Ret (Arrived woken, mkMail (<[h := sl]> (m_slots m)) flight)
      end
  | MPoll h cx =>
      match m_slots m !! h with
      | Some (SlotSingle d (Some c) _) =>
          Ret (PolledSingle (Ready c), mkMail (delete h (m_slots m)) (m_flight m))
      | Some (SlotSingle d None _) =>
          Ret (PolledSingle Pending,
               mkMail (<[h := SlotSingle d None (Some cx)]> (m_slots m)) (m_flight m))
      | Some (SlotMulti d q _) =>
          '(sl, seen) ← collect d q cx;
          Ret (seen, mkMail (<[h := sl]> (m_slots m)) (m_flight m))
      | _ => Ret (Quiet, m)
      end
  | MDrop h => Ret (Quiet, mkMail (delete h (m_slots m)) (m_flight m))
  end.

(** What the kernel and the owners do: nothing is posted for a submission
    that is not in flight, and an owner that has its result does not ask
    again. *)
Definition mail_enabled m (e : mail_event T) : Prop :=
  match e with
  | MSubmit h _ _ => m_slots m !! h = None /\ m_flight m !! h = None
  | MArrive h c =>
      exists k, m_flight m !! h = Some k /\ (k = Single -> more (cqe_flags c) = false)
  | MPoll h _ => exists sl, m_slots m !! h = Some sl /\ sl <> SlotOver
  | MDrop h => is_Some (m_slots m !! h)
  end.

Inductive mail_trace : list (mail_event T * observation Output) -> mail T -> Prop :=
  | mail_start : mail_trace [] mail_init
  | mail_next tr m e seen m' :
      mail_trace tr m -> mail_enabled m e -> mail_run m e = Ret (seen, m') ->
      mail_trace (tr ++ [(e, seen)]) m'.
End mailbox.

(** * Runs of the driver, with what can be seen *)
Section posted.
Context {Prof : Profile} {Cq : Cqueue} `{!SlabOps slab}.
Context {T Output : Type} `{!Completable T Output} `{!Updateable T Output}.
Context (promise : CqeResult -> Prop) (good : Kind -> T -> Prop).

(** [g_sent] remembers which submission an index was last given to. It is
    what the kernel knows: the [user_data] of the entry it works on. *)
Record posted : Type := mkPosted { g_sys : sys slab T; g_sent : gmap N N }.
Implicit Types g : posted.

Definition posted_init : posted := mkPosted sys_init ∅.

(** The answer of an event, from the same calls as [run_event]. *)
Definition observe (s : sys slab T) (e : event T) : outcome (observation Output) :=
  match e with
  | ESubmit _ _ _ | EDrop _ => Ret Quiet
  | ECompletion i c => '(_, woken) ← ops_complete i c (s_ops s); Ret (Arrived woken)
  | EPoll h cx =>
      match s_handles s !! h with
      | None => Ret Quiet
      | Some (HSingle i _) => '(p, _) ← poll_op_2 i cx (s_ops s); Ret (PolledSingle p)
      | Some (HMulti op) =>
          '(p, _, _, woken) ← poll_multishot_op op cx (s_ops s); Ret (PolledMulti p woken)
      end
  end.

Definition sent_after (s : sys slab T) (e : event T) (sent : gmap N N) : gmap N N :=
  match e with
  | ESubmit h _ _ =>
      match s_handles s !! h ≫= live with
      | Some (i, _) => <[i := h]> sent
      | None => sent
      end
  | _ => sent
  end.

Definition posted_run g (e : event T) : outcome (observation Output * posted) :=
  seen ← observe (g_sys g) e;
  s ← run_event (Output := Output) (g_sys g) e;
  Ret (seen, mkPosted s (sent_after s e (g_sent g))).

(** The event as the mailboxes see it: completions are addressed to the
    submission, not to an index. *)
Definition addressed g (e : event T) : option (mail_event T) :=
  match e with
  | ESubmit h k data => Some (MSubmit h k data)
  | ECompletion i c => h ← g_sent g !! i; Some (MArrive h c)
  | EPoll h cx => Some (MPoll h cx)
  | EDrop h => Some (MDrop h)
  end.

(** A name is free again once its owner is gone and the kernel is done. *)
Definition name_free g (h : N) : bool :=
  forallb (fun ik => negb (bool_decide (g_sent g !! ik.1 = Some h)))
    (map_to_list (s_kernel (g_sys g))).
Definition posted_enabled g (e : event T) : Prop :=
  enabled promise good (g_sys g) e /\
  match e with
  | ESubmit h _ _ => name_free g h = true
  | _ => True
  end.

Inductive posted_trace : list (mail_event T * observation Output) -> posted -> Prop :=
  | posted_start : posted_trace [] posted_init
  | posted_next tr g e me seen g' :
      posted_trace tr g -> posted_enabled g e -> addressed g e = Some me ->
      posted_run g e = Ret (seen, g') -> posted_trace (tr ++ [(me, seen)]) g'.
End posted.

Arguments mkPosted {slab T} g_sys g_sent.
Arguments g_sys {slab T} _.
Arguments g_sent {slab T} _.

(** * The simulation *)
Section simulation.
Context {Prof : Profile} {Cq : Cqueue} `{!SlabOps slab} `{!SlabLaws slab}.
Context {T Output : Type} `{!Completable T Output} `{!Updateable T Output}.
Context (promise : CqeResult -> Prop) (good : Kind -> T -> Prop) `{!ClientLaws T Output promise good}.
Implicit Types (a : aops) (hs : gmap N (handle T)) (kn : gmap N Kind) (m : mail T).

(** The mailbox that a handle and the table make up. *)
Definition slot_of a (hd : handle T) : slot T :=
  match hd with
  | HSingle i d =>
      match a !! i with
      | Some (AWaiting w) => SlotSingle d None (Some w)
      | Some (ACompleted c) => SlotSingle d (Some c) None
      | _ => SlotSingle d None None
      end
  | HMulti op =>
      match op_data op with
      | None => SlotOver
      | Some d =>
          match a !! op_index op with
          | Some (AWaiting w) => SlotMulti d [] (Some w)
          | Some (ACompleted c) => SlotMulti d [pure_result c] None
          | Some (AList xs) => SlotMulti d xs None
          | _ => SlotMulti d [] None
          end
      end
  end.

Lemma slot_of_frame a a' hd :
  (forall i k, live hd = Some (i, k) -> a' !! i = a !! i) -> slot_of a' hd = slot_of a hd.
Proof.
  destruct hd as [i d|[i [d|]]]; cbn; intros H; [|by rewrite (H i Multi)|done].
  by rewrite (H i Single).
Qed.

(** Only the mailbox of [h] changes when only operation [i] does. *)
Lemma slots_step a a' hs i h x :
  (forall j, j <> i -> a' !! j = a !! j) ->
  (forall h' hd k, hs !! h' = Some hd -> live hd = Some (i, k) -> h' = h) ->
  slot_of a' <$> partial_alter (fun _ => x) h hs =
  partial_alter (fun _ => slot_of a' <$> x) h (slot_of a <$> hs).
Proof.
  intros Ha Hh. apply map_eq. intros h'. rewrite lookup_fmap.
  destruct (decide (h = h')) as [<-|Hne]; [by rewrite !lookup_partial_alter_eq|].
  rewrite !lookup_partial_alter_ne, lookup_fmap by done.
  destruct (hs !! h') as [hd|] eqn:E; [|done]. cbn. f_equal. apply slot_of_frame.
  intros j k Hl. apply Ha. intros ->. by apply Hne, eq_sym, (Hh h' hd k).
Qed.

(** Submissions in flight: the kernel's indices name them one to one, and an
    owner with that name still owns the index. *)
Record flight_ok kn hs (sent : gmap N N) (fl : gmap N Kind) : Prop := {
  flight_sent i k : kn !! i = Some k ->
    exists h, sent !! i = Some h /\ fl !! h = Some k /\
      forall hd, hs !! h = Some hd -> live hd = Some (i, k);
  flight_known h k : fl !! h = Some k -> exists i, kn !! i = Some k /\ sent !! i = Some h;
  flight_inj i j h : is_Some (kn !! i) -> is_Some (kn !! j) ->
    sent !! i = Some h -> sent !! j = Some h -> i = j;
  flight_owner h hd i k : hs !! h = Some hd -> live hd = Some (i, k) -> sent !! i = Some h;
}.
(** The simulation relation, over an abstract table. *)
Definition sim_with a (g : posted (slab := slab) (T := T)) m : Prop :=
  related (s_ops (g_sys g)) a /\
  abs_inv (T := T) promise a (s_kernel (g_sys g)) (s_handles (g_sys g)) /\
  map_Forall (fun _ => good_handle good) (s_handles (g_sys g)) /\
  m_slots m = slot_of a <$> s_handles (g_sys g) /\
  flight_ok (s_kernel (g_sys g)) (s_handles (g_sys g)) (g_sent g) (m_flight m).
Definition sim (g : posted (slab := slab) (T := T)) m : Prop := exists a, sim_with a g m.

(** What an event must establish: it may be stopped by a full slab; else the
    mailboxes do it too, with the same observation. *)
Definition simulated (e : event T) (g : posted (slab := slab) (T := T)) m : Prop :=
  exists me, addressed g e = Some me /\ mail_enabled m me /\
  safe (fun '(seen, g') => exists m', mail_run (Output := Output) m me = Ret (seen, m') /\ sim g' m')
       (posted_run (Output := Output) g e).

Lemma unique_index a kn hs h hd i k :
  abs_inv (T := T) promise a kn hs -> hs !! h = Some hd -> live hd = Some (i, k) ->
  forall h' hd' k', hs !! h' = Some hd' -> live hd' = Some (i, k') -> h' = h.
Proof. intros [_ Hu] ? ? h' hd' k' ? ?. by eapply Hu. Qed.

(** Handles may go, or change without owning anything new. *)
Lemma flight_ok_handles kn hs hs' sent fl :
  flight_ok kn hs sent fl ->
  (forall h hd, hs' !! h = Some hd -> hs !! h = Some hd \/
     exists hd0, hs !! h = Some hd0 /\
       forall i k, live hd0 = Some (i, k) ->
         live hd = Some (i, k) \/ live hd = None /\ kn !! i = None) ->
  (forall h hd i k, hs' !! h = Some hd -> live hd = Some (i, k) ->
     exists hd0, hs !! h = Some hd0 /\ live hd0 = Some (i, k)) ->
  flight_ok kn hs' sent fl.
Proof.
  intros [F1 F2 F3 F4] H1 H2. split; [|done..|].
  - intros i k Hk. destruct (F1 i k Hk) as (h & Hs & Hf & Hl). exists h. split_and!; [done..|].
    intros hd Hh. destruct (H1 h hd Hh) as [?|(hd0 & H0 & Hl0)]; [by auto|].
    destruct (Hl0 i k) as [?|[_ ?]]; [by apply Hl|done|congruence].
  - intros h hd i k Hh Hl. destruct (H2 h hd i k Hh Hl) as (hd0 & ? & ?). by eapply F4.
Qed.

Lemma sim_init : sim posted_init mail_init.
Proof.
  exists ∅. destruct (init_inv (slab := slab) (T := T) promise good) as (a & Hr & Ha & Hg).
  split_and!; cbn; [apply related_new| |done|by rewrite fmap_empty|].
  - split; [|exact (inv_unique _ _ _ _ Ha)]. intros i. rewrite lookup_empty. cbn.
    split; [done|]. intros h hd k. by rewrite lookup_empty.
  - by split; intros *; rewrite ?lookup_empty.
Qed.

Lemma flight_submit kn hs sent fl i h k hd :
  flight_ok kn hs sent fl -> kn !! i = None -> fl !! h = None ->
  (forall j, is_Some (kn !! j) -> sent !! j <> Some h) -> live hd = Some (i, k) ->
  (forall h' hd' k', hs !! h' = Some hd' -> live hd' <> Some (i, k')) ->
  flight_ok (<[i := k]> kn) (<[h := hd]> hs) (<[i := h]> sent) (<[h := k]> fl).
Proof.
  intros [F1 F2 F3 F4] Hi Hh Hn Hl Hno. split.
  - intros j k' [[<- <-]|[Hj Hk]]%lookup_insert_Some.
    + exists h. rewrite !lookup_insert_eq. split_and!; [done..|]. by intros ? [= <-].
    + destruct (F1 j k' Hk) as (h' & Hs & Hf & Hl'). exists h'.
      assert (h <> h') by (intros <-; by apply (Hn j); [eexists|]).
      by rewrite !lookup_insert_ne.
  - intros h' k' [[<- <-]|[Hj Hk]]%lookup_insert_Some.
    + exists i. by rewrite !lookup_insert_eq.
    + destruct (F2 h' k' Hk) as (j & Hkj & Hs). exists j.
      assert (i <> j) by congruence. by rewrite !lookup_insert_ne.
  - intros j1 j2 h' H1 H2 S1 S2.
    destruct (decide (i = j1)) as [<-|N1], (decide (i = j2)) as [<-|N2]; [done| | |].
    + rewrite lookup_insert_eq in S1. rewrite lookup_insert_ne in H2 by done. rewrite lookup_insert_ne in S2 by done.
      simplify_eq. by destruct (Hn j2).
    + rewrite lookup_insert_eq in S2. rewrite lookup_insert_ne in H1 by done. rewrite lookup_insert_ne in S1 by done.
      simplify_eq. by destruct (Hn j1).
    + rewrite lookup_insert_ne in H1 by done. rewrite lookup_insert_ne in H2 by done.
      rewrite lookup_insert_ne in S1 by done. rewrite lookup_insert_ne in S2 by done.
      by eapply F3.
  - intros h' hd' j k' [[<- <-]|[Hne Hh']]%lookup_insert_Some Hl'; simplify_eq.
    + by rewrite lookup_insert_eq.
    + rewrite lookup_insert_ne; [by eapply F4|]. intros <-. by eapply Hno.
Qed.

Lemma flight_done kn hs sent fl i h k :
  flight_ok kn hs sent fl -> kn !! i = Some k -> sent !! i = Some h ->
  flight_ok (delete i kn) hs sent (delete h fl).
Proof.
  intros [F1 F2 F3 F4] Hi Hs. split; [..|done].
  - intros j k' [Hj Hk]%lookup_delete_Some. destruct (F1 j k' Hk) as (h' & Hs' & Hf & Hl).
    exists h'. rewrite lookup_delete_ne; [done|]. intros <-. by apply Hj, (F3 i j h); eauto.
  - intros h' k' [Hj Hk]%lookup_delete_Some. destruct (F2 h' k' Hk) as (j & Hkj & Hs').
    exists j. rewrite lookup_delete_ne; [done|]. intros <-. congruence.
  - intros j1 j2 h' [? [??]%lookup_delete_Some] [? [??]%lookup_delete_Some]. apply F3; eauto.
Qed.

Lemma sim_submit g m h k d :
  sim g m -> posted_enabled promise good g (ESubmit h k d) -> simulated (ESubmit h k d) g m.
Proof.
  intros (a & Hr & Ha & Hg & Hm & Hf) [[Hh Hd] Hn'].
  assert (Hn : forall i, is_Some (s_kernel (g_sys g) !! i) -> g_sent g !! i <> Some h).
  { intros i [k' Hk] Hs. unfold name_free in Hn'. rewrite forallb_forall in Hn'.
    specialize (Hn' (i, k')). rewrite bool_decide_eq_true_2 in Hn' by done.
    by apply elem_of_map_to_list, list_elem_of_In, Hn' in Hk. }
  assert (Hfl : m_flight m !! h = None).
  { apply eq_None_not_Some. intros [k' Hk].
    destruct (flight_known _ _ _ _ Hf _ _ Hk) as (i & ? & ?). by apply (Hn i); [eexists|]. }
  exists (MSubmit h k d). split; [done|].
  split; [split; [by rewrite Hm, lookup_fmap, Hh|done]|].
  unfold posted_run. cbn [observe run_event mbind outcome_bind]. rewrite bind_assoc.
  eapply safe_bind; [by apply insert_spec|]. intros [i o] (Hi & _ & Ho).
  cbn [mbind outcome_bind safe].
  set (hd := match k with Single => HSingle i d | Multi => HMulti (new_op d i) end).
  assert (Hl : live hd = Some (i, k)) by (by destruct k).
  pose proof (inv_slots _ _ _ _ Ha i) as Hs. unfold slot_ok in Hs. rewrite Hi in Hs.
  destruct Hs as [Hk Hown].
  assert (Hsent : sent_after (mkSys o (<[i:=k]> (s_kernel (g_sys g)))
                    (<[h:=hd]> (s_handles (g_sys g)))) (ESubmit h k d) (g_sent g) =
                  <[i := h]> (g_sent g)).
  { cbn. rewrite lookup_insert_eq. cbn. by rewrite Hl. }
  rewrite Hsent. eexists. split; [cbn; reflexivity|]. exists (<[i := ASubmitted]> a).
  unfold sim_with. cbn [g_sys g_sent s_ops s_kernel s_handles m_slots m_flight].
  split_and!; [done|by eapply a_submit_ok|..].
  - apply map_Forall_insert_2; [|done]. by destruct k.
  - rewrite Hm. symmetry. etransitivity; [apply (slots_step a _ _ i h (Some hd))|].
    + intros j Hj. by rewrite lookup_insert_ne.
    + intros h' hd' k' H1 H2. by destruct (Hown h' hd' k').
    + change (partial_alter (fun _ => ?x) h ?hs) with (partial_alter (fun _ => x) h hs).
      cbn. f_equal. destruct k; cbn; by rewrite lookup_insert_eq.
  - by apply flight_submit.
Qed.

Lemma ret_with_eq {A} (P : A -> Prop) (o : outcome A) :
  ret_with P o -> ret_with (fun x => o = Ret x /\ P x) o.
Proof. by destruct o. Qed.

(** A completion goes into the mailbox of the submission it answers. *)
Lemma a_complete_slots a kn hs i c k h a' w sent fl :
  abs_inv (T := T) promise a kn hs -> flight_ok kn hs sent fl ->
  kn !! i = Some k -> (k = Single -> more (cqe_flags c) = false) -> sent !! i = Some h ->
  a_complete i c a = Ret (a', w) ->
  match hs !! h with
  | None => w = [] /\ slot_of a' <$> hs = slot_of a <$> hs
  | Some hd => arrive c (slot_of a hd) = (slot_of a' hd, w) /\
               slot_of a' <$> hs = <[h := slot_of a' hd]> (slot_of a <$> hs)
  end.
Proof.
  intros Ha Hf Hk Hm Hs E.
  assert (Hfr : forall j, j <> i -> a' !! j = a !! j).
  { intros j Hj. unfold a_complete in E. destruct (a !! i) as [[]|]; simplify_eq;
      try destruct (more (cqe_flags c)); simplify_eq;
      by rewrite ?lookup_insert_ne, ?lookup_delete_ne by done. }
  assert (Hu : forall h' hd k', hs !! h' = Some hd -> live hd = Some (i, k') -> h' = h).
  { intros h' hd k' H1 H2. pose proof (flight_owner _ _ _ _ Hf _ _ _ _ H1 H2). congruence. }
  pose proof (slots_step a a' hs i h (hs !! h) Hfr Hu) as Hst. rewrite partial_alter_self in Hst.
  rewrite Hst. destruct (flight_sent _ _ _ _ Hf _ _ Hk) as (h0 & Hs0 & _ & Hl). simplify_eq.
  pose proof (inv_slots _ _ _ _ Ha i) as Hok. unfold slot_ok, a_complete in *.
  destruct (hs !! h) as [hd|] eqn:Hh.
  - split; [|done]. specialize (Hl hd eq_refl).
    destruct (owned _ _ _ _ _ _ _ _ Ha Hh Hl) as (al & Hal & Hop). rewrite Hal in E.
    destruct hd as [j d|[j [d|]]]; cbn in Hl; simplify_eq; cbn [slot_of op_data op_index];
      rewrite Hal; destruct al; cbn [op_ok] in Hop; destruct_and?; simplify_eq; try congruence;
      cbn; rewrite lookup_insert_eq; unfold received; rewrite ?Hm by done; try done;
      by destruct (more (cqe_flags c)).
  - destruct (a !! i) as [al|]; [|destruct Hok; congruence].
    destruct Hok as ([k'|] & Ho & Hop).
    { destruct Ho as (h' & hd & H1 & H2). pose proof (Hu _ _ _ H1 H2). congruence. }
    destruct al; cbn [op_ok] in Hop; destruct_and?; simplify_eq; try congruence.
    split; [by destruct (more (cqe_flags c)); simplify_eq|].
    change (delete h (slot_of a <$> hs) = slot_of a <$> hs).
    apply delete_id. by rewrite lookup_fmap, Hh.
Qed.

Lemma sim_completion g m i c :
  sim g m -> enabled promise good (g_sys g) (ECompletion i c) -> simulated (ECompletion i c) g m.
Proof.
  intros (a & Hr & Ha & Hg & Hm & Hf) (Hc & Hp & Hk).
  destruct (s_kernel (g_sys g) !! i) as [k|] eqn:Ek; [|done].
  assert (Hk' : k = Single -> more (cqe_flags c) = false) by by intros ->.
  destruct (flight_sent _ _ _ _ Hf _ _ Ek) as (h & Hs & Hfl & Hl).
  exists (MArrive h c). split; [cbn; by rewrite Hs|]. split; [by exists k|].
  unfold posted_run. cbn [observe run_event].
  pose proof (complete_refines _ _ i c Hr Hc) as HR.
  pose proof (a_complete_ok promise a _ _ i c k Ha Ek Hk' Hc Hp) as HA.
  destruct (a_complete i c a) as [[a' w']| | |] eqn:E; try done. cbn in HA.
  destruct (ops_complete i c (s_ops (g_sys g))) as [[o w]|[]| |]; try done.
  destruct HR as [Hw Ho]. cbn in Hw, Ho. subst w'. cbn.
  pose proof (a_complete_slots _ _ _ _ _ _ _ _ _ _ _ Ha Hf Ek Hk' Hs E) as HS.
  assert (Hf' : flight_ok (if more (cqe_flags c) then s_kernel (g_sys g)
                           else delete i (s_kernel (g_sys g))) (s_handles (g_sys g)) (g_sent g)
                  (if more (cqe_flags c) then m_flight m else delete h (m_flight m))).
  { destruct (more (cqe_flags c)); [done|]. by eapply flight_done. }
  rewrite Hm, lookup_fmap. destruct (s_handles (g_sys g) !! h) as [hd|] eqn:Hh; cbn.
  - destruct HS as [HS1 HS2]. rewrite HS1. eexists. split; [reflexivity|]. exists a'. by split_and!.
  - destruct HS as [-> HS]. eexists. split; [reflexivity|]. exists a'. by split_and!.
Qed.

(** The handle of operation [i] stays, is replaced or goes; the kernel does
    nothing. *)
Lemma flight_ok_step kn hs sent fl h hd i k x :
  flight_ok kn hs sent fl -> hs !! h = Some hd -> live hd = Some (i, k) ->
  match x with
  | Some hd' => live hd' = live hd \/ live hd' = None /\ kn !! i = None
  | None => True
  end ->
  flight_ok kn (partial_alter (fun _ => x) h hs) sent fl.
Proof.
  intros Hf Hh Hl Hx. apply (flight_ok_handles _ hs); [done|..].
  - intros h' hd'. destruct (decide (h = h')) as [<-|Hne].
    + rewrite lookup_partial_alter_eq. intros ->. right. exists hd. split; [done|].
      intros j k' Hj. destruct Hx as [->|[??]]; [by left|right]. split; congruence.
    + rewrite lookup_partial_alter_ne by done. by left.
  - intros h' hd' j k'. destruct (decide (h = h')) as [<-|Hne].
    + rewrite lookup_partial_alter_eq. intros -> Hj. exists hd. destruct Hx as [<-|[??]]; [done|congruence].
    + rewrite lookup_partial_alter_ne by done. eauto.
Qed.

(** The new state of the simulation after a step of the owner [h]. *)
Lemma sim_owner g m a a' h hd i k x o hs' sl :
  sim_with a g m -> s_handles (g_sys g) !! h = Some hd -> live hd = Some (i, k) ->
  (forall j, j <> i -> a' !! j = a !! j) -> related o a' ->
  hs' = partial_alter (fun _ => x) h (s_handles (g_sys g)) ->
  abs_inv (T := T) promise a' (s_kernel (g_sys g)) hs' ->
  match x with
  | Some hd' => good_handle good hd' /\ (live hd' = live hd \/ live hd' = None /\ a' !! i = None)
  | None => True
  end ->
  slot_of a' <$> x = sl ->
  sim (mkPosted (mkSys o (s_kernel (g_sys g)) hs') (g_sent g))
      (mkMail (partial_alter (fun _ => sl) h (m_slots m)) (m_flight m)).
Proof.
  intros (Hr & Ha & Hg & Hm & Hf) Hh Hl Hfr Ho -> Ha' Hx <-. exists a'. split_and!; cbn; [done..| | |].
  - intros h' hd'. destruct (decide (h = h')) as [<-|Hne].
    + rewrite lookup_partial_alter_eq. intros ->. apply Hx.
    + rewrite lookup_partial_alter_ne by done. apply Hg.
  - rewrite Hm. symmetry. apply (slots_step a a' _ i); [done|].
    intros h' hd' k' H1 H2. by apply (unique_index _ _ _ _ _ _ _ Ha Hh Hl h' hd' k').
  - eapply flight_ok_step; [done..|]. destruct x as [hd'|]; [|done].
    destruct Hx as [_ [?|[? Hi]]]; [by left|right]. split; [done|].
    pose proof (inv_slots _ _ _ _ Ha' i) as Hs. unfold slot_ok in Hs. rewrite Hi in Hs. apply Hs.
Qed.

Lemma sim_poll_single g m h i d cx :
  sim g m -> s_handles (g_sys g) !! h = Some (HSingle i d) -> simulated (EPoll h cx) g m.
Proof.
  intros (a & Hsim) Hh. pose proof Hsim as (Hr & Ha & Hg & Hm & Hf).
  destruct (owned _ _ _ _ _ _ _ _ Ha Hh eq_refl) as (al & Hal & Hok).
  assert (Hsl : m_slots m !! h = Some (slot_of a (HSingle i d))) by by rewrite Hm, lookup_fmap, Hh.
  exists (MPoll h cx). split; [done|]. split.
  { eexists. split; [done|]. cbn. by rewrite Hal; destruct al. }
  unfold posted_run. cbn [observe run_event]. rewrite Hh.
  pose proof (poll_2_refines _ _ i cx Hr) as HR.
  pose proof (a_poll_2_ok promise a _ _ h i d cx Ha Hh) as HA.
  destruct (a_poll_2 i cx a) as [[p' a']| | |] eqn:E; try done. cbn in HA.
  destruct (poll_op_2 i cx (s_ops (g_sys g))) as [[p o]|[]| |]; try done.
  destruct HR as [Hp Ho]. cbn in Hp, Ho. subst p'. cbn -[mail_run].
  assert (Hfr : forall j, j <> i -> a' !! j = a !! j).
  { intros j Hj. unfold a_poll_2 in E. rewrite Hal in E. destruct al; cbn in E; simplify_eq;
      by rewrite ?lookup_insert_ne, ?lookup_delete_ne by done. }
  assert (Hpend : forall w, p = Pending -> a' = <[i := AWaiting w]> a -> w = cx ->
    sim (mkPosted (mkSys o (s_kernel (g_sys g)) (s_handles (g_sys g))) (g_sent g))
        (mkMail (<[h := SlotSingle d None (Some cx)]> (m_slots m)) (m_flight m))).
  { intros w -> -> ->. apply (sim_owner g m a (<[i := AWaiting cx]> a) h (HSingle i d) i Single
                                (Some (HSingle i d)) o _ (Some _)); [done..| |done| |].
    - symmetry. change (<[h := HSingle i d]> (s_handles (g_sys g)) = s_handles (g_sys g)).
      by apply insert_id.
    - split; [exact (Hg _ _ Hh)|by left].
    - cbn. by rewrite lookup_insert_eq. }
  cbn [mail_run]. rewrite Hsl. unfold a_poll_2 in E. rewrite Hal in E. cbn [slot_of]. rewrite Hal.
  destruct al as [|w|b|c|xs]; cbn [op_ok] in Hok; destruct_and?; cbn in E; simplify_eq;
    try congruence; (eexists; split; [reflexivity|]).
  - by eapply Hpend.
  - destruct (will_wake w cx) eqn:Ew; [apply will_wake_spec in Ew as ->|]; by eapply Hpend.
  - by apply (sim_owner g m a (delete i a) h (HSingle i d) i Single None o _ None).
Qed.

(** A multishot poll of the table is a poll of the mailbox. *)
Lemma collect_spec a i d cx al kd p op' a' w :
  a !! i = Some al -> op_ok (T := T) promise kd (Some Multi) al ->
  a_poll_multishot (mkOp i (Some d)) cx a = Ret (p, op', a', w) ->
  exists q w0, slot_of a (HMulti (mkOp i (Some d))) = SlotMulti d q w0 /\
    collect d q cx = Ret (slot_of a' (HMulti op'), PolledMulti p w) /\
    (forall j, j <> i -> a' !! j = a !! j) /\
    (live (HMulti op') = Some (i, Multi) \/ live (HMulti op') = None /\ a' !! i = None).
Proof.
  intros Hal Hok E. unfold a_poll_multishot in E. cbn [op_data op_index or_panic mbind outcome_bind] in E.
  rewrite Hal in E. cbn [slot_of op_data op_index]. rewrite Hal.
  destruct al as [|w1|b|c|xs]; cbn [op_ok] in Hok.
  - simplify_eq. do 2 eexists. split; [done|]. cbn. rewrite lookup_insert_eq.
    split_and!; [done|by intros; rewrite lookup_insert_ne|by left].
  - simplify_eq. do 2 eexists. split; [done|]. cbn. rewrite lookup_insert_eq.
    split_and!; [|by intros; rewrite lookup_insert_ne|by left].
    destruct (will_wake w1 cx) eqn:Ew; [apply will_wake_spec in Ew as ->|]; done.
  - naive_solver.
  - destruct Hok as (_ & _ & Hc & _ & Hm). rewrite from_cqe_ok in E by done.
    do 2 eexists. split; [done|]. unfold collect. cbn [a_drain pure_result flags]. rewrite Hm.
    cbn [mbind outcome_bind] in *. apply bind_Ret in E as (out & -> & E). simplify_eq. cbn.
    split_and!; [done|by intros; rewrite lookup_delete_ne|right]. by rewrite lookup_delete_eq.
  - do 2 eexists. split; [done|]. unfold collect. apply bind_Ret in E as (r & -> & E).
    cbn [mbind outcome_bind]. destruct r as [d' rest|d' c|d'].
    + apply bind_Ret in E as ([out d2] & -> & E). cbn [mbind outcome_bind].
      destruct rest; simplify_eq; cbn; rewrite lookup_insert_eq;
        (split_and!; [done|by intros; rewrite lookup_insert_ne|by left]).
    + apply bind_Ret in E as (out & -> & E). simplify_eq. cbn.
      split_and!; [done|by intros; rewrite lookup_delete_ne|right]. by rewrite lookup_delete_eq.
    + simplify_eq. cbn. rewrite lookup_insert_eq.
      split_and!; [done|by intros; rewrite lookup_insert_ne|by left].
Qed.

Lemma sim_poll_multi g m h i d cx :
  sim g m -> s_handles (g_sys g) !! h = Some (HMulti (mkOp i (Some d))) ->
  simulated (EPoll h cx) g m.
Proof.
  intros (a & Hsim) Hh. pose proof Hsim as (Hr & Ha & Hg & Hm & Hf).
  destruct (owned _ _ _ _ _ _ i Multi Ha Hh eq_refl) as (al & Hal & Hok).
  pose proof (poll_multishot_refines _ _ (mkOp i (Some d)) cx Hr) as HR.
  pose proof (a_poll_multishot_ok promise good a _ _ h i d cx Ha Hh (Hg _ _ Hh)) as HA.
  destruct (a_poll_multishot (mkOp i (Some d)) cx a) as [[[[p' op'] a'] w']| | |] eqn:E; try done.
  destruct HA as [Ha' Hgood].
  destruct (collect_spec a i d cx al _ _ _ _ _ Hal Hok E) as (q & w0 & Hsl & Hc & Hfr & Hlive).
  assert (Hsm : m_slots m !! h = Some (SlotMulti d q w0))
    by by rewrite Hm, lookup_fmap, Hh; cbn [fmap option_fmap option_map]; rewrite Hsl.
  exists (MPoll h cx). split; [done|]. split; [by eexists|].
  unfold posted_run. cbn [observe run_event]. rewrite Hh.
  destruct (poll_multishot_op (mkOp i (Some d)) cx (s_ops (g_sys g)))
    as [[[[p op] o] w]|[]| |]; try done.
  destruct HR as (-> & -> & -> & Ho). cbn -[mail_run]. cbn [mail_run]. rewrite Hsm, Hc.
  eexists. split; [reflexivity|].
  by apply (sim_owner g m a a' h (HMulti (mkOp i (Some d))) i Multi (Some (HMulti op')) o _ (Some _)).
Qed.

Lemma sim_drop g m h hd :
  sim g m -> s_handles (g_sys g) !! h = Some hd -> simulated (EDrop h) g m.
Proof.
  intros (a & Hsim) Hh. pose proof Hsim as (Hr & Ha & Hg & Hm & Hf).
  exists (MDrop h). split; [done|]. split; [cbn; by rewrite Hm, lookup_fmap, Hh|].
  unfold posted_run. cbn [observe mbind outcome_bind].
  destruct (live hd) as [[i k]|] eqn:Hl.
  - destruct (drop_event_live (Output := Output) _ h hd i k Hh Hl) as (D & data & Hb & ->).
    rewrite bind_assoc.
    pose proof (remove_2_refines _ _ i data Hr) as HR.
    pose proof (a_remove_ok promise a _ _ h hd i k data Ha Hh Hl Hb) as HA.
    destruct (a_remove i data a) as [a'| | |] eqn:E; try done. cbn in HA.
    destruct (remove_op_2 i data (s_ops (g_sys g))) as [o|[]| |]; try done.
    eexists. split; [reflexivity|].
    apply (sim_owner g m a a' h hd i k None o _ None); try done.
    intros j Hj. unfold a_remove in E. destruct (a !! i) as [[]|]; simplify_eq;
      try (apply bind_Ret in E as ([] & _ & E); simplify_eq);
      by rewrite ?lookup_insert_ne, ?lookup_delete_ne by done.
  - rewrite (drop_event_finished _ h hd Hh Hl). eexists. split; [reflexivity|].
    exists a. split_and!; cbn; [done|by eapply abs_inv_drop_finished|by apply map_Forall_delete|..].
    + by rewrite Hm, fmap_delete.
    + apply (flight_ok_handles _ (s_handles (g_sys g))); [done|..].
      * intros h' hd' [_ ?]%lookup_delete_Some. by left.
      * intros h' hd' j k' [_ ?]%lookup_delete_Some. eauto.
Qed.

Lemma sim_step g m e :
  sim g m -> posted_enabled promise good g e -> simulated e g m.
Proof.
  intros Hs He. destruct e as [h k d|i c|h cx|h].
  - by apply sim_submit.
  - by apply sim_completion, He.
  - destruct He as [(hd & Hh & [x Hl]) _]. destruct hd as [i d|[i [d|]]]; [..|done].
    + by eapply sim_poll_single.
    + by eapply sim_poll_multi.
  - destruct He as [[hd Hh] _]. by eapply sim_drop.
Qed.

(** C3. The driver is a post office. Take any run of the driver's table, with
    any interleaving of submissions, completions, polls and drops. There is
    a run of the mailboxes with the same events, in which every completion
    is addressed to the submission it answers, every poll answers the same,
    and every event wakes the same tasks. So no completion is lost, delivered
    twice, reordered, or delivered to another operation, although indices
    are reused and completions of all operations share a slab. *)
Theorem driver_refines_mailboxes tr g :
  posted_trace (Output := Output) promise good tr g ->
  exists m, mail_trace tr m /\
    (forall h, is_Some (m_slots m !! h) <-> is_Some (s_handles (g_sys g) !! h)) /\
    (forall h, is_Some (m_flight m !! h) <->
       exists i, is_Some (s_kernel (g_sys g) !! i) /\ g_sent g !! i = Some h).
Proof.
  intros Htr. assert (Hsim : exists m, mail_trace tr m /\ sim g m).
  { induction Htr as [|tr g e me seen g' _ (m & Hm & IH) He Hme E].
    - exists mail_init. split; [constructor|apply sim_init].
    - destruct (sim_step g m e IH He) as (me' & Hme' & Hen & Hs). simplify_eq.
      rewrite E in Hs. destruct Hs as (m' & Hrun & Hs). exists m'. split; [|done].
      by econstructor. }
  destruct Hsim as (m & Hm & a & _ & _ & _ & Hsl & Hf). exists m. split_and!; [done|..]; intros h.
  - by rewrite Hsl, lookup_fmap, fmap_is_Some.
  - split.
    + intros [k Hk]. destruct (flight_known _ _ _ _ Hf h k Hk) as (i & ? & ?). eauto.
    + intros (i & [k Hk] & Hi). destruct (flight_sent _ _ _ _ Hf i k Hk) as (h' & ? & ? & _).
      simplify_eq. eauto.
Qed.
End simulation.

(** * A concrete run *)
Section runs.
Context {Prof : Profile} {Cq : Cqueue} `{!SlabOps slab}.
Context {T Output : Type} `{!Completable T Output} `{!Updateable T Output}.
Context (promise : CqeResult -> Prop) (good : Kind -> T -> Prop).
Implicit Types g : posted (slab := slab) (T := T).

Fixpoint posted_all g (es : list (event T)) :
  outcome (list (mail_event T * observation Output) * posted (slab := slab) (T := T)) :=
  match es with
  | [] => Ret ([], g)
  | e :: es =>
      me ← unwrap "a completion of nothing" (addressed g e);
      '(seen, g) ← posted_run g e;
      '(tr, g) ← posted_all g es;
      Ret ((me, seen) :: tr, g)
  end.
Fixpoint posted_all_enabled g (es : list (event T)) : Prop :=
  match es with
  | [] => True
  | e :: es => posted_enabled promise good g e /\
               match posted_run (Output := Output) g e with
               | Ret (_, g) => posted_all_enabled g es
               | _ => True
               end
  end.

Lemma posted_all_trace tr g es tr' g' :
  posted_trace (Output := Output) promise good tr g -> posted_all_enabled g es ->
  posted_all g es = Ret (tr', g') -> posted_trace promise good (tr ++ tr') g'.
Proof.
  revert tr tr' g. induction es as [|e es IH]; intros tr tr' g Ht He E.
  - injection E as <- <-. by rewrite app_nil_r.
  - cbn [posted_all posted_all_enabled] in *. destruct He as [He Hes].
    apply bind_Ret in E as (me & Eme & E). apply bind_Ret in E as ([seen g1] & E1 & E).
    apply bind_Ret in E as ([tr1 g2] & E2 & E). simplify_eq. rewrite E1 in Hes.
    rewrite cons_middle, app_assoc. apply (IH _ _ g1); [|done..].
    eapply posted_next; [done..| |done]. by destruct (addressed g e); simplify_eq/=.
Qed.

Lemma posted_all_run es tr g :
  posted_all_enabled posted_init es -> posted_all posted_init es = Ret (tr, g) ->
  posted_trace (Output := Output) promise good tr g.
Proof. apply (posted_all_trace [] posted_init). constructor. Qed.
End runs.

Module Post.
Import Tally.
(** Index 0 is given to submission 7 and, once that is over, to submission
    9; submission 8 is dropped while the kernel still works on it. *)
Definition events : list (event data) :=
  [ESubmit 7 Single []; ESubmit 8 Multi []; EPoll 7 w1; ECompletion 0 (last_cqe 0 (-5));
   EPoll 7 w1; ESubmit 9 Multi []; ECompletion 1 (more_cqe 1 10); EDrop 8;
   ECompletion 0 (more_cqe 0 20); ECompletion 0 (last_cqe 0 21); EPoll 9 w2;
   ECompletion 1 (last_cqe 1 11)].
Definition start : posted (slab := gmap N) (T := data) := posted_init.
Definition run : list (mail_event data * observation data) * posted (slab := gmap N) (T := data) :=
  match posted_all (Output := data) start events with Ret r => r | _ => ([], start) end.

Lemma driver_refines_mailboxes_witness :
  exists m, mail_trace (fst run) m /\
  fst run !! 3%nat = Some (MArrive 7 (last_cqe 0 (-5)), Arrived [w1]) /\
  fst run !! 4%nat = Some (MPoll 7 w1, PolledSingle (Ready (last_cqe 0 (-5)))) /\
  fst run !! 10%nat = Some (MPoll 9 w2, PolledMulti (Ready [Ok 20; Ok 21]) []).
Proof.
  destruct (driver_refines_mailboxes (slab := gmap N) (Output := data) anything anyone
              (fst run) (snd run)) as (m & Hm & _).
  - apply (posted_all_run anything anyone events).
    + vm_compute. repeat match goal with |- _ /\ _ => split | |- ex _ => eexists end.
      all: first [reflexivity | exact I].
    + vm_compute. reflexivity.
  - exists m. split; [done|]. by vm_compute.
Defined.
End Post.
