(* ===== verification/Ownership.v ===== *)
(** Who owns the data of an operation. What the kernel reads and writes, and
    the descriptor it uses, is kept alive by the data [T] of the operation.
    Data is owned by its handle, or by the box of a life cycle [Ignored];
    when neither has it any more it was dropped, or given back. [Keyed]
    abstracts what of the data must stay: the descriptor it clones, the
    buffer it owns. *)
From S2P Require Import Prelude Slab IoUring SlabList Op Driver DriverSpec System.

Class Keyed (T K : Type) : Type := key : T -> K.

(** Multishot data changes with each completion, but not its key. *)
Class KeyedLaws {Cq : Cqueue} (T Output K : Type) `{!Completable T Output}
    `{!Updateable T Output} `{!Keyed T K} : Prop := {
  update_key (d d' : T) c : update d c = Ret d' -> key d' = key d;
  yield_key (d d' : T) out : yield_result d = Ret (out, d') -> key d' = key d;
}.

(** [b] is a box of [remove_op] or of [remove_op_2] around [d]. *)
Definition boxes {T} (b : BoxAny) (d : T) : Prop :=
  b = box_any T d \/ b = box_any (option T) (Some d).
Definition hd_data {T} (hd : handle T) : option T :=
  match hd with HSingle _ d => Some d | HMulti op => op_data op end.
Definition of_op {T} (i : N) (hd : handle T) : Prop := fst <$> live hd = Some i.

Section owners.
Context {Prof : Profile} {Cq : Cqueue} `{!SlabOps slab}.
Context {T Output : Type} `{!Completable T Output} `{!Updateable T Output}.
Context `{!Keyed T K}.
Implicit Types (s : sys slab T).

Definition is_ignored (lc : option Lifecycle) : bool :=
  match lc with Some (Ignored _) => true | _ => false end.

(** Somebody owns the data of operation [i]; its key is [k]. *)
Definition holds s (i : N) : Prop :=
  map_Exists (fun _ hd => of_op i hd) (s_handles s) \/ is_ignored (get_mut i (s_ops s)) = true.
#[export] Instance holds_dec s i : Decision (holds s i).
Proof. unfold holds, of_op. apply _. Defined.
Definition held s (i : N) (k : K) : Prop :=
  (exists h hd d, s_handles s !! h = Some hd /\ of_op i hd /\ hd_data hd = Some d /\ key d = k) \/
  (exists b d, get_mut i (s_ops s) = Some (Ignored b) /\ boxes b d /\ key d = k).

(** The data that exists, by its operation. A submission brings data; after
    any other event what nobody owns is gone. *)
Definition kept_after (e : event T) s (kept : gmap N K) : gmap N K :=
  match e with
  | ESubmit h _ d =>
      match s_handles s !! h ≫= live with
      | Some (i, _) => <[i := key d]> kept
      | None => kept
      end
  | _ => filter (fun ik => holds s ik.1) kept
  end.

(** What was submitted under each index, the latest submission counting. *)
Definition sent_after (e : event T) s (sent : gmap N K) : gmap N K :=
  match e with
  | ESubmit _ _ _ => kept_after e s sent
  | _ => sent
  end.

Inductive owned_reachable (promise : CqeResult -> Prop) (good : Kind -> T -> Prop) :
  sys slab T -> gmap N K -> gmap N K -> Prop :=
  | owned_init : owned_reachable promise good sys_init ∅ ∅
  | owned_step s sent kept e s' :
      owned_reachable promise good s sent kept -> enabled promise good s e ->
      run_event (Output := Output) s e = Ret s' ->
      owned_reachable promise good s' (sent_after e s' sent) (kept_after e s' kept).
End owners.

(** * Events and owners *)
Section ownership.
Context {Prof : Profile} {Cq : Cqueue} `{!SlabOps slab} `{!SlabLaws slab}.
Context {T Output : Type} `{!Completable T Output} `{!Updateable T Output}.
Context (promise : CqeResult -> Prop) (good : Kind -> T -> Prop) `{!ClientLaws T Output promise good}.
Context `{!Keyed T K} `{!KeyedLaws T Output K}.
Implicit Types (s : sys slab T) (a : aops) (hs : gmap N (handle T)) (kn : gmap N Kind).

Lemma related_ignored o a i b :
  related o a -> get_mut i o = Some (Ignored b) <-> a !! i = Some (AIgnored b).
Proof.
  intros [own H]. unfold get_mut. rewrite slab_get_view.
  destruct (related_cases _ _ _ i H) as [(-> & -> & _)|(lc & al & -> & -> & Hr)]; [done|].
  destruct lc, al; cbn in Hr; try done. destruct Hr as [-> _].
  split; intros E; injection E; by intros ->.
Qed.
Lemma ignored_related o a i :
  related o a -> is_ignored (get_mut i o) = true <-> exists b, a !! i = Some (AIgnored b).
Proof.
  intros H. split.
  - destruct (get_mut i o) as [[]|] eqn:E; try done. intros _. eexists. by eapply related_ignored.
  - intros [b Hb]. by rewrite (proj2 (related_ignored o a i b H) Hb).
Qed.

Lemma of_op_live hd i : of_op (T := T) i hd <-> exists k, live hd = Some (i, k).
Proof.
  unfold of_op. destruct (live hd) as [[j k]|]; cbn.
  - split; [intros [= ->]; by eexists|intros [? [= -> _]]; done].
  - split; [done|by intros [? ?]].
Qed.
Lemma live_data hd i k : live (T := T) hd = Some (i, k) -> exists d, hd_data hd = Some d.
Proof. destruct hd as [j d|[j [d|]]]; cbn; [|eauto..|done]. by eexists. Qed.

(** An event that submits nothing keeps the data that is still owned, and
    makes no new owner. *)
Definition transfers s s' : Prop :=
  (forall i k, held s i k -> holds s' i -> held s' i k) /\ (forall i, holds s' i -> holds s i).

Lemma ignored_no_owner a kn hs i b h hd :
  abs_inv (T := T) promise a kn hs -> a !! i = Some (AIgnored b) -> hs !! h = Some hd ->
  of_op i hd -> False.
Proof.
  intros H Hb Hh [k Hl]%of_op_live.
  destruct (owned _ _ _ _ _ _ _ _ H Hh Hl) as (al & Hal & Hok). rewrite Hb in Hal. simplify_eq.
  by destruct Hok as (_ & ? & _).
Qed.

(** The kernel posts: boxes may go. *)
Lemma transfers_boxes o o' a a' kn kn' hs :
  related o a -> related o' a' -> abs_inv (T := T) promise a kn hs ->
  (forall i b, a' !! i = Some (AIgnored b) -> a !! i = Some (AIgnored b)) ->
  transfers (mkSys o kn hs) (mkSys o' kn' hs).
Proof.
  intros Ho Ho' Ha Hb. split; cbn.
  - intros i k [Hh|(b & d & Hi & Hd)] Hk; [by left|]. right. cbn in *.
    apply (related_ignored _ _ _ _ Ho) in Hi. exists b, d. split; [|done].
    destruct Hk as [(h & hd & Hh & Hl)|Hk]; [by destruct (ignored_no_owner _ _ _ _ _ _ _ Ha Hi Hh Hl)|].
    apply (ignored_related _ _ _ Ho') in Hk as [b' Hb']. pose proof (Hb _ _ Hb').
    apply (related_ignored _ _ _ _ Ho'). congruence.
  - intros i [Hk|Hk]; [by left|right]. cbn in *.
    apply (ignored_related _ _ _ Ho') in Hk as [b Hk]. apply (ignored_related _ _ _ Ho). eauto.
Qed.

(** The handle [h] of operation [i] is replaced or dropped. *)
Lemma transfers_handle o o' a a' kn hs h hd i k x :
  related o a -> related o' a' -> abs_inv (T := T) promise a kn hs ->
  hs !! h = Some hd -> live hd = Some (i, k) -> (forall j, j <> i -> a' !! j = a !! j) ->
  (match x with
   | Some hd' => (live hd' = live hd /\ key (K := K) <$> hd_data hd' = key <$> hd_data hd \/ live hd' = None) /\
                 forall b, a' !! i <> Some (AIgnored b)
   | None => forall b, a' !! i = Some (AIgnored b) -> exists d, boxes b d /\ hd_data hd = Some d
   end) ->
  transfers (mkSys o kn hs) (mkSys o' kn (partial_alter (fun _ => x) h hs)).
Proof.
  intros Ho Ho' Ha Hh Hl Hfr Hx.
  assert (Hhd : of_op i hd) by (apply of_op_live; eauto).
  assert (Hold : forall b, a !! i <> Some (AIgnored b)).
  { intros b Hb. by destruct (ignored_no_owner _ _ _ _ _ _ _ Ha Hb Hh Hhd). }
  assert (Huniq : forall h' hd', hs !! h' = Some hd' -> of_op i hd' -> h' = h).
  { intros h' hd' Hh' [k' Hl']%of_op_live. by eapply (inv_unique _ _ _ _ Ha). }
  split; cbn.
  - intros j κ [(h' & hd' & d & Hh' & Hj & Hd & Hk)|(b & d & Hb & Hd)] Hn; cbn in *.
    + destruct (decide (h' = h)) as [->|Hne].
      2:{ left. exists h', hd', d. cbn. by rewrite lookup_partial_alter_ne. }
      rewrite Hh in Hh'. injection Hh' as <-. assert (j = i) as -> by (unfold of_op in *; congruence).
      destruct Hn as [(h2 & hd2 & H2 & L2)|Hn]; cbn in *.
      * destruct (decide (h = h2)) as [<-|Hne].
        -- rewrite lookup_partial_alter_eq in H2. subst x. destruct Hx as [[[Hl2 Hk2]|Hl2] _].
           ++ rewrite Hd in Hk2. cbn in Hk2. apply fmap_Some in Hk2 as (d2 & Hd2 & Hk2).
              left. exists h, hd2, d2. cbn. rewrite lookup_partial_alter_eq.
              split_and!; [done..|congruence].
           ++ apply of_op_live in L2 as [? ?]. congruence.
        -- rewrite lookup_partial_alter_ne in H2 by done. by destruct Hne; symmetry; eapply Huniq.
      * apply (ignored_related _ _ _ Ho') in Hn as [b Hb]. destruct x as [hd'|].
        { by destruct Hx as [_ Hx]; destruct (Hx b). }
        destruct (Hx b Hb) as (d2 & Hb2 & Hd2). right. exists b, d2. cbn.
        split; [by apply (related_ignored _ _ _ _ Ho')|]. split; [done|congruence].
    + right. exists b, d. split; [|done]. apply (related_ignored _ _ _ _ Ho) in Hb. cbn.
      apply (related_ignored _ _ _ _ Ho'). rewrite Hfr; [done|]. intros ->. by destruct (Hold b).
  - intros j [(h2 & hd2 & H2 & L2)|Hn]; cbn in *.
    + left. destruct (decide (h = h2)) as [<-|Hne].
      * rewrite lookup_partial_alter_eq in H2. subst x. exists h, hd. split; [done|].
        destruct Hx as [[[Hl2 _]|Hl2] _]; [|apply of_op_live in L2 as [? ?]; congruence].
        unfold of_op in *. congruence.
      * rewrite lookup_partial_alter_ne in H2 by done. by exists h2, hd2.
    + apply (ignored_related _ _ _ Ho') in Hn as [b Hb]. destruct (decide (j = i)) as [->|Hne].
      * left. by exists h, hd.
      * right. cbn. apply (ignored_related _ _ _ Ho). exists b. by rewrite <- Hfr.
Qed.

Lemma a_complete_ignored i c a a' w j b :
  a_complete i c a = Ret (a', w) -> a' !! j = Some (AIgnored b) -> a !! j = Some (AIgnored b).
Proof.
  unfold a_complete, received. intros E Hb.
  destruct (a !! i) as [[]|] eqn:Ei; repeat case_match; simplify_eq; try done;
    (destruct (decide (i = j)) as [<-|Hj];
     [by rewrite ?lookup_insert_eq, ?lookup_delete_eq in Hb
     |by rewrite ?lookup_insert_ne, ?lookup_delete_ne in Hb by done]).
Qed.

Lemma a_drain_key xs (d : T) r :
  a_drain d xs = Ret r ->
  match r with
  | AYielded d' _ | AFinal d' _ | AEmptied d' => key (K := K) d' = key d
  end.
Proof.
  revert d. induction xs as [|c xs IH]; intros d; cbn; [by intros [= <-]|].
  destruct (more (flags c)); [|by intros [= <-]].
  intros (d' & Hd' & E)%bind_Ret. apply (update_key (K := K)) in Hd'. rewrite <- Hd'.
  destruct (should_yield d'); [by simplify_eq|]. by apply IH.
Qed.

(** What a multishot poll does to the handle, and to the table at its index. *)
Lemma a_poll_multishot_key i d cx a p op a' w :
  a_poll_multishot (Output := Output) (mkOp i (Some d)) cx a = Ret (p, op, a', w) ->
  op_index op = i /\ (forall j, j <> i -> a' !! j = a !! j) /\
  (key (K := K) <$> op_data op = Some (key d) \/ op_data op = None) /\
  (forall b, a !! i <> Some (AIgnored b)) /\ (forall b, a' !! i <> Some (AIgnored b)).
Proof.
  unfold a_poll_multishot. cbn [op_index op_data or_panic mbind outcome_bind]. intros E.
  assert (Hfr : forall al j, j <> i -> (<[i := al]> a : aops) !! j = a !! j)
    by (intros; by apply lookup_insert_ne).
  assert (Hfr' : forall j, j <> i -> delete i a !! j = a !! j)
    by (intros; by apply lookup_delete_ne).
  destruct (a !! i) as [[|w0|b|c|xs]|] eqn:Ei.
  1, 2: simplify_eq; rewrite lookup_insert_eq; split_and!; auto; cbn; try case_match; done.
  - done.
  - apply bind_Ret in E as (r & _ & E). apply bind_Ret in E as (out & _ & E). simplify_eq.
    rewrite lookup_delete_eq. split_and!; auto; done.
  - apply bind_Ret in E as (r & Er & E). apply a_drain_key in Er. destruct r as [d' rest|d' c|d'].
    + apply bind_Ret in E as ([out d2] & Ey & E). apply (yield_key (K := K)) in Ey.
      destruct rest; simplify_eq; rewrite lookup_insert_eq; cbn; split_and!; auto; try done;
        left; congruence.
    + apply bind_Ret in E as (out & _ & E). simplify_eq. rewrite lookup_delete_eq. split_and!; auto; done.
    + simplify_eq. rewrite lookup_insert_eq. cbn. split_and!; auto; try done. left. congruence.
  - apply bind_Ret in E as (out & _ & E). simplify_eq. rewrite Ei. split_and!; auto; done.
Qed.

Lemma transfers_completion s i c s' :
  sys_inv promise good s -> enabled promise good s (ECompletion i c) ->
  run_event (Output := Output) s (ECompletion i c) = Ret s' -> transfers s s'.
Proof.
  intros (a & Hr & Ha & _) (Hc & Hp & Hk) E. cbn in E. apply bind_Ret in E as ([o w] & E & E').
  simplify_eq. destruct (s_kernel s !! i) as [k|] eqn:Ek; [|done].
  pose proof (complete_refines _ _ i c Hr Hc) as HR.
  pose proof (a_complete_ok promise a _ _ i c k Ha Ek ltac:(by intros ->) Hc Hp) as HA.
  destruct (a_complete i c a) as [[a' w']| | |] eqn:Ea; try done.
  rewrite E in HR. destruct HR as [_ Ho]. destruct s as [o0 kn hs].
  eapply transfers_boxes; [exact Hr|exact Ho|exact Ha|]. intros j b. by eapply a_complete_ignored.
Qed.

Lemma transfers_poll s h cx s' :
  sys_inv promise good s -> enabled promise good s (EPoll h cx) ->
  run_event (Output := Output) s (EPoll h cx) = Ret s' -> transfers s s'.
Proof.
  intros (a & Hr & Ha & Hg) (hd & Hh & [[i k] Hl]) E. cbn in E. rewrite Hh in E.
  destruct s as [o0 kn hs]. cbn in *. destruct hd as [j d|[j [d|]]]; cbn in Hl; simplify_eq; [|].
  - apply bind_Ret in E as ([p o] & E & E'). simplify_eq.
    pose proof (poll_2_refines _ _ i cx Hr) as HR. rewrite E in HR.
    destruct (a_poll_2 i cx a) as [[p' a']| | |] eqn:Ea; try done. destruct HR as [Hp Ho].
    cbn in Hp, Ho. subst p'. unfold a_poll_2 in Ea. 
    apply bind_Ret in Ea as (al & Hal & Ea).
    assert (Hfr : forall j, j <> i -> a' !! j = a !! j).
    { intros j Hj. destruct al; simplify_eq; by rewrite ?lookup_insert_ne, ?lookup_delete_ne by done. }
    assert (Hn : forall b, a' !! i <> Some (AIgnored b)).
    { intros b. destruct al; simplify_eq; rewrite ?lookup_insert_eq, ?lookup_delete_eq; cbn;
        repeat case_match; done. }
    destruct p.
    + eapply (transfers_handle _ _ _ _ _ _ h _ i Single None Hr Ho Ha Hh eq_refl Hfr).
      intros b Hb. by destruct (Hn b).
    + rewrite <- (partial_alter_self hs h) at 2. rewrite Hh.
      eapply (transfers_handle _ _ _ _ _ _ h _ i Single (Some _) Hr Ho Ha Hh eq_refl Hfr). auto.
  - apply bind_Ret in E as ([[[p op] o] w] & E & E'). simplify_eq.
    pose proof (poll_multishot_refines (Output := Output) _ _ (mkOp i (Some d)) cx Hr) as HR. rewrite E in HR.
    destruct (a_poll_multishot _ cx a) as [[[[p' op'] a'] w']| | |] eqn:Ea; try done.
    destruct HR as (_ & <- & _ & Ho). apply a_poll_multishot_key in Ea as (Hi & Hfr & Hk & _ & Hn).
    apply (transfers_handle _ _ _ _ _ _ h _ i Multi (Some _) Hr Ho Ha Hh eq_refl Hfr).
    split; [|done]. destruct op as [i' [d'|]]; cbn in *; subst; [left|by right].
    split; [done|]. by destruct Hk as [Hk|].
Qed.

Lemma a_remove_shape {D} i (data : D) a a' :
  a_remove i data a = Ret a' ->
  (forall j, j <> i -> a' !! j = a !! j) /\
  (forall b, a' !! i = Some (AIgnored b) -> b = box_any D data).
Proof.
  unfold a_remove. intros E.
  assert (Hd : (forall j, j <> i -> delete i a !! j = a !! j) /\
               (forall b, delete i a !! i = Some (AIgnored b) -> b = box_any D data)).
  { split; [intros; by apply lookup_delete_ne|by rewrite lookup_delete_eq]. }
  assert (Hi : let a0 := <[i := AIgnored (box_any D data)]> a in
               (forall j, j <> i -> a0 !! j = a !! j) /\
               (forall b, a0 !! i = Some (AIgnored b) -> b = box_any D data)).
  { split; [intros; by apply lookup_insert_ne|rewrite lookup_insert_eq; by intros b [= <-]]. }
  destruct (a !! i) as [[|w|b|c|xs]|] eqn:Ei; [by simplify_eq..| |].
  - apply bind_Ret in E as (m & _ & E). destruct m; by simplify_eq.
  - simplify_eq. split; [done|]. by rewrite Ei.
Qed.

Lemma transfers_drop s h s' :
  sys_inv promise good s -> enabled promise good s (EDrop h) ->
  run_event (Output := Output) s (EDrop h) = Ret s' -> transfers s s'.
Proof.
  intros (a & Hr & Ha & _) [hd Hh] E. destruct s as [o0 kn hs]. cbn in Hh, Hr, Ha.
  destruct (live hd) as [[i k]|] eqn:Hl.
  - assert (H : exists (D : Type) (data : D) d, boxes (box_any D data) d /\ hd_data hd = Some d /\
             (o ← remove_op_2 i data o0; Ret (mkSys o kn (delete h hs))) = Ret s').
    { cbn in E. rewrite Hh in E. destruct hd as [j d|op]; cbn in Hl; simplify_eq.
      - exists T, d, d. split; [by left|done].
      - destruct op as [j [d|]]; cbn in Hl; simplify_eq. exists (option T), (Some d), d.
        split; [by right|]. split; [done|]. rewrite <- E. change (Some d) with (op_data (mkOp i (Some d))).
        rewrite <- (remove_op_as (mkOp i (Some d)) _ eq_refl).
        by destruct (remove_op _ o0) as [[]| | |]. }
    destruct H as (D & data & d & Hb & Hd & E'). apply bind_Ret in E' as (o & Eo & E'). simplify_eq.
    pose proof (remove_2_refines _ _ i data Hr) as HR. rewrite Eo in HR.
    destruct (a_remove i data a) as [a'| | |] eqn:Ea; try done.
    apply a_remove_shape in Ea as [Hfr Hbox].
    apply (transfers_handle _ _ _ _ _ _ h _ i k None Hr HR Ha Hh Hl Hfr).
    intros b Hi. exists d. by rewrite (Hbox b Hi).
  - rewrite (drop_event_finished (mkSys o0 kn hs) h hd Hh Hl) in E. simplify_eq. cbn.
    assert (Hne : forall h' hd' i, hs !! h' = Some hd' -> of_op i hd' -> delete h hs !! h' = Some hd').
    { intros h' hd' i Hh' [k Hl']%of_op_live. rewrite lookup_delete_ne; [done|]. intros <-. congruence. }
    split.
    + intros i κ [(h' & hd' & d & Hh' & Hi & Hd)|Hi] _; [left|by right]. exists h', hd', d. cbn.
      split; [by eapply Hne|done].
    + intros i [(h' & hd' & Hh' & Hi)|Hi]; [left|by right]. cbn in *.
      apply lookup_delete_Some in Hh' as [_ ?]. by exists h', hd'.
Qed.

(** ** The invariant *)
Record own_inv s (sent kept : gmap N K) : Prop := {
  own_sys : sys_inv promise good s;
  own_held i k : kept !! i = Some k -> sent !! i = Some k /\ held s i k;
  own_known i : holds s i -> is_Some (kept !! i);
}.

Lemma held_holds s i k : held s i k -> holds s i.
Proof.
  intros [(h & hd & d & Hh & Hi & _)|(b & d & Hi & _)]; [left|right].
  - by exists h, hd.
  - by rewrite Hi.
Qed.

Lemma own_transfer s s' sent kept :
  own_inv s sent kept -> sys_inv promise good s' -> transfers s s' ->
  own_inv s' sent (filter (fun ik => holds s' ik.1) kept).
Proof.
  intros [_ Hh Hk] Hs [H1 H2]. split; [done|..].
  - intros i k [Hi Hn]%map_lookup_filter_Some. destruct (Hh i k Hi). split; [done|]. by apply H1.
  - intros i Hn. destruct (Hk i (H2 i Hn)) as [k Hi]. exists k. by apply map_lookup_filter_Some.
Qed.

Lemma own_submit s sent kept h k d s' :
  own_inv s sent kept -> sys_inv promise good s' -> enabled promise good s (ESubmit h k d) ->
  run_event (Output := Output) s (ESubmit h k d) = Ret s' ->
  own_inv s' (sent_after (ESubmit h k d) s' sent) (kept_after (ESubmit h k d) s' kept).
Proof.
  intros [(a & Hr & Ha & _) Hh Hk] Hs' [Hfree _] E. cbn in E. apply bind_Ret in E as ([i o] & E & E').
  pose proof (insert_spec _ _ Hr) as Hi. rewrite E in Hi. destruct Hi as (Hi & _ & Ho).
  set (hd := match k with Single => HSingle i d | Multi => HMulti (new_op d i) end) in *.
  assert (Hl : live hd = Some (i, k)) by (by destruct k).
  assert (Hd : hd_data hd = Some d) by (by destruct k). simplify_eq. destruct s as [o0 kn hs]. cbn in *.
  rewrite lookup_insert_eq. cbn. rewrite Hl.
  assert (Hig : forall j, is_ignored (get_mut j o) = true -> is_ignored (get_mut j o0) = true).
  { intros j [b Hj]%(ignored_related _ _ _ Ho). apply (ignored_related _ _ _ Hr). exists b.
    apply lookup_insert_Some in Hj as [[_ ?]|[_ ?]]; done. }
  split; [done|..].
  - intros j κ [[<- <-]|[Hj Hjk]]%lookup_insert_Some.
    + rewrite lookup_insert_eq. split; [done|]. left. exists h, hd, d. cbn.
      rewrite lookup_insert_eq. split_and!; [done| |done..]. apply of_op_live. eauto.
    + destruct (Hh j κ Hjk) as [Hsent Hheld]. rewrite lookup_insert_ne by done. split; [done|].
      destruct Hheld as [(h' & hd' & d' & Hh' & Hj')|(b & d' & Hb & Hj')].
      * left. exists h', hd', d'. cbn in *. rewrite lookup_insert_ne; [done|]. congruence.
      * right. exists b, d'. split; [|done]. cbn in *. apply (related_ignored _ _ _ _ Ho).
        rewrite lookup_insert_ne by done. by apply (related_ignored _ _ _ _ Hr).
  - intros j [(h' & hd' & Hh' & Hj)|Hj]; cbn in *.
    + apply lookup_insert_Some in Hh' as [[<- <-]|[Hne Hh']].
      * apply of_op_live in Hj as [? Hj]. rewrite Hl in Hj. simplify_eq. rewrite lookup_insert_eq. eauto.
      * destruct (Hk j) as [κ ?]; [left; by exists h', hd'|].
        destruct (decide (i = j)) as [<-|]; [by rewrite lookup_insert_eq; eauto|].
        rewrite lookup_insert_ne by done. eauto.
    + destruct (Hk j) as [κ ?]; [right; by apply Hig|].
      destruct (decide (i = j)) as [<-|]; [by rewrite lookup_insert_eq; eauto|].
      rewrite lookup_insert_ne by done. eauto.
Qed.

Lemma own_event s sent kept e s' :
  own_inv s sent kept -> enabled promise good s e -> run_event (Output := Output) s e = Ret s' ->
  own_inv s' (sent_after e s' sent) (kept_after e s' kept).
Proof.
  intros Ho He E. pose proof (own_sys _ _ _ Ho) as Hs.
  assert (Hs' : sys_inv promise good s').
  { pose proof (event_inv promise good s e Hs He) as H. by rewrite E in H. }
  destruct e as [h k d|i c|h cx|h]; [by eapply own_submit|..]; apply (own_transfer s); try done.
  - by eapply transfers_completion.
  - by eapply transfers_poll.
  - by eapply transfers_drop.
Qed.

Lemma owned_inv s sent kept :
  owned_reachable (Output := Output) promise good s sent kept -> own_inv s sent kept.
Proof.
  induction 1 as [|s sent kept e s' _ IH He E]; [|by eapply own_event].
  split; [apply init_inv|by intros i k; rewrite lookup_empty|]. intros i [(h & hd & Hh & _)|Hi].
  - cbn in Hh. by rewrite lookup_empty in Hh.
  - cbn in Hi. unfold get_mut in Hi. rewrite slab_get_view in Hi. cbn in Hi.
    by rewrite slab_view_empty, lookup_empty in Hi.
Qed.

(** Whatever the kernel works on has an owner. *)
Lemma in_flight_held s sent kept i k :
  own_inv s sent kept -> s_kernel s !! i = Some k ->
  exists κ, kept !! i = Some κ /\ sent !! i = Some κ /\ held s i κ.
Proof.
  intros Ho Hi. destruct (own_sys _ _ _ Ho) as (a & Hr & Ha & _).
  assert (Hn : holds s i).
  { pose proof (inv_slots _ _ _ _ Ha i) as Hs. unfold slot_ok in Hs.
    destruct (a !! i) as [al|] eqn:Hal; [|destruct Hs; congruence].
    destruct Hs as ([k'|] & Hown & Hok).
    - left. destruct Hown as (h & hd & Hh & Hl). exists h, hd. split; [done|]. apply of_op_live. eauto.
    - right. apply (ignored_related _ _ _ Hr). rewrite Hi in Hok.
      destruct al; cbn in Hok; destruct_and?; try done; try congruence; eauto. }
  destruct (own_known _ _ _ Ho i Hn) as [κ Hκ]. exists κ. split; [done|]. by apply (own_held _ _ _ Ho).
Qed.

(** When the kernel is done and no handle is left, no data is. *)
Lemma nothing_kept s sent kept :
  own_inv s sent kept -> s_kernel s = ∅ ->
  (forall h hd, s_handles s !! h = Some hd -> live hd = None) -> kept = ∅.
Proof.
  intros Ho Hk Hl. apply map_empty. intros i. apply eq_None_not_Some. intros [κ Hi].
  destruct (own_held _ _ _ Ho i κ Hi) as [_ Hheld]. destruct (own_sys _ _ _ Ho) as (a & Hr & Ha & _).
  destruct Hheld as [(h & hd & d & Hh & [k Hi']%of_op_live & _)|(b & d & Hb & _)].
  - by rewrite (Hl h hd Hh) in Hi'.
  - apply (related_ignored _ _ _ _ Hr) in Hb. pose proof (inv_slots _ _ _ _ Ha i) as Hs.
    unfold slot_ok in Hs. rewrite Hb, Hk, lookup_empty in Hs. by destruct Hs as (? & _ & [? ?] & _).
Qed.

(** C2. The data of an operation is there as long as the kernel works on it, and
    no longer than it is wanted. Take any run of submissions, completions,
    polls and drops. As long as the kernel works on an operation, the data
    of that very submission exists: its handle has it, or the table has it in
    a box of the right type, whatever was polled, dropped or cancelled since.
    And when the kernel is done and no handle is left, no data is. *)
Theorem in_flight_data_kept s sent kept :
  owned_reachable (Output := Output) promise good s sent kept ->
  (forall i k, s_kernel s !! i = Some k ->
     exists κ, sent !! i = Some κ /\ kept !! i = Some κ /\ held s i κ) /\
  (s_kernel s = ∅ -> (forall h hd, s_handles s !! h = Some hd -> live hd = None) -> kept = ∅).
Proof.
  intros Ho%owned_inv. split.
  - intros i k Hi. destruct (in_flight_held _ _ _ _ _ Ho Hi) as (κ & ? & ? & ?). by exists κ.
  - by eapply nothing_kept.
Qed.

(** A submission brings data under an index that had none. *)
Lemma submit_fresh s sent kept h k d s' :
  own_inv s sent kept -> enabled promise good s (ESubmit h k d) ->
  run_event (Output := Output) s (ESubmit h k d) = Ret s' ->
  exists i, kept_after (ESubmit h k d) s' kept = <[i := key d]> kept /\ kept !! i = None.
Proof.
  intros Hown [Hfree _] E. destruct (own_sys _ _ _ Hown) as (a & Hr & Ha & _). cbn in E.
  apply bind_Ret in E as ([i o] & E & E'). pose proof (insert_spec _ _ Hr) as Hi. rewrite E in Hi.
  destruct Hi as (Hi & _ & _). injection E' as <-. exists i. cbn. rewrite lookup_insert_eq. cbn.
  split; [by destruct k|]. apply eq_None_not_Some. intros [κ Hκ].
  destruct (own_held _ _ _ Hown i κ Hκ) as [_ [Hh|(b & d' & Hb & _)]].
  - destruct Hh as (h' & hd & d' & Hh & Hl & _). apply of_op_live in Hl as [k' Hl].
    destruct (owned _ _ _ _ _ _ _ _ Ha Hh Hl) as (al & Hal & _). congruence.
  - apply (related_ignored _ _ _ _ Hr) in Hb. congruence.
Qed.
End ownership.

(** * Operations that are named by a number *)
Module Tagged.
Definition data : Type := N * list (io_result N).
#[export] Instance tag : Keyed data N := fst.
#[export] Instance tagged_completable : Completable data (list (io_result N)) :=
  fun d c => Ret (d.2 ++ [result_ c]).
#[export] Instance tagged_updateable : Updateable data (list (io_result N)) := {
  update := fun d c => Ret (d.1, d.2 ++ [result_ c]);
  should_yield := fun d => Nat.leb 2 (length d.2);
  yield_result := fun d => Ret (d.2, (d.1, []));
}.
Definition anything {A} : A -> Prop := fun _ => True.
#[export] Instance tagged_laws : ClientLaws data (list (io_result N)) anything anyone.
Proof. by split. Qed.
#[export] Instance tagged_key : KeyedLaws data (list (io_result N)) N.
Proof. split; [by intros d d' c [= <-]|by intros d d' out [= _ <-]]. Qed.
#[export] Instance profile : Profile := debug_profile.

(** Runs, with what was submitted and what is kept. *)
Definition state : Type := sys (gmap N) data * gmap N N * gmap N N.
Definition begin_ : state := (sys_init, ∅, ∅).
Definition next (x : state) (e : event data) : outcome state :=
  s ← run_event (Output := list (io_result N)) x.1.1 e;
  Ret (s, sent_after e s x.1.2, kept_after e s x.2).
Fixpoint run (x : state) (es : list (event data)) : outcome state :=
  match es with [] => Ret x | e :: es => x ← next x e; run x es end.
Fixpoint allowed (x : state) (es : list (event data)) : Prop :=
  match es with
  | [] => True
  | e :: es => enabled anything anyone x.1.1 e /\
               match next x e with Ret x => allowed x es | _ => True end
  end.
Lemma run_owned x es x' :
  owned_reachable (Output := list (io_result N)) anything anyone x.1.1 x.1.2 x.2 ->
  allowed x es -> run x es = Ret x' ->
  owned_reachable (Output := list (io_result N)) anything anyone x'.1.1 x'.1.2 x'.2.
Proof.
  revert x. induction es as [|e es IH]; intros x Hx Ha E; cbn in *; [by simplify_eq|].
  destruct Ha as [He Ha]. unfold next in *.
  destruct (run_event x.1.1 e) as [s| | |] eqn:Es; try done.
  apply (IH (s, sent_after e s x.1.2, kept_after e s x.2)); [|done..]. cbn. by eapply owned_step.
Qed.

Definition w1 : Waker := mkWaker 1 0.
(** Of three operations the first is over, the second was dropped while the
    kernel works on it, and the third has given a batch and goes on. *)
Definition events : list (event data) :=
  [ESubmit 7 Single (50, []); ESubmit 8 Single (60, []); ESubmit 9 Multi (70, []); EPoll 7 w1;
   EPoll 9 w1; ECompletion 0 (Cqe 0 1 0); EDrop 8; EPoll 7 w1; ECompletion 2 (Cqe 2 4 2);
   ECompletion 2 (Cqe 2 5 2); EPoll 9 w1].
Definition after : state := match run begin_ events with Ret x => x | _ => begin_ end.
Ltac walk := vm_compute; repeat match goal with
                                | |- _ /\ _ => split
                                | |- ex _ => eexists
                                end; auto; try discriminate.
Lemma after_owned :
  owned_reachable (Output := list (io_result N)) anything anyone after.1.1 after.1.2 after.2.
Proof.
  apply (run_owned begin_ events after); [constructor|walk|vm_compute; reflexivity].
Qed.

Lemma in_flight_data_kept_witness :
  map_to_list after.2 = [(2, 70); (1, 60)] /\
  exists κ, after.1.2 !! 1 = Some κ /\ after.2 !! 1 = Some κ /\ held after.1.1 1 κ.
Proof.
  split; [vm_compute; reflexivity|].
  destruct (in_flight_data_kept (Output := list (io_result N)) anything anyone
              after.1.1 after.1.2 after.2 after_owned) as [H _].
  apply (H 1 Single). vm_compute. reflexivity.
Defined.
End Tagged.
