(* ===== verification/RingSpec.v ===== *)
(** What the driver does with the ring: entries reach the submission queue in
    order and under their operation's index, a full queue is flushed, too
    long a batch never fits, and cancellations are invisible in the table of
    operations. Proved for every ring that satisfies [UringLaws]. *)
From S2P Require Import Prelude Slab IoUring SlabList Op Driver DriverSpec.

Section ring.
Context {Prof : Profile} {Cq : Cqueue} {Er : Errno} `{!SlabOps slab} `{!SlabLaws slab}.
Context `{!Uring ring} `{!UringLaws ring}.
Implicit Types d : Driver slab ring.

Definition pending d : list sqe := sq_pending (uring d).
Definition has_room (n : nat) d : Prop :=
  (length (pending d) + n <= sq_capacity (uring d))%nat.

Definition queue_capacity d : nat := sq_capacity (uring d).

(** [e] is the only entry pushed on the way from [u] to [u']. *)
Definition pushed (es : list sqe) (u u' : ring) : Prop :=
  sq_pending u' = sq_pending u ++ es /\ sq_capacity u' = sq_capacity u.

Lemma push_loop_room fuel s d :
  has_room 1 d ->
  exists u, push_loop (S fuel) (sq_push s) d = Ret (Ok tt, mkDriver (ops d) u, []) /\
            pushed [s] (uring d) u.
Proof.
  intros H. destruct (sq_push_some (uring d) s) as (u & E & ? & ?).
  { unfold has_room, pending in H. lia. }
  exists u. cbn. rewrite E. by split.
Qed.

Lemma push_loop_multiple_room fuel es d :
  has_room (length es) d ->
  exists u, push_loop (S fuel) (sq_push_multiple es) d = Ret (Ok tt, mkDriver (ops d) u, []) /\
            pushed es (uring d) u.
Proof.
  intros H. destruct (sq_push_multiple_some (uring d) es) as (u & E & ? & ?); [done|].
  exists u. cbn. rewrite E. by split.
Qed.

(** What inserting one operation does to the table. *)
Definition inserted (i : N) (o o' : Ops slab) : Prop :=
  get_mut i o = None /\ i <> u64_max /\
  slab_view (lifecycle o') = <[i := Submitted]> (slab_view (lifecycle o)) /\
  completions o' = completions o.

Lemma ops_insert_safe o : safe (fun '(i, o') => inserted i o o') (ops_insert o).
Proof.
  unfold ops_insert. eapply safe_bind; [apply insert_slab_safe|].
  intros [i s] (Hi & Hm & Hs). cbn. unfold inserted, get_mut. rewrite slab_get_view.
  by split_and!.
Qed.

Lemma submit_op_2_room fuel s d :
  has_room 1 d ->
  safe (fun '(i, d', woken) =>
    woken = [] /\ inserted i (ops d) (ops d') /\
    pushed [set_user_data (as_u64 i) s] (uring d) (uring d')) (submit_op_2 (S fuel) s d).
Proof.
  intros H. unfold submit_op_2. eapply safe_bind; [apply ops_insert_safe|].
  intros [i o] Hi.
  destruct (push_loop_room fuel (set_user_data (as_u64 i) s) (mkDriver o (uring d)))
    as (u & -> & Hu); [done|]. cbn. by split_and!.
Qed.

(** A batch: all indices are new and distinct, and the entries carry them. *)
Lemma insert_all_safe sqes o :
  safe (fun '(is_, entries, o') =>
    entries = zip_with (fun i s => set_user_data (as_u64 i) s) is_ sqes /\
    length is_ = length sqes /\ NoDup is_ /\
    Forall (fun i => get_mut i o = None /\ get_mut i o' = Some Submitted) is_ /\
    slab_view (lifecycle o) ⊆ slab_view (lifecycle o')) (insert_all sqes o).
Proof.
  revert o. induction sqes as [|s sqes IH]; intros o; cbn.
  { split_and!; [done..|apply NoDup_nil_2|done|done]. }
  eapply safe_bind; [apply ops_insert_safe|]. intros [i o1] (Hi & _ & Hv & _).
  eapply safe_bind; [apply (IH o1)|]. intros [[is_ es] o2] (-> & Hl & Hn & Hf & Hs). cbn.
  unfold get_mut in *. rewrite slab_get_view in Hi.
  assert (H1 : slab_view (lifecycle o) ⊆ slab_view (lifecycle o1)).
  { rewrite Hv. by apply insert_subseteq. }
  assert (H2 : slab_view (lifecycle o2) !! i = Some Submitted).
  { eapply lookup_weaken; [|done]. rewrite Hv. apply lookup_insert_eq. }
  split_and!; [done|by rewrite <- Hl| | |by etrans].
  - constructor; [|done]. intros Hin. rewrite Forall_forall in Hf.
    destruct (Hf i Hin) as [Hf1 _]. rewrite slab_get_view, Hv, lookup_insert_eq in Hf1. done.
  - constructor; [by rewrite !slab_get_view|]. eapply Forall_impl; [done|].
    intros j [Hj1 Hj2]. split; [|done]. rewrite slab_get_view in *.
    by eapply lookup_weaken_None.
Qed.

(** A batch that fits is queued whole and in order. [submit_ops]
    allots a fresh, distinct index to every entry, the entries reach the
    submission queue next to each other, in the order given, each with its
    operation's index as user data, and every operation is registered
    before the kernel can see its entry; nothing is flushed and no task is
    woken. *)
Theorem submit_ops_queued fuel sqes d :
  has_room (length sqes) d ->
  safe (fun '(is_, d', woken) =>
    woken = [] /\ length is_ = length sqes /\ NoDup is_ /\
    Forall (fun i => get_mut i (ops d) = None /\ get_mut i (ops d') = Some Submitted) is_ /\
    pending d' = pending d ++ zip_with (fun i s => set_user_data (as_u64 i) s) is_ sqes)
    (submit_ops (S fuel) sqes d).
Proof.
  intros H. unfold submit_ops. eapply safe_bind; [apply insert_all_safe|].
  intros [[is_ es] o] (-> & Hl & Hn & Hf & _).
  destruct (push_loop_multiple_room fuel
    (zip_with (fun i s => set_user_data (as_u64 i) s) is_ sqes) (mkDriver o (uring d)))
    as (u & -> & Hu & _).
  - unfold has_room in *. cbn. rewrite length_zip_with, Hl, Nat.min_id. exact H.
  - cbn. by split_and!.
Qed.

(** Flushing does not change the queue's capacity. *)
Lemma dispatch_completions_capacity d d' woken :
  dispatch_completions d = Ret (d', woken) ->
  sq_capacity (uring d') = sq_capacity (uring d).
Proof.
  unfold dispatch_completions. pose proof (cq_take_capacity (uring d)) as H.
  destruct (cq_take (uring d)) as [cs u]. intros ([o w] & _ & E)%bind_Ret.
  by injection E as <- <-.
Qed.

Lemma submit_capacity' fuel d r d' woken :
  submit fuel d = Ret (r, d', woken) -> sq_capacity (uring d') = sq_capacity (uring d).
Proof.
  revert d r d' woken. induction fuel as [|f IH]; intros d r d' woken; cbn; [done|].
  pose proof (submit_capacity (uring d)) as H. destruct (ring_submit (uring d)) as [[n|e] u];
    cbn in H.
  - intros [= <- <- <-]. cbn. by rewrite sq_sync_capacity.
  - destruct (decide (raw_os_error e = Some EBUSY)).
    + intros ([d1 w1] & E1 & E)%bind_Ret. apply bind_Ret in E as ([[r2 d2] w2] & E2 & E).
      injection E as <- <- <-. apply IH in E2.
      apply dispatch_completions_capacity in E1. cbn in E1. by rewrite E2, E1.
    + destruct (decide _); [by intros [= <- <- <-]|]. intros E. apply IH in E. cbn in E. by rewrite E, H.
Qed.

(** A batch longer than the submission queue is never queued: however
    long the driver keeps flushing, [submit_ops] does not return. *)
Theorem submit_ops_too_long fuel sqes d r :
  (queue_capacity d < length sqes)%nat -> submit_ops fuel sqes d <> Ret r.
Proof.
  unfold queue_capacity. intros H E. unfold submit_ops in E.
  pose proof (insert_all_safe sqes (ops d)) as Hs.
  destruct (insert_all sqes (ops d)) as [[[is_ es] o]| | |]; try done. cbn in Hs.
  destruct Hs as (-> & Hl & _). cbn in E. apply bind_Ret in E as ([[r1 d1] w1] & E & E1).
  apply bind_Ret in E1 as ([] & E1 & _). destruct r1; [clear E1|done].
  revert E. remember (mkDriver o (uring d)) as d0 eqn:Hd.
  assert (Hc : sq_capacity (uring d0) = sq_capacity (uring d)) by by subst.
  clear Hd. revert d0 d1 w1 Hc. induction fuel as [|f IH]; intros d0 d1 w1 Hc; cbn; [done|].
  rewrite sq_push_multiple_none.
  2:{ rewrite length_zip_with, Hl, Nat.min_id. lia. }
  intros ([[r2 d2] w2] & E2 & E)%bind_Ret. apply submit_capacity' in E2.
  destruct r2 as [[]|e]; [|done]. apply bind_Ret in E as ([[r3 d3] w3] & E3 & E).
  injection E as -> -> _. eapply IH, E3. congruence.
Qed.

Definition is_cancellation (c : cqe) : bool := cqe_user_data c =? u64_max.

(** The completions of cancellation requests change nothing: handling
    what the completion queue holds is handling it without them. *)
Theorem dispatch_skips_cancellations cs (o : Ops slab) :
  dispatch cs o = dispatch (filter (fun c => is_cancellation c = false) cs) o.
Proof.
  revert o. induction cs as [|c cs IH]; intros o; [done|]. rewrite filter_cons.
  cbn [dispatch]. destruct (decide (is_cancellation c = false)) as [Hc|Hc].
  - cbn [dispatch]. unfold is_cancellation in Hc. rewrite Hc.
    destruct (ops_complete _ c o) as [[o1 w1]| | |]; cbn; [|done..]. by rewrite IH.
  - unfold is_cancellation in Hc. destruct (cqe_user_data c =? u64_max); [|done]. apply IH.
Qed.

(** Cancelling asks the kernel and nothing else: while the operation
    is in the table, [cancel_op] queues one [AsyncCancel] for its index,
    marked as a cancellation, and leaves the table and every waiting task
    alone; for an operation that is gone it does nothing. *)
Theorem cancel_op_spec fuel i d :
  has_room 1 d ->
  exists u, cancel_op (S fuel) i d = Ret (Ok tt, mkDriver (ops d) u, []) /\
    sq_pending u = pending d ++
      (if decide (is_Some (get_mut i (ops d)))
       then [Sqe (OpAsyncCancel (as_u64 i)) 0 u64_max] else []).
Proof.
  intros H. unfold cancel_op, get_mut. rewrite contains_slab_view, slab_get_view.
  case_decide.
  - rewrite bool_decide_eq_true_2 by done. cbn [negb].
    destruct (push_loop_room fuel (cancel_sqe i) d H) as (u & -> & Hu & _). by exists u.
  - rewrite bool_decide_eq_false_2 by done. exists (uring d). rewrite app_nil_r.
    by destruct d.
Qed.

(** * A batch and its entries one by one *)
Fixpoint submit_each (fuel : nat) (sqes : list sqe) d : driver_result (list N) :=
  match sqes with
  | [] => Ret ([], d, [])
  | s :: sqes =>
      '(i, d, woken) ← submit_op_2 fuel s d;
      '(is_, d, woken') ← submit_each fuel sqes d;
      Ret (i :: is_, d, woken ++ woken')
  end.

(** The same table and queue, whatever the ring looks like inside. *)
Definition same_driver d d' : Prop :=
  ops d = ops d' /\ pending d = pending d' /\
  sq_capacity (uring d) = sq_capacity (uring d').

Lemma submit_each_room fuel sqes d :
  has_room (length sqes) d ->
  match insert_all sqes (ops d) with
  | Ret (is_, entries, o) =>
      exists u, submit_each (S fuel) sqes d = Ret (is_, mkDriver o u, []) /\
                pushed entries (uring d) u
  | Panic p => submit_each (S fuel) sqes d = Panic p
  | Undefined why => submit_each (S fuel) sqes d = Undefined why
  | NoFuel => submit_each (S fuel) sqes d = NoFuel
  end.
Proof.
  revert d. induction sqes as [|s sqes IH]; intros d Hroom.
  - cbn. exists (uring d). destruct d. split; [done|]. split; [by rewrite app_nil_r|done].
  - cbn [insert_all submit_each]. unfold submit_op_2.
    destruct (ops_insert (ops d)) as [[i o]| | |]; [|done..]. cbn [mbind outcome_bind].
    unfold has_room in Hroom. cbn [length] in Hroom.
    destruct (push_loop_room fuel (set_user_data (as_u64 i) s) (mkDriver o (uring d)))
      as (u & -> & Hp & Hcap); [unfold has_room, pending in *; cbn; lia|].
    cbn [mbind outcome_bind expect_submitted uring ops] in *.
    specialize (IH (mkDriver o u)). cbn [ops uring] in IH.
    assert (Hr : has_room (length sqes) (mkDriver o u)).
    { unfold has_room, pending in *. cbn [uring]. rewrite Hp, Hcap, length_app. cbn. lia. }
    specialize (IH Hr). destruct (insert_all sqes o) as [[[is_ es] o']| | |]; cbn [mbind outcome_bind];
      [|by rewrite IH..].
    destruct IH as (u' & -> & Hp' & Hcap'). exists u'. split; [done|].
    split; [|by rewrite Hcap', Hcap]. rewrite Hp', Hp. by rewrite <- app_assoc.
Qed.

(** C31. A batch is its entries one by one. With room in the queue, [submit_ops]
    does what as many calls of [submit_op_2] do: the same indices in the same
    order, the same table, the same entries queued under the same user data,
    and the same panic if the table cannot grow. *)
Theorem submit_ops_as_each fuel sqes d :
  has_room (length sqes) d ->
  match submit_ops (S fuel) sqes d with
  | Ret (is_, d1, woken) => exists d2, submit_each (S fuel) sqes d = Ret (is_, d2, woken) /\
                                       same_driver d1 d2
  | Panic p => submit_each (S fuel) sqes d = Panic p
  | Undefined why => submit_each (S fuel) sqes d = Undefined why
  | NoFuel => submit_each (S fuel) sqes d = NoFuel
  end.
Proof.
  intros Hroom. pose proof (submit_each_room fuel sqes d Hroom) as He. unfold submit_ops.
  pose proof (insert_all_safe sqes (ops d)) as Hs.
  destruct (insert_all sqes (ops d)) as [[[is_ es] o]| | |]; [|done..].
  destruct Hs as (Hes & Hl & _). destruct He as (u & -> & Hp & Hcap). cbn [mbind outcome_bind].
  destruct (push_loop_multiple_room fuel es (mkDriver o (uring d))) as (u' & -> & Hp' & Hcap').
  { unfold has_room, pending in *. cbn. rewrite Hes, length_zip_with, Hl, Nat.min_id. lia. }
  cbn. eexists. split; [done|]. unfold same_driver, pending. cbn in *.
  by rewrite Hp, Hp', Hcap, Hcap'.
Qed.
End ring.

(** * Concrete runs: Linux values, a scripted kernel *)
Definition demo_driver (capacity : nat) (script : list (io_result N * list cqe)) :
  Driver (gmap N) script_ring :=
  mkDriver ops_new (ScriptRing [] capacity [] script).

Lemma submit_ops_queued_witness :
  safe (fun '(is_, d', woken) =>
      woken = [] /\ length is_ = 2%nat /\ NoDup is_ /\
      Forall (fun i => get_mut i (ops (demo_driver 4 [])) = None /\
                       get_mut i (ops d') = Some Submitted) is_ /\
      pending d' = pending (demo_driver 4 []) ++
        zip_with (fun i s => set_user_data (as_u64 i) s) is_ [build Nop; build (OpClose 3)])
    (submit_ops (Prof := debug_profile) 1 [build Nop; build (OpClose 3)] (demo_driver 4 [])).
Proof. apply (submit_ops_queued (Prof := debug_profile)). cbv. lia. Defined.

Lemma submit_ops_too_long_witness :
  submit_ops (Prof := debug_profile) 9 [build Nop; build Nop; build Nop] (demo_driver 2 [])
    <> Ret ([], demo_driver 2 [], []).
Proof. apply (submit_ops_too_long (Prof := debug_profile)). cbv. lia. Defined.

Lemma cancel_op_spec_witness :
  exists u, cancel_op (Prof := debug_profile) 1 5 (demo_driver 4 []) =
              Ret (Ok tt, mkDriver ops_new u, []) /\ sq_pending u = [].
Proof.
  destruct (cancel_op_spec (Prof := debug_profile) 0 5 (demo_driver 4 [])) as (u & E & Hu);
    [cbv; lia|].
  exists u. split; [exact E|]. rewrite Hu. reflexivity.
Defined.

Lemma submit_ops_as_each_witness :
  exists d2, submit_each (Prof := debug_profile) 2 [build Nop; build (OpClose 3)] (demo_driver 4 []) =
    Ret ([0; 1], d2, []) /\
  pending d2 = [build Nop; set_user_data 1 (build (OpClose 3))].
Proof.
  assert (Hr : has_room (length [build Nop; build (OpClose 3)]) (demo_driver 4 []))
    by (apply Nat.leb_le; reflexivity).
  pose proof (submit_ops_as_each (Prof := debug_profile) 1 _ _ Hr) as H.
  destruct (submit_ops (Prof := debug_profile) 2 [build Nop; build (OpClose 3)] (demo_driver 4 []))
    as [[[is_ d1] woken]| | |] eqn:E; [|discriminate E..].
  assert (Ei : is_ = [0; 1] /\ woken = [] /\ pending d1 = [build Nop; set_user_data 1 (build (OpClose 3))]).
  { revert E. vm_compute. by intros [= <- <- <-]. }
  destruct Ei as (-> & -> & Ep). destruct H as (d2 & Ed & _ & Hp & _).
  exists d2. split; [exact Ed|]. rewrite <- Hp. exact Ep.
Defined.
