(* ===== verification/DropSpec.v ===== *)
(** Properties of the driver's destructor ([Drop for Driver] in
    [src/src/runtime/driver/mod.rs]): its passes mark what the kernel still works on,
    ask for its cancellation, and reap completions until the table is empty.
    The kernel is a ring that satisfies [UringLaws]; it need not finish an
    operation unless it is asked to cancel it ([Finishing]). *)
From S2P Require Import Prelude Slab IoUring SlabList Op Driver DriverSpec RingSpec.

(** * The marking pass *)
Section mark.
Context {Prof : Profile} {Cq : Cqueue} {Er : Errno} `{!SlabOps slab} `{!SlabLaws slab}.
Implicit Types (o : Ops slab) (a : aops).

(** The kernel will still post completions for the operation. *)
Definition unfinished (al : alifecycle) : bool :=
  match al with
  | ACompleted _ => false
  | AList xs => match last xs with Some c => more (flags c) | None => false end
  | _ => true
  end.
Definition a_mark (al : alifecycle) : alifecycle :=
  match al with
  | ACompleted c => ACompleted c
  | _ => if unfinished al then AIgnored (box_any unit tt) else ACompleted zeroed_cqe
  end.

Lemma a_mark_cases al :
  (unfinished al = true /\ a_mark al = AIgnored (box_any unit tt)) \/
  (unfinished al = false /\ exists c, a_mark al = ACompleted c).
Proof.
  unfold a_mark. destruct al; try (by left); [right; eauto|].
  destruct (unfinished (AList xs)); [by left|right; eauto].
Qed.
Lemma alter_Some {A} (f : A -> A) (m : gmap N A) i x :
  m !! i = Some x -> alter f i m = <[i := f x]> m.
Proof.
  intros H. apply map_eq. intros j. destruct (decide (i = j)) as [<-|Hj].
  - by rewrite lookup_alter_eq, H, lookup_insert_eq.
  - by rewrite lookup_alter_ne, lookup_insert_ne.
Qed.
Lemma alter_None {A} (f : A -> A) (m : gmap N A) i : m !! i = None -> alter f i m = m.
Proof.
  intros H. apply map_eq. intros j. destruct (decide (i = j)) as [<-|Hj].
  - by rewrite lookup_alter_eq, H.
  - by rewrite lookup_alter_ne.
Qed.

Lemma mark_cycle_spec o a i :
  related o a -> exists o', mark_cycle i o = Ret o' /\ related o' (alter a_mark i a).
Proof.
  intros Hrel. pose proof Hrel as [own H]. unfold mark_cycle. rewrite slab_get_view.
  destruct (related_cases _ _ _ i H) as [(-> & Ha & _)|(lc & al & Hi & Ha & Hr)].
  { exists o. by rewrite alter_None. }
  assert (His : is_Some (slab_view (lifecycle o) !! i)) by eauto.
  rewrite Hi, (alter_Some _ _ _ _ Ha). destruct lc, al; try done; cbn in Hr.
  1-3: eexists; split; [done|]; unfold set_lifecycle;
    eapply (related_set own o a i []); [done|done| |done]; apply upd_frame_nil; naive_solver.
  - eexists. split; [done|]. cbn. by rewrite insert_id by (destruct Hr as [-> _]; done).
  - destruct Hr as [Hs Hne]. destruct (peek_and_drop_spec _ _ _ _ _ _ H Hs Hne) as (s & b & -> & Hb & F).
    cbn [mbind outcome_bind]. eexists. split; [done|].
    unfold a_mark, unfinished, expects_more in *. destruct (last xs) as [c|]; [|done].
    injection Hb as <-. destruct (more (flags c));
      eapply (related_set own o a i []); [done|done|exact F|done|done|done|exact F|done].
Qed.

Lemma mark_cycles_alter is_ o a :
  related o a -> NoDup is_ ->
  exists o' a', mark_cycles is_ o = Ret o' /\ related o' a' /\
    forall i, a' !! i = if decide (i ∈ is_) then a_mark <$> a !! i else a !! i.
Proof.
  revert o a. induction is_ as [|j is_ IH]; intros o a H Hn.
  { exists o, a. split_and!; [done..|]. intros i. rewrite decide_False; set_solver. }
  apply NoDup_cons in Hn as [Hj Hn]. destruct (mark_cycle_spec o a j H) as (o1 & E1 & H1).
  destruct (IH o1 _ H1 Hn) as (o' & a' & E & H' & Ha'). exists o', a'.
  cbn. rewrite E1. split_and!; [done..|]. intros i. rewrite Ha'.
  destruct (decide (i = j)) as [->|Hne].
  - rewrite decide_False, decide_True, lookup_alter_eq by set_solver. done.
  - rewrite lookup_alter_ne by done. by repeat case_decide; set_solver.
Qed.
Lemma mark_cycles_all o a :
  related o a ->
  exists o', mark_cycles (slab_keys (lifecycle o)) o = Ret o' /\ related o' (a_mark <$> a).
Proof.
  intros H. destruct (mark_cycles_alter (slab_keys (lifecycle o)) o a H) as (o' & a' & E & H' & Ha').
  { apply slab_keys_NoDup. }
  exists o'. split; [done|]. replace (a_mark <$> a) with a'; [done|].
  apply map_eq. intros i. rewrite Ha', lookup_fmap. case_decide as Hi; [done|].
  destruct H as [own H]. rewrite slab_keys_view in Hi.
  destruct (related_cases _ _ _ i H) as [(_ & -> & _)|(? & ? & Hl & _)]; [done|].
  rewrite Hl in Hi. exfalso. eauto.
Qed.
End mark.

(** * A kernel that finishes what it is asked to cancel *)

(** Reading the completions [cs] takes the operations in flight from [fl] to
    [fl']: each is for an operation in flight or for a cancellation request,
    and one without [more] ends its operation. *)
Fixpoint delivered {Cq : Cqueue} (fl : gset N) (cs : list cqe) (fl' : gset N) : Prop :=
  match cs with
  | [] => fl' = fl
  | c :: cs =>
      if cqe_user_data c =? u64_max then delivered fl cs fl'
      else
        let i := as_usize (cqe_user_data c) in
        i ∈ fl /\ delivered (if more (cqe_flags c) then fl else fl ∖ {[i]}) cs fl'
  end.

(** A call that succeeds takes the whole queue, one that fails takes nothing. *)
Definition handed {Cq : Cqueue} {ring : Type} `{!Uring ring} `{!UringLaws ring}
    (calls : ring -> list (list sqe)) (x : io_result N) (r r' : ring) : Prop :=
  match x with
  | Ok _ => sq_pending r' = [] /\ calls r' = calls r ++ [sq_pending r]
  | Err _ => sq_pending r' = sq_pending r /\ calls r' = calls r
  end.

(** [flying] are the operations in the queue or with the kernel whose last
    completion has not been read, [asked] those for which a cancellation was
    queued, and [calls] what each successful system call took from the queue.
    Nothing is promised of an operation that nobody asks to cancel. Once all
    of [flying] are asked, each wait makes progress: after [rounds] many they
    have ended. A submission can be interrupted, or refused until completions
    are read, but not for ever ([patience]). *)
Class Finishing {Cq : Cqueue} {Er : Errno} (ring : Type) `{!Uring ring} `{!UringLaws ring} : Type := {
  flying : ring -> gset N;
  asked : ring -> gset N;
  calls : ring -> list (list sqe);
  rounds : ring -> nat;
  patience : ring -> nat;
  push_cancel i r r' : i ∈ flying r -> sq_push (cancel_sqe i) r = Some r' ->
    flying r' = flying r /\ asked r' = {[i]} ∪ asked r /\ calls r' = calls r;
  sync_keeps r : flying (sq_sync r) = flying r /\ calls (sq_sync r) = calls r;
  submit_call r : let '(x, r') := ring_submit r in
    flying r' = flying r /\ handed calls x r r' /\
    match x with
    | Ok _ => True
    | Err e => (raw_os_error e = Some EBUSY \/ raw_os_error e = Some EINTR) /\
               (patience r' < patience r)%nat
    end;
  wait_call r : let '(x, r') := ring_submit_and_wait 1 r in
    flying r' = flying r /\ asked r' = asked r /\ handed calls x r r';
  take_delivers r : let '(cs, r') := cq_take r in
    Forall cqe_ok cs /\ delivered (flying r) cs (flying r') /\ calls r' = calls r /\
    (patience r' <= patience r)%nat /\ asked r ∩ flying r' ⊆ asked r';
  progress r : flying r <> ∅ -> flying r ⊆ asked r ->
    (rounds (cq_take (ring_submit_and_wait 1 r).2).2 < rounds r)%nat;
}.

(** * The flush *)
Section flush.
Context {Prof : Profile} {Cq : Cqueue} {Er : Errno} `{!SlabOps slab} `{!SlabLaws slab}.
Context `{!Uring ring} `{!UringLaws ring} `{!Finishing ring}.
Implicit Types (o : Ops slab) (a : aops) (d : Driver slab ring) (fl : gset N).

(** The kernel works on exactly the unfinished operations of the table. *)
Definition awaited fl a : Prop :=
  forall i, i ∈ fl <-> exists al, a !! i = Some al /\ unfinished al = true.
Definition tracked d a : Prop := related (ops d) a /\ awaited (flying (uring d)) a.

Lemma delivered_subseteq fl cs fl' : delivered fl cs fl' -> fl' ⊆ fl.
Proof.
  revert fl. induction cs as [|c cs IH]; intros fl; cbn; [by intros ->|].
  destruct (_ =? _); [apply IH|]. intros [_ H%IH]. destruct (more _); set_solver.
Qed.
Lemma awaited_set fl a i al (b : bool) :
  awaited fl a -> i ∈ fl -> unfinished al = b ->
  awaited (if b then fl else fl ∖ {[i]}) (<[i := al]> a).
Proof.
  intros H Hi Hb j. specialize (H j). destruct (decide (i = j)) as [<-|Hj].
  - rewrite lookup_insert_eq. destruct b.
    + split; [intros _; by exists al|done].
    + split; [set_solver|]. intros (? & [= <-] & ?). congruence.
  - rewrite lookup_insert_ne, <- H by done. destruct b; [done|set_solver].
Qed.
Lemma awaited_delete fl a i : awaited fl a -> awaited (fl ∖ {[i]}) (delete i a).
Proof.
  intros H j. specialize (H j). destruct (decide (i = j)) as [<-|Hj].
  - rewrite lookup_delete_eq. split; [set_solver|]. by intros (? & ? & _).
  - rewrite lookup_delete_ne, <- H by done. set_solver.
Qed.
Lemma unfinished_received c : unfinished (received c) = more (cqe_flags c).
Proof. unfold received. by destruct (more (cqe_flags c)) eqn:E; cbn. Qed.

Lemma a_complete_awaited fl a i c :
  awaited fl a -> i ∈ fl ->
  exists a' w, a_complete i c a = Ret (a', w) /\ dom a' ⊆ dom a /\
    awaited (if more (cqe_flags c) then fl else fl ∖ {[i]}) a'.
Proof.
  intros H Hi. destruct (proj1 (H i) Hi) as (al & Ha & Hu). unfold a_complete. rewrite Ha.
  assert (Hd : dom (<[i := received c]> a) ⊆ dom a) by (by rewrite dom_insert_lookup_L by eauto).
  destruct al as [|w|b|c'|xs]; try done; cbn.
  1-2: eexists _, _; split_and!; [done|done|by apply awaited_set; [..|apply unfinished_received]].
  - destruct (more (cqe_flags c)); eexists _, _; split_and!; try done; [|by apply awaited_delete].
    rewrite dom_delete. set_solver.
  - eexists _, _; split_and!; [done|by rewrite dom_insert_lookup_L by eauto|].
    apply awaited_set; [done|done|]. cbn. by rewrite last_snoc.
Qed.
Lemma a_dispatch_awaited cs fl a fl' :
  awaited fl a -> delivered fl cs fl' ->
  exists a' w, a_dispatch cs a = Ret (a', w) /\ dom a' ⊆ dom a /\ awaited fl' a'.
Proof.
  revert fl a. induction cs as [|c cs IH]; intros fl a H Hd; cbn in *.
  { subst fl'. by exists a, []. }
  destruct (_ =? _); [by eapply IH|]. destruct Hd as [Hi Hd].
  destruct (a_complete_awaited _ _ _ c H Hi) as (a1 & w1 & -> & Hd1 & H1).
  destruct (IH _ _ H1 Hd) as (a2 & w2 & E & Hd2 & H2). cbn. rewrite E. cbn.
  eexists _, _. split_and!; [done|by etrans|done].
Qed.

Lemma dispatch_tracked d a :
  tracked d a ->
  safe (fun '(d', _) =>
    pending d' = pending d /\ queue_capacity d' = queue_capacity d /\
    calls (uring d') = calls (uring d) /\ (patience (uring d') <= patience (uring d))%nat /\
    flying (uring d') ⊆ flying (uring d) /\ exists a', tracked d' a' /\ dom a' ⊆ dom a)
    (dispatch_completions d).
Proof.
  intros [Hrel Hw]. unfold dispatch_completions, pending, queue_capacity.
  pose proof (take_delivers (uring d)) as Ht. pose proof (cq_take_pending (uring d)) as Hp.
  pose proof (cq_take_capacity (uring d)) as Hc. destruct (cq_take (uring d)) as [cs u].
  destruct Ht as (Hok & Hd & Hcalls & Hpat & _). cbn in Hp, Hc.
  destruct (a_dispatch_awaited _ _ _ _ Hw Hd) as (a' & w & Ea & Hdom & Hw').
  pose proof (dispatch_refines cs _ _ Hrel Hok) as Hr. rewrite Ea in Hr.
  destruct (dispatch cs (ops d)) as [[o w']|[]| |]; cbn in Hr; try done. destruct Hr as [_ Hr].
  cbn. split_and!; [done..|by eapply delivered_subseteq|]. by exists a'.
Qed.

(** What is true of the driver once the queue has been handed over. *)
Definition flushed d a '((r, d', _) : io_result unit * Driver slab ring * list Waker) : Prop :=
  r = Ok tt /\ pending d' = [] /\ queue_capacity d' = queue_capacity d /\
  calls (uring d') = calls (uring d) ++ [pending d] /\
  flying (uring d') ⊆ flying (uring d) /\ exists a', tracked d' a' /\ dom a' ⊆ dom a.

Lemma submit_ends n d a :
  tracked d a -> (patience (uring d) < n)%nat ->
  exists x, safe (flushed d a) x /\ forall fuel, (n <= fuel)%nat -> submit fuel d = x.
Proof.
  revert d a. induction n as [|n IH]; intros d a H Hn; [lia|].
  pose proof (submit_call (uring d)) as Hs. pose proof (submit_capacity (uring d)) as Hc.
  destruct (ring_submit (uring d)) as [x u] eqn:Es. destruct Hs as (Hf & Hh & Hx). cbn in Hc.
  assert (Hstep : forall d1 a1, tracked d1 a1 -> dom a1 ⊆ dom a ->
    pending d1 = pending d -> queue_capacity d1 = queue_capacity d ->
    calls (uring d1) = calls (uring d) -> (patience (uring d1) < n)%nat ->
    flying (uring d1) ⊆ flying (uring d) ->
    exists x, safe (flushed d a) x /\ forall fuel, (n <= fuel)%nat -> submit fuel d1 = x).
  { intros d1 a1 H1 Hd Hp1 Hc1 Hcalls1 Hpat Hf1. destruct (IH _ _ H1 Hpat) as (x' & Hx' & E).
    exists x'. split; [|done]. eapply safe_mono; [done|]. intros [[r d2] w] (-> & ? & ? & ? & ? & a2 & ? & ?).
    split_and!; [done|done|congruence|congruence|by etrans|]. exists a2. split; [done|by etrans]. }
  assert (Hu : tracked (mkDriver (ops d) u) a) by (split; [apply H|cbn; rewrite Hf; apply H]).
  destruct x as [k|e]; cbn in Hh.
  - exists (Ret (Ok tt, mkDriver (ops d) (sq_sync u), [])). split.
    + destruct (sync_keeps u) as [Hsf Hsc]. cbn. unfold pending, queue_capacity. cbn.
      rewrite sq_sync_pending, sq_sync_capacity, Hsf, Hsc, Hf.
      split_and!; try (done || apply Hh). exists a. split; [|done].
      destruct H. split; [done|]. cbn. by rewrite Hsf, Hf.
    + intros [|f] Hle; [lia|]. cbn. by rewrite Es.
  - destruct Hx as [He Hpat], Hh as [Hhp Hhc]. destruct (decide (raw_os_error e = Some EBUSY)) as [Hb|Hb].
    + pose proof (dispatch_tracked _ _ Hu) as Hd.
      destruct (dispatch_completions (mkDriver (ops d) u)) as [[d1 w1]|p| |] eqn:Ed; try done.
      * destruct Hd as (Hp1 & Hc1 & Hcalls1 & Hpat1 & Hf1 & a1 & H1 & Hdom). cbn in *.
        destruct (Hstep d1 a1) as (x' & Hx' & E'); try done.
        { by rewrite Hp1. } { by rewrite Hc1. } { by rewrite Hcalls1. } { lia. } { by rewrite <- Hf. }
        exists ('(r, d, w2) ← x'; Ret (r, d, w1 ++ w2)). split.
        { eapply safe_bind; [done|]. by intros [[r d2] w2]. }
        intros [|f] Hle; [lia|]. cbn. rewrite Es, decide_True by done. cbn. rewrite Ed. cbn.
        by rewrite E' by lia.
      * exists (Panic p). split; [by destruct p|].
        intros [|f] Hle; [lia|]. cbn. rewrite Es, decide_True by done. cbn. by rewrite Ed.
    + destruct He as [He|He]; [done|].
      destruct (Hstep (mkDriver (ops d) u) a) as (x' & Hx' & E'); try done; [cbn; lia|cbn; by rewrite Hf|].
      exists x'. split; [done|]. intros [|f] Hle; [lia|]. cbn.
      rewrite Es, decide_False by done. rewrite decide_False by (rewrite He; naive_solver).
      apply E'. lia.
Qed.

(** The loop before the passes: what was queued goes to the kernel, in one
    call, and nothing is left in the queue. *)
Definition cleared d a '((d', woken) : Driver slab ring * list Waker) : Prop :=
  pending d' = [] /\ queue_capacity d' = queue_capacity d /\
  calls (uring d') = calls (uring d) ++ match pending d with [] => [] | es => [es] end /\
  flying (uring d') ⊆ flying (uring d) /\ (pending d = [] -> d' = d /\ woken = []) /\
  exists a', tracked d' a' /\ dom a' ⊆ dom a.
Lemma flush_loop_ends n d a :
  tracked d a -> (S (patience (uring d)) < n)%nat ->
  exists x, safe (cleared d a) x /\ forall fuel, (n <= fuel)%nat -> flush_loop fuel d = x.
Proof.
  intros H Hn. destruct (sq_is_empty (uring d)) eqn:Ee.
  { exists (Ret (d, [])). split; [|intros [|f] ?; [lia|]; cbn; by rewrite Ee].
    apply sq_is_empty_spec in Ee. unfold cleared, pending in *. rewrite Ee.
    split_and!; try done; [by rewrite app_nil_r|by exists a]. }
  destruct (submit_ends (pred n) d a H) as (x & Hx & E); [lia|].
  exists ('(_, d, w) ← x; Ret (d, w)). split.
  - eapply safe_bind; [done|]. intros [[r d'] w] (-> & Hp & Hc & Hcalls & Hf & Ha).
    assert (Hne : pending d <> []).
    { intros Hp0. apply sq_is_empty_spec in Hp0. congruence. }
    unfold cleared. cbn. destruct (pending d); [done|]. by split_and!.
  - intros [|f] Hle; [lia|]. cbn. rewrite Ee, E by lia.
    destruct x as [[[r d'] w]|p| |]; cbn in Hx |- *; try done.
    destruct Hx as (-> & Hp & _). destruct f as [|f]; [lia|]. cbn.
    rewrite (proj2 (sq_is_empty_spec _) Hp). cbn. by rewrite app_nil_r.
Qed.
End flush.

Section reap.
Context {Prof : Profile} {Cq : Cqueue} {Er : Errno} `{!SlabOps slab} `{!SlabLaws slab}.
Context `{!Uring ring} `{!UringLaws ring} `{!Finishing ring}.
Implicit Types (o : Ops slab) (a : aops) (d : Driver slab ring) (fl : gset N).

(** Every entry is marked, and the ones marked [Ignored] are in flight. *)
Definition marked o fl : Prop :=
  forall i, match slab_view (lifecycle o) !! i with
            | Some (Ignored _) => i ∈ fl
            | Some (Completed _) | None => i ∉ fl
            | _ => False
            end.

Lemma marked_related o a fl :
  related o (a_mark <$> a) -> awaited fl a -> marked o fl.
Proof.
  intros [own H] Hfl i. pose proof (Hfl i) as Hi.
  destruct (related_cases _ _ _ i H) as [(-> & Ha & _)|(lc & al & -> & Ha & Hr)];
    rewrite lookup_fmap in Ha; destruct (a !! i) as [al0|]; try done; [naive_solver|].
  injection Ha as <-.
  destruct (a_mark_cases al0) as [[Eu Em]|[Eu [c Em]]]; rewrite Em in Hr;
    destruct lc; try done; [apply Hi; eauto|]. intros (al & [= <-] & E)%Hi. congruence.
Qed.

Lemma complete_ignored o i b c :
  slab_view (lifecycle o) !! i = Some (Ignored b) ->
  exists o', ops_complete i c o = Ret (o', []) /\
    slab_view (lifecycle o') =
      if more (cqe_flags c) then slab_view (lifecycle o) else delete i (slab_view (lifecycle o)).
Proof.
  intros Hi. unfold ops_complete. rewrite (index_slab_Ret _ _ _ Hi). cbn [mbind outcome_bind].
  assert (Hset : forall lc, slab_view (slab_set i lc (lifecycle o)) =
                       <[i := lc]> (slab_view (lifecycle o))).
  { intros lc. apply slab_set_view. by eexists. }
  unfold complete_lifecycle. destruct (more (cqe_flags c)); cbn [mbind outcome_bind].
  - eexists. split; [done|]. cbn. by rewrite Hset, insert_id.
  - unfold ops_remove. cbn [lifecycle].
    destruct (remove_slab_Ret Submitted i (slab_set i Submitted (lifecycle o))) as (s & -> & Hs).
    { by rewrite Hset, lookup_insert_eq. }
    cbn. eexists. split; [done|]. cbn. by rewrite Hs, Hset, delete_insert_eq.
Qed.

Lemma dispatch_marked cs o fl fl' :
  marked o fl -> delivered fl cs fl' ->
  exists o', dispatch cs o = Ret (o', []) /\ marked o' fl' /\
    forall i, is_Some (slab_view (lifecycle o') !! i) -> is_Some (slab_view (lifecycle o) !! i).
Proof.
  revert o fl. induction cs as [|c cs IH]; intros o fl Hm Hd; cbn in *.
  { subst fl'. by exists o. }
  destruct (cqe_user_data c =? u64_max); [by eapply IH|]. destruct Hd as [Hi Hd].
  set (i := as_usize (cqe_user_data c)) in *. pose proof (Hm i) as Hmi.
  destruct (slab_view (lifecycle o) !! i) as [[]|] eqn:Ei; try done.
  destruct (complete_ignored o i data c Ei) as (o1 & -> & H1). cbn [mbind outcome_bind].
  assert (Hm1 : marked o1 (if more (cqe_flags c) then fl else fl ∖ {[i]})).
  { intros j. rewrite H1. destruct (more (cqe_flags c)); [apply Hm|].
    destruct (decide (i = j)) as [<-|Hj].
    - rewrite lookup_delete_eq. set_solver.
    - rewrite lookup_delete_ne by done. pose proof (Hm j) as Hmj.
      destruct (slab_view (lifecycle o) !! j) as [[]|]; try done; set_solver. }
  destruct (IH o1 _ Hm1 Hd) as (o2 & -> & H2 & Hk).
  exists o2. split_and!; [done..|]. intros j Hj%Hk. rewrite H1 in Hj.
  destruct (more (cqe_flags c)); [done|]. by apply lookup_delete_is_Some in Hj as [_ ?].
Qed.

(** On the way from [u] to [u'], [es] were put into the queue, and what the
    kernel took was what the queue held, in order. *)
Definition gave (es : list sqe) (u u' : ring) : Prop :=
  exists later, calls u' = calls u ++ later /\
    concat later ++ sq_pending u' = sq_pending u ++ es.
Lemma gave_trans es es' u u1 u2 : gave es u u1 -> gave es' u1 u2 -> gave (es ++ es') u u2.
Proof.
  intros (l & Hc & Hp) (l' & Hc' & Hp'). exists (l ++ l'). split.
  - by rewrite Hc', Hc, app_assoc.
  - by rewrite concat_app, <- app_assoc, Hp', (app_assoc _ _ es'), Hp, app_assoc.
Qed.
Lemma gave_nil u u' : calls u' = calls u -> sq_pending u' = sq_pending u -> gave [] u u'.
Proof. intros Hc Hp. exists []. by rewrite Hc, Hp, !app_nil_r. Qed.
Lemma handed_gave x u u' : handed calls x u u' -> gave [] u u'.
Proof.
  destruct x; cbn; intros [Hp Hc]; [|by apply gave_nil].
  exists [sq_pending u]. split; [done|]. cbn. by rewrite Hp, !app_nil_r.
Qed.

(** One turn of the reaping loop at an operation in flight. *)
Lemma wait_marked d :
  marked (ops d) (flying (uring d)) -> flying (uring d) <> ∅ ->
  flying (uring d) ⊆ asked (uring d) ->
  exists d', dispatch_completions (wait d).2 = Ret (d', []) /\
    marked (ops d') (flying (uring d')) /\ flying (uring d') ⊆ asked (uring d') /\
    (rounds (uring d') < rounds (uring d))%nat /\ gave [] (uring d) (uring d') /\
    forall i, is_Some (slab_view (lifecycle (ops d')) !! i) ->
              is_Some (slab_view (lifecycle (ops d)) !! i).
Proof.
  intros Hm Hf Ha. pose proof (progress _ Hf Ha) as Hr. pose proof (wait_call (uring d)) as Hw.
  unfold wait, dispatch_completions. destruct (ring_submit_and_wait 1 (uring d)) as [r u].
  destruct Hw as (Hfu & Hau & Hh). cbn in *. pose proof (take_delivers u) as Ht.
  pose proof (cq_take_pending u) as Hp. destruct (cq_take u) as [cs u'].
  destruct Ht as (_ & Hd & Hc & _ & Hk). rewrite Hfu in Hd. rewrite Hau in Hk. cbn in *.
  destruct (dispatch_marked cs (ops d) _ _ Hm Hd) as (o' & -> & Hm' & Hkeys).
  exists (mkDriver o' u'). cbn. split_and!; [done|done| |done| |done].
  - apply delivered_subseteq in Hd. set_solver.
  - apply (gave_trans [] [] _ u); [by eapply handed_gave|by apply gave_nil].
Qed.

Definition keys_from id top o : Prop :=
  forall i, is_Some (slab_view (lifecycle o) !! i) -> id <= i < top.

Lemma reap_ends fuel id top d :
  marked (ops d) (flying (uring d)) -> flying (uring d) ⊆ asked (uring d) ->
  keys_from id top (ops d) -> (rounds (uring d) + N.to_nat (top - id) < fuel)%nat ->
  exists d', reap fuel id d = Ret (d', []) /\ slab_view (lifecycle (ops d')) = ∅ /\
    flying (uring d') = ∅ /\ gave [] (uring d) (uring d').
Proof.
  revert id d. induction fuel as [|fuel IH]; intros id d Hm Ha Hk Hf; [lia|]. cbn [reap].
  destruct (is_empty_slab (lifecycle (ops d))) eqn:Ee.
  { apply is_empty_slab_view in Ee. exists d. split_and!; [done..| |by apply gave_nil].
    apply set_eq. intros i. pose proof (Hm i) as Hi. rewrite Ee, lookup_empty in Hi. set_solver. }
  assert (Htop : id < top).
  { destruct (map_choose (slab_view (lifecycle (ops d)))) as (k & lc & Hl).
    - intros E. apply is_empty_slab_view in E. congruence.
    - specialize (Hk k ltac:(eauto)). lia. }
  rewrite slab_get_view. pose proof (Hm id) as Hid.
  destruct (slab_view (lifecycle (ops d)) !! id) as [[]|] eqn:Ei; try done.
  - destruct (wait_marked d Hm) as (d' & E & Hm' & Ha' & Hr & Hg & Hk'); [set_solver|done|].
    destruct (wait d) as [r d1]. cbn in E. rewrite E. cbn.
    destruct (IH id d' Hm' Ha') as (d2 & -> & H2 & Hf2 & Hg2); [|lia|].
    { intros i Hi. by apply Hk, Hk'. }
    cbn. exists d2. split_and!; [done..|exact (gave_trans [] [] _ _ _ Hg Hg2)].
  - unfold ops_remove. destruct (remove_slab_Ret _ _ _ Ei) as (s & -> & Hs). cbn.
    apply (IH (id + 1) (mkDriver _ (uring d))); cbn; [|done| |lia].
    + intros i. cbn. rewrite Hs. destruct (decide (id = i)) as [<-|Hne].
      * by rewrite lookup_delete_eq.
      * rewrite lookup_delete_ne by done. apply Hm.
    + intros i Hi. cbn in Hi. rewrite Hs in Hi. apply lookup_delete_is_Some in Hi as [? Hi].
      apply Hk in Hi. lia.
  - apply IH; [done|done| |lia]. intros i Hi. pose proof (Hk i Hi).
    destruct (decide (i = id)) as [->|]; [|lia]. rewrite Ei in Hi. by destruct Hi.
Qed.

(** The second pass, when the queue has room for all the requests. *)
Definition to_cancel o (is_ : list N) : list N :=
  List.filter (fun i => match slab_get i (lifecycle o) with Some (Ignored _) => true | _ => false end) is_.
Lemma cancel_ignored_room is_ d :
  has_room (length is_) d -> marked (ops d) (flying (uring d)) ->
  exists u, (forall fuel, cancel_ignored (S fuel) is_ d = Ret (mkDriver (ops d) u)) /\
    pushed (cancel_sqe <$> to_cancel (ops d) is_) (uring d) u /\ flying u = flying (uring d) /\
    calls u = calls (uring d) /\ asked u = list_to_set (to_cancel (ops d) is_) ∪ asked (uring d).
Proof.
  revert d. induction is_ as [|i is_ IH]; intros d Hr Hm; cbn [cancel_ignored].
  { exists (uring d). split; [intros; by destruct d|]. split; [|split_and!; [done..|set_solver]].
    split; [symmetry; apply app_nil_r|done]. }
  unfold to_cancel. cbn [List.filter].
  assert (Hskip : has_room (length is_) d) by (unfold has_room in *; cbn in Hr; lia).
  destruct (slab_get i (lifecycle (ops d))) as [[]|] eqn:Ei;
    try by apply IH.
  destruct (sq_push_some (uring d) (cancel_sqe i)) as (u & E & Hp & Hc).
  { unfold has_room, pending in Hr. cbn in Hr. lia. }
  assert (Hi : i ∈ flying (uring d)).
  { pose proof (Hm i) as Hi. rewrite slab_get_view in Ei. by rewrite Ei in Hi. }
  destruct (push_cancel _ _ _ Hi E) as (Hfu & Hau & Hcu).
  destruct (IH (mkDriver (ops d) u)) as (u' & E' & [Hp' Hc'] & Hf & Hcalls & Ha);
    [|cbn; by rewrite Hfu|].
  { unfold has_room, pending in *. cbn in *. rewrite Hp, Hc, length_app. cbn. lia. }
  cbn in *. exists u'. split; [intros fuel; cbn [cancel_push]; rewrite E; apply E'|].
  split_and!; [|congruence|congruence|].
  - split; [|by rewrite Hc']. rewrite Hp', Hp. cbn. by rewrite <- app_assoc.
  - rewrite Ha, Hau. unfold to_cancel. set_solver.
Qed.

Lemma slab_keys_size o a : related o a -> length (slab_keys (lifecycle o)) = size a.
Proof.
  intros [own H].
  rewrite <- (size_list_to_set (C := gset N) (slab_keys (lifecycle o)) (slab_keys_NoDup _ _)).
  rewrite <- size_dom. f_equal. apply set_eq. intros i.
  rewrite elem_of_list_to_set, slab_keys_view, elem_of_dom.
  destruct (related_cases _ _ _ i H) as [(-> & -> & _)|(? & ? & -> & -> & _)]; [done|].
  split; eauto.
Qed.
Lemma keys_bounded o : exists top, keys_from 0 top o.
Proof.
  assert (H : forall l : list N, exists top, forall i, i ∈ l -> i < top).
  { induction l as [|k l [top IH]]; [exists 0; set_solver|].
    exists (N.max top (k + 1)). intros i [->|Hi%IH]%elem_of_cons; lia. }
  destruct (H (slab_keys (lifecycle o))) as [top Ht]. exists top. intros i Hi.
  split; [lia|]. apply Ht. by apply slab_keys_view.
Qed.
Lemma drop_ops_empty o : slab_view (lifecycle o) = ∅ -> drop_ops o = Ret tt.
Proof.
  intros He. unfold drop_ops. destruct (slab_keys (lifecycle o)) as [|k l] eqn:E; [done|].
  assert (Hk : k ∈ slab_keys (lifecycle o)) by (rewrite E; left).
  apply slab_keys_view in Hk. rewrite He, lookup_empty in Hk. by destruct Hk.
Qed.

(** With a full queue the pass has to wait, and there an interruption is a
    panic, where [submit] would try again. *)
Lemma cancel_push_interrupted fuel i d u :
  (queue_capacity d <= length (pending d))%nat ->
  ring_submit_and_wait 1 (uring d) = (Err (OsError EINTR), u) ->
  cancel_push (S fuel) i d = Panic (PUnwrap drop_msg).
Proof. intros Hf Hw. cbn. unfold wait. by rewrite sq_push_none, Hw. Qed.

Lemma to_cancel_marked o fl i :
  marked o fl -> i ∈ to_cancel o (slab_keys (lifecycle o)) <-> i ∈ fl.
Proof.
  intros Hm. unfold to_cancel. rewrite list_elem_of_In, List.filter_In, <- list_elem_of_In.
  rewrite slab_keys_view, slab_get_view. pose proof (Hm i) as Hi.
  destruct (slab_view (lifecycle o) !! i) as [[]|]; split; try naive_solver.
Qed.

(** The three passes over a driver whose queue is empty. *)
Lemma passes_end d a :
  related (ops d) a -> awaited (flying (uring d)) a -> pending d = [] ->
  (size a <= queue_capacity d)%nat ->
  exists n, forall fuel, (n <= fuel)%nat -> exists o d1 d2 is_,
    mark_cycles (slab_keys (lifecycle (ops d))) (ops d) = Ret o /\
    cancel_ignored fuel (slab_keys (lifecycle o)) (mkDriver o (uring d)) = Ret d1 /\
    reap fuel 0 d1 = Ret (d2, []) /\
    slab_view (lifecycle (ops d2)) = ∅ /\ flying (uring d2) = ∅ /\
    NoDup is_ /\ (forall i, i ∈ is_ <-> i ∈ flying (uring d)) /\
    gave (cancel_sqe <$> is_) (uring d) (uring d2).
Proof.
  intros Hrel Haw Hp Hc. destruct (mark_cycles_all _ _ Hrel) as (o & Em & Ho).
  pose proof (marked_related _ _ _ Ho Haw) as Hm. destruct (keys_bounded o) as [top Hk].
  set (is_ := to_cancel o (slab_keys (lifecycle o))).
  assert (His : forall i, i ∈ is_ <-> i ∈ flying (uring d)) by (intros i; by apply to_cancel_marked).
  assert (Hroom : has_room (length (slab_keys (lifecycle o))) (mkDriver o (uring d))).
  { unfold has_room, pending, queue_capacity in *. cbn.
    rewrite (slab_keys_size _ _ Ho), Hp, map_size_fmap. cbn. done. }
  destruct (cancel_ignored_room (slab_keys (lifecycle o)) _ Hroom Hm) as (u & Ec & [Hpu _] & Hf & Hcu & Ha).
  cbn in Hf, Hcu, Ha, Hpu. fold is_ in Ha, Hpu.
  exists (S (rounds u + N.to_nat top)). intros fuel Hle.
  destruct (reap_ends fuel 0 top (mkDriver o u)) as (d2 & Ereap & He & Hf2 & Hg);
    [cbn; by rewrite Hf| |done|cbn; lia|].
  { cbn. rewrite Hf, Ha. intros i Hi%His. set_solver. }
  exists o, (mkDriver o u), d2, is_. split_and!; [done| |done..| |done|].
  - destruct fuel; [lia|]. apply Ec.
  - apply NoDup_ListNoDup, List.NoDup_filter, NoDup_ListNoDup, slab_keys_NoDup.
  - rewrite <- (app_nil_r (_ <$> is_)). apply (gave_trans _ [] _ u); [|exact Hg].
    exists []. rewrite Hcu, app_nil_r. cbn. by rewrite Hpu.
Qed.

(** C9. Dropping the driver ends. Let the table have no more operations than
    the submission queue has entries, and let the kernel end an operation
    only when it is asked to cancel it. The destructor returns, up to the
    capacity panic of a collection: what was queued goes to the kernel first,
    in a call of its own, then one cancellation for each operation still in
    flight, each once, and nothing else; the passes wait for all of them, no
    index is missed, no [expect] or assertion fails, and when [Ops] is
    dropped the table is empty and the kernel works on nothing. Submissions
    that are interrupted, or refused while completions are unread, are
    repeated. With an empty queue all operations in flight are cancelled and
    nobody is woken. *)
Theorem drop_driver_ends (d : Driver slab ring) (a : aops) :
  related (ops d) a -> awaited (flying (uring d)) a -> (size a <= queue_capacity d)%nat ->
  exists fuel0, forall fuel, (fuel0 <= fuel)%nat ->
    safe (fun '(d', woken) =>
      drop_driver fuel d = Ret woken /\
      slab_view (lifecycle (ops d')) = ∅ /\ flying (uring d') = ∅ /\
      (exists later is_, NoDup is_ /\ (forall i, i ∈ is_ -> i ∈ flying (uring d)) /\
         calls (uring d') =
           calls (uring d) ++ match pending d with [] => [] | es => [es] end ++ later /\
         concat later ++ pending d' = cancel_sqe <$> is_ /\
         (pending d = [] -> forall i, i ∈ flying (uring d) -> i ∈ is_)) /\
      (pending d = [] -> woken = []))
      (drop_body fuel d).
Proof.
  intros Hrel Haw Hc.
  destruct (flush_loop_ends (S (S (patience (uring d)))) d a) as (x & Hx & Ex); [done|lia|].
  destruct (safe_cases _ _ Hx) as [([d1 w1] & -> & Hd1)| ->].
  2:{ exists (S (S (patience (uring d)))). intros fuel Hle. unfold drop_body. by rewrite Ex. }
  destruct Hd1 as (Hp1 & Hc1 & Hcalls1 & Hf1 & Hidle & a1 & [Hrel1 Haw1] & Hdom).
  destruct (passes_end d1 a1) as (n & H2); [done|done|done| |].
  { rewrite Hc1. rewrite <- !size_dom in *. apply subseteq_size in Hdom. lia. }
  exists (S (S (patience (uring d))) + n)%nat. intros fuel Hle. unfold drop_driver, drop_body.
  rewrite Ex by lia. cbn [mbind outcome_bind].
  destruct (H2 fuel) as (o & d1' & d2 & is_ & Em & Ec & Ereap & He & Hf & Hn & His & Hg); [lia|].
  rewrite Em. cbn [mbind outcome_bind]. rewrite Ec. cbn [mbind outcome_bind]. rewrite Ereap.
  cbn [mbind outcome_bind safe]. rewrite (drop_ops_empty _ He), app_nil_r.
  cbn [mbind outcome_bind].
  destruct Hg as (later & Hl & Hlp). split_and!; [done|done|done| |naive_solver].
  exists later, is_. split_and!; [done| | | |].
  - intros i Hi%His. set_solver.
  - by rewrite Hl, Hcalls1, app_assoc.
  - unfold pending in *. by rewrite Hlp, Hp1.
  - intros Hp0 i Hi. destruct (Hidle Hp0) as [-> _]. by apply His.
Qed.

(** The destructor lets go of the data of cancelled operations too early.
    The marking pass replaces the box of an operation whose handle was
    dropped before, and which the kernel still works on, by an empty one:
    the buffer is freed before the operation is cancelled, let alone ended. *)
Theorem drop_forgets_data (o : Ops slab) (a : aops) (i : N) (b : BoxAny) :
  related o a -> get_mut i o = Some (Ignored b) ->
  exists o', mark_cycles (slab_keys (lifecycle o)) o = Ret o' /\
    get_mut i o' = Some (Ignored (box_any unit tt)).
Proof.
  intros Hrel Hi. destruct (mark_cycles_all _ _ Hrel) as (o' & E & Ho'). exists o'. split; [done|].
  destruct Hrel as [own H], Ho' as [own' H']. unfold get_mut in *. rewrite slab_get_view in *.
  destruct (related_cases _ _ _ i H) as [(Hl & _)|(lc & al & Hl & Ha & Hr)]; [by rewrite Hl in Hi|].
  rewrite Hl in Hi. injection Hi as ->. destruct al; try done.
  destruct (related_cases _ _ _ i H') as [(_ & Ha' & _)|(lc' & al' & Hl' & Ha' & Hr')];
    rewrite lookup_fmap, Ha in Ha'; [done|]. injection Ha' as <-.
  cbn in Hr'. destruct lc'; try done. by destruct Hr' as [-> _].
Qed.
End reap.

(** * A kernel that ends nothing it is not asked to cancel *)
Module Calm.
(** [cr_signals] many submissions are interrupted before one succeeds. *)
Record calm_ring : Type := CalmRing {
  cr_pending : list sqe; cr_capacity : nat; cr_flying : gset N; cr_calls : list (list sqe);
  cr_signals : nat; cr_waited : bool;
}.
Definition calm_flying (r : calm_ring) : gset N := filter (fun i => i < u64_max) (cr_flying r).
Definition cancelled (es : list sqe) : gset N :=
  list_to_set (omap (fun e => match sqe_op e with OpAsyncCancel i => Some i | _ => None end) es).
Lemma cancelled_app es es' : cancelled (es ++ es') = cancelled es ∪ cancelled es'.
Proof. unfold cancelled. by rewrite omap_app, list_to_set_app_L. Qed.
(** What ends when completions are posted. *)
Definition calm_ending (r : calm_ring) : gset N :=
  calm_flying r ∩ cancelled (concat (cr_calls r)).

Definition calm_push_multiple (es : list sqe) (r : calm_ring) : option calm_ring :=
  if Nat.leb (length (cr_pending r) + length es) (cr_capacity r)
  then Some (CalmRing (cr_pending r ++ es) (cr_capacity r) (cr_flying r) (cr_calls r)
               (cr_signals r) (cr_waited r))
  else None.
Definition calm_take (wait : bool) (r : calm_ring) : io_result N * calm_ring :=
  (Ok (N.of_nat (length (cr_pending r))),
   CalmRing [] (cr_capacity r) (cr_flying r) (cr_calls r ++ [cr_pending r])
     (cr_signals r) (wait || cr_waited r)).
Definition calm_submit (r : calm_ring) : io_result N * calm_ring :=
  match cr_signals r with
  | O => calm_take false r
  | S n => (Err (OsError EINTR), CalmRing (cr_pending r) (cr_capacity r) (cr_flying r)
             (cr_calls r) n (cr_waited r))
  end.
#[export] Instance calm_uring : Uring calm_ring := {
  sq_push := fun e => calm_push_multiple [e];
  sq_push_multiple := calm_push_multiple;
  sq_is_empty := fun r => match cr_pending r with [] => true | _ => false end;
  sq_sync := fun r => r;
  ring_submit := calm_submit;
  ring_submit_and_wait := fun _ => calm_take true;
  cq_take := fun r =>
    if cr_waited r
    then ((fun i => Cqe i 0 0) <$> elements (calm_ending r),
          CalmRing (cr_pending r) (cr_capacity r) (cr_flying r ∖ calm_ending r) (cr_calls r)
            (cr_signals r) false)
    else ([], r);
}.
#[export] Instance calm_uring_laws : UringLaws calm_ring.
Proof.
  refine {| sq_pending := cr_pending; sq_capacity := cr_capacity |}; intros; cbn;
    unfold calm_push_multiple, calm_submit.
  - rewrite (proj2 (Nat.leb_le _ _)) by (cbn; lia). by eexists.
  - rewrite (proj2 (Nat.leb_gt _ _)); [done|cbn; lia].
  - by rewrite (proj2 (Nat.leb_gt _ _)).
  - rewrite (proj2 (Nat.leb_le _ _)) by done. by eexists.
  - by destruct (cr_pending r).
  - done.
  - done.
  - by destruct (cr_signals r).
  - done.
  - by destruct (cr_waited r).
  - by destruct (cr_waited r).
Defined.

Lemma delivered_all (l : list N) (fl : gset N) :
  NoDup l -> (forall i, i ∈ l -> i ∈ fl /\ i < u64_max) ->
  delivered fl ((fun i => Cqe i 0 0) <$> l) (fl ∖ list_to_set l).
Proof.
  revert fl. induction l as [|i l IH]; intros fl Hn Hl; cbn; [set_solver|].
  apply NoDup_cons in Hn as [Hi Hn]. destruct (Hl i) as [Hfl Hlt]; [left|].
  destruct (N.eqb_spec i u64_max); [lia|].
  assert (Hs : as_usize i = i).
  { apply wrap_small. unfold u64_max in *. change (2 ^ 64) with 18446744073709551616. lia. }
  rewrite Hs. split; [done|].
  replace (fl ∖ ({[i]} ∪ list_to_set l)) with ((fl ∖ {[i]}) ∖ list_to_set l : gset N) by set_solver.
  apply IH; [done|]. intros j Hj. destruct (Hl j) as [? ?]; [by right|]. set_solver.
Qed.
Definition calm_asked (r : calm_ring) : gset N :=
  cancelled (concat (cr_calls r) ++ cr_pending r).
Lemma cancel_sqe_asked i : i < u64_max -> cancelled [cancel_sqe i] = {[i]}.
Proof.
  intros Hi. unfold cancelled, cancel_sqe. cbn [omap sqe_op set_user_data build list_omap].
  rewrite as_u64_small by (unfold u64_max, usize_max in *; lia). apply union_empty_r_L.
Qed.
Lemma calm_taken r p c fl cs n w :
  fl = cr_flying r ∖ calm_ending r ->
  calm_flying (CalmRing p c fl cs n w) = calm_flying r ∖ calm_ending r.
Proof. intros ->. unfold calm_flying. cbn. apply set_eq. intros i. set_solver. Qed.
#[export] Instance calm_finishing : Finishing calm_ring.
Proof.
  refine {| flying := calm_flying; asked := calm_asked; calls := cr_calls; patience := cr_signals;
            rounds := fun r => if decide (calm_flying r = ∅) then 0%nat else 1%nat |}.
  - intros i r r' Hi. unfold sq_push, calm_uring, calm_push_multiple. destruct (Nat.leb _ _); [|done].
    intros [= <-]. split_and!; [done| |done]. unfold calm_asked. cbn [cr_calls cr_pending].
    assert (Hc : cancelled [cancel_sqe i] = {[i]}).
    { apply cancel_sqe_asked. unfold calm_flying in Hi. set_solver. }
    rewrite app_assoc, cancelled_app, Hc. set_solver.
  - done.
  - intros r. cbn. unfold calm_submit. destruct (cr_signals r) as [|n] eqn:E; cbn.
    + by split_and!.
    + split_and!; [done..|by right|lia].
  - intros r. cbn. split_and!; [done| |done..]. unfold calm_asked. cbn.
    by rewrite concat_app, app_nil_r, cancelled_app, concat_cons, app_nil_r, <- cancelled_app.
  - intros r. cbn. destruct (cr_waited r); [|by split_and!; [constructor|..]; set_solver].
    split_and!; [| |done..|unfold calm_asked; set_solver].
    + apply Forall_fmap, Forall_forall. intros i _. unfold cqe_ok. cbn. lia.
    + rewrite (calm_taken r) by done. rewrite <- (list_to_set_elements_L (calm_ending r)) at 2.
      apply delivered_all; [apply NoDup_elements|]. intros i Hi%elem_of_elements.
      unfold calm_ending, calm_flying in *. set_solver.
  - intros r Hne Ha. cbn.
    rewrite (calm_taken (CalmRing [] (cr_capacity r) (cr_flying r) (cr_calls r ++ [cr_pending r])
                           (cr_signals r) true)) by done.
    rewrite decide_True, decide_False; [lia|done|].
    unfold calm_ending, calm_asked in *. cbn. rewrite concat_app. cbn. rewrite app_nil_r.
    unfold calm_flying in *. cbn. set_solver.
Defined.

(** Operation 0 was dropped while in flight, operation 1 has completed, and
    the entry of operation 2 is still in the queue; the first submission is
    interrupted by a signal. *)
#[export] Instance profile : Profile := debug_profile.
Definition table : Ops (gmap N) :=
  mkOps (slab := gmap N)
    ({[0 := Ignored (box_any N 5); 1 := Completed zeroed_cqe; 2 := Submitted]} : gmap N Lifecycle) ∅.
Definition abstract_table : aops :=
  {[0 := AIgnored (box_any N 5); 1 := ACompleted zeroed_cqe; 2 := ASubmitted]}.
Lemma table_related : related table abstract_table.
Proof.
  exists (fun _ => []). split.
  - intros i. cbn. unfold abstract_table.
    destruct (decide (i = 0)) as [->|H0]; [by cbn|].
    destruct (decide (i = 1)) as [->|H1]; [by cbn|].
    destruct (decide (i = 2)) as [->|H2]; [by cbn|].
    by rewrite !lookup_insert_ne, !lookup_singleton_ne by done.
  - intros i j k Hk. by apply elem_of_nil in Hk.
  - intros k. cbn. rewrite lookup_empty. by intros [? ?].
Qed.
Definition queued : sqe := set_user_data 2 (build Nop).
Definition start : Driver (gmap N) calm_ring :=
  mkDriver table (CalmRing [queued] 4 {[0; 2]} [] 1 false).
Lemma start_awaited : awaited (flying (uring start)) abstract_table.
Proof.
  intros i. cbn. unfold calm_flying, abstract_table. cbn. rewrite elem_of_filter. split.
  - rewrite elem_of_union, !elem_of_singleton. intros [_ [->| ->]]; by eexists.
  - intros (al & Hi & Hu).
    destruct (decide (i = 0)) as [->|H0]; [split; [done|set_solver]|].
    destruct (decide (i = 1)) as [->|H1]; [cbn in Hi; by injection Hi as <-|].
    destruct (decide (i = 2)) as [->|H2]; [split; [done|set_solver]|].
    by rewrite !lookup_insert_ne, lookup_singleton_ne in Hi by done.
Qed.

(** The calls that the destructor makes here: the entry, then two
    cancellations. *)
Example drop_calls :
  ('(d, woken) ← drop_body 20 start;
   Ret (length <$> calls (uring d), calls (uring d) !! 0%nat, woken, elements (flying (uring d)))) =
  Ret ([1; 2]%nat, Some [queued], [], []).
Proof. vm_compute. reflexivity. Qed.

Lemma drop_driver_ends_witness :
  exists fuel0, forall fuel, (fuel0 <= fuel)%nat ->
    safe (fun '(d', woken) =>
      drop_driver fuel start = Ret woken /\
      slab_view (lifecycle (ops d')) = ∅ /\ flying (uring d') = ∅ /\
      (exists later is_, NoDup is_ /\ (forall i, i ∈ is_ -> i ∈ flying (uring start)) /\
         calls (uring d') =
           calls (uring start) ++ match pending start with [] => [] | es => [es] end ++ later /\
         concat later ++ pending d' = cancel_sqe <$> is_ /\
         (pending start = [] -> forall i, i ∈ flying (uring start) -> i ∈ is_)) /\
      (pending start = [] -> woken = []))
      (drop_body fuel start).
Proof.
  apply (drop_driver_ends start abstract_table table_related start_awaited). vm_compute. lia.
Defined.

Lemma drop_forgets_data_witness :
  exists o', mark_cycles (slab_keys (lifecycle table)) table = Ret o' /\
    get_mut 0 o' = Some (Ignored (box_any unit tt)).
Proof.
  apply (drop_forgets_data table abstract_table 0 (box_any N 5) table_related). reflexivity.
Defined.
End Calm.
