(* ===== verification/Handle.v ===== *)
(** [src/src/runtime/driver/handle.rs], [src/src/runtime/context.rs] and the
    futures of [src/src/runtime/driver/op/mod.rs] that reach the driver.

    The driver lives in an [Rc<RefCell<Driver>>]. [DriverRc] is that cell: its
    strong count and whether it is mutably borrowed. A [Handle] is a strong
    reference, a [WeakHandle] can be upgraded while the count is positive;
    there is one driver, so neither carries more information. The world of a
    thread is the cell and the thread-local [RuntimeContext]. *)
From S2P Require Import Prelude Slab IoUring SlabList Op Driver.

Inductive Handle : Type := strong_handle.
Inductive WeakHandle : Type := weak_handle.

Record DriverRc (D : Type) : Type := mkRc { strong_count : nat; borrowed : bool; value : D }.
Arguments mkRc {D} strong_count borrowed value.
Arguments strong_count {D} _.
Arguments borrowed {D} _.
Arguments value {D} _.

(** * [RuntimeContext] *)
Record RuntimeContext : Type := mkContext { ctx_driver : option Handle }.

Definition context_new : RuntimeContext := mkContext None.
Definition set_handle (h : Handle) (cx : RuntimeContext) : outcome RuntimeContext :=
  _ ← assert (match ctx_driver cx with None => true | Some _ => false end)
        "Attempted to initialize the driver twice";
  Ret (mkContext (Some h)).
Definition unset_driver (cx : RuntimeContext) : outcome RuntimeContext :=
  _ ← assert (match ctx_driver cx with None => false | Some _ => true end)
        "Attempted to clear nonexistent driver";
  Ret (mkContext None).
Definition is_set (cx : RuntimeContext) : bool :=
  match ctx_driver cx with Some _ => true | None => false end.
Definition context_handle (cx : RuntimeContext) : option Handle := ctx_driver cx.
Definition context_weak (cx : RuntimeContext) : option WeakHandle :=
  (fun _ => weak_handle) <$> ctx_driver cx.

Section handle.
Context {Prof : Profile} {Cq : Cqueue} {Er : Errno} `{!SlabOps slab} `{!Uring ring}.
(** Bound of the loops that wait for the kernel. *)
Context (fuel : nat).
Abbreviation driver := (Driver slab ring).
Abbreviation driver_rc := (DriverRc driver).
Implicit Types rc : driver_rc.

Definition upgrade (w : WeakHandle) rc : option Handle :=
  if Nat.eqb (strong_count rc) 0 then None else Some strong_handle.

(** [self.inner.borrow_mut().method(..)]: the borrow ends with the call. *)
Definition with_borrow_mut {A} (f : driver -> outcome (A * driver)) rc :
  outcome (A * driver_rc) :=
  if borrowed rc then Panic PBorrow
  else
    '(x, d) ← f (value rc);
    Ret (x, mkRc (strong_count rc) false d).

(** The methods of [Handle]. The answer of a call that can wake tasks
    carries the wakers it woke. *)
Definition h_dispatch_completions (h : Handle) : driver_rc -> outcome (list Waker * driver_rc) :=
  with_borrow_mut (fun d => '(d, woken) ← dispatch_completions d; Ret (woken, d)).
Definition h_flush (h : Handle) : driver_rc -> outcome (io_result N * driver_rc) :=
  with_borrow_mut (fun d =>
    let '(r, u) := ring_submit (uring d) in Ret (r, mkDriver (ops d) u)).
Definition h_submit_op_2 (h : Handle) (s : sqe) :
  driver_rc -> outcome (N * list Waker * driver_rc) :=
  with_borrow_mut (fun d => '(i, d, woken) ← submit_op_2 fuel s d; Ret (i, woken, d)).
Definition h_submit_ops (h : Handle) (sqes : list sqe) :
  driver_rc -> outcome (list N * list Waker * driver_rc) :=
  with_borrow_mut (fun d => '(is_, d, woken) ← submit_ops fuel sqes d; Ret (is_, woken, d)).
Definition h_poll_op `{!Completable T Output} (h : Handle) (op : Op T) (cx : Waker) :
  driver_rc -> outcome (Poll Output * Op T * driver_rc) :=
  with_borrow_mut (fun d =>
    '(p, op, o) ← poll_op op cx (ops d); Ret (p, op, mkDriver o (uring d))).
Definition h_poll_op_2 (h : Handle) (i : N) (cx : Waker) :
  driver_rc -> outcome (Poll cqe * driver_rc) :=
  with_borrow_mut (fun d =>
    '(p, o) ← poll_op_2 i cx (ops d); Ret (p, mkDriver o (uring d))).
Definition h_poll_multishot_op `{!Completable T Output} `{!Updateable T Output}
    (h : Handle) (op : Op T) (cx : Waker) :
  driver_rc -> outcome (Poll Output * Op T * list Waker * driver_rc) :=
  with_borrow_mut (fun d =>
    '(p, op, o, woken) ← poll_multishot_op op cx (ops d);
    Ret (p, op, woken, mkDriver o (uring d))).
Definition h_cancel_op (h : Handle) (i : N) :
  driver_rc -> outcome (io_result unit * list Waker * driver_rc) :=
  with_borrow_mut (fun d => '(r, d, woken) ← cancel_op fuel i d; Ret (r, woken, d)).
Definition h_remove_op {T} (h : Handle) (op : Op T) : driver_rc -> outcome (Op T * driver_rc) :=
  with_borrow_mut (fun d =>
    '(op, o) ← remove_op op (ops d); Ret (op, mkDriver o (uring d))).
Definition h_remove_op_2 {T} (h : Handle) (i : N) (data : T) :
  driver_rc -> outcome (unit * driver_rc) :=
  with_borrow_mut (fun d =>
    o ← remove_op_2 i data (ops d); Ret (tt, mkDriver o (uring d))).

(** * [Op] as a future *)

Definition no_context : string := "Not in runtime context".

(** [impl Drop for Op]. *)
Definition op_drop {T} (op : Op T) rc : outcome driver_rc :=
  h ← unwrap no_context (upgrade weak_handle rc);
  '(_, rc) ← h_remove_op h op rc;
  Ret rc.

(** [impl Future for Op<T, SingleCQE>] and [.. for Op<T, MultiCQEFuture>]. *)
Definition op_poll `{!Completable T Output} (op : Op T) (cx : Waker) rc :
  outcome (Poll Output * Op T * driver_rc) :=
  h ← unwrap no_context (upgrade weak_handle rc);
  h_poll_op h op cx rc.
Definition op_poll_multi `{!Completable T Output} `{!Updateable T Output}
    (op : Op T) (cx : Waker) rc : outcome (Poll Output * Op T * list Waker * driver_rc) :=
  h ← unwrap no_context (upgrade weak_handle rc);
  h_poll_multishot_op h op cx rc.

(** [Op::<T, MultiCQEFuture>::cancel]. *)
Definition op_cancel {T} (op : Op T) rc :
  outcome (io_result unit * list Waker * driver_rc) :=
  if is_finished op then Ret (Ok tt, [], rc)
  else
    h ← unwrap no_context (upgrade weak_handle rc);
    h_cancel_op h (op_index op) rc.

(** [Handle::submit_op]. An early return of [Driver::submit_op] drops the
    new [Op] while [borrow_mut] is still held. *)
Definition h_submit_op {T} (h : Handle) (data : T) (f : T -> outcome (sqe * T)) rc :
  outcome (io_result (Op T) * list Waker * driver_rc) :=
  with_borrow_mut (fun d =>
    '(r, d, woken) ←
      submit_op fuel data f
        (fun op d => rc' ← op_drop op (mkRc (strong_count rc) true d); Ret (value rc')) d;
    Ret (r, woken, d)) rc.

(** * Oneshot operations *)
Record World : Type := mkWorld { w_rc : driver_rc; w_ctx : RuntimeContext }.
Implicit Types w : World.

Record UnsubmittedOneshot (D T : Type) : Type := mkUnsubmitted {
  u_stable_data : D;
  u_post_op : T;
  u_sqe : sqe;
}.
Record InFlightOneshotInner (D T : Type) : Type := mkInner {
  in_index : N;
  in_stable_data : D;
  in_post_op : T;
}.
(** [InFlightOneshot]: [None] once the operation has completed. *)
Definition InFlightOneshot (D T : Type) : Type := option (InFlightOneshotInner D T).
Arguments mkUnsubmitted {D T} u_stable_data u_post_op u_sqe.
Arguments u_stable_data {D T} _.
Arguments u_post_op {D T} _.
Arguments u_sqe {D T} _.
Arguments mkInner {D T} in_index in_stable_data in_post_op.
Arguments in_index {D T} _.
Arguments in_stable_data {D T} _.
Arguments in_post_op {D T} _.

Definition set_flags {Sf : SqueueFlags} {D T} (f : N) (u : UnsubmittedOneshot D T) :
  UnsubmittedOneshot D T :=
  mkUnsubmitted (u_stable_data u) (u_post_op u) (set_sqe_flags f (u_sqe u)).

Definition not_in_context : string := "Could not submit op; not in runtime context".

(** [UnsubmittedOneshot::inflight]. *)
Definition inflight {D T} (u : UnsubmittedOneshot D T) (i : N) w :
  outcome (InFlightOneshot D T) :=
  _ ← unwrap not_in_context (context_handle (w_ctx w));
  Ret (Some (mkInner i (u_stable_data u) (u_post_op u))).

(** [trait Submit]. *)
Class Submit (A Out : Type) : Type :=
  submit_it : A -> World -> outcome (Out * list Waker * World).

#[export] Instance submit_oneshot {D T} : Submit (UnsubmittedOneshot D T) (InFlightOneshot D T) :=
  fun u w =>
    h ← unwrap not_in_context (context_handle (w_ctx w));
    '(i, woken, rc) ← h_submit_op_2 h (u_sqe u) (w_rc w);
    Ret (Some (mkInner i (u_stable_data u) (u_post_op u)), woken, mkWorld rc (w_ctx w)).

(** [Future::poll] for futures that use the driver. *)
Class Future (F Out : Type) : Type :=
  poll_it : F -> Waker -> World -> outcome (Poll Out * F * World).

#[export] Instance poll_oneshot `{!OneshotOutputTransform T D Output} :
    Future (InFlightOneshot D T) Output :=
  fun this cx w =>
    inner ← unwrap "Cannot poll already-completed operation" this;
    h ← unwrap "Failed to poll op: driver no longer exists" (upgrade weak_handle (w_rc w));
    '(p, rc) ← h_poll_op_2 h (in_index inner) cx (w_rc w);
    let w := mkWorld rc (w_ctx w) in
    match p with
    | Pending => Ret (Pending, this, w)
    | Ready c =>
        out ← transform_oneshot_output (in_post_op inner) (in_stable_data inner) c;
        Ret (Ready out, None, w)
    end.

(** [impl Drop for InFlightOneshot]. *)
Definition drop_oneshot {D T} (this : InFlightOneshot D T) w : outcome World :=
  match this with
  | None => Ret w
  | Some inner =>
      match upgrade weak_handle (w_rc w) with
      | None => Ret w
      | Some h =>
          '(_, rc) ← h_remove_op_2 h (in_index inner) (in_stable_data inner) (w_rc w);
          Ret (mkWorld rc (w_ctx w))
      end
  end.
End handle.
