(* ===== verification/Link.v ===== *)
(** [src/src/runtime/driver/op/link.rs] and the two [link] methods of
    [UnsubmittedOneshot]: chains of linked submissions, and what they put on
    the submission queue. *)
From S2P Require Import Prelude Slab IoUring SlabList Op Driver Handle.

Record Link (D N : Type) : Type := mkLink { l_data : D; l_next : N }.
Arguments mkLink {D N} l_data l_next.
Arguments l_data {D N} _.
Arguments l_next {D N} _.

Record LinkedInFlightOneshot (D N : Type) : Type := mkLinked {
  li_data : D;
  li_next : option N;
}.
Arguments mkLinked {D N} li_data li_next.
Arguments li_data {D N} _.
Arguments li_next {D N} _.

Arguments mkUnsubmitted {D T} u_stable_data u_post_op u_sqe.
Arguments u_stable_data {D T} _.
Arguments u_post_op {D T} _.
Arguments u_sqe {D T} _.
Arguments mkInner {D T} in_index in_stable_data in_post_op.
Arguments in_index {D T} _.
Arguments in_stable_data {D T} _.
Arguments in_post_op {D T} _.
Arguments mkWorld {slab ring} w_rc w_ctx.
Arguments w_rc {slab ring} _.
Arguments w_ctx {slab ring} _.

Section building.
Context {Sf : SqueueFlags}.

(** [UnsubmittedOneshot::{link, hard_link}]. *)
Definition oneshot_link {D T D2 T2} (self : UnsubmittedOneshot D T)
    (other : UnsubmittedOneshot D2 T2) :
  Link (UnsubmittedOneshot D T) (UnsubmittedOneshot D2 T2) :=
  mkLink (set_flags IO_LINK self) other.
Definition oneshot_hard_link {D T D2 T2} (self : UnsubmittedOneshot D T)
    (other : UnsubmittedOneshot D2 T2) :
  Link (UnsubmittedOneshot D T) (UnsubmittedOneshot D2 T2) :=
  mkLink (set_flags IO_HARDLINK self) other.

(** [Link::{link, hard_link}]. *)
Definition link_link {D T N D2 T2} (self : Link (UnsubmittedOneshot D T) N)
    (other : UnsubmittedOneshot D2 T2) :
  Link (UnsubmittedOneshot D T) (Link N (UnsubmittedOneshot D2 T2)) :=
  mkLink (set_flags IO_LINK (l_data self)) (mkLink (l_next self) other).
Definition link_hard_link {D T N D2 T2} (self : Link (UnsubmittedOneshot D T) N)
    (other : UnsubmittedOneshot D2 T2) :
  Link (UnsubmittedOneshot D T) (Link N (UnsubmittedOneshot D2 T2)) :=
  mkLink (set_flags IO_HARDLINK (l_data self)) (mkLink (l_next self) other).
End building.

Section link.
Context {Prof : Profile} {Cq : Cqueue} {Er : Errno} `{!SlabOps slab} `{!Uring ring}.
Implicit Types w : World (slab := slab) (ring := ring).

(** [impl Submit for Link]: the head first, then the rest. *)
#[export] Instance submit_link {D N DO NO} `{!Submit (slab := slab) (ring := ring) D DO}
    `{!Submit (slab := slab) (ring := ring) N NO} :
    Submit (Link D N) (LinkedInFlightOneshot DO NO) :=
  fun self w =>
    '(data, woken, w) ← submit_it (l_data self) w;
    '(next, woken', w) ← submit_it (l_next self) w;
    Ret (mkLinked data (Some next), woken ++ woken', w).

(** [impl Future for LinkedInFlightOneshot]: the output of the head, and
    the future of the rest. *)
#[export] Instance poll_linked {D N Output} `{!Future (slab := slab) (ring := ring) D Output} :
    Future (LinkedInFlightOneshot D N) (Output * N) :=
  fun this cx w =>
    '(p, data, w) ← poll_it (li_data this) cx w;
    match p with
    | Pending => Ret (Pending, mkLinked data (li_next this), w)
    | Ready output =>
        next ← unwrap "called `Option::unwrap()` on a `None` value" (li_next this);
        Ret (Ready (output, next), mkLinked data None, w)
    end.
End link.
