(* ===== verification/Runtime.v ===== *)
(** [src/src/runtime/mod.rs]: [Runtime::block_on] and the thread-local context.

    What runs on the thread is a program that may use the driver, panic,
    catch panics and enter a runtime; the tokio runtime underneath only
    interleaves such programs. A panic unwinds, which runs the guard of
    [block_on]; a panic in the guard during an unwinding aborts. *)
From S2P Require Import Prelude Slab IoUring Op Driver Handle.

Inductive exec (A : Type) : Type :=
  | Returned (a : A)
  | Unwound (p : panic)
  | Aborted.
Arguments Returned {A} a.
Arguments Unwound {A} p.
Arguments Aborted {A}.

(** Code of the thread, by its effect on the context. *)
Definition code (A : Type) : Type := RuntimeContext -> exec A * RuntimeContext.

(** A call on the context that may panic. *)
Definition call (o : outcome RuntimeContext) (cx : RuntimeContext) : exec unit * RuntimeContext :=
  match o with
  | Ret cx' => (Returned tt, cx')
  | Panic p => (Unwound p, cx)
  | Undefined _ | NoFuel => (Aborted, cx)
  end.

(** [impl Drop for ContextGuard], when the block that it guards ends in [r]. *)
Definition drop_guard {A} (r : exec A) (cx : RuntimeContext) : exec A * RuntimeContext :=
  match r with
  | Aborted => (Aborted, cx)
  | _ =>
      match call (unset_driver cx) cx with
      | (Returned _, cx) => (r, cx)
      | (Unwound p, cx) => (match r with Returned _ => Unwound p | _ => Aborted end, cx)
      | (Aborted, cx) => (Aborted, cx)
      end
  end.

(** [Runtime::block_on]. *)
Definition block_on {A} (driver : Handle) (future : code A) : code A := fun cx =>
  match call (set_handle driver cx) cx with
  | (Returned _, cx) => let '(r, cx) := future cx in drop_guard r cx
  | (Unwound p, cx) => (Unwound p, cx)
  | (Aborted, cx) => (Aborted, cx)
  end.

(** The programs of a thread: [Use] is any call that looks the handle up with
    [expect("Not in a runtime context")], [Catch] is a task or a
    [catch_unwind], whose panics stay inside. *)
Inductive program : Type :=
  | Done
  | Fail (p : panic)
  | Use
  | Then (a b : program)
  | Catch (a : program)
  | BlockOn (driver : Handle) (a : program).

Definition not_in_a_runtime : panic := PUnwrap "Not in a runtime context".

Fixpoint run (p : program) : code unit := fun cx =>
  match p with
  | Done => (Returned tt, cx)
  | Fail q => (Unwound q, cx)
  | Use => match context_handle cx with
           | Some _ => (Returned tt, cx)
           | None => (Unwound not_in_a_runtime, cx)
           end
  | Then a b => match run a cx with
                | (Returned _, cx) => run b cx
                | r => r
                end
  | Catch a => match run a cx with
               | (Unwound _, cx) => (Returned tt, cx)
               | r => r
               end
  | BlockOn h a => block_on h (run a) cx
  end.

(** A program whose own code does not panic, uses of the context aside. *)
Fixpoint panic_free (p : program) : bool :=
  match p with
  | Done | Use => true
  | Fail _ => false
  | Then a b => panic_free a && panic_free b
  | Catch _ => true
  | BlockOn _ _ => false
  end.

Lemma block_on_set {A} h (f : code A) cx :
  is_set cx = true ->
  block_on h f cx = (Unwound (PAssert "Attempted to initialize the driver twice"), cx).
Proof. unfold block_on, set_handle, is_set. by destruct (ctx_driver cx). Qed.
Lemma block_on_unset {A} h (f : code A) cx r cx' :
  is_set cx = false -> f (mkContext (Some h)) = (r, cx') -> r <> Aborted ->
  cx' = mkContext (Some h) -> block_on h f cx = (r, mkContext None).
Proof.
  unfold block_on, set_handle, is_set. destruct (ctx_driver cx); [done|]. intros _ E Hr ->.
  cbn. rewrite E. unfold drop_guard. by destruct r.
Qed.

Lemma run_balanced p cx : (run p cx).1 <> Aborted /\ (run p cx).2 = cx.
Proof.
  revert cx. induction p as [|q| |a IHa b IHb|a IHa|h a IHa]; intros cx; cbn; try done.
  - by destruct (context_handle cx).
  - destruct (IHa cx) as [H1 H2]. destruct (run a cx) as [[[]|?|] cx1]; cbn in *; subst; [apply IHb|done|done].
  - destruct (IHa cx) as [H1 H2]. by destruct (run a cx) as [[[]|?|] cx1].
  - destruct (is_set cx) eqn:Es; [by rewrite block_on_set|].
    destruct (IHa (mkContext (Some h))) as [H1 H2].
    destruct (run a (mkContext (Some h))) as [r cx1] eqn:E; cbn in *.
    rewrite (block_on_unset _ _ _ r cx1) by done.
    destruct cx as [[x|]]; [done|]. by cbn.
Qed.

(** C25. The context is balanced. Whatever a thread does, panics and nested
    runtimes included, it does not abort and leaves the context as it was: a
    runtime is installed during [block_on] and only then, a nested
    [block_on] panics and leaves the outer runtime in place, and after a
    [block_on] that panicked another one can be entered. *)
Theorem context_balanced (p : program) (h : Handle) (cx : RuntimeContext) :
  (run p cx).2 = cx /\ (run p cx).1 <> Aborted /\
  (is_set cx = false ->
     run (BlockOn h p) cx = ((run p (mkContext (Some h))).1, cx)) /\
  (is_set cx = true ->
     run (BlockOn h p) cx = (Unwound (PAssert "Attempted to initialize the driver twice"), cx)).
Proof.
  destruct (run_balanced p cx) as [H1 H2]. split_and!; [done..| |]; intros Hs.
  - cbn. destruct (run_balanced p (mkContext (Some h))) as [H3 H4].
    destruct (run p (mkContext (Some h))) as [r cx1] eqn:E; cbn in *.
    rewrite (block_on_unset _ _ _ r cx1) by done. by destruct cx as [[x|]].
  - by apply block_on_set.
Qed.

Lemma panic_free_returns p h :
  panic_free p = true -> run p (mkContext (Some h)) = (Returned tt, mkContext (Some h)).
Proof.
  induction p as [|q| |a IHa b IHb|a _|h' a _]; cbn; try done.
  - intros [Ha Hb]%andb_true_iff. by rewrite IHa, IHb.
  - intros _. pose proof (run_balanced a (mkContext (Some h))) as [H1 H2].
    destruct (run a (mkContext (Some h))) as [[[]|?|] cx1]; cbn in *; by subst.
Qed.

(** Inside [block_on] no use of the context fails: a program that does not
    panic by itself and enters no second runtime returns. *)
Lemma block_on_has_context (p : program) (h : Handle) :
  panic_free p = true -> run (BlockOn h p) context_new = (Returned tt, context_new).
Proof.
  intros Hp. change (run (BlockOn h p) context_new) with (block_on h (run p) context_new).
  rewrite (block_on_unset h (run p) context_new (Returned tt) (mkContext (Some h)));
    [done|done|by apply panic_free_returns|done|done].
Qed.

Lemma context_balanced_witness :
  run (BlockOn strong_handle (Then Use (Catch (BlockOn strong_handle Use)))) context_new =
    (Returned tt, context_new) /\
  run (BlockOn strong_handle (Fail PBorrow)) context_new = (Unwound PBorrow, context_new).
Proof.
  split.
  - exact (proj1 (proj2 (proj2 (context_balanced (Then Use (Catch (BlockOn strong_handle Use)))
                                  strong_handle context_new))) eq_refl).
  - exact (proj1 (proj2 (proj2 (context_balanced (Fail PBorrow) strong_handle context_new)))
             eq_refl).
Defined.
