(* ===== verification/EventLoop.v ===== *)
(** The event loop: the public builder of [src/src/lib.rs], [Driver::new],
    [Handle::new] and [Runtime] of [src/src/runtime/mod.rs], with the task
    [drive_uring_wakes] that moves completions from the kernel to the driver.

    The tokio runtime, its [AsyncFd] and the descriptor of the ring inside
    [epoll] are parameters. What a thread does inside [block_on] is a
    sequence of steps: it parks, which runs the hook and lets tokio look at
    [epoll]; it polls the wakes task when that task is scheduled; other tasks
    call the driver. *)
From S2P Require Import Prelude Slab IoUring SlabList Op Driver Handle.

(** * The crates underneath *)

(** [io_uring::Builder]. *)
Class UringBuilder (B ring : Type) : Type := {
  builder_new : B;
  builder_setup_sqpoll : N -> B -> B;
  builder_build : B -> N -> io_result ring;
}.

(** [tokio::runtime::Builder::build] and [AsyncFd]: [fd_set_ready] is what
    the reactor does when [epoll] reports the descriptor. *)
Class Tokio (F G : Type) : Type := {
  tokio_build : io_result unit;
  async_fd_new : io_result F;
  fd_readable : Waker -> F -> Poll (io_result G) * F;
  fd_clear_ready : G -> F -> F;
  fd_set_ready : F -> F * list Waker;
}.

(** The readiness of an [AsyncFd] is remembered until it is cleared through
    a guard made after the last event; a pending [readable] leaves its waker
    behind. *)
Class TokioLaws (F G : Type) `{!Tokio F G} : Type := {
  fd_ready : F -> bool;
  fd_waiting : F -> option Waker;
  fd_current : G -> F -> Prop;
  readable_ready w f : fd_ready f = true -> exists g f',
    fd_readable w f = (Ready (Ok g), f') /\ fd_current g f' /\ fd_ready f' = true;
  readable_pending w f : fd_ready f = false -> exists f',
    fd_readable w f = (Pending, f') /\ fd_ready f' = false /\ fd_waiting f' = Some w;
  clear_current g f : fd_current g f -> fd_ready (fd_clear_ready g f) = false;
  set_ready f : fd_ready (fd_set_ready f).1 = true;
  new_fd_clear f : async_fd_new = Ok f -> fd_ready f = false;
  set_ready_wakes w f : fd_waiting f = Some w -> w ∈ (fd_set_ready f).2;
}.

(** The ring's descriptor in [epoll], edge-triggered: does a wait report it
    as readable? *)
Class Epoll (ring : Type) : Type := epoll_wait : ring -> bool * ring.

(** What can be seen of the completion queue from the thread: the
    completions in it, and whether the descriptor is in [epoll]'s list. *)
Record cq_view : Type := mkCq { cq_ready : list cqe; cq_edge : bool }.

(** The kernel works at any time. Every post puts the descriptor in the list. *)
Definition posts (v v' : cq_view) : Prop :=
  exists cs, cq_ready v' = cq_ready v ++ cs /\ (cq_edge v = true \/ cs <> [] -> cq_edge v' = true).

Class EpollLaws (ring : Type) `{!Uring ring} `{!Epoll ring} : Type := {
  cq_of : ring -> cq_view;
  push_posts e r r' : sq_push e r = Some r' -> posts (cq_of r) (cq_of r');
  push_multiple_posts es r r' : sq_push_multiple es r = Some r' -> posts (cq_of r) (cq_of r');
  sync_posts r : posts (cq_of r) (cq_of (sq_sync r));
  submit_posts r : posts (cq_of r) (cq_of (ring_submit r).2);
  take_posts r : exists cs edge, (cq_take r).1 = cq_ready (cq_of r) ++ cs /\
    posts (mkCq [] edge) (cq_of (cq_take r).2);
  (** A wait looks at the list, and takes the descriptor off it. *)
  wait_posts r : exists v, posts (cq_of r) v /\
    (cq_edge v = true -> cq_ready v <> [] -> (epoll_wait r).1 = true) /\
    posts (mkCq (cq_ready v) false) (cq_of (epoll_wait r).2);
}.

(** A new ring is empty. *)
Class BuilderLaws (B ring : Type) `{!Uring ring} `{!Epoll ring} `{!EpollLaws ring}
    `{!UringBuilder B ring} : Prop :=
  build_empty (b : B) n r : builder_build b n = Ok r -> cq_ready (cq_of r) = [].

(** [Result::unwrap]. *)
Definition unwrap_ok {A} (r : io_result A) : outcome A :=
  match r with
  | Ok a => Ret a
  | Err _ => Panic (PUnwrap "called `Result::unwrap()` on an `Err` value")
  end.

(** * [Builder] *)
Record Builder (B : Type) : Type := mkBuilder { entries : N; urb : B }.
Arguments mkBuilder {B} entries urb.
Arguments entries {B} _.
Arguments urb {B} _.

Section builder.
Context `{!UringBuilder B ring} `{!SlabOps slab}.

Definition uring_builder : B := builder_new.
Definition builder : Builder B := mkBuilder 256 builder_new.
Definition builder_entries (sq_entries : N) (self : Builder B) : Builder B :=
  mkBuilder sq_entries (urb self).
Definition setup_sqpoll (sq_thread_idle : N) (self : Builder B) : Builder B :=
  mkBuilder (entries self) (builder_setup_sqpoll sq_thread_idle (urb self)).
Definition set_uring_builder (b : B) (self : Builder B) : Builder B := mkBuilder (entries self) b.

(** [Driver::new], [Handle::new]. *)
Definition driver_new (b : Builder B) : io_result (Driver slab ring) :=
  map_ok (mkDriver ops_new) (builder_build (urb b) (entries b)).
Definition handle_new (b : Builder B) : io_result (DriverRc (Driver slab ring)) :=
  map_ok (mkRc 1 false) (driver_new b).
End builder.

(** * [Runtime] *)
Section runtime.
Context {Prof : Profile} {Cq : Cqueue} {Er : Errno} `{!SlabOps slab} `{!Uring ring}.
Context `{!UringBuilder B ring} `{!Tokio F G} `{!Epoll ring}.
(** Bound of the driver's loops, and the waker of the wakes task. *)
Context (fuel : nat) (wakes : Waker).
Abbreviation driver_rc := (DriverRc (Driver slab ring)).
Abbreviation world := (World (slab := slab) (ring := ring)).

(** A runtime: the thread's world, the descriptor that the wakes task
    awaits, and whether that task is in tokio's queue. *)
Record Runtime : Type := mkRuntime { rt_world : world; rt_fd : F; rt_scheduled : bool }.
Implicit Types s : Runtime.
Implicit Types rc : driver_rc.

(** [Handle::clone], and the drop of a handle; the last one drops the driver. *)
Definition clone_handle rc : driver_rc := mkRc (S (strong_count rc)) (borrowed rc) (value rc).
Definition drop_handle rc : outcome (driver_rc * list Waker) :=
  match strong_count rc with
  | 1%nat => woken ← drop_driver fuel (value rc); Ret (mkRc 0 (borrowed rc) (value rc), woken)
  | n => Ret (mkRc (pred n) (borrowed rc) (value rc), [])
  end.

(** The wakes task is spawned with its own handle, [driver]. *)
Definition start_uring_wakes_task (driver : driver_rc) (cx : RuntimeContext) : outcome Runtime :=
  async_driver_handle ← unwrap_ok async_fd_new;
  Ret (mkRuntime (mkWorld driver cx) async_driver_handle true).

(** [Runtime::new]. [alive] counts the tokio runtimes that exist; the one of
    this runtime is behind [ManuallyDrop], so no early return drops it. *)
Definition runtime_new (b : Builder B) (cx : RuntimeContext) (alive : nat) :
  outcome (io_result Runtime * nat) :=
  match tokio_build with
  | Err e => Ret (Err e, alive)
  | Ok _ =>
      let alive := S alive in
      match handle_new b with
      | Err e => Ret (Err e, alive)
      | Ok driver =>
          rt ← start_uring_wakes_task (clone_handle driver) cx;
          Ret (Ok rt, alive)
      end
  end.

(** [drive_uring_wakes], from one poll of the task to the next. *)
Fixpoint drive_uring_wakes (n : nat) (fd : F) rc : outcome (F * list Waker * driver_rc) :=
  match n with
  | O => NoFuel
  | S n =>
      match fd_readable wakes fd with
      | (Pending, fd) => Ret (fd, [], rc)
      | (Ready guard, fd) =>
          guard ← unwrap_ok guard;
          '(woken, rc) ← h_dispatch_completions strong_handle rc;
          let fd := fd_clear_ready guard fd in
          '(fd, woken', rc) ← drive_uring_wakes n fd rc;
          Ret (fd, woken ++ woken', rc)
      end
  end.
Definition wakes_fuel : nat := 2.
Definition poll_wakes s : outcome (Runtime * list Waker) :=
  '(fd, woken, rc) ← drive_uring_wakes wakes_fuel (rt_fd s) (w_rc (rt_world s));
  Ret (mkRuntime (mkWorld rc (w_ctx (rt_world s))) fd (bool_decide (wakes ∈ woken)), woken).

(** The hook of [on_thread_park]; the answer of [flush] is ignored. *)
Definition no_driver_in_hook : string :=
  "Internal error, driver context not present when invoking hooks".
Definition on_thread_park (w : world) : outcome world :=
  h ← unwrap no_driver_in_hook (context_handle (w_ctx w));
  '(_, rc) ← h_flush h (w_rc w);
  Ret (mkWorld rc (w_ctx w)).

(** tokio looks at [epoll] and delivers what it finds. *)
Definition turn s : Runtime * list Waker :=
  let w := rt_world s in
  let d := value (w_rc w) in
  let '(readable, u) := epoll_wait (uring d) in
  let w := mkWorld (mkRc (strong_count (w_rc w)) (borrowed (w_rc w)) (mkDriver (ops d) u))
             (w_ctx w) in
  if readable then
    let '(fd, woken) := fd_set_ready (rt_fd s) in
    (mkRuntime w fd (rt_scheduled s || bool_decide (wakes ∈ woken)), woken)
  else (mkRuntime w (rt_fd s) (rt_scheduled s), []).
Definition park s : outcome (Runtime * list Waker) :=
  w ← on_thread_park (rt_world s);
  Ret (turn (mkRuntime w (rt_fd s) (rt_scheduled s))).

(** The two ends of [Runtime::block_on]. *)
Definition enter s : outcome Runtime :=
  let w := rt_world s in
  cx ← set_handle strong_handle (w_ctx w);
  Ret (mkRuntime (mkWorld (clone_handle (w_rc w)) cx) (rt_fd s) (rt_scheduled s)).
Definition leave s : outcome (Runtime * list Waker) :=
  let w := rt_world s in
  cx ← unset_driver (w_ctx w);
  '(rc, woken) ← drop_handle (w_rc w);
  Ret (mkRuntime (mkWorld rc cx) (rt_fd s) (rt_scheduled s), woken).

(** What the other tasks do to the driver; a call that does not touch the
    ring is given by the table it leaves. *)
Inductive driver_call : Type :=
  | CSubmit (e : sqe)
  | CSubmitOps (es : list sqe)
  | CSubmitOp {T : Type} (data : T) (f : T -> outcome (sqe * T))
  | CCancel (i : N)
  | CTable (o : Ops slab).
Definition run_call (c : driver_call) rc : outcome (list Waker * driver_rc) :=
  let h := strong_handle in
  match c with
  | CSubmit e => '(_, woken, rc) ← h_submit_op_2 fuel h e rc; Ret (woken, rc)
  | CSubmitOps es => '(_, woken, rc) ← h_submit_ops fuel h es rc; Ret (woken, rc)
  | CSubmitOp data f => '(_, woken, rc) ← h_submit_op fuel h data f rc; Ret (woken, rc)
  | CCancel i => '(_, woken, rc) ← h_cancel_op fuel h i rc; Ret (woken, rc)
  | CTable o => with_borrow_mut (fun d => Ret ([], mkDriver o (uring d))) rc
  end.

Inductive loop_event : Type :=
  | LEnter
  | LLeave
  | LPark
  | LTurn
  | LPollWakes
  | LCall (c : driver_call).
Definition inside s : Prop := is_set (w_ctx (rt_world s)) = true.
Definition loop_enabled s (e : loop_event) : Prop :=
  match e with
  | LEnter => ~ inside s
  | LLeave | LPark | LTurn | LCall _ => inside s
  | LPollWakes => inside s /\ rt_scheduled s = true
  end.
Definition run_loop s (e : loop_event) : outcome (Runtime * list Waker) :=
  match e with
  | LEnter => s ← enter s; Ret (s, [])
  | LLeave => leave s
  | LPark => park s
  | LTurn => Ret (turn s)
  | LPollWakes => poll_wakes s
  | LCall c =>
      '(woken, rc) ← run_call c (w_rc (rt_world s));
      Ret (mkRuntime (mkWorld rc (w_ctx (rt_world s))) (rt_fd s)
             (rt_scheduled s || bool_decide (wakes ∈ woken)), woken)
  end.

Inductive loop_reachable (b : Builder B) : Runtime -> Prop :=
  | loop_starts s alive alive' :
      runtime_new b context_new alive = Ret (Ok s, alive') -> loop_reachable b s
  | loop_steps s e s' woken :
      loop_reachable b s -> loop_enabled s e -> run_loop s e = Ret (s', woken) ->
      loop_reachable b s'.

(** [impl Drop for Runtime]. The tasks of the [LocalSet] are given by what
    their destruction does; the one of the wakes task drops its handle. After
    the two explicit drops the fields go, [driver] among them. *)
Definition drop_wakes (w : world) : outcome world :=
  '(rc, _) ← drop_handle (w_rc w); Ret (mkWorld rc (w_ctx w)).
Fixpoint drop_tasks (tasks : list (world -> outcome world)) (w : world) : outcome world :=
  match tasks with
  | [] => Ret w
  | t :: tasks => w ← t w; drop_tasks tasks w
  end.
Definition drop_runtime (tasks : list (world -> outcome world)) (w : world) (alive : nat) :
  outcome (world * nat) :=
  w ← drop_tasks tasks w;
  let alive := pred alive in
  '(rc, _) ← drop_handle (w_rc w);
  Ret (mkWorld rc (w_ctx w), alive).

(** [Builder::start]; [start] is the same with [builder]. [future] is what
    [block_on] does between its two ends, and the tasks it leaves behind. *)
Definition builder_start {A} (b : Builder B)
    (future : Runtime -> outcome (A * list (world -> outcome world) * Runtime))
    (cx : RuntimeContext) (alive : nat) : outcome (A * world * nat) :=
  '(rt, alive) ← runtime_new b cx alive;
  rt ← unwrap_ok rt;
  rt ← enter rt;
  '(res, tasks, rt) ← future rt;
  '(rt, _) ← leave rt;
  '(w, alive) ← drop_runtime tasks (rt_world rt) alive;
  Ret (res, w, alive).
Definition start {A} := builder_start (A := A) builder.
End runtime.
