(* ===== verification/HandleSpec.v ===== *)
(** Properties of the futures and of linked submissions: what a submission
    puts on the queue, what polling and dropping a future does to the driver,
    and how the [RefCell] around the driver limits re-entrancy. *)
From S2P Require Import Prelude Slab IoUring SlabList Op Driver DriverSpec RingSpec Handle Link.

(** * Submissions *)

(** What a submittable thing promises: its entries, in the order in which
    they reach the queue. *)
Class SubmitEntries (A : Type) : Type := entries_of : A -> list sqe.

#[export] Instance oneshot_entries {D T} : SubmitEntries (UnsubmittedOneshot D T) :=
  fun u => [u_sqe u].
#[export] Instance link_entries {D N} `{!SubmitEntries D} `{!SubmitEntries N} :
    SubmitEntries (Link D N) :=
  fun l => entries_of (l_data l) ++ entries_of (l_next l).

(** The entries of a chain, from head to tail. *)
Definition chain_entries {A} `{!SubmitEntries A} (a : A) : list sqe := entries_of a.

Section submit.
Context {Prof : Profile} {Cq : Cqueue} {Er : Errno} {Sf : SqueueFlags}.
Context `{!SlabOps slab} `{!SlabLaws slab} `{!Uring ring} `{!UringLaws ring}.
Context (fuel : nat).
Abbreviation world := (World (slab := slab) (ring := ring)).
Implicit Types w : world.

Definition world_driver w : Driver slab ring := value (w_rc w).
(** A thread inside [block_on], outside any call of the driver. *)
Definition running w : Prop :=
  context_handle (w_ctx w) = Some strong_handle /\ borrowed (w_rc w) = false /\
  (0 < strong_count (w_rc w))%nat.

(** The entries [es] were queued behind the ones of [w], each under a new
    index of its own. *)
Definition queued w (es : list sqe) (w' : world) : Prop :=
  exists is_, length is_ = length es /\ NoDup is_ /\
    Forall (fun i => get_mut i (ops (world_driver w)) = None /\
                     get_mut i (ops (world_driver w')) = Some Submitted) is_ /\
    pending (world_driver w') =
      pending (world_driver w) ++ zip_with (fun i s => set_user_data (as_u64 i) s) is_ es /\
    slab_view (lifecycle (ops (world_driver w))) ⊆
      slab_view (lifecycle (ops (world_driver w'))) /\
    sq_capacity (uring (world_driver w')) = sq_capacity (uring (world_driver w)).

Class SubmitLaws (A Out : Type) `{!SubmitEntries A}
    `{!Submit (slab := slab) (ring := ring) A Out} : Prop :=
  submit_queued a w :
    running w -> has_room (length (entries_of a)) (world_driver w) ->
    safe (fun '(_, woken, w') => woken = [] /\ running w' /\ queued w (entries_of a) w')
         (submit_it a w).

#[export] Instance oneshot_submit_laws {D T} :
  SubmitLaws (Submit0 := submit_oneshot (S fuel)) (UnsubmittedOneshot D T)
             (InFlightOneshot D T).
Proof.
  intros u [[n b d] cx] (Hc & Hb & Hn) Hroom. cbn in Hc, Hb, Hn. subst b.
  unfold submit_it, submit_oneshot. cbn [w_rc w_ctx]. rewrite Hc.
  cbn [unwrap mbind outcome_bind]. unfold h_submit_op_2, with_borrow_mut. cbn [borrowed value].
  pose proof (submit_op_2_room fuel (u_sqe u) d Hroom) as H.
  destruct (submit_op_2 (S fuel) (u_sqe u) d) as [[[i d'] woken]| | |]; try exact H.
  destruct H as (-> & (Hi & _ & Hv & _) & Hp & Hcap). cbn. split_and!; [done..|].
  exists [i]. cbn. split_and!; try done.
  - apply NoDup_singleton.
  - constructor; [|done]. split; [done|]. unfold get_mut. rewrite slab_get_view, Hv.
    apply lookup_insert_eq.
  - rewrite Hv. apply insert_subseteq. unfold get_mut in Hi. by rewrite slab_get_view in Hi.
Qed.

Lemma queued_app w es1 w1 es2 w2 :
  queued w es1 w1 -> queued w1 es2 w2 -> queued w (es1 ++ es2) w2.
Proof.
  intros (is1 & L1 & N1 & F1 & P1 & S1 & C1) (is2 & L2 & N2 & F2 & P2 & S2 & C2).
  unfold queued, get_mut in *. exists (is1 ++ is2). rewrite !length_app, L1, L2.
  split_and!; [done| | | |by etrans|by rewrite C2].
  - apply NoDup_app. split_and!; [done| |done]. intros i H1 H2.
    rewrite Forall_forall in F1, F2. destruct (F1 i H1) as [_ E1], (F2 i H2) as [E2 _].
    congruence.
  - apply Forall_app. split; eapply Forall_impl; try done; intros i [E1 E2];
      rewrite !slab_get_view in *.
    + split; [done|]. by eapply lookup_weaken.
    + split; [|done]. by eapply lookup_weaken_None.
  - by rewrite P2, P1, zip_with_app, app_assoc.
Qed.

#[export] Instance link_submit_laws {D N DO NO}
    `{!SubmitEntries D} `{SD : !Submit (slab := slab) (ring := ring) D DO} `{!SubmitLaws D DO}
    `{!SubmitEntries N} `{SN : !Submit (slab := slab) (ring := ring) N NO} `{!SubmitLaws N NO} :
  SubmitLaws (Link D N) (LinkedInFlightOneshot DO NO).
Proof.
  intros [a n] w Hw Hroom. unfold submit_it at 1, submit_link. cbn [l_data l_next].
  change (entries_of (mkLink a n)) with (entries_of a ++ entries_of n) in *.
  unfold has_room in Hroom. rewrite length_app in Hroom.
  eapply safe_bind; [apply submit_queued; [done|unfold has_room; lia]|].
  intros [[data woken] w1] (-> & Hw1 & Hq1).
  pose proof Hq1 as (is1 & L1 & _ & _ & P1 & _ & C1).
  eapply safe_bind; [apply submit_queued; [done|]|].
  { unfold has_room. rewrite P1, C1, length_app, length_zip_with, L1, Nat.min_id. lia. }
  intros [[next woken'] w2] (-> & Hw2 & Hq2). cbn. split_and!; [done..|].
  by eapply queued_app.
Qed.

(** The things that can be submitted: single operations, and links of such
    things, nested in any way. *)
Inductive submittable : forall A Out : Type,
    SubmitEntries A -> Submit (slab := slab) (ring := ring) A Out -> Prop :=
  | submittable_one D T :
      submittable (UnsubmittedOneshot D T) (InFlightOneshot D T) oneshot_entries
        (submit_oneshot (S fuel))
  | submittable_link D N DO NO ED SD EN SN :
      submittable D DO ED SD -> submittable N NO EN SN ->
      submittable (Link D N) (LinkedInFlightOneshot DO NO)
        (link_entries (SubmitEntries0 := ED) (SubmitEntries1 := EN))
        (submit_link (Submit0 := SD) (Submit1 := SN)).

Lemma submittable_laws A Out E S : submittable A Out E S -> SubmitLaws A Out.
Proof.
  induction 1 as [D T|D N DO NO ED SD EN SN _ IHD _ IHN]; [apply oneshot_submit_laws|].
  by apply link_submit_laws.
Qed.

Lemma queue_full w es w' :
  queued w es w' -> (length (pending (world_driver w)) + length es)%nat = queue_capacity (world_driver w) ->
  forall e, sq_push e (uring (world_driver w')) = None.
Proof.
  intros (is_ & Hl & _ & _ & Hp & _ & Hc) Hn e. apply sq_push_none.
  unfold pending, queue_capacity in *. rewrite Hp, Hc, length_app, length_zip_with, Hl, Nat.min_id. lia.
Qed.

(** C32. What linking puts on the submission queue. Take operations that are
    linked in any nesting. When the queue has room for the whole chain, its
    entries are put there next to each other, from head to tail, each under a
    fresh index of its own, and nobody is woken. That is what makes the kernel
    treat them as a chain. When the room ends with the first part, that part is queued
    just so, and then the queue takes no further entry: the rest cannot
    follow before the driver has handed the first part to the kernel, without
    the rest. *)
Theorem link_submitted_contiguously {D N DO NO ED SD EN SN}
    (HD : submittable D DO ED SD) (HN : submittable N NO EN SN) (l : Link D N) w :
  running w ->
  let full w es w' :=
    queued w es w' /\ forall e, sq_push e (uring (world_driver w')) = None in
  (has_room (length (entries_of (l_data l) ++ entries_of (l_next l))) (world_driver w) ->
   safe (fun '(_, woken, w') => woken = [] /\ running w' /\
           queued w (entries_of (l_data l) ++ entries_of (l_next l)) w')
        (submit_it l w)) /\
  ((length (pending (world_driver w)) + length (entries_of (l_data l)))%nat =
     queue_capacity (world_driver w) ->
   safe (fun '(_, woken, w') => woken = [] /\ running w' /\ full w (entries_of (l_data l)) w')
        (submit_it (l_data l) w)).
Proof.
  intros Hw full. pose proof (submittable_laws _ _ _ _ HD) as LD.
  pose proof (submittable_laws _ _ _ _ (submittable_link _ _ _ _ _ _ _ _ HD HN)) as LL. split.
  - intros Hroom. pose proof (submit_queued (SubmitEntries0 := link_entries) l w Hw Hroom) as H. exact H.
  - intros Hn. eapply safe_mono; [apply (submit_queued (l_data l) w Hw)|].
    { unfold has_room, queue_capacity, pending in *. lia. }
    intros [[x woken] w'] (-> & Hw' & Hq). split_and!; [done..|]. split; [done|]. by eapply queue_full.
Qed.

(** [Link::link] flags the head only. Extending the chain [a, b] by
    [c] sets the link flag of [a] a second time; the entry of [b], after
    which the chain should go on, stays as it was, so the kernel ends the
    chain at [b] and [c] runs by itself. *)
Theorem link_link_flags {D1 T1 D2 T2 D3 T3} (a : UnsubmittedOneshot D1 T1)
    (b : UnsubmittedOneshot D2 T2) (c : UnsubmittedOneshot D3 T3) :
  chain_entries (link_link (oneshot_link a b) c) =
    [set_sqe_flags IO_LINK (set_sqe_flags IO_LINK (u_sqe a)); u_sqe b; u_sqe c].
Proof. reflexivity. Qed.
End submit.

(** * Polling and dropping futures *)
Section futures.
Context {Prof : Profile} {Cq : Cqueue} {Er : Errno}.
Context `{!SlabOps slab} `{!SlabLaws slab} `{!Uring ring}.
Abbreviation world := (World (slab := slab) (ring := ring)).
Implicit Types (w : world) (rc : DriverRc (Driver slab ring)).

Definition available rc : Prop := borrowed rc = false /\ (0 < strong_count rc)%nat.

Lemma upgrade_available rc : available rc -> upgrade weak_handle rc = Some strong_handle.
Proof. intros [_ H]. unfold upgrade. destruct (strong_count rc); [lia|done]. Qed.

(** Dropping the future does nothing at all, polling it panics. *)
Definition inert `{!OneshotOutputTransform T D Output} (f : InFlightOneshot D T) : Prop :=
  (forall w, drop_oneshot f w = Ret w) /\
  (forall cx w, poll_oneshot f cx w =
                  Panic (PUnwrap "Cannot poll already-completed operation")).
Definition driver_gone w : Prop := strong_count (w_rc w) = 0%nat.

(** C33. A future that has resolved is inert. When the poll of a
    single-shot operation answers [Ready], the operation has left the
    table, dropping the future afterwards changes nothing, even when its
    index has meanwhile been given to another operation, and polling it
    again panics without touching the driver. *)
Theorem resolved_oneshot_inert `{!OneshotOutputTransform T D Output}
    (f f' : InFlightOneshot D T) cx w out w' :
  poll_oneshot f cx w = Ret (Ready out, f', w') ->
  (exists inner, f = Some inner /\
     get_mut (in_index inner) (ops (value (w_rc w'))) = None) /\
  inert f'.
Proof.
  unfold poll_oneshot. destruct f as [inner|]; [|done]. cbn [unwrap mbind outcome_bind].
  intros (h & _ & E)%bind_Ret. apply bind_Ret in E as ([p rc] & Ep & E).
  destruct p as [c|]; [|done]. apply bind_Ret in E as (out' & _ & E).
  injection E as <- <- <-. split; [|by split]. exists inner. split; [done|]. cbn.
  unfold h_poll_op_2, with_borrow_mut in Ep. destruct (borrowed (w_rc w)); [done|].
  apply bind_Ret in Ep as ([p d] & Ep & Erc). injection Erc as -> <-. cbn.
  apply bind_Ret in Ep as ([p o] & Ep & Ed). injection Ed as -> <-. cbn.
  unfold poll_op_2 in Ep. apply bind_Ret in Ep as (lc & Hi & Ep).
  destruct lc; try done. apply bind_Ret in Ep as (o' & Erm & Ep). injection Ep as <- <-.
  unfold ops_remove in Erm. apply bind_Ret in Erm as ([lc s] & Erm & Eo). injection Eo as <-.
  unfold get_mut. cbn. rewrite slab_get_view.
  apply remove_slab_inv in Erm as [_ ->]. apply lookup_delete_eq.
Qed.

(** After the driver is gone a dropped future does no harm, but a
    dropped [Op] panics: the destructor of [InFlightOneshot] checks whether
    the driver still exists, the one of [Op] insists that it does. *)
Theorem drop_after_driver {D T} (f : InFlightOneshot D T) (op : Op T) w :
  driver_gone w ->
  drop_oneshot f w = Ret w /\ op_drop op (w_rc w) = Panic (PUnwrap no_context).
Proof.
  unfold driver_gone. intros H. unfold drop_oneshot, op_drop, upgrade. rewrite H. split; [|done]. by destruct f.
Qed.

(** The destructor of an [Op] that runs while the driver is borrowed. *)
Lemma op_drop_borrowed {T} (op : Op T) (n : nat) (d : Driver slab ring) :
  (0 < n)%nat -> op_drop op (mkRc n true d) = Panic PBorrow.
Proof. intros H. unfold op_drop, upgrade. by destruct n; [lia|]. Qed.

(** [Handle::submit_op] cannot report an error of the ring. When
    flushing a full queue fails, the early return drops the new [Op] while
    the driver is still mutably borrowed, and its destructor borrows the
    driver again: the call panics, whatever the error was. *)
Theorem submit_op_error_panics {T} fuel (h : Handle) (data data' : T) f s rc i o d1 e woken :
  available rc -> ops_insert (ops (value rc)) = Ret (i, o) -> f data = Ret (s, data') ->
  push_loop fuel (sq_push (set_user_data (as_u64 i) s))
    (mkDriver o (uring (value rc))) = Ret (Err e, d1, woken) ->
  h_submit_op fuel h data f rc = Panic PBorrow.
Proof.
  intros [Hb Hn] Ei Ef Ep. unfold h_submit_op, with_borrow_mut. rewrite Hb.
  unfold submit_op. rewrite Ei. cbn [mbind outcome_bind]. rewrite Ef.
  cbn [mbind outcome_bind]. rewrite Ep. cbn [mbind outcome_bind].
  by rewrite op_drop_borrowed.
Qed.
End futures.

(** * Concrete runs *)
Definition demo_world (capacity : nat) (script : list (io_result N * list cqe)) :
  World (slab := gmap N) (ring := script_ring) :=
  mkWorld (mkRc 1 false (demo_driver capacity script)) (mkContext (Some strong_handle)).
Definition demo_oneshot (o : opcode) : UnsubmittedOneshot (list Byte.byte) unit :=
  mkUnsubmitted [] tt (build o).

(** Two writes and an fsync, linked; the queue has room for four entries. *)
Definition demo_chain :=
  link_link (oneshot_link (demo_oneshot (OpWrite 3 0 4 0)) (demo_oneshot (OpWrite 3 8 4 4)))
            (demo_oneshot (OpFsync 3 false)).

#[export] Instance demo_submit {D T} :
  Submit (slab := gmap N) (ring := script_ring) (UnsubmittedOneshot D T) (InFlightOneshot D T) :=
  submit_oneshot (Prof := debug_profile) 1.

Lemma link_submitted_contiguously_witness :
  safe (fun '(_, woken, w') => woken = [] /\ running w' /\
          queued (demo_world 4 []) (chain_entries demo_chain) w')
       (submit_it demo_chain (demo_world 4 [])) /\
  safe (fun '(_, woken, w') => woken = [] /\ running w' /\
          queued (demo_world 1 []) (entries_of (l_data demo_chain)) w' /\
          forall e, sq_push e (uring (world_driver w')) = None)
       (submit_it (l_data demo_chain) (demo_world 1 [])).
Proof.
  split.
  - refine (proj1 (link_submitted_contiguously (Prof := debug_profile) (ring := script_ring) 0
      (submittable_one 0 _ _) (submittable_link 0 _ _ _ _ _ _ _ _ (submittable_one 0 _ _) (submittable_one 0 _ _))
      demo_chain (demo_world 4 []) _) _); [cbv; auto|cbv; lia].
  - refine (proj2 (link_submitted_contiguously (Prof := debug_profile) (ring := script_ring) 0
      (submittable_one 0 _ _) (submittable_link 0 _ _ _ _ _ _ _ _ (submittable_one 0 _ _) (submittable_one 0 _ _))
      demo_chain (demo_world 1 []) _) _); [cbv; auto|reflexivity].
Defined.

#[export] Instance demo_transform : OneshotOutputTransform unit (list Byte.byte) Z :=
  fun _ _ c => Ret (cqe_result c).

Definition demo_polled : World (slab := gmap N) (ring := script_ring) :=
  mkWorld (mkRc 1 false (mkDriver (mkOps (<[0 := Completed (Cqe 0 4 0)]> ∅) ∅)
                                  (ScriptRing [] 4 [] [])))
          (mkContext (Some strong_handle)).

Lemma resolved_oneshot_inert_witness :
  exists w', poll_oneshot (Some (mkInner 0 [] tt)) (mkWaker 0 0) demo_polled
               = Ret (Ready 4%Z, None, w') /\
  inert (slab := gmap N) (ring := script_ring)
    (None : InFlightOneshot (list Byte.byte) unit).
Proof.
  eexists. split; [vm_compute; reflexivity|].
  eapply (resolved_oneshot_inert (Some (mkInner 0 [] tt)) None (mkWaker 0 0) demo_polled);
    vm_compute; reflexivity.
Defined.

Lemma drop_after_driver_witness :
  op_drop (mkOp (T := unit) 0 None) (mkRc 0 false (demo_driver 4 [])) =
    Panic (PUnwrap no_context).
Proof.
  apply (drop_after_driver (None : InFlightOneshot unit unit) (mkOp 0 None)
           (mkWorld (mkRc 0 false (demo_driver 4 [])) context_new)). reflexivity.
Defined.

(** The queue is full and the kernel refuses the submission with [EINVAL]. *)
Lemma submit_op_error_panics_witness :
  h_submit_op (Prof := debug_profile) 3 strong_handle tt (fun d => Ret (build Nop, d))
    (mkRc 1 false (mkDriver ops_new (ScriptRing [build Nop] 1 [] [(Err (OsError EINVAL), [])])))
  = Panic PBorrow (A := _ * _ * DriverRc (Driver (gmap N) script_ring)).
Proof.
  eapply (submit_op_error_panics (Prof := debug_profile) (slab := gmap N));
    [cbv; auto|vm_compute; reflexivity..].
Defined.
