(* ===== verification/EventLoopSpec.v ===== *)
(** Properties of the event loop: no completion is stranded while the thread
    sleeps, the runtime is built as configured, and its tasks are dropped
    while the driver is there. *)
From S2P Require Import Prelude Slab IoUring SlabList Op Driver Handle EventLoop.

Lemma posts_refl v : posts v v.
Proof. exists []. rewrite app_nil_r. split; [done|]. by intros [?|?]. Qed.
Lemma posts_trans v1 v2 v3 : posts v1 v2 -> posts v2 v3 -> posts v1 v3.
Proof.
  intros (cs & E & H) (cs' & E' & H'). exists (cs ++ cs').
  rewrite E', E, (assoc_L (++)). split; [done|].
  intros Hor. apply H'. destruct (decide (cs' = [])) as [->|]; [|by right].
  left. apply H. rewrite app_nil_r in Hor. done.
Qed.

(** Completions in the queue are attended to: the descriptor is in [epoll]'s
    list, or known to be ready. *)
Definition attended (ready : bool) (v : cq_view) : Prop :=
  cq_ready v <> [] -> cq_edge v = true \/ ready = true.

Lemma attended_posts ready v v' : posts v v' -> attended ready v -> attended ready v'.
Proof.
  intros (cs & E & H) Ha Hne. destruct (decide (cs = [])) as [->|Hcs].
  - rewrite app_nil_r in E. rewrite E in Hne. destruct (Ha Hne); [left; auto|by right].
  - left. auto.
Qed.
Lemma attended_taken ready edge v' : posts (mkCq [] edge) v' -> attended ready v'.
Proof. intros H. eapply attended_posts; [done|]. by intros ?. Qed.

Section event_loop.
Context {Prof : Profile} {Cq : Cqueue} {Er : Errno} `{!SlabOps slab} `{!Uring ring}.
Context `{!UringBuilder B ring} `{!Tokio F G} `{!Epoll ring}.
Context `{!TokioLaws F G} `{!EpollLaws ring} `{!BuilderLaws B ring}.
Context (fuel : nat) (wakes : Waker) (b : Builder B).
Abbreviation Runtime := (Runtime (slab := slab) (ring := ring) (F := F)).
Implicit Types s : Runtime.
Implicit Types d : Driver slab ring.
Implicit Types rc : DriverRc (Driver slab ring).

(** * The driver's methods *)
Abbreviation attends ready d := (attended ready (cq_of (uring d))).
(** [f] keeps the queue attended. *)
Definition keeps {A} (f : Driver slab ring -> outcome A) (out : A -> Driver slab ring) : Prop :=
  forall ready d a, f d = Ret a -> attends ready d -> attends ready (out a).
Abbreviation answer := (fun x => x.1.2).

Lemma keeps_dispatch : keeps dispatch_completions fst.
Proof.
  intros ready d [d' w]. unfold dispatch_completions.
  destruct (take_posts (uring d)) as (cs & edge & _ & H).
  destruct (cq_take (uring d)) as [l u]. intros ([o w'] & _ & E)%bind_Ret _. simplify_eq/=.
  by eapply attended_taken.
Qed.

Lemma keeps_submit n : keeps (submit n) answer.
Proof.
  induction n as [|n IH]; intros ready d a; [done|]. cbn [submit].
  pose proof (submit_posts (uring d)) as H.
  destruct (ring_submit (uring d)) as [[m|e] u]; cbn in H.
  - intros [= <-] Ha. cbn. eapply attended_posts; [apply sync_posts|]. by eapply attended_posts.
  - case_decide; [|case_decide].
    + intros ([d1 w] & E1 & ([[r d2] w'] & E2 & E)%bind_Ret)%bind_Ret Ha. simplify_eq/=.
      apply (IH ready _ _ E2), (keeps_dispatch ready _ _ E1). by eapply attended_posts.
    + intros [= <-] Ha. cbn. by eapply attended_posts.
    + intros E Ha. apply (IH ready _ _ E). by eapply attended_posts.
Qed.

Lemma keeps_push_loop n (push : ring -> option ring) :
  (forall r r', push r = Some r' -> posts (cq_of r) (cq_of r')) -> keeps (push_loop n push) answer.
Proof.
  intros Hp. induction n as [|n IH]; intros ready d a; [done|]. cbn [push_loop].
  destruct (push (uring d)) as [u|] eqn:Eu.
  - intros [= <-] Ha. cbn. by eapply attended_posts; [apply Hp|].
  - intros ([[[x|e] d1] w] & E1 & E)%bind_Ret Ha;
      pose proof (keeps_submit n ready _ _ E1 Ha) as H1; [|by simplify_eq/=].
    apply bind_Ret in E as ([[r d2] w'] & E2 & E). simplify_eq/=. by apply (IH ready _ _ E2).
Qed.

Lemma keeps_submit_op_2 e : keeps (submit_op_2 fuel e) answer.
Proof.
  intros ready d a. unfold submit_op_2.
  intros ([i o] & _ & ([[r d1] w] & E1 & (u & _ & E)%bind_Ret)%bind_Ret)%bind_Ret Ha.
  simplify_eq/=. refine (keeps_push_loop _ _ _ ready _ _ E1 Ha). apply push_posts.
Qed.
Lemma keeps_submit_ops es : keeps (submit_ops fuel es) answer.
Proof.
  intros ready d a. unfold submit_ops.
  intros ([[is_ es'] o] & _ & ([[r d1] w] & E1 & (u & _ & E)%bind_Ret)%bind_Ret)%bind_Ret Ha.
  simplify_eq/=. refine (keeps_push_loop _ _ _ ready _ _ E1 Ha). apply push_multiple_posts.
Qed.
Lemma keeps_cancel_op i : keeps (cancel_op fuel i) answer.
Proof.
  intros ready d a. unfold cancel_op. destruct (negb _); [by intros [= <-]|].
  intros E. refine (keeps_push_loop _ _ _ ready _ _ E). apply push_posts.
Qed.

(** * The other tasks *)
Lemma with_borrow_mut_keeps {A} (f : Driver slab ring -> outcome (A * Driver slab ring)) rc a rc' :
  keeps f snd -> with_borrow_mut f rc = Ret (a, rc') ->
  strong_count rc' = strong_count rc /\ borrowed rc' = false /\
  forall ready, attends ready (value rc) -> attends ready (value rc').
Proof.
  unfold with_borrow_mut. destruct (borrowed rc); [done|].
  intros Hf ([x d] & E & E')%bind_Ret. simplify_eq/=. split_and!; [done..|].
  intros ready Ha. by apply (Hf ready _ _ E).
Qed.

Lemma run_call_keeps (c : driver_call) rc woken rc' :
  run_call fuel c rc = Ret (woken, rc') ->
  strong_count rc' = strong_count rc /\ borrowed rc' = false /\
  forall ready, attends ready (value rc) -> attends ready (value rc').
Proof.
  destruct c as [e|es|T data f|i|o]; cbn.
  5: { apply with_borrow_mut_keeps. by intros ready d x [= <-]. }
  all: intros ([[j w] rc1] & E & E')%bind_Ret; simplify_eq; revert E.
  all: first [unfold h_submit_op | idtac]; apply with_borrow_mut_keeps.
  all: intros ready d x ([[k d1] w1] & E & E')%bind_Ret Ha; simplify_eq/=.
  - by apply (keeps_submit_op_2 e ready _ _ E).
  - by apply (keeps_submit_ops es ready _ _ E).
  - revert E. unfold submit_op.
    intros ([n o] & _ & ([e dt] & _ & ([[r d2] w2] & E & E')%bind_Ret)%bind_Ret)%bind_Ret.
    pose proof (keeps_push_loop _ _ (push_posts _) ready _ _ E Ha) as H.
    destruct r as [u|e0]; [by simplify_eq/=|].
    apply bind_Ret in E' as (d3 & (rc2 & E2 & _)%bind_Ret & _). revert E2.
    unfold op_drop, upgrade. cbn. destruct (Nat.eqb _ _); done.
  - by apply (keeps_cancel_op i ready _ _ E).
Qed.

(** * The loop *)
Definition rt_ring s : ring := uring (value (w_rc (rt_world s))).
Definition rt_ops s : Ops slab := ops (value (w_rc (rt_world s))).
(** The runtime [s] with what one step of the loop changes. *)
Definition with_driver d s : Runtime :=
  mkRuntime (mkWorld (mkRc (strong_count (w_rc (rt_world s))) false d) (w_ctx (rt_world s)))
    (rt_fd s) (rt_scheduled s).

(** One handle in the [Runtime], one in the wakes task, and one in the
    context during [block_on]; a descriptor that is not ready has the wakes
    task waiting, or the task is in the queue. *)
Record loop_inv s : Prop := {
  li_count : strong_count (w_rc (rt_world s)) = (if is_set (w_ctx (rt_world s)) then 3 else 2)%nat;
  li_free : borrowed (w_rc (rt_world s)) = false;
  li_attended : attended (fd_ready (rt_fd s)) (cq_of (rt_ring s));
  li_ready : fd_ready (rt_fd s) = true -> rt_scheduled s = true;
  li_waits : rt_scheduled s = false -> fd_waiting (rt_fd s) = Some wakes;
}.

Lemma posts_prefix v v' : posts v v' -> cq_ready v `prefix_of` cq_ready v'.
Proof. intros (cs & -> & _). by exists cs. Qed.

Lemma turn_spec s :
  loop_inv s ->
  exists readable u, epoll_wait (rt_ring s) = (readable, u) /\
    let (s', woken) := turn wakes s in
    loop_inv s' /\ rt_ring s' = u /\ rt_ops s' = rt_ops s /\ w_ctx (rt_world s') = w_ctx (rt_world s) /\
    cq_ready (cq_of (rt_ring s)) `prefix_of` cq_ready (cq_of u) /\
    (cq_ready (cq_of (rt_ring s)) <> [] ->
       fd_ready (rt_fd s') = true /\ (rt_scheduled s = false -> wakes ∈ woken)).
Proof.
  intros [Hc Hb Ha Hr Hw]. unfold rt_ring, rt_ops in *. unfold turn.
  destruct (wait_posts (uring (value (w_rc (rt_world s))))) as (v & Hv & Hrep & Hu).
  destruct (epoll_wait _) as [readable u]. cbn in Hrep, Hu. exists readable, u. split; [done|].
  pose proof (attended_posts _ _ _ Hv Ha) as Hav.
  assert (Hp : cq_ready (cq_of (uring (value (w_rc (rt_world s))))) `prefix_of` cq_ready (cq_of u)).
  { transitivity (cq_ready v); [by apply posts_prefix|apply (posts_prefix _ _ Hu)]. }
  destruct readable.
  - pose proof (set_ready (rt_fd s)) as Hset. pose proof (set_ready_wakes wakes (rt_fd s)) as Hws.
    destruct (fd_set_ready (rt_fd s)) as [fd woken]. cbn in *.
    assert (Hin : rt_scheduled s = false -> wakes ∈ woken) by auto.
    assert (Hs : rt_scheduled s || bool_decide (wakes ∈ woken) = true).
    { destruct (rt_scheduled s); [done|]. by apply bool_decide_eq_true, Hin. }
    split; [|by split_and!]. split; cbn; try done; [by intros ?; right|by rewrite Hs].
  - cbn. assert (Hq : cq_ready v <> [] -> fd_ready (rt_fd s) = true).
    { intros Hne. destruct (Hav Hne) as [He|?]; [|done]. by specialize (Hrep He Hne). }
    split; [split; cbn; try done|split_and!; try done].
    + intros Hne. destruct (decide (cq_ready v = [])) as [Hnil|Hcons]; [|by right; apply Hq].
      rewrite Hnil in Hu. by apply (attended_taken _ _ _ Hu).
    + intros Hne. assert (Hvne : cq_ready v <> []).
      { intros Hnil. apply posts_prefix in Hv. rewrite Hnil in Hv. by apply prefix_nil_inv in Hv. }
      split; [auto|]. intros Hsch. apply Hq, Hr in Hvne. congruence.
Qed.

Lemma with_driver_self s : borrowed (w_rc (rt_world s)) = false -> with_driver (value (w_rc (rt_world s))) s = s.
Proof. destruct s as [[[n bo d] cx] fd sch]. cbn. by intros ->. Qed.

(** The hook of [on_thread_park] submits what is queued. *)
Definition submitted s : Runtime := with_driver (mkDriver (rt_ops s) (ring_submit (rt_ring s)).2) s.
Lemma park_spec s : loop_inv s -> inside s -> park wakes s = Ret (turn wakes (submitted s)).
Proof.
  intros H Hin. unfold park, on_thread_park, submitted. unfold inside, is_set in Hin.
  destruct s as [[[n bo d] [[h|]]] fd sch]; [|by cbn in Hin]. pose proof (li_free _ H) as Hb. cbn in Hb. subst bo.
  unfold h_flush, with_borrow_mut, rt_ring, with_driver, rt_ops. cbn.
  by destruct (ring_submit (uring d)).
Qed.
Lemma submitted_inv s : loop_inv s -> loop_inv (submitted s) /\
  cq_ready (cq_of (rt_ring s)) `prefix_of` cq_ready (cq_of (rt_ring (submitted s))).
Proof.
  intros [Hc Hb Ha Hr Hw]. pose proof (submit_posts (rt_ring s)) as Hp.
  split; [|by apply posts_prefix]. split; cbn; try done. by eapply attended_posts.
Qed.

(** One poll of the wakes task. *)
Lemma poll_wakes_spec s :
  loop_inv s ->
  exists fd', fd_ready fd' = false /\ fd_waiting fd' = Some wakes /\
  if fd_ready (rt_fd s) then
    exists seen u, cq_take (rt_ring s) = (seen, u) /\
      cq_ready (cq_of (rt_ring s)) `prefix_of` seen /\ attended false (cq_of u) /\
      poll_wakes wakes s =
        ('(o, woken) ← dispatch seen (rt_ops s);
         Ret (mkRuntime (rt_world (with_driver (mkDriver o u) s)) fd' (bool_decide (wakes ∈ woken)),
              woken))
  else poll_wakes wakes s = Ret (mkRuntime (rt_world s) fd' false, []).
Proof.
  intros H. pose proof (li_free _ H) as Hb. unfold poll_wakes, wakes_fuel. cbn [drive_uring_wakes].
  destruct (fd_ready (rt_fd s)) eqn:Ef.
  - destruct (readable_ready wakes _ Ef) as (g & fd1 & -> & Hg & _).
    pose proof (clear_current _ _ Hg) as Hclear.
    destruct (readable_pending wakes _ Hclear) as (fd2 & E2 & Hr2 & Hw2).
    exists fd2. split_and!; [done..|]. unfold rt_ring, rt_ops.
    destruct (take_posts (uring (value (w_rc (rt_world s))))) as (cs & edge & Hcs & Hu).
    destruct (cq_take _) as [seen u] eqn:Et. cbn in Hcs, Hu. exists seen, u.
    split; [done|]. split; [by exists cs|]. split; [by eapply attended_taken|].
    unfold h_dispatch_completions, with_borrow_mut, dispatch_completions. rewrite Hb, Et.
    cbn [unwrap_ok mbind outcome_bind]. destruct (dispatch seen _) as [[o w]| | |]; cbn [mbind outcome_bind]; [|done..].
    cbn [mbind outcome_bind]. rewrite E2. cbn [mbind outcome_bind]. by rewrite app_nil_r.
  - destruct (readable_pending wakes _ Ef) as (fd1 & -> & Hr1 & Hw1).
    exists fd1. split_and!; [done..|]. by destruct s as [[rc cx] fd sch].
Qed.

Lemma loop_step_inv s e s' woken :
  loop_inv s -> loop_enabled s e -> run_loop fuel wakes s e = Ret (s', woken) -> loop_inv s'.
Proof.
  intros H. destruct e as [| | | | |c]; cbn [run_loop loop_enabled].
  - intros Hin (s1 & (cx & Es & E)%bind_Ret & E')%bind_Ret. simplify_eq. destruct H as [Hc Hb Ha Hr Hw].
    unfold inside, set_handle, is_set in *. destruct (ctx_driver _); [done|]. simplify_eq/=.
    split; cbn; try done. by rewrite Hc.
  - intros Hin (cx & Es & ([rc w] & Ed & E)%bind_Ret)%bind_Ret. simplify_eq. destruct H as [Hc Hb Ha Hr Hw].
    unfold inside, unset_driver, drop_handle in *. rewrite Hin in Hc. rewrite Hc in Ed. 
    destruct (ctx_driver _); [|done]. simplify_eq/=. by split.
  - intros Hin E. rewrite park_spec in E by done. injection E as E.
    destruct (turn_spec (submitted s)) as (r & u & _ & Ht); [by apply submitted_inv|].
    rewrite E in Ht. apply Ht.
  - intros _ E. injection E as E. destruct (turn_spec s H) as (r & u & _ & Ht).
    rewrite E in Ht. apply Ht.
  - intros _ E. destruct (poll_wakes_spec s H) as (fd' & Hr' & Hw' & Hp).
    destruct H as [Hc Hb Ha Hr Hw]. destruct (fd_ready (rt_fd s)) eqn:Ef.
    + destruct Hp as (seen & u & _ & _ & Hu & Hp). rewrite Hp in E.
      apply bind_Ret in E as ([o w] & _ & E). simplify_eq/=. split; cbn; try done; by rewrite Hr'.
    + rewrite Hp in E. simplify_eq/=. split; cbn; try done; by rewrite Hr'.
  - intros _ ([w rc] & Ec & E)%bind_Ret. simplify_eq. destruct H as [Hc Hb Ha Hr Hw].
    destruct (run_call_keeps _ _ _ _ Ec) as (H1 & H2 & H3). split; cbn.
    + by rewrite H1.
    + done.
    + by apply H3.
    + intros Hf. by rewrite Hr.
    + intros Hs. apply Hw. by destruct (rt_scheduled s).
Qed.

Lemma runtime_new_inv cx alive s alive' :
  is_set cx = false -> runtime_new (F := F) b cx alive = Ret (Ok s, alive') -> loop_inv s.
Proof.
  intros Hcx. unfold runtime_new. destruct tokio_build; [|done].
  unfold handle_new, driver_new. destruct (builder_build _ _) as [r|e] eqn:Eb; cbn; [|done].
  unfold start_uring_wakes_task.
  intros (rt & (fd & Ef & E')%bind_Ret & E)%bind_Ret. simplify_eq. pose proof (build_empty _ _ _ Eb) as Hq.
  split; cbn; try done; [by rewrite Hcx|]. intros Hne. by destruct Hne.
Qed.

Lemma loop_reachable_inv s : loop_reachable fuel wakes b s -> loop_inv s.
Proof.
  induction 1; [by eapply (runtime_new_inv context_new)|by eapply loop_step_inv].
Qed.

(** C6. No completion is stranded. In every state that the event loop reaches
    inside [block_on]: parking does not panic, and it submits what is queued
    before it looks at [epoll]. If completions wait in the queue when the
    thread parks, or when tokio polls [epoll] between tasks, then the wakes
    task is in tokio's queue afterwards, woken by this very event if it
    slept, so the thread does not sleep on; and its next poll takes every
    one of those completions, dispatches them in order, and ends with the
    task waiting again and nothing left unattended. No loop of it runs out
    of fuel, and it fails only if dispatching itself does. *)
Theorem no_completion_stranded s :
  loop_reachable fuel wakes b s -> inside s ->
  park wakes s = Ret (turn wakes (submitted s)) /\
  forall s0, s0 = s \/ s0 = submitted s ->
  let (s1, woken) := turn wakes s0 in
  cq_ready (cq_of (rt_ring s)) <> [] ->
  rt_scheduled s1 = true /\ (rt_scheduled s = false -> wakes ∈ woken) /\
  exists seen u fd,
    cq_ready (cq_of (rt_ring s)) `prefix_of` seen /\
    poll_wakes wakes s1 =
      ('(o, woken) ← dispatch seen (rt_ops s);
       Ret (mkRuntime (rt_world (with_driver (mkDriver o u) s)) fd (bool_decide (wakes ∈ woken)),
            woken)) /\
    fd_waiting fd = Some wakes /\
    (cq_ready (cq_of u) <> [] -> cq_edge (cq_of u) = true).
Proof.
  intros Hs Hin. apply loop_reachable_inv in Hs. split; [by apply park_spec|].
  intros s0 Hs0.
  assert (H0 : loop_inv s0 /\ cq_ready (cq_of (rt_ring s)) `prefix_of` cq_ready (cq_of (rt_ring s0)) /\
            rt_ops s0 = rt_ops s /\ rt_scheduled s0 = rt_scheduled s /\
            w_ctx (rt_world s0) = w_ctx (rt_world s) /\
            strong_count (w_rc (rt_world s0)) = strong_count (w_rc (rt_world s))).
  { destruct Hs0 as [->| ->]; [by split|]. by destruct (submitted_inv s Hs). }
  clear Hs0. destruct H0 as (H0 & Hp0 & Ho0 & Hsch0 & Hc0 & Hn0).
  destruct (turn_spec s0 H0) as (r & u1 & _ & Ht). destruct (turn wakes s0) as [s1 woken].
  destruct Ht as (H1 & <- & Ho1 & Hc1 & Hp1 & Hwake). intros Hne.
  destruct Hwake as [Hf Hw].
  { intros E. rewrite E in Hp0. by apply prefix_nil_inv in Hp0. }
  split; [by apply (li_ready _ H1)|]. split; [by rewrite <- Hsch0|].
  destruct (poll_wakes_spec s1 H1) as (fd & _ & Hw1 & Hp). rewrite Hf in Hp.
  destruct Hp as (seen & u & _ & Hseen & Hu & Hp). exists seen, u, fd.
  split; [exact (transitivity Hp0 (transitivity Hp1 Hseen))|]. split; [|split; [done|]].
  - rewrite Hp, Ho1, Ho0. unfold with_driver. cbn.
    assert (En : strong_count (w_rc (rt_world s1)) = strong_count (w_rc (rt_world s))).
    { by rewrite (li_count _ H1), (li_count _ Hs), Hc1, Hc0. }
    rewrite Hc1, Hc0, En. done.
  - intros Hcq. by destruct (Hu Hcq).
Qed.

(** * Shutdown *)
Abbreviation world := (World (slab := slab) (ring := ring)).
Definition with_count (n : nat) (w : world) : world :=
  mkWorld (mkRc n (borrowed (w_rc w)) (value (w_rc w))) (w_ctx w).

(** The destruction of a task that holds operations: it does the same
    however many handles there are, as long as there is one. *)
Definition tidy (t : world -> outcome world) : Prop :=
  forall n w, (0 < n)%nat ->
  t (with_count n w) = (w' ← t (with_count 1 w); Ret (with_count n w')).

Definition drop_op_task {T} (op : Op T) (w : world) : outcome world :=
  rc ← op_drop op (w_rc w); Ret (mkWorld rc (w_ctx w)).

Lemma with_borrow_mut_count {A} (f : Driver slab ring -> outcome (A * Driver slab ring)) n bo d :
  with_borrow_mut f (mkRc n bo d) =
    ('(x, rc) ← with_borrow_mut f (mkRc 1 bo d); Ret (x, mkRc n (borrowed rc) (value rc))).
Proof. unfold with_borrow_mut. cbn. destruct bo; [done|]. by destruct (f d) as [[x d']| | |]. Qed.

Lemma tidy_op {T} (op : Op T) : tidy (drop_op_task op).
Proof.
  intros n [[m bo d] cx] Hn. unfold drop_op_task, op_drop, upgrade, with_count. cbn.
  destruct n; [lia|]. cbn. unfold h_remove_op. rewrite with_borrow_mut_count.
  by destruct (with_borrow_mut _ _) as [[x rc]| | |].
Qed.
Lemma tidy_oneshot {D T} (f : InFlightOneshot D T) : tidy (drop_oneshot f).
Proof.
  intros n [[m bo d] cx] Hn. unfold drop_oneshot, upgrade, with_count. cbn.
  destruct f as [inner|]; [|done]. destruct n; [lia|]. cbn. unfold h_remove_op_2.
  rewrite with_borrow_mut_count. by destruct (with_borrow_mut _ _) as [[x rc]| | |].
Qed.

Lemma drop_tasks_app ts ts' (w : world) :
  drop_tasks (ts ++ ts') w = (w' ← drop_tasks ts w; drop_tasks ts' w').
Proof.
  revert w. induction ts as [|t ts IH]; intros w; [done|]. cbn. rewrite bind_assoc.
  destruct (t w); cbn; [apply IH|done..].
Qed.
Lemma drop_tasks_tidy ts n (w : world) :
  Forall tidy ts -> (0 < n)%nat ->
  drop_tasks ts (with_count n w) = (w' ← drop_tasks ts (with_count 1 w); Ret (with_count n w')).
Proof.
  intros H Hn. revert w. induction H as [|t ts Ht _ IH]; intros w; [done|]. cbn.
  rewrite (Ht n w Hn), (Ht 1%nat w) by lia. destruct (t (with_count 1 w)) as [a| | |]; cbn; [exact (IH (with_count 1 a))|done..].
Qed.

(** C10. The runtime shuts down in the right order. Leave [block_on] in any state
    the loop reaches and drop the [Runtime] with any tasks: they are
    destroyed, each in the presence of the driver, before the driver is;
    then, the wakes task having given up its handle in whatever place, the
    last handle goes, the driver is dropped once, and the tokio runtime is
    gone too. Destroying an operation is such a task, so none panics for
    want of a driver. *)
Theorem shutdown_order s tasks1 tasks2 alive :
  loop_reachable fuel wakes b s -> inside s -> Forall tidy (tasks1 ++ tasks2) ->
  ('(rt, _) ← leave fuel s;
   drop_runtime fuel (tasks1 ++ drop_wakes fuel :: tasks2) (rt_world rt) alive) =
  (w ← drop_tasks (tasks1 ++ tasks2)
         (mkWorld (mkRc 1 false (value (w_rc (rt_world s)))) (mkContext None));
   _ ← drop_driver fuel (value (w_rc w));
   Ret (with_count 0 w, pred alive)) /\
  (forall T (op : Op T), tidy (drop_op_task op)) /\
  (forall D T (f : InFlightOneshot D T), tidy (drop_oneshot f)).
Proof.
  intros Hs Hin Ht. apply loop_reachable_inv in Hs. pose proof (li_count _ Hs) as Hc.
  pose proof (li_free _ Hs) as Hb. split; [|split; intros; [apply tidy_op|apply tidy_oneshot]].
  apply Forall_app in Ht as [Ht1 Ht2].
  unfold leave, unset_driver, inside, is_set in *. destruct (ctx_driver _); [|done].
  cbn. unfold drop_handle at 1. rewrite Hc, Hb. cbn [mbind outcome_bind pred].
  unfold drop_runtime. rewrite !drop_tasks_app. set (w1 := mkWorld (mkRc 1 _ _) _).
  change (rt_world _) with (with_count 2 w1).
  rewrite (drop_tasks_tidy tasks1 2) by (done || lia).
  pose proof (drop_tasks_tidy tasks1 1 w1 Ht1 Nat.lt_0_1) as E1.
  change (with_count 1 w1) with w1 in *.
  destruct (drop_tasks tasks1 w1) as [w2| | |]; cbn [mbind outcome_bind] in *; [|done..]. injection E1 as E1.
  cbn [mbind outcome_bind drop_tasks].
  replace (drop_wakes fuel (with_count 2 w2)) with (Ret (with_count 1 w2)) by done.
  cbn [mbind outcome_bind]. rewrite <- E1.
  pose proof (drop_tasks_tidy tasks2 1 w2 Ht2 Nat.lt_0_1) as E2. rewrite <- E1 in E2.
  destruct (drop_tasks tasks2 w2) as [w3| | |]; cbn [mbind outcome_bind] in *; [|done..]. injection E2 as E2.
  cbn [mbind outcome_bind]. rewrite E2. unfold drop_handle. cbn. by destruct (drop_driver fuel (value (w_rc w3))).
Qed.

(** * Building a runtime *)

(** The calls of a [Builder], and what a caller reads in a sequence of them:
    the last [entries], and the polling settings since the last
    [uring_builder]. *)
Inductive setting : Type :=
  | SEntries (n : N)
  | SSqpoll (idle : N)
  | SUring (u : B).
Definition apply_setting (c : setting) (self : Builder B) : Builder B :=
  match c with
  | SEntries n => builder_entries n self
  | SSqpoll idle => setup_sqpoll idle self
  | SUring u => set_uring_builder u self
  end.
Fixpoint configure (cs : list setting) (self : Builder B) : Builder B :=
  match cs with [] => self | c :: cs => configure cs (apply_setting c self) end.

Definition asked_entries (cs : list setting) : N :=
  default 256 (last (omap (fun c => match c with SEntries n => Some n | _ => None end) cs)).
Fixpoint since_uring (cs : list setting) : option (B * list setting) :=
  match cs with
  | [] => None
  | c :: cs =>
      match since_uring cs, c with
      | Some r, _ => Some r
      | None, SUring u => Some (u, cs)
      | None, _ => None
      end
  end.
Definition idles (cs : list setting) : list N :=
  omap (fun c => match c with SSqpoll n => Some n | _ => None end) cs.
Definition asked_ring (cs : list setting) : B :=
  let '(u, cs) := default (builder_new, cs) (since_uring cs) in
  foldl (fun u n => builder_setup_sqpoll n u) u (idles cs).

Lemma configure_entries cs self :
  entries (configure cs self) =
    default (entries self)
      (last (omap (fun c => match c with SEntries n => Some n | _ => None end) cs)).
Proof.
  revert self. induction cs as [|c cs IH]; intros self; [done|]. cbn [configure].
  rewrite IH. destruct c as [n|n|u]; cbn; [|done..]. by destruct (last _) eqn:E; 
    [rewrite last_cons, E|rewrite last_cons, E].
Qed.
Lemma configure_urb cs self :
  urb (configure cs self) =
    let '(u, cs) := default (urb self, cs) (since_uring cs) in
    foldl (fun u n => builder_setup_sqpoll n u) u (idles cs).
Proof.
  revert self. induction cs as [|c cs IH]; intros self; [done|]. cbn [configure].
  rewrite IH. cbn [since_uring]. destruct (since_uring cs) as [[u cs']|]; [done|].
  by destruct c.
Qed.

(** A runtime is built as its builder was told. Whatever the order of the
    calls, the ring is asked for the last number of [entries], 256 without
    one, and by the last [uring_builder] with the polling set up since then;
    what was set up before it is lost. If the ring is refused, the error is
    returned, but the tokio runtime made before it stays behind. Otherwise
    the runtime has an idle driver with one handle for the wakes task. *)
Theorem runtime_new_spec cs cx alive :
  tokio_build = Ok tt ->
  runtime_new (slab := slab) (F := F) (configure cs builder) cx alive =
  match builder_build (asked_ring cs) (asked_entries cs), async_fd_new (F := F) with
  | Err e, _ => Ret (Err e, S alive)
  | Ok _, Err _ => Panic (PUnwrap "called `Result::unwrap()` on an `Err` value")
  | Ok r, Ok fd =>
      Ret (Ok (mkRuntime (mkWorld (mkRc 2 false (mkDriver ops_new r)) cx) fd true), S alive)
  end.
Proof.
  intros Ht. unfold runtime_new. rewrite Ht. unfold handle_new, driver_new.
  rewrite configure_entries, configure_urb. unfold asked_ring, asked_entries.
  cbn [builder urb entries]. destruct (default _ _) as [u cs'].
  destruct (builder_build _ _) as [r|e]; [|done]. cbn. unfold start_uring_wakes_task.
  by destruct async_fd_new as [fd|e].
Qed.
End event_loop.

(** * A concrete run: a scripted kernel behind an edge-triggered descriptor *)
Module Edge.
Record edge_ring : Type := EdgeRing { er_ring : script_ring; er_edge : bool }.
(** The ring after a call, the edge set if the call brought completions. *)
Definition lift (r : edge_ring) (u : script_ring) : edge_ring :=
  EdgeRing u (er_edge r || Nat.ltb (length (sk_cq (er_ring r))) (length (sk_cq u))).
#[export] Instance edge_uring : Uring edge_ring := {
  sq_push := fun e r => lift r <$> sq_push e (er_ring r);
  sq_push_multiple := fun es r => lift r <$> sq_push_multiple es (er_ring r);
  sq_is_empty := fun r => sq_is_empty (er_ring r);
  sq_sync := fun r => r;
  ring_submit := fun r => let '(x, u) := ring_submit (er_ring r) in (x, lift r u);
  ring_submit_and_wait := fun n r =>
    let '(x, u) := ring_submit_and_wait n (er_ring r) in (x, lift r u);
  cq_take := fun r => let '(cs, u) := cq_take (er_ring r) in (cs, EdgeRing u (er_edge r));
}.
#[export] Instance edge_epoll : Epoll edge_ring := fun r =>
  (er_edge r && match sk_cq (er_ring r) with [] => false | _ => true end,
   EdgeRing (er_ring r) false).
Definition edge_view (r : edge_ring) : cq_view := mkCq (sk_cq (er_ring r)) (er_edge r).

Lemma lift_posts r u cs :
  sk_cq u = sk_cq (er_ring r) ++ cs -> posts (edge_view r) (edge_view (lift r u)).
Proof.
  intros E. exists cs. split; [done|]. cbn. rewrite E, length_app. intros [->|Hcs]; [done|].
  apply orb_true_iff. right. apply Nat.ltb_lt. destruct cs; [done|cbn; lia].
Qed.
Lemma script_push_cq es r r' : script_push_multiple es r = Some r' -> sk_cq r' = sk_cq r ++ [].
Proof.
  unfold script_push_multiple. destruct (Nat.leb _ _); [|done]. intros [= <-].
  by rewrite app_nil_r.
Qed.
Lemma script_submit_cq r : exists cs, sk_cq (script_submit r).2 = sk_cq r ++ cs.
Proof.
  unfold script_submit. destruct (sk_script r) as [|[[n|e] cs] l]; cbn.
  - exists []. by rewrite app_nil_r.
  - by exists cs.
  - by exists cs.
Qed.
#[export] Instance edge_laws : EpollLaws edge_ring.
Proof.
  refine {| cq_of := edge_view |}; cbn.
  - intros e r r' (u & E & ->)%fmap_Some. eapply lift_posts, (script_push_cq [e]). exact E.
  - intros es r r' (u & E & ->)%fmap_Some. eapply lift_posts, script_push_cq. exact E.
  - intros r. apply posts_refl.
  - intros r. destruct (script_submit_cq (er_ring r)) as [cs E].
    destruct (script_submit (er_ring r)) as [x u]. by apply (lift_posts r u cs).
  - intros r. exists [], (er_edge r). rewrite app_nil_r. split; [done|apply posts_refl].
  - intros r. exists (edge_view r). split; [apply posts_refl|]. split; [|apply posts_refl].
    cbn. intros -> Hne. by destruct (sk_cq (er_ring r)).
Defined.

(** The settings are a record of what was asked. *)
Definition demo_builder : Type := list N.
#[export] Instance demo_uring_builder : UringBuilder demo_builder edge_ring := {
  builder_new := [];
  builder_setup_sqpoll := fun n b => n :: b;
  builder_build := fun b n =>
    if n =? 0 then Err (OsError 22)
    else Ok (EdgeRing (ScriptRing [] (N.to_nat n) [] [(Ok 1, [Cqe 0 7 0]); (Ok 1, [Cqe 1 7 0])]) false);
}.
#[export] Instance demo_builder_laws : BuilderLaws demo_builder edge_ring.
Proof. intros b n r E. cbn in E. destruct (n =? 0); by simplify_eq. Defined.

Record demo_fd : Type := DemoFd { df_ready : bool; df_waiting : option Waker }.
#[export] Instance demo_tokio : Tokio demo_fd unit := {
  tokio_build := Ok tt;
  async_fd_new := Ok (DemoFd false None);
  fd_readable := fun w f =>
    if df_ready f then (Ready (Ok tt), f) else (Pending, DemoFd false (Some w));
  fd_clear_ready := fun _ f => DemoFd false (df_waiting f);
  fd_set_ready := fun f =>
    (DemoFd true None, match df_waiting f with Some w => [w] | None => [] end);
}.
#[export] Instance demo_tokio_laws : TokioLaws demo_fd unit.
Proof.
  refine {| fd_ready := df_ready; fd_waiting := df_waiting; fd_current := fun _ _ => True |}; cbn.
  - intros w f E. rewrite E. by exists tt, f.
  - intros w f ->. by eexists.
  - done.
  - done.
  - by intros f [= <-].
  - intros w f ->. by apply list_elem_of_singleton.
Defined.

#[local] Existing Instance debug_profile.
Definition wakes : Waker := mkWaker 9 9.
Abbreviation Rt := (Runtime (slab := gmap N) (ring := edge_ring) (F := demo_fd)).

(** One entry in the queue of the ring: the second submission flushes the
    first one, whose completion arrives while the wakes task sleeps. *)
Definition config : Builder demo_builder := configure [SEntries 1] builder.
Definition steps : list (loop_event (slab := gmap N)) :=
  [LEnter; LPollWakes; LCall (CSubmit (build Nop)); LCall (CSubmit (build Nop))].
Fixpoint run_steps (s : Rt) (es : list (loop_event (slab := gmap N))) : outcome Rt :=
  match es with
  | [] => Ret s
  | e :: es => '(s, _) ← run_loop 3 wakes s e; run_steps s es
  end.
Definition begun : Rt :=
  match runtime_new (F := demo_fd) config context_new 0 with
  | Ret (Ok s, _) => s
  | _ => mkRuntime (mkWorld (mkRc 0 false (mkDriver ops_new (EdgeRing (ScriptRing [] 0 [] []) false)))
           context_new) (DemoFd false None) false
  end.
Definition asleep : Rt := match run_steps begun steps with Ret s => s | _ => begun end.

Fixpoint all_enabled (s : Rt) (es : list (loop_event (slab := gmap N))) : Prop :=
  match es with
  | [] => True
  | e :: es => loop_enabled s e /\
               match run_loop 3 wakes s e with Ret (s, _) => all_enabled s es | _ => True end
  end.
Lemma run_steps_reachable s es s' :
  loop_reachable 3 wakes config s -> all_enabled s es -> run_steps s es = Ret s' ->
  loop_reachable 3 wakes config s'.
Proof.
  revert s. induction es as [|e es IH]; intros s Hs He E; cbn in *; [by simplify_eq|].
  destruct He as [He Hes]. destruct (run_loop 3 wakes s e) as [[s1 w]| | |] eqn:E1; try done.
  cbn in E. apply (IH s1); [|exact Hes|exact E]. by eapply loop_steps.
Qed.
Lemma asleep_reachable : loop_reachable 3 wakes config asleep.
Proof.
  apply (run_steps_reachable begun steps).
  - apply (loop_starts _ _ _ _ 0%nat 1%nat). vm_compute. reflexivity.
  - vm_compute. repeat split; discriminate.
  - vm_compute. reflexivity.
Qed.

Lemma no_completion_stranded_witness :
  rt_scheduled asleep = false /\
  wakes ∈ snd (turn wakes asleep) /\ rt_scheduled (fst (turn wakes asleep)) = true.
Proof.
  split; [vm_compute; reflexivity|].
  destruct (no_completion_stranded 3 wakes config asleep asleep_reachable) as [_ H];
    [vm_compute; reflexivity|].
  specialize (H asleep (or_introl eq_refl)). destruct (turn wakes asleep) as [s1 woken].
  destruct H as (H1 & H2 & _); [vm_compute; discriminate|].
  split; [|exact H1]. apply H2. vm_compute. reflexivity.
Defined.

(** Two operations in flight, and their completions not yet dispatched. *)
Definition parked : Rt :=
  match run_steps asleep [LPark] with Ret s => s | _ => asleep end.
Definition one_op : World (slab := gmap N) (ring := edge_ring) -> outcome (World (slab := gmap N) (ring := edge_ring)) :=
  drop_oneshot (Some (mkInner unit unit 1 tt tt)).

Lemma shutdown_order_witness :
  exists w alive,
    ('(rt, _) ← leave 3 parked;
     drop_runtime 3 [drop_op_task (mkOp (T := unit) 0 (Some tt)); drop_wakes 3; one_op]
       (rt_world rt) 1) = Ret (w, alive) /\
    strong_count (w_rc w) = 0%nat /\ alive = 0%nat.
Proof.
  assert (Hr : loop_reachable 3 wakes config parked).
  { apply (run_steps_reachable asleep [LPark] parked asleep_reachable);
      [split; [vm_compute; reflexivity|]|vm_compute; reflexivity]. 
    by destruct (run_loop 3 wakes asleep LPark) as [[? ?]| | |]. }
  destruct (shutdown_order 3 wakes config parked [drop_op_task (mkOp (T := unit) 0 (Some tt))]
              [one_op] 1 Hr) as (E & _ & _).
  - vm_compute. reflexivity.
  - repeat constructor; [apply tidy_op|apply tidy_oneshot].
  - eexists _, _. split; [etransitivity; [exact E|vm_compute; reflexivity]|]. split; reflexivity.
Defined.

Lemma runtime_new_spec_witness :
  exists alive s,
    runtime_new (slab := gmap N) (F := demo_fd)
      (configure [SSqpoll 5; SEntries 8; SUring [3]; SSqpoll 7; SEntries 0] builder) context_new 0 =
      Ret (Err (OsError 22), alive) /\ alive = 1%nat /\
    runtime_new (slab := gmap N) (F := demo_fd) builder context_new 0 = Ret (Ok s, 1%nat).
Proof.
  eexists _, _. split; [|split; [reflexivity|]].
  - rewrite (runtime_new_spec (slab := gmap N) (F := demo_fd)) by reflexivity. reflexivity.
  - exact (runtime_new_spec (slab := gmap N) (F := demo_fd) [] context_new 0 eq_refl).
Defined.
End Edge.
