(* ===== verification/Buf.v ===== *)
(** [src/src/buf/]: buffers that are handed to the kernel.

    A buffer owns byte allocations; [Mem] is the heap of bytes, in which an
    address is allocated, and holds a byte or is not yet initialised. A Rust
    slice [&[u8]] is its fat pointer [(ptr, len)]. The functions whose
    [unsafe] contract can be broken by a caller have the outcome [Undefined]
    where it is. Sums of lengths are [usize] sums. *)
From S2P Require Import Prelude.
Abbreviation byte := Byte.byte.

(** * Memory *)
Abbreviation Mem := (gmap N (option byte)).
Record Ref : Type := mkRef { ref_ptr : N; ref_len : N }.

Fixpoint write_bytes (m : Mem) (ptr : N) (bs : list byte) : outcome Mem :=
  match bs with
  | [] => Ret m
  | b :: bs =>
      match m !! ptr with
      | None => Undefined "write outside an allocation"
      | Some _ => write_bytes (<[ptr := Some b]> m) (ptr + 1) bs
      end
  end.
Fixpoint read_bytes (m : Mem) (ptr : N) (n : nat) : outcome (list byte) :=
  match n with
  | O => Ret []
  | S n =>
      match m !! ptr with
      | Some (Some b) => bs ← read_bytes m (ptr + 1) n; Ret (b :: bs)
      | Some None => Undefined "read of an uninitialised byte"
      | None => Undefined "read outside an allocation"
      end
  end.

(** [&bytes[begin..end_]] on a fat pointer. *)
Definition subslice (r : Ref) (begin end_ : N) : outcome Ref :=
  if end_ <? begin then Panic (PIndex "slice index starts at .. but ends at ..")
  else if ref_len r <? end_ then Panic (PIndex "range end index out of range")
  else Ret (mkRef (ref_ptr r + begin) (end_ - begin)).

Fixpoint sum_usize {Prof : Profile} (l : list N) (acc : N) : outcome N :=
  match l with
  | [] => Ret acc
  | x :: l => acc ← add_usize acc x; sum_usize l acc
  end.

(** * [IoBuf] and [IoBufMut] *)
Class IoBuf (B : Type) : Type := {
  io_stable_ptr : B -> N;
  io_bytes_init : B -> outcome N;
  io_bytes_total : B -> outcome N;
}.
Class IoBufMut (B : Type) `{!IoBuf B} : Type := {
  io_stable_mut_ptr : B -> N;
  io_set_init : N -> B -> outcome B;
}.

(** [Vec<u8>] and [&'static [u8]] / [&'static str], by their raw parts. *)
Record VecU8 : Type := mkVec { v_ptr : N; v_len : N; v_cap : N }.
Record StaticBytes : Type := mkStatic { st_ptr : N; st_len : N }.

Definition set_len (n : N) (v : VecU8) : outcome VecU8 :=
  if n <=? v_cap v then Ret (mkVec (v_ptr v) n (v_cap v))
  else Undefined "Vec::set_len beyond the capacity".

#[export] Instance vec_io_buf : IoBuf VecU8 := {
  io_stable_ptr := v_ptr;
  io_bytes_init := fun v => Ret (v_len v);
  io_bytes_total := fun v => Ret (v_cap v);
}.
#[export] Instance vec_io_buf_mut : IoBufMut VecU8 := {
  io_stable_mut_ptr := v_ptr;
  io_set_init := fun init_len v => if v_len v <? init_len then set_len init_len v else Ret v;
}.
#[export] Instance static_io_buf : IoBuf StaticBytes := {
  io_stable_ptr := st_ptr;
  io_bytes_init := fun s => Ret (st_len s);
  io_bytes_total := fun s => Ret (st_len s);
}.
(** [&'static str] has an implementation of its own, which counts its bytes. *)
Record StaticStr : Type := mkStaticStr { ss_ptr : N; ss_len : N }.
#[export] Instance static_str_io_buf : IoBuf StaticStr := {
  io_stable_ptr := ss_ptr;
  io_bytes_init := fun s => Ret (ss_len s);
  io_bytes_total := fun s => Ret (ss_len s);
}.
(** [bytes::Bytes] and [bytes::BytesMut] of the crate [bytes], by the pointer,
    length and capacity that they report. *)
Record Bytes : Type := mkBytes { by_ptr : N; by_len : N }.
#[export] Instance bytes_io_buf : IoBuf Bytes := {
  io_stable_ptr := by_ptr;
  io_bytes_init := fun b => Ret (by_len b);
  io_bytes_total := fun b => Ret (by_len b);
}.
Record BytesMut : Type := mkBytesMut { bm_ptr : N; bm_len : N; bm_cap : N }.
Definition bytes_mut_set_len (n : N) (b : BytesMut) : outcome BytesMut :=
  if n <=? bm_cap b then Ret (mkBytesMut (bm_ptr b) n (bm_cap b))
  else Undefined "BytesMut::set_len beyond the capacity".
#[export] Instance bytes_mut_io_buf : IoBuf BytesMut := {
  io_stable_ptr := bm_ptr;
  io_bytes_init := fun b => Ret (bm_len b);
  io_bytes_total := fun b => Ret (bm_cap b);
}.
#[export] Instance bytes_mut_io_buf_mut : IoBufMut BytesMut := {
  io_stable_mut_ptr := bm_ptr;
  io_set_init := fun init_len b => if bm_len b <? init_len then bytes_mut_set_len init_len b else Ret b;
}.

(** [deref] and [deref_mut] of [buf/mod.rs]. *)
Definition deref `{!IoBuf B} (b : B) : outcome Ref :=
  n ← io_bytes_init b; Ret (mkRef (io_stable_ptr b) n).
Definition deref_mut `{!IoBuf B} `{!IoBufMut B} (b : B) : outcome Ref :=
  n ← io_bytes_init b; Ret (mkRef (io_stable_mut_ptr b) n).

(** * [BoundedBuf] and [Slice] *)

(** [ops::Bound] and [ops::RangeBounds<usize>]. *)
Inductive Bound : Type := Included (n : N) | Excluded (n : N) | Unbounded.
Record RangeBounds : Type := mkRange { start_bound : Bound; end_bound : Bound }.

Record Slice (T : Type) : Type := mkSlice { sl_buf : T; sl_begin : N; sl_end : N }.
Arguments mkSlice {T} sl_buf sl_begin sl_end.
Arguments sl_buf {T} _.
Arguments sl_begin {T} _.
Arguments sl_end {T} _.

Definition slice_new {T} (buf : T) (begin end_ : N) : Slice T := mkSlice buf begin end_.
Definition slice_begin {T} (s : Slice T) : N := sl_begin s.
Definition slice_end {T} (s : Slice T) : N := sl_end s.
Definition slice_get_ref {T} (s : Slice T) : T := sl_buf s.
Definition slice_get_mut {T} (f : T -> T) (s : Slice T) : Slice T :=
  mkSlice (f (sl_buf s)) (sl_begin s) (sl_end s).
Definition slice_into_inner {T} (s : Slice T) : T := sl_buf s.

Definition out_of_range {A} (o : option A) : outcome A := unwrap "out of range" o.

(** [impl Deref for Slice], [impl DerefMut for Slice]. *)
Definition slice_deref `{!IoBuf T} (s : Slice T) : outcome Ref :=
  bytes ← deref (sl_buf s);
  subslice bytes (sl_begin s) (N.min (sl_end s) (ref_len bytes)).
Definition slice_deref_mut `{!IoBuf T} `{!IoBufMut T} (s : Slice T) : outcome Ref :=
  bytes ← deref_mut (sl_buf s);
  subslice bytes (sl_begin s) (N.min (sl_end s) (ref_len bytes)).

(** [trait BoundedBuf]: [V] is the view, [T] the underlying buffer. *)
Class BoundedBuf (V T Bounds : Type) : Type := {
  slice : RangeBounds -> V -> outcome (Slice T);
  slice_full : V -> outcome (Slice T);
  get_buf : V -> T;
  bounds : V -> Bounds;
  from_buf_bounds : T -> Bounds -> outcome V;
  stable_ptr : V -> outcome N;
  bytes_init : V -> outcome N;
  bytes_total : V -> outcome N;
}.
Class BoundedBufMut (V T Bounds : Type) `{!BoundedBuf V T Bounds} : Type := {
  stable_mut_ptr : V -> outcome N;
  set_init : N -> V -> outcome V;
}.

(** [impl<T: IoBuf> BoundedBuf for T]. *)
Definition buf_slice `{!IoBuf T} (range : RangeBounds) (self : T) : outcome (Slice T) :=
  begin ← match start_bound range with
          | Included n => Ret n
          | Excluded n => out_of_range (checked_add n 1)
          | Unbounded => Ret 0
          end;
  total ← io_bytes_total self;
  _ ← assert (begin <? total) "begin < self.bytes_total()";
  end_ ← match end_bound range with
         | Included n => out_of_range (checked_add n 1)
         | Excluded n => Ret n
         | Unbounded => Ret total
         end;
  _ ← assert (end_ <=? total) "end <= self.bytes_total()";
  init ← io_bytes_init self;
  _ ← assert (begin <=? init) "begin <= self.bytes_init()";
  Ret (slice_new self begin end_).

#[export] Instance io_buf_bounded `{!IoBuf T} : BoundedBuf T T unit := {
  slice := buf_slice;
  slice_full := fun self => end_ ← io_bytes_total self; Ret (slice_new self 0 end_);
  get_buf := fun self => self;
  bounds := fun _ => tt;
  from_buf_bounds := fun buf _ => Ret buf;
  stable_ptr := fun self => Ret (io_stable_ptr self);
  bytes_init := fun self => io_bytes_init self;
  bytes_total := fun self => io_bytes_total self;
}.
#[export] Instance io_buf_mut_bounded `{!IoBuf T} `{!IoBufMut T} : BoundedBufMut T T unit := {
  stable_mut_ptr := fun self => Ret (io_stable_mut_ptr self);
  set_init := fun pos self => io_set_init pos self;
}.

(** [impl BoundedBuf for Slice]. *)
Definition slice_slice `{!IoBuf T} (range : RangeBounds) (self : Slice T) : outcome (Slice T) :=
  begin ← match start_bound range with
          | Included n => out_of_range (checked_add (sl_begin self) n)
          | Excluded n => out_of_range (x ← checked_add (sl_begin self) n; checked_add x 1)
          | Unbounded => Ret (sl_begin self)
          end;
  _ ← assert (begin <=? sl_end self) "begin <= self.end";
  end_ ← match end_bound range with
         | Included n => out_of_range (x ← checked_add (sl_begin self) n; checked_add x 1)
         | Excluded n => out_of_range (checked_add (sl_begin self) n)
         | Unbounded => Ret (sl_end self)
         end;
  _ ← assert (end_ <=? sl_end self) "end <= self.end";
  init ← io_bytes_init (sl_buf self);
  _ ← assert (begin <=? init) "begin <= self.buf.bytes_init()";
  Ret (slice_new (sl_buf self) begin end_).

(** [deref(&self.buf)[self.begin..].as_ptr()]. *)
Definition tail_ptr (bytes : Ref) (begin : N) : outcome N :=
  r ← subslice bytes begin (ref_len bytes); Ret (ref_ptr r).

#[export] Instance slice_bounded {Prof : Profile} `{!IoBuf T} :
    BoundedBuf (Slice T) T (N * N) := {
  slice := slice_slice;
  slice_full := fun self => Ret self;
  get_buf := fun self => sl_buf self;
  bounds := fun self => (sl_begin self, sl_end self);
  from_buf_bounds := fun buf '(start, end_) =>
    init ← io_bytes_init buf;
    _ ← assert (start <=? init) "bounds.start <= buf.bytes_init()";
    total ← io_bytes_total buf;
    _ ← assert (end_ <=? total) "bounds.end <= buf.bytes_total()";
    Ret (slice_new buf start end_);
  stable_ptr := fun self => bytes ← deref (sl_buf self); tail_ptr bytes (sl_begin self);
  bytes_init := fun self => r ← slice_deref self; Ret (ref_len r);
  bytes_total := fun self => sub_usize (sl_end self) (sl_begin self);
}.
#[export] Instance slice_bounded_mut {Prof : Profile} `{!IoBuf T} `{!IoBufMut T} :
    BoundedBufMut (Slice T) T (N * N) := {
  stable_mut_ptr := fun self => bytes ← deref_mut (sl_buf self); tail_ptr bytes (sl_begin self);
  set_init := fun pos self =>
    p ← add_usize (sl_begin self) pos;
    buf ← io_set_init p (sl_buf self);
    Ret (slice_new buf (sl_begin self) (sl_end self));
}.

(** [BoundedBufMut::put_slice]. *)
Definition put_slice `{!BoundedBuf V T Bounds} `{!BoundedBufMut V T Bounds}
    (src : list byte) (self : V) (m : Mem) : outcome (V * Mem) :=
  total ← bytes_total self;
  _ ← assert (N.of_nat (length src) <=? total) "self.bytes_total() >= src.len()";
  dst ← stable_mut_ptr self;
  m ← write_bytes m dst src;
  self ← set_init (N.of_nat (length src)) self;
  Ret (self, m).
