(* ===== verification/Buffer.v ===== *)
(** [src/src/buf/mod.rs]: [Buffer], the type-erased owner of one or several
    allocations that every operation on files and sockets takes.

    [TypeId]s and the boxed user data are tagged values, so that the casts of
    the raw [user_data] pointer are visible: a cast to the wrong type is
    [Undefined]. What dropping a value releases is a list of [effect]s. *)
From S2P Require Import Prelude Buf.

Record iovec : Type := mkIovec { iov_base : N; iov_len : N }.

(** [pool::PoolInfo] and [registry::RegistryInfo]: the shared collection, by
    its address, and the index of the buffer in it. *)
Record PoolInfo : Type := mkPoolInfo { pi_pool : N; pi_index : N }.
Record RegistryInfo : Type := mkRegistryInfo { ri_registry : N; ri_index : N }.

Inductive TypeId : Type := TyVec | TyVecVec | TyPoolFixedBuf | TyRegistryFixedBuf | TyOther (n : N).
#[export] Instance TypeId_eq_dec : EqDecision TypeId.
Proof. solve_decision. Defined.

Inductive UserData : Type :=
  | UdUnit
  | UdPool (info : PoolInfo)
  | UdRegistry (info : RegistryInfo)
  | UdOther (n : N).

(** [*(user_data as *const PoolInfo)], [*(user_data as *const RegistryInfo)]. *)
Definition as_pool_info (u : UserData) : outcome PoolInfo :=
  match u with UdPool i => Ret i | _ => Undefined "cast of the user data" end.
Definition as_registry_info (u : UserData) : outcome RegistryInfo :=
  match u with UdRegistry i => Ret i | _ => Undefined "cast of the user data" end.

Inductive effect : Type :=
  | Dealloc (v : VecU8)
  | PoolCheckIn (pool index init_len : N)
  | RegistryCheckIn (registry index init_len : N).

Definition raw_parts : Type := list N * list N * list N * UserData.

(** [unsafe trait BufferImpl]. *)
Class BufferImpl (B : Type) : Type := {
  impl_type_id : TypeId;
  into_raw_parts : B -> outcome raw_parts;
  from_raw_parts : list N -> list N -> list N -> UserData -> outcome B;
  drop_value : B -> list effect;
}.
Arguments impl_type_id B {_}.

(** The contract of the trait. *)
Class BufferImplLaws (B : Type) `{!BufferImpl B} : Prop :=
  from_into_raw_parts b ptrs lens caps u :
    into_raw_parts b = Ret (ptrs, lens, caps, u) ->
    length ptrs = length lens /\ from_raw_parts ptrs lens caps u = Ret b.

(** [impl BufferImpl for Vec<u8>]. *)
Definition index_vec {A} (l : list A) (i : nat) : outcome A :=
  or_panic (PIndex "index out of bounds") (l !! i).

Definition vec_into_raw_parts (v : VecU8) : outcome raw_parts :=
  Ret ([v_ptr v], [v_len v], [v_cap v], UdUnit).
Definition vec_from_raw_parts (ptr len cap : list N) (u : UserData) : outcome VecU8 :=
  p ← index_vec ptr 0; n ← index_vec len 0; c ← index_vec cap 0; Ret (mkVec p n c).

#[export] Instance vec_buffer_impl : BufferImpl VecU8 := {
  impl_type_id := TyVec;
  into_raw_parts := vec_into_raw_parts;
  from_raw_parts := vec_from_raw_parts;
  drop_value := fun v => [Dealloc v];
}.

(** [impl BufferImpl for Vec<Vec<u8>>]. *)
Fixpoint vecs_parts (vs : list VecU8) : list N * list N * list N :=
  match vs with
  | [] => ([], [], [])
  | v :: vs =>
      let '(ptr, len, cap) := vecs_parts vs in
      (v_ptr v :: ptr, v_len v :: len, v_cap v :: cap)
  end.
Definition vecs_into_raw_parts (vs : list VecU8) : outcome raw_parts :=
  Ret (vecs_parts vs, UdUnit).
Fixpoint vecs_from_raw_parts (ptr len cap : list N) : list VecU8 :=
  match ptr, len, cap with
  | p :: ptr, n :: len, c :: cap => mkVec p n c :: vecs_from_raw_parts ptr len cap
  | _, _, _ => []
  end.

#[export] Instance vecs_buffer_impl : BufferImpl (list VecU8) := {
  impl_type_id := TyVecVec;
  into_raw_parts := vecs_into_raw_parts;
  from_raw_parts := fun ptr len cap _ => Ret (vecs_from_raw_parts ptr len cap);
  drop_value := fun vs => Dealloc <$> vs;
}.

(** * [Buffer] *)

(** [iovec_ptr] is the address of the array of [iovec]s itself. *)
Record Buffer : Type := mkBuffer {
  iovec_ptr : N;
  iovecs : list iovec;
  caps : list N;
  user_data : UserData;
  ty : TypeId;
  dtor : list N -> list N -> list N -> UserData -> outcome (list effect);
}.

Definition with_iovecs (l : list iovec) (b : Buffer) : Buffer :=
  mkBuffer (iovec_ptr b) l (caps b) (user_data b) (ty b) (dtor b).

(** [Buffer::new]; [addr] is where the array is allocated. *)
Definition buffer_new `{!BufferImpl B} (addr : N) (buf : B) : outcome Buffer :=
  '(ptr, len, cap, u) ← into_raw_parts buf;
  Ret (mkBuffer addr (zip_with mkIovec ptr len) cap u (impl_type_id B)
         (fun ptr len cap u => b ← from_raw_parts (B := B) ptr len cap u; Ret (drop_value b))).

(** [Buffer::try_into]. *)
Definition try_into (B : Type) `{!BufferImpl B} (self : Buffer) : outcome (result B Buffer) :=
  if decide (ty self <> impl_type_id B) then Ret (Err self)
  else
    b ← from_raw_parts (iov_base <$> iovecs self) (iov_len <$> iovecs self) (caps self)
          (user_data self);
    Ret (Ok b).

(** [impl Drop for Buffer]. *)
Definition drop_buffer (self : Buffer) : outcome (list effect) :=
  dtor self (iov_base <$> iovecs self) (iov_len <$> iovecs self) (caps self) (user_data self).

Definition buffer_len (self : Buffer) : nat := length (iovecs self).
Definition buffer_is_empty (self : Buffer) : bool := Nat.eqb (buffer_len self) 0.
Definition buffer_iter (self : Buffer) : list iovec := iovecs self.
Definition buffer_user_data (self : Buffer) : UserData := user_data self.
Definition buffer_type_id (self : Buffer) : TypeId := ty self.

(** The loops over [zip(&mut self.iovec, &self.cap)]. *)
Fixpoint fill_iovecs (vs : list iovec) (cs : list N) : list iovec :=
  match vs, cs with
  | v :: vs, c :: cs => mkIovec (iov_base v) c :: fill_iovecs vs cs
  | _, _ => vs
  end.
Definition fill (self : Buffer) : Buffer :=
  with_iovecs (fill_iovecs (iovecs self) (caps self)) self.

Section buffer.
Context {Prof : Profile}.

Fixpoint set_init_iovecs (vs : list iovec) (cs : list N) (pos : N) : outcome (list iovec) :=
  match vs, cs with
  | v :: vs, c :: cs =>
      let size := N.min c pos in
      pos ← sub_usize pos size;
      vs ← set_init_iovecs vs cs pos;
      Ret (mkIovec (iov_base v) size :: vs)
  | _, _ => Ret vs
  end.

(** [if self.iovec.len() == 1 { iov_base } else { self.iovec.as_ptr() }]. *)
Definition buffer_stable_ptr (self : Buffer) : N :=
  match iovecs self with
  | [v] => iov_base v
  | _ => iovec_ptr self
  end.

#[export] Instance buffer_io_buf : IoBuf Buffer := {
  io_stable_ptr := buffer_stable_ptr;
  io_bytes_init := fun self => sum_usize (iov_len <$> iovecs self) 0;
  io_bytes_total := fun self => sum_usize (caps self) 0;
}.
#[export] Instance buffer_io_buf_mut : IoBufMut Buffer := {
  io_stable_mut_ptr := buffer_stable_ptr;
  io_set_init := fun pos self =>
    vs ← set_init_iovecs (iovecs self) (caps self) pos; Ret (with_iovecs vs self);
}.
End buffer.

(** [impl Index for Buffer]: the bytes that [&buffer[i]] refers to. *)
Definition buffer_index (i : nat) (self : Buffer) (m : Mem) : outcome (list byte) :=
  v ← index_vec (iovecs self) i; read_bytes m (iov_base v) (N.to_nat (iov_len v)).

(** [buffer[i][j] = b] through [impl IndexMut for Buffer]. *)
Definition buffer_index_mut (i : nat) (j : N) (b : byte) (self : Buffer) (m : Mem) : outcome Mem :=
  v ← index_vec (iovecs self) i;
  _ ← read_bytes m (iov_base v) (N.to_nat (iov_len v));
  if j <? iov_len v then write_bytes m (iov_base v + j) [b]
  else Panic (PIndex "index out of bounds").
