(* ===== verification/BufSpec.v ===== *)
(** Properties of buffers: which ranges [slice] accepts and what the views
    cover, how many bytes count as initialised, and that the type-erased
    [Buffer] gives back exactly what it was made from. *)
From S2P Require Import Prelude Buf Buffer.

(** * Views *)

(** The first index of a range, and the one past its last, in a view of size
    [total] that starts at [base]; [None] when it overflows [usize]. *)
Definition range_begin (base : N) (r : RangeBounds) : option N :=
  match start_bound r with
  | Included n => checked_add base n
  | Excluded n => x ← checked_add base n; checked_add x 1
  | Unbounded => Some base
  end.
Definition range_end (base last : N) (r : RangeBounds) : option N :=
  match end_bound r with
  | Included n => x ← checked_add base n; checked_add x 1
  | Excluded n => checked_add base n
  | Unbounded => Some last
  end.

Definition small_bounds (r : RangeBounds) : Prop :=
  match start_bound r with Included n | Excluded n => n <= usize_max | Unbounded => True end /\
  match end_bound r with Included n | Excluded n => n <= usize_max | Unbounded => True end.

(** A buffer whose lengths are known. *)
Definition measures `{!IoBuf T} (b : T) (init total : N) : Prop :=
  io_bytes_init b = Ret init /\ io_bytes_total b = Ret total.

Lemma checked_add_0_l n : n <= usize_max -> checked_add 0 n = Some n.
Proof. intros. apply checked_add_Some. lia. Qed.

Lemma assert_Ret b msg u : assert b msg = Ret u <-> b = true.
Proof. destruct b, u; cbn; by split. Qed.

Lemma range_begin_0 r :
  small_bounds r ->
  range_begin 0 r = match start_bound r with
                    | Included n => Some n
                    | Excluded n => checked_add n 1
                    | Unbounded => Some 0
                    end.
Proof.
  intros [H _]. unfold range_begin. destruct (start_bound r); [..|done];
    rewrite checked_add_0_l by done; done.
Qed.

Lemma range_end_0 total r :
  small_bounds r ->
  range_end 0 total r = match end_bound r with
                        | Included n => checked_add n 1
                        | Excluded n => Some n
                        | Unbounded => Some total
                        end.
Proof.
  intros [_ H]. unfold range_end. destruct (end_bound r); [..|done];
    rewrite checked_add_0_l by done; done.
Qed.

Lemma out_of_range_Ret {A} (o : option A) x : out_of_range o = Ret x <-> o = Some x.
Proof. destruct o; cbn; split; congruence. Qed.

(** [slice] on a buffer, with its range read off first. *)
Lemma buf_slice_ranges `{!IoBuf T} (r : RangeBounds) (b : T) init total :
  small_bounds r -> measures b init total ->
  buf_slice r b =
    (begin ← out_of_range (range_begin 0 r);
     _ ← assert (begin <? total) "begin < self.bytes_total()";
     end_ ← out_of_range (range_end 0 total r);
     _ ← assert (end_ <=? total) "end <= self.bytes_total()";
     _ ← assert (begin <=? init) "begin <= self.bytes_init()";
     Ret (mkSlice b begin end_)).
Proof.
  intros Hr [Hi Ht]. rewrite range_begin_0, range_end_0 by done. unfold buf_slice.
  rewrite Hi, Ht. cbn [mbind outcome_bind].
  by destruct (start_bound r), (end_bound r).
Qed.

Lemma slice_accepts_if `{!IoBuf T} (r : RangeBounds) (b : T) init total begin end_ :
  small_bounds r -> measures b init total ->
  range_begin 0 r = Some begin -> range_end 0 total r = Some end_ ->
  begin < total -> begin <= init -> end_ <= total -> buf_slice r b = Ret (mkSlice b begin end_).
Proof.
  intros Hr Hm Hb He H1%N.ltb_lt H2%N.leb_le H3%N.leb_le.
  rewrite (buf_slice_ranges _ _ _ _ Hr Hm), Hb, He. cbn. by rewrite H1, H2, H3.
Qed.

(** Exactly which ranges [slice] accepts on a buffer: those whose bounds
    do not overflow, start below the total size and not beyond the
    initialised part, and end within the buffer. Everything else panics, the
    empty range at the end of a full buffer included. Nothing compares the two
    bounds with each other. *)
Lemma slice_accepts `{!IoBuf T} (r : RangeBounds) (b : T) init total s :
  small_bounds r -> measures b init total ->
  buf_slice r b = Ret s <->
  exists begin end_, range_begin 0 r = Some begin /\ range_end 0 total r = Some end_ /\
    begin < total /\ begin <= init /\ end_ <= total /\ s = mkSlice b begin end_.
Proof.
  intros Hr Hm. split.
  - rewrite (buf_slice_ranges _ _ _ _ Hr Hm). intros (bg & Hb%out_of_range_Ret & E)%bind_Ret.
    apply bind_Ret in E as (? & A1%assert_Ret%N.ltb_lt & E).
    apply bind_Ret in E as (en & He%out_of_range_Ret & E).
    apply bind_Ret in E as (? & A2%assert_Ret%N.leb_le & E).
    apply bind_Ret in E as (? & A3%assert_Ret%N.leb_le & E).
    injection E as <-. exists bg, en. by split_and!.
  - intros (bg & en & ? & ? & ? & ? & ? & ->). by eapply slice_accepts_if.
Qed.

(** A well-formed view: within the buffer and not reversed. *)
Record view_ok `{!IoBuf T} (s : Slice T) (init total : N) : Prop := {
  view_measures : measures (sl_buf s) init total;
  view_init : init <= total;
  view_begin : sl_begin s <= init;
  view_order : sl_begin s <= sl_end s;
  view_end : sl_end s <= total;
}.

Lemma subslice_Ret r b e :
  b <= e -> e <= ref_len r -> subslice r b e = Ret (mkRef (ref_ptr r + b) (e - b)).
Proof.
  intros Hb He. unfold subslice.
  rewrite (proj2 (N.ltb_ge e b)) by done. by rewrite (proj2 (N.ltb_ge _ _)).
Qed.
Lemma view_ptr {Prof : Profile} `{!IoBuf T} (s : Slice T) init total :
  view_ok s init total -> stable_ptr s = Ret (io_stable_ptr (sl_buf s) + sl_begin s).
Proof.
  intros [[Hi Ht] ? ? ? ?]. cbn. unfold deref, tail_ptr. rewrite Hi. cbn.
  by rewrite subslice_Ret.
Qed.
Lemma view_shown {Prof : Profile} `{!IoBuf T} (s : Slice T) init total :
  view_ok s init total -> bytes_init s = Ret (N.min (sl_end s) init - sl_begin s).
Proof.
  intros [[Hi Ht] ? ? ? ?]. cbn. unfold slice_deref, deref. rewrite Hi. cbn.
  rewrite subslice_Ret; cbn; [done|lia..].
Qed.
Lemma view_size {Prof : Profile} `{!IoBuf T} (s : Slice T) init total :
  view_ok s init total -> bytes_total s = Ret (sl_end s - sl_begin s).
Proof. intros []. cbn. by rewrite sub_usize_Ret. Qed.

(** What a view covers. A view inside its buffer, whose bounds are in
    order, starts at the buffer's address plus its begin, spans end - begin
    bytes, and its initialised bytes are the part of the buffer's initialised
    prefix that falls into it, so never more than the view's size. *)
Theorem slice_covers {Prof : Profile} `{!IoBuf T} (s : Slice T) init total :
  view_ok s init total ->
  stable_ptr s = Ret (io_stable_ptr (sl_buf s) + sl_begin s) /\
  bytes_total s = Ret (sl_end s - sl_begin s) /\
  bytes_init s = Ret (N.min (sl_end s) init - sl_begin s) /\
  N.min (sl_end s) init - sl_begin s <= sl_end s - sl_begin s.
Proof.
  intros Hv. split_and!; [by eapply view_ptr|by eapply view_size|by apply view_shown with total|].
  destruct Hv. lia.
Qed.

(** A reversed view is accepted and then has no size. A range with
    begin > end passes every check of [slice]; the size of the resulting view
    is computed by a subtraction that underflows: it panics when overflow
    checks are on and is close to [usize::MAX] when they are off. *)
Theorem slice_reversed {Prof : Profile} `{!IoBuf T} (b : T) init total begin end_ :
  measures b init total -> end_ < begin -> begin < total -> begin <= init -> total <= usize_max ->
  exists s, buf_slice (mkRange (Included begin) (Excluded end_)) b = Ret s /\
    bytes_total s = (if overflow_checks
                     then Panic (POverflow "attempt to subtract with overflow")
                     else Ret (usize_max + 1 - (begin - end_))).
Proof.
  intros H ? ? ? ?. exists (mkSlice b begin end_). split.
  - eapply (slice_accepts_if _ _ init total); [by split; cbn; lia|done|..|done|done|lia];
      unfold range_begin, range_end; cbn; by rewrite !checked_add_0_l by lia.
  - cbn. unfold sub_usize. rewrite (proj2 (N.leb_gt _ _)) by done.
    destruct overflow_checks; [done|]. f_equal. unfold usize_max in *. lia.
Qed.

(** A view of a view stays inside it: the new bounds lie between the old
    ones, and the buffer is the same. *)
Theorem slice_slice_within `{!IoBuf T} (r : RangeBounds) (s s' : Slice T) :
  slice_slice r s = Ret s' ->
  sl_buf s' = sl_buf s /\ range_begin (sl_begin s) r = Some (sl_begin s') /\
  range_end (sl_begin s) (sl_end s) r = Some (sl_end s') /\
  sl_begin s <= sl_begin s' <= sl_end s /\ sl_end s' <= sl_end s.
Proof.
  unfold slice_slice. intros (bg & Hb & E)%bind_Ret. apply bind_Ret in E as (u & A1 & E).
  apply assert_Ret, N.leb_le in A1. apply bind_Ret in E as (en & He & E).
  apply bind_Ret in E as (u2 & A2 & E). apply assert_Ret, N.leb_le in A2.
  apply bind_Ret in E as (init & Hi & E). apply bind_Ret in E as (u3 & A3 & E).
  injection E as <-. cbn. unfold range_begin, range_end.
  assert (Ho : forall (o : option N) n, out_of_range o = Ret n -> o = Some n).
  { intros. by apply out_of_range_Ret. }
  split_and!; [done| | | |done|done].
  - destruct (start_bound r); [by apply Ho..|by injection Hb as <-].
  - destruct (end_bound r); [by apply Ho..|by injection He as <-].
  - destruct (start_bound r) as [n|n|].
    + apply Ho, checked_add_Some in Hb. lia.
    + apply Ho in Hb. destruct (checked_add (sl_begin s) n) eqn:E; [|done].
      apply checked_add_Some in E. cbn in Hb. apply checked_add_Some in Hb. lia.
    + injection Hb as <-. lia.
Qed.

(** ** What a view shows *)

(** The bytes of a view: [&slice[..]]. *)
Definition view_bytes `{!IoBuf T} (m : Mem) (s : Slice T) : outcome (list byte) :=
  r ← slice_deref s; read_bytes m (ref_ptr r) (N.to_nat (ref_len r)).

(** Calling [slice] again and again. *)
Fixpoint slice_again `{!IoBuf T} (rs : list RangeBounds) (s : Slice T) : outcome (Slice T) :=
  match rs with
  | [] => Ret s
  | r :: rs => s ← slice_slice r s; slice_again rs s
  end.

(** A range of a list that is the initialised part of [n] bytes: where it
    begins and ends, whether it is reversed, and what it leaves. *)
Definition range_from (r : RangeBounds) : N := default 0 (range_begin 0 r).
Definition range_to (r : RangeBounds) (n : N) : N := default n (range_end 0 n r).
Definition cut (r : RangeBounds) (n : N) (bs : list byte) : list byte :=
  take (N.to_nat (range_to r n - range_from r)) (drop (N.to_nat (range_from r)) bs).
Fixpoint in_order (rs : list RangeBounds) (n : N) : Prop :=
  match rs with
  | [] => True
  | r :: rs => range_from r <= range_to r n /\ in_order rs (range_to r n - range_from r)
  end.
Fixpoint cuts (rs : list RangeBounds) (n : N) (bs : list byte) : list byte :=
  match rs with
  | [] => bs
  | r :: rs => cuts rs (range_to r n - range_from r) (cut r n bs)
  end.

Lemma read_bytes_part m ptr n bs k j :
  read_bytes m ptr n = Ret bs -> (k + j <= n)%nat ->
  read_bytes m (ptr + N.of_nat k) j = Ret (take j (drop k bs)).
Proof.
  revert ptr bs k j. induction n as [|n IH]; intros ptr bs k j E H.
  { assert (k = 0%nat) as -> by lia. by assert (j = 0%nat) as -> by lia. }
  cbn [read_bytes] in E. destruct (m !! ptr) as [[x|]|] eqn:Ex; try done.
  apply bind_Ret in E as (bs' & E & E'). simplify_eq. destruct k as [|k].
  - destruct j as [|j]; [done|]. cbn [read_bytes N.of_nat drop take]. rewrite N.add_0_r, Ex.
    pose proof (IH (ptr + 1) bs' 0%nat j E) as H0. rewrite N.add_0_r in H0. by rewrite H0 by lia.
  - cbn [drop]. rewrite <- (IH (ptr + 1) bs' k j E) by lia. f_equal. lia.
Qed.
Lemma read_bytes_length m ptr n bs : read_bytes m ptr n = Ret bs -> length bs = n.
Proof.
  revert ptr bs. induction n as [|n IH]; intros ptr bs E; cbn in E; [by simplify_eq|].
  destruct (m !! ptr) as [[x|]|]; try done. apply bind_Ret in E as (bs' & E & E'). simplify_eq.
  cbn. f_equal. by eapply IH.
Qed.

(** A view inside its buffer shows its part of the initialised bytes. *)
Lemma view_bytes_spec `{!IoBuf T} m (s : Slice T) init total bs :
  view_ok s init total -> read_bytes m (io_stable_ptr (sl_buf s)) (N.to_nat init) = Ret bs ->
  view_bytes m s = Ret (take (N.to_nat (sl_end s - sl_begin s)) (drop (N.to_nat (sl_begin s)) bs)).
Proof.
  intros [[Hi Ht] ? ? ? ?] E. pose proof (read_bytes_length _ _ _ _ E) as Hl.
  unfold view_bytes, slice_deref, deref. rewrite Hi. cbn [mbind outcome_bind ref_len].
  rewrite subslice_Ret by (cbn; lia). cbn [mbind outcome_bind ref_ptr ref_len].
  rewrite <- (N2Nat.id (sl_begin s)) at 1. rewrite (read_bytes_part _ _ _ _ _ _ E) by lia.
  destruct (N.le_ge_cases (sl_end s) init); [by rewrite N.min_l|].
  rewrite N.min_r by done. rewrite !take_ge; [done|rewrite length_drop; lia..].
Qed.

(** The bounds of a range, counted from the start of a view. *)
Lemma range_begin_shift base r x :
  small_bounds r -> range_begin base r = Some x -> x = base + range_from r.
Proof.
  intros Hr. unfold range_from. rewrite range_begin_0 by done. destruct Hr as [Hr _].
  unfold range_begin. destruct (start_bound r) as [n|n|]; cbn.
  - by intros [-> _]%checked_add_Some.
  - destruct (checked_add base n) as [y|] eqn:E; [|done]. apply checked_add_Some in E as [-> ?].
    cbn. intros [-> ?]%checked_add_Some.
    assert (checked_add n 1 = Some (n + 1)) as -> by (apply checked_add_Some; lia). cbn. lia.
  - intros [= <-]. lia.
Qed.
Lemma range_end_shift base last r y :
  small_bounds r -> base <= last -> range_end base last r = Some y ->
  y = base + range_to r (last - base).
Proof.
  intros Hr Hb. unfold range_to. rewrite range_end_0 by done. destruct Hr as [_ Hr].
  unfold range_end. destruct (end_bound r) as [n|n|]; cbn.
  - destruct (checked_add base n) as [x|] eqn:E; [|done]. apply checked_add_Some in E as [-> ?].
    cbn. intros [-> ?]%checked_add_Some.
    assert (checked_add n 1 = Some (n + 1)) as -> by (apply checked_add_Some; lia). cbn. lia.
  - by intros [-> _]%checked_add_Some.
  - intros [= <-]. lia.
Qed.

Lemma slice_slice_view `{!IoBuf T} (r : RangeBounds) (s s' : Slice T) init total :
  view_ok s init total -> small_bounds r -> slice_slice r s = Ret s' ->
  range_from r <= range_to r (sl_end s - sl_begin s) ->
  sl_buf s' = sl_buf s /\ view_ok s' init total /\ sl_begin s' = sl_begin s + range_from r /\
  sl_end s' = sl_begin s + range_to r (sl_end s - sl_begin s).
Proof.
  intros [[Hi Ht] ? ? ? ?] Hr E Ho.
  destruct (slice_slice_within r s s' E) as (Hb & Hbg & Hen & ? & ?).
  apply range_begin_shift in Hbg; [|done]. apply range_end_shift in Hen; [|done..].
  split_and!; [done| |done..]. split; rewrite ?Hb; [done|done| |lia|lia].
  unfold slice_slice in E. apply bind_Ret in E as (bg & _ & E). apply bind_Ret in E as (u & _ & E).
  apply bind_Ret in E as (en & _ & E). apply bind_Ret in E as (u2 & _ & E).
  apply bind_Ret in E as (i & Hi' & E). rewrite Hi in Hi'. simplify_eq.
  apply bind_Ret in E as (u3 & A3%assert_Ret%N.leb_le & E). by injection E as <-.
Qed.

Lemma slice_again_reads `{!IoBuf T} m (rs : list RangeBounds) (s s' : Slice T) init total bs :
  view_ok s init total -> read_bytes m (io_stable_ptr (sl_buf s)) (N.to_nat init) = Ret bs ->
  Forall small_bounds rs -> in_order rs (sl_end s - sl_begin s) -> slice_again rs s = Ret s' ->
  view_ok s' init total /\ view_bytes m s' = (x ← view_bytes m s; Ret (cuts rs (sl_end s - sl_begin s) x)).
Proof.
  intros Hv Hm Hs. revert s Hv Hm. induction Hs as [|r rs Hr Hs IH]; intros s Hv Hm Ho E; cbn in E.
  { simplify_eq. split; [done|]. by destruct (view_bytes m s'). }
  destruct Ho as [Ho Ho']. apply bind_Ret in E as (s1 & E1 & E).
  destruct (slice_slice_view r s s1 init total Hv Hr E1 Ho) as (Hb & Hv1 & Hbg & Hen).
  assert (Hsz : sl_end s1 - sl_begin s1 = range_to r (sl_end s - sl_begin s) - range_from r) by lia.
  destruct (IH s1) as [Hv' ->]; [done|by rewrite Hb|by rewrite Hsz|done|]. split; [done|].
  rewrite (view_bytes_spec m s init total bs Hv Hm), (view_bytes_spec m s1 init total bs Hv1) by by rewrite Hb.
  cbn [mbind outcome_bind cuts]. rewrite Hsz. do 2 f_equal. unfold cut. rewrite Hbg.
  destruct Hv1 as [_ _ _ _ _], Hv as [_ _ _ _ _].
  pose proof (slice_slice_within r s s1 E1) as (_ & _ & _ & ? & ?).
  rewrite skipn_firstn_comm, drop_drop, take_take. f_equal; [lia|]. f_equal. lia.
Qed.

(** C36. Slicing owned buffers is slicing. Whatever ranges are asked for one after
    the other, none of them reversed: if they are accepted, the view shows
    exactly what the same ranges leave of the buffer's initialised bytes when
    they are applied to the bytes themselves, as with [&buf[..]]; a range that
    reaches into the part that is not initialised shows what there is. And
    the view stays inside the buffer. *)
Theorem slices_read `{!IoBuf T} m (r : RangeBounds) (rs : list RangeBounds) (b : T) (s : Slice T)
    init total bs :
  measures b init total -> init <= total ->
  read_bytes m (io_stable_ptr b) (N.to_nat init) = Ret bs ->
  Forall small_bounds (r :: rs) -> in_order (r :: rs) total ->
  (s0 ← buf_slice r b; slice_again rs s0) = Ret s ->
  view_bytes m s = Ret (cuts (r :: rs) total bs) /\ view_ok s init total.
Proof.
  intros Hm Hle Hr [Hs Hss]%Forall_cons [Ho Hos] E. apply bind_Ret in E as (s0 & E0 & E).
  apply (slice_accepts r b init total s0 Hs Hm) in E0 as (bg & en & Hb & He & ? & ? & ? & ->).
  apply (range_begin_shift 0) in Hb; [|done]. apply (range_end_shift 0 total) in He; [|done|lia].
  rewrite N.sub_0_r, N.add_0_l in *. subst bg en.
  assert (Hv : view_ok (mkSlice b (range_from r) (range_to r total)) init total) by by split; cbn.
  destruct (slice_again_reads m rs _ s init total bs Hv Hr Hss Hos E) as [Hv' ->].
  by rewrite (view_bytes_spec m _ init total bs Hv Hr).
Qed.

(** * The type-erased [Buffer] *)

#[export] Instance vec_impl_laws : BufferImplLaws VecU8.
Proof. intros [p n c] ptrs lens caps u [= <- <- <- <-]. done. Qed.

Lemma vecs_round_trip vs :
  let '(ptr, len, cap) := vecs_parts vs in
  length ptr = length len /\ vecs_from_raw_parts ptr len cap = vs.
Proof.
  induction vs as [|[p n c] vs IH]; [done|]. cbn.
  destruct (vecs_parts vs) as [[ptr len] cap]. destruct IH as [IH1 IH2]. cbn.
  by rewrite IH1, IH2.
Qed.

#[export] Instance vecs_impl_laws : BufferImplLaws (list VecU8).
Proof.
  intros vs ptrs lens caps u. cbn. unfold vecs_into_raw_parts.
  pose proof (vecs_round_trip vs) as H. destruct (vecs_parts vs) as [[ptr len] cap].
  intros [= <- <- <- <-]. destruct H as [? ->]. done.
Qed.

(** The parts a buffer keeps are the parts it was made from. *)
Lemma iovec_parts ptrs lens :
  length ptrs = length lens ->
  iov_base <$> zip_with mkIovec ptrs lens = ptrs /\
  iov_len <$> zip_with mkIovec ptrs lens = lens.
Proof.
  revert lens. induction ptrs as [|p ptrs IH]; intros [|n lens] H; try done. cbn.
  cbn in H. injection H as H. destruct (IH lens H) as [-> ->]. done.
Qed.

Definition made_from `{!BufferImpl B} (x : B) (b : Buffer) : Prop :=
  exists addr, buffer_new addr x = Ret b.

(** C35. A value comes back unchanged. For every implementation that keeps
    the contract of [BufferImpl], a buffer made from a value converts back to
    that very value, the conversion to a type with another [TypeId] hands the
    buffer back untouched, and dropping the buffer releases exactly what
    dropping the value would. *)
Theorem buffer_round_trip `{!BufferImpl B} `{!BufferImplLaws B} `{!BufferImpl B'} (x : B) b :
  made_from x b ->
  try_into B b = Ret (Ok x) /\
  (impl_type_id B' <> impl_type_id B -> try_into B' b = Ret (Err b)) /\
  drop_buffer b = Ret (drop_value x).
Proof.
  intros [addr E]. unfold buffer_new in E.
  apply bind_Ret in E as ([[[ptr len] cap] u] & Ei & E). injection E as <-.
  destruct (from_into_raw_parts _ _ _ _ _ Ei) as [Hl Hf].
  destruct (iovec_parts ptr len Hl) as [H1 H2].
  unfold try_into, drop_buffer. cbn [ty iovecs caps user_data dtor]. rewrite H1, H2, Hf.
  split_and!; [|intros Hne|done].
  - rewrite decide_False by naive_solver. done.
  - rewrite decide_True by congruence. done.
Qed.

(** ** Lengths *)
Section lengths.
Context {Prof : Profile}.

Fixpoint sum_N (l : list N) : N := match l with [] => 0 | x :: l => x + sum_N l end.

Lemma sum_usize_Ret l acc : acc + sum_N l <= usize_max -> sum_usize l acc = Ret (acc + sum_N l).
Proof.
  revert acc. induction l as [|x l IH]; intros acc H; cbn in *; [by rewrite N.add_0_r|].
  rewrite add_usize_Ret by lia. cbn. rewrite IH by lia. f_equal. lia.
Qed.

(** Spreading [pos] bytes over buffers of the given capacities. *)
Fixpoint spread (cs : list N) (pos : N) : list N :=
  match cs with
  | [] => []
  | c :: cs => N.min c pos :: spread cs (pos - N.min c pos)
  end.

Lemma set_init_iovecs_spread vs cs pos :
  length vs = length cs ->
  set_init_iovecs vs cs pos = Ret (zip_with mkIovec (iov_base <$> vs) (spread cs pos)).
Proof.
  revert cs pos. induction vs as [|v vs IH]; intros [|c cs] pos H; try done. cbn.
  rewrite sub_usize_Ret by lia. cbn in H. cbn. rewrite IH by congruence. done.
Qed.

Lemma sum_spread cs pos : sum_N (spread cs pos) = N.min (sum_N cs) pos.
Proof. revert pos. induction cs as [|c cs IH]; intros pos; cbn; [lia|]. rewrite IH. lia. Qed.

Lemma spread_length cs pos : length (spread cs pos) = length cs.
Proof. revert pos. induction cs; intros pos; cbn; by f_equal. Qed.

Lemma spread_le cs pos : Forall2 N.le (spread cs pos) cs.
Proof. revert pos. induction cs; intros pos; cbn; constructor; [lia|done]. Qed.

Record buffer_ok (b : Buffer) : Prop := {
  ok_lengths : length (iovecs b) = length (caps b);
  ok_inits : Forall2 N.le (iov_len <$> iovecs b) (caps b);
  ok_total : sum_N (caps b) <= usize_max;
}.

Lemma sum_le l l' : Forall2 N.le l l' -> sum_N l <= sum_N l'.
Proof. induction 1; cbn; lia. Qed.

Lemma buffer_bytes_init b :
  buffer_ok b -> io_bytes_init b = Ret (sum_N (iov_len <$> iovecs b)).
Proof. intros [? H%sum_le ?]. apply (sum_usize_Ret _ 0). lia. Qed.

Lemma buffer_bytes_total b : buffer_ok b -> io_bytes_total b = Ret (sum_N (caps b)).
Proof. intros [? ? ?]. by apply (sum_usize_Ret _ 0). Qed.

Lemma buffer_set_init_parts (b : Buffer) pos :
  buffer_ok b ->
  exists b', io_set_init pos b = Ret b' /\ buffer_ok b' /\
    iov_base <$> iovecs b' = iov_base <$> iovecs b /\
    iov_len <$> iovecs b' = spread (caps b) pos /\ caps b' = caps b.
Proof.
  intros Hb. pose proof Hb as [Hl _ Ht]. cbn. rewrite set_init_iovecs_spread by done.
  eexists. split; [done|]. unfold with_iovecs. cbn.
  destruct (iovec_parts (iov_base <$> iovecs b) (spread (caps b) pos)) as [E1 E2].
  { by rewrite length_fmap, spread_length. }
  rewrite E1, E2. split_and!; try done. split; cbn.
  - rewrite length_zip_with, length_fmap, spread_length, Hl. lia.
  - rewrite E2. apply spread_le.
  - done.
Qed.

(** [Buffer::set_init] fills the allocations in order. After
    [set_init pos] the first allocations are full, the next one holds the
    rest and the others are empty; no length exceeds its capacity, the
    subtraction in the loop never underflows, and [bytes_init] is [pos], cut
    off at the total size. In particular it can become smaller. *)
Theorem buffer_set_init (b : Buffer) pos :
  buffer_ok b ->
  exists b', io_set_init pos b = Ret b' /\ buffer_ok b' /\
    iov_base <$> iovecs b' = iov_base <$> iovecs b /\
    iov_len <$> iovecs b' = spread (caps b) pos /\ caps b' = caps b /\
    io_bytes_init b' = Ret (N.min (sum_N (caps b)) pos).
Proof.
  intros Hb. destruct (buffer_set_init_parts b pos Hb) as (b' & E & Hb' & H1 & H2 & H3).
  exists b'. split_and!; try done. rewrite (buffer_bytes_init b' Hb'), H2. by rewrite sum_spread.
Qed.

(** The contract of [IoBufMut], as it is documented: [set_init] raises the
    water mark, leaves a higher one alone, and moves nothing. *)
Class WatermarkLaws (T : Type) `{!IoBuf T} `{!IoBufMut T} : Prop := {
  mut_ptr_same b : io_stable_mut_ptr b = io_stable_ptr b;
  set_init_raises b pos init total :
    measures b init total -> init <= total -> pos <= total ->
    exists b', io_set_init pos b = Ret b' /\ measures b' (N.max init pos) total /\
      io_stable_ptr b' = io_stable_ptr b;
}.
#[export] Instance vec_watermark : WatermarkLaws VecU8.
Proof.
  split; [done|]. intros b pos init total [[= <-] [= <-]] Hi Hp. cbn.
  destruct (N.ltb_spec (v_len b) pos).
  - unfold set_len. rewrite (proj2 (N.leb_le _ _)) by done. eexists. split; [done|].
    by rewrite N.max_r by lia.
  - exists b. by rewrite N.max_l by lia.
Qed.
#[export] Instance bytes_mut_watermark : WatermarkLaws BytesMut.
Proof.
  split; [done|]. intros b pos init total [[= <-] [= <-]] Hi Hp. cbn.
  destruct (N.ltb_spec (bm_len b) pos).
  - unfold bytes_mut_set_len. rewrite (proj2 (N.leb_le _ _)) by done. eexists. split; [done|].
    by rewrite N.max_r by lia.
  - exists b. by rewrite N.max_l by lia.
Qed.

Lemma view_set_init `{!IoBuf T} `{!IoBufMut T} `{!WatermarkLaws T} (s : Slice T) init total pos :
  view_ok s init total -> total <= usize_max -> pos <= sl_end s - sl_begin s ->
  exists b', let s' := mkSlice b' (sl_begin s) (sl_end s) in
    set_init pos s = Ret s' /\ view_ok s' (N.max init (sl_begin s + pos)) total /\
    io_stable_ptr b' = io_stable_ptr (sl_buf s).
Proof.
  intros [Hm Hi Hb Ho He] Hc Hp.
  destruct (set_init_raises (sl_buf s) (sl_begin s + pos) init total Hm Hi) as (b' & E & Hm' & Hq); [lia|].
  exists b'. cbn. rewrite add_usize_Ret by lia. cbn. rewrite E. cbn.
  split; [done|]. split; [|done]. by split; cbn; [done|lia..].
Qed.

(** A view of a buffer that keeps the contract of [IoBufMut] keeps it too.
    Telling a view inside its buffer that its first [pos] bytes are
    initialised raises the view's count to [pos] if it was lower, and
    otherwise leaves it; the view stays inside its buffer, where it was. *)
Theorem slice_set_init `{!IoBuf T} `{!IoBufMut T} `{!WatermarkLaws T} (s : Slice T) init total pos :
  view_ok s init total -> total <= usize_max -> pos <= sl_end s - sl_begin s ->
  exists s' init' n, set_init pos s = Ret s' /\ view_ok s' init' total /\ stable_ptr s' = stable_ptr s /\
    bytes_init s = Ret n /\ bytes_init s' = Ret (N.max n pos).
Proof.
  intros Hv Hc Hp. destruct (view_set_init s _ _ pos Hv Hc Hp) as (b' & E & Hv' & Hq).
  do 3 eexists. split; [exact E|]. split; [exact Hv'|].
  rewrite (view_shown s _ _ Hv), (view_shown _ _ _ Hv'), (view_ptr s _ _ Hv), (view_ptr _ _ _ Hv').
  cbn [sl_buf sl_begin sl_end]. rewrite Hq. split; [done|]. split; [done|].
  destruct Hv. f_equal. lia.
Qed.

(** [Buffer] breaks the contract of [IoBufMut]: a [set_init] below the count
    of initialised bytes forgets some of them. *)
Theorem buffer_no_watermark : ~ WatermarkLaws Buffer.
Proof.
  intros H. set (b := mkBuffer 0 [mkIovec 8 4] [4] UdUnit TyVec (fun _ _ _ _ => Ret [])).
  destruct (set_init_raises b 1 4 4) as (b' & E & [Hi _] & _); [|done|done|].
  - split; by destruct Prof as [[] []].
  - cbn in E. rewrite sub_usize_Ret in E by done. cbn in E. injection E as <-.
    cbn in Hi. by destruct Prof as [[] []].
Qed.
End lengths.

(** * Copying into a buffer *)
Definition allocated (m : Mem) (ptr n : N) : Prop :=
  forall a, ptr <= a < ptr + n -> is_Some (m !! a).
Definition unchanged_outside (m m' : Mem) (ptr n : N) : Prop :=
  forall a, ~ (ptr <= a < ptr + n) -> m' !! a = m !! a.

Lemma read_bytes_agree n m m' ptr :
  (forall a, ptr <= a < ptr + N.of_nat n -> m' !! a = m !! a) ->
  read_bytes m' ptr n = read_bytes m ptr n.
Proof.
  revert ptr. induction n as [|n IH]; intros ptr H; [done|]. cbn [read_bytes].
  rewrite (H ptr) by lia. rewrite (IH (ptr + 1)); [done|]. intros a Ha. apply H. lia.
Qed.

Lemma write_bytes_spec bs m ptr :
  allocated m ptr (N.of_nat (length bs)) ->
  exists m', write_bytes m ptr bs = Ret m' /\ read_bytes m' ptr (length bs) = Ret bs /\
    unchanged_outside m m' ptr (N.of_nat (length bs)) /\
    (forall a, is_Some (m !! a) -> is_Some (m' !! a)).
Proof.
  revert m ptr. induction bs as [|b bs IH]; intros m ptr H.
  { exists m. by split_and!. }
  cbn [length] in H. destruct (H ptr) as [x Hx]; [lia|].
  destruct (IH (<[ptr := Some b]> m) (ptr + 1)) as (m' & E & R & U & A).
  { intros a Ha. rewrite lookup_insert_ne by lia. apply H. lia. }
  exists m'. cbn [write_bytes length read_bytes]. rewrite Hx. split; [done|].
  split_and!.
  - rewrite (U ptr) by lia. rewrite lookup_insert_eq. by rewrite R.
  - intros a Ha. rewrite U by lia. apply lookup_insert_ne. lia.
  - intros a Ha. apply A. destruct (decide (ptr = a)) as [<-|?].
    + by rewrite lookup_insert_eq.
    + by rewrite lookup_insert_ne.
Qed.

Section put_slice.
Context {Prof : Profile}.

(** [put_slice] copies. Into a view inside its buffer, bytes that fit are
    written from the start of the view on and nowhere else, can be read back
    from there, and count as initialised afterwards. *)
Theorem put_slice_copies `{!IoBuf T} `{!IoBufMut T} `{!WatermarkLaws T} (s : Slice T) init total
    (src : list byte) (m : Mem) :
  view_ok s init total -> total <= usize_max -> allocated m (io_stable_ptr (sl_buf s)) total ->
  N.of_nat (length src) <= sl_end s - sl_begin s ->
  exists s' m' n, put_slice src s m = Ret (s', m') /\
    read_bytes m' (io_stable_ptr (sl_buf s) + sl_begin s) (length src) = Ret src /\
    unchanged_outside m m' (io_stable_ptr (sl_buf s) + sl_begin s) (N.of_nat (length src)) /\
    bytes_init s' = Ret n /\ N.of_nat (length src) <= n.
Proof.
  intros Hv Hc Ha Hn. pose proof Hv as [Hm Hi Hb Ho He]. pose proof (view_size s _ _ Hv) as Ht.
  destruct (view_set_init s _ _ (N.of_nat (length src)) Hv Hc Hn) as (b' & Es & Hv' & Hq).
  destruct (write_bytes_spec src m (io_stable_ptr (sl_buf s) + sl_begin s)) as (m' & Ew & R & U & _).
  { intros a Hx. apply Ha. lia. }
  do 3 eexists. unfold put_slice. rewrite Ht.
  cbn [mbind outcome_bind]. rewrite (proj2 (N.leb_le _ _) Hn). cbn [assert].
  assert (Hp : stable_mut_ptr s = Ret (io_stable_ptr (sl_buf s) + sl_begin s)).
  { cbn. unfold deref_mut. rewrite mut_ptr_same. destruct Hm as [Hi' _]. rewrite Hi'. cbn.
    unfold tail_ptr. by rewrite subslice_Ret. }
  rewrite Hp. cbn [mbind outcome_bind]. rewrite Ew. cbn [mbind outcome_bind]. rewrite Es.
  split_and!; [done..|by eapply view_shown|cbn; lia].
Qed.

(** [put_slice] into a vectored [Buffer] destroys the buffer. With more
    than one allocation, the pointer that [stable_mut_ptr] returns is the one
    of the array of [iovec]s, so the copied bytes overwrite that array
    instead of the buffer's memory: undefined behaviour in safe code. *)
Theorem put_slice_vectored (b : Buffer) (src : list byte) (m : Mem) :
  buffer_ok b -> buffer_len b <> 1%nat -> m !! iovec_ptr b = None ->
  src <> [] -> N.of_nat (length src) <= sum_N (caps b) ->
  put_slice src b m = Undefined "write outside an allocation".
Proof.
  intros Hb Hl Hm Hs Hn. unfold put_slice. cbn [bytes_total io_buf_bounded].
  rewrite (buffer_bytes_total b Hb). cbn [mbind outcome_bind].
  rewrite (proj2 (N.leb_le _ _) Hn). cbn [assert mbind outcome_bind stable_mut_ptr
    io_buf_mut_bounded io_stable_mut_ptr buffer_io_buf_mut].
  assert (Hp : buffer_stable_ptr b = iovec_ptr b).
  { unfold buffer_stable_ptr, buffer_len in *. by destruct (iovecs b) as [|? [|? ?]]. }
  rewrite Hp. destruct src as [|x src]; [done|]. cbn [write_bytes]. by rewrite Hm.
Qed.
End put_slice.

(** * Concrete runs *)
#[local] Existing Instance debug_profile.
Definition demo_vec : VecU8 := mkVec 100 5 8.
Definition demo_mem : Mem :=
  list_to_map ((fun i => (N.of_nat i, None)) <$> seq 100 16).
Definition demo_buffer : Buffer :=
  mkBuffer 7000 [mkIovec 100 2; mkIovec 104 4] [4; 4] UdUnit TyVecVec
    (fun _ _ _ _ => Ret []).

(** The example in the documentation of [slice]. *)
Definition hello : list byte :=
  [Byte.x68; Byte.x65; Byte.x6c; Byte.x6c; Byte.x6f; Byte.x20;
   Byte.x77; Byte.x6f; Byte.x72; Byte.x6c; Byte.x64].
Definition hello_mem : Mem := list_to_map (imap (fun i b => (100 + N.of_nat i, Some b)) hello).
Lemma slices_read_witness :
  let s := mkSlice (mkVec 100 11 16) 6 8 in
  (s0 ← buf_slice (mkRange (Included 5) (Excluded 10)) (mkVec 100 11 16);
   slice_again [mkRange (Included 1) (Excluded 3)] s0) = Ret s /\
  view_bytes hello_mem s = Ret [Byte.x77; Byte.x6f].
Proof.
  split; [reflexivity|].
  eapply (slices_read hello_mem (mkRange (Included 5) (Excluded 10)) [mkRange (Included 1) (Excluded 3)]
            (mkVec 100 11 16) _ 11 16 hello); [done|lia|vm_compute; reflexivity| | |reflexivity].
  - repeat constructor; cbn; vm_compute; discriminate.
  - vm_compute. split_and!; [discriminate..|done].
Defined.

Lemma slice_covers_witness :
  stable_ptr (mkSlice demo_vec 2 8) = Ret 102 /\ bytes_init (mkSlice demo_vec 2 8) = Ret 3.
Proof.
  destruct (slice_covers (mkSlice demo_vec 2 8) 5 8) as (H1 & _ & H3 & _).
  - by split; vm_compute.
  - by split.
Defined.

Lemma slice_reversed_witness :
  exists s, buf_slice (mkRange (Included 4) (Excluded 1)) demo_vec = Ret s /\
    bytes_total (BoundedBuf := slice_bounded (Prof := release_profile)) s =
      Ret (usize_max + 1 - 3).
Proof.
  apply (slice_reversed (Prof := release_profile) demo_vec 5 8 4 1); by vm_compute.
Defined.

Lemma slice_slice_within_witness :
  slice_slice (mkRange (Included 1) (Included 2)) (mkSlice demo_vec 2 8) =
    Ret (mkSlice demo_vec 3 5) /\ 2 <= 3 <= 8.
Proof.
  split; [vm_compute; reflexivity|].
  apply (slice_slice_within (mkRange (Included 1) (Included 2)) (mkSlice demo_vec 2 8)
           (mkSlice demo_vec 3 5)). vm_compute. reflexivity.
Defined.

Lemma buffer_round_trip_witness :
  exists b, buffer_new 7000 [demo_vec; demo_vec] = Ret b /\
    try_into (list VecU8) b = Ret (Ok [demo_vec; demo_vec]) /\
    try_into VecU8 b = Ret (Err b) /\
    drop_buffer b = Ret [Dealloc demo_vec; Dealloc demo_vec].
Proof.
  eexists. split; [reflexivity|].
  edestruct (buffer_round_trip (B' := VecU8) [demo_vec; demo_vec]) as (H1 & H2 & H3);
    [exists 7000; reflexivity|].
  split; [exact H1|]. split; [apply H2; discriminate|exact H3].
Defined.

Lemma demo_buffer_ok : buffer_ok demo_buffer.
Proof. split; [done|by repeat constructor|done]. Qed.

Lemma buffer_set_init_witness :
  exists b', io_set_init 5 demo_buffer = Ret b' /\
    iov_len <$> iovecs b' = [4; 1].
Proof.
  destruct (buffer_set_init (Prof := debug_profile) demo_buffer 5 demo_buffer_ok)
    as (b' & E & _ & _ & H & _). by exists b'.
Defined.

Lemma slice_set_init_witness :
  exists s', set_init 6 (mkSlice demo_vec 2 8) = Ret s' /\
    bytes_init s' = Ret 6.
Proof.
  destruct (slice_set_init (Prof := debug_profile) (mkSlice demo_vec 2 8) 5 8 6)
    as (s' & init' & n & E & _ & _ & Hn & H); [by split; vm_compute|done..|].
  exists s'. split; [exact E|]. vm_compute in Hn. injection Hn as <-. exact H.
Defined.

Lemma put_slice_copies_witness :
  exists s' m' n,
    put_slice [Byte.x61; Byte.x62] (mkSlice demo_vec 5 8) demo_mem = Ret (s', m') /\
    read_bytes m' 105 2 = Ret [Byte.x61; Byte.x62] /\ bytes_init s' = Ret n /\ 2 <= n.
Proof.
  destruct (put_slice_copies (Prof := debug_profile) (mkSlice demo_vec 5 8) 5 8
              [Byte.x61; Byte.x62] demo_mem) as (s' & m' & n & E & R & _ & H);
    [by split; vm_compute|done| |done|].
  - intros a Ha. cbn in Ha.
    assert (a ∈ N.of_nat <$> seq 100 16) as Hin.
    { apply list_elem_of_fmap. exists (N.to_nat a). split; [lia|]. apply elem_of_seq. lia. }
    vm_compute in Hin. repeat (apply elem_of_cons in Hin as [->|Hin]; [vm_compute; by eexists|]).
    by apply elem_of_nil in Hin.
  - by exists s', m', n.
Defined.

Lemma put_slice_vectored_witness :
  put_slice (Bounds := unit) [Byte.x61] demo_buffer demo_mem =
    Undefined "write outside an allocation".
Proof.
  apply (put_slice_vectored (Prof := debug_profile)); [apply demo_buffer_ok|done|done|done|done].
Defined.
