(* ===== verification/FixedBuf.v ===== *)
(** [src/src/buf/fixed/]: buffers registered with the kernel. [Pool] hands
    out any free buffer of a capacity and keeps a free list per capacity,
    threaded through the states of its buffers; [Registry] hands out buffers
    by index. Both are shared behind [Arc<Mutex<..>>], here the [Store]: a
    checked-out buffer refers to its collection by address, and gives the
    buffer back when it is dropped. No call panics while it holds the lock
    unless the collection is broken, so lock poisoning is not modelled. *)
From S2P Require Import Prelude Buf Buffer.

(** [libc::UIO_MAXIOV]. *)
Class UioMaxIov : Type := UIO_MAXIOV : N.

Section plumbing.
Context {Prof : Profile} {Ui : UioMaxIov}.

(** [cmp::min(libc::UIO_MAXIOV as usize, u16::MAX as usize)] *)
Definition max_buffers : nat := N.to_nat (N.min UIO_MAXIOV u16_max).

(** What [new] records of one buffer: its [iovec] with the full capacity, and
    its initialised length. *)
Definition measure_buffer (buf : Buffer) : outcome (iovec * N) :=
  _ ← debug_assert (Nat.eqb (buffer_len buf) 1) "assertion `left == right` failed: buf.len(), 1";
  len ← io_bytes_init buf;
  cap ← io_bytes_total buf;
  Ret (mkIovec (io_stable_ptr buf) cap, len).

(** * [plumbing/registry.rs] *)
Inductive RegistryState : Type := RFree (init_len : N) | RCheckedOut.
Record Registry : Type := mkRegistry {
  r_iovecs : list iovec;
  r_states : list RegistryState;
  r_buffers : list Buffer;
}.

Fixpoint registry_entries (bufs : list Buffer) : outcome (list iovec * list RegistryState) :=
  match bufs with
  | [] => Ret ([], [])
  | buf :: bufs =>
      '(v, len) ← measure_buffer buf;
      '(vs, ss) ← registry_entries bufs;
      Ret (v :: vs, RFree len :: ss)
  end.
Definition registry_new (bufs : list Buffer) : outcome Registry :=
  let buffers := take max_buffers bufs in
  '(vs, ss) ← registry_entries buffers;
  Ret (mkRegistry vs ss buffers).

Definition set_state {A} (i : N) (s : A) (l : list A) : list A := <[N.to_nat i := s]> l.
#[global] Arguments set_state {A} i s l : simpl never.

Definition registry_check_out (index : N) (r : Registry) :
  outcome (option (iovec * N) * Registry) :=
  state ← unwrap "invalid buffer index" (r_states r !! N.to_nat index);
  match state with
  | RCheckedOut => Ret (None, r)
  | RFree init_len =>
      let r := mkRegistry (r_iovecs r) (set_state index RCheckedOut (r_states r)) (r_buffers r) in
      v ← index_vec (r_iovecs r) (N.to_nat index);
      Ret (Some (v, init_len), r)
  end.
Definition registry_check_in (index init_len : N) (r : Registry) : outcome Registry :=
  state ← unwrap "invalid buffer index" (r_states r !! N.to_nat index);
  _ ← debug_assert (match state with RCheckedOut => true | _ => false end)
        "the buffer must be checked out";
  Ret (mkRegistry (r_iovecs r) (set_state index (RFree init_len) (r_states r)) (r_buffers r)).
Definition registry_drop (r : Registry) : outcome unit :=
  assert (forallb (fun s => match s with RFree _ => true | _ => false end) (r_states r))
    "all buffers must be checked in".

(** * [plumbing/pool.rs] *)
Inductive PoolState : Type := PFree (init_len : N) (next : option N) | PCheckedOut.
(** [notify_next_by_cap] is the set of capacities that have a [Notify]. *)
Record Pool : Type := mkPool {
  p_iovecs : list iovec;
  p_states : list PoolState;
  p_heads : gmap N N;
  p_notify : gset N;
  p_buffers : list Buffer;
}.

Fixpoint pool_entries (i : N) (bufs : list Buffer) (heads : gmap N N) :
  outcome (list iovec * list PoolState * gmap N N) :=
  match bufs with
  | [] => Ret ([], [], heads)
  | buf :: bufs =>
      '(v, len) ← measure_buffer buf;
      let next := heads !! iov_len v in
      '(vs, ss, heads) ← pool_entries (i + 1) bufs (<[iov_len v := as_u16 i]> heads);
      Ret (v :: vs, PFree len next :: ss, heads)
  end.
Definition pool_new (bufs : list Buffer) : outcome Pool :=
  let buffers := take max_buffers bufs in
  '(vs, ss, heads) ← pool_entries 0 buffers ∅;
  Ret (mkPool vs ss heads ∅ buffers).

(** [Pool::try_next]. *)
Definition pool_try_next (cap : N) (p : Pool) : outcome (option (iovec * N * N) * Pool) :=
  match p_heads p !! cap with
  | None => Ret (None, p)
  | Some index =>
      state ← unwrap "invalid buffer index" (p_states p !! N.to_nat index);
      match state with
      | PCheckedOut => Panic (PUnreachable "buffer is checked out")
      | PFree init_len next =>
          let heads := match next with
                       | Some i => <[cap := i]> (p_heads p)
                       | None => delete cap (p_heads p)
                       end in
          v ← index_vec (p_iovecs p) (N.to_nat index);
          Ret (Some (v, init_len, index),
               mkPool (p_iovecs p) (set_state index PCheckedOut (p_states p)) heads
                      (p_notify p) (p_buffers p))
      end
  end.

(** [Pool::notify_on_next]: the [Notify] is known by its capacity. *)
Definition pool_notify_on_next (cap : N) (p : Pool) : Pool :=
  mkPool (p_iovecs p) (p_states p) (p_heads p) ({[cap]} ∪ p_notify p) (p_buffers p).

(** [Pool::check_in]; the answer tells for which capacity a task was
    notified. *)
Definition pool_check_in (index init_len : N) (p : Pool) : outcome (option N * Pool) :=
  v ← index_vec (p_iovecs p) (N.to_nat index);
  let cap := iov_len v in
  state ← index_vec (p_states p) (N.to_nat index);
  _ ← debug_assert (match state with PCheckedOut => true | _ => false end)
        "the buffer must be checked out";
  let next := p_heads p !! cap in
  let p := mkPool (p_iovecs p) (set_state index (PFree init_len next) (p_states p))
                  (<[cap := as_u16 index]> (p_heads p)) (p_notify p) (p_buffers p) in
  Ret (if decide (cap ∈ p_notify p) then Some cap else None, p).
Definition pool_drop (p : Pool) : outcome unit :=
  assert (forallb (fun s => match s with PFree _ _ => true | _ => false end) (p_states p))
    "all buffers must be checked in".

(** * [pool.rs] and [registry.rs]: the handles *)
Record PoolFixedBuf : Type := mkPoolFixedBuf {
  pf_iovec : iovec;
  pf_init_len : N;
  pf_info : option PoolInfo;
}.
Record RegistryFixedBuf : Type := mkRegistryFixedBuf {
  rf_iovec : iovec;
  rf_init_len : N;
  rf_info : option RegistryInfo;
}.

#[export] Instance pool_fixed_buf_impl : BufferImpl PoolFixedBuf := {
  impl_type_id := TyPoolFixedBuf;
  into_raw_parts := fun b =>
    info ← unwrap "called `Option::unwrap()` on a `None` value" (pf_info b);
    Ret ([iov_base (pf_iovec b)], [pf_init_len b], [iov_len (pf_iovec b)], UdPool info);
  from_raw_parts := fun ptr len cap u =>
    p ← index_vec ptr 0;
    c ← index_vec cap 0;
    n ← index_vec len 0;
    info ← as_pool_info u;
    Ret (mkPoolFixedBuf (mkIovec p c) n (Some info));
  drop_value := fun b =>
    match pf_info b with
    | None => []
    | Some info => [PoolCheckIn (pi_pool info) (pi_index info) (pf_init_len b)]
    end;
}.
#[export] Instance registry_fixed_buf_impl : BufferImpl RegistryFixedBuf := {
  impl_type_id := TyRegistryFixedBuf;
  into_raw_parts := fun b =>
    info ← unwrap "called `Option::unwrap()` on a `None` value" (rf_info b);
    Ret ([iov_base (rf_iovec b)], [rf_init_len b], [iov_len (rf_iovec b)], UdRegistry info);
  from_raw_parts := fun ptr len cap u =>
    p ← index_vec ptr 0;
    c ← index_vec cap 0;
    n ← index_vec len 0;
    info ← as_registry_info u;
    Ret (mkRegistryFixedBuf (mkIovec p c) n (Some info));
  drop_value := fun b =>
    match rf_info b with
    | None => []
    | Some info => [RegistryCheckIn (ri_registry info) (ri_index info) (rf_init_len b)]
    end;
}.

(** The collections behind their [Arc]s. *)
Record Store : Type := mkStore { st_pools : gmap N Pool; st_registries : gmap N Registry }.

Definition dangling {A} (o : option A) : outcome A :=
  match o with Some x => Ret x | None => Undefined "dangling Arc" end.

(** [FixedBufPool::try_next] on the pool at [pool]; [addr] is where the new
    buffer's array is allocated. *)
Definition fixed_pool_try_next (pool addr cap : N) (st : Store) :
  outcome (option Buffer * Store) :=
  p ← dangling (st_pools st !! pool);
  '(got, p) ← pool_try_next cap p;
  let st := mkStore (<[pool := p]> (st_pools st)) (st_registries st) in
  match got with
  | None => Ret (None, st)
  | Some (v, init_len, index) =>
      b ← buffer_new addr (mkPoolFixedBuf v init_len (Some (mkPoolInfo pool (as_u16 index))));
      Ret (Some b, st)
  end.

(** [FixedBufRegistry::check_out]. *)
Definition fixed_registry_check_out (registry addr index : N) (st : Store) :
  outcome (option Buffer * Store) :=
  r ← dangling (st_registries st !! registry);
  '(got, r) ← registry_check_out index r;
  let st := mkStore (st_pools st) (<[registry := r]> (st_registries st)) in
  match got with
  | None => Ret (None, st)
  | Some (v, init_len) =>
      b ← buffer_new addr
            (mkRegistryFixedBuf v init_len (Some (mkRegistryInfo registry (as_u16 index))));
      Ret (Some b, st)
  end.

(** [impl Drop for FixedBuf] of [pool.rs] and of [registry.rs], as effects on
    the store. *)
Definition pool_fixed_drop (pool index init_len : N) (st : Store) : outcome Store :=
  p ← dangling (st_pools st !! pool);
  '(_, p) ← pool_check_in index init_len p;
  Ret (mkStore (<[pool := p]> (st_pools st)) (st_registries st)).
Definition registry_fixed_drop (registry index init_len : N) (st : Store) : outcome Store :=
  r ← dangling (st_registries st !! registry);
  r ← registry_check_in index init_len r;
  Ret (mkStore (st_pools st) (<[registry := r]> (st_registries st))).
Definition run_effect (e : effect) (st : Store) : outcome Store :=
  match e with
  | Dealloc _ => Ret st
  | PoolCheckIn pool index init_len => pool_fixed_drop pool index init_len st
  | RegistryCheckIn registry index init_len => registry_fixed_drop registry index init_len st
  end.
Fixpoint run_effects (es : list effect) (st : Store) : outcome Store :=
  match es with
  | [] => Ret st
  | e :: es => st ← run_effect e st; run_effects es st
  end.
Definition drop_in_store (b : Buffer) (st : Store) : outcome Store :=
  es ← drop_buffer b; run_effects es st.
End plumbing.
