(* ===== verification/FixedBufSpec.v ===== *)
(** Properties of the registered buffers: the free lists of a pool are lists
    of exactly the free buffers, a buffer is never handed out twice, and a
    dropped handle gives its buffer back. *)
From S2P Require Import Prelude Buf Buffer BufSpec FixedBuf.

(** * The free lists of a pool *)
Abbreviation st ss i := (ss !! N.to_nat i).

Fixpoint free_chain (ss : list PoolState) (head : option N) (l : list N) : Prop :=
  match l with
  | [] => head = None
  | i :: l => head = Some i /\
      exists len next, st ss i = Some (PFree len next) /\ free_chain ss next l
  end.

(** [fl c] are the indices of the free buffers of capacity [c], the next one
    to be handed out first. *)
Record pool_ok (p : Pool) (fl : N -> list N) : Prop := {
  pk_lengths : length (p_iovecs p) = length (p_states p);
  pk_small : N.of_nat (length (p_states p)) <= 65536;
  pk_chain c : free_chain (p_states p) (p_heads p !! c) (fl c);
  pk_cap c i : i ∈ fl c -> exists v, st (p_iovecs p) i = Some v /\ iov_len v = c;
  pk_nodup c : NoDup (fl c);
  pk_all i len next : st (p_states p) i = Some (PFree len next) -> exists c, i ∈ fl c;
}.

Lemma free_chain_elem ss h l i :
  free_chain ss h l -> i ∈ l -> exists len next, st ss i = Some (PFree len next).
Proof.
  revert h. induction l as [|j l IH]; intros h; [by intros _ ?%elem_of_nil|].
  intros (_ & len & next & Hj & Hc) [->|Hi]%elem_of_cons; [by eauto|by eapply IH].
Qed.

Lemma free_chain_frame ss i s h l :
  (i ∉ l) -> free_chain ss h l -> free_chain (set_state i s ss) h l.
Proof.
  revert h. induction l as [|j l IH]; intros h Hi; [done|].
  intros (-> & len & next & Hj & Hc). split; [done|]. exists len, next. unfold set_state.
  rewrite list_lookup_insert_ne by (intros ?%N2Nat.inj; set_solver).
  split; [done|]. apply IH; [set_solver|done].
Qed.

Lemma st_set_state {A} (i : N) (s : A) ss j :
  is_Some (st ss i) ->
  st (set_state i s ss) j = if decide (i = j) then Some s else st ss j.
Proof.
  intros Hi. unfold set_state. destruct (decide (i = j)) as [<-|Hne].
  - apply list_lookup_insert_eq. by apply lookup_lt_is_Some.
  - apply list_lookup_insert_ne. by intros ?%N2Nat.inj.
Qed.

Lemma pool_ok_disjoint p fl c c' i : pool_ok p fl -> i ∈ fl c -> i ∈ fl c' -> c = c'.
Proof.
  intros H (v & Hv & <-)%(pk_cap _ _ H) (v' & Hv' & <-)%(pk_cap _ _ H). congruence.
Qed.

(** The general step: buffer [i] of capacity [c] changes its state and the
    free list of [c] becomes [l]. *)
Lemma pool_ok_step p fl i v s h l notify :
  pool_ok p fl -> st (p_iovecs p) i = Some v -> is_Some (st (p_states p) i) ->
  (forall c', c' <> iov_len v -> i ∉ fl c') ->
  free_chain (set_state i s (p_states p)) h l -> NoDup l ->
  (forall j, j ∈ l -> j = i \/ j ∈ fl (iov_len v)) ->
  (forall j, j ∈ fl (iov_len v) -> j <> i -> j ∈ l) ->
  (forall len next, s = PFree len next -> i ∈ l) ->
  pool_ok (mkPool (p_iovecs p) (set_state i s (p_states p))
             (partial_alter (fun _ => h) (iov_len v) (p_heads p)) notify (p_buffers p))
          (<[iov_len v := l]> fl).
Proof.
  intros H Hv Hi Hfl Hc Hn Hin Hout Hfree. split; cbn.
  - unfold set_state. rewrite length_insert. apply (pk_lengths _ _ H).
  - unfold set_state. rewrite length_insert. apply (pk_small _ _ H).
  - intros c. destruct (decide (iov_len v = c)) as [<-|Hne].
    + by rewrite fn_lookup_insert, lookup_partial_alter_eq.
    + rewrite fn_lookup_insert_ne, lookup_partial_alter_ne by done.
      apply free_chain_frame; [by apply Hfl|apply (pk_chain _ _ H)].
  - intros c j. destruct (decide (iov_len v = c)) as [<-|Hne].
    + rewrite fn_lookup_insert. intros [->|Hj]%Hin; [by eauto|by apply (pk_cap _ _ H)].
    + rewrite fn_lookup_insert_ne by done. apply (pk_cap _ _ H).
  - intros c. destruct (decide (iov_len v = c)) as [<-|Hne].
    + by rewrite fn_lookup_insert.
    + rewrite fn_lookup_insert_ne by done. apply (pk_nodup _ _ H).
  - intros j len next. rewrite st_set_state by done. destruct (decide (i = j)) as [<-|Hne].
    + intros [= ->]. exists (iov_len v). rewrite fn_lookup_insert. by eapply Hfree.
    + intros [c Hj]%(pk_all _ _ H). exists c. destruct (decide (iov_len v = c)) as [<-|Hc'].
      * rewrite fn_lookup_insert. by apply Hout.
      * by rewrite fn_lookup_insert_ne.
Qed.

Section pool.
Context {Prof : Profile} {Ui : UioMaxIov}.

(** [try_next] hands out the head of the free list. With at least one
    free buffer of the capacity it answers the one checked in last, with its
    recorded length, and marks it; with none it answers [None] and changes
    nothing. It never panics, and the free lists stay correct. *)
Theorem pool_try_next_spec p fl cap :
  pool_ok p fl ->
  match fl cap with
  | [] => pool_try_next cap p = Ret (None, p)
  | i :: rest => exists v init_len next p',
      pool_try_next cap p = Ret (Some (v, init_len, i), p') /\
      iov_len v = cap /\ st (p_states p) i = Some (PFree init_len next) /\
      p_states p' = set_state i PCheckedOut (p_states p) /\
      p_iovecs p' = p_iovecs p /\ pool_ok p' (<[cap := rest]> fl)
  end.
Proof.
  intros H. pose proof (pk_chain _ _ H cap) as Hc. unfold pool_try_next.
  destruct (fl cap) as [|i rest] eqn:E; cbn in Hc; [by rewrite Hc|].
  destruct Hc as (-> & len & next & Hi & Hc).
  destruct (pk_cap _ _ H cap i) as (v & Hv & Hcap); [rewrite E; set_solver|].
  rewrite Hi. cbn [unwrap mbind outcome_bind]. unfold index_vec. rewrite Hv. cbn.
  exists v, len, next. eexists. split; [done|]. split_and!; [done..|].
  assert (Hn : NoDup (i :: rest)) by (rewrite <- E; apply (pk_nodup _ _ H)).
  apply NoDup_cons in Hn as [Hni Hn]. subst cap.
  replace (match next with Some i0 => _ | None => _ end)
    with (partial_alter (fun _ => next) (iov_len v) (p_heads p)) by by destruct next.
  eapply (pool_ok_step p fl i v); try done.
  - intros c' Hne Hin. apply Hne, (pool_ok_disjoint p fl c' (iov_len v) i H Hin).
    rewrite E. set_solver.
  - by apply free_chain_frame.
  - rewrite E. set_solver.
  - rewrite E. set_solver.
Qed.

(** [check_in] makes the buffer the next one to be handed out for its
    capacity, with the length it came back with, and notifies a waiting task
    if tasks have asked for that capacity. For a buffer that is checked out
    it never panics, and the free lists stay correct. *)
Theorem pool_check_in_spec p fl i init_len :
  pool_ok p fl -> st (p_states p) i = Some PCheckedOut ->
  exists v next p',
    pool_check_in i init_len p =
      Ret (if decide (iov_len v ∈ p_notify p) then Some (iov_len v) else None, p') /\
    st (p_iovecs p) i = Some v /\
    p_states p' = set_state i (PFree init_len next) (p_states p) /\
    p_iovecs p' = p_iovecs p /\ pool_ok p' (<[iov_len v := i :: fl (iov_len v)]> fl).
Proof.
  intros H Hi.
  assert (Hlt : (N.to_nat i < length (p_states p))%nat) by (by eapply lookup_lt_Some).
  destruct (st (p_iovecs p) i) as [v|] eqn:Hv.
  2:{ apply lookup_ge_None in Hv. rewrite (pk_lengths _ _ H) in Hv. lia. }
  assert (Hnot : forall c, i ∉ fl c).
  { intros c Hin. destruct (free_chain_elem _ _ _ _ (pk_chain _ _ H c) Hin) as (? & ? & E).
    congruence. }
  pose proof (pk_small _ _ H). exists v, (p_heads p !! iov_len v). eexists.
  unfold pool_check_in, index_vec. rewrite Hv, Hi. cbn [or_panic mbind outcome_bind].
  unfold debug_assert. replace (if debug_assertions then _ else _) with (Ret tt)
    by by destruct debug_assertions.
  cbn [mbind outcome_bind]. split; [done|]. split_and!; [done..|].
  rewrite as_u16_small by lia.
  apply (pool_ok_step p fl i v _ (Some i)); try done.
  - split; [done|]. do 2 eexists. split.
    + rewrite st_set_state by (by rewrite Hi). by rewrite decide_True.
    + apply free_chain_frame; [done|apply (pk_chain _ _ H)].
  - constructor; [done|apply (pk_nodup _ _ H)].
  - set_solver.
  - set_solver.
  - set_solver.
Qed.
End pool.

(** * Building a pool *)
Lemma st_app_l {A} (l l' : list A) i x : st l i = Some x -> st (l ++ l') i = Some x.
Proof. intros H. by apply lookup_app_l_Some. Qed.

Lemma free_chain_app ss ss' h l : free_chain ss h l -> free_chain (ss ++ ss') h l.
Proof.
  revert h. induction l as [|j l IH]; intros h; [done|].
  intros (-> & len & next & Hj & Hc). split; [done|]. exists len, next.
  split; [by apply st_app_l|by apply IH].
Qed.

(** One more buffer, linked in front of the list of its capacity. *)
Lemma pool_ok_snoc vs ss heads notify bufs fl v len :
  pool_ok (mkPool vs ss heads notify bufs) fl -> N.of_nat (length ss) < 65536 ->
  pool_ok (mkPool (vs ++ [v]) (ss ++ [PFree len (heads !! iov_len v)])
             (<[iov_len v := N.of_nat (length ss)]> heads) notify bufs)
          (<[iov_len v := N.of_nat (length ss) :: fl (iov_len v)]> fl).
Proof.
  intros H Hs. pose proof (pk_lengths _ _ H) as Hl. cbn in Hl.
  assert (Hnot : forall c, N.of_nat (length ss) ∉ fl c).
  { intros c Hin. destruct (free_chain_elem _ _ _ _ (pk_chain _ _ H c) Hin) as (? & ? & E).
    cbn in E. rewrite Nat2N.id in E. apply lookup_lt_Some in E. lia. }
  split; cbn.
  - rewrite !length_app. cbn. lia.
  - rewrite length_app. cbn. lia.
  - intros c. destruct (decide (iov_len v = c)) as [<-|Hne].
    + rewrite fn_lookup_insert, lookup_insert_eq. split; [done|]. do 2 eexists. split.
      * rewrite Nat2N.id. by apply list_lookup_middle.
      * apply free_chain_app, (pk_chain _ _ H).
    + rewrite fn_lookup_insert_ne, lookup_insert_ne by done.
      apply free_chain_app, (pk_chain _ _ H).
  - intros c i. destruct (decide (iov_len v = c)) as [<-|Hne].
    + rewrite fn_lookup_insert. intros [->|Hi]%elem_of_cons.
      * exists v. rewrite Nat2N.id, <- Hl. by rewrite list_lookup_middle.
      * destruct (pk_cap _ _ H _ _ Hi) as (v' & Hv & ?). eauto using st_app_l.
    + rewrite fn_lookup_insert_ne by done. intros Hi.
      destruct (pk_cap _ _ H _ _ Hi) as (v' & Hv & ?). eauto using st_app_l.
  - intros c. destruct (decide (iov_len v = c)) as [<-|Hne].
    + rewrite fn_lookup_insert. constructor; [done|apply (pk_nodup _ _ H)].
    + rewrite fn_lookup_insert_ne by done. apply (pk_nodup _ _ H).
  - intros i n next [Hi|[Hge Hi]]%lookup_app_Some.
    + destruct (pk_all _ _ H _ _ _ Hi) as [c Hc]. exists c.
      destruct (decide (iov_len v = c)) as [<-|Hne].
      * rewrite fn_lookup_insert. set_solver.
      * by rewrite fn_lookup_insert_ne.
    + exists (iov_len v). rewrite fn_lookup_insert. apply list_lookup_singleton_Some in Hi as [Hi _].
      replace i with (N.of_nat (length ss)) by lia. set_solver.
Qed.

Definition all_free (ss : list PoolState) : Prop :=
  Forall (fun s => match s with PFree _ _ => True | PCheckedOut => False end) ss.

Section build.
Context {Prof : Profile} {Ui : UioMaxIov}.

Lemma pool_entries_ok bufs vs0 ss0 heads notify bs fl vs ss heads' :
  pool_ok (mkPool vs0 ss0 heads notify bs) fl -> all_free ss0 ->
  N.of_nat (length ss0 + length bufs) <= 65535 ->
  pool_entries (N.of_nat (length ss0)) bufs heads = Ret (vs, ss, heads') ->
  exists fl', pool_ok (mkPool (vs0 ++ vs) (ss0 ++ ss) heads' notify bs) fl' /\
              all_free (ss0 ++ ss).
Proof.
  revert vs0 ss0 heads fl vs ss heads'.
  induction bufs as [|buf bufs IH]; intros vs0 ss0 heads fl vs ss heads' H Hf Hn E.
  { injection E as <- <- <-. rewrite !app_nil_r. eauto. }
  cbn in E. apply bind_Ret in E as ([v len] & _ & E).
  apply bind_Ret in E as ([[vs1 ss1] heads1] & E1 & E). injection E as <- <- <-.
  cbn in Hn. rewrite as_u16_small in E1 by lia.
  pose proof (pool_ok_snoc _ _ _ _ _ _ v len H ltac:(lia)) as H1.
  replace (N.of_nat (length ss0) + 1) with
    (N.of_nat (length (ss0 ++ [PFree len (heads !! iov_len v)]))) in E1
    by (rewrite length_app; cbn; lia).
  destruct (IH _ _ _ _ vs1 ss1 heads1 H1) as (fl' & H2 & Hf'); [| |exact E1|].
  - apply Forall_app. split; [done|by constructor].
  - rewrite length_app. cbn. lia.
  - rewrite <- (app_assoc vs0), <- (app_assoc ss0) in H2. rewrite <- app_assoc in Hf'. exists fl'. split; [exact H2|exact Hf'].
Qed.

Lemma pool_new_ok bufs p :
  pool_new bufs = Ret p -> exists fl, pool_ok p fl /\ all_free (p_states p).
Proof.
  unfold pool_new. intros ([[vs ss] heads] & E & Ep)%bind_Ret. injection Ep as <-.
  apply (pool_entries_ok _ [] [] ∅ ∅ (take max_buffers bufs) (fun _ => [])) in E; [exact E| |by constructor|].
  - split; cbn; try done; try (intros; apply NoDup_nil_2).
    intros c i ?%elem_of_nil. done.
  - pose proof (firstn_le_length max_buffers bufs) as Hl. rewrite length_take in *. cbn.
    unfold max_buffers, u16_max in *. lia.
Qed.

(** * A pool and the handles it gave out *)

(** A client takes a buffer of some capacity, or drops the [k]-th buffer it
    holds after a length of [init_len] bytes was initialised. *)
Inductive pool_call : Type := CTake (cap : N) | CGive (k : nat) (init_len : N).

Definition run_pool_call (c : pool_call) (p : Pool) (held : list N) :
  outcome (Pool * list N) :=
  match c with
  | CTake cap =>
      '(got, p) ← pool_try_next cap p;
      Ret (p, match got with Some (_, _, i) => i :: held | None => held end)
  | CGive k init_len =>
      match held !! k with
      | None => Ret (p, held)
      | Some i => '(_, p) ← pool_check_in i init_len p; Ret (p, delete k held)
      end
  end.
Fixpoint run_pool_calls (cs : list pool_call) (p : Pool) (held : list N) :
  outcome (Pool * list N) :=
  match cs with
  | [] => Ret (p, held)
  | c :: cs => '(p, held) ← run_pool_call c p held; run_pool_calls cs p held
  end.

Record held_ok (p : Pool) (held : list N) : Prop := {
  ho_pool : exists fl, pool_ok p fl;
  ho_nodup : NoDup held;
  ho_out i : i ∈ held <-> st (p_states p) i = Some PCheckedOut;
}.

Lemma delete_NoDup (l : list N) k i j :
  NoDup l -> l !! k = Some i -> j ∈ delete k l <-> j ∈ l /\ j <> i.
Proof.
  intros Hn Hk. pose proof (delete_Permutation _ _ _ Hk) as Hp. rewrite Hp in Hn.
  apply NoDup_cons in Hn as [Hn _].
  assert (Hj : j ∈ l <-> j ∈ i :: delete k l).
  { split; intros Hx; [by rewrite <- Hp|by rewrite Hp]. }
  rewrite Hj. set_solver.
Qed.

Lemma run_pool_call_ok c p held :
  held_ok p held -> ret_with (fun '(p, held) => held_ok p held) (run_pool_call c p held).
Proof.
  intros [[fl Hp] Hn Ho]. destruct c as [cap|k len]; cbn.
  - pose proof (pool_try_next_spec p fl cap Hp) as H. destruct (fl cap) as [|i rest].
    { rewrite H. cbn. split; eauto. }
    destruct H as (v & len & next & p' & -> & _ & Hi & Hs & _ & Hp'). cbn.
    split; [by eexists| |].
    + constructor; [|done]. rewrite Ho, Hi. by intros [=].
    + intros j. rewrite Hs, st_set_state by (by rewrite Hi). rewrite elem_of_cons, Ho.
      case_decide; naive_solver.
  - destruct (held !! k) as [i|] eqn:Hk; [|cbn; split; eauto].
    assert (Hi : st (p_states p) i = Some PCheckedOut).
    { apply Ho. by eapply list_elem_of_lookup_2. }
    destruct (pool_check_in_spec p fl i len Hp Hi) as (v & next & p' & -> & _ & Hs & _ & Hp').
    cbn. split; [by eexists| |].
    + eapply NoDup_Permutation_proper in Hn; [|symmetry; by apply delete_Permutation].
      by apply NoDup_cons in Hn as [_ Hn].
    + intros j. rewrite (delete_NoDup _ _ _ _ Hn Hk), Hs, st_set_state by (by rewrite Hi).
      rewrite Ho. case_decide; naive_solver.
Qed.

(** A pool never hands out a buffer twice. Starting from a new pool,
    after any sequence of requests and drops, none of which panics, the
    buffers that clients hold are pairwise distinct and are exactly the ones
    the pool has marked as checked out. *)
Theorem pool_exclusive bufs p cs :
  pool_new bufs = Ret p ->
  ret_with (fun '(p, held) => NoDup held /\
              forall i, i ∈ held <-> st (p_states p) i = Some PCheckedOut)
           (run_pool_calls cs p []).
Proof.
  intros (fl & Hp & Hf)%pool_new_ok.
  assert (H : held_ok p []).
  { split; [by exists fl|apply NoDup_nil_2|]. intros i. rewrite elem_of_nil. split; [done|].
    intros Hi. unfold all_free in Hf. rewrite Forall_lookup in Hf. by apply Hf in Hi. }
  clear Hp Hf. revert H. generalize ([] : list N). revert p.
  induction cs as [|c cs IH]; intros p held H; [by destruct H|]. cbn [run_pool_calls].
  eapply ret_with_bind; [by apply run_pool_call_ok|]. intros [p1 h1] H1. by apply IH.
Qed.
End build.

(** * Handles *)
#[export] Instance pool_fixed_buf_laws : BufferImplLaws PoolFixedBuf.
Proof.
  intros [[p c] n [info|]] ptrs lens caps u; [|done]. cbn. by intros [= <- <- <- <-].
Qed.
#[export] Instance registry_fixed_buf_laws : BufferImplLaws RegistryFixedBuf.
Proof.
  intros [[p c] n [info|]] ptrs lens caps u; [|done]. cbn. by intros [= <- <- <- <-].
Qed.

Section handles.
Context {Prof : Profile} {Ui : UioMaxIov}.

(** The pool at [a] of a store, with its free lists. *)
Definition pool_at (sto : Store) (a : N) (fl : N -> list N) : Prop :=
  exists p, st_pools sto !! a = Some p /\ pool_ok p fl.

(** Dropping a buffer returns it. A buffer that [FixedBufPool::try_next]
    handed out is, as long as it exists, absent from the free list of its
    capacity; dropping the type-erased [Buffer] finds the way back to the
    pool through the user data and puts the buffer where it was taken from,
    with the length it then has. *)
Theorem pool_buffer_returns sto a addr cap fl i rest :
  pool_at sto a fl -> fl cap = i :: rest ->
  exists b sto' sto'', fixed_pool_try_next a addr cap sto = Ret (Some b, sto') /\
    pool_at sto' a (<[cap := rest]> fl) /\ caps b = [cap] /\
    drop_in_store b sto' = Ret sto'' /\
    exists fl', pool_at sto'' a fl' /\ forall c, fl' c = fl c.
Proof.
  intros (p & Hp & Hok) Hfl. pose proof (pool_try_next_spec p fl cap Hok) as H.
  rewrite Hfl in H. destruct H as (v & len & next & p' & E & Hcap & Hi & Hs & Hio & Hok').
  assert (Hsm : (N.to_nat i < length (p_states p))%nat) by (by eapply lookup_lt_Some).
  pose proof (pk_small _ _ Hok) as Hk.
  assert (Hc : st (p_states p') i = Some PCheckedOut).
  { rewrite Hs, st_set_state by (by rewrite Hi). by rewrite decide_True. }
  destruct (pool_check_in_spec p' _ i len Hok' Hc) as (v2 & n2 & p2 & E2 & Hv2 & _ & _ & Hok2).
  assert (Hcap2 : iov_len v2 = cap).
  { destruct (pk_cap _ _ Hok cap i) as (v0 & Hv0 & ?); [rewrite Hfl; set_solver|].
    rewrite Hio in Hv2. congruence. }
  rewrite Hcap2, fn_lookup_insert in Hok2.
  exists (mkBuffer addr [mkIovec (iov_base v) len] [iov_len v]
            (UdPool (mkPoolInfo a (as_u16 i))) TyPoolFixedBuf
            (fun ptr len cap u => b ← from_raw_parts (B := PoolFixedBuf) ptr len cap u;
                                  Ret (drop_value b))).
  exists (mkStore (<[a := p']> (st_pools sto)) (st_registries sto)).
  exists (mkStore (<[a := p2]> (<[a := p']> (st_pools sto))) (st_registries sto)).
  split_and!.
  - unfold fixed_pool_try_next. rewrite Hp. cbn [dangling mbind outcome_bind]. by rewrite E.
  - exists p'. cbn. by rewrite lookup_insert_eq.
  - cbn. by rewrite Hcap.
  - unfold drop_in_store, drop_buffer. cbn. unfold pool_fixed_drop. cbn. rewrite lookup_insert_eq. cbn.
    rewrite as_u16_small by lia. by rewrite E2.
  - exists (<[cap := i :: rest]> (<[cap := rest]> fl)). split.
    + exists p2. cbn. by rewrite lookup_insert_eq.
    + intros c. destruct (decide (cap = c)) as [<-|Hne].
      * by rewrite fn_lookup_insert.
      * by rewrite !fn_lookup_insert_ne.
Qed.

(** Buffer [i] is lent with length [n], refused while it is out, and lent
    again with the length it was returned with. *)
Definition lends_once (r : Registry) (i : N) (v : iovec) (n : N) : Prop :=
  exists r', registry_check_out i r = Ret (Some (v, n), r') /\
    registry_check_out i r' = Ret (None, r') /\
    forall n', exists r'', registry_check_in i n' r' = Ret r'' /\
      registry_check_out i r'' = Ret (Some (v, n'), r').

(** The registry lends each buffer to one client at a time. Checking out
    a free buffer yields its [iovec] and length and marks it; until it is
    checked in again every further request for it answers [None]; after it
    was checked in with some length, the next request yields it with that
    length. An index beyond the collection panics. *)
Theorem registry_exclusive (r : Registry) (i : N) :
  length (r_iovecs r) = length (r_states r) ->
  match st (r_states r) i with
  | Some (RFree n) => exists v, st (r_iovecs r) i = Some v /\ lends_once r i v n
  | Some RCheckedOut => registry_check_out i r = Ret (None, r)
  | None => registry_check_out i r = Panic (PUnwrap "invalid buffer index")
  end.
Proof.
  intros Hl. unfold registry_check_out. destruct (st (r_states r) i) as [[n|]|] eqn:Hi;
    [|done|done].
  assert (Hlt : (N.to_nat i < length (r_states r))%nat) by (by eapply lookup_lt_Some).
  destruct (st (r_iovecs r) i) as [v|] eqn:Hv.
  2:{ apply lookup_ge_None in Hv. lia. }
  exists v. split; [done|].
  assert (Hset : forall s (ss : list RegistryState), (N.to_nat i < length ss)%nat -> st (set_state i s ss) i = Some s).
  { intros s ss Hss. unfold set_state. by apply list_lookup_insert_eq. }
  assert (Hlen : forall s ss, length (set_state i s ss) = length (A := RegistryState) ss).
  { intros s ss. unfold set_state. apply length_insert. }
  eexists. unfold registry_check_out, index_vec. rewrite Hi. cbn [unwrap mbind outcome_bind].
  cbn [r_iovecs r_states r_buffers]. rewrite Hv. cbn. split; [done|].
  cbn [r_states r_iovecs r_buffers]. rewrite Hset by done. split; [done|]. intros n'. unfold registry_check_in. cbn.
  rewrite Hset by done. cbn. unfold debug_assert.
  replace (if debug_assertions then _ else _) with (Ret tt) by by destruct debug_assertions.
  cbn. eexists. split; [done|]. cbn. rewrite Hset by (by rewrite Hlen).
  cbn. rewrite Hv. cbn. do 3 f_equal. unfold set_state. by rewrite !list_insert_insert_eq.
Qed.
End handles.

(** * Concrete runs: three buffers, two of capacity 8 and one of 4 *)
#[export] Instance demo_uio : UioMaxIov := 1024.
#[local] Existing Instance debug_profile.

Definition demo_bufs : list Buffer :=
  (fun '(p, n, c) => mkBuffer 9000 [mkIovec p n] [c] UdUnit TyVec (fun _ _ _ _ => Ret []))
    <$> [(100, 0, 8); (200, 3, 4); (300, 8, 8)].
Definition demo_pool : Pool :=
  match pool_new demo_bufs with
  | Ret p => p
  | _ => mkPool [] [] ∅ ∅ []
  end.
Lemma demo_pool_ok : exists fl, pool_ok demo_pool fl /\ fl 8 = [2; 0].
Proof.
  destruct (pool_new_ok demo_bufs demo_pool) as (fl & H & _); [vm_compute; reflexivity|].
  exists fl. split; [done|]. pose proof (pk_chain _ _ H 8) as Hc.
  replace (p_heads demo_pool !! 8) with (Some 2) in Hc by (vm_compute; reflexivity).
  destruct (fl 8) as [|i l]; [done|]. destruct Hc as ([= <-] & len & next & E & Hc).
  vm_compute in E. injection E as <- <-.
  destruct l as [|j l]; [done|]. destruct Hc as ([= <-] & len & next & E & Hc).
  vm_compute in E. injection E as <- <-. destruct l; [done|]. by destruct Hc.
Qed.

Lemma pool_try_next_spec_witness :
  exists fl v n next p', pool_ok demo_pool fl /\
    pool_try_next 8 demo_pool = Ret (Some (v, n, 2), p') /\
    st (p_states demo_pool) 2 = Some (PFree n next) /\ pool_ok p' (<[8 := [0]]> fl).
Proof.
  destruct demo_pool_ok as (fl & H & Hfl). exists fl.
  pose proof (pool_try_next_spec demo_pool fl 8 H) as E. rewrite Hfl in E.
  destruct E as (v & n & next & p' & E & _ & Hi & _ & _ & Hok). by exists v, n, next, p'.
Defined.

Lemma pool_check_in_spec_witness :
  exists p fl, pool_ok p fl /\ st (p_states p) 2 = Some PCheckedOut /\
    exists o p', pool_check_in 2 5 p = Ret (o, p').
Proof.
  destruct demo_pool_ok as (fl & H & Hfl).
  pose proof (pool_try_next_spec demo_pool fl 8 H) as E. rewrite Hfl in E.
  destruct E as (v & n & next & p' & E & _ & Hi & Hs & _ & Hok).
  assert (Hc : st (p_states p') 2 = Some PCheckedOut).
  { rewrite Hs, st_set_state by (by rewrite Hi). done. }
  exists p', (<[8 := [0]]> fl). split; [done|]. split; [done|].
  destruct (pool_check_in_spec p' _ 2 5 Hok Hc) as (v' & next' & p'' & E' & _).
  by eexists _, p''.
Defined.

Lemma pool_exclusive_witness :
  ret_with (fun '(p, held) => NoDup held /\
              forall i, i ∈ held <-> st (p_states p) i = Some PCheckedOut)
           (run_pool_calls [CTake 8; CTake 4; CTake 8; CTake 8; CGive 1 2; CTake 4] demo_pool []).
Proof. apply (pool_exclusive demo_bufs). vm_compute. reflexivity. Defined.

Lemma pool_buffer_returns_witness :
  exists b sto', fixed_pool_try_next 1 9100 8 (mkStore {[1 := demo_pool]} ∅) = Ret (Some b, sto')
    /\ caps b = [8].
Proof.
  destruct demo_pool_ok as (fl & H & Hfl).
  destruct (pool_buffer_returns (mkStore {[1 := demo_pool]} ∅) 1 9100 8 fl 2 [0])
    as (b & sto' & _ & E & _ & Hc & _); [by exists demo_pool|exact Hfl|].
  by exists b, sto'.
Defined.

Lemma registry_exclusive_witness :
  registry_check_out 7 (mkRegistry [mkIovec 100 8] [RFree 3] []) =
    Panic (PUnwrap "invalid buffer index").
Proof. apply (registry_exclusive (mkRegistry [mkIovec 100 8] [RFree 3] []) 7). done. Defined.
