(* ===== verification/Lender.v ===== *)
(** What the two collections of registered buffers promise to those that use
    their buffers: an interface over [Pool], which picks a free buffer of a
    capacity, and [Registry], which is asked for an index. *)
From S2P Require Import Prelude Buf Buffer FixedBuf FixedBufSpec.

(** [P] is a collection, [C] what it is asked for. *)
Class Lender (P C : Type) : Type := {
  may_ask : P -> C -> Prop;
  ask : C -> P -> outcome (option N * P);
  give : N -> N -> P -> outcome P;       (* index, initialised length *)
  lent : P -> N -> Prop;
}.

Class LenderLaws (P C : Type) `{!Lender P C} : Type := {
  sound : P -> Prop;
  (** A request never panics; it lends one buffer that was not lent. *)
  ask_ok c p : sound p -> may_ask p c -> ret_with (fun '(got, p') => sound p' /\
    match got with
    | Some i => ~ lent p i /\ forall j, lent p' j <-> j = i \/ lent p j
    | None => forall j, lent p' j <-> lent p j
    end) (ask c p);
  (** A buffer that is lent can be given back. *)
  give_ok i len p : sound p -> lent p i ->
    ret_with (fun p' => sound p' /\ forall j, lent p' j <-> lent p j /\ j <> i) (give i len p);
}.

(** A collection that has not lent anything yet. *)
Definition unlent {P C} `{!Lender P C} `{!LenderLaws P C} (p : P) : Prop :=
  sound p /\ forall i, ~ lent p i.

(** [p] has lent exactly the buffers [l]. *)
Record lent_ok {P C} `{!Lender P C} `{!LenderLaws P C} (p : P) (l : list N) : Prop := {
  lo_sound : sound p;
  lo_nodup : NoDup l;
  lo_lent i : i ∈ l <-> lent p i;
}.

Section lender.
Context `{!Lender P C} `{!LenderLaws P C}.
Implicit Types (p : P) (l : list N).

Lemma unlent_ok p : unlent p -> lent_ok p [].
Proof.
  intros [Hs Hn]. split; [done|apply NoDup_nil_2|]. intros i. rewrite elem_of_nil.
  split; [done|apply Hn].
Qed.
Lemma lent_ok_perm p l l' : l ≡ₚ l' -> lent_ok p l -> lent_ok p l'.
Proof. intros Hl [Hp Hn Ho]. split; [done|by rewrite <- Hl|]. intros i. by rewrite <- Hl. Qed.

Lemma ask_lent_ok c p l :
  lent_ok p l -> may_ask p c ->
  ret_with (fun '(got, p') => lent_ok p' (option_list got ++ l)) (ask c p).
Proof.
  intros [Hs Hn Hl] Hm. pose proof (ask_ok c p Hs Hm) as H. destruct (ask c p) as [[got p']| | |]; try done.
  destruct got as [i|]; cbn in *; destruct H as [Hs' H].
  - destruct H as [Hi H]. split; [done| |].
    + constructor; [by rewrite Hl|done].
    + intros j. by rewrite H, elem_of_cons, Hl.
  - split; [done|done|]. intros j. by rewrite H, Hl.
Qed.
Lemma give_lent_ok i len p l :
  lent_ok p (i :: l) -> ret_with (fun p' => lent_ok p' l) (give i len p).
Proof.
  intros [Hs Hn Hl]. apply NoDup_cons in Hn as [Hi Hn].
  pose proof (give_ok i len p Hs (proj1 (Hl i) (list_elem_of_here _ _))) as H.
  destruct (give i len p) as [p'| | |]; try done. destruct H as [Hs' H]. split; [done..|].
  intros j. rewrite H, <- Hl, elem_of_cons. split; [|naive_solver]. intros Hj.
  split; [by right|]. by intros ->.
Qed.
(** What is lent is not lent again. *)
Lemma ask_other c p l i p' j :
  lent_ok p l -> may_ask p c -> ask c p = Ret (Some i, p') -> j ∈ l -> i <> j.
Proof.
  intros H Hm E Hj ->. pose proof (ask_lent_ok c p l H Hm) as H'. rewrite E in H'.
  apply lo_nodup in H'. cbn in H'. by apply NoDup_cons in H' as [? _].
Qed.
End lender.

(** * The collections *)
Section collections.
Context {Prof : Profile} {Ui : UioMaxIov}.

Definition pool_ask (cap : N) (p : Pool) : outcome (option N * Pool) :=
  '(got, p) ← pool_try_next cap p;
  Ret (match got with Some (_, _, i) => Some i | None => None end, p).
Definition pool_give (i len : N) (p : Pool) : outcome Pool :=
  '(_, p) ← pool_check_in i len p; Ret p.
#[export] Instance pool_lender : Lender Pool N := {
  may_ask := fun _ _ => True;
  ask := pool_ask;
  give := pool_give;
  lent := fun p i => st (p_states p) i = Some PCheckedOut;
}.
#[export] Instance pool_lender_laws : LenderLaws Pool N.
Proof.
  refine {| sound := fun p => exists fl, pool_ok p fl |}.
  - intros cap p [fl Hp] _. cbn. unfold pool_ask. pose proof (pool_try_next_spec p fl cap Hp) as H.
    destruct (fl cap) as [|i rest]; [rewrite H; cbn; by split; [eexists|]|].
    destruct H as (v & len & next & p' & -> & _ & Hi & Hs & _ & Hp'). cbn.
    split; [by eexists|]. split; [by rewrite Hi|]. intros j.
    rewrite Hs, st_set_state by (by rewrite Hi). case_decide; naive_solver.
  - intros i len p [fl Hp] Hi. cbn in *. unfold pool_give.
    destruct (pool_check_in_spec p fl i len Hp Hi) as (v & next & p' & -> & _ & Hs & _ & Hp').
    cbn. split; [by eexists|]. intros j. rewrite Hs, st_set_state by (by rewrite Hi).
    case_decide; naive_solver.
Defined.

Definition registry_ask (i : N) (r : Registry) : outcome (option N * Registry) :=
  '(got, r) ← registry_check_out i r;
  Ret (match got with Some _ => Some i | None => None end, r).
#[export] Instance registry_lender : Lender Registry N := {
  may_ask := fun r i => (N.to_nat i < length (r_states r))%nat;
  ask := registry_ask;
  give := registry_check_in;
  lent := fun r i => st (r_states r) i = Some RCheckedOut;
}.
#[export] Instance registry_lender_laws : LenderLaws Registry N.
Proof.
  refine {| sound := fun r => length (r_iovecs r) = length (r_states r) |}.
  - intros i r Hl Hi. cbn in *. unfold registry_ask, registry_check_out, index_vec.
    destruct (lookup_lt_is_Some_2 _ _ Hi) as [[n|] Hs]; rewrite Hs; cbn; [|done].
    destruct (lookup_lt_is_Some_2 (r_iovecs r) (N.to_nat i)) as [v Hv]; [lia|]. rewrite Hv. cbn.
    split; [unfold set_state; by rewrite length_insert|]. split; [by rewrite Hs|].
    intros j. unfold set_state. destruct (decide (j = i)) as [->|Hne].
    + rewrite list_lookup_insert_eq by done. naive_solver.
    + rewrite list_lookup_insert_ne by lia. naive_solver.
  - intros i len r Hl Hi. cbn in *. unfold registry_check_in. rewrite Hi.
    cbn [unwrap mbind outcome_bind]. unfold debug_assert.
    replace (if debug_assertions then _ else _) with (Ret tt) by by destruct debug_assertions.
    cbn. split; [unfold set_state; by rewrite length_insert|]. intros j. unfold set_state.
    destruct (decide (j = i)) as [->|Hne].
    + rewrite list_lookup_insert_eq by (by eapply lookup_lt_Some). naive_solver.
    + rewrite list_lookup_insert_ne by lia. naive_solver.
Defined.

Lemma pool_new_unlent bufs p : pool_new bufs = Ret p -> unlent p.
Proof.
  intros (fl & Hp & Hf)%pool_new_ok. split; [by exists fl|]. intros i Hi.
  unfold all_free in Hf. rewrite Forall_lookup in Hf. by apply Hf in Hi.
Qed.
Lemma registry_new_unlent bufs r : registry_new bufs = Ret r -> unlent r.
Proof.
  unfold registry_new. intros ([vs ss] & E & E')%bind_Ret. simplify_eq. cbn.
  enough (length vs = length ss /\ Forall (fun s => s <> RCheckedOut) ss) as [Hl Hf].
  { split; [done|]. cbn. intros i Hi. rewrite Forall_lookup in Hf. by apply Hf in Hi. }
  revert vs ss E. induction (take max_buffers bufs) as [|b bs IH]; cbn; intros vs ss E.
  { by simplify_eq. }
  apply bind_Ret in E as ([v len] & _ & E). apply bind_Ret in E as ([vs' ss'] & E1 & E). simplify_eq.
  destruct (IH _ _ E1). cbn. split; [congruence|by constructor].
Qed.
End collections.
