(* ===== verification/Poison.v ===== *)
(** The [Mutex] around a [FixedBufRegistry] ([src/src/buf/fixed/registry.rs]).
    Every handle locks it with [lock().unwrap()]: [check_out], and the
    destructor of each buffer. A panic under the lock poisons it, and a
    panic of one task does not end the others, since tokio catches it. So
    here a call has an outcome and also a state that is left. *)
From S2P Require Import Prelude Buf Buffer FixedBuf FixedBufSpec Lender.

Record Mutex (A : Type) : Type := mkMutex { poisoned : bool; inside : A }.
Arguments mkMutex {A} poisoned inside.
Arguments poisoned {A} _.
Arguments inside {A} _.

Definition poison_error : panic := PUnwrap "called `Result::unwrap()` on an `Err` value: PoisonError".

(** [f] under [lock().unwrap()]; what [f] has done before a panic is not
    undone, and it does nothing before the panics below. *)
Definition locked {A B} (f : A -> outcome (B * A)) (m : Mutex A) : outcome B * Mutex A :=
  if poisoned m then (Panic poison_error, m)
  else match f (inside m) with
       | Ret (b, a) => (Ret b, mkMutex false a)
       | Panic p => (Panic p, mkMutex true (inside m))
       | Undefined why => (Undefined why, m)
       | NoFuel => (NoFuel, m)
       end.

Section poison.
Context {Prof : Profile} {Ui : UioMaxIov}.

(** The registry, and the buffers that tasks hold, by index. *)
Record shared : Type := mkShared { s_mutex : Mutex Registry; s_held : list N }.
Inductive call : Type := CheckOut (i : N) | DropBuffer (i len : N).

(** [FixedBufRegistry::check_out] up to the end of its block, and the
    destructor of [FixedBuf]; a buffer whose destructor panics is gone. *)
Definition locked_check_out (i : N) (s : shared) : outcome (option N) * shared :=
  let '(r, m) := locked (registry_ask i) (s_mutex s) in
  (r, mkShared m (match r with Ret (Some i) => i :: s_held s | _ => s_held s end)).
Fixpoint remove_once (i : N) (l : list N) : list N :=
  match l with [] => [] | j :: l => if decide (i = j) then l else j :: remove_once i l end.
Definition locked_drop (i len : N) (s : shared) : outcome (option N) * shared :=
  let '(r, m) := locked (fun r => r ← registry_check_in i len r; Ret (None, r)) (s_mutex s) in
  (r, mkShared m (remove_once i (s_held s))).
Definition run_call (c : call) (s : shared) : outcome (option N) * shared :=
  match c with
  | CheckOut i => locked_check_out i s
  | DropBuffer i len => locked_drop i len s
  end.

(** Buffers are dropped by those who have them. *)
Definition may_call (c : call) (s : shared) : Prop :=
  match c with CheckOut _ => True | DropBuffer i _ => i ∈ s_held s end.
Inductive calls : shared -> shared -> Prop :=
  | calls_none s : calls s s
  | calls_more s c s' : may_call c s -> calls (run_call c s).2 s' -> calls s s'.

Definition calm (s : shared) : Prop :=
  poisoned (s_mutex s) = false /\ lent_ok (C := N) (inside (s_mutex s)) (s_held s).
Definition in_range (c : call) (r : Registry) : Prop :=
  match c with CheckOut i => (N.to_nat i < length (r_states r))%nat | DropBuffer _ _ => True end.

#[export] Instance in_range_dec c r : Decision (in_range c r).
Proof. destruct c; cbn; apply _. Defined.

Lemma remove_once_perm i l : i ∈ l -> l ≡ₚ i :: remove_once i l.
Proof.
  induction l as [|j l IH]; [by intros ?%elem_of_nil|]. cbn. case_decide as E; [by subst|].
  intros [?|Hi]%elem_of_cons; [done|]. rewrite (IH Hi) at 1. apply Permutation_swap.
Qed.

Lemma lent_not_dropped r j :
  lent (C := N) r j -> registry_drop r = Panic (PAssert "all buffers must be checked in").
Proof.
  cbn. intros Hj. unfold registry_drop, assert.
  destruct (forallb _ (r_states r)) eqn:Hf; [|done].
  rewrite forallb_forall in Hf. apply list_elem_of_lookup_2, list_elem_of_In in Hj. by apply Hf in Hj.
Qed.

Lemma calm_step c s :
  calm s -> may_call c s -> in_range c (inside (s_mutex s)) ->
  ret_with (fun _ => True) (run_call c s).1 /\ calm (run_call c s).2.
Proof.
  intros [Hp Hl] Hm Hr. destruct s as [[poi r] held]. cbn in *. subst poi.
  destruct c as [i|i len]; cbn [run_call].
  - pose proof (ask_lent_ok (C := N) i r held Hl Hr) as H. cbn in H. unfold locked_check_out, locked. cbn.
    destruct (registry_ask i r) as [[got r']| | |]; try done. split; [done|]. split; [done|]. by destruct got.
  - pose proof (lent_ok_perm _ _ _ (remove_once_perm i held Hm) Hl) as Hl'.
    pose proof (give_lent_ok (C := N) i len r _ Hl') as H. cbn in H. unfold locked_drop, locked. cbn.
    destruct (registry_check_in i len r) as [r'| | |]; try done.
Qed.

Lemma stray_step i s :
  poisoned (s_mutex s) = false -> ~ in_range (CheckOut i) (inside (s_mutex s)) ->
  run_call (CheckOut i) s =
    (Panic (PUnwrap "invalid buffer index"), mkShared (mkMutex true (inside (s_mutex s))) (s_held s)).
Proof.
  intros Hp Hr. destruct s as [[poi r] held]. cbn in *. subst poi.
  unfold locked_check_out, locked, registry_ask, registry_check_out. cbn.
  by rewrite (proj2 (lookup_ge_None (r_states r) (N.to_nat i))) by lia.
Qed.

Lemma poisoned_step c s :
  poisoned (s_mutex s) = true -> (run_call c s).1 = Panic poison_error /\ s_mutex (run_call c s).2 = s_mutex s.
Proof.
  destruct s as [[poi r] held]. cbn. intros ->. by destruct c.
Qed.
Lemma poisoned_calls s s' :
  calls s s' -> poisoned (s_mutex s) = true -> s_mutex s' = s_mutex s.
Proof.
  induction 1 as [|s c s' _ _ IH]; [done|]. intros Hp.
  destruct (poisoned_step c s Hp) as [_ E]. rewrite IH; [done|by rewrite E].
Qed.
Lemma calls_calm s s' : calls s s' -> calm s -> calm s' \/ poisoned (s_mutex s') = true.
Proof.
  induction 1 as [|s c s' Hm Hc IH]; intros Hs; [by left|].
  destruct (decide (in_range c (inside (s_mutex s)))) as [Hr|Hr].
  - apply IH. by apply calm_step.
  - right. destruct c as [i|]; [|by destruct Hr]. rewrite (stray_step i s (proj1 Hs) Hr) in Hc.
    by rewrite (poisoned_calls _ _ Hc).
Qed.

(** C39. One wrong index spoils a registry for good. Whatever calls tasks have
    made before, as long as all of them asked for buffers that exist, no
    call panics, and what is lent is what tasks hold. A request for an index
    beyond the collection panics under the lock. From then on, whoever calls
    what and in whatever order, every further request panics, for a good
    index too, and so does the destructor of every buffer that a task still
    holds: no buffer ever comes back. If one was out, the destructor of the
    registry panics as well. *)
Theorem registry_poisoned (bufs : list Buffer) (r : Registry) (s : shared) :
  registry_new bufs = Ret r -> calls (mkShared (mkMutex false r) []) s ->
  poisoned (s_mutex s) = false ->
  lent_ok (C := N) (inside (s_mutex s)) (s_held s) /\
  (forall c, may_call c s -> in_range c (inside (s_mutex s)) ->
     ret_with (fun _ => True) (run_call c s).1) /\
  (forall i, ~ in_range (CheckOut i) (inside (s_mutex s)) ->
     (run_call (CheckOut i) s).1 = Panic (PUnwrap "invalid buffer index") /\
     forall s', calls (run_call (CheckOut i) s).2 s' ->
       (forall c, (run_call c s').1 = Panic poison_error) /\
       (forall j, j ∈ s_held s -> lent (C := N) (inside (s_mutex s')) j) /\
       (s_held s <> [] -> registry_drop (inside (s_mutex s')) = Panic (PAssert "all buffers must be checked in"))).
Proof.
  intros Hn Hc Hp. assert (Hs : calm s).
  { destruct (calls_calm _ s Hc) as [|E]; [|done|congruence]. split; [done|].
    by eapply unlent_ok, registry_new_unlent. }
  split; [apply Hs|]. split; [intros c Hm Hr; by apply calm_step|].
  intros i Hi. rewrite (stray_step i s Hp Hi). split; [done|]. intros s' Hs'.
  pose proof (poisoned_calls _ _ Hs' eq_refl) as E. cbn in E.
  assert (Hl : forall j, j ∈ s_held s -> lent (C := N) (inside (s_mutex s')) j).
  { intros j Hj. rewrite E. by apply (lo_lent _ _ (proj2 Hs)). }
  split; [intros c; apply poisoned_step; by rewrite E|]. split; [done|]. intros Hne.
  destruct (s_held s) as [|j held]; [done|]. by eapply lent_not_dropped, Hl, list_elem_of_here.
Qed.
End poison.

(** * Two tasks and a registry of three buffers *)
#[local] Existing Instance debug_profile.
Definition demo_registry : Registry :=
  match registry_new demo_bufs with Ret r => r | _ => mkRegistry [] [] [] end.
Definition one_out : shared := (run_call (CheckOut 1) (mkShared (mkMutex false demo_registry) [])).2.
Lemma registry_poisoned_witness :
  s_held one_out = [1] /\
  (run_call (DropBuffer 1 0) (run_call (CheckOut 3) one_out).2).1 = Panic poison_error.
Proof.
  destruct (registry_poisoned demo_bufs demo_registry one_out) as (_ & _ & H).
  - vm_compute. reflexivity.
  - apply (calls_more _ (CheckOut 1)); [exact I|apply calls_none].
  - vm_compute. reflexivity.
  - split; [vm_compute; reflexivity|]. destruct (H 3) as [_ H3]; [vm_compute; lia|].
    destruct (H3 _ (calls_none _)) as [H4 _]. apply H4.
Defined.
