(* ===== verification/BufferFlight.v ===== *)
(** A collection of registered buffers and the driver together. A fixed
    buffer is in the collection, in the hands of a task, or inside the data
    of an operation: submitting moves it into the driver, and when the data is
    let go of (see [Ownership.v]) it goes back to the task, as part of the
    result, or is dropped, which checks it in. The collection is any
    [Lender], [Pool] and [Registry] being two. *)
From S2P Require Import Prelude Slab IoUring SlabList Op Driver DriverSpec System Ownership.
From S2P Require Import Buf Buffer FixedBuf FixedBufSpec Lender.

Section flight.
Context {Prof : Profile} {Ui : UioMaxIov} {Cq : Cqueue} `{!SlabOps slab}.
Context {T Output : Type} `{!Completable T Output} `{!Updateable T Output}.
Context `{!Lender P C}.
(** The indices of the buffers that the data of an operation owns. *)
Context `{!Keyed T (list N)}.

Record fleet : Type := mkFleet {
  f_sys : sys slab T;
  f_kept : gmap N (list N);
  f_pool : P;
  f_out : list N;        (* in the hands of tasks *)
}.
Implicit Types f : fleet.

Definition inside (kept : gmap N (list N)) : list N := map_to_list kept ≫= snd.

Fixpoint check_in_all (ids : list N) (len : N) (p : P) : outcome P :=
  match ids with
  | [] => Ret p
  | i :: ids => p ← give i len p; check_in_all ids len p
  end.

(** An event of the driver says what becomes of the buffers of an operation
    that ends: [back] to the task, or dropped with [len] bytes initialised. *)
Inductive fleet_event : Type :=
  | FAsk (c : C)
  | FGive (k : nat) (len : N)       (* the [k]-th buffer of [f_out] is dropped *)
  | FDriver (e : event T) (back : bool) (len : N).

Definition run_fleet f (ev : fleet_event) : outcome fleet :=
  match ev with
  | FAsk c =>
      '(got, p) ← ask c (f_pool f);
      Ret (mkFleet (f_sys f) (f_kept f) p (option_list got ++ f_out f))
  | FGive k len =>
      match f_out f !! k with
      | None => Ret f
      | Some i =>
          p ← give i len (f_pool f);
          Ret (mkFleet (f_sys f) (f_kept f) p (delete k (f_out f)))
      end
  | FDriver e back len =>
      s ← run_event (Output := Output) (f_sys f) e;
      let kept := kept_after e s (f_kept f) in
      match e with
      | ESubmit _ _ d => Ret (mkFleet s kept (f_pool f) (list_difference (f_out f) (key d)))
      | _ =>
          let gone := inside (filter (fun ik => ~ holds s ik.1) (f_kept f)) in
          if back then Ret (mkFleet s kept (f_pool f) (gone ++ f_out f))
          else p ← check_in_all gone len (f_pool f); Ret (mkFleet s kept p (f_out f))
      end
  end.

(** A task submits only buffers that it has. *)
Definition fleet_enabled (promise : CqeResult -> Prop) (good : Kind -> T -> Prop) f (ev : fleet_event) : Prop :=
  match ev with
  | FAsk c => may_ask (f_pool f) c
  | FGive _ _ => True
  | FDriver e _ _ =>
      enabled promise good (f_sys f) e /\
      match e with
      | ESubmit _ _ d => NoDup (key (K := list N) d) /\ forall i, i ∈ key (K := list N) d -> i ∈ f_out f
      | _ => True
      end
  end.

Inductive fleet_reachable (promise : CqeResult -> Prop) (good : Kind -> T -> Prop) (p : P) :
  fleet -> Prop :=
  | fleet_starts : fleet_reachable promise good p (mkFleet sys_init ∅ p [])
  | fleet_steps f ev f' :
      fleet_reachable promise good p f -> fleet_enabled promise good f ev ->
      run_fleet f ev = Ret f' -> fleet_reachable promise good p f'.
End flight.
Arguments mkFleet {slab T P} f_sys f_kept f_pool f_out.
Arguments f_sys {slab T P} _.
Arguments f_kept {slab T P} _.
Arguments f_pool {slab T P} _.
Arguments f_out {slab T P} _.
Arguments FAsk {T C} c.
Arguments FGive {T C} k len.
Arguments FDriver {T C} e back len.

(** * Where the buffers are *)
Section places.
Context {Prof : Profile} {Ui : UioMaxIov} {Cq : Cqueue} `{!SlabOps slab} `{!SlabLaws slab}.
Context {T Output : Type} `{!Completable T Output} `{!Updateable T Output}.
Context (promise : CqeResult -> Prop) (good : Kind -> T -> Prop) `{!ClientLaws T Output promise good}.
Context `{!Keyed T (list N)} `{!KeyedLaws T Output (list N)}.
Context `{!Lender P C} `{!LenderLaws P C} (first : P).
Implicit Types f : fleet (slab := slab) (T := T) (P := P).

Lemma inside_insert i ks kept :
  kept !! i = None -> inside (<[i := ks]> kept) ≡ₚ ks ++ inside kept.
Proof. intros H. unfold inside. by rewrite map_to_list_insert. Qed.
Lemma inside_elem i ks j kept : kept !! i = Some ks -> j ∈ ks -> j ∈ inside kept.
Proof.
  intros H Hj. unfold inside. apply list_elem_of_bind. exists (i, ks).
  split; [done|]. by apply elem_of_map_to_list.
Qed.
Lemma inside_split (Q : N * list N -> Prop) `{!forall x, Decision (Q x)} kept :
  inside kept ≡ₚ inside (filter (fun x => ~ Q x) kept) ++ inside (filter Q kept).
Proof.
  induction kept as [|i ks m Hi IH] using map_ind; [done|].
  assert (Hf : forall (R : N * list N -> Prop) `{!forall x, Decision (R x)}, filter R m !! i = None).
  { intros R HR. apply map_lookup_filter_None. by left. }
  rewrite inside_insert by done. destruct (decide (Q (i, ks))) as [HQ|HQ].
  - rewrite (map_filter_insert_True Q) by done. rewrite (map_filter_insert_False (fun x => ~ Q x)) by (intros Hn; by apply Hn).
    rewrite (delete_id m) by done. rewrite inside_insert by apply Hf. rewrite IH. solve_Permutation.
  - rewrite (map_filter_insert_False Q) by done. rewrite (map_filter_insert_True (fun x => ~ Q x)) by done.
    rewrite (delete_id m) by done. rewrite inside_insert by apply Hf. rewrite IH. solve_Permutation.
Qed.

(** Checking in what somebody had. *)
Lemma check_in_all_ok ids len (p : P) l :
  lent_ok p (ids ++ l) -> ret_with (fun p' => lent_ok p' l) (check_in_all ids len p).
Proof.
  revert p. induction ids as [|i ids IH]; intros p H; [done|]. cbn [check_in_all].
  eapply ret_with_bind; [by apply give_lent_ok|]. intros p'. apply IH.
Qed.

Record fleet_inv f (sent : gmap N (list N)) : Prop := {
  fi_own : own_inv promise good (f_sys f) sent (f_kept f);
  fi_held : lent_ok (f_pool f) (f_out f ++ inside (f_kept f));
}.

(** An event of the driver that submits nothing frees [gone]. *)
Lemma freed_inv f sent e s :
  fleet_inv f sent -> enabled promise good (f_sys f) e -> run_event (Output := Output) (f_sys f) e = Ret s ->
  (forall h k d, e <> ESubmit h k d) ->
  let kept := kept_after e s (f_kept f) in
  let gone := inside (filter (fun ik => ~ holds s ik.1) (f_kept f)) in
  own_inv promise good s sent kept /\ lent_ok (f_pool f) (gone ++ f_out f ++ inside kept).
Proof.
  intros [Ho Hh] He E Hne kept gone. split.
  - replace sent with (sent_after e s sent) by (destruct e; [by edestruct Hne|done..]).
    by eapply own_event.
  - refine (lent_ok_perm _ _ _ _ Hh).
    replace kept with (filter (fun ik => holds s ik.1) (f_kept f)) by (destruct e; [by edestruct Hne|done..]).
    rewrite (inside_split (fun ik => holds s ik.1) (f_kept f)). fold gone. solve_Permutation.
Qed.

Lemma take_away (out ks : list N) :
  NoDup out -> NoDup ks -> (forall i, i ∈ ks -> i ∈ out) -> out ≡ₚ list_difference out ks ++ ks.
Proof.
  intros Hn Hk Hin. apply NoDup_Permutation; [done| |].
  - apply NoDup_app. split; [by apply NoDup_list_difference|]. split; [|done].
    intros x [_ ?]%list_elem_of_difference. done.
  - intros x. rewrite elem_of_app, list_elem_of_difference.
    destruct (decide (x ∈ ks)); naive_solver.
Qed.

Lemma loaded_inv f sent h k d s :
  fleet_inv f sent -> fleet_enabled promise good f (FDriver (ESubmit h k d) false 0) ->
  run_event (Output := Output) (f_sys f) (ESubmit h k d) = Ret s ->
  fleet_inv (mkFleet s (kept_after (ESubmit h k d) s (f_kept f)) (f_pool f)
               (list_difference (f_out f) (key d))) (sent_after (ESubmit h k d) s sent).
Proof.
  intros [Ho Hh] (He & Hn & Hin) E.
  destruct (submit_fresh promise good _ _ _ _ _ _ _ Ho He E) as (i & Hk & Hi).
  pose proof (own_event promise good _ _ _ _ s Ho He E) as Ho'. split; cbn [f_sys f_kept f_pool f_out]; [done|].
  rewrite Hk. refine (lent_ok_perm _ _ _ _ Hh). rewrite inside_insert by done.
  pose proof (lo_nodup _ _ Hh) as Hnd. apply NoDup_app in Hnd as (Hno & _ & _).
  rewrite (take_away (f_out f) (key d)) at 1 by done. by rewrite (assoc_L (++)).
Qed.

(** Buffers of tasks come and go, those inside operations stay. *)
Lemma give_frame k len p out l i :
  lent_ok p (out ++ l) -> out !! k = Some i ->
  ret_with (fun p' => lent_ok p' (delete k out ++ l)) (give i len p).
Proof.
  intros H Hk. apply give_lent_ok. refine (lent_ok_perm _ _ _ _ H).
  exact (Permutation_app_tail l (delete_Permutation _ _ _ Hk)).
Qed.

Lemma fleet_event_ok f sent ev :
  fleet_inv f sent -> fleet_enabled promise good f ev ->
  safe (fun f' => exists sent', fleet_inv f' sent') (run_fleet (Output := Output) f ev).
Proof.
  intros H He. pose proof H as [Ho Hh]. destruct ev as [c|k len|e back len]; cbn [run_fleet].
  - apply safe_ret_with. eapply ret_with_bind; [by apply (ask_lent_ok c _ _ Hh)|].
    intros [got p] Hp. exists sent. split; [done|]. cbn. by rewrite <- (assoc_L (++)).
  - destruct (f_out f !! k) as [i|] eqn:Hk; [|by exists sent]. apply safe_ret_with.
    eapply ret_with_bind; [by eapply give_frame|]. intros p Hp. by exists sent.
  - pose proof (event_inv promise good _ e (own_sys _ _ _ _ _ Ho) (proj1 He)) as Hs.
    destruct (run_event (f_sys f) e) as [s|[]| |] eqn:E; try done. cbn [mbind outcome_bind].
    destruct e as [h k d|i c|h cx|h]; [cbn [safe]; eexists; by apply (loaded_inv f sent h k d s)|..];
      (destruct (freed_inv f sent _ s H (proj1 He) E) as [H1 H2]; [done|];
       destruct back; cbn [safe]; [exists sent; split; [exact H1|]; cbn; by rewrite <- (assoc_L (++))|];
       pose proof (check_in_all_ok _ len _ _ H2) as H3;
       destruct (check_in_all _ len (f_pool f)) as [p| | |]; try done; cbn; exists sent; by split).
Qed.

Lemma fleet_reachable_inv f :
  unlent first -> fleet_reachable (Output := Output) promise good first f -> exists sent, fleet_inv f sent.
Proof.
  intros Hu. induction 1 as [|f ev f' _ [sent IH] He E].
  - exists ∅. split; [apply (owned_inv (Output := Output) promise good); constructor|].
    by apply unlent_ok.
  - pose proof (fleet_event_ok f sent ev IH He) as H. by rewrite E in H.
Qed.

(** The buffers of an operation in flight. *)
Definition only_inside f (i : N) (ks : list N) : Prop :=
  f_kept f !! i = Some ks /\ held (f_sys f) i ks /\ forall j, j ∈ ks ->
    lent (f_pool f) j /\ j ∉ f_out f /\
    (forall i' ks', f_kept f !! i' = Some ks' -> j ∈ ks' -> i' = i) /\
    (forall c j' p', may_ask (f_pool f) c -> ask c (f_pool f) = Ret (Some j', p') -> j' <> j).

Lemma in_flight_inside f sent i k :
  fleet_inv f sent -> s_kernel (f_sys f) !! i = Some k -> exists ks, only_inside f i ks.
Proof.
  intros [Ho Hh] Hi. destruct (in_flight_held _ _ _ _ _ _ _ Ho Hi) as (ks & Hk & _ & Hheld).
  exists ks. split; [done|]. split; [done|]. intros j Hj. pose proof (inside_elem i ks j _ Hk Hj) as Hin.
  pose proof (lo_nodup _ _ Hh) as Hn. apply NoDup_app in Hn as (_ & Hn & Hni).
  split_and!.
  - apply (lo_lent _ _ Hh), elem_of_app. by right.
  - intros Ho'. by apply (Hn j).
  - intros i' ks' Hk' Hj'. destruct (decide (i' = i)) as [|Hne]; [done|exfalso].
    rewrite <- (insert_delete_id _ _ _ Hk), inside_insert in Hni by apply lookup_delete_eq.
    apply NoDup_app in Hni as (_ & Hni & _). apply (Hni j Hj), (inside_elem i' ks'); [|done].
    by rewrite lookup_delete_ne.
  - intros c j' p' Hm E. eapply (ask_other c _ _ j' p' j Hh Hm E), elem_of_app. by right.
Qed.
Lemma fleet_safe f ev :
  unlent first -> fleet_reachable (Output := Output) promise good first f ->
  fleet_enabled promise good f ev -> safe (fun _ => True) (run_fleet (Output := Output) f ev).
Proof.
  intros Hu [sent H]%fleet_reachable_inv He; [|done].
  eapply safe_mono; [by apply (fleet_event_ok f sent ev)|done].
Qed.

(** C15. A buffer the kernel works on is nobody else's. Buffers are taken from a
    new pool or registry, submitted with operations, given back with results
    or dropped, and operations are completed, polled, dropped and cancelled,
    in any order. Nothing panics. As long as the kernel works on an
    operation, the fixed buffers that were submitted with it are checked out,
    no task holds one of them, no other operation has one, and asking the
    collection for a buffer never yields one. And no buffer is lost: when the
    kernel and all handles are done, the buffers checked out are those that
    tasks hold. *)
Theorem in_flight_buffer_exclusive f :
  unlent first -> fleet_reachable (Output := Output) promise good first f ->
  (forall ev, fleet_enabled promise good f ev ->
     safe (fun _ => True) (run_fleet (Output := Output) f ev)) /\
  (forall i k, s_kernel (f_sys f) !! i = Some k -> exists ks, only_inside f i ks) /\
  (s_kernel (f_sys f) = ∅ ->
   (forall h hd, s_handles (f_sys f) !! h = Some hd -> live hd = None) ->
   forall j, lent (f_pool f) j <-> j ∈ f_out f).
Proof.
  intros Hu Hr. pose proof (fun ev => fleet_safe f ev Hu Hr) as Hs.
  apply fleet_reachable_inv in Hr as [sent H]; [|done]. pose proof H as [Ho Hh].
  split; [done|]. split; [intros i k; by apply (in_flight_inside f sent i k)|].
  intros Hk Hl j. rewrite <- (lo_lent _ _ Hh), (nothing_kept promise good _ _ _ Ho Hk Hl).
  unfold inside. rewrite map_to_list_empty. cbn. by rewrite app_nil_r.
Qed.
End places.

(** * Runs *)
Section fleet_runs.
Context {Prof : Profile} {Ui : UioMaxIov} {Cq : Cqueue} `{!SlabOps slab}.
Context {T Output : Type} `{!Completable T Output} `{!Updateable T Output}.
Context `{!Lender P C} `{!Keyed T (list N)}.
Context (promise : CqeResult -> Prop) (good : Kind -> T -> Prop).
Abbreviation F := (fleet (slab := slab) (T := T) (P := P)).

Fixpoint run_fleets (f : F) (evs : list (fleet_event (T := T) (C := C))) : outcome F :=
  match evs with
  | [] => Ret f
  | ev :: evs => f ← run_fleet (Output := Output) f ev; run_fleets f evs
  end.
Fixpoint fleet_allowed (f : F) (evs : list (fleet_event (T := T) (C := C))) : Prop :=
  match evs with
  | [] => True
  | ev :: evs => fleet_enabled promise good f ev /\
                 match run_fleet (Output := Output) f ev with
                 | Ret f => fleet_allowed f evs
                 | _ => True
                 end
  end.
Lemma fleets_reachable p f evs f' :
  fleet_reachable (Output := Output) promise good p f -> fleet_allowed f evs ->
  run_fleets f evs = Ret f' -> fleet_reachable (Output := Output) promise good p f'.
Proof.
  revert f. induction evs as [|ev evs IH]; intros f Hf Ha E; cbn in *; [by simplify_eq|].
  destruct Ha as [He Ha]. destruct (run_fleet f ev) as [f1| | |] eqn:E1; try done.
  apply (IH f1); [|done..]. by apply (fleet_steps _ _ _ f ev).
Qed.
End fleet_runs.

(** * A read that is dropped while the kernel fills its buffer *)
Module Fleet.
#[local] Existing Instance debug_profile.
(** The data of an operation: the indices it owns, and results. *)
Definition data : Type := list N * list (io_result N).
Abbreviation Out := (list (io_result N)).
#[export] Instance owns : Keyed data (list N) := fst.
#[export] Instance fleet_completable : Completable data Out := fun d c => Ret (d.2 ++ [result_ c]).
#[export] Instance fleet_updateable : Updateable data Out := {
  update := fun d c => Ret (d.1, d.2 ++ [result_ c]);
  should_yield := fun d => true;
  yield_result := fun d => Ret (d.2, (d.1, []));
}.
Definition anything {A} : A -> Prop := fun _ => True.
#[export] Instance fleet_laws : ClientLaws data Out anything anyone.
Proof. by split. Qed.
#[export] Instance fleet_key : KeyedLaws data Out (list N).
Proof. split; [by intros d d' c [= <-]|by intros d d' out [= _ <-]]. Qed.

Abbreviation F := (fleet (slab := gmap N) (T := data) (P := Pool)).

(** Two buffers are taken and read into; one read ends and gives its buffer
    back, the future of the other is dropped. *)
Definition events : list (fleet_event (T := data) (C := N)) :=
  [FAsk 8; FAsk 4; FDriver (ESubmit 7 Single ([1], [])) false 0;
   FDriver (ESubmit 8 Single ([2], [])) false 0; FDriver (ECompletion 0 (Cqe 0 4 0)) false 0;
   FDriver (EPoll 7 (mkWaker 1 0)) true 0; FDriver (EDrop 8) false 0].
Definition first : F := mkFleet sys_init ∅ demo_pool [].
Definition after : F := match run_fleets (Output := Out) first events with Ret f => f | _ => first end.
Lemma after_reachable : fleet_reachable (Output := Out) anything anyone demo_pool after.
Proof.
  apply (fleets_reachable (Output := Out) anything anyone demo_pool first events after).
  - apply fleet_starts.
  - vm_compute. repeat match goal with |- _ /\ _ => split | |- ex _ => eexists end; auto;
      first [apply NoDup_singleton|intros x ->%list_elem_of_singleton; by left].
  - vm_compute. reflexivity.
Qed.

Lemma after_unlent : unlent demo_pool.
Proof. apply (pool_new_unlent demo_bufs). vm_compute. reflexivity. Qed.

Lemma in_flight_buffer_exclusive_witness :
  f_out after = [1] /\ s_kernel (f_sys after) !! 1 = Some Single /\
  st (p_states (f_pool after)) 2 = Some PCheckedOut.
Proof.
  destruct (in_flight_buffer_exclusive (Output := Out) anything anyone demo_pool after
              after_unlent after_reachable) as (_ & H & _).
  split; [vm_compute; reflexivity|]. split; [vm_compute; reflexivity|].
  destruct (H 1 Single) as (ks & Hk & _ & Hj); [vm_compute; reflexivity|].
  destruct (Hj 2) as [Hc _]; [|exact Hc]. vm_compute in Hk. injection Hk as <-. by left.
Defined.
End Fleet.
