(* ===== verification/PoolWait.v ===== *)
(** [src/src/buf/fixed/pool.rs]: [FixedBufPool::next], the asynchronous wait
    for a buffer, and the [Notify] objects through which [Pool::check_in]
    wakes the tasks that wait.

    [tokio::sync::Notify] is not code of the repository: it is a class, whose
    laws are its documented behaviour, stated over a view of its state. The
    future is a state machine, one constructor per point where it can be
    suspended. Tasks, buffers in use and the pool form a transition system;
    the theorem is that no wake-up is lost in it. *)
From S2P Require Import Prelude Buf Buffer IoUring SlabList Op FixedBuf FixedBufSpec.

(** * [tokio::sync::Notify] *)

(** A [Notified] future, by a name: [notified_drop] is also what happens to
    one that has completed. [notify_one] and [notified_drop] tell which
    tasks they wake. *)
Class NotifyOps (nt : Type) : Type := {
  notify_default : nt;
  notify_one : nt -> nt * list Waker;
  notified : nt -> N * nt;
  notified_poll : N -> Waker -> nt -> Poll unit * nt;
  notified_drop : N -> nt -> nt * list Waker;
}.

(** The documented behaviour. A future is new until its first poll, then
    waits in a queue with the waker of its last poll until it is notified;
    at most one permit is stored, and only while nobody waits. *)
Inductive fut_state : Type := FNew | FWaiting (w : Waker) | FNotified | FDone.
#[export] Instance fut_state_eq_dec : EqDecision fut_state.
Proof. solve_decision. Defined.

Record notify_view : Type := mkView {
  nv_permit : bool;
  nv_queue : list N;
  nv_futs : gmap N fut_state;
}.

(** "If a task is currently waiting, that task is notified. Otherwise, a
    permit is stored." *)
Definition view_one (v : notify_view) : notify_view * list Waker :=
  match nv_queue v with
  | [] => (mkView true [] (nv_futs v), [])
  | id :: q =>
      (mkView (nv_permit v) q (<[id := FNotified]> (nv_futs v)),
       match nv_futs v !! id with Some (FWaiting w) => [w] | _ => [] end)
  end.
(** "The next call to [notified().await] will complete immediately consuming
    the permit"; a pending poll replaces the waker. *)
Definition view_poll (id : N) (cx : Waker) (v : notify_view) : Poll unit * notify_view :=
  match nv_futs v !! id with
  | Some FNew =>
      if nv_permit v then (Ready tt, mkView false (nv_queue v) (<[id := FDone]> (nv_futs v)))
      else (Pending, mkView false (nv_queue v ++ [id]) (<[id := FWaiting cx]> (nv_futs v)))
  | Some (FWaiting _) =>
      (Pending, mkView (nv_permit v) (nv_queue v) (<[id := FWaiting cx]> (nv_futs v)))
  | Some FNotified =>
      (Ready tt, mkView (nv_permit v) (nv_queue v) (<[id := FDone]> (nv_futs v)))
  | Some FDone | None => (Ready tt, v)
  end.
(** A dropped future leaves the queue; if it was notified and has not
    completed, the notification goes to the next one. *)
Definition view_drop (id : N) (v : notify_view) : notify_view * list Waker :=
  let v' := mkView (nv_permit v) (filter (fun x => x <> id) (nv_queue v))
                   (delete id (nv_futs v)) in
  match nv_futs v !! id with
  | Some FNotified => view_one v'
  | _ => (v', [])
  end.

Class NotifyLaws (nt : Type) `{!NotifyOps nt} : Type := {
  nt_view : nt -> notify_view;
  notify_default_view : nt_view notify_default = mkView false [] ∅;
  notify_one_view n :
    nt_view (notify_one n).1 = (view_one (nt_view n)).1 /\
    (notify_one n).2 = (view_one (nt_view n)).2;
  notified_view n :
    let '(id, n') := notified n in
    nv_futs (nt_view n) !! id = None /\
    nt_view n' = mkView (nv_permit (nt_view n)) (nv_queue (nt_view n))
                        (<[id := FNew]> (nv_futs (nt_view n)));
  notified_poll_view id cx n :
    (notified_poll id cx n).1 = (view_poll id cx (nt_view n)).1 /\
    nt_view (notified_poll id cx n).2 = (view_poll id cx (nt_view n)).2;
  notified_drop_view id n :
    nt_view (notified_drop id n).1 = (view_drop id (nt_view n)).1 /\
    (notified_drop id n).2 = (view_drop id (nt_view n)).2;
}.

(** * The future of [FixedBufPool::next] *)

(** Not polled yet; suspended at [notified.as_mut().await] in
    [next_when_notified]; resolved. *)
Inductive NextFuture : Type := NextStart | NextAwaits (id : N) | NextDone.

Section next.
Context {Prof : Profile} {Ui : UioMaxIov} `{!NotifyOps nt}.

(** The pool behind its lock, with the [Notify] of each capacity. *)
Record WaitPool : Type := mkWaitPool { wp_pool : Pool; wp_notify : gmap N nt }.
Implicit Types wp : WaitPool.

(** [notify_next_by_cap.entry(cap).or_default()] *)
Definition notify_of (cap : N) wp : nt := default notify_default (wp_notify wp !! cap).
Definition with_notify (cap : N) (n : nt) wp : WaitPool :=
  mkWaitPool (wp_pool wp) (<[cap := n]> (wp_notify wp)).
Definition with_pool (p : Pool) wp : WaitPool := mkWaitPool p (wp_notify wp).

(** [FixedBufPool::try_next], the type-erased buffer aside. *)
Definition try_next (cap : N) wp : outcome (option (iovec * N * N) * WaitPool) :=
  '(got, p) ← pool_try_next cap (wp_pool wp); Ret (got, with_pool p wp).

(** [Pool::notify_on_next]. *)
Definition notify_on_next (cap : N) wp : WaitPool :=
  with_notify cap (notify_of cap wp) (with_pool (pool_notify_on_next cap (wp_pool wp)) wp).

(** The drop of a buffer: [Pool::check_in], with its call of [notify_one]. *)
Definition check_in (index init_len : N) wp : outcome (WaitPool * list Waker) :=
  '(to_notify, p) ← pool_check_in index init_len (wp_pool wp);
  let wp := with_pool p wp in
  match to_notify with
  | None => Ret (wp, [])
  | Some cap => let '(n, woken) := notify_one (notify_of cap wp) in
                Ret (with_notify cap n wp, woken)
  end.

(** The answer of a poll, the future after it, the pool, the tasks woken. *)
Definition next_poll : Type :=
  Poll (iovec * N * N) * NextFuture * WaitPool * list Waker.

(** The loop of [next_when_notified], at the [await] of future [id]. *)
Fixpoint next_when_notified (fuel : nat) (cap id : N) (cx : Waker) wp : outcome next_poll :=
  match fuel with
  | O => NoFuel
  | S f =>
      match notified_poll id cx (notify_of cap wp) with
      | (Pending, n) => Ret (Pending, NextAwaits id, with_notify cap n wp, [])
      | (Ready _, n) =>
          '(got, wp) ← try_next cap (with_notify cap n wp);
          match got with
          | Some buffer =>
              let '(n, woken) := notified_drop id (notify_of cap wp) in
              Ret (Ready buffer, NextDone, with_notify cap n wp, woken)
          | None =>
              (* notified.set(notify.notified()) *)
              let '(id', n) := notified (notify_of cap wp) in
              let '(n, woken) := notified_drop id n in
              '(p, fut, wp, woken') ← next_when_notified f cap id' cx (with_notify cap n wp);
              Ret (p, fut, wp, woken ++ woken')
          end
      end
  end.

(** [FixedBufPool::next], one poll; the type-erased buffer is made below. *)
Definition poll_next (fuel : nat) (cap : N) (fut : NextFuture) (cx : Waker) wp :
  outcome next_poll :=
  match fut with
  | NextStart =>
      '(got, wp) ← try_next cap wp;
      match got with
      | Some buffer => Ret (Ready buffer, NextDone, wp, [])
      | None =>
          let wp := notify_on_next cap wp in
          let '(id, n) := notified (notify_of cap wp) in
          next_when_notified fuel cap id cx (with_notify cap n wp)
      end
  | NextAwaits id => next_when_notified fuel cap id cx wp
  | NextDone => Panic (PUnreachable "`async fn` resumed after completion")
  end.

(** The buffer that [next] resolves to, made by [try_next] from what the pool
    hands out; [pool] is the address of the pool, [addr] that of the new
    buffer's array. *)
Definition poll_next_buffer (fuel : nat) (pool addr cap : N) (fut : NextFuture) (cx : Waker) wp :
  outcome (Poll Buffer * NextFuture * WaitPool * list Waker) :=
  '(p, fut, wp, woken) ← poll_next fuel cap fut cx wp;
  match p with
  | Pending => Ret (Pending, fut, wp, woken)
  | Ready (iovec, init_len, index) =>
      b ← buffer_new addr
            (mkPoolFixedBuf iovec init_len (Some (mkPoolInfo pool (as_u16 index))));
      Ret (Ready b, fut, wp, woken)
  end.

(** Dropping the future: its [Notified] goes with it. *)
Definition drop_next (cap : N) (fut : NextFuture) wp : WaitPool * list Waker :=
  match fut with
  | NextAwaits id =>
      let '(n, woken) := notified_drop id (notify_of cap wp) in (with_notify cap n wp, woken)
  | NextStart | NextDone => (wp, [])
  end.

(** * Tasks that share a pool *)
Record tasks : Type := mkTasks {
  tk_wp : WaitPool;
  tk_held : list N;                        (* buffers in use, by index *)
  tk_next : gmap N (N * NextFuture);       (* tasks in [next(cap)] *)
}.

Inductive pool_event : Type :=
  | PNext (t cap : N)                      (* a task calls [next] *)
  | PPoll (t : N) (cx : Waker)
  | PCancel (t : N)                        (* it drops the future *)
  | PTake (cap : N)                        (* somebody calls [try_next] *)
  | PGive (k : nat) (init_len : N).        (* the [k]-th buffer is dropped *)

(** A future that waits was polled before; the bound suffices (below). *)
Definition poll_fuel : nat := 3.

Definition run_pool (s : tasks) (e : pool_event) :
  outcome (option (Poll (iovec * N * N)) * tasks * list Waker) :=
  match e with
  | PNext t cap =>
      Ret (None, mkTasks (tk_wp s) (tk_held s) (<[t := (cap, NextStart)]> (tk_next s)), [])
  | PPoll t cx =>
      match tk_next s !! t with
      | None => Ret (None, s, [])
      | Some (cap, fut) =>
          '(p, fut, wp, woken) ← poll_next poll_fuel cap fut cx (tk_wp s);
          Ret (Some p,
               match p with
               | Ready (_, _, i) => mkTasks wp (i :: tk_held s) (delete t (tk_next s))
               | Pending => mkTasks wp (tk_held s) (<[t := (cap, fut)]> (tk_next s))
               end, woken)
      end
  | PCancel t =>
      match tk_next s !! t with
      | None => Ret (None, s, [])
      | Some (cap, fut) =>
          let '(wp, woken) := drop_next cap fut (tk_wp s) in
          Ret (None, mkTasks wp (tk_held s) (delete t (tk_next s)), woken)
      end
  | PTake cap =>
      '(got, wp) ← try_next cap (tk_wp s);
      Ret (None, mkTasks wp (match got with Some (_, _, i) => i :: tk_held s | None => tk_held s end)
                   (tk_next s), [])
  | PGive k init_len =>
      match tk_held s !! k with
      | None => Ret (None, s, [])
      | Some i =>
          '(wp, woken) ← check_in i init_len (tk_wp s);
          Ret (None, mkTasks wp (delete k (tk_held s)) (tk_next s), woken)
      end
  end.

Definition pool_enabled (s : tasks) (e : pool_event) : Prop :=
  match e with PNext t _ => tk_next s !! t = None | _ => True end.

Inductive pool_reachable (bufs : list Buffer) : tasks -> Prop :=
  | pool_begins p : pool_new bufs = Ret p -> pool_reachable bufs (mkTasks (mkWaitPool p ∅) [] ∅)
  | pool_steps s e r s' woken :
      pool_reachable bufs s -> pool_enabled s e -> run_pool s e = Ret (r, s', woken) ->
      pool_reachable bufs s'.
End next.
Arguments WaitPool nt : clear implicits.
Arguments mkWaitPool {nt} wp_pool wp_notify.
Arguments wp_pool {nt} _.
Arguments wp_notify {nt} _.
Arguments tasks nt : clear implicits.
Arguments mkTasks {nt} tk_wp tk_held tk_next.
Arguments tk_wp {nt} _.
Arguments tk_held {nt} _.
Arguments tk_next {nt} _.

(** * Views *)
Section views.
Implicit Types v : notify_view.

Definition is_notified (x : N * fut_state) : Prop := x.2 = FNotified.
Definition notified_count (v : notify_view) : nat := size (filter is_notified (nv_futs v)).

(** The queue is the futures that wait, and none waits beside a permit;
    every future has been polled and is still awaited. *)
Record view_ok (v : notify_view) : Prop := {
  vk_nodup : NoDup (nv_queue v);
  vk_queue id : id ∈ nv_queue v <-> exists w, nv_futs v !! id = Some (FWaiting w);
  vk_permit : nv_queue v <> [] -> nv_permit v = false;
  vk_state id st : nv_futs v !! id = Some st -> st = FNotified \/ exists w, st = FWaiting w;
}.

Lemma count_delete id v q b :
  notified_count (mkView b q (delete id (nv_futs v))) =
    (if decide (nv_futs v !! id = Some FNotified) then pred (notified_count v)
     else notified_count v).
Proof.
  unfold notified_count. cbn. rewrite map_filter_delete. case_decide as E.
  - rewrite map_size_delete_Some; [done|]. exists FNotified. by apply map_lookup_filter_Some.
  - rewrite delete_id; [done|]. apply map_lookup_filter_None. right. intros st Hst Hn.
    unfold is_notified in Hn. cbn in Hn. congruence.
Qed.

Lemma count_insert id st v q b :
  nv_futs v !! id <> Some FNotified ->
  notified_count (mkView b q (<[id := st]> (nv_futs v))) =
    (if decide (st = FNotified) then S (notified_count v) else notified_count v).
Proof.
  intros Hid. unfold notified_count. cbn.
  assert (Hnone : filter is_notified (nv_futs v) !! id = None).
  { apply map_lookup_filter_None. right. intros st' Hst Hn. unfold is_notified in Hn.
    cbn in Hn. congruence. }
  case_decide as E.
  - subst. rewrite map_filter_insert_True by done. by rewrite map_size_insert_None.
  - rewrite map_filter_insert_False by done. rewrite map_filter_delete.
    by rewrite delete_id.
Qed.

Lemma filter_absent (id : N) (q : list N) : (id ∉ q) -> filter (fun x => x <> id) q = q.
Proof.
  induction q as [|x q IH]; [done|]. intros [Hne Hn]%not_elem_of_cons. rewrite filter_cons.
  rewrite decide_True by done. by rewrite IH.
Qed.

(** A notification goes to the task that has waited longest; without one it
    is kept as the permit. *)
Lemma view_one_ok v :
  view_ok v ->
  view_ok (view_one v).1 /\
  match nv_queue v with
  | [] => (view_one v).2 = [] /\ nv_futs (view_one v).1 = nv_futs v /\
          nv_queue (view_one v).1 = []
  | id :: q => exists w, nv_futs v !! id = Some (FWaiting w) /\ (view_one v).2 = [w] /\
                 nv_queue (view_one v).1 = q /\
                 nv_futs (view_one v).1 = <[id := FNotified]> (nv_futs v) /\
                 notified_count (view_one v).1 = S (notified_count v)
  end.
Proof.
  intros [Hn Hq Hp Hs]. unfold view_one. destruct (nv_queue v) as [|id q] eqn:E.
  - split; [|done]. split; cbn; [done| |done|done]. intros id. by rewrite <- Hq.
  - destruct (proj1 (Hq id)) as [w Hw]; [set_solver|].
    apply NoDup_cons in Hn as [Hni Hn]. split.
    + split; cbn; [done| | |].
      * intros j. rewrite lookup_insert. case_decide as Ej.
        { subst. split; [done|by intros [? ?]]. }
        rewrite <- Hq, elem_of_cons. naive_solver.
      * intros _. by apply Hp.
      * intros j st. rewrite lookup_insert. case_decide; [intros [= <-]; by left|apply Hs].
    + exists w. rewrite Hw. cbn [fst snd nv_queue nv_futs]. split_and!; [done..|].
      rewrite count_insert by congruence. done.
Qed.

(** Removing a future that is not in the queue. *)
Lemma view_delete_ok v id :
  view_ok v -> (id ∉ nv_queue v) -> view_ok (mkView (nv_permit v) (nv_queue v) (delete id (nv_futs v))).
Proof.
  intros [Hn Hq Hp Hs] Hid. split; cbn; [done| |done|].
  - intros j. rewrite lookup_delete. case_decide as E.
    + subst. split; [done|by intros [? ?]].
    + apply Hq.
  - intros j st [_ H]%lookup_delete_Some. by eapply Hs.
Qed.

(** A new future queues up, when no permit is stored. *)
Lemma view_register_ok v id w :
  view_ok v -> nv_futs v !! id = None ->
  view_ok (mkView false (nv_queue v ++ [id]) (<[id := FWaiting w]> (nv_futs v))).
Proof.
  intros [Hn Hq Hp Hs] Hid. split; cbn; [| |done|].
  - apply NoDup_app. split_and!; [done| |apply NoDup_singleton].
    intros j Hj ->%list_elem_of_singleton. apply Hq in Hj as [w' Hw]. congruence.
  - intros j. rewrite elem_of_app, list_elem_of_singleton, lookup_insert, Hq.
    case_decide as E; [subst|]; naive_solver.
  - intros j st. rewrite lookup_insert. case_decide; [intros [= <-]; eauto|apply Hs].
Qed.
End views.

(** * One poll *)
Section poll.
Context {Prof : Profile} {Ui : UioMaxIov} `{!NotifyOps nt} `{!NotifyLaws nt}.
Implicit Types wp : WaitPool nt.

Definition pview (cap : N) wp : notify_view := nt_view (notify_of cap wp).

Lemma notify_of_with c c' n wp :
  notify_of c' (with_notify c n wp) = if decide (c = c') then n else notify_of c' wp.
Proof. unfold notify_of. cbn. rewrite lookup_insert. by case_decide. Qed.

(** [wp'] has the pool [p'], the view [v'] of [cap], and is [wp] elsewhere. *)
Record only (cap : N) wp wp' (p' : Pool) (v' : notify_view) : Prop := {
  only_pool : wp_pool wp' = p';
  only_others c : c <> cap -> notify_of c wp' = notify_of c wp;
  only_view : pview cap wp' = v';
}.

Lemma only_with cap wp wp0 wp' n p v' v'' :
  wp' = with_notify cap n wp0 -> only cap wp wp0 p v' -> nt_view n = v'' -> only cap wp wp' p v''.
Proof.
  intros -> [Hp Ho _] Hn. split; [done| |].
  - intros c Hc. rewrite notify_of_with, decide_False by done. by apply Ho.
  - unfold pview. by rewrite notify_of_with, decide_True.
Qed.
Lemma only_refl cap wp : only cap wp wp (wp_pool wp) (pview cap wp).
Proof. by split. Qed.
Lemma only_trans cap wp1 wp2 wp3 p2 p3 v2 v3 :
  only cap wp1 wp2 p2 v2 -> only cap wp2 wp3 p3 v3 -> only cap wp1 wp3 p3 v3.
Proof. intros [_ H12 _] [Hp H23 Hv]. split; [done| |done]. intros c Hc. by rewrite H23, H12. Qed.

Lemma try_next_none cap wp fl :
  pool_ok (wp_pool wp) fl -> fl cap = [] -> try_next cap wp = Ret (None, wp).
Proof.
  intros H E. pose proof (pool_try_next_spec (wp_pool wp) fl cap H) as Hs. rewrite E in Hs.
  unfold try_next. rewrite Hs. cbn. by destruct wp.
Qed.

(** The future [id] is replaced by [id'], which waits for [cx]. *)
Definition registered (id id' : N) (cx : Waker) (v v' : notify_view) : Prop :=
  delete id (nv_futs v) !! id' = None /\
  v' = mkView false (nv_queue v ++ [id']) (<[id' := FWaiting cx]> (delete id (nv_futs v))).

(** A new future, no permit: it queues up. *)
Lemma wait_new f cap id cx wp :
  nv_futs (pview cap wp) !! id = Some FNew -> nv_permit (pview cap wp) = false ->
  exists wp' v', next_when_notified (S f) cap id cx wp = Ret (Pending, NextAwaits id, wp', []) /\
    only cap wp wp' (wp_pool wp) v' /\ registered id id cx (pview cap wp) v'.
Proof.
  intros Hid Hp. cbn [next_when_notified].
  destruct (notified_poll_view id cx (notify_of cap wp)) as [H1 H2].
  destruct (notified_poll id cx (notify_of cap wp)) as [p n]. cbn in H1, H2.
  unfold view_poll in *. fold (pview cap wp) in *. rewrite Hid, Hp in *. cbn in H1. subst p.
  do 2 eexists. split; [done|]. split; [by eapply only_with; [done|apply only_refl|]|].
  split; [apply lookup_delete_eq|]. cbn. by rewrite insert_delete_eq.
Qed.

(** [notified.set(notify.notified())] after a future that has completed:
    the loop goes on with a new future in its place. *)
Lemma renew cap id wp :
  nv_futs (pview cap wp) !! id = Some FDone -> (id ∉ nv_queue (pview cap wp)) ->
  let '(id', n) := notified (notify_of cap wp) in
  delete id (nv_futs (pview cap wp)) !! id' = None /\
  exists n', notified_drop id n = (n', []) /\
    nt_view n' = mkView (nv_permit (pview cap wp)) (nv_queue (pview cap wp))
                   (<[id' := FNew]> (delete id (nv_futs (pview cap wp)))).
Proof.
  intros Hid Hq. pose proof (notified_view (notify_of cap wp)) as Hn.
  destruct (notified (notify_of cap wp)) as [id' n]. fold (pview cap wp) in Hn.
  destruct Hn as [Hid' Hn]. assert (Hne : id <> id') by congruence.
  split; [by rewrite lookup_delete_ne|].
  destruct (notified_drop_view id n) as [H1 H2]. destruct (notified_drop id n) as [n' woken].
  unfold view_drop in H1, H2. rewrite Hn in H1, H2. cbn in H1, H2.
  rewrite lookup_insert_ne in H1, H2 by done. rewrite Hid in H1, H2. cbn in H1, H2. subst woken. exists n'.
  split; [done|]. rewrite H1, filter_absent by done. by rewrite delete_insert_ne.
Qed.
Lemma registered_renewed id id' id2 cx v v1 v' :
  delete id (nv_futs v) !! id' = None ->
  v1 = mkView (nv_permit v) (nv_queue v) (<[id' := FNew]> (delete id (nv_futs v))) ->
  registered id' id2 cx v1 v' -> registered id id2 cx v v'.
Proof.
  intros Hid -> [H1 ->]. unfold registered in *. cbn in *.
  rewrite delete_insert_id in * by done. done.
Qed.

(** The future completes, but there is no free buffer: the loop goes on. *)
Lemma wait_again f cap id cx wp fl b :
  pool_ok (wp_pool wp) fl -> fl cap = [] -> (id ∉ nv_queue (pview cap wp)) ->
  view_poll id cx (pview cap wp) =
    (Ready tt, mkView b (nv_queue (pview cap wp)) (<[id := FDone]> (nv_futs (pview cap wp)))) ->
  exists id' wp1,
    next_when_notified (S f) cap id cx wp = next_when_notified f cap id' cx wp1 /\
    delete id (nv_futs (pview cap wp)) !! id' = None /\
    only cap wp wp1 (wp_pool wp)
      (mkView b (nv_queue (pview cap wp)) (<[id' := FNew]> (delete id (nv_futs (pview cap wp))))).
Proof.
  intros Hok Hfl Hq Hv. cbn [next_when_notified].
  destruct (notified_poll_view id cx (notify_of cap wp)) as [H1 H2]. fold (pview cap wp) in *.
  destruct (notified_poll id cx (notify_of cap wp)) as [p n]. rewrite Hv in H1, H2.
  cbn in H1, H2. subst p. rewrite (try_next_none _ _ fl) by done. cbn [mbind outcome_bind].
  assert (Hn : pview cap (with_notify cap n wp) =
    mkView b (nv_queue (pview cap wp)) (<[id := FDone]> (nv_futs (pview cap wp)))).
  { unfold pview at 1. rewrite notify_of_with, decide_True by done. exact H2. }
  pose proof (renew cap id (with_notify cap n wp)) as Hr. rewrite Hn in Hr. cbn in Hr.
  specialize (Hr (lookup_insert_eq _ _ _) Hq). rewrite delete_insert_eq in Hr.
  destruct (notified (notify_of cap (with_notify cap n wp))) as [id' n1].
  destruct Hr as (Hid' & n' & -> & Hn'). exists id', (with_notify cap n' (with_notify cap n wp)).
  split_and!; [|done|].
  - by destruct (next_when_notified f cap id' cx _) as [[[[??]?]?]| | |].
  - eapply only_with; [done| |exact Hn']. eapply only_with; [done|apply only_refl|done].
Qed.

(** With no free buffer of the capacity, a future that is new or was
    notified ends up waiting; the permit is used up at most once. *)
Lemma wait_empty_new f cap id cx wp fl :
  pool_ok (wp_pool wp) fl -> fl cap = [] ->
  nv_futs (pview cap wp) !! id = Some FNew -> (id ∉ nv_queue (pview cap wp)) ->
  exists id' wp' v',
    next_when_notified (S (S f)) cap id cx wp = Ret (Pending, NextAwaits id', wp', []) /\
    only cap wp wp' (wp_pool wp) v' /\ registered id id' cx (pview cap wp) v'.
Proof.
  intros Hok Hfl Hid Hq. destruct (nv_permit (pview cap wp)) eqn:Hp.
  2:{ destruct (wait_new (S f) cap id cx wp Hid Hp) as (wp' & v' & E & ? & ?).
      by exists id, wp', v'. }
  destruct (wait_again (S f) cap id cx wp fl false) as (id1 & wp1 & -> & Hid1 & Ho1); [done..| |].
  { unfold view_poll. by rewrite Hid, Hp. }
  pose proof (only_view _ _ _ _ _ Ho1) as Hv1.
  destruct (wait_new f cap id1 cx wp1) as (wp' & v' & E & Ho & Hreg).
  { rewrite Hv1. apply lookup_insert_eq. }
  { by rewrite Hv1. }
  rewrite (only_pool _ _ _ _ _ Ho1) in Ho. exists id1, wp', v'.
  split_and!; [done|by eapply only_trans|]. rewrite Hv1 in Hreg.
  destruct Hreg as [H1 H2]. cbn in H1, H2. rewrite delete_insert_id in H1, H2 by done. by split.
Qed.

Lemma wait_empty_notified cap id cx wp fl :
  pool_ok (wp_pool wp) fl -> fl cap = [] ->
  nv_futs (pview cap wp) !! id = Some FNotified -> (id ∉ nv_queue (pview cap wp)) ->
  (forall j, j ∈ nv_queue (pview cap wp) -> is_Some (nv_futs (pview cap wp) !! j)) ->
  exists id' wp' v',
    next_when_notified poll_fuel cap id cx wp = Ret (Pending, NextAwaits id', wp', []) /\
    only cap wp wp' (wp_pool wp) v' /\ registered id id' cx (pview cap wp) v'.
Proof.
  intros Hok Hfl Hid Hq Hqs.
  destruct (wait_again 2 cap id cx wp fl (nv_permit (pview cap wp)))
    as (id1 & wp1 & E1 & Hid1 & Ho1); [done..| |].
  { unfold view_poll. by rewrite Hid. }
  pose proof (only_view _ _ _ _ _ Ho1) as Hv1. pose proof (only_pool _ _ _ _ _ Ho1) as Hp1.
  destruct (wait_empty_new 0 cap id1 cx wp1 fl) as (id2 & wp' & v' & E & Ho & H1 & H2).
  { by rewrite Hp1. }
  { done. }
  { rewrite Hv1. apply lookup_insert_eq. }
  { rewrite Hv1. cbn. intros Hin. destruct (Hqs id1 Hin) as [st Hst].
    apply lookup_delete_None in Hid1 as [->|?]; [done|congruence]. }
  exists id2, wp', v'. unfold poll_fuel. rewrite E1, E. rewrite Hp1 in Ho.
  split_and!; [done|by eapply only_trans|]. rewrite Hv1 in H1, H2. cbn in H1, H2.
  rewrite delete_insert_id in H1, H2 by done. by split.
Qed.

(** A future that waits goes on waiting, for the task of this poll. *)
Lemma wait_waiting f cap id cx wp w :
  nv_futs (pview cap wp) !! id = Some (FWaiting w) ->
  exists wp', next_when_notified (S f) cap id cx wp = Ret (Pending, NextAwaits id, wp', []) /\
    only cap wp wp' (wp_pool wp)
      (mkView (nv_permit (pview cap wp)) (nv_queue (pview cap wp))
              (<[id := FWaiting cx]> (nv_futs (pview cap wp)))).
Proof.
  intros Hid. cbn [next_when_notified].
  destruct (notified_poll_view id cx (notify_of cap wp)) as [H1 H2]. fold (pview cap wp) in *.
  unfold view_poll in H1, H2. rewrite Hid in H1, H2.
  destruct (notified_poll id cx (notify_of cap wp)) as [p n]. cbn in H1, H2. subst p.
  eexists. split; [done|]. by eapply only_with; [done|apply only_refl|].
Qed.

(** A notified future takes the next free buffer, and is gone. *)
Lemma wait_takes f cap id cx wp fl i rest :
  pool_ok (wp_pool wp) fl -> fl cap = i :: rest ->
  nv_futs (pview cap wp) !! id = Some FNotified -> (id ∉ nv_queue (pview cap wp)) ->
  exists v init_len p' wp',
    next_when_notified (S f) cap id cx wp = Ret (Ready (v, init_len, i), NextDone, wp', []) /\
    pool_try_next cap (wp_pool wp) = Ret (Some (v, init_len, i), p') /\
    only cap wp wp' p'
      (mkView (nv_permit (pview cap wp)) (nv_queue (pview cap wp))
              (delete id (nv_futs (pview cap wp)))).
Proof.
  intros Hok Hfl Hid Hq. cbn [next_when_notified].
  destruct (notified_poll_view id cx (notify_of cap wp)) as [H1 H2]. fold (pview cap wp) in *.
  unfold view_poll in H1, H2. rewrite Hid in H1, H2.
  destruct (notified_poll id cx (notify_of cap wp)) as [p n]. cbn in H1, H2. subst p.
  pose proof (pool_try_next_spec (wp_pool wp) fl cap Hok) as Hs. rewrite Hfl in Hs.
  destruct Hs as (v & len & next & p' & E & _). exists v, len, p'.
  unfold try_next. cbn [wp_pool with_notify]. rewrite E. cbn [mbind outcome_bind].
  change (notify_of cap (with_pool p' (with_notify cap n wp)))
    with (notify_of cap (with_notify cap n wp)).
  rewrite notify_of_with, decide_True by done.
  destruct (notified_drop_view id n) as [H3 H4]. destruct (notified_drop id n) as [n' woken].
  unfold view_drop in H3, H4. rewrite H2 in H3, H4. cbn in H3, H4.
  rewrite lookup_insert_eq in H3, H4. cbn in H3, H4. subst woken.
  rewrite filter_absent, delete_insert_eq in H3 by done.
  eexists. split_and!; [done..|]. eapply (only_with cap wp _ _ n' p'); [done| |exact H3].
  split; [done| |done]. intros c Hc. change (notify_of c (with_notify cap n wp) = notify_of c wp).
  by rewrite notify_of_with, decide_False.
Qed.
End poll.
