(* ===== verification/PoolWaitSpec.v ===== *)
(** No wake-up is lost in [FixedBufPool::next]: the invariant of the tasks
    that share a pool ([PoolWait.v]), its preservation by every event, and a
    concrete run. *)
From S2P Require Import Prelude Buf Buffer IoUring SlabList Op FixedBuf FixedBufSpec PoolWait.

(** * The invariant *)
Section waits.
Context {Prof : Profile} {Ui : UioMaxIov} `{!NotifyOps nt} `{!NotifyLaws nt}.
Implicit Types (s : tasks nt) (wp : WaitPool nt) (tk : gmap N (N * NextFuture)).

(** While tasks of a capacity wait, the free buffers of that capacity are no
    more than the tasks that were notified and have yet to look. *)
Definition balanced (p : Pool) (fl : N -> list N) (c : N) (v : notify_view) : Prop :=
  (nv_futs v <> ∅ -> c ∈ p_notify p) /\
  (nv_queue v <> [] -> (length (fl c) <= notified_count v)%nat).

(** The futures of a capacity are those of the tasks in [next]. *)
Record tasks_ok tk (views : N -> notify_view) : Prop := {
  to_fut c id : is_Some (nv_futs (views c) !! id) <-> exists t, tk !! t = Some (c, NextAwaits id);
  to_one t t' c id : tk !! t = Some (c, NextAwaits id) -> tk !! t' = Some (c, NextAwaits id) ->
    t = t';
  to_live t c : tk !! t <> Some (c, NextDone);
}.

Definition held_out (p : Pool) (held : list N) : Prop :=
  NoDup held /\ forall i, i ∈ held <-> st (p_states p) i = Some PCheckedOut.

Record waits_ok s : Prop := {
  wo_pool : exists fl, pool_ok (wp_pool (tk_wp s)) fl /\
    forall c, balanced (wp_pool (tk_wp s)) fl c (pview c (tk_wp s));
  wo_held : held_out (wp_pool (tk_wp s)) (tk_held s);
  wo_view c : view_ok (pview c (tk_wp s));
  wo_tasks : tasks_ok (tk_next s) (fun c => pview c (tk_wp s));
}.

Lemma count_notified v id :
  nv_futs v !! id = Some FNotified -> (1 <= notified_count v)%nat.
Proof.
  intros H. unfold notified_count.
  destruct (size (filter is_notified (nv_futs v))) eqn:E; [|lia].
  apply map_size_empty_inv in E.
  assert (Hf : filter is_notified (nv_futs v) !! id = Some FNotified)
    by by apply map_lookup_filter_Some.
  rewrite E, lookup_empty in Hf. done.
Qed.

Lemma not_queued v id :
  view_ok v -> nv_futs v !! id = Some FNotified -> (id ∉ nv_queue v).
Proof. intros H Hid [w Hw]%(vk_queue _ H). congruence. Qed.

Lemma pview_only c cap wp wp' p' v' :
  only cap wp wp' p' v' -> pview c wp' = if decide (c = cap) then v' else pview c wp.
Proof.
  intros [_ Ho Hv]. case_decide as E; [by subst|]. unfold pview. by rewrite Ho.
Qed.

(** The generic step: at most the view of one capacity changes, the pool,
    the tasks and the buffers in use as given. *)
Lemma waits_step s cap wp' p' v' fl fl' held' tk' :
  waits_ok s -> pool_ok (wp_pool (tk_wp s)) fl ->
  (forall c, balanced (wp_pool (tk_wp s)) fl c (pview c (tk_wp s))) ->
  only cap (tk_wp s) wp' p' v' -> p_notify (wp_pool (tk_wp s)) ⊆ p_notify p' ->
  pool_ok p' fl' -> (forall c, c <> cap -> fl' c = fl c) -> balanced p' fl' cap v' ->
  held_out p' held' -> view_ok v' ->
  tasks_ok tk' (fun c => if decide (c = cap) then v' else pview c (tk_wp s)) ->
  waits_ok (mkTasks wp' held' tk').
Proof.
  intros H Hok Hbal Ho Hn Hok' Hfl Hb Hh Hv Ht.
  pose proof (only_pool _ _ _ _ _ Ho) as Hp. split; cbn.
  - exists fl'. rewrite Hp. split; [done|]. intros c. rewrite (pview_only c _ _ _ _ _ Ho).
    case_decide as E; [by subst|]. destruct (Hbal c) as [Hc Hl].
    split; [intros ?; by apply Hn, Hc|]. by rewrite Hfl.
  - by rewrite Hp.
  - intros c. rewrite (pview_only c _ _ _ _ _ Ho). case_decide; [done|]. apply (wo_view _ H).
  - destruct Ht as [H1 H2 H3]. split; [|done..]. intros c id. rewrite <- H1.
    by rewrite (pview_only c _ _ _ _ _ Ho).
Qed.

(** Task [t] stops waiting for [old] and now waits for [new], in a view that
    changed accordingly. *)
Definition awaited (x : option (N * NextFuture)) (c : N) : option N :=
  match x with
  | Some (c', NextAwaits id) => if decide (c' = c) then Some id else None
  | _ => None
  end.
Lemma awaited_iff x c id : awaited x c = Some id <-> x = Some (c, NextAwaits id).
Proof. destruct x as [[c' [|id'|]]|]; cbn; try case_decide; naive_solver. Qed.

Lemma tasks_ok_step tk views t cap x v' :
  tasks_ok tk views ->
  (forall c, c <> cap -> awaited (tk !! t) c = None /\ awaited x c = None) ->
  (forall c, x <> Some (c, NextDone)) ->
  (forall j, is_Some (nv_futs v' !! j) <->
     awaited x cap = Some j \/
     is_Some (nv_futs (views cap) !! j) /\ awaited (tk !! t) cap <> Some j) ->
  (forall j, awaited x cap = Some j -> is_Some (nv_futs (views cap) !! j) ->
     awaited (tk !! t) cap = Some j) ->
  tasks_ok (partial_alter (fun _ => x) t tk) (fun c => if decide (c = cap) then v' else views c).
Proof.
  intros [H1 H2 H3] Hc Hx Hv Hf. split.
  - intros c id. case_decide as E.
    + subst c. rewrite Hv. split.
      * intros [Hj|[[t' Ht']%H1 Hj]].
        { exists t. rewrite lookup_partial_alter_eq. by apply awaited_iff. }
        exists t'. rewrite lookup_partial_alter_ne; [done|]. intros <-.
        by apply Hj, awaited_iff.
      * intros [t' Ht']. destruct (decide (t = t')) as [<-|Hne].
        { rewrite lookup_partial_alter_eq in Ht'. left. by apply awaited_iff. }
        rewrite lookup_partial_alter_ne in Ht' by done. right. split; [by apply H1; eauto|].
        intros Ht%awaited_iff. by apply Hne, (H2 t t' cap id).
    + rewrite H1. destruct (Hc c E) as [Hc1 Hc2]. split; intros [t' Ht']; exists t'.
      * rewrite lookup_partial_alter_ne; [done|]. intros <-.
        apply awaited_iff in Ht'. congruence.
      * destruct (decide (t = t')) as [<-|Hne]; [|by rewrite lookup_partial_alter_ne in Ht'].
        rewrite lookup_partial_alter_eq in Ht'. apply awaited_iff in Ht'. congruence.
  - intros t1 t2 c id. destruct (decide (t = t1)) as [<-|N1], (decide (t = t2)) as [<-|N2]; [done| | |];
      rewrite ?lookup_partial_alter_eq, ?lookup_partial_alter_ne by done.
    + intros Ha%awaited_iff Hb. exfalso. apply N2, (H2 t t2 c id); [|done].
      apply awaited_iff. destruct (decide (c = cap)) as [->|E].
      * apply Hf; [done|]. apply H1; eauto.
      * destruct (Hc c E). congruence.
    + intros Hb Ha%awaited_iff. exfalso. apply N1, (H2 t t1 c id); [|done].
      apply awaited_iff. destruct (decide (c = cap)) as [->|E].
      * apply Hf; [done|]. apply H1; eauto.
      * destruct (Hc c E). congruence.
    + apply H2.
  - intros t' c. destruct (decide (t = t')) as [<-|Hne].
    + rewrite lookup_partial_alter_eq. apply Hx.
    + rewrite lookup_partial_alter_ne by done. apply H3.
Qed.

Lemma tasks_ok_same tk views cap v' :
  tasks_ok tk views ->
  (forall j, is_Some (nv_futs v' !! j) <-> is_Some (nv_futs (views cap) !! j)) ->
  tasks_ok tk (fun c => if decide (c = cap) then v' else views c).
Proof.
  intros [H1 H2 H3] Hv. split; [|done..]. intros c id. rewrite <- H1.
  case_decide as E; [|done]. subst. apply Hv.
Qed.

(** ** Buffers come and go *)
Lemma held_ok_of s : waits_ok s -> held_ok (wp_pool (tk_wp s)) (tk_held s).
Proof. intros [(fl & Hok & _) [Hn Ho] _ _]. split; [by eexists|done..]. Qed.

Lemma take_spec s cap fl i rest :
  waits_ok s -> pool_ok (wp_pool (tk_wp s)) fl -> fl cap = i :: rest ->
  exists v len p', pool_try_next cap (wp_pool (tk_wp s)) = Ret (Some (v, len, i), p') /\
    p_notify p' = p_notify (wp_pool (tk_wp s)) /\ pool_ok p' (<[cap := rest]> fl) /\
    held_out p' (i :: tk_held s).
Proof.
  intros H Hok Hfl. pose proof (pool_try_next_spec _ fl cap Hok) as Hs. rewrite Hfl in Hs.
  destruct Hs as (v & len & next & p' & E & _ & _ & _ & _ & Hok'). exists v, len, p'.
  split; [done|]. pose proof (run_pool_call_ok (CTake cap) _ _ (held_ok_of s H)) as Hc.
  cbn in Hc. rewrite E in Hc. cbn in Hc. split_and!; [|done|].
  - unfold pool_try_next in E. destruct (p_heads _ !! cap) as [j|]; [|done].
    apply bind_Ret in E as ([n x|] & _ & E); [|done]. apply bind_Ret in E as (w & _ & E).
    by simplify_eq.
  - split; [apply (ho_nodup _ _ Hc)|apply (ho_out _ _ Hc)].
Qed.

Lemma give_spec s k i len fl :
  waits_ok s -> pool_ok (wp_pool (tk_wp s)) fl -> tk_held s !! k = Some i ->
  exists cap p', pool_check_in i len (wp_pool (tk_wp s)) =
      Ret (if decide (cap ∈ p_notify p') then Some cap else None, p') /\
    p_notify p' = p_notify (wp_pool (tk_wp s)) /\ pool_ok p' (<[cap := i :: fl cap]> fl) /\
    held_out p' (delete k (tk_held s)).
Proof.
  intros H Hok Hk. pose proof (held_ok_of s H) as Hh.
  assert (Hi : st (p_states (wp_pool (tk_wp s))) i = Some PCheckedOut).
  { apply (ho_out _ _ Hh). by eapply list_elem_of_lookup_2. }
  destruct (pool_check_in_spec _ fl i len Hok Hi) as (v & next & p' & E & _ & _ & _ & Hok').
  pose proof (run_pool_call_ok (CGive k len) _ _ Hh) as Hc. cbn in Hc. rewrite Hk, E in Hc.
  cbn in Hc. assert (Hn : p_notify p' = p_notify (wp_pool (tk_wp s))).
  { unfold pool_check_in in E. apply bind_Ret in E as (w & _ & E).
    apply bind_Ret in E as (x & _ & E). apply bind_Ret in E as (u & _ & E). by simplify_eq. }
  exists (iov_len v), p'. rewrite Hn. split_and!; [done..|].
  split; [apply (ho_nodup _ _ Hc)|apply (ho_out _ _ Hc)].
Qed.

(** ** Each event preserves the invariant *)
Definition keeps_waits (o : outcome (option (Poll (iovec * N * N)) * tasks nt * list Waker)) : Prop :=
  ret_with (fun '(_, s, _) => waits_ok s) o.

Lemma keeps_start s t cap :
  waits_ok s -> tk_next s !! t = None -> keeps_waits (run_pool s (PNext t cap)).
Proof.
  intros H Ht. destruct (wo_pool _ H) as (fl & Hok & Hb).
  eapply (waits_step s cap); [done..|apply only_refl| | | | | | |]; try done.
  - apply (wo_held _ H).
  - apply (wo_view _ H).
  - apply (tasks_ok_step _ (fun c => pview c (tk_wp s)) t cap (Some (cap, NextStart)));
      rewrite ?Ht; try done.
    + apply (wo_tasks _ H).
    + intros j. cbn. naive_solver.
Qed.

Lemma keeps_take s cap : waits_ok s -> keeps_waits (run_pool s (PTake cap)).
Proof.
  intros H. destruct (wo_pool _ H) as (fl & Hok & Hb). unfold keeps_waits. cbn.
  destruct (fl cap) as [|i rest] eqn:Hfl.
  { rewrite (try_next_none cap _ fl) by done. by destruct s as [[] ? ?]. }
  destruct (take_spec s cap fl i rest H Hok Hfl) as (v & len & p' & E & Hn & Hok' & Hh).
  unfold try_next. rewrite E. cbn.
  apply (waits_step s cap _ p' (pview cap (tk_wp s)) fl (<[cap := rest]> fl)); try done.
  - by rewrite Hn.
  - intros c Hc. by rewrite fn_lookup_insert_ne.
  - destruct (Hb cap) as [H1 H2]. split; [by rewrite Hn|]. intros Hq.
    rewrite fn_lookup_insert. specialize (H2 Hq). rewrite Hfl in H2. cbn in H2. lia.
  - apply (wo_view _ H).
  - by apply tasks_ok_same; [apply (wo_tasks _ H)|].
Qed.

Lemma keeps_give s k len : waits_ok s -> keeps_waits (run_pool s (PGive k len)).
Proof.
  intros H. destruct (wo_pool _ H) as (fl & Hok & Hb). unfold keeps_waits. cbn.
  destruct (tk_held s !! k) as [i|] eqn:Hk; [|done].
  destruct (give_spec s k i len fl H Hok Hk) as (cap & p' & E & Hn & Hok' & Hh).
  unfold check_in. rewrite E. cbn [mbind outcome_bind].
  destruct (Hb cap) as [H1 H2]. pose proof (wo_view _ H cap) as Hv.
  destruct (decide (cap ∈ p_notify p')) as [Hin|Hin].
  - change (notify_of cap (with_pool p' (tk_wp s))) with (notify_of cap (tk_wp s)).
    destruct (notify_one_view (notify_of cap (tk_wp s))) as [H3 _].
    destruct (notify_one (notify_of cap (tk_wp s))) as [n woken]. cbn in H3.
    fold (pview cap (tk_wp s)) in H3. destruct (view_one_ok _ Hv) as [Hv' Hcase]. cbn.
    eapply (waits_step s cap _ p' _ fl (<[cap := i :: fl cap]> fl)); try done.
    + eapply (only_with cap _ (with_pool p' (tk_wp s)) _ n p'); [done| |exact H3]. by split.
    + by rewrite Hn.
    + intros c Hc. by rewrite fn_lookup_insert_ne.
    + split; [done|]. rewrite fn_lookup_insert. cbn.
      destruct (nv_queue (pview cap (tk_wp s))) as [|id q] eqn:Eq.
      * destruct Hcase as (_ & _ & ->). done.
      * destruct Hcase as (w & _ & _ & _ & _ & ->). intros _. specialize (H2 ltac:(done)). lia.
    + apply tasks_ok_same; [apply (wo_tasks _ H)|]. intros j.
      destruct (nv_queue (pview cap (tk_wp s))) as [|id q] eqn:Eq.
      * destruct Hcase as (_ & -> & _). done.
      * destruct Hcase as (w & Hw & _ & _ & -> & _). rewrite lookup_insert.
        case_decide as Ej; [subst|done]. rewrite Hw. by split; eexists.
  - eapply (waits_step s cap _ p' _ fl (<[cap := i :: fl cap]> fl)); try done.
    + by rewrite Hn.
    + intros c Hc. by rewrite fn_lookup_insert_ne.
    + rewrite <- Hn in H1. split; [done|]. intros Hq. exfalso. apply Hin, H1. intros Hemp.
      destruct (nv_queue (pview cap (tk_wp s))) as [|id q] eqn:Eq; [done|].
      destruct (proj1 (vk_queue _ Hv id)) as [w Hw]; [rewrite Eq; set_solver|].
      by rewrite Hemp, lookup_empty in Hw.
    + by apply tasks_ok_same; [apply (wo_tasks _ H)|].
Qed.

(** A task that had nothing to wait with, or whose future was notified in
    vain, waits with a new future. *)
Lemma keeps_registered s t cap fut p0 id' cx wp' futs fl :
  waits_ok s -> tk_next s !! t = Some (cap, fut) ->
  futs = match awaited (Some (cap, fut)) cap with
         | Some id => delete id (nv_futs (pview cap (tk_wp s)))
         | None => nv_futs (pview cap (tk_wp s))
         end ->
  (forall id, awaited (Some (cap, fut)) cap = Some id -> 
     nv_futs (pview cap (tk_wp s)) !! id = Some FNotified) ->
  pool_ok (wp_pool (tk_wp s)) fl ->
  (forall c, balanced (wp_pool (tk_wp s)) fl c (pview c (tk_wp s))) ->
  pool_ok p0 fl -> fl cap = [] -> cap ∈ p_notify p0 ->
  p_notify (wp_pool (tk_wp s)) ⊆ p_notify p0 -> p_states p0 = p_states (wp_pool (tk_wp s)) ->
  only cap (tk_wp s) wp' p0
    (mkView false (nv_queue (pview cap (tk_wp s)) ++ [id']) (<[id' := FWaiting cx]> futs)) ->
  futs !! id' = None ->
  waits_ok (mkTasks wp' (tk_held s) (<[t := (cap, NextAwaits id')]> (tk_next s))).
Proof.
  intros H Ht Hfuts Hold Hok Hb Hok0 Hfl Hin Hn Hst Ho Hid'.
  pose proof (wo_view _ H cap) as Hv.
  eapply (waits_step s cap wp' p0 _ fl fl); try done.
  - split; cbn; [done|]. intros _. rewrite Hfl. cbn. lia.
  - unfold held_out. rewrite Hst. apply (wo_held _ H).
  - apply (view_register_ok (mkView (nv_permit (pview cap (tk_wp s)))
             (nv_queue (pview cap (tk_wp s))) futs)); [|done].
    subst futs. destruct (awaited _ _) as [id|] eqn:E.
    + apply view_delete_ok; [done|]. apply not_queued; auto.
    + by destruct (pview cap (tk_wp s)).
  - apply (tasks_ok_step _ (fun c => pview c (tk_wp s)) t cap (Some (cap, NextAwaits id')));
      rewrite ?Ht.
    + apply (wo_tasks _ H).
    + intros c Hc. split; apply eq_None_not_Some; intros [j Hj%awaited_iff]; naive_solver.
    + done.
    + intros j. cbn [nv_futs]. rewrite lookup_insert, awaited_iff. case_decide as E.
      { subst. split; [by left|by eexists]. }
      rewrite Hfuts. destruct (awaited (Some (cap, fut)) cap) as [id|]; [|naive_solver].
      rewrite lookup_delete. case_decide; [|naive_solver]. subst.
      split; [by intros [? ?]|naive_solver].
    + intros j [= <-]%awaited_iff [st Hs]. rewrite Hfuts in Hid'.
      destruct (awaited (Some (cap, fut)) cap) as [id|]; [|congruence].
      apply lookup_delete_None in Hid' as [->|?]; [done|congruence].
Qed.

(** A task gets a buffer and its future is gone. *)
Lemma keeps_resolved s t cap fut fl i rest v init_len p' wp' :
  waits_ok s -> tk_next s !! t = Some (cap, fut) ->
  (forall id, awaited (Some (cap, fut)) cap = Some id -> 
     nv_futs (pview cap (tk_wp s)) !! id = Some FNotified) ->
  pool_ok (wp_pool (tk_wp s)) fl ->
  (forall c, balanced (wp_pool (tk_wp s)) fl c (pview c (tk_wp s))) ->
  fl cap = i :: rest ->
  pool_try_next cap (wp_pool (tk_wp s)) = Ret (Some (v, init_len, i), p') ->
  only cap (tk_wp s) wp' p'
    match awaited (Some (cap, fut)) cap with
    | Some id => mkView (nv_permit (pview cap (tk_wp s))) (nv_queue (pview cap (tk_wp s)))
                        (delete id (nv_futs (pview cap (tk_wp s))))
    | None => pview cap (tk_wp s)
    end ->
  waits_ok (mkTasks wp' (i :: tk_held s) (delete t (tk_next s))).
Proof.
  intros H Ht Hold Hok Hb Hfl E Ho. pose proof (wo_view _ H cap) as Hv.
  destruct (take_spec s cap fl i rest H Hok Hfl) as (v' & len' & p'' & E' & Hn & Hok' & Hh).
  rewrite E' in E. simplify_eq. destruct (Hb cap) as [H1 H2]. rewrite Hfl in H2. cbn in H2.
  eapply (waits_step s cap wp' p' _ fl (<[cap := rest]> fl)); try done.
  - by rewrite Hn.
  - intros c Hc. by rewrite fn_lookup_insert_ne.
  - destruct (awaited (Some (cap, fut)) cap) as [id|] eqn:Ea; split; cbn.
    + rewrite Hn. intros _. apply H1. intros Hemp. specialize (Hold id eq_refl).
      by rewrite Hemp, lookup_empty in Hold.
    + rewrite fn_lookup_insert. intros Hq. specialize (H2 Hq).
      rewrite count_delete, decide_True by auto. lia.
    + by rewrite Hn.
    + rewrite fn_lookup_insert. intros Hq. specialize (H2 Hq). lia.
  - destruct (awaited (Some (cap, fut)) cap) as [id|] eqn:Ea; [|done].
    apply view_delete_ok; [done|]. apply not_queued; auto.
  - apply (tasks_ok_step _ (fun c => pview c (tk_wp s)) t cap None); rewrite ?Ht; try done.
    + apply (wo_tasks _ H).
    + intros c Hc. split; [|done]. apply eq_None_not_Some; intros [j Hj%awaited_iff]; naive_solver.
    + intros j. destruct (awaited (Some (cap, fut)) cap) as [id|] eqn:Ea; cbn; [|naive_solver].
      rewrite lookup_delete. case_decide; [|naive_solver]. subst.
      split; [by intros [? ?]|naive_solver].
Qed.

Lemma pool_ok_notify cap p fl : pool_ok p fl -> pool_ok (pool_notify_on_next cap p) fl.
Proof. by intros [? ? ? ? ? ?]. Qed.

Lemma keeps_poll_start s t cap cx :
  waits_ok s -> tk_next s !! t = Some (cap, NextStart) -> keeps_waits (run_pool s (PPoll t cx)).
Proof.
  intros H Ht. destruct (wo_pool _ H) as (fl & Hok & Hb). unfold keeps_waits. cbn [run_pool].
  rewrite Ht. cbn [poll_next]. destruct (fl cap) as [|i rest] eqn:Hfl.
  - rewrite (try_next_none cap _ fl) by done. cbn [mbind outcome_bind].
    set (wp1 := notify_on_next cap (tk_wp s)).
    assert (Ho1 : only cap (tk_wp s) wp1 (pool_notify_on_next cap (wp_pool (tk_wp s)))
                       (pview cap (tk_wp s))).
    { eapply only_with; [done| |done]. by split. }
    pose proof (notified_view (notify_of cap wp1)) as Hn.
    destruct (notified (notify_of cap wp1)) as [id n]. fold (pview cap wp1) in Hn.
    rewrite (only_view _ _ _ _ _ Ho1) in Hn. destruct Hn as [Hid Hn].
    assert (Ho2 : only cap (tk_wp s) (with_notify cap n wp1)
                    (pool_notify_on_next cap (wp_pool (tk_wp s))) (nt_view n)).
    { by eapply only_with. }
    pose proof (only_view _ _ _ _ _ Ho2) as Hv2. pose proof (only_pool _ _ _ _ _ Ho2) as Hp2.
    rewrite Hn in Hv2.
    destruct (wait_empty_new 1 cap id cx (with_notify cap n wp1) fl)
      as (id' & wp' & v' & E & Ho & Hr1 & Hr2).
    { rewrite Hp2. by apply pool_ok_notify. }
    { done. }
    { rewrite Hv2. apply lookup_insert_eq. }
    { rewrite Hv2. cbn. intros [w Hw]%(vk_queue _ (wo_view _ H cap)). congruence. }
    unfold poll_fuel. rewrite E. cbn. rewrite Hp2 in Ho. rewrite Hv2 in Hr1, Hr2.
    cbn in Hr1, Hr2. rewrite delete_insert_id in Hr1, Hr2 by done. subst v'.
    eapply (keeps_registered s t cap NextStart (pool_notify_on_next cap (wp_pool (tk_wp s)))
              id' cx wp' _ fl); try done.
    + by apply pool_ok_notify.
    + cbn. set_solver.
    + cbn. set_solver.
    + by eapply only_trans.
  - destruct (take_spec s cap fl i rest H Hok Hfl) as (v & len & p' & E & _).
    unfold try_next. rewrite E. cbn [mbind outcome_bind ret_with].
    eapply (keeps_resolved s t cap NextStart fl i rest); try done.
Qed.

(** A waiting future that is polled again remembers the task of this poll. *)
Lemma view_rewait_ok v id w cx :
  view_ok v -> nv_futs v !! id = Some (FWaiting w) ->
  view_ok (mkView (nv_permit v) (nv_queue v) (<[id := FWaiting cx]> (nv_futs v))).
Proof.
  intros [Hn Hq Hp Hs] Hid. split; cbn; [done| |done|].
  - intros j. rewrite lookup_insert. case_decide as E; [subst|apply Hq].
    rewrite Hq. split; intros _; by eexists.
  - intros j st. rewrite lookup_insert. case_decide; [intros [= <-]; eauto|apply Hs].
Qed.

Lemma awaits_state s t cap id :
  waits_ok s -> tk_next s !! t = Some (cap, NextAwaits id) ->
  nv_futs (pview cap (tk_wp s)) !! id = Some FNotified \/
  exists w, nv_futs (pview cap (tk_wp s)) !! id = Some (FWaiting w).
Proof.
  intros H Ht.
  destruct (proj2 (to_fut _ _ (wo_tasks _ H) cap id)) as [st Hst]; [by eexists|].
  destruct (vk_state _ (wo_view _ H cap) id st Hst) as [->|[w ->]]; eauto.
Qed.

Lemma futs_notified s cap fl :
  (forall c, balanced (wp_pool (tk_wp s)) fl c (pview c (tk_wp s))) ->
  forall id st, nv_futs (pview cap (tk_wp s)) !! id = Some st -> cap ∈ p_notify (wp_pool (tk_wp s)).
Proof.
  intros Hb id st Hid. apply (proj1 (Hb cap)). intros E. by rewrite E, lookup_empty in Hid.
Qed.

Lemma keeps_poll_waiting s t cap id w cx :
  waits_ok s -> tk_next s !! t = Some (cap, NextAwaits id) ->
  nv_futs (pview cap (tk_wp s)) !! id = Some (FWaiting w) ->
  keeps_waits (run_pool s (PPoll t cx)).
Proof.
  intros H Ht Hid. destruct (wo_pool _ H) as (fl & Hok & Hb). unfold keeps_waits.
  cbn [run_pool]. rewrite Ht. cbn [poll_next].
  destruct (wait_waiting 2 cap id cx (tk_wp s) w Hid) as (wp' & E & Ho).
  unfold poll_fuel. rewrite E. cbn. rewrite insert_id by done.
  pose proof (futs_notified s cap fl Hb _ _ Hid) as Hin.
  eapply (waits_step s cap wp' _ _ fl fl); try done.
  - split; [done|]. intros Hq. rewrite count_insert by congruence. rewrite decide_False by done.
    by apply (Hb cap).
  - apply (wo_held _ H).
  - eapply view_rewait_ok; [apply (wo_view _ H)|done].
  - apply tasks_ok_same; [apply (wo_tasks _ H)|]. intros j. cbn. rewrite lookup_insert.
    case_decide; [subst|done]. rewrite Hid. by split; eexists.
Qed.

Lemma keeps_poll_notified s t cap id cx :
  waits_ok s -> tk_next s !! t = Some (cap, NextAwaits id) ->
  nv_futs (pview cap (tk_wp s)) !! id = Some FNotified ->
  keeps_waits (run_pool s (PPoll t cx)).
Proof.
  intros H Ht Hid. destruct (wo_pool _ H) as (fl & Hok & Hb). unfold keeps_waits.
  cbn [run_pool]. rewrite Ht. cbn [poll_next]. pose proof (wo_view _ H cap) as Hv.
  pose proof (not_queued _ _ Hv Hid) as Hq.
  assert (Hold : forall j, awaited (Some (cap, NextAwaits id)) cap = Some j ->
            nv_futs (pview cap (tk_wp s)) !! j = Some FNotified).
  { intros j [= <-]%awaited_iff. done. }
  assert (Haw : awaited (Some (cap, NextAwaits id)) cap = Some id) by by apply awaited_iff.
  destruct (fl cap) as [|i rest] eqn:Hfl.
  - destruct (wait_empty_notified cap id cx (tk_wp s) fl) as (id' & wp' & v' & -> & Ho & Hr1 & ->);
      try done.
    { intros j [w ->]%(vk_queue _ Hv). by eexists. }
    cbn. eapply (keeps_registered s t cap (NextAwaits id) (wp_pool (tk_wp s)) id' cx wp'
              (delete id (nv_futs (pview cap (tk_wp s)))) fl); try done.
    + by rewrite Haw.
    + by eapply futs_notified.
  - destruct (wait_takes 2 cap id cx (tk_wp s) fl i rest)
      as (v & len & p' & wp' & E & E' & Ho); try done.
    unfold poll_fuel. rewrite E. cbn [mbind outcome_bind ret_with].
    eapply (keeps_resolved s t cap (NextAwaits id) fl i rest); try done. by rewrite Haw.
Qed.

Lemma keeps_poll s t cx : waits_ok s -> keeps_waits (run_pool s (PPoll t cx)).
Proof.
  intros H. destruct (tk_next s !! t) as [[cap [|id|]]|] eqn:Ht.
  - by eapply keeps_poll_start.
  - destruct (awaits_state s t cap id H Ht) as [Hid|[w Hid]];
      [by eapply keeps_poll_notified|by eapply keeps_poll_waiting].
  - by destruct (to_live _ _ (wo_tasks _ H) t cap).
  - unfold keeps_waits. cbn. by rewrite Ht.
Qed.

Lemma view_drop_ok v id :
  view_ok v -> is_Some (nv_futs v !! id) ->
  view_ok (view_drop id v).1 /\ 
  (forall j, is_Some (nv_futs (view_drop id v).1 !! j) <-> is_Some (nv_futs v !! j) /\ j <> id) /\
  (nv_queue (view_drop id v).1 <> [] -> nv_queue v <> [] /\
     (notified_count v <= notified_count (view_drop id v).1)%nat).
Proof.
  intros Hv [st Hst]. destruct (vk_state _ Hv id st Hst) as [->|[w ->]];
    unfold view_drop; rewrite Hst.
  - pose proof (not_queued _ _ Hv Hst) as Hq. rewrite filter_absent by done.
    pose proof (view_delete_ok v id Hv Hq) as Hv'. destruct (view_one_ok _ Hv') as [Hv1 Hc].
    pose proof (count_delete id v (nv_queue v) (nv_permit v)) as Hn.
    rewrite decide_True in Hn by done. pose proof (count_notified _ _ Hst).
    split; [done|]. cbn [nv_queue nv_futs] in *. destruct (nv_queue v) as [|j q] eqn:Eq.
    + destruct Hc as (_ & -> & ->). split; [|done]. intros j. rewrite lookup_delete_is_Some. naive_solver.
    + destruct Hc as (w & Hw & _ & -> & -> & ->). split; [|intros _; split; [done|lia]].
      intros k. rewrite lookup_insert. case_decide as E.
      { subst. apply lookup_delete_Some in Hw as [? Hw]. rewrite Hw. split; [split; [by eexists|done]|by eexists]. }
      rewrite lookup_delete_is_Some. naive_solver.
  - cbn. split_and!.
    + destruct Hv as [Hn Hq Hp Hs]. split; cbn; [by apply NoDup_filter| | |].
      * intros j. rewrite list_elem_of_filter, Hq, lookup_delete. case_decide; naive_solver.
      * intros Hf. apply Hp. intros E. by rewrite E in Hf.
      * intros j st [_ H]%lookup_delete_Some. by eapply Hs.
    + intros j. rewrite lookup_delete_is_Some. naive_solver.
    + intros Hf. split; [intros E; by rewrite E in Hf|].
      rewrite count_delete, decide_False by congruence. done.
Qed.

Lemma keeps_cancel s t : waits_ok s -> keeps_waits (run_pool s (PCancel t)).
Proof.
  intros H. destruct (wo_pool _ H) as (fl & Hok & Hb). unfold keeps_waits. cbn [run_pool].
  destruct (tk_next s !! t) as [[cap fut]|] eqn:Ht; [|done].
  assert (Hoth : forall c, c <> cap -> awaited (tk_next s !! t) c = None /\ awaited None c = None).
  { intros c Hc. split; [|done]. apply eq_None_not_Some; intros [j Hj%awaited_iff]; naive_solver. }
  destruct fut as [|id|]; cbn [drop_next]; [| |by destruct (to_live _ _ (wo_tasks _ H) t cap)].
  - eapply (waits_step s cap (tk_wp s) (wp_pool (tk_wp s)) (pview cap (tk_wp s)) fl fl);
      try done; [apply (wo_held _ H)|apply (wo_view _ H)|].
    apply (tasks_ok_step _ (fun c => pview c (tk_wp s)) t cap None); try done.
    + apply (wo_tasks _ H).
    + intros j. rewrite Ht. cbn. naive_solver.
  - assert (Hid : is_Some (nv_futs (pview cap (tk_wp s)) !! id))
      by (apply (to_fut _ _ (wo_tasks _ H)); eauto).
    destruct (notified_drop_view id (notify_of cap (tk_wp s))) as [H1 _].
    destruct (notified_drop id (notify_of cap (tk_wp s))) as [n woken]. cbn in H1.
    fold (pview cap (tk_wp s)) in H1. cbn [ret_with].
    destruct (view_drop_ok _ id (wo_view _ H cap) Hid) as (Hv & Hf & Hq).
    eapply (waits_step s cap _ (wp_pool (tk_wp s))
              (view_drop id (pview cap (tk_wp s))).1 fl fl); try done.
    + by eapply only_with; [done|apply only_refl|].
    + split.
      * intros _. destruct Hid as [st Hst]. by eapply futs_notified.
      * intros Hne. destruct (Hq Hne) as [Hne' Hle]. pose proof (proj2 (Hb cap) Hne'). lia.
    + apply (wo_held _ H).
    + apply (tasks_ok_step _ (fun c => pview c (tk_wp s)) t cap None); try done.
      * apply (wo_tasks _ H).
      * intros j. rewrite Hf, Ht, !awaited_iff. split.
        { intros [? ?]. right. split; [done|congruence]. }
        intros [?|[? Hne]]; [done|]. split; [done|congruence].
Qed.

Lemma keeps_event s e : waits_ok s -> pool_enabled s e -> keeps_waits (run_pool s e).
Proof.
  intros H He. destruct e; [by apply keeps_start|by apply keeps_poll|by apply keeps_cancel|
    by apply keeps_take|by apply keeps_give].
Qed.

Lemma pool_reachable_ok bufs s : pool_reachable bufs s -> waits_ok s.
Proof.
  induction 1 as [p Hp|s e r s' woken _ IH He E].
  - destruct (pool_new_ok bufs p Hp) as (fl & Hok & Hfree).
    assert (Hv : forall c, pview c (mkWaitPool p ∅) = mkView false [] ∅).
    { intros c. unfold pview, notify_of. cbn. rewrite lookup_empty. apply notify_default_view. }
    split; cbn.
    + exists fl. split; [done|]. intros c. by rewrite Hv.
    + split; [apply NoDup_nil_2|]. intros i. rewrite elem_of_nil. split; [done|]. intros Hi.
      unfold all_free in Hfree. rewrite Forall_lookup in Hfree. by apply Hfree in Hi.
    + intros c. rewrite Hv. split; cbn; try done; [apply NoDup_nil_2|..].
      * intros id. rewrite elem_of_nil, lookup_empty. split; [done|by intros [? ?]].
    + split; [|done..]. intros c id. rewrite Hv. cbn. rewrite lookup_empty.
      split; [by intros [? ?]|]. intros [t Ht]. by rewrite lookup_empty in Ht.
  - pose proof (keeps_event s e IH He) as Hk. unfold keeps_waits in Hk. by rewrite E in Hk.
Qed.

(** C11. Waiting for a buffer loses no wake-up. However tasks call [next], are
    polled and cancelled, and buffers are taken and dropped, nothing panics
    and no poll loops; and whenever a buffer of some capacity is free
    although a task waits for one, another task was notified of it: that
    task has been woken and its next poll resolves to a buffer of the pool.
    In particular no buffer lies idle while all tasks sleep. *)
Theorem next_no_lost_wakeup bufs s :
  pool_reachable bufs s ->
  (forall e, pool_enabled s e -> ret_with (fun _ => True) (run_pool s e)) /\
  forall t cap id w,
    tk_next s !! t = Some (cap, NextAwaits id) ->
    nv_futs (pview cap (tk_wp s)) !! id = Some (FWaiting w) ->
    is_Some (p_heads (wp_pool (tk_wp s)) !! cap) ->
    exists t' id', tk_next s !! t' = Some (cap, NextAwaits id') /\
      nv_futs (pview cap (tk_wp s)) !! id' = Some FNotified /\
      forall cx, exists v len i s',
        run_pool s (PPoll t' cx) = Ret (Some (Ready (v, len, i)), s', []) /\
        tk_held s' = i :: tk_held s.
Proof.
  intros H%pool_reachable_ok. split.
  { intros e He. pose proof (keeps_event s e H He) as Hk. unfold keeps_waits in Hk.
    by destruct (run_pool s e). }
  intros t cap id w Ht Hid [i0 Hhead]. destruct (wo_pool _ H) as (fl & Hok & Hb).
  pose proof (wo_view _ H cap) as Hv.
  assert (Hq : nv_queue (pview cap (tk_wp s)) <> []).
  { intros E. assert (Hin : id ∈ nv_queue (pview cap (tk_wp s))) by (apply (vk_queue _ Hv); eauto).
    rewrite E in Hin. by apply elem_of_nil in Hin. }
  pose proof (proj2 (Hb cap) Hq) as Hle. pose proof (pk_chain _ _ Hok cap) as Hc.
  destruct (fl cap) as [|i rest] eqn:Hfl; cbn in Hc; [congruence|]. cbn in Hle.
  assert (Hex : exists id', nv_futs (pview cap (tk_wp s)) !! id' = Some FNotified).
  { unfold notified_count in Hle.
    destruct (map_choose (filter is_notified (nv_futs (pview cap (tk_wp s))))) as (id' & st & Hst).
    - intros E. rewrite E, map_size_empty in Hle. lia.
    - apply map_lookup_filter_Some in Hst as [Hst Hn]. unfold is_notified in Hn.
      cbn in Hn. subst. by exists id'. }
  destruct Hex as [id' Hid'].
  destruct (proj1 (to_fut _ _ (wo_tasks _ H) cap id')) as [t' Ht']; [by eexists|].
  exists t', id'. split_and!; [done..|]. intros cx.
  destruct (wait_takes 2 cap id' cx (tk_wp s) fl i rest) as (v & len & p' & wp' & E & _);
    [done..|by apply not_queued|].
  do 4 eexists. cbn [run_pool]. rewrite Ht'. cbn [poll_next]. unfold poll_fuel.
  rewrite E. by cbn.
Qed.

(** A buffer that comes back while tasks wait for its capacity wakes the
    one that has waited longest, as of its last poll. *)
Lemma give_wakes s k len cap id q r s' woken i v :
  waits_ok s -> tk_held s !! k = Some i -> st (p_iovecs (wp_pool (tk_wp s))) i = Some v ->
  iov_len v = cap -> nv_queue (pview cap (tk_wp s)) = id :: q ->
  run_pool s (PGive k len) = Ret (r, s', woken) ->
  exists w, nv_futs (pview cap (tk_wp s)) !! id = Some (FWaiting w) /\ woken = [w].
Proof.
  intros H Hk Hv Hcap Hq E. cbn in E. rewrite Hk in E. unfold check_in in E.
  destruct (wo_pool _ H) as (fl & Hok & Hb).
  destruct (view_one_ok _ (wo_view _ H cap)) as [_ Hone]. rewrite Hq in Hone.
  destruct Hone as (w & Hw & Hwk & _). exists w. split; [done|].
  pose proof (futs_notified s cap fl Hb _ _ Hw) as Hin.
  destruct (pool_check_in i len (wp_pool (tk_wp s))) as [[to p']| | |] eqn:Ec; try done.
  assert (to = Some cap) as ->.
  { unfold pool_check_in, index_vec in Ec. rewrite Hv in Ec. cbn in Ec.
    apply bind_Ret in Ec as (x & _ & Ec). apply bind_Ret in Ec as (u & _ & Ec).
    rewrite Hcap in Ec. rewrite decide_True in Ec by done. by simplify_eq. }
  cbn [mbind outcome_bind] in E.
  change (notify_of cap (with_pool p' (tk_wp s))) with (notify_of cap (tk_wp s)) in E.
  destruct (notify_one_view (notify_of cap (tk_wp s))) as [_ H2].
  destruct (notify_one (notify_of cap (tk_wp s))) as [n wk]. cbn in H2. cbn in E.
  simplify_eq. done.
Qed.
End waits.

(** * A concrete run: a [Notify] that is its view *)
Module Waiters.
Definition next_name (m : gmap N fut_state) : N := map_fold (fun k _ n => N.max n (k + 1)) 0 m.

Lemma next_name_fresh m : m !! next_name m = None.
Proof.
  assert (H : forall k, is_Some (m !! k) -> k < next_name m).
  { unfold next_name. apply (map_fold_weak_ind (fun n m => forall k, is_Some (m !! k) -> k < n)).
    - intros k. rewrite lookup_empty. by intros [? ?].
    - intros i st m' n Hi IH k. rewrite lookup_insert. case_decide as E; [lia|].
      intros Hk. specialize (IH k Hk). lia. }
  apply eq_None_not_Some. intros Hs. specialize (H _ Hs). lia.
Qed.

#[export] Instance view_notify : NotifyOps notify_view := {
  notify_default := mkView false [] ∅;
  notify_one := view_one;
  notified := fun v =>
    let id := next_name (nv_futs v) in
    (id, mkView (nv_permit v) (nv_queue v) (<[id := FNew]> (nv_futs v)));
  notified_poll := view_poll;
  notified_drop := view_drop;
}.
#[export] Instance view_notify_laws : NotifyLaws notify_view.
Proof.
  refine {| nt_view := fun v => v |}; try done. intros v. cbn. split; [apply next_name_fresh|done].
Defined.

#[local] Existing Instance debug_profile.
Definition wA : Waker := mkWaker 1 0.
Definition wB : Waker := mkWaker 2 0.

(** The two buffers of capacity 8 are taken, three tasks wait; one buffer
    comes back, whose task is then cancelled: the next one is told. *)
Definition events : list pool_event :=
  [PTake 8; PTake 8; PNext 1 8; PNext 2 8; PNext 3 8; PPoll 1 wA; PPoll 2 wB; PPoll 3 wA;
   PGive 0 5; PCancel 1].

Fixpoint run_all (s : tasks notify_view) (es : list pool_event) :
  outcome (tasks notify_view * list (list Waker)) :=
  match es with
  | [] => Ret (s, [])
  | e :: es => '(_, s, w) ← run_pool s e; '(s, ws) ← run_all s es; Ret (s, w :: ws)
  end.
Fixpoint all_enabled (s : tasks notify_view) (es : list pool_event) : Prop :=
  match es with
  | [] => True
  | e :: es => pool_enabled s e /\
               match run_pool s e with Ret (_, s, _) => all_enabled s es | _ => True end
  end.
Lemma events_reachable bufs s es s' ws :
  pool_reachable bufs s -> all_enabled s es -> run_all s es = Ret (s', ws) ->
  pool_reachable bufs s'.
Proof.
  revert s ws. induction es as [|e es IH]; intros s ws Hs He E; cbn in *; [by simplify_eq|].
  destruct He as [He Hes]. destruct (run_pool s e) as [[[r s1] w]| | |] eqn:E1; try done.
  cbn in E. apply bind_Ret in E as ([s2 ws2] & E2 & E). simplify_eq.
  apply (IH s1 ws2); [|done..]. by eapply pool_steps.
Qed.

Definition start : tasks notify_view := mkTasks (mkWaitPool demo_pool ∅) [] ∅.
Definition final : tasks notify_view * list (list Waker) :=
  match run_all start events with Ret r => r | _ => (start, []) end.

Lemma next_no_lost_wakeup_witness :
  drop 8 (snd final) = [[wA]; [wB]] /\
  exists t' id', tk_next (fst final) !! t' = Some (8, NextAwaits id') /\
      nv_futs (pview 8 (tk_wp (fst final))) !! id' = Some FNotified.
Proof.
  split; [vm_compute; reflexivity|].
  destruct (next_no_lost_wakeup demo_bufs (fst final)) as [_ H].
  - apply (events_reachable demo_bufs start events _ (snd final));
      [constructor; vm_compute; reflexivity| |vm_compute; reflexivity].
    vm_compute. repeat split.
  - destruct (H 3 8 2 wA) as (t' & id' & Ht & Hid & _); [vm_compute; reflexivity..| |].
    + vm_compute. by eexists.
    + exact (ex_intro _ t' (ex_intro _ id' (conj Ht Hid))).
Defined.
End Waiters.
