(* ===== verification/Types.v ===== *)
(** [src/src/types.rs]: results that carry a buffer on both sides. *)
From S2P Require Import Prelude.

(** [Error<B>] and [Result<T, B>]. *)
Record Error (B : Type) : Type := mkError { err_io : io_error; err_buf : B }.
Arguments mkError {B} err_io err_buf.
Arguments err_io {B} _.
Arguments err_buf {B} _.

Definition BufResult (T B : Type) : Type := result (T * B) (Error B).

(** [Error::map]. *)
Definition error_map {B U} (f : B -> U) (e : Error B) : Error U :=
  mkError (err_io e) (f (err_buf e)).

(** [MapResult::map_buf]. *)
Definition map_buf {T B U} (f : B -> U) (r : BufResult T B) : BufResult T U :=
  match r with
  | Ok (x, b) => Ok (x, f b)
  | Err e => Err (error_map f e)
  end.

(** [WithBuffer::with_buffer]; [into] is the conversion of the error. *)
Definition with_buffer {T B E} (into : E -> io_error) (b : B) (r : result T E) : BufResult T B :=
  match r with
  | Ok x => Ok (x, b)
  | Err e => Err (mkError (into e) b)
  end.

(** The buffer of a result, whichever side it is on. *)
Definition buf_of {T B} (r : BufResult T B) : B :=
  match r with Ok (_, b) => b | Err e => err_buf e end.
(** The outcome without the buffer. *)
Definition outcome_of {T B} (r : BufResult T B) : io_result T :=
  match r with Ok (x, _) => Ok x | Err e => Err (err_io e) end.

(** The buffer is never lost. Whatever the outcome, the result holds
    exactly one buffer: the one that was put in, or its image under the
    mapped function; the outcome itself is not changed, and mapping twice is
    mapping once. *)
Theorem buffer_kept {T B U V E} (into : E -> io_error) (f : B -> U) (g : U -> V)
    (r : BufResult T B) (r0 : result T E) (b : B) :
  buf_of (map_buf f r) = f (buf_of r) /\ outcome_of (map_buf f r) = outcome_of r /\
  map_buf g (map_buf f r) = map_buf (fun x => g (f x)) r /\
  buf_of (with_buffer into b r0) = b /\
  outcome_of (with_buffer into b r0) = match r0 with Ok x => Ok x | Err e => Err (into e) end.
Proof. by destruct r as [[? ?]|[? ?]], r0. Qed.
