(* ===== verification/SharedFd.v ===== *)
(** [src/src/io/shared_fd.rs]: a file descriptor shared by the operations that
    use it. [SharedFd] is an [Rc<Inner>]; one [Inner] is modelled with its
    strong count, together with what was done to the descriptor: [i_log]
    lists the asynchronous closes that were submitted or refused and the
    synchronous closes of destructors, the latest first. *)
From S2P Require Import Prelude IoUring Op.

Inductive State : Type := Init | WaitingForUniqueness (w : Waker) | Closed.
#[export] Instance State_eq_dec : EqDecision State.
Proof. solve_decision. Defined.

Inductive fd_event : Type :=
  | SubmitClose (fd : Z)
  | CloseRefused (fd : Z) (e : io_error)
  | SyncClose (fd : Z).

Record Inner : Type := mkInner {
  i_fd : Z;
  i_state : State;
  i_strong : nat;
  i_log : list fd_event;
}.

(** [SharedFd::new]. *)
Definition shared_new (fd : Z) : Inner := mkInner fd Init 1 [].
Definition raw_fd (i : Inner) : Z := i_fd i.

(** [SharedFd::clone]. *)
Definition shared_clone (i : Inner) : Inner :=
  mkInner (i_fd i) (i_state i) (S (i_strong i)) (i_log i).

Definition with_state (s : State) (i : Inner) : Inner :=
  mkInner (i_fd i) s (i_strong i) (i_log i).

(** The [poll_fn] of [sharedfd_is_unique]. *)
Definition poll_is_unique (cx : Waker) (i : Inner) : Poll unit * Inner :=
  if Nat.eqb (i_strong i) 1 then (Ready tt, i)
  else
    match i_state i with
    | Init => (Pending, with_state (WaitingForUniqueness cx) i)
    | WaitingForUniqueness waker =>
        (Pending,
         if negb (will_wake waker cx) then with_state (WaitingForUniqueness cx) i else i)
    | Closed => (Ready tt, i)
    end.

(** [Inner::async_close_op]; [submitted] is what [Op::close] gives. The answer
    is [None] while the submitted close is in flight, [Some] when there is
    nothing to wait for. *)
Definition async_close_op (submitted : io_result unit) (i : Inner) : option (io_result unit) * Inner :=
  match i_state i with
  | Closed => (Some (Ok tt), i)
  | _ =>
      match submitted with
      | Ok _ => (None, mkInner (i_fd i) Closed (i_strong i) (SubmitClose (i_fd i) :: i_log i))
      | Err e =>
          (Some (Err e), mkInner (i_fd i) Closed (i_strong i) (CloseRefused (i_fd i) e :: i_log i))
      end
  end.

(** One poll of the future of [SharedFd::close] before the close is in
    flight: the loop around [Rc::get_mut] and [sharedfd_is_unique]. *)
Inductive close_poll : Type :=
  | CloseAnswers (r : io_result unit)
  | CloseInFlight
  | CloseWaits.
Fixpoint poll_close (fuel : nat) (submitted : io_result unit) (cx : Waker) (i : Inner) :
    outcome (close_poll * Inner) :=
  match fuel with
  | O => NoFuel
  | S f =>
      if Nat.eqb (i_strong i) 1 then
        match async_close_op submitted i with
        | (Some r, i) => Ret (CloseAnswers r, i)
        | (None, i) => Ret (CloseInFlight, i)
        end
      else
        match poll_is_unique cx i with
        | (Ready _, i) => poll_close f submitted cx i
        | (Pending, i) => Ret (CloseWaits, i)
        end
  end.

(** [impl Drop for Inner]. *)
Definition drop_inner (i : Inner) : Inner :=
  match i_state i with
  | Closed => i
  | _ => mkInner (i_fd i) (i_state i) (i_strong i) (SyncClose (i_fd i) :: i_log i)
  end.

(** [impl Drop for SharedFd], then the strong count goes down; the last
    reference drops [Inner]. *)
Definition drop_shared (i : Inner) : Inner * list Waker :=
  let '(i, woken) := match i_state i with
                     | WaitingForUniqueness waker => (with_state Init i, [waker])
                     | _ => (i, [])
                     end in
  let i := mkInner (i_fd i) (i_state i) (pred (i_strong i)) (i_log i) in
  (if Nat.eqb (i_strong i) 0 then drop_inner i else i, woken).

(** * Life of a shared descriptor

    The owner may ask for an asynchronous close; it then holds its reference
    mutably, so clones are made by the others only. *)
Inductive fd_step (closing : bool) : Inner -> Inner -> Prop :=
  | fd_clone i : (0 < i_strong i)%nat -> i_state i <> Closed ->
      fd_step closing i (shared_clone i)
  | fd_drop i : (if closing then (1 < i_strong i)%nat else (0 < i_strong i)%nat) ->
      fd_step closing i (drop_shared i).1
  | fd_poll_close cx f r p i i' : closing = true -> (0 < i_strong i)%nat ->
      poll_close f r cx i = Ret (p, i') -> fd_step closing i i'
  (* the close has answered, or its future was dropped with the owner *)
  | fd_owner_gone i : closing = true -> (0 < i_strong i)%nat ->
      fd_step closing i (drop_shared i).1.

Inductive fd_reachable (closing : bool) (fd : Z) : Inner -> Prop :=
  | fd_new : fd_reachable closing fd (shared_new fd)
  | fd_next i i' : fd_reachable closing fd i -> fd_step closing i i' -> fd_reachable closing fd i'.

(** While references exist the descriptor is open unless its close was
    submitted; without references it was closed, once, or its close was
    refused. *)
Definition close_tried (fd : Z) (log : list fd_event) : Prop :=
  log = [SubmitClose fd] \/ exists e, log = [CloseRefused fd e].
Definition fd_inv (fd : Z) (i : Inner) : Prop :=
  i_fd i = fd /\
  match i_state i with
  | Closed => close_tried fd (i_log i) /\ (i_strong i <= 1)%nat
  | _ => if Nat.eqb (i_strong i) 0 then i_log i = [SyncClose fd] else i_log i = []
  end.

Lemma poll_close_inv fd fuel r cx i p i' :
  (0 < i_strong i)%nat -> fd_inv fd i -> poll_close fuel r cx i = Ret (p, i') -> fd_inv fd i'.
Proof.
  revert i. induction fuel as [|f IH]; intros i Hs Hi; [done|]. cbn.
  destruct Hi as [Hf Hi]. destruct (Nat.eqb_spec (i_strong i) 1) as [E|E].
  - unfold async_close_op. destruct (i_state i) eqn:Es.
    3: by intros [= <- <-]; split; [done|rewrite Es].
    all: destruct r; intros [= <- <-]; (split; [done|]); cbn;
      rewrite (proj2 (Nat.eqb_neq (i_strong i) 0)) in Hi by lia; rewrite Hi, Hf;
      (split; [unfold close_tried; eauto|lia]).
  - unfold poll_is_unique. rewrite (proj2 (Nat.eqb_neq _ _) E).
    destruct (i_state i) as [|w|] eqn:Es.
    + intros [= <- <-]. by split.
    + destruct (negb (will_wake w cx)); intros [= <- <-]; split; cbn; [done..|by rewrite Es].
    + destruct Hi as [_ Hi]. lia.
Qed.

Lemma drop_shared_inv fd i :
  (0 < i_strong i)%nat -> fd_inv fd i -> fd_inv fd (drop_shared i).1.
Proof.
  intros Hs [Hf Hi]. unfold drop_shared, fd_inv. destruct (i_state i) as [|w|] eqn:Es; cbn.
  - rewrite (proj2 (Nat.eqb_neq _ 0)) in Hi by lia.
    destruct (Nat.eqb_spec (pred (i_strong i)) 0) as [E|E]; unfold drop_inner; cbn;
      rewrite Es; cbn; rewrite ?Es.
    + rewrite E. cbn. by rewrite Hi, Hf.
    + by rewrite (proj2 (Nat.eqb_neq _ 0)).
  - rewrite (proj2 (Nat.eqb_neq _ 0)) in Hi by lia.
    destruct (Nat.eqb_spec (pred (i_strong i)) 0) as [E|E]; cbn.
    + rewrite E. cbn. by rewrite Hi, Hf.
    + by rewrite (proj2 (Nat.eqb_neq _ 0)).
  - destruct Hi as [Hl Hn]. rewrite (proj2 (Nat.eqb_eq _ 0)) by lia.
    unfold drop_inner. cbn. rewrite Es. cbn. rewrite ?Es. split_and!; [done..|lia].
Qed.

(** A descriptor is closed exactly once, and only when nobody uses it.
    However clones, drops and polls of [close] interleave, the asynchronous
    close is submitted only while a single reference is left, no close
    happens while the descriptor is in use, the last reference to go closes
    it synchronously unless it was closed already, and there is never a
    second close. Only when the ring refuses the close is the descriptor
    left open for good, since its state says [Closed] by then. *)
Theorem fd_closed_once closing fd i :
  fd_reachable closing fd i ->
  (length (i_log i) <= 1)%nat /\
  ((1 < i_strong i)%nat -> i_log i = []) /\
  (i_strong i = 0%nat -> close_tried fd (i_log i) \/ i_log i = [SyncClose fd]).
Proof.
  intros H. assert (Hi : fd_inv fd i).
  { induction H as [|i i' _ IH Hst]; [done|]. destruct Hst as [i Hs Hc|i Hs|cx f r p i i' _ Hs E|i _ Hs].
    - destruct IH as [Hf Hi]. split; [done|]. cbn.
      destruct (i_state i); [..|done]; by rewrite (proj2 (Nat.eqb_neq _ 0)) in Hi by lia.
    - apply drop_shared_inv; [|done]. destruct closing; lia.
    - by eapply poll_close_inv.
    - by apply drop_shared_inv. }
  destruct Hi as [Hf Hi]. destruct (i_state i); [| |destruct Hi as [Hi ?]];
    [| |split_and!; [by destruct Hi as [->|[e ->]]|lia|by left]];
    try (destruct (Nat.eqb_spec (i_strong i) 0); rewrite Hi); cbn; split_and!; auto; lia.
Qed.

(** Closing waits for the operations in flight and is woken by them. A
    poll of [close] never loops forever while the descriptor is not closed;
    if it waits, other references exist, and the next one to be dropped
    wakes exactly the task of that poll; if no other reference exists, the
    close is submitted at once, and if the ring refuses it the error is the
    answer. *)
Theorem close_progress submitted cx i :
  (0 < i_strong i)%nat -> i_state i <> Closed ->
  if decide (i_strong i = 1%nat)
  then exists i', i_state i' = Closed /\
         match submitted with
         | Ok _ => poll_close 1 submitted cx i = Ret (CloseInFlight, i') /\
                   i_log i' = SubmitClose (i_fd i) :: i_log i
         | Err e => poll_close 1 submitted cx i = Ret (CloseAnswers (Err e), i') /\
                    i_log i' = CloseRefused (i_fd i) e :: i_log i
         end
  else exists i', poll_close 1 submitted cx i = Ret (CloseWaits, i') /\ i_strong i' = i_strong i /\
         (drop_shared i').2 = [cx].
Proof.
  intros Hs Hc. cbn. case_decide as E.
  - rewrite E. cbn. unfold async_close_op. destruct (i_state i); [..|done];
      destruct submitted; (eexists; split; [|split; reflexivity]; reflexivity).
  - rewrite (proj2 (Nat.eqb_neq _ _) E). unfold poll_is_unique.
    rewrite (proj2 (Nat.eqb_neq _ _) E). destruct (i_state i) as [|w|] eqn:Es; [|clear Hc|done].
    + by eexists.
    + destruct (will_wake w cx) eqn:Ew; cbn.
      * apply will_wake_spec in Ew as ->. eexists. split_and!; [done..|]. unfold drop_shared.
        by rewrite Es.
      * by eexists.
Qed.

Lemma fd_closed_once_witness :
  (length (i_log (drop_shared (shared_new 5)).1) <= 1)%nat /\
  i_log (drop_shared (shared_new 5)).1 = [SyncClose 5].
Proof.
  split; [|reflexivity]. apply (fd_closed_once false 5).
  eapply fd_next; [apply fd_new|]. apply fd_drop. cbn. lia.
Defined.

Lemma close_progress_witness :
  exists i', poll_close 1 (Ok tt) (mkWaker 3 0) (shared_clone (shared_new 5)) = Ret (CloseWaits, i') /\
    (drop_shared i').2 = [mkWaker 3 0].
Proof.
  destruct (close_progress (Ok tt) (mkWaker 3 0) (shared_clone (shared_new 5))) as (i' & E & _ & H);
    [cbn; lia|done|].
  by exists i'.
Defined.
