(* ===== verification/Descriptor.v ===== *)
(** A descriptor and the driver together. Each operation keeps a clone of the
    [SharedFd] it works on inside its data ([fd: fd.clone()] in [src/src/io/]).
    The data of an operation moves into the driver when it is submitted and is
    dropped when its last owner lets go of it (see [Ownership.v]); that drops
    the clone. The state joins the driver's table to the [Inner] of one
    descriptor and to the [SharedFd]s that are elsewhere: in files, sockets,
    and operations that are not submitted yet. *)
From S2P Require Import Prelude Slab IoUring SlabList Op Driver DriverSpec System SharedFd Ownership.

Section descriptor.
Context {Prof : Profile} {Cq : Cqueue} `{!SlabOps slab}.
Context {T Output : Type} `{!Completable T Output} `{!Updateable T Output}.
(** What the data of an operation clones; [mine] is the descriptor at hand. *)
Context `{!Keyed T K} `{!EqDecision K} (mine : K).

Record desc : Type := mkDesc {
  d_sys : sys slab T;
  d_kept : gmap N K;      (* the data that exists *)
  d_inner : Inner;
  d_users : nat;          (* references outside the driver *)
}.
Implicit Types d : desc.

Definition desc_new (fd : Z) : desc := mkDesc sys_init ∅ (shared_new fd) 1.

(** The clones inside the driver's data. *)
Definition uses (kept : gmap N K) : nat := size (filter (fun ik => ik.2 = mine) kept).

(** Dropping several references, one after the other. *)
Fixpoint drop_many (n : nat) (i : Inner) : Inner * list Waker :=
  match n with
  | O => (i, [])
  | S n =>
      let '(i, woken) := drop_shared i in
      let '(i, woken') := drop_many n i in
      (i, woken ++ woken')
  end.

Inductive desc_event : Type :=
  | DClone
  | DDrop
  | DPollClose (fuel : nat) (submitted : io_result unit) (cx : Waker)
  | DDriver (e : event T).

Definition run_desc d (ev : desc_event) : outcome (desc * list Waker) :=
  match ev with
  | DClone => Ret (mkDesc (d_sys d) (d_kept d) (shared_clone (d_inner d)) (S (d_users d)), [])
  | DDrop =>
      let '(i, woken) := drop_shared (d_inner d) in
      Ret (mkDesc (d_sys d) (d_kept d) i (pred (d_users d)), woken)
  | DPollClose fuel submitted cx =>
      '(_, i) ← poll_close fuel submitted cx (d_inner d);
      Ret (mkDesc (d_sys d) (d_kept d) i (d_users d), [])
  | DDriver e =>
      s ← run_event (Output := Output) (d_sys d) e;
      let kept := kept_after e s (d_kept d) in
      match e with
      | ESubmit _ _ data =>
          Ret (mkDesc s kept (d_inner d)
                 (if decide (key data = mine) then pred (d_users d) else d_users d), [])
      | _ =>
          let '(i, woken) := drop_many (uses (d_kept d) - uses kept) (d_inner d) in
          Ret (mkDesc s kept i (d_users d), woken)
      end
  end.

(** A reference is cloned, dropped or moved into the driver by somebody who
    has one; after [close], which consumes its owner, nobody does but to
    drop it. *)
Definition desc_enabled (promise : CqeResult -> Prop) (good : Kind -> T -> Prop) d (ev : desc_event) : Prop :=
  match ev with
  | DClone => (0 < d_users d)%nat /\ i_state (d_inner d) <> Closed
  | DDrop | DPollClose _ _ _ => (0 < d_users d)%nat
  | DDriver e =>
      enabled promise good (d_sys d) e /\
      match e with
      | ESubmit _ _ data => key data = mine -> (0 < d_users d)%nat /\ i_state (d_inner d) <> Closed
      | _ => True
      end
  end.

Inductive desc_reachable (promise : CqeResult -> Prop) (good : Kind -> T -> Prop) (fd : Z) : desc -> Prop :=
  | desc_starts : desc_reachable promise good fd (desc_new fd)
  | desc_steps d ev d' woken :
      desc_reachable promise good fd d -> desc_enabled promise good d ev ->
      run_desc d ev = Ret (d', woken) -> desc_reachable promise good fd d'.
End descriptor.
Arguments mkDesc {slab T K} d_sys d_kept d_inner d_users.
Arguments d_sys {slab T K} _.
Arguments d_kept {slab T K} _.
Arguments d_inner {slab T K} _.
Arguments d_users {slab T K} _.
Arguments DClone {T}.
Arguments DDrop {T}.
Arguments DPollClose {T} fuel submitted cx.
Arguments DDriver {T} e.

(** * The reference count *)

(** The invariant of [SharedFd.v] with a waiting close: it is set only while
    there are others, and the next drop takes it. *)
Definition inner_ok (fd : Z) (i : Inner) : Prop :=
  fd_inv fd i /\
  match i_state i with WaitingForUniqueness _ => (2 <= i_strong i)%nat | _ => True end.
Definition waiter (i : Inner) : list Waker :=
  match i_state i with WaitingForUniqueness cx => [cx] | _ => [] end.

Lemma drop_shared_spec fd i :
  (0 < i_strong i)%nat -> inner_ok fd i ->
  inner_ok fd (drop_shared i).1 /\ i_strong (drop_shared i).1 = pred (i_strong i) /\
  (drop_shared i).2 = waiter i /\ waiter (drop_shared i).1 = [] /\
  (i_state (drop_shared i).1 = Closed <-> i_state i = Closed).
Proof.
  intros Hs [Hi _]. pose proof (drop_shared_inv fd i Hs Hi) as Hd. revert Hd.
  unfold inner_ok, waiter, drop_shared, drop_inner.
  destruct i as [f [|w|] n log]; cbn; destruct n as [|[|n]]; cbn; [done| | |done| | |done| |];
    intros Hd; split_and!; try done; try lia.
Qed.

Lemma drop_many_spec fd n i :
  (n <= i_strong i)%nat -> inner_ok fd i ->
  inner_ok fd (drop_many n i).1 /\ i_strong (drop_many n i).1 = (i_strong i - n)%nat /\
  (drop_many n i).2 = (match n with O => [] | _ => waiter i end) /\
  (i_state (drop_many n i).1 = Closed <-> i_state i = Closed).
Proof.
  revert i. induction n as [|n IH]; intros i Hn Hi; cbn.
  { split; [done|]. split; [lia|done]. }
  destruct (drop_shared_spec fd i) as (H1 & H2 & H3 & H4 & H5); [lia|done|].
  destruct (drop_shared i) as [i1 w]. cbn in *. subst w.
  destruct (IH i1) as (H6 & H7 & H8 & H9); [lia|done|].
  destruct (drop_many n i1) as [i2 w]. cbn in *. subst w.
  split; [done|]. split; [lia|]. split; [|by rewrite H9].
  destruct n; [by rewrite app_nil_r|]. by rewrite H4, app_nil_r.
Qed.

Lemma poll_close_spec fd fuel r cx i p i' :
  (0 < i_strong i)%nat -> inner_ok fd i -> poll_close fuel r cx i = Ret (p, i') ->
  inner_ok fd i' /\ i_strong i' = i_strong i /\
  (i_state i' = Closed -> i_state i <> Closed -> i_strong i = 1%nat).
Proof.
  intros Hs [Hi Hw] E. pose proof (poll_close_inv fd fuel r cx i p i' Hs Hi E) as Hi'.
  unfold inner_ok. enough (i_strong i' = i_strong i /\
    (i_state i' = Closed -> i_state i <> Closed -> i_strong i = 1%nat) /\
    match i_state i' with WaitingForUniqueness _ => (2 <= i_strong i')%nat | _ => True end) by tauto.
  clear Hi Hi'. revert E. induction fuel as [|f IH]; [done|]. cbn.
  destruct (Nat.eqb_spec (i_strong i) 1) as [E|E].
  - unfold async_close_op.
    destruct (i_state i) eqn:Es; [destruct r..|]; intros [= <- <-]; cbn; rewrite ?Es; auto.
  - unfold poll_is_unique. rewrite (proj2 (Nat.eqb_neq _ _) E).
    destruct (i_state i) as [|w|] eqn:Es.
    + intros [= <- <-]. cbn. split_and!; [done|done|lia].
    + destruct (negb (will_wake w cx)); intros [= <- <-]; cbn; rewrite ?Es; split_and!; done || lia.
    + done.
Qed.

Section counted.
Context {Prof : Profile} {Cq : Cqueue} `{!SlabOps slab} `{!SlabLaws slab}.
Context {T Output : Type} `{!Completable T Output} `{!Updateable T Output}.
Context (promise : CqeResult -> Prop) (good : Kind -> T -> Prop) `{!ClientLaws T Output promise good}.
Context `{!Keyed T K} `{!KeyedLaws T Output K} `{!EqDecision K} (mine : K) (fd : Z).
Implicit Types d : desc (slab := slab) (T := T) (K := K).

Lemma uses_filter (P : N * K -> Prop) `{!forall x, Decision (P x)} kept :
  (uses mine (filter P kept) <= uses mine kept)%nat.
Proof.
  unfold uses. rewrite map_filter_comm. apply map_subseteq_size, map_filter_subseteq.
Qed.
Lemma uses_insert i κ kept :
  kept !! i = None ->
  uses mine (<[i := κ]> kept) = ((if decide (κ = mine) then 1 else 0) + uses mine kept)%nat.
Proof.
  intros Hi. unfold uses. assert (Hf : filter (fun ik => ik.2 = mine) kept !! i = None).
  { apply map_lookup_filter_None. by left. }
  case_decide as E.
  - rewrite map_filter_insert_True by done. by rewrite map_size_insert_None.
  - rewrite map_filter_insert_False by done. by rewrite delete_id.
Qed.
Lemma uses_pos i kept : kept !! i = Some mine -> (0 < uses mine kept)%nat.
Proof.
  intros Hi. unfold uses. apply Nat.neq_0_lt_0. intros E%map_size_empty_inv.
  assert (filter (fun ik => ik.2 = mine) kept !! i = Some mine) as Hf by by apply map_lookup_filter_Some.
  by rewrite E, lookup_empty in Hf.
Qed.

(** Every reference is a user's or inside the data of an operation. *)
Record desc_inv d (sent : gmap N K) : Prop := {
  di_own : own_inv promise good (d_sys d) sent (d_kept d);
  di_inner : inner_ok fd (d_inner d);
  di_count : i_strong (d_inner d) = (d_users d + uses mine (d_kept d))%nat;
  di_closed : i_state (d_inner d) = Closed -> uses mine (d_kept d) = 0%nat;
}.

Lemma desc_new_inv : desc_inv (desc_new fd) ∅.
Proof.
  split; [|by split..|done]. apply (owned_inv (Output := Output) promise good). constructor.
Qed.

(** What an event does, in terms of the invariant: [lost] references go. *)
Definition moves d (ev : desc_event) : outcome (desc (slab := slab) (T := T) (K := K) * list Waker) :=
  run_desc (Output := Output) mine d ev.

(** A driver event other than a submission drops what nobody owns. *)
Lemma driver_event_inv d sent e s :
  desc_inv d sent -> enabled promise good (d_sys d) e -> run_event (Output := Output) (d_sys d) e = Ret s ->
  (forall h k data, e <> ESubmit h k data) ->
  let kept := kept_after e s (d_kept d) in
  let n := (uses mine (d_kept d) - uses mine kept)%nat in
  desc_inv (mkDesc s kept (drop_many n (d_inner d)).1 (d_users d)) sent /\
  (drop_many n (d_inner d)).2 = (match n with O => [] | _ => waiter (d_inner d) end).
Proof.
  intros [Ho Hi Hc Hcl] He E Hne kept n.
  pose proof (own_event promise good _ _ _ e s Ho He E) as Ho'.
  assert (Hle : (uses mine kept <= uses mine (d_kept d))%nat).
  { unfold kept. destruct e; [by edestruct Hne|apply uses_filter..]. }
  destruct (drop_many_spec fd n (d_inner d)) as (H1 & H2 & H3 & H4); [lia|done|]. split; [|done].
  split; cbn; [|done|lia|].
  - replace sent with (sent_after e s sent) by (destruct e; [by edestruct Hne|done..]). done.
  - intros Hcl'. apply H4, Hcl in Hcl'. lia.
Qed.

Lemma driver_submit_inv d sent h k data s :
  desc_inv d sent -> desc_enabled mine promise good d (DDriver (ESubmit h k data)) ->
  run_event (Output := Output) (d_sys d) (ESubmit h k data) = Ret s ->
  desc_inv (mkDesc s (kept_after (ESubmit h k data) s (d_kept d)) (d_inner d)
              (if decide (key data = mine) then pred (d_users d) else d_users d))
    (sent_after (ESubmit h k data) s sent).
Proof.
  intros [Ho Hi Hc Hcl] [He Hm] E. destruct (submit_fresh promise good _ _ _ _ _ _ _ Ho He E) as (i & Hk & Hf).
  pose proof (own_event promise good _ _ _ _ s Ho He E) as Ho'. cbn [kept_after] in Hk.
  split; cbn [d_sys d_kept d_inner d_users]; [done|done|..].
  - cbn [kept_after]. rewrite Hk, uses_insert by done. case_decide as Ed; [|lia]. destruct (Hm Ed). lia.
  - intros Hs. cbn [kept_after]. rewrite Hk, uses_insert by done. case_decide as Ed; [|by apply Hcl].
    by destruct (Hm Ed).
Qed.

Lemma desc_event_inv d sent ev d' woken :
  desc_inv d sent -> desc_enabled mine promise good d ev -> moves d ev = Ret (d', woken) ->
  exists sent', desc_inv d' sent'.
Proof.
  intros H He E. pose proof H as [Ho Hi Hc Hcl].
  destruct ev as [| |fuel r cx|e]; unfold moves in E; cbn in E, He.
  - destruct He as [Hu Hs]. simplify_eq. exists sent. split; cbn; [done| |lia|done].
    destruct Hi as [[Hf Hl] Hw]. unfold inner_ok, fd_inv. cbn. rewrite (proj2 (Nat.eqb_neq _ 0)) in Hl by lia.
    destruct (i_state (d_inner d)); split_and!; try done; lia.
  - destruct (drop_shared_spec fd (d_inner d)) as (H1 & H2 & _ & _ & H5); [lia|done|].
    destruct (drop_shared (d_inner d)) as [i w]. cbn in *. simplify_eq. exists sent.
    split; cbn; [done|done|lia|]. intros Hs. by apply Hcl, H5.
  - apply bind_Ret in E as ([p i] & E & E'). simplify_eq.
    destruct (poll_close_spec fd fuel r cx (d_inner d) p i) as (H1 & H2 & H3); [lia|done..|].
    exists sent. split; cbn; [done|done|lia|]. intros Hs.
    destruct (decide (i_state (d_inner d) = Closed)) as [Hd|Hd]; [by apply Hcl|].
    specialize (H3 Hs Hd). lia.
  - apply bind_Ret in E as (s & E & E').
    destruct e as [h k data|i c|h cx|h]; [simplify_eq; eexists; by apply driver_submit_inv|..];
      (exists sent; destruct (driver_event_inv d sent _ s H (proj1 He) E) as [H1 _]; [done|];
       destruct (drop_many _ _) as [j w]; simplify_eq; exact H1).
Qed.

Lemma desc_reachable_inv d :
  desc_reachable (Output := Output) mine promise good fd d -> exists sent, desc_inv d sent.
Proof.
  induction 1 as [|d ev d' woken _ [sent IH] He E]; [exists ∅; apply desc_new_inv|].
  by eapply desc_event_inv.
Qed.

Lemma desc_open d sent :
  desc_inv d sent -> (0 < i_strong (d_inner d))%nat -> i_state (d_inner d) <> Closed ->
  i_log (d_inner d) = [].
Proof.
  intros [_ [[_ Hi] _] _ _] Hs Hn. rewrite (proj2 (Nat.eqb_neq _ 0)) in Hi by lia.
  by destruct (i_state (d_inner d)).
Qed.
Lemma desc_in_use d sent i :
  desc_inv d sent -> d_kept d !! i = Some mine ->
  i_log (d_inner d) = [] /\ i_state (d_inner d) <> Closed.
Proof.
  intros H Hm. pose proof (uses_pos i _ Hm). pose proof (di_count _ _ H).
  assert (i_state (d_inner d) <> Closed) by (intros Hs; pose proof (di_closed _ _ H Hs); lia).
  split; [|done]. apply (desc_open d sent); [done|lia|done].
Qed.

(** No event of a descriptor and its driver fails. *)
Lemma desc_event_safe d ev :
  desc_reachable (Output := Output) mine promise good fd d -> desc_enabled mine promise good d ev ->
  match ev with DPollClose fuel _ _ => fuel <> 0%nat | _ => True end ->
  safe (fun _ => True) (run_desc (Output := Output) mine d ev).
Proof.
  intros [sent [Ho [[_ Hi] _] Hc Hcl]]%desc_reachable_inv He Hf.
  destruct ev as [| |[|fuel] r cx|e]; cbn [desc_enabled run_desc] in *; [done| |done|..].
  - by destruct (drop_shared (d_inner d)).
  - cbn [poll_close]. destruct (Nat.eqb_spec (i_strong (d_inner d)) 1) as [E|E].
    { unfold async_close_op. by destruct (i_state (d_inner d)), r. }
    unfold poll_is_unique. rewrite (proj2 (Nat.eqb_neq _ _) E).
    destruct (i_state (d_inner d)) as [|w|] eqn:Es; [done|by destruct (negb (will_wake w cx))|].
    specialize (Hcl eq_refl). lia.
  - pose proof (event_inv promise good _ e (own_sys _ _ _ _ _ Ho) (proj1 He)) as Hs.
    destruct (run_event (d_sys d) e) as [s|[]| |]; try done. cbn [mbind outcome_bind].
    destruct e; cbn; repeat case_match; done.
Qed.

(** C14. Nothing uses a descriptor that is closed. However operations on the
    descriptor and on others are submitted, completed, polled, dropped and
    cancelled, and however references are cloned, dropped and closed: the
    descriptor is closed at most once; as long as a reference is left, or
    the kernel works on an operation that was submitted on it, it is open,
    unless the single reference that is left has asked for the close; and
    when no reference is left and the kernel and all handles are done, it
    has been closed, unless the ring has refused the close. *)
Theorem descriptor_outlives_operations d :
  desc_reachable (Output := Output) mine promise good fd d ->
  let log := i_log (d_inner d) in
  (length log <= 1)%nat /\
  (forall i k, s_kernel (d_sys d) !! i = Some k -> d_kept d !! i = Some mine ->
     held (d_sys d) i mine /\ log = [] /\ i_state (d_inner d) <> Closed) /\
  ((1 < d_users d)%nat -> log = []) /\
  (d_users d = 0%nat -> s_kernel (d_sys d) = ∅ ->
   (forall h hd, s_handles (d_sys d) !! h = Some hd -> live hd = None) ->
   close_tried fd log \/ log = [SyncClose fd]).
Proof.
  intros [sent H]%desc_reachable_inv log. pose proof H as [Ho [[Hf Hi] _] Hc Hcl].
  split_and!.
  - unfold log. destruct (i_state (d_inner d)); [| |by destruct Hi as [[->|[e ->]] _]];
      destruct (Nat.eqb _ 0); rewrite Hi; cbn; lia.
  - intros i k _ Hm. split; [by apply (own_held _ _ _ _ _ Ho)|by eapply desc_in_use].
  - intros Hu. apply (desc_open d sent H); [lia|]. intros Hs. rewrite Hs in Hi. lia.
  - intros Hu Hk Hl. assert (Hz : i_strong (d_inner d) = 0%nat).
    { rewrite Hc, Hu. rewrite (nothing_kept promise good _ _ _ Ho Hk Hl). done. }
    rewrite Hz in Hi. unfold log. destruct (i_state (d_inner d)); [by right..|]. left. apply Hi.
Qed.

(** C40. A close that waits is woken. While the task of [close] sleeps, its waker
    is the one it was last polled with, and there is another reference: a
    user's, or inside the data of an operation, in a handle or in the
    driver's table. The event that takes the next reference away wakes that
    task, be it a drop by a user, a completion that frees a cancelled
    operation, or a poll that resolves; no event of the driver fails. And
    when the last operation is gone and no other user is left, the next poll
    of [close] submits the close. *)
Theorem close_wakes d cx :
  desc_reachable (Output := Output) mine promise good fd d ->
  i_state (d_inner d) = WaitingForUniqueness cx ->
  (2 <= d_users d + uses mine (d_kept d))%nat /\
  (forall ev, desc_enabled mine promise good d ev ->
     match ev with DPollClose fuel _ _ => fuel <> 0%nat | _ => True end ->
     safe (fun '(d', woken) =>
       (d_users d' + uses mine (d_kept d') < d_users d + uses mine (d_kept d))%nat ->
       woken = [cx] /\
       (d_users d' = 1%nat -> uses mine (d_kept d') = 0%nat ->
        forall cx', exists i, poll_close 1 (Ok tt) cx' (d_inner d') = Ret (CloseInFlight, i)))
     (run_desc (Output := Output) mine d ev)).
Proof.
  intros [sent H]%desc_reachable_inv Hw. pose proof H as [Ho [Hi Hi2] Hc Hcl]. rewrite Hw in Hi2.
  split; [lia|]. intros ev He Hf.
  assert (Hlast : forall d' woken, run_desc (Output := Output) mine d ev = Ret (d', woken) ->
            i_state (d_inner d') <> Closed -> d_users d' = 1%nat -> uses mine (d_kept d') = 0%nat ->
            forall cx', exists i, poll_close 1 (Ok tt) cx' (d_inner d') = Ret (CloseInFlight, i)).
  { intros d' woken E Hs Hu Hn cx'. destruct (desc_event_inv d sent ev d' woken H He E) as [sent' H'].
    cbn. rewrite (di_count _ _ H'), Hu, Hn. cbn. unfold async_close_op.
    destruct (i_state (d_inner d')); [by eexists..|done]. }
  destruct ev as [| |fuel r cx'|e]; cbn [desc_enabled run_desc] in *.
  - cbn. lia.
  - destruct (drop_shared_spec fd (d_inner d)) as (_ & _ & H3 & _ & H5); [lia|by split; [|rewrite Hw]|].
    destruct (drop_shared (d_inner d)) as [i w]. cbn in *. unfold waiter in H3. rewrite Hw in H3.
    intros _. split; [done|]. apply (Hlast _ _ eq_refl). intros Hs. apply H5 in Hs. congruence.
  - destruct fuel as [|fuel]; [done|]. cbn. rewrite (proj2 (Nat.eqb_neq _ 1)) by lia.
    unfold poll_is_unique. rewrite (proj2 (Nat.eqb_neq _ 1)), Hw by lia. cbn. lia.
  - pose proof (event_inv promise good _ e (own_sys _ _ _ _ _ Ho) (proj1 He)) as Hsafe.
    destruct (run_event (d_sys d) e) as [s|[]| |] eqn:E; try done. cbn [mbind outcome_bind] in *.
    destruct e as [h k data|i c|h cx'|h].
    1:{ cbn [safe]. destruct (submit_fresh promise good _ _ _ _ _ _ _ Ho (proj1 He) E) as (i & Hk & Hn).
        cbn [kept_after] in Hk. cbn [kept_after d_users d_kept]. rewrite Hk, uses_insert by done.
        case_decide as Hm; [|lia]. destruct (proj2 He Hm). lia. }
    all: destruct (driver_event_inv d sent _ s H (proj1 He) E) as [H1 H2]; [done|];
      set (n := (uses mine (d_kept d) - _)%nat) in *; destruct (drop_many_spec fd n (d_inner d)) as (_ & _ & _ & H5);
      [unfold n; lia|by split; [|rewrite Hw]|]; destruct (drop_many n (d_inner d)) as [j w] eqn:Ej;
      cbn [safe d_users d_kept]; intros Hlt; cbn in H2; destruct n eqn:En; [lia|];
      unfold waiter in H2; rewrite Hw in H2; split; [done|];
      apply (Hlast _ _ eq_refl); cbn; intros Hs; apply H5 in Hs; congruence.
Qed.
End counted.

(** * Runs *)
Section runs.
Context {Prof : Profile} {Cq : Cqueue} `{!SlabOps slab}.
Context {T Output : Type} `{!Completable T Output} `{!Updateable T Output}.
Context `{!Keyed T K} `{!EqDecision K} (mine : K).
Context (promise : CqeResult -> Prop) (good : Kind -> T -> Prop).
Abbreviation D := (desc (slab := slab) (T := T) (K := K)).

Fixpoint run_descs (d : D) (evs : list (desc_event (T := T))) : outcome D :=
  match evs with
  | [] => Ret d
  | ev :: evs => '(d, _) ← run_desc (Output := Output) mine d ev; run_descs d evs
  end.
Fixpoint all_allowed (d : D) (evs : list (desc_event (T := T))) : Prop :=
  match evs with
  | [] => True
  | ev :: evs => desc_enabled mine promise good d ev /\
                 match run_desc (Output := Output) mine d ev with
                 | Ret (d, _) => all_allowed d evs
                 | _ => True
                 end
  end.
Lemma descs_reachable fd d evs d' :
  desc_reachable (Output := Output) mine promise good fd d -> all_allowed d evs ->
  run_descs d evs = Ret d' -> desc_reachable (Output := Output) mine promise good fd d'.
Proof.
  revert d. induction evs as [|ev evs IH]; intros d Hd Ha E; cbn in *; [by simplify_eq|].
  destruct Ha as [He Ha]. destruct (run_desc mine d ev) as [[d1 w]| | |] eqn:E1; try done.
  apply (IH d1); [|done..]. by apply (desc_steps _ _ _ _ d ev d1 w).
Qed.
End runs.

(** * A file that is closed while a dropped operation is in flight *)
Module Closing.
Import Tagged.
Abbreviation D := (desc (slab := gmap N) (T := data) (K := N)).
Abbreviation Out := (list (io_result N)).
(** An operation on the descriptor and another one; the former's future is
    dropped and the file closed. *)
Definition events : list (desc_event (T := data)) :=
  [DDriver (ESubmit 7 Single (50, [])); DClone; DDriver (ESubmit 8 Single (60, []));
   DDriver (EPoll 8 w1); DDriver (EDrop 8); DPollClose 1 (Ok tt) w1].
Definition waits : D := match run_descs (Output := Out) 60 (desc_new 5) events with Ret d => d | _ => desc_new 5 end.
Lemma waits_reachable : desc_reachable (Output := Out) 60 anything anyone 5 waits.
Proof.
  apply (descs_reachable (Output := Out) 60 anything anyone 5 (desc_new 5) events waits);
    [apply desc_starts| |vm_compute; reflexivity].
  walk; intros; first [lia|split; [lia|discriminate]].
Qed.

Lemma descriptor_outlives_operations_witness :
  s_kernel (d_sys waits) !! 1 = Some Single /\ held (d_sys waits) 1 60 /\
  i_log (d_inner waits) = [].
Proof.
  destruct (descriptor_outlives_operations (Output := Out) anything anyone 60 5 waits
              waits_reachable) as (_ & H & _).
  split; [vm_compute; reflexivity|].
  destruct (H 1 Single) as (H1 & H2 & _); [vm_compute; reflexivity..|]. by split.
Defined.

Definition done_ : desc_event (T := data) := DDriver (ECompletion 1 (Cqe 1 0 0)).
Lemma close_wakes_witness :
  exists d', run_desc (Output := Out) 60 waits done_ = Ret (d', [w1]) /\
    exists i, poll_close 1 (Ok tt) w1 (d_inner d') = Ret (CloseInFlight, i).
Proof.
  destruct (close_wakes (Output := Out) anything anyone 60 5 waits w1 waits_reachable)
    as [_ H]; [vm_compute; reflexivity|].
  specialize (H done_). destruct (run_desc 60 waits done_) as [[d' woken]| | |] eqn:E;
    [|vm_compute in E; discriminate E..].
  destruct H as [Hw Hc]; [walk|exact I|vm_compute in E; injection E as <- <-; vm_compute; lia|].
  exists d'. rewrite Hw. split; [reflexivity|].
  vm_compute in E. injection E as Ed _. apply Hc; rewrite <- Ed; vm_compute; reflexivity.
Defined.
End Closing.
