(* ===== verification/ReadWrite.v ===== *)
(** [src/src/io/read_write.rs], [read_fixed.rs] and [write_fixed.rs]: reads and
    writes of files and sockets, from the buffer to the submission entry and
    from the completion back to the buffer. *)
From S2P Require Import Prelude Buf Buffer FixedBuf Types IoUring Op SharedFd Handle Link.

(** The reference that an operation keeps on its descriptor. *)
Record FdRef : Type := mkFdRef { fr_fd : Z }.

Inductive RwKind : Type := Read | Write.
Record ReadWriteData : Type := mkRwData { rw_fd : FdRef; rw_buf : Buffer }.
Record ReadWriteTransform : Type := mkRwTransform { rw_kind : RwKind }.
Abbreviation Unsubmitted := (UnsubmittedOneshot ReadWriteData ReadWriteTransform).

Definition same_error (e : io_error) : io_error := e.

Section read_write.
Context {Prof : Profile}.

(** [ReadWriteTransform::transform_oneshot_output]. *)
#[export] Instance rw_transform :
    OneshotOutputTransform ReadWriteTransform ReadWriteData (BufResult N Buffer) :=
  fun self data c =>
    let n := cqe_result c in
    if (n <? 0)%Z then
      e ← neg_i32 n;
      Ret (with_buffer same_error (rw_buf data) (Err (OsError e)))
    else
      buf ← match rw_kind self with
            | Read => io_set_init (usize_of_i32 n) (rw_buf data)
            | Write => Ret (rw_buf data)
            end;
      Ret (Ok (usize_of_i32 n, buf)).

(** The [buf_index] of a registered buffer, through its user data; [None] for
    any other kind of buffer. *)
Definition fixed_index (buf : Buffer) : outcome (option N) :=
  if decide (buffer_type_id buf = TyRegistryFixedBuf) then
    info ← as_registry_info (buffer_user_data buf); Ret (Some (ri_index info))
  else if decide (buffer_type_id buf = TyPoolFixedBuf) then
    info ← as_pool_info (buffer_user_data buf); Ret (Some (pi_index info))
  else Ret None.

(** [Unsubmitted::write_at]. *)
Definition write_at (fd : FdRef) (buf : Buffer) (offset : N) : outcome Unsubmitted :=
  let ptr := io_stable_ptr buf in
  len ← io_bytes_init buf;
  op ← (if Nat.eqb (buffer_len buf) 1 then
          idx ← fixed_index buf;
          Ret (match idx with
               | Some i => OpWriteFixed (fr_fd fd) ptr (as_u32 len) i offset
               | None => OpWrite (fr_fd fd) ptr (as_u32 len) offset
               end)
        else Ret (OpWritev (fr_fd fd) ptr (as_u32 (N.of_nat (buffer_len buf))) offset));
  Ret (mkUnsubmitted (mkRwData fd buf) (mkRwTransform Write) (build op)).

(** [Unsubmitted::read_at]. *)
Definition read_at (fd : FdRef) (buf : Buffer) (offset : N) : outcome Unsubmitted :=
  let ptr := io_stable_mut_ptr buf in
  len ← io_bytes_total buf;
  let buf := fill buf in
  op ← (if Nat.eqb (buffer_len buf) 1 then
          idx ← fixed_index buf;
          Ret (match idx with
               | Some i => OpReadFixed (fr_fd fd) ptr (as_u32 len) i offset
               | None => OpRead (fr_fd fd) ptr (as_u32 len) offset
               end)
        else Ret (OpReadv (fr_fd fd) ptr (as_u32 (N.of_nat (buffer_len buf))) offset));
  Ret (mkUnsubmitted (mkRwData fd buf) (mkRwTransform Read) (build op)).

(** * [ReadFixed] and [WriteFixed] on a view [V] of a [Buffer] *)
Record ReadFixed (V : Type) : Type := mkReadFixed { rfx_fd : FdRef; rfx_buf : V }.
Record WriteFixed (V : Type) : Type := mkWriteFixed { wfx_fd : FdRef; wfx_buf : V }.
Arguments mkReadFixed {V} rfx_fd rfx_buf.
Arguments rfx_fd {V} _.
Arguments rfx_buf {V} _.
Arguments mkWriteFixed {V} wfx_fd wfx_buf.
Arguments wfx_fd {V} _.
Arguments wfx_buf {V} _.

Definition must_be_fixed (idx : option N) : outcome N :=
  match idx with
  | Some i => Ret i
  | None => Panic (PUnreachable "Buffer must be created from FixedBuf")
  end.

(** The closure of [Op::read_fixed_at]. *)
Definition read_fixed_sqe `{!BoundedBuf V Buffer Bounds} `{!BoundedBufMut V Buffer Bounds}
    (offset : N) (read_fixed : ReadFixed V) : outcome (sqe * ReadFixed V) :=
  ptr ← stable_mut_ptr (rfx_buf read_fixed);
  len ← bytes_total (rfx_buf read_fixed);
  idx ← fixed_index (get_buf (rfx_buf read_fixed));
  i ← must_be_fixed idx;
  Ret (build (OpReadFixed (fr_fd (rfx_fd read_fixed)) ptr (as_u32 len) i offset), read_fixed).

(** The closure of [Op::write_fixed_at]. *)
Definition write_fixed_sqe `{!BoundedBuf V Buffer Bounds}
    (offset : N) (write_fixed : WriteFixed V) : outcome (sqe * WriteFixed V) :=
  ptr ← stable_ptr (wfx_buf write_fixed);
  len ← bytes_init (wfx_buf write_fixed);
  idx ← fixed_index (get_buf (wfx_buf write_fixed));
  i ← must_be_fixed idx;
  Ret (build (OpWriteFixed (fr_fd (wfx_fd write_fixed)) ptr (as_u32 len) i offset), write_fixed).

(** [impl Completable for ReadFixed] and [.. for WriteFixed]. A [u32] fits a
    [usize]. *)
Definition complete_read_fixed `{!BoundedBuf V Buffer Bounds} `{!BoundedBufMut V Buffer Bounds}
    (self : ReadFixed V) (c : CqeResult) : outcome (BufResult N V) :=
  buf ← match result_ c with
        | Ok n => set_init n (rfx_buf self)
        | Err _ => Ret (rfx_buf self)
        end;
  Ret (with_buffer same_error buf (result_ c)).
Definition complete_write_fixed {V} (self : WriteFixed V) (c : CqeResult) :
    outcome (BufResult N V) :=
  Ret (with_buffer same_error (wfx_buf self) (result_ c)).
End read_write.
Arguments mkReadFixed {V} rfx_fd rfx_buf.
Arguments rfx_buf {V} _.
Arguments mkWriteFixed {V} wfx_fd wfx_buf.
Arguments wfx_buf {V} _.
