(* ===== verification/ReadWriteSpec.v ===== *)
(** Properties of reads and writes: what memory a submission lets the kernel
    touch, and what the buffer looks like when it comes back. *)
From S2P Require Import Prelude Buf Buffer BufSpec FixedBuf FixedBufSpec Types IoUring Op.
From S2P Require Import SharedFd Handle Link ReadWrite.

(** The user data fits the type, as [Buffer::new] makes it. *)
Definition buffer_typed (b : Buffer) : Prop :=
  match ty b with
  | TyRegistryFixedBuf => exists info, user_data b = UdRegistry info
  | TyPoolFixedBuf => exists info, user_data b = UdPool info
  | _ => True
  end.

(** * What an entry asks the kernel to do *)

(** A transfer between a file and memory: [Read] fills the regions, [Write]
    takes from them. [tr_index] is the registered buffer it goes through. *)
Record transfer : Type := mkTransfer {
  tr_kind : RwKind; tr_fd : Z; tr_offset : N; tr_regions : list Ref; tr_index : option N;
}.
(** What the kernel finds when it takes [n] [iovec]s from [ptr], while the
    operation owns [b]: only the array of [b] is known to hold any. *)
Definition ref_of (v : iovec) : Ref := mkRef (iov_base v) (iov_len v).
Definition iovec_array (b : Buffer) (ptr n : N) : option (list Ref) :=
  if decide (ptr = iovec_ptr b /\ (N.to_nat n <= length (iovecs b))%nat)
  then Some (ref_of <$> take (N.to_nat n) (iovecs b)) else None.
(** The transfer an entry asks for; [None] for an entry of another kind, and
    for one that makes the kernel take arbitrary memory for [iovec]s. *)
Definition transfer_of (o : opcode) (b : Buffer) : option transfer :=
  match o with
  | OpRead fd ptr len off => Some (mkTransfer Read fd off [mkRef ptr len] None)
  | OpWrite fd ptr len off => Some (mkTransfer Write fd off [mkRef ptr len] None)
  | OpReadFixed fd ptr len i off => Some (mkTransfer Read fd off [mkRef ptr len] (Some i))
  | OpWriteFixed fd ptr len i off => Some (mkTransfer Write fd off [mkRef ptr len] (Some i))
  | OpReadv fd ptr n off =>
      (fun rs => mkTransfer Read fd off rs None) <$> iovec_array b ptr n
  | OpWritev fd ptr n off =>
      (fun rs => mkTransfer Write fd off rs None) <$> iovec_array b ptr n
  | _ => None
  end.
(** The index under which the kernel knows the memory of [b], if it does. *)
Definition registered (b : Buffer) : option N :=
  match ty b, user_data b with
  | TyRegistryFixedBuf, UdRegistry info => Some (ri_index info)
  | TyPoolFixedBuf, UdPool info => Some (pi_index info)
  | _, _ => None
  end.
Definition inside (r : Ref) (base n : N) : Prop :=
  base <= ref_ptr r /\ ref_ptr r + ref_len r <= base + n.
(** Every region lies in one of the allocations, below its limit. *)
Definition regions_inside (rs : list Ref) (bases limits : list N) : Prop :=
  Forall (fun r => exists i base n, bases !! i = Some base /\ limits !! i = Some n /\
                                    inside r base n) rs.

(** The lengths fit the 32 bits of the entries. *)
Definition fits_u32 (b : Buffer) : Prop :=
  sum_N (iov_len <$> iovecs b) < 2 ^ 32 /\ N.of_nat (length (iovecs b)) < 2 ^ 32.
(** Entry [s] transfers between the file [fd] at [off] and the buffer [b] of
    the operation: within the lengths of its allocations, through its index
    if it is a registered one, all of it if the lengths fit, and not linked
    to the next entry. *)
Definition asks (k : RwKind) (fd : FdRef) (off : N) (b : Buffer) (s : sqe) : Prop :=
  sqe_flags s = 0 /\ exists t, transfer_of (sqe_op s) b = Some t /\
    tr_kind t = k /\ tr_fd t = fr_fd fd /\ tr_offset t = off /\
    tr_index t = (if Nat.eqb (buffer_len b) 1 then registered b else None) /\
    regions_inside (tr_regions t) (iov_base <$> iovecs b) (iov_len <$> iovecs b) /\
    (fits_u32 b -> tr_regions t = ref_of <$> iovecs b).

Section spec.
Context {Prof : Profile}.

Lemma fixed_index_typed b : buffer_typed b -> fixed_index b = Ret (registered b).
Proof.
  unfold buffer_typed, fixed_index, buffer_type_id, buffer_user_data, registered. intros H.
  destruct (ty b); repeat case_decide; try done; by destruct H as [info ->].
Qed.

Lemma as_u32_le n : as_u32 n <= n.
Proof. unfold as_u32, wrap. apply N.Div0.mod_le. Qed.

Lemma fill_iovecs_parts vs cs :
  length vs = length cs ->
  iov_base <$> fill_iovecs vs cs = iov_base <$> vs /\ iov_len <$> fill_iovecs vs cs = cs /\
  length (fill_iovecs vs cs) = length vs.
Proof.
  revert cs. induction vs as [|v vs IH]; intros [|c cs] H; try done. cbn in *.
  injection H as H. destruct (IH cs H) as (-> & -> & ->). done.
Qed.

Lemma regions_of_iovecs vs limits n :
  Forall2 N.le (iov_len <$> vs) limits ->
  regions_inside (ref_of <$> take n vs) (iov_base <$> vs) limits.
Proof.
  intros H. apply Forall_fmap, Forall_take, Forall_forall. intros v Hv.
  apply list_elem_of_lookup in Hv as [i Hi].
  destruct (Forall2_lookup_l _ _ _ i (iov_len v) H) as (c & Hc & Hle).
  { by rewrite list_lookup_fmap, Hi. }
  exists i, (iov_base v), c. rewrite list_lookup_fmap, Hi. split_and!; [done..|].
  unfold inside, ref_of. cbn. lia.
Qed.

Lemma ref_of_zip vs : ref_of <$> vs = zip_with mkRef (iov_base <$> vs) (iov_len <$> vs).
Proof. induction vs as [|v vs IH]; cbn; [done|]. by rewrite IH. Qed.
(** An entry for the only allocation of a buffer, and one for its array. *)
Lemma asks_single k fd off b v (mk : option N -> opcode) :
  iovecs b = [v] ->
  (forall i, transfer_of (mk i) b =
     Some (mkTransfer k (fr_fd fd) off [mkRef (iov_base v) (as_u32 (iov_len v + 0))] i)) ->
  asks k fd off b (build (mk (registered b))).
Proof.
  intros Hv Hmk. split; [done|]. eexists. split; [apply Hmk|]. cbn. unfold buffer_len. rewrite Hv.
  split_and!; try done.
  - constructor; [|done]. exists 0%nat, (iov_base v), (iov_len v). split_and!; [done..|].
    unfold inside. cbn. pose proof (as_u32_le (iov_len v + 0)). lia.
  - unfold fits_u32. rewrite Hv. cbn. intros [Hs _]. unfold as_u32. by rewrite wrap_small, N.add_0_r by lia.
Qed.
Lemma asks_vectored k fd off b (mk : N -> opcode) :
  buffer_len b <> 1%nat ->
  (forall n, transfer_of (mk n) b =
     (fun rs => mkTransfer k (fr_fd fd) off rs None) <$> iovec_array b (iovec_ptr b) n) ->
  asks k fd off b (build (mk (as_u32 (N.of_nat (buffer_len b))))).
Proof.
  intros Hne Hmk. unfold buffer_len in *. split; [done|].
  assert (Hle : (N.to_nat (as_u32 (N.of_nat (length (iovecs b)))) <= length (iovecs b))%nat).
  { pose proof (as_u32_le (N.of_nat (length (iovecs b)))). lia. }
  cbn [sqe_op build]. rewrite Hmk. unfold iovec_array. rewrite decide_True by done.
  eexists. split; [done|]. cbn [tr_kind tr_fd tr_offset tr_index tr_regions]. unfold buffer_len.
  split_and!; [done..| | |].
  - by rewrite (proj2 (Nat.eqb_neq _ _)).
  - apply regions_of_iovecs. generalize (iov_len <$> iovecs b). intros l.
    induction l; constructor; lia || done.
  - intros [_ Hn]. unfold as_u32. rewrite wrap_small by done. by rewrite Nat2N.id, firstn_all.
Qed.

Lemma stable_ptr_single b v : iovecs b = [v] -> buffer_stable_ptr b = iov_base v.
Proof. unfold buffer_stable_ptr. by intros ->. Qed.
Lemma stable_ptr_vectored b : buffer_len b <> 1%nat -> buffer_stable_ptr b = iovec_ptr b.
Proof. unfold buffer_stable_ptr, buffer_len. by destruct (iovecs b) as [|? [|? ?]]. Qed.
Lemma single_iovec b : buffer_len b = 1%nat -> exists v, iovecs b = [v].
Proof. unfold buffer_len. destruct (iovecs b) as [|v [|? ?]]; try done. by exists v. Qed.
Lemma len_fill b : buffer_ok b -> buffer_len (fill b) = buffer_len b.
Proof. intros [Hl _ _]. by destruct (fill_iovecs_parts (iovecs b) (caps b) Hl) as (_ & _ & ?). Qed.

Lemma write_at_asks (fd : FdRef) (b : Buffer) (offset : N) :
  buffer_ok b -> buffer_typed b ->
  exists u, write_at fd b offset = Ret u /\ u_stable_data u = mkRwData fd b /\
    u_post_op u = mkRwTransform Write /\ asks Write fd offset b (u_sqe u).
Proof.
  intros Hok Hty. unfold write_at. rewrite buffer_bytes_init by done. cbn [mbind outcome_bind].
  destruct (Nat.eqb_spec (buffer_len b) 1) as [E|E].
  - rewrite fixed_index_typed by done. cbn [mbind outcome_bind].
    eexists. split; [done|]. split_and!; [done..|]. destruct (single_iovec b E) as [v Hv].
    cbn [u_sqe io_stable_ptr buffer_io_buf]. rewrite (stable_ptr_single b v Hv), Hv.
    apply (asks_single Write fd offset b v (fun idx => match idx with Some _ => _ | None => _ end) Hv).
    by intros [i|].
  - eexists. split; [done|]. split_and!; [done..|].
    cbn [u_sqe io_stable_ptr buffer_io_buf]. rewrite stable_ptr_vectored by done.
    by apply (asks_vectored Write fd offset b (fun n => OpWritev _ _ n _)).
Qed.
Lemma read_at_asks (fd : FdRef) (b : Buffer) (offset : N) :
  buffer_ok b -> buffer_typed b ->
  exists u, read_at fd b offset = Ret u /\ u_stable_data u = mkRwData fd (fill b) /\
    u_post_op u = mkRwTransform Read /\ asks Read fd offset (fill b) (u_sqe u).
Proof.
  intros Hok Hty. unfold read_at. rewrite buffer_bytes_total by done. cbn [mbind outcome_bind].
  pose proof (len_fill b Hok) as Hlen. rewrite Hlen.
  destruct (Nat.eqb_spec (buffer_len b) 1) as [E|E].
  - change (fixed_index (fill b)) with (fixed_index b). rewrite fixed_index_typed by done.
    cbn [mbind outcome_bind]. eexists. split; [done|]. split_and!; [done..|].
    destruct (single_iovec b E) as [v Hv]. pose proof (ok_lengths _ Hok) as Hl. rewrite Hv in Hl.
    destruct (caps b) as [|c [|? ?]] eqn:Hc; try done.
    cbn [u_sqe io_stable_mut_ptr buffer_io_buf_mut]. rewrite (stable_ptr_single b v Hv).
    assert (Hf : iovecs (fill b) = [mkIovec (iov_base v) c]).
    { cbn. by rewrite Hv, Hc. }
    change (registered b) with (registered (fill b)).
    apply (asks_single Read fd offset (fill b) _ (fun idx => match idx with Some _ => _ | None => _ end) Hf).
    by intros [i|].
  - eexists. split; [done|]. split_and!; [done..|].
    cbn [u_sqe io_stable_mut_ptr buffer_io_buf_mut]. rewrite stable_ptr_vectored by done.
    rewrite <- Hlen. apply (asks_vectored Read fd offset (fill b) (fun n => OpReadv _ _ n _)); [by rewrite Hlen|done].
Qed.

(** C17. The kernel is never pointed outside the buffer. A read asks it to
    write within the capacity of the buffer's allocations, a write asks it to
    read within their initialised parts, for plain, registered and vectored
    buffers alike and also when a length does not fit the 32 bits of the
    entry: one allocation is named itself, several by the array of their
    [iovec]s and never more of it than there is, and a registered one by its
    index. When the lengths fit, the whole of it is asked for. Building the
    entry does not panic and the buffer travels with the operation. *)
Theorem read_write_in_bounds (fd : FdRef) (b : Buffer) (offset : N) :
  buffer_ok b -> buffer_typed b ->
  (exists u t, write_at fd b offset = Ret u /\ rw_buf (u_stable_data u) = b /\
     transfer_of (sqe_op (u_sqe u)) b = Some t /\ tr_kind t = Write /\
     tr_index t = (if Nat.eqb (buffer_len b) 1 then registered b else None) /\
     regions_inside (tr_regions t) (iov_base <$> iovecs b) (iov_len <$> iovecs b) /\
     (fits_u32 b -> tr_regions t = ref_of <$> iovecs b)) /\
  (exists u t, read_at fd b offset = Ret u /\ rw_buf (u_stable_data u) = fill b /\
     transfer_of (sqe_op (u_sqe u)) (fill b) = Some t /\ tr_kind t = Read /\
     tr_index t = (if Nat.eqb (buffer_len b) 1 then registered b else None) /\
     regions_inside (tr_regions t) (iov_base <$> iovecs b) (caps b) /\
     (fits_u32 (fill b) -> tr_regions t = zip_with mkRef (iov_base <$> iovecs b) (caps b))).
Proof.
  intros Hok Hty. split.
  - destruct (write_at_asks fd b offset Hok Hty) as (u & E & Hd & _ & _ & t & Ht & Hk & _ & _ & H).
    exists u, t. rewrite Hd. by split_and!; try apply H.
  - destruct (read_at_asks fd b offset Hok Hty) as (u & E & Hd & _ & _ & t & Ht & Hk & _ & _ & Hi & Hr & Ha).
    exists u, t. rewrite len_fill in Hi by done.
    destruct (fill_iovecs_parts (iovecs b) (caps b) (ok_lengths _ Hok)) as (Hb & Hl & _).
    change (iovecs (fill b)) with (fill_iovecs (iovecs b) (caps b)) in *.
    rewrite Hb, Hl in Hr. rewrite Hd. split_and!; [done..|]. intros Hf.
    by rewrite (Ha Hf), ref_of_zip, Hb, Hl.
Qed.

Lemma fill_ok b : buffer_ok b -> buffer_ok (fill b).
Proof.
  intros [Hl Hi Ht]. destruct (fill_iovecs_parts (iovecs b) (caps b) Hl) as (_ & E & Hn).
  split; cbn; [by rewrite Hn| |done]. rewrite E. induction (caps b); constructor; lia || done.
Qed.

(** The operation's answer to completion [c]. *)
Definition finish (u : Unsubmitted) (c : cqe) : outcome (BufResult N Buffer) :=
  transform_oneshot_output (u_post_op u) (u_stable_data u) c.

(** The answers to a read and to a write, by the data they carry. *)
Lemma read_done u fd b c :
  buffer_ok b -> u_stable_data u = mkRwData fd (fill b) -> u_post_op u = mkRwTransform Read ->
  cqe_ok c -> (0 <= cqe_result c)%Z -> Z.to_N (cqe_result c) <= sum_N (caps b) ->
  exists b', finish u c = Ret (Ok (Z.to_N (cqe_result c), b')) /\
    iov_base <$> iovecs b' = iov_base <$> iovecs b /\ caps b' = caps b /\
    iov_len <$> iovecs b' = spread (caps b) (Z.to_N (cqe_result c)) /\
    io_bytes_init b' = Ret (Z.to_N (cqe_result c)).
Proof.
  intros Hok Hd Hp [_ Hc] Hn Hle. unfold finish, transform_oneshot_output, rw_transform.
  rewrite Hd, Hp. cbn [rw_kind rw_buf].
  rewrite (proj2 (Z.ltb_ge _ _)) by done. rewrite usize_of_i32_nonneg by lia.
  destruct (buffer_set_init_parts (fill b) (Z.to_N (cqe_result c)) (fill_ok b Hok))
    as (b' & E & Hok' & Hb & Hs & Hcap).
  rewrite E. cbn [mbind outcome_bind]. exists b'. split; [done|].
  destruct (fill_iovecs_parts (iovecs b) (caps b) (ok_lengths _ Hok)) as (Hf & _ & _).
  change (caps (fill b)) with (caps b) in *.
  change (iovecs (fill b)) with (fill_iovecs (iovecs b) (caps b)) in Hb.
  rewrite (buffer_bytes_init b' Hok'), Hb, Hf, Hs, Hcap, sum_spread.
  split_and!; [done..|]. f_equal. lia.
Qed.
Lemma rw_failed u fd k b c :
  u_stable_data u = mkRwData fd b -> u_post_op u = mkRwTransform k ->
  cqe_ok c -> (cqe_result c < 0)%Z ->
  finish u c = Ret (Err (mkError (OsError (- cqe_result c)) b)).
Proof.
  intros Hd Hp [Hc _] Hn. unfold finish, transform_oneshot_output, rw_transform. rewrite Hd, Hp.
  rewrite (proj2 (Z.ltb_lt _ _)) by done. unfold neg_i32.
  by rewrite (proj2 (Z.eqb_neq _ _)) by lia.
Qed.
Lemma write_done u fd b c :
  u_stable_data u = mkRwData fd b -> u_post_op u = mkRwTransform Write ->
  cqe_ok c -> (0 <= cqe_result c)%Z ->
  finish u c = Ret (Ok (Z.to_N (cqe_result c), b)).
Proof.
  intros Hd Hp [_ Hc] Hn. unfold finish, transform_oneshot_output, rw_transform. rewrite Hd, Hp.
  rewrite (proj2 (Z.ltb_ge _ _)) by done. cbn. by rewrite usize_of_i32_nonneg.
Qed.

(** C21. A completed read reports what was read. When the kernel says it read
    [n] bytes, the caller gets [n] and the same allocations back, with
    exactly the first [n] bytes, counted through the allocations in order,
    marked as initialised, whatever their lengths were before. *)
Theorem read_completed (fd : FdRef) (b : Buffer) (offset : N) u c :
  buffer_ok b -> read_at fd b offset = Ret u -> cqe_ok c -> (0 <= cqe_result c)%Z ->
  Z.to_N (cqe_result c) <= sum_N (caps b) ->
  exists b', finish u c = Ret (Ok (Z.to_N (cqe_result c), b')) /\
    iov_base <$> iovecs b' = iov_base <$> iovecs b /\ caps b' = caps b /\
    iov_len <$> iovecs b' = spread (caps b) (Z.to_N (cqe_result c)) /\
    io_bytes_init b' = Ret (Z.to_N (cqe_result c)).
Proof.
  intros Hok E. unfold read_at in E. rewrite buffer_bytes_total in E by done.
  cbn [mbind outcome_bind] in E. apply bind_Ret in E as (op & _ & E). injection E as <-.
  by apply read_done with (fd := fd).
Qed.

(** A failed read hands out uninitialised memory. When the kernel
    reports an error the buffer comes back with every length raised to the
    capacity, as it was prepared for the kernel: all bytes count as
    initialised, and indexing an allocation with a byte that nobody has
    written is undefined behaviour. *)
Theorem read_failed_exposes (fd : FdRef) (b : Buffer) (offset : N) u c :
  buffer_ok b -> read_at fd b offset = Ret u -> cqe_ok c -> (cqe_result c < 0)%Z ->
  exists b', finish u c = Ret (Err (mkError (OsError (- cqe_result c)) b')) /\
    io_bytes_init b' = Ret (sum_N (caps b)) /\
    forall i v n m, iovecs b !! i = Some v -> caps b !! i = Some n -> 0 < n ->
      m !! iov_base v = Some None ->
      buffer_index i b' m = Undefined "read of an uninitialised byte".
Proof.
  intros Hok E Hc Hn. unfold read_at in E. rewrite buffer_bytes_total in E by done.
  cbn [mbind outcome_bind] in E. apply bind_Ret in E as (op & _ & E). injection E as <-.
  exists (fill b). split; [by apply rw_failed with (fd := fd) (k := Read)|].
  destruct (fill_iovecs_parts (iovecs b) (caps b) (ok_lengths _ Hok)) as (Hb & Hl & _).
  split.
  - pose proof (buffer_bytes_init _ (fill_ok b Hok)) as H. cbn in H |- *. rewrite H. cbn.
    by rewrite Hl.
  - intros i v n m Hv Hcap Hpos Hm. unfold buffer_index, index_vec. cbn.
    assert (Hw : exists w, fill_iovecs (iovecs b) (caps b) !! i = Some w /\
                           iov_base w = iov_base v /\ iov_len w = n).
    { assert (E1 : (iov_base <$> fill_iovecs (iovecs b) (caps b)) !! i = Some (iov_base v))
        by (rewrite Hb, list_lookup_fmap, Hv; done).
      assert (E2 : (iov_len <$> fill_iovecs (iovecs b) (caps b)) !! i = Some n)
        by by rewrite Hl.
      rewrite list_lookup_fmap in E1, E2.
      destruct (fill_iovecs (iovecs b) (caps b) !! i) as [w|]; [|done].
      exists w. cbn in E1, E2. split_and!; congruence. }
    destruct Hw as (w & -> & Hwb & Hwl). cbn.
    destruct (N.to_nat (iov_len w)) as [|k] eqn:Ek; [lia|]. cbn [read_bytes].
    by rewrite Hwb, Hm.
Qed.

(** A write does not touch the buffer: it comes back unchanged, with the
    count the kernel reported or with its error. *)
Theorem write_completed (fd : FdRef) (b : Buffer) (offset : N) u c :
  write_at fd b offset = Ret u -> cqe_ok c ->
  finish u c = Ret (if (0 <=? cqe_result c)%Z then Ok (Z.to_N (cqe_result c), b)
                    else Err (mkError (OsError (- cqe_result c)) b)).
Proof.
  unfold write_at. intros (len & _ & E)%bind_Ret Hc.
  apply bind_Ret in E as (op & _ & E). injection E as <-.
  destruct (Z.leb_spec 0 (cqe_result c)) as [Hn|Hn].
  - by apply write_done with (fd := fd).
  - by apply rw_failed with (fd := fd) (k := Write).
Qed.
End spec.

(** * Concrete runs *)
#[local] Existing Instance debug_profile.

Lemma demo_buffer_typed : buffer_typed demo_buffer.
Proof. done. Qed.

Lemma read_write_in_bounds_witness :
  exists u t, read_at (mkFdRef 3) demo_buffer 0 = Ret u /\
    transfer_of (sqe_op (u_sqe u)) (fill demo_buffer) = Some t /\
    tr_regions t = [mkRef 100 4; mkRef 104 4].
Proof.
  destruct (read_write_in_bounds (mkFdRef 3) demo_buffer 0 demo_buffer_ok demo_buffer_typed)
    as (_ & u & t & E & _ & Et & _ & _ & _ & H).
  exists u, t. split_and!; [exact E|exact Et|]. rewrite H by (split; vm_compute; reflexivity).
  reflexivity.
Defined.

Lemma read_completed_witness :
  exists u b', read_at (mkFdRef 3) demo_buffer 0 = Ret u /\
    finish u (Cqe 0 6 0) = Ret (Ok (6, b')) /\ io_bytes_init b' = Ret 6.
Proof.
  destruct (read_at (mkFdRef 3) demo_buffer 0) as [u|p|w|] eqn:Eu; try discriminate Eu.
  destruct (read_completed (mkFdRef 3) demo_buffer 0 u (Cqe 0 6 0) demo_buffer_ok Eu)
    as (b' & E & _ & _ & _ & H); [by split|by vm_compute|by vm_compute|].
  by exists u, b'.
Defined.

Lemma read_failed_exposes_witness :
  exists u b', read_at (mkFdRef 3) demo_buffer 0 = Ret u /\
    finish u (Cqe 0 (-5) 0) = Ret (Err (mkError (OsError 5) b')) /\
    buffer_index 1 b' demo_mem = Undefined "read of an uninitialised byte".
Proof.
  destruct (read_at (mkFdRef 3) demo_buffer 0) as [u|p|w|] eqn:Eu; try discriminate Eu.
  destruct (read_failed_exposes (mkFdRef 3) demo_buffer 0 u (Cqe 0 (-5) 0) demo_buffer_ok Eu)
    as (b' & E & _ & H); [by split|done|].
  exists u, b'. split; [done|]. split; [exact E|].
  apply (H 1%nat (mkIovec 104 4) 4); vm_compute; reflexivity.
Defined.

Lemma write_completed_witness :
  exists u, write_at (mkFdRef 3) demo_buffer 0 = Ret u /\
    finish u (Cqe 0 6 0) = Ret (Ok (6, demo_buffer)).
Proof.
  eexists. split; [vm_compute; reflexivity|].
  eapply (write_completed (mkFdRef 3) demo_buffer 0 _ (Cqe 0 6 0));
    [vm_compute; reflexivity|by split].
Defined.
