(* ===== verification/Register.v ===== *)
(** Registration of buffers and files with the ring: the methods of
    [src/src/runtime/driver/mod.rs] and [handle.rs], and the functions
    [register] and [unregister] of [src/src/buf/fixed/pool.rs] and
    [registry.rs]. The theorems tie four components together: a buffer that
    comes out of a registered pool leads to an entry that names the table
    slot and the memory the kernel knows. *)
From S2P Require Import Prelude Slab IoUring SlabList Op Driver Handle.
From S2P Require Import Buf Buffer BufSpec FixedBuf FixedBufSpec Types Link SharedFd ReadWrite ReadWriteSpec.

(** [io_uring::Submitter]. *)
Class Registers (ring : Type) : Type := {
  ring_register_buffers : list iovec -> ring -> io_result unit * ring;
  ring_unregister_buffers : ring -> io_result unit * ring;
  ring_register_files : list Z -> ring -> io_result unit * ring;
  ring_unregister_files : ring -> io_result unit * ring;
}.

(** The ring has one table of buffers; a call that fails changes nothing. *)
Class RegistersLaws (ring : Type) `{!Registers ring} : Type := {
  registered : ring -> option (list iovec);
  register_buffers_ok vs r r' :
    ring_register_buffers vs r = (Ok tt, r') -> registered r = None /\ registered r' = Some vs;
  register_buffers_err vs r e r' :
    ring_register_buffers vs r = (Err e, r') -> registered r' = registered r;
  unregister_buffers_ok r r' :
    ring_unregister_buffers r = (Ok tt, r') -> is_Some (registered r) /\ registered r' = None;
  unregister_buffers_err r e r' :
    ring_unregister_buffers r = (Err e, r') -> registered r' = registered r;
}.

Section register.
Context {Prof : Profile} {Ui : UioMaxIov} {Cq : Cqueue} {Er : Errno}.
Context `{!SlabOps slab} `{!Uring ring} `{!Registers ring}.
Implicit Types d : Driver slab ring.
Implicit Types rc : DriverRc (Driver slab ring).
Implicit Types w : World (slab := slab) (ring := ring).

(** * [Driver] *)
Definition register_buffers (buffers : list iovec) d : io_result unit * Driver slab ring :=
  let '(r, u) := ring_register_buffers buffers (uring d) in (r, mkDriver (ops d) u).
Definition unregister_buffers d : io_result unit * Driver slab ring :=
  let '(r, u) := ring_unregister_buffers (uring d) in (r, mkDriver (ops d) u).
Definition register_files (fds : list Z) d : io_result unit * Driver slab ring :=
  let '(r, u) := ring_register_files fds (uring d) in
  match r with Err e => (Err e, mkDriver (ops d) u) | Ok _ => (Ok tt, mkDriver (ops d) u) end.
Definition unregister_files d : io_result unit * Driver slab ring :=
  let '(r, u) := ring_unregister_files (uring d) in
  match r with Err e => (Err e, mkDriver (ops d) u) | Ok _ => (Ok tt, mkDriver (ops d) u) end.

(** * [Handle] *)
Definition h_register_buffers (h : Handle) (buffers : list iovec) rc :=
  with_borrow_mut (fun d => Ret (register_buffers buffers d)) rc.
Definition h_unregister_buffers (h : Handle) rc :=
  with_borrow_mut (fun d => Ret (unregister_buffers d)) rc.
Definition h_register_files (h : Handle) (fds : list Z) rc :=
  with_borrow_mut (fun d => Ret (register_files fds d)) rc.
Definition h_unregister_files (h : Handle) rc :=
  with_borrow_mut (fun d => Ret (unregister_files d)) rc.

(** * [pool.rs] and [registry.rs] *)
Definition no_runtime : string := "Not in a runtime context".

(** The drop of the buffers that a collection owns. *)
Fixpoint drop_buffers (bs : list Buffer) : outcome (list effect) :=
  match bs with
  | [] => Ret []
  | b :: bs => es ← drop_buffer b; es' ← drop_buffers bs; Ret (es ++ es')
  end.

(** [pool::register]; [addr] is where the [Arc] is allocated. On an error of
    the kernel the collection is dropped, its own destructor first. *)
Definition pool_register (addr : N) (bufs : list Buffer) w (sto : Store) :
  outcome (io_result N * World * Store * list effect) :=
  pool_inner ← pool_new bufs;
  h ← unwrap no_runtime (context_handle (w_ctx w));
  '(r, rc) ← h_register_buffers h (p_iovecs pool_inner) (w_rc w);
  let w := mkWorld rc (w_ctx w) in
  match r with
  | Ok _ => Ret (Ok addr, w, mkStore (<[addr := pool_inner]> (st_pools sto)) (st_registries sto), [])
  | Err e =>
      _ ← pool_drop pool_inner;
      es ← drop_buffers (p_buffers pool_inner);
      Ret (Err e, w, sto, es)
  end.

(** [registry::register]. *)
Definition registry_register (addr : N) (bufs : list Buffer) w (sto : Store) :
  outcome (io_result N * World * Store * list effect) :=
  registry_inner ← registry_new bufs;
  h ← unwrap no_runtime (context_handle (w_ctx w));
  '(r, rc) ← h_register_buffers h (r_iovecs registry_inner) (w_rc w);
  let w := mkWorld rc (w_ctx w) in
  match r with
  | Ok _ => Ret (Ok addr, w, mkStore (st_pools sto) (<[addr := registry_inner]> (st_registries sto)), [])
  | Err e =>
      _ ← registry_drop registry_inner;
      es ← drop_buffers (r_buffers registry_inner);
      Ret (Err e, w, sto, es)
  end.

(** [pool::unregister], [registry::unregister]. *)
Definition pool_unregister w : outcome (io_result unit * World) :=
  h ← unwrap no_runtime (context_handle (w_ctx w));
  '(r, rc) ← h_unregister_buffers h (w_rc w);
  Ret (r, mkWorld rc (w_ctx w)).
Definition registry_unregister w : outcome (io_result unit * World) :=
  h ← unwrap no_runtime (context_handle (w_ctx w));
  '(r, rc) ← h_unregister_buffers h (w_rc w);
  Ret (r, mkWorld rc (w_ctx w)).
End register.

(** * A collection is registered whole or not at all *)
Section spec.
Context {Prof : Profile} {Ui : UioMaxIov} {Cq : Cqueue} {Er : Errno}.
Context `{!SlabOps slab} `{!Uring ring} `{!Registers ring} `{!RegistersLaws ring}.
Implicit Types w : World (slab := slab) (ring := ring).

(** What the kernel is told of a buffer: all of its one allocation. *)
Definition whole (b : Buffer) : iovec := mkIovec (buffer_stable_ptr b) (sum_N (caps b)).
Definition one_piece (b : Buffer) : Prop := buffer_ok b /\ buffer_len b = 1%nat.

Lemma measure_whole b :
  one_piece b -> exists n, measure_buffer b = Ret (whole b, n).
Proof.
  intros [Hb Hl]. unfold measure_buffer. rewrite Hl. cbn [Nat.eqb].
  replace (debug_assert true _) with (Ret tt) by (unfold debug_assert; by destruct debug_assertions).
  cbn [mbind outcome_bind]. rewrite buffer_bytes_init, buffer_bytes_total by done.
  by eexists.
Qed.

Lemma pool_entries_whole bufs i heads :
  Forall one_piece bufs ->
  exists ss heads', pool_entries i bufs heads = Ret (whole <$> bufs, ss, heads').
Proof.
  intros H. revert i heads. induction H as [|b bufs Hb _ IH]; intros i heads; [by do 2 eexists|].
  cbn [pool_entries]. destruct (measure_whole b Hb) as [n ->]. cbn [mbind outcome_bind].
  destruct (IH (i + 1) (<[iov_len (whole b) := as_u16 i]> heads)) as (ss & heads' & ->).
  by do 2 eexists.
Qed.

Lemma pool_new_whole bufs :
  Forall one_piece bufs ->
  exists p, pool_new bufs = Ret p /\ p_iovecs p = whole <$> take max_buffers bufs /\
    p_buffers p = take max_buffers bufs /\ all_free (p_states p).
Proof.
  intros H. destruct (pool_entries_whole (take max_buffers bufs) 0 ∅) as (ss & heads & E);
    [by apply Forall_take|].
  assert (En : pool_new bufs = Ret (mkPool (whole <$> take max_buffers bufs) ss heads ∅
                                      (take max_buffers bufs))).
  { unfold pool_new. by rewrite E. }
  eexists. split; [exact En|]. split_and!; [done..|].
  by destruct (pool_new_ok _ _ En) as (fl & _ & Hf).
Qed.

Lemma all_free_drop p : all_free (p_states p) -> pool_drop p = Ret tt.
Proof.
  intros H. unfold pool_drop. replace (forallb _ _) with true; [done|]. symmetry.
  apply forallb_forall. intros x Hx. unfold all_free in H. rewrite Forall_forall in H.
  specialize (H x). rewrite list_elem_of_In in H. by destruct x; [|destruct (H Hx)].
Qed.

(** A thread inside [block_on] whose driver is not borrowed. *)
Definition in_runtime w : Prop :=
  context_handle (w_ctx w) = Some strong_handle /\ borrowed (w_rc w) = false.
Definition ring_of w : ring := uring (value (w_rc w)).

(** C19. Buffers are registered whole or not at all. In a runtime, [register]
    returns for any buffers of one allocation each. On success the kernel's
    table, which was empty, has the first [max_buffers] of them in order,
    each with its full capacity whatever was initialised, and the pool at
    the new address has the same table with every buffer free. On an error,
    which is certain when a table is registered already, the kernel keeps
    its table, no pool comes into being, and the destructor of the pool
    that was built does not panic, so the buffers are freed. Outside a
    runtime it panics. The operations in flight are never touched. *)
Theorem pool_register_whole addr bufs w sto :
  Forall one_piece bufs -> Forall (fun b => exists es, drop_buffer b = Ret es) bufs ->
  (in_runtime w ->
   exists r w' sto' es, pool_register addr bufs w sto = Ret (r, w', sto', es) /\
     in_runtime w' /\ ops (value (w_rc w')) = ops (value (w_rc w)) /\
     match r with
     | Ok a =>
         a = addr /\ es = [] /\ registered (ring_of w) = None /\
         registered (ring_of w') = Some (whole <$> take max_buffers bufs) /\
         exists p, sto' = mkStore (<[addr := p]> (st_pools sto)) (st_registries sto) /\
           p_iovecs p = whole <$> take max_buffers bufs /\ all_free (p_states p)
     | Err _ =>
         sto' = sto /\ registered (ring_of w') = registered (ring_of w) /\
         drop_buffers (take max_buffers bufs) = Ret es
     end) /\
  (context_handle (w_ctx w) = None ->
   pool_register addr bufs w sto = Panic (PUnwrap no_runtime)).
Proof.
  intros Hb Hd. destruct (pool_new_whole bufs Hb) as (p & En & Hio & Hbufs & Hfree).
  unfold pool_register. rewrite En. cbn [mbind outcome_bind]. split; [|by intros ->].
  destruct w as [[n b d] cx]. unfold in_runtime. cbn. intros [Hc ->]. rewrite Hc. cbn.
  unfold h_register_buffers, with_borrow_mut, register_buffers. cbn.
  destruct (ring_register_buffers (p_iovecs p) (uring d)) as [[[]|e] u] eqn:E; cbn.
  - apply register_buffers_ok in E as [E1 E2]. rewrite <- Hio. do 4 eexists. split; [done|].
    split_and!; try done. by exists p.
  - apply register_buffers_err in E. rewrite (all_free_drop p Hfree), Hbufs. cbn.
    assert (Hes : exists es, drop_buffers (take max_buffers bufs) = Ret es).
    { apply (Forall_take _ max_buffers) in Hd. clear -Hd.
      induction Hd as [|x l [es Hx] _ [es' IH]]; [by eexists|]. cbn. rewrite Hx. cbn.
      rewrite IH. cbn. by eexists. }
    destruct Hes as [es Hes]. rewrite Hes. cbn. do 4 eexists. by split_and!.
Qed.

(** * From the pool to the entry *)

Lemma pool_call_iovecs c p held p' held' :
  run_pool_call c p held = Ret (p', held') -> p_iovecs p' = p_iovecs p.
Proof.
  destruct c as [cap|k n]; cbn; intros E.
  - apply bind_Ret in E as ([got p1] & E1 & E). simplify_eq. unfold pool_try_next in E1.
    destruct (p_heads p !! cap); [|by simplify_eq].
    apply bind_Ret in E1 as ([m x|] & _ & E1); [|done]. apply bind_Ret in E1 as (v & _ & E1).
    by simplify_eq.
  - destruct (held !! k); [|by simplify_eq]. apply bind_Ret in E as ([o p1] & E1 & E).
    simplify_eq. unfold pool_check_in in E1. apply bind_Ret in E1 as (v & _ & E1).
    apply bind_Ret in E1 as (x & _ & E1). apply bind_Ret in E1 as (u & _ & E1). by simplify_eq.
Qed.
Lemma pool_calls_ok cs p held p' held' :
  held_ok p held -> run_pool_calls cs p held = Ret (p', held') ->
  held_ok p' held' /\ p_iovecs p' = p_iovecs p.
Proof.
  revert p held. induction cs as [|c cs IH]; intros p held H E; [by simplify_eq/=|].
  cbn in E. apply bind_Ret in E as ([p1 h1] & E1 & E).
  pose proof (run_pool_call_ok c p held H) as H1. rewrite E1 in H1. cbn in H1.
  destruct (IH _ _ H1 E) as [? Hio]. split; [done|].
  rewrite Hio. by eapply pool_call_iovecs.
Qed.

(** An entry for slot [i] of the kernel's table that stays inside it. *)
Definition slot_entry (tbl : list iovec) (i : nat) (o : opcode) : Prop :=
  exists v, tbl !! i = Some v /\
  match o with
  | OpReadFixed _ ptr len idx _ | OpWriteFixed _ ptr len idx _ =>
      idx = N.of_nat i /\ inside (mkRef ptr len) (iov_base v) (iov_len v)
  | _ => False
  end.

(** What [FixedBufPool::try_next] hands out. *)
Lemma pool_buffer_shape a addr cap p fl sto b sto' :
  st_pools sto !! a = Some p -> pool_ok p fl ->
  fixed_pool_try_next a addr cap sto = Ret (Some b, sto') ->
  exists i v n, p_iovecs p !! i = Some v /\ iov_len v = cap /\ N.of_nat i < 65536 /\
    iovecs b = [mkIovec (iov_base v) n] /\ caps b = [cap] /\
    ty b = TyPoolFixedBuf /\ user_data b = UdPool (mkPoolInfo a (N.of_nat i)).
Proof.
  intros Hp Hok E. unfold fixed_pool_try_next in E. rewrite Hp in E. cbn in E.
  pose proof (pool_try_next_spec p fl cap Hok) as Hs.
  destruct (fl cap) as [|i rest] eqn:Hfl; [by rewrite Hs in E|].
  destruct Hs as (v & n & next & p' & Et & Hcap & Hst & _). rewrite Et in E. cbn in E.
  simplify_eq. pose proof (pk_small _ _ Hok). pose proof (lookup_lt_Some _ _ _ Hst).
  destruct (pk_cap _ _ Hok (iov_len v) i) as (v' & Hv' & _); [rewrite Hfl; set_solver|].
  assert (v' = v) as ->.
  { unfold pool_try_next in Et. destruct (p_heads p !! iov_len v); [|done].
    apply bind_Ret in Et as ([m x|] & _ & Et); [|done].
    apply bind_Ret in Et as (w & Hw & Et). simplify_eq. unfold index_vec in Hw.
    destruct (p_iovecs p !! N.to_nat i) eqn:E'; cbn in Hw; by simplify_eq. }
  exists (N.to_nat i), v, n. cbn. rewrite as_u16_small by lia. rewrite N2Nat.id.
  split_and!; try done. lia.
Qed.

Lemma registered_pool a bufs w sto w' sto' es p0 :
  Forall one_piece bufs -> Forall (fun b => exists es, drop_buffer b = Ret es) bufs ->
  in_runtime w -> pool_register a bufs w sto = Ret (Ok a, w', sto', es) ->
  st_pools sto' !! a = Some p0 ->
  registered (ring_of w') = Some (p_iovecs p0) /\ all_free (p_states p0) /\
  (exists fl, pool_ok p0 fl) /\ Forall (fun v => iov_len v <= usize_max) (p_iovecs p0).
Proof.
  intros Hb Hd [Hc Hbor] E Hp0. destruct (pool_new_whole bufs Hb) as (p & En & Hio & _ & Hfree).
  unfold pool_register in E. rewrite En, Hc in E. cbn in E. destruct w as [[n bo d] cx].
  cbn in *. subst bo. unfold h_register_buffers, with_borrow_mut, register_buffers in E. cbn in E.
  destruct (ring_register_buffers (p_iovecs p) (uring d)) as [[[]|e] u] eqn:Er'; cbn in E.
  2:{ apply bind_Ret in E as (x & _ & E). by apply bind_Ret in E as (y & _ & E). }
  simplify_eq. cbn in Hp0. rewrite lookup_insert_eq in Hp0. simplify_eq.
  apply register_buffers_ok in Er' as [_ Hreg]. split; [done|]. split; [done|].
  split; [by destruct (pool_new_ok _ _ En) as (fl & Hok & _); exists fl|].
  rewrite Hio. apply Forall_fmap, Forall_take. eapply Forall_impl; [exact Hb|].
  intros b [Hbo _]. apply (ok_total _ Hbo).
Qed.

(** [b] is the buffer of slot [i] of the table: one piece of memory [v], of
    which the first [n] bytes are initialised, tagged with its index. *)
Record slot_buffer (b : Buffer) (tbl : list iovec) (i : nat) (v : iovec) (n : N) : Prop := {
  sb_slot : tbl !! i = Some v;
  sb_len : iov_len v <= usize_max;
  sb_vecs : iovecs b = [mkIovec (iov_base v) n];
  sb_caps : caps b = [iov_len v];
  sb_index : forall b', ty b' = ty b -> user_data b' = user_data b ->
               fixed_index b' = Ret (Some (N.of_nat i))
}.

Lemma inside_slot (tbl : list iovec) i v n o b :
  slot_buffer b tbl i v n -> o <= iov_len v ->
  buffer_stable_ptr b = iov_base v /\
  inside (mkRef (iov_base v) (as_u32 o)) (iov_base v) (iov_len v).
Proof.
  intros H Ho. unfold buffer_stable_ptr. rewrite (sb_vecs _ _ _ _ _ H). split; [done|].
  unfold inside. cbn. pose proof (as_u32_le o). lia.
Qed.

Lemma slot_bytes_init tbl i v n b :
  slot_buffer b tbl i v n -> n <= iov_len v -> io_bytes_init b = Ret n.
Proof.
  intros H Hn. pose proof (sb_len _ _ _ _ _ H). cbn.
  rewrite (sb_vecs _ _ _ _ _ H), (sum_usize_Ret [n] 0); cbn; [f_equal; lia|lia].
Qed.

Lemma slot_read_at tbl i v n b fd off :
  slot_buffer b tbl i v n ->
  exists u, read_at fd b off = Ret u /\ slot_entry tbl i (sqe_op (u_sqe u)).
Proof.
  intros H. destruct (inside_slot _ _ _ _ _ _ H (N.le_refl _)) as [Hptr Hin].
  pose proof (sb_len _ _ _ _ _ H). unfold read_at.
  assert (io_bytes_total b = Ret (iov_len v)) as ->.
  { cbn. rewrite (sb_caps _ _ _ _ _ H), (sum_usize_Ret [iov_len v] 0); cbn; [f_equal; lia|lia]. }
  cbn [mbind outcome_bind].
  replace (buffer_len (fill b)) with 1%nat
    by (unfold buffer_len, fill; cbn; by rewrite (sb_vecs _ _ _ _ _ H), (sb_caps _ _ _ _ _ H)).
  rewrite (sb_index _ _ _ _ _ H) by done. cbn. eexists. split; [done|].
  exists v. cbn. rewrite Hptr. split_and!; [apply H|done..].
Qed.

Lemma slot_write_at tbl i v n b fd off :
  slot_buffer b tbl i v n -> n <= iov_len v ->
  exists u, write_at fd b off = Ret u /\ slot_entry tbl i (sqe_op (u_sqe u)).
Proof.
  intros H Hn. destruct (inside_slot _ _ _ _ n _ H Hn) as [Hptr Hin].
  unfold write_at. rewrite (slot_bytes_init _ _ _ _ _ H Hn). cbn [mbind outcome_bind].
  replace (buffer_len b) with 1%nat by (unfold buffer_len; by rewrite (sb_vecs _ _ _ _ _ H)).
  rewrite (sb_index _ _ _ _ _ H) by done. cbn. eexists. split; [done|].
  exists v. cbn. rewrite Hptr. split_and!; [apply H|done..].
Qed.

Lemma slot_read_fixed tbl i v n b fd off begin end_ :
  slot_buffer b tbl i v n -> n <= iov_len v ->
  begin <= n -> begin <= end_ -> end_ <= iov_len v ->
  exists s, read_fixed_sqe off (mkReadFixed fd (mkSlice b begin end_)) =
              Ret (s, mkReadFixed fd (mkSlice b begin end_)) /\
    slot_entry tbl i (sqe_op s).
Proof.
  intros H Hn H1 H2 H3. destruct (inside_slot _ _ _ _ n _ H Hn) as [Hptr _].
  unfold read_fixed_sqe.
  change (stable_mut_ptr (rfx_buf (mkReadFixed fd (mkSlice b begin end_))))
    with (bytes ← (m ← io_bytes_init b; Ret (mkRef (buffer_stable_ptr b) m));
          tail_ptr bytes begin).
  rewrite (slot_bytes_init _ _ _ _ _ H Hn). cbn [mbind outcome_bind].
  unfold tail_ptr, subslice. cbn [ref_len ref_ptr].
  rewrite (proj2 (N.ltb_ge _ _)), N.ltb_irrefl by lia. cbn [mbind outcome_bind ref_ptr bytes_total
    slice_bounded sl_end sl_begin]. rewrite sub_usize_Ret by done.
  cbn [mbind outcome_bind get_buf slice_bounded sl_buf].
  rewrite (sb_index _ _ _ _ _ H) by done. cbn. rewrite Hptr. eexists. split; [done|].
  exists v. cbn. split_and!; [apply H|done|].
  unfold inside. cbn. pose proof (as_u32_le (end_ - begin)). lia.
Qed.

(** C12. Fixed I/O stays inside the table the kernel holds. Register a pool, take
    and return buffers of it in any order, then take one more. Reading into
    it, whole or through any view that begins in its initialised part and
    ends in its capacity, submits an entry whose [buf_index] is the slot at
    which the kernel registered this very buffer, and whose memory lies
    inside that slot; so does writing what is initialised. The kernel has
    no reason to refuse any of them. *)
Theorem fixed_io_in_table a bufs w sto w' sto' es p0 cs p held addr cap b sto2 (fd : FdRef) off :
  Forall one_piece bufs -> Forall (fun b => exists es, drop_buffer b = Ret es) bufs ->
  in_runtime w -> pool_register a bufs w sto = Ret (Ok a, w', sto', es) ->
  st_pools sto' !! a = Some p0 -> run_pool_calls cs p0 [] = Ret (p, held) ->
  fixed_pool_try_next a addr cap (mkStore (<[a := p]> (st_pools sto')) (st_registries sto')) =
    Ret (Some b, sto2) ->
  exists tbl i, registered (ring_of w') = Some tbl /\
    (exists u, read_at fd b off = Ret u /\ slot_entry tbl i (sqe_op (u_sqe u))) /\
    (Forall2 N.le (iov_len <$> iovecs b) (caps b) ->
       (exists u, write_at fd b off = Ret u /\ slot_entry tbl i (sqe_op (u_sqe u))) /\
       forall begin end_, begin <= sum_N (iov_len <$> iovecs b) -> begin <= end_ -> end_ <= cap ->
       exists s, read_fixed_sqe off (mkReadFixed fd (mkSlice b begin end_)) = 
                   Ret (s, mkReadFixed fd (mkSlice b begin end_)) /\
         slot_entry tbl i (sqe_op s)).
Proof.
  intros Hb Hd Hw E Hp0 Ecs Et.
  destruct (registered_pool a bufs w sto w' sto' es p0 Hb Hd Hw E Hp0) as (Htbl & Hfree & [fl0 Hok0] & Hmax).
  assert (H0 : held_ok p0 []).
  { split; [by eexists|apply NoDup_nil_2|]. intros i. rewrite elem_of_nil. split; [done|].
    intros Hi. unfold all_free in Hfree. rewrite Forall_lookup in Hfree. by apply Hfree in Hi. }
  destruct (pool_calls_ok cs p0 [] p held H0 Ecs) as [[[fl Hok] _ _] Hio].
  destruct (pool_buffer_shape a addr cap p fl _ b sto2 (lookup_insert_eq _ _ _) Hok Et)
    as (i & v & n & Hv & Hcap & Hi & Hvs & Hcs & Hty & Hud). subst cap.
  rewrite Hio in Hv. assert (H : slot_buffer b (p_iovecs p0) i v n).
  { rewrite Forall_lookup in Hmax. split; try done; [by eapply Hmax|]. intros b' H1 H2.
    unfold fixed_index, buffer_type_id, buffer_user_data. by rewrite H1, H2, Hty, Hud. }
  exists (p_iovecs p0), i. split; [done|]. split; [by eapply slot_read_at|].
  rewrite Hvs, Hcs. intros [Hn _]%Forall2_cons. cbn in Hn. split; [by eapply slot_write_at|].
  intros begin end_ H1 H2 H3. cbn in H1. eapply slot_read_fixed; [done..|lia|done|done].
Qed.
End spec.

(** * A concrete kernel with one table of at most four buffers *)
Module Table.
#[local] Existing Instance debug_profile.

#[export] Instance table_registers : Registers (option (list iovec)) := {
  ring_register_buffers vs r :=
    match r with
    | Some _ => (Err (OsError 16), r)
    | None => if Nat.leb (length vs) 4 then (Ok tt, Some vs) else (Err (OsError 12), r)
    end;
  ring_unregister_buffers r :=
    match r with Some _ => (Ok tt, None) | None => (Err (OsError 6), None) end;
  ring_register_files _ r := (Ok tt, r);
  ring_unregister_files r := (Ok tt, r);
}.
#[export] Instance table_laws : RegistersLaws (option (list iovec)).
Proof.
  refine {| registered := fun r => r |}; intros; cbn in *; repeat case_match; by simplify_eq.
Defined.

Definition world (r : option (list iovec)) : World (slab := gmap N) (ring := option (list iovec)) :=
  mkWorld (mkRc 1 false (mkDriver ops_new r)) (mkContext (Some strong_handle)).
Definition table : list iovec := [mkIovec 100 8; mkIovec 200 4; mkIovec 300 8].

Lemma demo_bufs_one_piece : Forall one_piece demo_bufs.
Proof.
  repeat constructor; cbn; try lia; try done.
  all: vm_compute; try done; try lia.
Qed.
Lemma demo_bufs_drop : Forall (fun b => exists es, drop_buffer b = Ret es) demo_bufs.
Proof. repeat constructor; eexists; vm_compute; reflexivity. Qed.

Lemma pool_register_whole_witness :
  (exists w' sto', pool_register (slab := gmap N) 7 demo_bufs (world None) (mkStore ∅ ∅) =
      Ret (Ok 7, w', sto', []) /\ registered (ring_of w') = Some table) /\
  exists e w', pool_register (slab := gmap N) 7 demo_bufs (world (Some [])) (mkStore ∅ ∅) =
      Ret (Err e, w', mkStore ∅ ∅, []) /\ registered (ring_of w') = Some [].
Proof.
  destruct (pool_register_whole (slab := gmap N) 7 demo_bufs (world None) (mkStore ∅ ∅)
              demo_bufs_one_piece demo_bufs_drop) as [H _].
  destruct (pool_register_whole (slab := gmap N) 7 demo_bufs (world (Some [])) (mkStore ∅ ∅)
              demo_bufs_one_piece demo_bufs_drop) as [H' _].
  split.
  - destruct H as (r & w' & sto' & es & E & _ & _ & H); [split; reflexivity|].
    vm_compute in E. injection E as <- <- <- <-. do 2 eexists.
    split; [vm_compute; reflexivity|exact (proj1 (proj2 (proj2 (proj2 H))))].
  - destruct H' as (r & w' & sto' & es & E & _ & _ & H'); [split; reflexivity|].
    vm_compute in E. injection E as <- <- <- <-. do 2 eexists.
    split; [vm_compute; reflexivity|exact (proj1 (proj2 H'))].
Defined.

(** Both buffers of capacity 8 are taken, the first comes back with five
    bytes and is taken again. *)
Definition pool : Pool := demo_pool.
Definition after : outcome (Pool * list N) :=
  run_pool_calls [CTake 8; CTake 8; CGive 0 5] pool [].

Lemma fixed_io_in_table_witness :
  exists b sto' u i,
    fixed_pool_try_next 7 9100 8
      (mkStore {[7 := fst (match after with Ret x => x | _ => (pool, []) end)]} ∅) =
      Ret (Some b, sto') /\
    read_at (mkFdRef 3) b 0 = Ret u /\ slot_entry table i (sqe_op (u_sqe u)).
Proof.
  assert (E : exists w' , pool_register (slab := gmap N) 7 demo_bufs (world None) (mkStore ∅ ∅) =
      Ret (Ok 7, w', mkStore {[7 := pool]} ∅, []) /\ registered (ring_of w') = Some table).
  { eexists. split; vm_compute; reflexivity. }
  destruct E as (w' & E & Ht).
  assert (Ea : exists p held, after = Ret (p, held)).
  { do 2 eexists. vm_compute. reflexivity. }
  destruct Ea as (p & held & Ea). rewrite Ea. cbn [fst].
  assert (Et : exists b sto', fixed_pool_try_next 7 9100 8 (mkStore {[7 := p]} ∅) = Ret (Some b, sto')).
  { vm_compute in Ea. injection Ea as <- <-. do 2 eexists. vm_compute. reflexivity. }
  destruct Et as (b & sto' & Et).
  destruct (fixed_io_in_table 7 demo_bufs (world None) (mkStore ∅ ∅) w' (mkStore {[7 := pool]} ∅) [] pool
              [CTake 8; CTake 8; CGive 0 5] p held 9100 8 b sto' (mkFdRef 3) 0
              demo_bufs_one_piece demo_bufs_drop)
    as (tbl & i & Htbl & (u & Hu & Hs) & _).
  - split; reflexivity.
  - exact E.
  - vm_compute. reflexivity.
  - exact Ea.
  - exact Et.
  - rewrite Ht in Htbl. injection Htbl as <-. exists b, sto', u, i.
    split; [exact Et|]. split; [exact Hu|exact Hs].
Defined.
End Table.
