(* ===== verification/BufferTyped.v ===== *)
(** Type soundness of the type-erased buffers of [src/src/buf/]. The user
    data behind the raw pointer of a [Buffer] is read back at the type it was
    stored with, by [try_into], by the destructor and by the operations that
    want the index of a registered buffer. *)
From S2P Require Import Prelude Buf Buffer BufSpec FixedBuf Types IoUring Op Handle ReadWrite.

(** The implementations of [BufferImpl] in the crate. *)
Inductive known : forall B, BufferImpl B -> Prop :=
  | known_vec : known VecU8 vec_buffer_impl
  | known_vecs : known (list VecU8) vecs_buffer_impl
  | known_pool : known PoolFixedBuf pool_fixed_buf_impl
  | known_registry : known RegistryFixedBuf registry_fixed_buf_impl.

(** No undefined behaviour, whatever else happens. *)
Definition defined {A} (o : outcome A) : Prop :=
  match o with Undefined _ => False | _ => True end.

Lemma defined_bind {A B} (o : outcome A) (f : A -> outcome B) :
  defined o -> (forall a, o = Ret a -> defined (f a)) -> defined (o ≫= f).
Proof. destruct o; cbn; auto. Qed.
Lemma defined_ret_with {A} (P : A -> Prop) (o : outcome A) : ret_with P o -> defined o.
Proof. by destruct o. Qed.

(** The tag that [TypeId] stands for, and the user data under it. *)
Definition tag_ok (t : TypeId) (u : UserData) : Prop :=
  match t, u with
  | TyVec, UdUnit | TyVecVec, UdUnit | TyPoolFixedBuf, UdPool _
  | TyRegistryFixedBuf, UdRegistry _ => True
  | _, _ => False
  end.
(** The destructor that [Buffer::new] stores for [B]. *)
Definition dtor_of (B : Type) (I : BufferImpl B) ptr len cap u : outcome (list effect) :=
  b ← from_raw_parts (B := B) ptr len cap u; Ret (drop_value b).
Record well_typed (b : Buffer) : Prop := {
  wt_tag : tag_ok (ty b) (user_data b);
  wt_dtor : exists B I, known B I /\ ty b = impl_type_id B /\ dtor b = dtor_of B I;
  wt_lengths : length (iovecs b) = length (caps b);
  wt_single : ty b <> TyVecVec -> length (iovecs b) = 1%nat;
}.

Section typed.
Context {Prof : Profile}.

(** What safe code does to a buffer without giving it away. *)
Inductive buffer_step : Buffer -> Buffer -> Prop :=
  | step_fill b : buffer_step b (fill b)
  | step_set_init b pos b' : io_set_init pos b = Ret b' -> buffer_step b b'.
Inductive buffer_reachable : Buffer -> Prop :=
  | reached_new B (I : BufferImpl B) addr (x : B) b :
      known B I -> buffer_new addr x = Ret b -> buffer_reachable b
  | reached_step b b' : buffer_reachable b -> buffer_step b b' -> buffer_reachable b'.

Lemma vecs_parts_lengths vs :
  let '(ptr, len, cap) := vecs_parts vs in
  length ptr = length vs /\ length len = length vs /\ length cap = length vs.
Proof.
  induction vs as [|v vs IH]; [done|]. cbn. destruct (vecs_parts vs) as [[ptr len] cap].
  destruct IH as (H1 & H2 & H3). cbn. by rewrite H1, H2, H3.
Qed.

Lemma new_well_typed B (I : BufferImpl B) addr (x : B) b :
  known B I -> buffer_new addr x = Ret b -> well_typed b.
Proof.
  intros K E. unfold buffer_new in E. apply bind_Ret in E as ([[[ptr len] cap] u] & E & E').
  simplify_eq.
  assert (Hd : exists B' I', known B' I' /\ impl_type_id B = impl_type_id B' /\
                (fun ptr len cap u => b ← from_raw_parts (B := B) ptr len cap u; Ret (drop_value b)) =
                dtor_of B' I') by (by exists B, I).
  destruct K; cbn in E.
  - injection E as <- <- <- <-. by split.
  - unfold vecs_into_raw_parts in E. pose proof (vecs_parts_lengths x) as Hl.
    destruct (vecs_parts x) as [[p l] c]. destruct Hl as (H1 & H2 & H3). simplify_eq.
    split; cbn; try done. rewrite length_zip_with, H1, H2, H3. lia.
  - apply bind_Ret in E as (info & _ & E). injection E as <- <- <- <-. by split.
  - apply bind_Ret in E as (info & _ & E). injection E as <- <- <- <-. by split.
Qed.

Lemma fill_length vs cs : length (fill_iovecs vs cs) = length vs.
Proof. revert cs. induction vs as [|v vs IH]; intros [|c cs]; cbn; auto. Qed.
Lemma set_init_length vs cs pos vs' :
  set_init_iovecs vs cs pos = Ret vs' -> length vs' = length vs.
Proof.
  revert cs pos vs'. induction vs as [|v vs IH]; intros [|c cs] pos vs' E; try by simplify_eq/=.
  cbn [set_init_iovecs] in E. apply bind_Ret in E as (p & _ & (l & E & E')%bind_Ret).
  simplify_eq/=. by rewrite (IH _ _ _ E).
Qed.
Lemma step_well_typed b b' : buffer_step b b' -> well_typed b -> well_typed b'.
Proof.
  intros [c|c pos c' E] [Ht Hd Hl Hf].
  - split; cbn; try done; by rewrite fill_length.
  - cbn in E. apply bind_Ret in E as (vs & E & E'). injection E' as <-.
    apply set_init_length in E. split; cbn; try done; by rewrite E.
Qed.
Lemma reachable_well_typed b : buffer_reachable b -> well_typed b.
Proof. induction 1; [by eapply new_well_typed|by eapply step_well_typed]. Qed.

(** The conversions at the type that the tag names. *)
Lemma from_raw_parts_typed B (I : BufferImpl B) b :
  known B I -> well_typed b -> ty b = impl_type_id B ->
  exists x, from_raw_parts (B := B) (iov_base <$> iovecs b) (iov_len <$> iovecs b) (caps b)
    (user_data b) = Ret x.
Proof.
  intros K [Ht _ Hl Hf] E. destruct K; cbn in E; rewrite E in Ht; cbn; [|by eexists|..];
    (destruct (iovecs b) as [|v []]; [by rewrite E in Hf; specialize (Hf ltac:(done))| |
       by rewrite E in Hf; specialize (Hf ltac:(done))]);
    destruct (caps b) as [|c []]; try done; destruct (user_data b); try done; by eexists.
Qed.

Lemma fixed_index_sound b :
  well_typed b ->
  exists o, fixed_index b = Ret o /\
    (is_Some o <-> ty b = TyPoolFixedBuf \/ ty b = TyRegistryFixedBuf).
Proof.
  intros [Ht _ _ _]. unfold fixed_index, buffer_type_id, buffer_user_data.
  destruct (ty b), (user_data b); try done; cbn; eexists; (split; [done|]); split; try done;
    try (intros [?|?]; done); try (by intros [? ?]); by auto.
Qed.
Lemma sum_usize_defined l acc : defined (sum_usize l acc).
Proof.
  revert acc. induction l as [|n l IH]; intros acc; [done|]. cbn.
  apply defined_bind; [|intros a _; apply IH]. unfold add_usize. by repeat case_match.
Qed.

Lemma rw_defined fd b off : well_typed b -> defined (read_at fd b off) /\ defined (write_at fd b off).
Proof.
  intros H. pose proof (step_well_typed b _ (step_fill b) H) as Hf. split.
  - unfold read_at. apply defined_bind; [apply sum_usize_defined|]. intros n _.
    apply defined_bind; [|done]. destruct (Nat.eqb _ _); [|done].
    apply defined_bind; [|done]. by destruct (fixed_index_sound _ Hf) as (o & -> & _).
  - unfold write_at. apply defined_bind; [apply sum_usize_defined|]. intros n _.
    apply defined_bind; [|done]. destruct (Nat.eqb _ _); [|done].
    apply defined_bind; [|done]. by destruct (fixed_index_sound _ H) as (o & -> & _).
Qed.

Lemma try_into_typed B (I : BufferImpl B) b :
  known B I -> well_typed b ->
  exists r, try_into B b = Ret r /\
    match r with Ok _ => ty b = impl_type_id B | Err b' => b' = b /\ ty b <> impl_type_id B end.
Proof.
  intros K H. unfold try_into. destruct (decide (ty b <> impl_type_id B)) as [Hne|He].
  - exists (Err b). done.
  - apply dec_stable in He. destruct (from_raw_parts_typed B I b K H He) as [x ->].
    exists (Ok x). done.
Qed.

(** What dropping a buffer gives back to a pool or a registry. *)
Definition gives_back (u : UserData) (e : effect) : Prop :=
  match e with
  | Dealloc _ => u = UdUnit
  | PoolCheckIn p i _ => u = UdPool (mkPoolInfo p i)
  | RegistryCheckIn r i _ => u = UdRegistry (mkRegistryInfo r i)
  end.
Lemma drop_typed b :
  well_typed b -> exists es, drop_buffer b = Ret es /\ Forall (gives_back (user_data b)) es.
Proof.
  intros H. destruct (wt_dtor _ H) as (B & I & K & Et & Ed).
  destruct (from_raw_parts_typed B I b K H Et) as [x Ex]. unfold drop_buffer. rewrite Ed.
  unfold dtor_of. rewrite Ex. cbn. eexists. split; [done|].
  pose proof (wt_tag _ H) as Ht. rewrite Et in Ht. destruct K; cbn in *.
  - constructor; [|done]. by destruct (user_data b).
  - apply Forall_fmap, Forall_true. intros v. by destruct (user_data b).
  - revert Ex. intros (p & _ & (c & _ & (n & _ & (i & Ei & E)%bind_Ret)%bind_Ret)%bind_Ret)%bind_Ret.
    simplify_eq/=. constructor; [|done]. destruct (user_data b); try done. by destruct info; simplify_eq/=.
  - revert Ex. intros (p & _ & (c & _ & (n & _ & (i & Ei & E)%bind_Ret)%bind_Ret)%bind_Ret)%bind_Ret.
    simplify_eq/=. constructor; [|done]. destruct (user_data b); try done. by destruct info; simplify_eq/=.
Qed.

(** C16. Buffers are type sound. Take a buffer made of a vector, of a vector of
    vectors, or handed out by a pool or a registry, and filled or given a new
    length any number of times. Its tag still names the type of its user
    data: dropping it always works, and frees the vectors it was made of, or
    returns exactly its own index to its own collection; a conversion
    succeeds at the type it was made of and gives the buffer back unchanged
    at every other type; an index for the kernel is found if and only if it
    is a registered buffer; and submitting a read or a write of it never
    reads the user data at a wrong type. *)
Theorem buffers_type_sound b :
  buffer_reachable b ->
  (exists es, drop_buffer b = Ret es /\ Forall (gives_back (user_data b)) es) /\
  (forall B (I : BufferImpl B), known B I ->
     exists r, try_into B b = Ret r /\
       match r with Ok _ => ty b = impl_type_id B | Err b' => b' = b /\ ty b <> impl_type_id B end) /\
  (exists o, fixed_index b = Ret o /\
     (is_Some o <-> ty b = TyPoolFixedBuf \/ ty b = TyRegistryFixedBuf)) /\
  (forall fd off, defined (read_at fd b off) /\ defined (write_at fd b off)).
Proof.
  intros H%reachable_well_typed. split_and!.
  - by apply drop_typed.
  - intros B I K. by apply try_into_typed.
  - by apply fixed_index_sound.
  - intros fd off. by apply rw_defined.
Qed.
End typed.

(** A buffer of a pool, filled and cut to three bytes. *)
#[local] Existing Instance debug_profile.
Definition handle : PoolFixedBuf := mkPoolFixedBuf (mkIovec 100 8) 0 (Some (mkPoolInfo 7 2)).
Definition taken : Buffer :=
  match buffer_new 9000 handle with
  | Ret b => b
  | _ => mkBuffer 0 [] [] UdUnit TyVecVec (dtor_of (list VecU8) vecs_buffer_impl)
  end.
Definition cut : Buffer := match io_set_init 3 (fill taken) with Ret b => b | _ => taken end.
Lemma cut_reachable : buffer_reachable cut.
Proof.
  apply (reached_step (fill taken)).
  - apply (reached_step taken); [|apply step_fill].
    apply (reached_new _ pool_fixed_buf_impl 9000 handle); [constructor|reflexivity].
  - apply (step_set_init (fill taken) 3). reflexivity.
Qed.

Lemma buffers_type_sound_witness :
  iovecs cut = [mkIovec 100 3] /\
  (exists es, drop_buffer cut = Ret es /\ Forall (gives_back (UdPool (mkPoolInfo 7 2))) es) /\
  exists o, fixed_index cut = Ret o /\
    (is_Some o <-> ty cut = TyPoolFixedBuf \/ ty cut = TyRegistryFixedBuf).
Proof.
  split; [reflexivity|].
  destruct (buffers_type_sound cut cut_reachable) as (Hd & _ & Hi & _).
  split; [exact Hd|exact Hi].
Defined.
