(* ===== verification/RecvMultishot.v ===== *)
(** [src/src/io/recv_from_multishot.rs]: one operation that receives packets
    into provided buffers until it ends. The kernel writes each packet with
    a header into a buffer that it picked itself; [record] parses it, and the
    packets are handed on in batches.

    The addresses are parsed by [socket2], the buffers belong to the
    application: both are parameters. *)
From S2P Require Import Prelude Slab IoUring SlabList Op Driver DriverSpec System Buf ReadWrite.

(** [libc::msghdr], pointers as addresses. *)
Record MsgHdr : Type := mkMsgHdr {
  msg_name : N;
  msg_namelen_ : N;
  msg_iov : N;
  msg_iovlen : N;
  msg_control : N;
  msg_controllen_ : N;
}.
Definition zeroed_msghdr : MsgHdr := mkMsgHdr 0 0 0 0 0 0.

(** What [socket2] and [libc] contribute: the sizes of the address structures
    and [SockAddr::as_socket] on the bytes that were copied into it. *)
Class SockAddrs : Type := {
  SocketAddr : Type;
  sizeof_sockaddr_in : N;
  sizeof_storage : N;
  as_socket : list byte -> option SocketAddr;
}.

(** [trait BufferProvider]. *)
Class BufferProvider : Type := get_buffer : N -> N -> list byte.

Section recv.
Context {Prof : Profile} {Cq : Cqueue} {Sa : SockAddrs} {Bp : BufferProvider}.

Record RecvFromMultishotResult : Type := mkPacket {
  bytes_received : N;
  source_addr : SocketAddr;
  buffer_id : N;
  payload_offset : N;
  rm_more : bool;
}.
Record RecvFromMultishotBatch : Type := mkBatch {
  packets : list RecvFromMultishotResult;
  batch_unparsed : list N;
  batch_end : option (io_result unit);
}.
Record RecvFromMultishot : Type := mkRecv {
  rm_fd : FdRef;
  buf_group_id : N;
  rm_msghdr : MsgHdr;
  batch : list RecvFromMultishotResult;
  unparsed_buffers : list N;
  batch_size : N;
  msg_namelen : N;
  msg_controllen : N;
}.

(** [recv_from_multishot_with_batch_size]: the data of the operation and the
    entry built from it; [iov], [name] and [hdr] are the addresses of the
    allocations, [namelen] the length that [SockAddr::try_init] leaves. *)
Definition recv_from_multishot_with_batch_size (fd : FdRef) (group size : N)
    (iov name hdr namelen : N) : RecvFromMultishot * (RecvFromMultishot -> sqe) :=
  let controllen := 0 in
  (mkRecv fd group (mkMsgHdr name (as_u32 namelen) iov 1 0 controllen) [] [] size namelen
     controllen,
   fun d => build (OpRecvMsgMulti (fr_fd (rm_fd d)) hdr (buf_group_id d))).
Definition recv_from_multishot (fd : FdRef) (group iov name hdr namelen : N) :
    RecvFromMultishot * (RecvFromMultishot -> sqe) :=
  recv_from_multishot_with_batch_size fd group 32 iov name hdr namelen.

(** [u32::from_le_bytes] of four bytes of the buffer, as [usize]. *)
Definition u32_at (buffer : list byte) (i : nat) : outcome N :=
  b0 ← or_panic (PIndex "index out of bounds") (buffer !! i);
  b1 ← or_panic (PIndex "index out of bounds") (buffer !! (i + 1)%nat);
  b2 ← or_panic (PIndex "index out of bounds") (buffer !! (i + 2)%nat);
  b3 ← or_panic (PIndex "index out of bounds") (buffer !! (i + 3)%nat);
  Ret (Byte.to_N b0 + 256 * Byte.to_N b1 + 65536 * Byte.to_N b2 + 16777216 * Byte.to_N b3).

Definition invalid (msg : string) {A} : io_result A := Err (CustomError InvalidData msg).

(** [parse_recvmsg_out]. *)
Definition parse_recvmsg_out (buffer : list byte) (namelen controllen : N) :
    outcome (io_result (SocketAddr * N * N)) :=
  let len := N.of_nat (length buffer) in
  if len <? 16 then Ret (invalid "Buffer too small for RecvMsgOut header")
  else
    actual_namelen ← u32_at buffer 0;
    _ ← u32_at buffer 4;
    payloadlen ← u32_at buffer 8;
    let header_size := 16 in
    x ← add_usize header_size namelen;
    offset ← add_usize x controllen;
    total_size ← add_usize offset payloadlen;
    if len <? total_size then Ret (invalid "Buffer too small: expected {}, got {}")
    else
      name_end ← add_usize header_size actual_namelen;
      name_data ← (if name_end <=? len
                   then Ret (take (N.to_nat actual_namelen) (drop 16 buffer))
                   else Panic (PIndex "range end index out of range"));
      if sizeof_sockaddr_in <=? actual_namelen then
        storage ← (if actual_namelen <=? sizeof_storage then Ret name_data
                   else Undefined "copy beyond sockaddr_storage");
        match as_socket storage with
        | Some addr => Ret (Ok (addr, offset, payloadlen))
        | None => Ret (invalid "Invalid socket address")
        end
      else Ret (invalid "Name length too small").

Definition with_batch (b : list RecvFromMultishotResult) (u : list N) (d : RecvFromMultishot) :
    RecvFromMultishot :=
  mkRecv (rm_fd d) (buf_group_id d) (rm_msghdr d) b u (batch_size d) (msg_namelen d)
    (msg_controllen d).

(** [RecvFromMultishot::record]. *)
Definition record (n flags : N) (self : RecvFromMultishot) : outcome RecvFromMultishot :=
  match buffer_select flags with
  | None => Ret self
  | Some id =>
      parsed ← parse_recvmsg_out (get_buffer id n) (msg_namelen self) (msg_controllen self);
      match parsed with
      | Ok (addr, offset, payloadlen) =>
          Ret (with_batch (batch self ++ [mkPacket payloadlen addr id offset (more flags)])
                 (unparsed_buffers self) self)
      | Err _ => Ret (with_batch (batch self) (unparsed_buffers self ++ [id]) self)
      end
  end.

(** [RecvFromMultishot::take_batch]. *)
Definition take_batch (end_ : option (io_result unit)) (self : RecvFromMultishot) :
    RecvFromMultishotBatch * RecvFromMultishot :=
  (mkBatch (batch self) (unparsed_buffers self) end_, with_batch [] [] self).

#[export] Instance recv_completable : Completable RecvFromMultishot RecvFromMultishotBatch :=
  fun self c =>
    match result_ c with
    | Ok n => self ← record n (flags c) self; Ret (take_batch (Some (Ok tt)) self).1
    | Err e => Ret (take_batch (Some (Err e)) self).1
    end.
#[export] Instance recv_updateable : Updateable RecvFromMultishot RecvFromMultishotBatch := {
  update := fun self c =>
    match result_ c with
    | Ok n => record n (flags c) self
    | Err _ => Ret self
    end;
  should_yield := fun self =>
    negb (match batch self with [] => true | _ => false end) ||
    negb (match unparsed_buffers self with [] => true | _ => false end);
  yield_result := fun self => Ret (take_batch None self);
}.

(** * What the kernel promises, and what follows *)

(** The buffer of a completion has a header whose lengths are the ones of the
    buffer's layout: the sender's address is inside the buffer and fits an
    address structure. *)
Definition header_ok (namelen controllen : N) (buffer : list byte) : Prop :=
  forall a p, u32_at buffer 0 = Ret a -> u32_at buffer 8 = Ret p ->
    a <= namelen /\ a <= sizeof_storage /\
    16 + namelen + controllen + p <= N.of_nat (length buffer).
Definition well_formed (namelen controllen : N) (c : CqeResult) : Prop :=
  match result_ c, buffer_select (flags c) with
  | Ok n, Some id => header_ok namelen controllen (get_buffer id n)
  | _, _ => True
  end.
Definition layout_of (namelen controllen : N) (d : RecvFromMultishot) : Prop :=
  msg_namelen d = namelen /\ msg_controllen d = controllen.

Lemma u32_at_Ret buffer i :
  (i + 3 < length buffer)%nat -> exists n, u32_at buffer i = Ret n /\ n < 4294967296.
Proof.
  intros H. unfold u32_at.
  destruct (lookup_lt_is_Some_2 buffer i) as [b0 ->]; [lia|].
  destruct (lookup_lt_is_Some_2 buffer (i + 1)) as [b1 ->]; [lia|].
  destruct (lookup_lt_is_Some_2 buffer (i + 2)) as [b2 ->]; [lia|].
  destruct (lookup_lt_is_Some_2 buffer (i + 3)) as [b3 ->]; [lia|].
  cbn. eexists. split; [done|].
  pose proof (Byte.to_N_bounded b0). pose proof (Byte.to_N_bounded b1).
  pose proof (Byte.to_N_bounded b2). pose proof (Byte.to_N_bounded b3). lia.
Qed.

Definition small_layout (namelen controllen : N) : Prop :=
  namelen <= 65536 /\ controllen <= 65536.

(** With a header in order, parsing ends without a panic. *)
Lemma parse_ok buffer namelen controllen :
  small_layout namelen controllen -> header_ok namelen controllen buffer ->
  ret_with (fun _ => True) (parse_recvmsg_out buffer namelen controllen).
Proof.
  intros [Hn Hc] Hh. unfold parse_recvmsg_out.
  destruct (N.ltb_spec (N.of_nat (length buffer)) 16); [done|].
  destruct (u32_at_Ret buffer 0) as (a & Ea & Ha); [lia|].
  destruct (u32_at_Ret buffer 4) as (c & Ec & Hc'); [lia|].
  destruct (u32_at_Ret buffer 8) as (p & Ep & Hp); [lia|].
  destruct (Hh a p Ea Ep) as (H1 & H2 & H3). rewrite Ea, Ec, Ep. cbn [mbind outcome_bind].
  assert (Hbig : usize_max = 18446744073709551615) by done.
  repeat (rewrite add_usize_Ret by lia; cbn [mbind outcome_bind]).
  destruct (N.ltb_spec (N.of_nat (length buffer)) (16 + namelen + controllen + p)); [done|].
  rewrite (proj2 (N.leb_le (16 + a) _)) by lia. cbn [mbind outcome_bind].
  destruct (sizeof_sockaddr_in <=? a); [|done].
  rewrite (proj2 (N.leb_le a _)) by done. cbn. by destruct (as_socket _).
Qed.

Lemma record_ok n fl d namelen controllen :
  small_layout namelen controllen -> layout_of namelen controllen d ->
  (forall id, buffer_select fl = Some id -> header_ok namelen controllen (get_buffer id n)) ->
  ret_with (layout_of namelen controllen) (record n fl d).
Proof.
  intros Hs [H1 H2] Hh. unfold record. destruct (buffer_select fl) as [id|]; [|by split].
  rewrite H1, H2. eapply ret_with_bind; [apply parse_ok; [done|by apply Hh]|].
  intros [[[addr off] len]|e] _; by split.
Qed.

Lemma recv_laws namelen controllen :
  small_layout namelen controllen ->
  ClientLaws RecvFromMultishot RecvFromMultishotBatch (well_formed namelen controllen)
    (fun _ => layout_of namelen controllen).
Proof.
  intros Hs. unfold well_formed. split.
  - intros d [[n|e] fl] Hd Hp _; cbn in *; [|done]. apply record_ok; [done..|].
    intros id E. by rewrite E in Hp.
  - intros d [H1 H2] _. by split.
  - intros d [[n|e] fl] Hd Hp; cbn in *; [|done].
    eapply ret_with_bind; [eapply record_ok; [done..|]|by intros ? _].
    intros id E. by rewrite E in Hp.
Qed.

(** A receiving socket cannot crash the driver. [RecvFromMultishot] meets
    what the driver asks of the operations it drives: as long as the kernel
    writes headers that fit the reserved layout, consuming completions,
    yielding batches and finishing never panic. *)
Theorem recv_client_laws namelen controllen :
  small_layout namelen controllen ->
  ClientLaws RecvFromMultishot RecvFromMultishotBatch (well_formed namelen controllen)
    (fun _ => layout_of namelen controllen).
Proof. apply recv_laws. Qed.

(** ** Buffers *)

(** The provided buffers that an operation, or a batch, still owes the
    application. *)
Definition owed (d : RecvFromMultishot) : list N :=
  (buffer_id <$> batch d) ++ unparsed_buffers d.
Definition given_back (b : RecvFromMultishotBatch) : list N :=
  (buffer_id <$> packets b) ++ batch_unparsed b.
(** The buffer that a completion used. *)
Definition used (c : CqeResult) : list N :=
  match result_ c, buffer_select (flags c) with
  | Ok _, Some id => [id]
  | _, _ => []
  end.

Lemma record_owed n fl d d' :
  record n fl d = Ret d' ->
  owed d' ≡ₚ owed d ++ match buffer_select fl with Some id => [id] | None => [] end.
Proof.
  unfold record, owed. destruct (buffer_select fl) as [id|].
  2:{ intros [= <-]. by rewrite app_nil_r. }
  intros ([[[addr off] len]|e] & _ & E)%bind_Ret; injection E as <-; cbn.
  - rewrite fmap_app. cbn. solve_Permutation.
  - by rewrite app_assoc.
Qed.

(** C28. No provided buffer is lost. Consuming a completion adds exactly the
    buffer it used to what the operation owes; a yield hands over everything
    it owes and keeps nothing; the final completion hands over everything
    it owes and its own buffer. A yield is asked for as soon as something is
    owed. *)
Theorem buffers_conserved (d : RecvFromMultishot) (c : CqeResult) :
  (forall d', update d c = Ret d' -> owed d' ≡ₚ owed d ++ used c) /\
  (forall b d', yield_result d = Ret (b, d') -> given_back b = owed d /\ owed d' = []) /\
  (forall b, complete d c = Ret b -> given_back b ≡ₚ owed d ++ used c) /\
  (should_yield d = true <-> owed d <> []).
Proof.
  split_and!.
  - unfold used. cbn. destruct (result_ c) as [n|e]; intros d' E.
    + by apply record_owed in E.
    + injection E as <-. by rewrite app_nil_r.
  - intros b d' [= <- <-]. done.
  - unfold used, complete, recv_completable. destruct (result_ c) as [n|e]; intros b E.
    + apply bind_Ret in E as (d' & E & E'). injection E' as <-.
      by apply record_owed in E.
    + injection E as <-. by rewrite app_nil_r.
  - unfold owed. cbn. destruct (batch d), (unparsed_buffers d); cbn; naive_solver.
Qed.

(** ** Parsing what the kernel wrote *)
Definition byte_of (n : N) : byte :=
  match Byte.of_N (n mod 256) with Some b => b | None => Byte.x00 end.
Definition le32 (n : N) : list byte :=
  [byte_of n; byte_of (n / 256); byte_of (n / 65536); byte_of (n / 16777216)].

(** A message in a provided buffer: the header, then the address and the
    control data in the space reserved for them, then the payload. *)
Definition message (namelen controllen fl : N) (name payload : list byte) : list byte :=
  (le32 (N.of_nat (length name)) ++ le32 0 ++ le32 (N.of_nat (length payload)) ++ le32 fl) ++
  (name ++ replicate (N.to_nat namelen - length name) Byte.x00) ++
  replicate (N.to_nat controllen) Byte.x00 ++ payload.

Lemma byte_of_to_N n : Byte.to_N (byte_of n) = n mod 256.
Proof.
  unfold byte_of. destruct (Byte.of_N (n mod 256)) as [b|] eqn:E.
  - by apply Byte.to_of_N.
  - apply Byte.of_N_None_iff in E. pose proof (N.mod_lt n 256). lia.
Qed.

Lemma le32_digits n :
  n < 4294967296 ->
  n mod 256 + 256 * (n / 256 mod 256) + 65536 * (n / 65536 mod 256)
    + 16777216 * (n / 16777216 mod 256) = n.
Proof.
  intros Hn.
  assert (E1 : n / 65536 = n / 256 / 256) by (rewrite N.Div0.div_div; done).
  assert (E2 : n / 16777216 = n / 256 / 256 / 256) by (rewrite !N.Div0.div_div; done).
  assert (Hs : n / 16777216 < 256) by (apply N.Div0.div_lt_upper_bound; lia).
  rewrite (N.mod_small (n / 16777216)) by done. rewrite E2, E1.
  pose proof (N.div_mod' n 256). pose proof (N.div_mod' (n / 256) 256).
  pose proof (N.div_mod' (n / 256 / 256) 256). lia.
Qed.

Lemma u32_at_le32 l n r :
  n < 4294967296 -> u32_at (l ++ le32 n ++ r) (length l) = Ret n.
Proof.
  intros Hn. unfold u32_at.
  assert (H : forall k, (l ++ le32 n ++ r) !! (length l + k)%nat = (le32 n ++ r) !! k).
  { intros k. rewrite lookup_app_r by lia. f_equal. lia. }
  rewrite <- (Nat.add_0_r (length l)) at 1. rewrite !H.
  cbn [le32 app lookup list_lookup or_panic mbind outcome_bind]. rewrite !byte_of_to_N.
  by rewrite le32_digits.
Qed.

(** The lengths of the parts of a buffer. *)
Lemma message_length namelen controllen fl name payload :
  (length name <= N.to_nat namelen)%nat ->
  N.of_nat (length (message namelen controllen fl name payload)) =
    16 + namelen + controllen + N.of_nat (length payload).
Proof. intros H. unfold message. rewrite !length_app, !length_replicate. cbn. lia. Qed.

Lemma message_payload namelen controllen fl name payload :
  (length name <= N.to_nat namelen)%nat ->
  drop (N.to_nat (16 + namelen + controllen)) (message namelen controllen fl name payload) =
    payload.
Proof.
  intros H. unfold message. rewrite !app_assoc. apply drop_app_length'.
  rewrite !length_app, !length_replicate. cbn. lia.
Qed.

Lemma message_name namelen controllen fl name payload :
  take (length name) (drop 16 (message namelen controllen fl name payload)) = name.
Proof.
  unfold message. rewrite drop_app_length' by done. rewrite <- app_assoc.
  by apply take_app_length.
Qed.

Lemma message_header namelen controllen fl name payload :
  N.of_nat (length name) < 4294967296 -> N.of_nat (length payload) < 4294967296 ->
  let b := message namelen controllen fl name payload in
  u32_at b 0 = Ret (N.of_nat (length name)) /\ u32_at b 4 = Ret 0 /\
  u32_at b 8 = Ret (N.of_nat (length payload)).
Proof.
  intros Hn Hp b. subst b. unfold message. rewrite <- !app_assoc. split_and!.
  - by apply (u32_at_le32 []).
  - by apply (u32_at_le32 (le32 _) 0).
  - rewrite (app_assoc (le32 (N.of_nat (length name)))). by apply (u32_at_le32 (le32 (N.of_nat (length name)) ++ le32 0)).
Qed.

(** C27. Parsing inverts the kernel's layout. From the buffer the kernel
    writes for a datagram (header, address and control data in their reserved
    space, payload), [parse_recvmsg_out] recovers the sender and the place and
    length of the payload, for every address that fits the reserved space
    and every payload; what is found there is the payload. *)
Theorem parse_message namelen controllen fl name payload addr :
  small_layout namelen controllen ->
  sizeof_sockaddr_in <= N.of_nat (length name) <= N.min namelen sizeof_storage ->
  N.of_nat (length payload) < 4294967296 ->
  as_socket name = Some addr ->
  let b := message namelen controllen fl name payload in
  exists off len,
    parse_recvmsg_out b namelen controllen = Ret (Ok (addr, off, len)) /\
    take (N.to_nat len) (drop (N.to_nat off) b) = payload.
Proof.
  intros [Hs1 Hs2] Hn Hp Ha b.
  assert (Hl : (length name <= N.to_nat namelen)%nat) by lia.
  destruct (message_header namelen controllen fl name payload) as (H0 & H4 & H8); [lia..|].
  pose proof (message_length namelen controllen fl name payload Hl) as HL.
  exists (16 + namelen + controllen), (N.of_nat (length payload)). split.
  - unfold parse_recvmsg_out, b. rewrite H0, H4, H8, HL.
    destruct (N.ltb_spec (16 + namelen + controllen + N.of_nat (length payload)) 16); [lia|].
    assert (Hbig : usize_max = 18446744073709551615) by done.
    cbn [mbind outcome_bind]. repeat (rewrite add_usize_Ret by lia; cbn [mbind outcome_bind]).
    rewrite N.ltb_irrefl, (proj2 (N.leb_le (16 + N.of_nat (length name)) _)) by lia.
    cbn [mbind outcome_bind].
    rewrite (proj2 (N.leb_le sizeof_sockaddr_in _)), (proj2 (N.leb_le _ sizeof_storage)) by lia.
    cbn [mbind outcome_bind]. by rewrite Nat2N.id, message_name, Ha.
  - unfold b. rewrite message_payload, Nat2N.id by done. by rewrite firstn_all.
Qed.

(** A datagram cut short is handed back unparsed: the buffer is returned to
    the application and the datagram is dropped. *)
Lemma parse_truncated namelen controllen b a c p :
  small_layout namelen controllen ->
  u32_at b 0 = Ret a -> u32_at b 4 = Ret c -> u32_at b 8 = Ret p -> p < 4294967296 ->
  16 <= N.of_nat (length b) < 16 + namelen + controllen + p ->
  parse_recvmsg_out b namelen controllen =
    Ret (invalid "Buffer too small: expected {}, got {}").
Proof.
  intros [Hs1 Hs2] H0 H4 H8 Hp Hb. unfold parse_recvmsg_out. rewrite H0, H4, H8.
  destruct (N.ltb_spec (N.of_nat (length b)) 16); [lia|].
  assert (Hbig : usize_max = 18446744073709551615) by done.
  cbn [mbind outcome_bind]. rewrite (add_usize_Ret 16 namelen) by lia. cbn [mbind outcome_bind].
  rewrite (add_usize_Ret _ controllen) by lia. cbn [mbind outcome_bind].
  rewrite (add_usize_Ret _ p) by lia. cbn [mbind outcome_bind].
  destruct (N.ltb_spec (N.of_nat (length b)) (16 + namelen + controllen + p)); [|lia].
  done.
Qed.

(** The parser trusts the length of the address that it finds in the buffer: a
    length beyond the end of the buffer panics, and one beyond the size of an
    address structure copies out of bounds. *)
Theorem parse_trusts_namelen namelen controllen b a c p :
  small_layout namelen controllen ->
  u32_at b 0 = Ret a -> u32_at b 4 = Ret c -> u32_at b 8 = Ret p ->
  a < 4294967296 -> p < 4294967296 ->
  16 + namelen + controllen + p <= N.of_nat (length b) ->
  (N.of_nat (length b) < 16 + a ->
    parse_recvmsg_out b namelen controllen = Panic (PIndex "range end index out of range")) /\
  (16 + a <= N.of_nat (length b) -> sizeof_sockaddr_in <= a -> sizeof_storage < a ->
    parse_recvmsg_out b namelen controllen = Undefined "copy beyond sockaddr_storage").
Proof.
  intros [Hs1 Hs2] H0 H4 H8 Ha Hp Hb. unfold parse_recvmsg_out. rewrite H0, H4, H8.
  destruct (N.ltb_spec (N.of_nat (length b)) 16); [lia|].
  assert (Hbig : usize_max = 18446744073709551615) by done.
  cbn [mbind outcome_bind]. repeat (rewrite add_usize_Ret by lia; cbn [mbind outcome_bind]).
  destruct (N.ltb_spec (N.of_nat (length b)) (16 + namelen + controllen + p)); [lia|].
  split; intros.
  - rewrite (proj2 (N.leb_gt (16 + a) _)) by lia. done.
  - rewrite (proj2 (N.leb_le (16 + a) _)) by lia. cbn [mbind outcome_bind].
    rewrite (proj2 (N.leb_le sizeof_sockaddr_in a)), (proj2 (N.leb_gt a sizeof_storage)) by lia.
    done.
Qed.
End recv.

(** * A socket with IPv4-like addresses *)
Module Socket.
#[export] Instance demo_addrs : SockAddrs := {
  SocketAddr := list byte; sizeof_sockaddr_in := 4; sizeof_storage := 8;
  as_socket := fun b => Some b;
}.
Definition name : list byte := [Byte.x0a; Byte.x00; Byte.x00; Byte.x01].
Definition payload : list byte := [Byte.x68; Byte.x69].
Definition datagram : list byte := message 8 0 0 name payload.
#[export] Instance demo_provider : BufferProvider := fun _ _ => datagram.
#[local] Existing Instance debug_profile.
Definition start : RecvFromMultishot :=
  (recv_from_multishot (mkFdRef 3) 7 100 200 300 8).1.
(** Buffer 5 was selected; more completions follow. *)
Definition packet : CqeResult := mkCqeResult (Ok 26) (N.lor 3 (N.shiftl 5 16)).
Definition forged : list byte := le32 4096 ++ le32 0 ++ le32 0 ++ le32 0 ++ replicate 8 Byte.x00.

Lemma start_layout : layout_of 8 0 start.
Proof. by split. Qed.
Lemma demo_small : small_layout 8 0.
Proof. split; lia. Qed.

Lemma packet_well_formed : well_formed 8 0 packet.
Proof.
  intros a p Ea Ep. vm_compute in Ea, Ep. injection Ea as <-. injection Ep as <-. by vm_compute.
Qed.

Lemma recv_client_laws_witness :
  ret_with (layout_of 8 0) (update start packet).
Proof.
  destruct (@recv_client_laws debug_profile _ _ _ 8 0 demo_small) as [Hu _ _].
  apply (Hu start packet start_layout packet_well_formed). reflexivity.
Defined.

Lemma parse_message_witness :
  exists off len, parse_recvmsg_out datagram 8 0 = Ret (Ok (name : @SocketAddr demo_addrs, off, len)) /\
    take (N.to_nat len) (drop (N.to_nat off) datagram) = payload.
Proof.
  apply (parse_message (Sa := demo_addrs) 8 0 0 name payload name demo_small);
    [by vm_compute|by vm_compute|reflexivity].
Defined.

Lemma parse_trusts_namelen_witness :
  parse_recvmsg_out forged 8 0 = Panic (PIndex "range end index out of range").
Proof.
  apply (parse_trusts_namelen 8 0 forged 4096 0 0 demo_small); by vm_compute.
Defined.
End Socket.
