(* ===== verification/Libc.v ===== *)
(** The constants of [libc] that the modelled code uses, as an interface:
    their values belong to the platform. [LibcLaws] is what fcntl.h and
    stat.h document of them: the access modes are the values of the field
    [O_ACCMODE], every other flag is a non-empty set of bits outside that
    field, and no two flags share a bit. *)
From S2P Require Import Prelude IoUring.

Class Libc : Type := {
  O_RDONLY : Z; O_WRONLY : Z; O_RDWR : Z; O_ACCMODE : Z;
  O_APPEND : Z; O_CREAT : Z; O_TRUNC : Z; O_EXCL : Z; O_CLOEXEC : Z;
  AT_FDCWD : Z; AT_EMPTY_PATH : Z; AT_REMOVEDIR : Z;
  ENOENT : Z; S_IFMT : N; S_IFDIR : N; S_IFREG : N;
}.

(** The flags of [open] that are not access modes. *)
Inductive OpenFlag : Type := FAppend | FCreat | FTrunc | FExcl | FCloexec.
#[export] Instance OpenFlag_eq_dec : EqDecision OpenFlag.
Proof. solve_decision. Defined.

Definition bits_of {Lc : Libc} (f : OpenFlag) : Z :=
  match f with
  | FAppend => O_APPEND | FCreat => O_CREAT | FTrunc => O_TRUNC
  | FExcl => O_EXCL | FCloexec => O_CLOEXEC
  end.

Class LibcLaws {Lc : Libc} : Prop := {
  rdonly_access : Z.land O_RDONLY O_ACCMODE = O_RDONLY;
  wronly_access : Z.land O_WRONLY O_ACCMODE = O_WRONLY;
  rdwr_access : Z.land O_RDWR O_ACCMODE = O_RDWR;
  access_modes_distinct : NoDup [O_RDONLY; O_WRONLY; O_RDWR];
  flag_not_access f : Z.land (bits_of f) O_ACCMODE = 0%Z;
  flag_not_empty f : bits_of f <> 0%Z;
  flags_disjoint f g : f <> g -> Z.land (bits_of f) (bits_of g) = 0%Z;
}.

(** Linux on x86-64. *)
#[export] Instance linux_libc : Libc := {
  O_RDONLY := 0; O_WRONLY := 1; O_RDWR := 2; O_ACCMODE := 3;
  O_APPEND := 1024; O_CREAT := 64; O_TRUNC := 512; O_EXCL := 128; O_CLOEXEC := 524288;
  AT_FDCWD := -100; AT_EMPTY_PATH := 4096; AT_REMOVEDIR := 512;
  ENOENT := 2; S_IFMT := 61440; S_IFDIR := 16384; S_IFREG := 32768;
}.
#[export] Instance linux_libc_laws : LibcLaws.
Proof.
  split; try done.
  - apply NoDup_ListNoDup. repeat constructor; cbn; lia.
  - by intros [].
  - by intros [].
  - by intros [] [].
Qed.
