(* ===== verification/OpenOptions.v ===== *)
(** [src/src/fs/open_options.rs] and [src/src/io/open.rs]: from the options of
    the builder to the flags of [openat]. *)
From S2P Require Import Prelude IoUring Libc.
Abbreviation byte := Byte.byte.

(** [struct OpenOptions]. *)
Record OpenOptions : Type := mkOpenOptions {
  o_read : bool;
  o_write : bool;
  o_append : bool;
  o_truncate : bool;
  o_create : bool;
  o_create_new : bool;
  o_mode : N;
  o_custom_flags : Z;
}.

Section builder.
Implicit Types self : OpenOptions.

(** [OpenOptions::new]; 0o666 is 438. *)
Definition options_new : OpenOptions :=
  mkOpenOptions false false false false false false 438 0.
Definition set_read (b : bool) self : OpenOptions :=
  mkOpenOptions b (o_write self) (o_append self) (o_truncate self) (o_create self)
    (o_create_new self) (o_mode self) (o_custom_flags self).
Definition set_write (b : bool) self : OpenOptions :=
  mkOpenOptions (o_read self) b (o_append self) (o_truncate self) (o_create self)
    (o_create_new self) (o_mode self) (o_custom_flags self).
Definition set_append (b : bool) self : OpenOptions :=
  mkOpenOptions (o_read self) (o_write self) b (o_truncate self) (o_create self)
    (o_create_new self) (o_mode self) (o_custom_flags self).
Definition set_truncate (b : bool) self : OpenOptions :=
  mkOpenOptions (o_read self) (o_write self) (o_append self) b (o_create self)
    (o_create_new self) (o_mode self) (o_custom_flags self).
Definition set_create (b : bool) self : OpenOptions :=
  mkOpenOptions (o_read self) (o_write self) (o_append self) (o_truncate self) b
    (o_create_new self) (o_mode self) (o_custom_flags self).
Definition set_create_new (b : bool) self : OpenOptions :=
  mkOpenOptions (o_read self) (o_write self) (o_append self) (o_truncate self)
    (o_create self) b (o_mode self) (o_custom_flags self).
Definition set_mode (mode : N) self : OpenOptions :=
  mkOpenOptions (o_read self) (o_write self) (o_append self) (o_truncate self)
    (o_create self) (o_create_new self) mode (o_custom_flags self).
Definition set_custom_flags (flags : Z) self : OpenOptions :=
  mkOpenOptions (o_read self) (o_write self) (o_append self) (o_truncate self)
    (o_create self) (o_create_new self) (o_mode self) flags.
End builder.

Section open.
Context {Er : Errno} {Lc : Libc}.
Implicit Types self : OpenOptions.

Definition einval {A} : io_result A := Err (OsError EINVAL).

(** [OpenOptions::access_mode]. *)
Definition access_mode self : io_result Z :=
  match o_read self, o_write self, o_append self with
  | true, false, false => Ok O_RDONLY
  | false, true, false => Ok O_WRONLY
  | true, true, false => Ok O_RDWR
  | false, _, true => Ok (Z.lor O_WRONLY O_APPEND)
  | true, _, true => Ok (Z.lor O_RDWR O_APPEND)
  | false, false, false => einval
  end.

(** [OpenOptions::creation_mode]. *)
Definition creation_mode self : io_result Z :=
  let modes :=
    match o_create self, o_truncate self, o_create_new self with
    | false, false, false => 0%Z
    | true, false, false => O_CREAT
    | false, true, false => O_TRUNC
    | true, true, false => Z.lor O_CREAT O_TRUNC
    | _, _, true => Z.lor O_CREAT O_EXCL
    end in
  match o_write self, o_append self with
  | true, false => Ok modes
  | false, false =>
      if o_truncate self || o_create self || o_create_new self then einval else Ok modes
  | _, true => if o_truncate self && negb (o_create_new self) then einval else Ok modes
  end.

(** The flags of [Op::open]. *)
Definition open_flags (options : OpenOptions) : io_result Z :=
  match access_mode options with
  | Err e => Err e
  | Ok access =>
      match creation_mode options with
      | Err e => Err e
      | Ok creation =>
          Ok (Z.lor (Z.lor (Z.lor O_CLOEXEC access) creation)
                (Z.land (o_custom_flags options) (Z.lnot O_ACCMODE)))
      end
  end.

(** [cstr] of [src/src/io/util.rs]: a path with a zero byte is no C string. *)
Definition cstr (p : list byte) : io_result (list byte) :=
  if bool_decide (Byte.x00 ∈ p)
  then Err (CustomError InvalidInput "data provided contains a nul byte")
  else Ok p.

(** [struct Open] and [Op::open]: the data and the entry built from it. *)
Record Open : Type := mkOpen { op_path : list byte; op_flags : Z }.
Definition open (path : list byte) (options : OpenOptions) : io_result (Open * sqe) :=
  match cstr path with
  | Err e => Err e
  | Ok path =>
      match open_flags options with
      | Err e => Err e
      | Ok flags =>
          Ok (mkOpen path flags, build (OpOpenAt AT_FDCWD path flags (o_mode options)))
      end
  end.

(** [File::open] and [File::create] of [src/src/fs/file.rs]. *)
Definition file_open_options : OpenOptions := set_read true options_new.
Definition file_create_options : OpenOptions :=
  set_truncate true (set_create true (set_write true options_new)).

(** * What the options mean *)

(** The combinations that the documentation rules out: no access mode;
    creating or truncating without write access; truncating a file opened
    for appending, unless the file must be new. *)
Definition invalid_options (o : OpenOptions) : bool :=
  negb (o_read o || o_write o || o_append o)
  || (o_truncate o || o_create o || o_create_new o) && negb (o_write o || o_append o)
  || o_append o && o_truncate o && negb (o_create_new o).

Definition wanted_access (o : OpenOptions) : Z :=
  match o_read o, o_write o || o_append o with
  | true, true => O_RDWR
  | false, true => O_WRONLY
  | _, false => O_RDONLY
  end.
(** [create_new] makes the other two creation options irrelevant. *)
Definition wanted_flag (o : OpenOptions) (f : OpenFlag) : bool :=
  match f with
  | FAppend => o_append o
  | FCreat => o_create o || o_create_new o
  | FTrunc => o_truncate o && negb (o_create_new o)
  | FExcl => o_create_new o
  | FCloexec => true
  end.
Definition only_if (b : bool) (f : Z) : Z := if b then f else 0%Z.

(** The flags are the sum of what was asked for. *)
Lemma open_flags_sum o :
  open_flags o =
    if invalid_options o then einval
    else Ok (Z.lor (Z.lor (wanted_access o)
               (Z.lor (only_if (wanted_flag o FAppend) O_APPEND)
               (Z.lor (only_if (wanted_flag o FCreat) O_CREAT)
               (Z.lor (only_if (wanted_flag o FTrunc) O_TRUNC)
               (Z.lor (only_if (wanted_flag o FExcl) O_EXCL) O_CLOEXEC)))))
             (Z.land (o_custom_flags o) (Z.lnot O_ACCMODE))).
Proof.
  unfold open_flags, access_mode, creation_mode, invalid_options, wanted_access, wanted_flag.
  destruct o as [r w a t c cn m cf]; cbn.
  destruct r, w, a, t, c, cn; cbn; try done;
    f_equal; f_equal; apply Z.bits_inj'; intros i _; rewrite ?Z.lor_spec, ?Z.bits_0;
    repeat match goal with |- context [Z.testbit ?x i] => destruct (Z.testbit x i) end; done.
Qed.

Context {Ll : LibcLaws}.

Lemma land_lnot_access c : Z.land (Z.land c (Z.lnot O_ACCMODE)) O_ACCMODE = 0%Z.
Proof.
  apply Z.bits_inj'. intros i Hi. rewrite !Z.land_spec, Z.lnot_spec, Z.bits_0 by done.
  by destruct (Z.testbit c i), (Z.testbit O_ACCMODE i).
Qed.
Lemma flag_outside_access f c :
  Z.land (Z.land c (Z.lnot O_ACCMODE)) (bits_of f) = Z.land c (bits_of f).
Proof.
  apply Z.bits_inj'. intros i Hi. rewrite !Z.land_spec, Z.lnot_spec by done.
  pose proof (f_equal (fun z => Z.testbit z i) (flag_not_access f)) as H.
  cbv beta in H. rewrite Z.land_spec, Z.bits_0 in H.
  by destruct (Z.testbit c i), (Z.testbit O_ACCMODE i), (Z.testbit (bits_of f) i).
Qed.
Lemma wanted_access_in o : Z.land (wanted_access o) O_ACCMODE = wanted_access o.
Proof.
  unfold wanted_access.
  destruct (o_read o), (o_write o || o_append o);
    auto using rdonly_access, wronly_access, rdwr_access.
Qed.
Lemma only_if_access b f : Z.land (only_if b (bits_of f)) O_ACCMODE = 0%Z.
Proof. destruct b; [apply flag_not_access|done]. Qed.
Lemma access_no_flag o f : Z.land (wanted_access o) (bits_of f) = 0%Z.
Proof.
  rewrite <- wanted_access_in, <- Z.land_assoc, (Z.land_comm O_ACCMODE), flag_not_access.
  apply Z.land_0_r.
Qed.
Lemma only_if_flag b f g :
  Z.land (only_if b (bits_of f)) (bits_of g) = only_if (b && bool_decide (f = g)) (bits_of g).
Proof.
  destruct b; [|done]. cbn. case_bool_decide as E; cbn.
  - subst. apply Z.land_diag.
  - by apply flags_disjoint.
Qed.

(** How the sum answers questions about one field. *)
Lemma flags_decode o c :
  let flags :=
    Z.lor (Z.lor (wanted_access o)
      (Z.lor (only_if (wanted_flag o FAppend) O_APPEND)
      (Z.lor (only_if (wanted_flag o FCreat) O_CREAT)
      (Z.lor (only_if (wanted_flag o FTrunc) O_TRUNC)
      (Z.lor (only_if (wanted_flag o FExcl) O_EXCL) O_CLOEXEC)))))
      (Z.land c (Z.lnot O_ACCMODE)) in
  Z.land flags O_ACCMODE = wanted_access o /\
  forall f, Z.land flags (bits_of f) =
    Z.lor (only_if (wanted_flag o f) (bits_of f)) (Z.land c (bits_of f)).
Proof.
  change O_APPEND with (bits_of FAppend). change O_CREAT with (bits_of FCreat).
  change O_TRUNC with (bits_of FTrunc). change O_EXCL with (bits_of FExcl).
  change O_CLOEXEC with (only_if (wanted_flag o FCloexec) (bits_of FCloexec)).
  split.
  - by rewrite !Z.land_lor_distr_l, land_lnot_access, !only_if_access, wanted_access_in, !Z.lor_0_r.
  - intros f. rewrite !Z.land_lor_distr_l, flag_outside_access, access_no_flag, !only_if_flag.
    f_equal. destruct f; cbn; rewrite ?andb_false_r, ?andb_true_r; cbn;
      by rewrite ?Z.lor_0_r, ?Z.lor_0_l.
Qed.

(** C37. Opening a file asks the kernel for exactly what the builder says. The
    options are refused with [EINVAL] exactly in the documented cases; in
    all others the access mode of the flags is the requested one, whatever
    the custom flags are, and each other flag is set exactly when an option
    (or a custom flag) asks for it. The descriptor is always close-on-exec. *)
Theorem open_flags_spec (o : OpenOptions) :
  if invalid_options o then open_flags o = Err (OsError EINVAL)
  else
    exists flags, open_flags o = Ok flags /\
      Z.land flags O_ACCMODE = wanted_access o /\
      forall f, Z.land flags (bits_of f) =
        Z.lor (only_if (wanted_flag o f) (bits_of f)) (Z.land (o_custom_flags o) (bits_of f)).
Proof.
  rewrite open_flags_sum. destruct (invalid_options o); [done|].
  eexists. split; [done|]. apply flags_decode.
Qed.

(** [create_new] guarantees that the file is new, and overrides: with it the
    entry has both [O_CREAT] and [O_EXCL], and [create] and [truncate] change
    nothing; the path reaches the kernel unchanged and without a zero byte,
    and a path with a zero byte is refused before the options are looked at. *)
Theorem create_new_overrides (o : OpenOptions) (path : list byte) (c t : bool) :
  o_create_new o = true ->
  open path (set_create c (set_truncate t o)) = open path o /\
  ((Byte.x00 ∈ path) ->
     open path o = Err (CustomError InvalidInput "data provided contains a nul byte")) /\
  (forall d s, open path o = Ok (d, s) ->
     Byte.x00 ∉ path /\ exists flags,
       s = build (OpOpenAt AT_FDCWD path flags (o_mode o)) /\
       Z.land flags O_CREAT = O_CREAT /\ Z.land flags O_EXCL = O_EXCL).
Proof.
  intros Hn. unfold open, cstr. split_and!.
  - case_bool_decide; [done|]. rewrite !open_flags_sum.
    unfold invalid_options, wanted_access, wanted_flag. cbn. rewrite Hn. cbn.
    by rewrite !orb_true_r, !andb_false_r.
  - intros H. by rewrite bool_decide_eq_true_2.
  - intros d s. case_bool_decide as E; [done|]. rewrite open_flags_sum.
    destruct (invalid_options o); [done|]. intros [= <- <-]. split; [done|].
    eexists. split; [done|]. destruct (flags_decode o (o_custom_flags o)) as [_ H].
    pose proof (H FCreat) as H1. pose proof (H FExcl) as H2. cbn in H1, H2.
    rewrite Hn, !orb_true_r in H1, H2. cbn in H1, H2 |- *. rewrite Hn, orb_true_r.
    cbn. rewrite H1, H2.
    split; apply Z.bits_inj'; intros i _; rewrite Z.lor_spec, Z.land_spec;
      by destruct (Z.testbit _ i), (Z.testbit _ i).
Qed.
End open.

(** [File::create] on Linux. *)
Example file_create_flags :
  open_flags file_create_options = Ok 524865%Z.
Proof. reflexivity. Qed.

Definition demo_options : OpenOptions := set_create_new true (set_append true options_new).
Lemma create_new_overrides_witness :
  open [Byte.x61] (set_create true (set_truncate true demo_options)) =
    open [Byte.x61] demo_options.
Proof.
  apply (create_new_overrides demo_options [Byte.x61] true true). reflexivity.
Defined.

Lemma open_flags_spec_witness :
  exists flags, open_flags demo_options = Ok flags /\ Z.land flags O_ACCMODE = O_WRONLY /\
    Z.land flags O_EXCL = O_EXCL.
Proof.
  destruct (open_flags_spec demo_options) as (flags & E & Ha & Hf).
  exists flags. split; [exact E|]. split; [exact Ha|]. exact (Hf FExcl).
Defined.
