(* ===== verification/WriteAll.v ===== *)
(** [File::write_fixed_all_at] of [src/src/fs/file.rs] and
    [Socket::write_fixed_all] of [src/src/io/socket.rs]: the loops that write
    a whole registered buffer.

    The loops are asynchronous functions; each round submits one operation and
    waits for it. [answers] is what these waits return, in order; when it is
    used up the function is still pending. The entries that were submitted
    are logged. *)
From S2P Require Import Prelude Buf Buffer BufSpec Types IoUring Op ReadWrite.

(** What [Op::write_fixed_at(..).unwrap().await] meets: the submission fails,
    or the operation completes. *)
Inductive Answer : Type :=
  | NotSubmitted (e : io_error)
  | Answered (c : CqeResult).

Section write_all.
Context {Prof : Profile} (fd : FdRef).

(** [write_fixed_at]/[write_fixed] with one answer. *)
Definition write_fixed_once `{!BoundedBuf V Buffer Bounds} (buf : V) (pos : N) (a : Answer) :
    outcome (sqe * BufResult N V) :=
  '(e, op) ← write_fixed_sqe pos (mkWriteFixed fd buf);
  match a with
  | NotSubmitted _ => Panic (PUnwrap "called `Result::unwrap()` on an `Err` value")
  | Answered c => r ← complete_write_fixed op c; Ret (e, r)
  end.

(** The loop that both functions share; [advance] is what they do with the
    position after [n] bytes. *)
Fixpoint write_all_loop (advance : N -> N -> outcome N) (answers : list Answer)
    (buf : Slice Buffer) (pos : N) (log : list sqe) :
    outcome (Poll (BufResult unit Buffer) * list sqe) :=
  init ← bytes_init buf;
  if init =? 0 then Ret (Ready (Ok (tt, slice_into_inner buf)), log)
  else
    match answers with
    | [] =>
        '(e, _) ← write_fixed_sqe pos (mkWriteFixed fd buf);
        Ret (Pending, log ++ [e])
    | a :: answers =>
        '(e, res) ← write_fixed_once buf pos a;
        match res with
        | Ok (n, s) =>
            if n =? 0 then
              Ret (Ready (Err (mkError (CustomError WriteZero "failed to write whole buffer")
                                 (slice_into_inner s))), log ++ [e])
            else
              pos ← advance pos n;
              buf ← slice (mkRange (Included n) Unbounded) s;
              write_all_loop advance answers buf pos (log ++ [e])
        | Err e' => Ret (Ready (Err (error_map slice_into_inner e')), log ++ [e])
        end
    end.

(** [File::write_fixed_all_at_slice]. *)
Definition write_fixed_all_at_slice (answers : list Answer) (buf : Slice Buffer) (pos : N) :
    outcome (Poll (BufResult unit Buffer) * list sqe) :=
  init ← bytes_init buf;
  match checked_add pos init with
  | None =>
      Ret (Ready (Err (mkError (CustomError InvalidInput "buffer too large for file")
                         (slice_into_inner buf))), [])
  | Some _ => write_all_loop add_usize answers buf pos []
  end.
(** [Socket::write_fixed_all_slice]. *)
Definition write_fixed_all_slice (answers : list Answer) (buf : Slice Buffer) :
    outcome (Poll (BufResult unit Buffer) * list sqe) :=
  write_all_loop (fun pos _ => Ret pos) answers buf 0 [].

(** [.map_buf(|buf| T::from_buf_bounds(buf, orig_bounds))]. *)
Definition restore_bounds `{!BoundedBuf V Buffer Bounds} (orig_bounds : Bounds)
    (r : BufResult unit Buffer) : outcome (BufResult unit V) :=
  match r with
  | Ok (x, buf) => v ← from_buf_bounds buf orig_bounds; Ret (Ok (x, v))
  | Err e => v ← from_buf_bounds (err_buf e) orig_bounds; Ret (Err (mkError (err_io e) v))
  end.
Definition finish_all `{!BoundedBuf V Buffer Bounds} (orig_bounds : Bounds)
    (o : outcome (Poll (BufResult unit Buffer) * list sqe)) :
    outcome (Poll (BufResult unit V) * list sqe) :=
  '(p, log) ← o;
  match p with
  | Ready r => r ← restore_bounds orig_bounds r; Ret (Ready r, log)
  | Pending => Ret (Pending, log)
  end.

(** [File::write_fixed_all_at] and [Socket::write_fixed_all]. *)
Definition write_fixed_all_at `{!BoundedBuf V Buffer Bounds} (answers : list Answer)
    (buf : V) (pos : N) : outcome (Poll (BufResult unit V) * list sqe) :=
  let orig_bounds := bounds buf in
  s ← slice_full buf;
  finish_all orig_bounds (write_fixed_all_at_slice answers s pos).
Definition write_fixed_all `{!BoundedBuf V Buffer Bounds} (answers : list Answer) (buf : V) :
    outcome (Poll (BufResult unit V) * list sqe) :=
  let orig_bounds := bounds buf in
  s ← slice_full buf;
  finish_all orig_bounds (write_fixed_all_slice answers s).

(** * What a whole write is *)

(** A registered buffer with one region, which is [v]; its index is [i]. *)
Definition registered (b : Buffer) (v : iovec) (i : N) : Prop :=
  iovecs b = [v] /\ iov_len v <= usize_max /\ fixed_index b = Ret (Some i).
(** The bytes a view shows the kernel. *)
Definition shown (b : Buffer) (v : iovec) (s : Slice Buffer) : Prop :=
  sl_buf s = b /\ sl_begin s <= sl_end s /\ sl_begin s <= iov_len v.
Definition shown_len (v : iovec) (s : Slice Buffer) : N :=
  N.min (sl_end s) (iov_len v) - sl_begin s.

Definition wrote (n : N) : Answer := Answered (mkCqeResult (Ok n) 0).
(** The kernel writes at least one byte and no more than it was asked to. *)
Fixpoint partial_writes (len : N) (ns : list N) : Prop :=
  match ns with
  | [] => True
  | n :: ns => 0 < n <= as_u32 len /\ partial_writes (len - n) ns
  end.
(** The entries of a write of [len] bytes at [ptr] that proceeds by [ns]:
    each starts where the accepted bytes end, in memory and in the file. *)
Fixpoint entries (i ptr len : N) (pos_of : N -> N) (done : N) (ns : list N) : list sqe :=
  match ns with
  | [] => []
  | n :: ns =>
      build (OpWriteFixed (fr_fd fd) (ptr + done) (as_u32 (len - done)) i (pos_of done))
        :: entries i ptr len pos_of (done + n) ns
  end.

Lemma as_u32_bound n : as_u32 n <= n.
Proof. apply N.Div0.mod_le. Qed.

Lemma partial_sum len ns : partial_writes len ns -> sum_N ns <= len.
Proof.
  revert len. induction ns as [|n ns IH]; intros len H; cbn in *; [lia|].
  destruct H as [Hn H]. specialize (IH _ H). pose proof (as_u32_bound len). lia.
Qed.
Lemma partial_length len ns : partial_writes len ns -> N.of_nat (length ns) <= sum_N ns.
Proof.
  revert len. induction ns as [|n ns IH]; intros len H; cbn [length sum_N foldr] in *; [lia|].
  destruct H as [Hn H]. specialize (IH _ H). cbn in *. lia.
Qed.

Lemma shown_init b v s i :
  registered b v i -> shown b v s -> bytes_init s = Ret (shown_len v s).
Proof.
  intros (Hv & Hl & _) (<- & Hb & Hb'). unfold shown_len. cbn.
  unfold slice_deref, deref. cbn. rewrite Hv. cbn. rewrite add_usize_Ret, N.add_0_l by lia.
  cbn. unfold subslice. cbn.
  destruct (N.ltb_spec (N.min (sl_end s) (iov_len v)) (sl_begin s)); [lia|].
  destruct (N.ltb_spec (iov_len v) (N.min (sl_end s) (iov_len v))); [lia|]. done.
Qed.

Lemma shown_entry b v s i pos :
  registered b v i -> shown b v s ->
  write_fixed_sqe pos (mkWriteFixed fd s) =
    Ret (build (OpWriteFixed (fr_fd fd) (iov_base v + sl_begin s) (as_u32 (shown_len v s)) i pos),
         mkWriteFixed fd s).
Proof.
  intros Hr Hs. pose proof (shown_init b v s i Hr Hs) as Hi.
  destruct Hr as (Hv & Hl & Hx). destruct Hs as (<- & Hb & Hb').
  unfold write_fixed_sqe. cbn [wfx_buf wfx_fd]. rewrite Hi.
  cbn [stable_ptr slice_bounded get_buf]. unfold deref. cbn. rewrite Hv. cbn.
  rewrite add_usize_Ret, N.add_0_l by lia. cbn. unfold tail_ptr, subslice, buffer_stable_ptr. cbn.
  rewrite Hv, N.ltb_irrefl. destruct (N.ltb_spec (iov_len v) (sl_begin s)); [lia|].
  cbn. by rewrite Hx.
Qed.

Definition advanced (s : Slice Buffer) (n : N) : Slice Buffer :=
  mkSlice (sl_buf s) (sl_begin s + n) (sl_end s).
Lemma shown_advance b v s i n :
  registered b v i -> shown b v s -> n <= shown_len v s ->
  slice (mkRange (Included n) Unbounded) s = Ret (advanced s n) /\
  shown b v (advanced s n) /\ shown_len v (advanced s n) = shown_len v s - n.
Proof.
  intros (Hv & Hl & _) (<- & Hb & Hb') Hn. unfold shown_len in *. split_and!.
  - cbn [slice slice_bounded]. unfold slice_slice. cbn [start_bound end_bound].
    rewrite (proj2 (checked_add_Some _ _ (sl_begin s + n))) by lia. cbn.
    rewrite (proj2 (N.leb_le (sl_begin s + n) (sl_end s))) by lia.
    rewrite N.leb_refl, Hv. cbn. rewrite add_usize_Ret, N.add_0_l by lia. cbn.
    by rewrite (proj2 (N.leb_le (sl_begin s + n) (iov_len v))) by lia.
  - unfold shown. cbn. split_and!; [done|lia..].
  - cbn. lia.
Qed.

Lemma advanced_0 s : advanced s 0 = s.
Proof. destruct s as [b x y]. unfold advanced. cbn. by rewrite N.add_0_r. Qed.

(** One round of the loop in which the kernel accepts [n] bytes. *)
Lemma write_all_round advance b v i s n answers pos pos' log :
  registered b v i -> shown b v s -> 0 < n <= as_u32 (shown_len v s) ->
  advance pos n = Ret pos' ->
  write_all_loop advance (wrote n :: answers) s pos log =
  write_all_loop advance answers (advanced s n) pos'
    (log ++ [build (OpWriteFixed (fr_fd fd) (iov_base v + sl_begin s)
               (as_u32 (shown_len v s)) i pos)]).
Proof.
  intros Hr Hs Hn Ha. pose proof (as_u32_bound (shown_len v s)).
  cbn [write_all_loop]. rewrite (shown_init b v s i Hr Hs). cbn [mbind outcome_bind].
  destruct (N.eqb_spec (shown_len v s) 0); [lia|].
  unfold write_fixed_once. rewrite (shown_entry b v s i pos Hr Hs).
  cbn [wrote mbind outcome_bind complete_write_fixed result_ wfx_buf with_buffer].
  destruct (N.eqb_spec n 0); [lia|]. rewrite Ha. cbn [mbind outcome_bind].
  destruct (shown_advance b v s i n Hr Hs) as (-> & _); [lia|]. done.
Qed.

(** The loop after the kernel has accepted [ns]. *)
Lemma write_all_progress advance pos_of b v i s rest :
  registered b v i -> shown b v s ->
  (forall d n, d + n <= shown_len v s -> advance (pos_of d) n = Ret (pos_of (d + n))) ->
  forall ns d log, d <= shown_len v s -> partial_writes (shown_len v s - d) ns ->
  write_all_loop advance ((wrote <$> ns) ++ rest) (advanced s d) (pos_of d) log =
  write_all_loop advance rest (advanced s (d + sum_N ns)) (pos_of (d + sum_N ns))
    (log ++ entries i (iov_base v + sl_begin s) (shown_len v s) pos_of d ns).
Proof.
  intros Hr Hs Ha ns. induction ns as [|n ns IH]; intros d log Hd Hp.
  { cbn. by rewrite N.add_0_r, app_nil_r. }
  destruct (shown_advance b v s i d Hr Hs Hd) as (_ & Hs' & Hl).
  destruct Hp as [Hn Hp]. pose proof (as_u32_bound (shown_len v s - d)).
  cbn [fmap list_fmap app entries sum_N].
  rewrite (write_all_round advance b v i _ n _ _ (pos_of (d + n)));
    [|done..|by rewrite Hl|apply Ha; lia].
  replace (advanced (advanced s d) n) with (advanced s (d + n))
    by (unfold advanced; cbn; f_equal; lia).
  rewrite IH; [|lia|by replace (shown_len v s - (d + n)) with (shown_len v s - d - n) by lia].
  rewrite Hl, <- app_assoc. cbn [advanced sl_begin app].
  by rewrite !N.add_assoc.
Qed.

(** What the loop answers when the bytes that were accepted are [ns]. *)
Definition leftover (v : iovec) (s : Slice Buffer) (ns : list N) : N :=
  shown_len v s - sum_N ns.

Lemma write_all_complete advance pos_of b v i s ns rest :
  registered b v i -> shown b v s ->
  (forall d n, d + n <= shown_len v s -> advance (pos_of d) n = Ret (pos_of (d + n))) ->
  partial_writes (shown_len v s) ns ->
  write_all_loop advance ((wrote <$> ns) ++ rest) s (pos_of 0) [] =
    if leftover v s ns =? 0 then
      Ret (Ready (Ok (tt, b)),
           entries i (iov_base v + sl_begin s) (shown_len v s) pos_of 0 ns)
    else
      write_all_loop advance rest (advanced s (sum_N ns)) (pos_of (sum_N ns))
        (entries i (iov_base v + sl_begin s) (shown_len v s) pos_of 0 ns).
Proof.
  intros Hr Hs Ha Hp. pose proof (partial_sum _ _ Hp).
  rewrite <- (advanced_0 s) at 1.
  rewrite (write_all_progress advance pos_of b v i s rest Hr Hs Ha ns 0 []);
    [|lia|by rewrite N.sub_0_r].
  rewrite N.add_0_l. unfold leftover.
  destruct (N.eqb_spec (shown_len v s - sum_N ns) 0); [|done].
  destruct (shown_advance b v s i (sum_N ns) Hr Hs) as (_ & Hs' & Hl); [done|].
  destruct rest; cbn [write_all_loop]; rewrite (shown_init b v _ i Hr Hs'), Hl;
    cbn [mbind outcome_bind]; (destruct (N.eqb_spec (shown_len v s - sum_N ns) 0); [|lia]);
    by destruct Hs as (<- & _).
Qed.

(** C18. A whole write writes the whole view. However the kernel splits the
    work, as long as it accepts at least one byte at a time and no more than it
    was asked for, [write_fixed_all_at] submits entries that tile the bytes of the view
    in memory and the range from [pos] on in the file, in order and without
    a gap or an overlap; it is done exactly when every byte is accepted, after
    at most as many operations as there are bytes, and hands back the same
    buffer. A range that would pass the end of the file offsets is refused
    before anything is submitted. *)
Theorem write_all_at_spec (b : Buffer) (v : iovec) (i pos : N) (s : Slice Buffer) (ns : list N) :
  registered b v i -> shown b v s -> partial_writes (shown_len v s) ns ->
  if u64_max <? pos + shown_len v s then
    write_fixed_all_at_slice (wrote <$> ns) s pos =
      Ret (Ready (Err (mkError (CustomError InvalidInput "buffer too large for file") b)), [])
  else
    let submitted := entries i (iov_base v + sl_begin s) (shown_len v s) (N.add pos) 0 in
    exists p extra,
      write_fixed_all_at_slice (wrote <$> ns) s pos = Ret (p, submitted ns ++ extra) /\
      N.of_nat (length ns) <= shown_len v s /\
      if leftover v s ns =? 0 then p = Ready (Ok (tt, b)) /\ extra = []
      else p = Pending /\
           extra = [build (OpWriteFixed (fr_fd fd) (iov_base v + sl_begin s + sum_N ns)
                      (as_u32 (leftover v s ns)) i (pos + sum_N ns))].
Proof.
  intros Hr Hs Hp. unfold write_fixed_all_at_slice. rewrite (shown_init b v s i Hr Hs).
  cbn [mbind outcome_bind]. unfold checked_add. change u64_max with usize_max.
  destruct (N.ltb_spec usize_max (pos + shown_len v s)) as [Hx|Hx].
  { destruct (N.leb_spec (pos + shown_len v s) usize_max); [lia|].
    by destruct Hs as (<- & _). }
  rewrite (proj2 (N.leb_le _ _) Hx).
  assert (Ha : forall d n, d + n <= shown_len v s ->
                 add_usize (pos + d) n = Ret (pos + (d + n))).
  { intros d n Hd. rewrite add_usize_Ret by lia. f_equal. lia. }
  pose proof (write_all_complete add_usize (N.add pos) b v i s ns [] Hr Hs Ha Hp) as E.
  rewrite app_nil_r, N.add_0_r in E. rewrite E.
  pose proof (partial_sum _ _ Hp). pose proof (partial_length _ _ Hp).
  destruct (N.eqb_spec (leftover v s ns) 0) as [Hz|Hz].
  - exists (Ready (Ok (tt, b))), []. rewrite app_nil_r. split_and!; [done|lia|done|done].
  - destruct (shown_advance b v s i (sum_N ns) Hr Hs) as (_ & Hs' & Hl); [done|].
    fold (leftover v s ns) in Hl.
    cbn [write_all_loop]. rewrite (shown_init b v _ i Hr Hs'), Hl. cbn [mbind outcome_bind].
    rewrite (proj2 (N.eqb_neq _ _) Hz), (shown_entry b v _ i _ Hr Hs'), Hl. cbn [mbind outcome_bind].
    eexists _, _. split; [done|]. split; [lia|]. split; [done|].
    cbn [advanced sl_begin]. by rewrite N.add_assoc.
Qed.

(** A whole write that fails says so and gives the buffer back. Whatever part
    [ns] the kernel has accepted, a write of no bytes ends the loop with
    [WriteZero], an error of the kernel ends it with that error, both with
    the original buffer under the bounds of the original view; a failed
    submission panics. *)
Theorem write_all_fails (b : Buffer) (v : iovec) (i : N) (s : Slice Buffer) (ns : list N) e fl :
  registered b v i -> shown b v s -> sl_end s <= sum_N (caps b) <= usize_max ->
  partial_writes (shown_len v s) ns -> leftover v s ns <> 0 ->
  (exists log, write_fixed_all ((wrote <$> ns) ++ [wrote 0]) s =
     Ret (Ready (Err (mkError (CustomError WriteZero "failed to write whole buffer") s)), log)) /\
  (exists log, write_fixed_all ((wrote <$> ns) ++ [Answered (mkCqeResult (Err e) fl)]) s =
     Ret (Ready (Err (mkError e s)), log)) /\
  write_fixed_all ((wrote <$> ns) ++ [NotSubmitted e]) s =
    Panic (PUnwrap "called `Result::unwrap()` on an `Err` value").
Proof.
  intros Hr Hs Hc Hp Hz. pose proof (partial_sum _ _ Hp).
  assert (HB : from_buf_bounds b (sl_begin s, sl_end s) = Ret s).
  { destruct Hr as (Hv & Hl & _), Hs as (<- & Hb & Hb').
    cbn. rewrite Hv. cbn. rewrite add_usize_Ret, N.add_0_l by lia. cbn.
    rewrite (proj2 (N.leb_le (sl_begin s) (iov_len v))) by lia. cbn.
    rewrite sum_usize_Ret, N.add_0_l by lia. cbn.
    rewrite (proj2 (N.leb_le (sl_end s) (sum_N _))) by lia. cbn. by destruct s. }
  assert (HE : forall a, write_fixed_all_slice ((wrote <$> ns) ++ [a]) s =
    write_all_loop (fun pos _ => Ret pos) [a] (advanced s (sum_N ns)) 0
      (entries i (iov_base v + sl_begin s) (shown_len v s) (fun _ => 0) 0 ns)).
  { intros a. unfold write_fixed_all_slice.
    rewrite (write_all_complete (fun pos _ => Ret pos) (fun _ => 0) b v i s ns [a] Hr Hs);
      [|done..]. by rewrite (proj2 (N.eqb_neq _ _) Hz). }
  destruct (shown_advance b v s i (sum_N ns) Hr Hs) as (_ & Hs' & Hl); [done|].
  fold (leftover v s ns) in Hl.
  assert (Hb : sl_buf s = b) by (by destruct Hs).
  unfold write_fixed_all. cbn [bounds slice_full slice_bounded mbind outcome_bind].
  rewrite !HE. cbn [write_all_loop].
  rewrite (shown_init b v _ i Hr Hs'), Hl. cbn [mbind outcome_bind].
  rewrite (proj2 (N.eqb_neq _ _) Hz). unfold write_fixed_once.
  rewrite (shown_entry b v _ i _ Hr Hs').
  cbn [mbind outcome_bind complete_write_fixed result_ wfx_buf with_buffer wrote finish_all
    restore_bounds N.eqb error_map err_buf err_io advanced sl_buf same_error slice_into_inner].
  rewrite !Hb. split_and!; [eexists; by rewrite HB..|done].
Qed.
End write_all.

(** * A registered buffer of eight bytes, six of them initialised *)
#[local] Existing Instance debug_profile.
Definition fixed_iovec : iovec := mkIovec 100 6.
Definition fixed_buffer : Buffer :=
  mkBuffer 7000 [fixed_iovec] [8] (UdRegistry (mkRegistryInfo 900 2)) TyRegistryFixedBuf
    (fun _ _ _ _ => Ret []).
Definition fixed_slice : Slice Buffer := mkSlice fixed_buffer 1 8.
Lemma fixed_registered : registered fixed_buffer fixed_iovec 2.
Proof. by split_and!. Qed.
Lemma fixed_shown : shown fixed_buffer fixed_iovec fixed_slice.
Proof. by split_and!. Qed.
Lemma fixed_writes : partial_writes (shown_len fixed_iovec fixed_slice) [3; 2].
Proof. by vm_compute. Qed.
Lemma fixed_writes_part : partial_writes (shown_len fixed_iovec fixed_slice) [3].
Proof. by vm_compute. Qed.

Lemma write_all_at_spec_witness :
  write_fixed_all_at_slice (mkFdRef 3) [wrote 3; wrote 2] fixed_slice 40 =
    Ret (Ready (Ok (tt, fixed_buffer)),
         [build (OpWriteFixed 3 101 5 2 40); build (OpWriteFixed 3 104 2 2 43)]).
Proof.
  destruct (write_all_at_spec (mkFdRef 3) fixed_buffer fixed_iovec 2 40 fixed_slice [3; 2]
              fixed_registered fixed_shown fixed_writes) as (p & extra & E & _ & H).
  vm_compute in H. destruct H as [-> ->]. exact E.
Defined.

Lemma write_all_fails_witness :
  exists log, write_fixed_all (mkFdRef 3) [wrote 3; wrote 0] fixed_slice =
    Ret (Ready (Err (mkError (CustomError WriteZero "failed to write whole buffer") fixed_slice)),
         log).
Proof.
  refine (proj1 (write_all_fails (mkFdRef 3) fixed_buffer fixed_iovec 2 fixed_slice [3] (OsError 5)
            0 fixed_registered fixed_shown _ fixed_writes_part _)).
  - split; discriminate.
  - discriminate.
Defined.
