(* ===== verification/Compat.v ===== *)
(** [src/src/compat.rs]: the mask bits and the structure of [statx]. The
    kernel fills the structure through a raw pointer, so the layout that
    [repr(C)] gives to its fields has to be the one of the kernel.

    A field of the Rust value is what stands at the offset that [repr(C)]
    computes from the declaration; [statx_bytes] is what the kernel writes. *)
From S2P Require Import Prelude.

Definition STATX_TYPE : N := 0x1.
Definition STATX_MODE : N := 0x2.
Definition STATX_BASIC_STATS : N := 0x7ff.
Definition STATX_ALL : N := 0xfff.

(** * Types with [repr(C)]

    An integer is aligned to its size. The fields of a structure are placed
    in order, each at the next multiple of its alignment; the size is rounded
    up to the largest alignment. *)
Inductive ctype : Type :=
  | CInt (bytes : N)
  | CArray (t : ctype) (n : N)
  | CStruct (fields : list (string * ctype)).

Definition round_up (n a : N) : N := (n + a - 1) / a * a.

Fixpoint align (t : ctype) : N :=
  match t with
  | CInt n => n
  | CArray t _ => align t
  | CStruct fields => foldr (fun f m => N.max (align f.2) m) 1 fields
  end.
Fixpoint size_of (t : ctype) : N :=
  match t with
  | CInt n => n
  | CArray t n => size_of t * n
  | CStruct fields =>
      round_up (fold_left (fun off f => round_up off (align f.2) + size_of f.2) fields 0)
        (align t)
  end.

(** The fields of a structure with their offsets. *)
Fixpoint place (off : N) (fields : list (string * ctype)) : list (string * N * ctype) :=
  match fields with
  | [] => []
  | (name, t) :: fields =>
      let off := round_up off (align t) in (name, off, t) :: place (off + size_of t) fields
  end.
Definition field_at (t : ctype) (name : string) : option (N * ctype) :=
  match t with
  | CStruct fields =>
      '(_, off, u) ← list_find (fun f => f.1.1 = name) (place 0 fields) ≫= (fun p => Some p.2);
      Some (off, u)
  | _ => None
  end.

Definition u16_ : ctype := CInt 2.
Definition u32_ : ctype := CInt 4.
Definition u64_ : ctype := CInt 8.

Definition statx_timestamp_type : ctype := CStruct
  [("tv_sec", CInt 8); ("tv_nsec", u32_); ("__reserved", CInt 4)].
Definition statx_type : ctype := CStruct
  [("stx_mask", u32_); ("stx_blksize", u32_); ("stx_attributes", u64_); ("stx_nlink", u32_);
   ("stx_uid", u32_); ("stx_gid", u32_); ("stx_mode", u16_); ("__spare0", CArray u16_ 1);
   ("stx_ino", u64_); ("stx_size", u64_); ("stx_blocks", u64_); ("stx_attributes_mask", u64_);
   ("stx_atime", statx_timestamp_type); ("stx_btime", statx_timestamp_type);
   ("stx_ctime", statx_timestamp_type); ("stx_mtime", statx_timestamp_type);
   ("stx_rdev_major", u32_); ("stx_rdev_minor", u32_); ("stx_dev_major", u32_);
   ("stx_dev_minor", u32_); ("stx_mnt_id", u64_); ("stx_dio_mem_align", u32_);
   ("stx_dio_offset_align", u32_); ("__spare3", CArray u64_ 12)].

(** * Values *)
Record statx_timestamp : Type := mkTimestamp { tv_sec : Z; tv_nsec : N; ts_reserved : Z }.
Record statx_buf : Type := mkStatx {
  stx_mask : N; stx_blksize : N; stx_attributes : N; stx_nlink : N; stx_uid : N; stx_gid : N;
  stx_mode : N; stx_ino : N; stx_size : N; stx_blocks : N; stx_attributes_mask : N;
  stx_atime : statx_timestamp; stx_btime : statx_timestamp;
  stx_ctime : statx_timestamp; stx_mtime : statx_timestamp;
  stx_rdev_major : N; stx_rdev_minor : N; stx_dev_major : N; stx_dev_minor : N;
  stx_mnt_id : N; stx_dio_mem_align : N; stx_dio_offset_align : N;
}.

(** Little-endian integers of [w] bytes. *)
Fixpoint le_bytes (w : nat) (n : N) : list Byte.byte :=
  match w with
  | O => []
  | S w => default Byte.x00 (Byte.of_N (n mod 256)) :: le_bytes w (n / 256)
  end.
Fixpoint le_value (l : list Byte.byte) : N :=
  match l with [] => 0 | b :: l => Byte.to_N b + 256 * le_value l end.
Definition to_signed (w : nat) (n : N) : Z :=
  if n <? 2 ^ (8 * N.of_nat w - 1) then Z.of_N n else (Z.of_N n - 2 ^ (8 * Z.of_nat w))%Z.
Definition of_signed (w : nat) (z : Z) : N := Z.to_N (z mod 2 ^ (8 * Z.of_nat w)).

(** Reading a field of type [t] of a structure in memory. *)
Definition field_bytes (t : ctype) (name : string) (m : list Byte.byte) : list Byte.byte :=
  match field_at t name with
  | Some (off, u) => take (N.to_nat (size_of u)) (drop (N.to_nat off) m)
  | None => []
  end.
Definition timestamp_of_bytes (m : list Byte.byte) : statx_timestamp :=
  let u name := le_value (field_bytes statx_timestamp_type name m) in
  mkTimestamp (to_signed 8 (u "tv_sec")) (u "tv_nsec") (to_signed 4 (u "__reserved")).
Definition statx_of_bytes (m : list Byte.byte) : statx_buf :=
  let u name := le_value (field_bytes statx_type name m) in
  let time name := timestamp_of_bytes (field_bytes statx_type name m) in
  mkStatx (u "stx_mask") (u "stx_blksize") (u "stx_attributes") (u "stx_nlink") (u "stx_uid")
    (u "stx_gid") (u "stx_mode") (u "stx_ino") (u "stx_size") (u "stx_blocks")
    (u "stx_attributes_mask") (time "stx_atime") (time "stx_btime") (time "stx_ctime")
    (time "stx_mtime") (u "stx_rdev_major") (u "stx_rdev_minor") (u "stx_dev_major")
    (u "stx_dev_minor") (u "stx_mnt_id") (u "stx_dio_mem_align") (u "stx_dio_offset_align").

(** [mem::zeroed()]. *)
Definition zeroed_statx : statx_buf := statx_of_bytes (replicate 256 Byte.x00).

(** * What the kernel writes

    linux/stat.h documents the bytes of [struct statx] up to 0x100. *)
Definition timestamp_words (t : statx_timestamp) : list (nat * N) :=
  [(8%nat, of_signed 8 (tv_sec t)); (4%nat, tv_nsec t); (4%nat, of_signed 4 (ts_reserved t))].
Definition statx_words (s : statx_buf) : list (nat * N) :=
  [ (* 0x00 *) (4%nat, stx_mask s); (4%nat, stx_blksize s); (8%nat, stx_attributes s);
    (* 0x10 *) (4%nat, stx_nlink s); (4%nat, stx_uid s); (4%nat, stx_gid s); (2%nat, stx_mode s);
               (2%nat, 0);
    (* 0x20 *) (8%nat, stx_ino s); (8%nat, stx_size s); (8%nat, stx_blocks s);
               (8%nat, stx_attributes_mask s)] ++
  (* 0x40 *) timestamp_words (stx_atime s) ++ timestamp_words (stx_btime s) ++
             timestamp_words (stx_ctime s) ++ timestamp_words (stx_mtime s) ++
  [ (* 0x80 *) (4%nat, stx_rdev_major s); (4%nat, stx_rdev_minor s); (4%nat, stx_dev_major s);
               (4%nat, stx_dev_minor s);
    (* 0x90 *) (8%nat, stx_mnt_id s); (4%nat, stx_dio_mem_align s); (4%nat, stx_dio_offset_align s)]
  ++ (* 0xa0 *) replicate 12 (8%nat, 0).
Definition words_bytes (ws : list (nat * N)) : list Byte.byte := ws ≫= (fun w => le_bytes w.1 w.2).
Definition statx_bytes (s : statx_buf) : list Byte.byte := words_bytes (statx_words s).

(** The values fit their fields. *)
Definition timestamp_fits (t : statx_timestamp) : Prop :=
  (- 2 ^ 63 <= tv_sec t < 2 ^ 63)%Z /\ tv_nsec t < 2 ^ 32 /\ (- 2 ^ 31 <= ts_reserved t < 2 ^ 31)%Z.
Definition statx_fits (s : statx_buf) : Prop :=
  Forall timestamp_fits [stx_atime s; stx_btime s; stx_ctime s; stx_mtime s] /\
  Forall (fun w => w.2 < 2 ^ (8 * N.of_nat w.1)) (statx_words s).

(** * The layout is the kernel's *)
Lemma le_bytes_length w n : length (le_bytes w n) = w.
Proof. revert n. induction w as [|w IH]; intros n; cbn; [done|]. by rewrite IH. Qed.

Lemma low_byte n : Byte.to_N (default Byte.x00 (Byte.of_N (n mod 256))) = n mod 256.
Proof.
  destruct (Byte.of_N (n mod 256)) as [b|] eqn:E; cbn; [by apply Byte.to_of_N|].
  apply Byte.of_N_None_iff in E. pose proof (N.mod_lt n 256). lia.
Qed.

Lemma le_value_bytes w n : n < 2 ^ (8 * N.of_nat w) -> le_value (le_bytes w n) = n.
Proof.
  revert n. induction w as [|w IH]; intros n Hn; cbn [le_bytes le_value].
  { cbn in Hn. lia. }
  rewrite low_byte, IH.
  - pose proof (N.div_mod' n 256). lia.
  - apply N.Div0.div_lt_upper_bound. change 256 with (2 ^ 8). rewrite <- N.pow_add_r.
    by replace (8 + 8 * N.of_nat w) with (8 * N.of_nat (S w)) by lia.
Qed.

Lemma signed_bytes w z :
  (0 < w)%nat -> (- 2 ^ (8 * Z.of_nat w - 1) <= z < 2 ^ (8 * Z.of_nat w - 1))%Z ->
  to_signed w (of_signed w z) = z.
Proof.
  intros Hw Hz. unfold to_signed, of_signed. set (h := (2 ^ (8 * Z.of_nat w - 1))%Z) in *.
  assert (E : (2 ^ (8 * Z.of_nat w) = 2 * h)%Z).
  { unfold h. rewrite <- Z.pow_succ_r by lia. f_equal. lia. }
  assert (Eh : 2 ^ (8 * N.of_nat w - 1) = Z.to_N h).
  { apply N2Z.inj. rewrite N2Z.inj_pow, Z2N.id by (unfold h; lia). unfold h. f_equal. lia. }
  rewrite E, Eh. assert (0 < h)%Z by (unfold h; lia).
  pose proof (Z.mod_pos_bound z (2 * h)). destruct (decide (0 <= z)%Z).
  - rewrite Z.mod_small by lia. destruct (N.ltb_spec (Z.to_N z) (Z.to_N h)); lia.
  - replace (z mod (2 * h))%Z with (z + 2 * h)%Z.
    + destruct (N.ltb_spec (Z.to_N (z + 2 * h)) (Z.to_N h)); lia.
    + rewrite <- (Z.mod_add z 1 (2 * h)) by lia. symmetry. rewrite Z.mod_small; lia.
Qed.

Lemma words_bytes_length ws : length (words_bytes ws) = sum_list ws.*1.
Proof.
  induction ws as [|[w n] ws IH]; cbn; [done|]. rewrite length_app, le_bytes_length. cbn. by f_equal.
Qed.
Lemma words_bytes_app ws ws' : words_bytes (ws ++ ws') = words_bytes ws ++ words_bytes ws'.
Proof. apply bind_app. Qed.

Lemma words_bytes_split k ws : words_bytes ws = words_bytes (take k ws) ++ words_bytes (drop k ws).
Proof. by rewrite <- words_bytes_app, take_drop. Qed.

(** A field that starts behind [k] words and has [j] of them. *)
Lemma field_words t name off u k j ws :
  field_at t name = Some (off, u) -> N.to_nat off = sum_list (take k ws).*1 ->
  N.to_nat (size_of u) = sum_list (take j (drop k ws)).*1 ->
  field_bytes t name (words_bytes ws) = words_bytes (take j (drop k ws)).
Proof.
  intros Hf Ho Hs. unfold field_bytes. rewrite Hf, Ho, Hs.
  rewrite (words_bytes_split k ws), <- (words_bytes_length (take k ws)), drop_app_length.
  rewrite (words_bytes_split j (drop k ws)), <- words_bytes_length. apply take_app_length.
Qed.

Lemma field_word t name off u k w n ws :
  field_at t name = Some (off, u) -> N.to_nat off = sum_list (take k ws).*1 ->
  N.to_nat (size_of u) = w -> ws !! k = Some (w, n) -> n < 2 ^ (8 * N.of_nat w) ->
  le_value (field_bytes t name (words_bytes ws)) = n.
Proof.
  intros Hf Ho Hs Hk Hn. assert (E : take 1 (drop k ws) = [(w, n)]) by by erewrite drop_S.
  rewrite (field_words t name off u k 1 ws Hf Ho) by (rewrite E; cbn; lia).
  rewrite E. cbn. rewrite app_nil_r. by apply le_value_bytes.
Qed.

Lemma timestamp_round_trip t :
  timestamp_fits t -> timestamp_of_bytes (words_bytes (timestamp_words t)) = t.
Proof.
  intros (Hs & Hn & Hr). unfold timestamp_of_bytes.
  rewrite (field_word _ "tv_sec" 0 (CInt 8) 0 8 (of_signed 8 (tv_sec t))),
    (field_word _ "tv_nsec" 8 u32_ 1 4 (tv_nsec t)),
    (field_word _ "__reserved" 12 (CInt 4) 2 4 (of_signed 4 (ts_reserved t)));
    try reflexivity; try done; [|unfold of_signed..].
  - rewrite !signed_bytes by (cbn; lia). by destruct t.
  - pose proof (Z.mod_pos_bound (ts_reserved t) (2 ^ (8 * Z.of_nat 4))). cbn in *. lia.
  - pose proof (Z.mod_pos_bound (tv_sec t) (2 ^ (8 * Z.of_nat 8))). cbn in *. lia.
Qed.

Lemma statx_field s name off u k w n :
  statx_fits s -> field_at statx_type name = Some (off, u) ->
  N.to_nat off = sum_list (take k (statx_words s)).*1 -> N.to_nat (size_of u) = w ->
  statx_words s !! k = Some (w, n) ->
  le_value (field_bytes statx_type name (statx_bytes s)) = n.
Proof.
  intros [_ Hf] Ha Ho Hs Hk. apply (field_word statx_type name off u k w n); try done.
  by apply (Forall_lookup_1 _ _ _ _ Hf Hk).
Qed.
Lemma statx_time s name off u k t :
  timestamp_fits t -> field_at statx_type name = Some (off, u) ->
  N.to_nat off = sum_list (take k (statx_words s)).*1 -> N.to_nat (size_of u) = 16%nat ->
  take 3 (drop k (statx_words s)) = timestamp_words t ->
  timestamp_of_bytes (field_bytes statx_type name (statx_bytes s)) = t.
Proof.
  intros Hf Ha Ho Hs Hk. unfold statx_bytes.
  rewrite (field_words statx_type name off u k 3) by (try done; by rewrite Hk, Hs).
  rewrite Hk. by apply timestamp_round_trip.
Qed.

(** Position [k] of [statx_words] is the field at hand. *)
Ltac at_word k := eapply (statx_field _ _ _ _ k); [eassumption|vm_compute; reflexivity|reflexivity..].
Ltac at_time k := eapply (statx_time _ _ _ _ k); [eassumption|vm_compute; reflexivity|reflexivity..].

Lemma statx_read s : statx_fits s -> statx_of_bytes (statx_bytes s) = s.
Proof.
  intros H. pose proof H as [Ht _]. rewrite !Forall_cons in Ht. destruct Ht as (Ha & Hb & Hc & Hm & _).
  destruct s. cbn in Ha, Hb, Hc, Hm. unfold statx_of_bytes. f_equal.
  - at_word 0%nat.
  - at_word 1%nat.
  - at_word 2%nat.
  - at_word 3%nat.
  - at_word 4%nat.
  - at_word 5%nat.
  - at_word 6%nat.
  - at_word 8%nat.
  - at_word 9%nat.
  - at_word 10%nat.
  - at_word 11%nat.
  - at_time 12%nat.
  - at_time 15%nat.
  - at_time 18%nat.
  - at_time 21%nat.
  - at_word 24%nat.
  - at_word 25%nat.
  - at_word 26%nat.
  - at_word 27%nat.
  - at_word 28%nat.
  - at_word 29%nat.
  - at_word 30%nat.
Qed.

(** C24. What the code reads is what the kernel wrote: the declaration has the
    kernel's size, each field stands where the kernel puts it, and no two
    fields overlap or are swapped. *)
Theorem statx_layout s :
  size_of statx_type = 0x100 /\ align statx_type = 8 /\ length (statx_bytes s) = 0x100%nat /\
  (statx_fits s -> statx_of_bytes (statx_bytes s) = s).
Proof.
  split_and!; [done..| |apply statx_read]. unfold statx_bytes. by rewrite words_bytes_length.
Qed.

(** A directory, as [mkdir] makes it. *)
Definition new_dir : statx_buf :=
  let now := mkTimestamp 1700000000 5 0 in
  mkStatx 0xfff 4096 0 2 1000 1000 0x41ed 77 4096 8 0x3000 now now now now 0 0 8 1 31 0 0.
Lemma statx_layout_witness :
  statx_fits new_dir /\ stx_mode (statx_of_bytes (statx_bytes new_dir)) = 0x41ed.
Proof.
  assert (H : statx_fits new_dir).
  { split; [|cbv; repeat constructor]. repeat constructor; cbn; done. }
  split; [exact H|]. destruct (statx_layout new_dir) as (_ & _ & _ & E). by rewrite (E H).
Defined.
