(* ===== verification/IoOps.v ===== *)
(** The operations of [src/src/io/] that are not reads or writes: for each, its
    data, what [Op::..] builds from the arguments, the submission entry, and
    what its completion becomes.

    Addresses that the code takes of its own boxes ([msghdr], [sockaddr],
    [iovec] array) are arguments, and what the kernel has written into a box
    when the completion arrives is in the field of the data. *)
From S2P Require Import Prelude Buf Types Compat IoUring Op Libc OpenOptions ReadWrite RecvMultishot.

(** [socket2::SockAddr::from] : the bytes of an address structure. *)
Class SockAddrFrom {Sa : SockAddrs} : Type := sockaddr_from : SocketAddr -> list byte.

(** [cqe.result.map(|_| ())], the completion of most operations. *)
Definition unit_result (c : CqeResult) : io_result unit := map_ok (fun _ => tt) (result_ c).

Section fd_ops.
Context {Lc : Libc}.

(** * Operations on a descriptor *)
Record Close : Type := mkClose { cl_fd : Z }.
Record Connect : Type := mkConnect { cn_fd : FdRef; cn_addr : N; cn_addrlen : N }.
Record Fallocate : Type := mkFallocate { fl_fd : FdRef }.
Record Fsync : Type := mkFsync { fs_fd : FdRef }.
Record NoOp : Type := mkNoOp {}.
Record ProvideBuffers : Type := mkProvide {
  pb_addr : N; pb_len : Z; pb_nbufs : N; pb_bgid : N; pb_bid : N;
}.

Definition close (fd : Z) : Close * sqe := (mkClose fd, build (OpClose fd)).
Definition connect (fd : FdRef) (addr addrlen : N) : Connect * sqe :=
  (mkConnect fd addr addrlen, build (OpConnect (fr_fd fd) addr addrlen)).
Definition fallocate (fd : FdRef) (offset len : N) (flags : Z) : Fallocate * sqe :=
  (mkFallocate fd, build (OpFallocate (fr_fd fd) len offset flags)).
Definition fsync (fd : FdRef) : Fsync * sqe := (mkFsync fd, build (OpFsync (fr_fd fd) false)).
Definition datasync (fd : FdRef) : Fsync * sqe := (mkFsync fd, build (OpFsync (fr_fd fd) true)).
Definition no_op : NoOp * sqe := (mkNoOp, build Nop).
Definition provide_buffers (addr len nbufs bgid bid : N) : ProvideBuffers * sqe :=
  let d := mkProvide addr (as_i32 len) (as_u16 nbufs) bgid bid in
  (d, build (OpProvideBuffers (pb_addr d) (pb_len d) (pb_nbufs d) (pb_bgid d) (pb_bid d))).

#[export] Instance close_completable : Completable Close (io_result unit) :=
  fun _ c => Ret (match result_ c with Ok _ => Ok tt | Err e => Err e end).
#[export] Instance connect_completable : Completable Connect (io_result unit) :=
  fun _ c => Ret (unit_result c).
#[export] Instance fallocate_completable : Completable Fallocate (io_result unit) :=
  fun _ c => Ret (unit_result c).
#[export] Instance fsync_completable : Completable Fsync (io_result unit) :=
  fun _ c => Ret (unit_result c).
#[export] Instance no_op_completable : Completable NoOp (io_result unit) :=
  fun _ c => Ret (unit_result c).
#[export] Instance provide_completable : Completable ProvideBuffers (io_result unit) :=
  fun _ c => Ret (unit_result c).

(** * Operations on paths *)
Record Mkdir : Type := mkMkdir { md_path : list byte }.
Record Unlink : Type := mkUnlink { ul_path : list byte }.
Record RenameAt : Type := mkRename { rn_from : list byte; rn_to : list byte }.
Record Symlink : Type := mkSymlink { sy_from : list byte; sy_to : list byte }.

(** The [?] of a fallible expression. *)
Definition and_then {A B} (r : io_result A) (f : A -> io_result B) : io_result B :=
  match r with Ok a => f a | Err e => Err e end.

Definition make_dir (path : list byte) (mode : N) : io_result (Mkdir * sqe) :=
  and_then (cstr path) (fun p => Ok (mkMkdir p, build (OpMkDirAt AT_FDCWD p mode))).
Definition unlink (path : list byte) (flags : Z) : io_result (Unlink * sqe) :=
  and_then (cstr path) (fun p => Ok (mkUnlink p, build (OpUnlinkAt AT_FDCWD p flags))).
Definition unlink_dir (path : list byte) : io_result (Unlink * sqe) := unlink path AT_REMOVEDIR.
Definition unlink_file (path : list byte) : io_result (Unlink * sqe) := unlink path 0.
Definition rename_at (from to : list byte) (flags : N) : io_result (RenameAt * sqe) :=
  and_then (cstr from) (fun f => and_then (cstr to) (fun t =>
    Ok (mkRename f t, build (OpRenameAt AT_FDCWD f AT_FDCWD t flags)))).
Definition symlink (from to : list byte) : io_result (Symlink * sqe) :=
  and_then (cstr from) (fun f => and_then (cstr to) (fun t =>
    Ok (mkSymlink f t, build (OpSymlinkAt AT_FDCWD f t)))).

#[export] Instance mkdir_completable : Completable Mkdir (io_result unit) :=
  fun _ c => Ret (unit_result c).
#[export] Instance unlink_completable : Completable Unlink (io_result unit) :=
  fun _ c => Ret (unit_result c).
#[export] Instance rename_completable : Completable RenameAt (io_result unit) :=
  fun _ c => Ret (unit_result c).
#[export] Instance symlink_completable : Completable Symlink (io_result unit) :=
  fun _ c => Ret (unit_result c).

(** A new descriptor: [SharedFd::new(fd as _)] around a [u32] result. *)
Definition new_fd (fd : N) : FdRef := mkFdRef (as_i32 fd).

(** [impl Completable for Open]; a [File] is its descriptor. *)
#[export] Instance open_completable : Completable Open (io_result FdRef) :=
  fun _ c => Ret (match result_ c with Ok fd => Ok (new_fd fd) | Err e => Err e end).

(** ** [statx]. The structure is in [Compat.v]. *)
Record Statx : Type := mkStatxData {
  sx_fd : option FdRef; sx_path : list byte; sx_statx : statx_buf;
}.
Definition statx (fd : option FdRef) (path : option (list byte)) (flags : Z) (mask : N) :
    Statx * sqe :=
  let raw := match fd with Some fd => fr_fd fd | None => AT_FDCWD end in
  let '(path, flags) :=
    match path with
    | Some path => (path, flags)
    | None => ([], Z.lor flags AT_EMPTY_PATH)
    end in
  (mkStatxData fd path zeroed_statx, build (OpStatx raw path flags mask)).
#[export] Instance statx_completable : Completable Statx (io_result statx_buf) :=
  fun self c => Ret (match result_ c with Ok _ => Ok (sx_statx self) | Err e => Err e end).
End fd_ops.

Section sockets.
Context {Prof : Profile} {Lc : Libc} {Sa : SockAddrs}.

(** * [accept] *)
Record Accept : Type := mkAccept { ac_fd : FdRef; ac_storage : list byte; ac_len : N }.
Definition accept (fd : FdRef) (addr addrlen : N) : Accept * sqe :=
  (mkAccept fd (replicate (N.to_nat sizeof_storage) Byte.x00) (as_u32 sizeof_storage),
   build (OpAccept (fr_fd fd) addr addrlen O_CLOEXEC)).
#[export] Instance accept_completable :
    Completable Accept (io_result (FdRef * option SocketAddr)) :=
  fun self c =>
    match result_ c with
    | Err e => Ret (Err e)
    | Ok fd => Ret (Ok (new_fd fd, as_socket (take (N.to_nat (ac_len self)) (ac_storage self))))
    end.

(** * Sending *)
Record SendZc (T : Type) : Type := mkSendZc { sz_fd : FdRef; sz_buf : T; sz_bytes : N }.
Record SendTo (T : Type) : Type := mkSendTo {
  st_fd : FdRef; st_buf : T; st_slices : list Ref; st_addr : option (list byte);
  st_msghdr : MsgHdr;
}.
Record SendMsg (T U : Type) : Type := mkSendMsg {
  sm_fd : FdRef; sm_bufs : list T; sm_slices : list Ref; sm_addr : option (list byte);
  sm_control : option U; sm_msghdr : MsgHdr;
}.
Record SendMsgZc (T U : Type) : Type := mkSendMsgZc {
  smz_msg : SendMsg T U; smz_bytes : N;
}.
Record RecvFrom (T : Type) : Type := mkRecvFrom {
  rf_fd : FdRef; rf_buf : T; rf_slices : list Ref; rf_addr : list byte; rf_msghdr : MsgHdr;
}.
Record RecvMsg (T : Type) : Type := mkRecvMsg {
  rmg_fd : FdRef; rmg_bufs : list T; rmg_slices : list Ref; rmg_addr : list byte;
  rmg_msghdr : MsgHdr;
}.
End sockets.
Arguments mkSendZc {T} sz_fd sz_buf sz_bytes.
Arguments sz_fd {T} _.
Arguments sz_buf {T} _.
Arguments sz_bytes {T} _.
Arguments mkSendTo {T} st_fd st_buf st_slices st_addr st_msghdr.
Arguments st_buf {T} _.
Arguments st_slices {T} _.
Arguments st_addr {T} _.
Arguments st_msghdr {T} _.
Arguments mkSendMsg {T U} sm_fd sm_bufs sm_slices sm_addr sm_control sm_msghdr.
Arguments sm_bufs {T U} _.
Arguments sm_addr {T U} _.
Arguments sm_control {T U} _.
Arguments sm_slices {T U} _.
Arguments sm_msghdr {T U} _.
Arguments mkSendMsgZc {T U} smz_msg smz_bytes.
Arguments smz_msg {T U} _.
Arguments smz_bytes {T U} _.
Arguments mkRecvFrom {T} rf_fd rf_buf rf_slices rf_addr rf_msghdr.
Arguments rf_buf {T} _.
Arguments rf_addr {T} _.
Arguments mkRecvMsg {T} rmg_fd rmg_bufs rmg_slices rmg_addr rmg_msghdr.
Arguments rmg_bufs {T} _.
Arguments rmg_addr {T} _.
