(* ===== verification/Messages.v ===== *)
(** [src/src/io/]{[send_to], [send_zc], [sendmsg], [sendmsg_zc], [recv_from],
    [recvmsg]}[.rs]: messages, from the buffers to the header the kernel is
    given and from the completion back to the buffers. *)
From S2P Require Import Prelude Buf Buffer BufSpec Types IoUring Op Libc OpenOptions ReadWrite.
From S2P Require Import RecvMultishot IoOps.

(** A fallible map over a list, from the left. *)
Fixpoint mapM_outcome {A B} (f : A -> outcome B) (l : list A) : outcome (list B) :=
  match l with
  | [] => Ret []
  | a :: l => b ← f a; bs ← mapM_outcome f l; Ret (b :: bs)
  end.

(** [trait MsgAddrs]: the addresses of the boxes and vectors of one call. *)
Record Boxes : Type := mkBoxes { bx_iov : N; bx_name : N; bx_msghdr : N }.

Section messages.
Context {Prof : Profile} {Lc : Libc} {Sa : SockAddrs} {Sf : SockAddrFrom}.

(** [IoSlice::new(from_raw_parts(buf.stable_ptr(), buf.bytes_init()))]. *)
Definition io_slice `{!BoundedBuf V T Bounds} (buf : V) : outcome Ref :=
  p ← stable_ptr buf; n ← bytes_init buf; Ret (mkRef p n).
Definition io_slice_mut `{!BoundedBuf V T Bounds} `{!BoundedBufMut V T Bounds} (buf : V) :
    outcome Ref :=
  p ← stable_mut_ptr buf; n ← bytes_total buf; Ret (mkRef p n).

(** The name of the message: a boxed address, or null. *)
Definition name_of (bx : Boxes) (addr : option (list byte)) : N * N :=
  match addr with
  | Some a => (bx_name bx, N.of_nat (length a))
  | None => (0, 0)
  end.

(** [Op::send_to]. *)
Definition send_to `{!BoundedBuf V T Bounds} (bx : Boxes) (fd : FdRef) (buf : V)
    (socket_addr : option SocketAddr) : outcome (SendTo V * sqe) :=
  s ← io_slice buf;
  let addr := sockaddr_from <$> socket_addr in
  let '(name, namelen) := name_of bx addr in
  Ret (mkSendTo fd buf [s] addr (mkMsgHdr name namelen (bx_iov bx) 1 0 0),
       build (OpSendMsg (fr_fd fd) (bx_msghdr bx))).
#[export] Instance send_to_completable {V} : Completable (SendTo V) (BufResult N V) :=
  fun self c => Ret (with_buffer same_error (st_buf self) (result_ c)).

(** The header of [Op::sendmsg] and [Op::sendmsg_zc]; it does not depend on
    which of the two is submitted. *)
Definition send_header `{!BoundedBuf V T Bounds} `{!BoundedBuf U T' Bounds'} (bx : Boxes)
    (fd : FdRef) (io_bufs : list V) (socket_addr : option SocketAddr) (msg_control : option U) :
    outcome (SendMsg V U) :=
  slices ← mapM_outcome io_slice io_bufs;
  let addr := sockaddr_from <$> socket_addr in
  let '(name, namelen) := name_of bx addr in
  '(control, controllen) ← match msg_control with
    | Some u => p ← stable_ptr u; n ← bytes_init u; Ret (p, n)
    | None => Ret (0, 0)
    end;
  Ret (mkSendMsg fd io_bufs slices addr msg_control
         (mkMsgHdr name namelen (bx_iov bx) (N.of_nat (length slices)) control controllen)).
Definition sendmsg `{!BoundedBuf V T Bounds} `{!BoundedBuf U T' Bounds'} (bx : Boxes)
    (fd : FdRef) (io_bufs : list V) (socket_addr : option SocketAddr) (msg_control : option U) :
    outcome (SendMsg V U * sqe) :=
  d ← send_header bx fd io_bufs socket_addr msg_control;
  Ret (d, build (OpSendMsg (fr_fd fd) (bx_msghdr bx))).
Definition sendmsg_zc `{!BoundedBuf V T Bounds} `{!BoundedBuf U T' Bounds'} (bx : Boxes)
    (fd : FdRef) (io_bufs : list V) (socket_addr : option SocketAddr) (msg_control : option U) :
    outcome (SendMsgZc V U * sqe) :=
  d ← send_header bx fd io_bufs socket_addr msg_control;
  Ret (mkSendMsgZc d 0, build (OpSendMsgZc (fr_fd fd) (bx_msghdr bx))).
#[export] Instance sendmsg_completable {V U} :
    Completable (SendMsg V U) (io_result N * list V * option U) :=
  fun self c => Ret (result_ c, sm_bufs self, sm_control self).

(** ** Zero-copy sends: several completions, of which each carries bytes *)
Definition send_zc `{!BoundedBuf V T Bounds} (fd : FdRef) (buf : V) : outcome (SendZc V * sqe) :=
  s ← io_slice buf;
  Ret (mkSendZc fd buf 0, build (OpSendZc (fr_fd fd) (ref_ptr s) (as_u32 (ref_len s)))).

(** [cqe.result.map(|v| self.bytes + v as usize)]. *)
Definition total_result (bytes : N) (c : CqeResult) : outcome (io_result N) :=
  match result_ c with
  | Ok v => n ← add_usize bytes v; Ret (Ok n)
  | Err e => Ret (Err e)
  end.
(** [self.bytes += *cqe.result.as_ref().unwrap() as usize]. *)
Definition more_bytes (bytes : N) (c : CqeResult) : outcome N :=
  match result_ c with
  | Ok v => add_usize bytes v
  | Err _ => Panic (PUnwrap "called `Result::unwrap()` on an `Err` value")
  end.

#[export] Instance send_zc_completable {V} : Completable (SendZc V) (BufResult N V) :=
  fun self c =>
    r ← total_result (sz_bytes self) c; Ret (with_buffer same_error (sz_buf self) r).
#[export] Instance send_zc_updateable {V} : Updateable (SendZc V) (BufResult N V) := {
  update := fun self c =>
    n ← more_bytes (sz_bytes self) c; Ret (mkSendZc (sz_fd self) (sz_buf self) n);
  should_yield := default_should_yield;
  yield_result := default_yield_result;
}.
#[export] Instance sendmsg_zc_completable {V U} :
    Completable (SendMsgZc V U) (io_result N * list V * option U) :=
  fun self c =>
    res ← total_result (smz_bytes self) c;
    Ret (res, sm_bufs (smz_msg self), sm_control (smz_msg self)).
#[export] Instance sendmsg_zc_updateable {V U} :
    Updateable (SendMsgZc V U) (io_result N * list V * option U) := {
  update := fun self c =>
    n ← more_bytes (smz_bytes self) c; Ret (mkSendMsgZc (smz_msg self) n);
  should_yield := default_should_yield;
  yield_result := default_yield_result;
}.

(** * Receiving *)

(** [Op::recv_from] and [Op::recvmsg]; [namelen] is the length that
    [SockAddr::try_init] leaves. *)
Definition recv_from `{!BoundedBuf V T Bounds} `{!BoundedBufMut V T Bounds} (bx : Boxes)
    (namelen : N) (fd : FdRef) (buf : V) : outcome (RecvFrom V * sqe) :=
  s ← io_slice_mut buf;
  Ret (mkRecvFrom fd buf [s] [] (mkMsgHdr (bx_name bx) (as_u32 namelen) (bx_iov bx) 1 0 0),
       build (OpRecvMsg (fr_fd fd) (bx_msghdr bx))).
Definition recvmsg `{!BoundedBuf V T Bounds} `{!BoundedBufMut V T Bounds} (bx : Boxes)
    (namelen : N) (fd : FdRef) (bufs : list V) : outcome (RecvMsg V * sqe) :=
  slices ← mapM_outcome io_slice_mut bufs;
  Ret (mkRecvMsg fd bufs slices []
         (mkMsgHdr (bx_name bx) (as_u32 namelen) (bx_iov bx) (N.of_nat (length slices)) 0 0),
       build (OpRecvMsg (fr_fd fd) (bx_msghdr bx))).

(** The loop [for buf in &mut bufs]. *)
Fixpoint init_all `{!BoundedBuf V T Bounds} `{!BoundedBufMut V T Bounds} (bytes : N)
    (bufs : list V) : outcome (list V) :=
  match bufs with
  | [] => Ret []
  | buf :: bufs =>
      buf ← set_init bytes buf;
      total ← bytes_total buf;
      if total <? bytes then
        bytes ← sub_usize bytes total; bufs ← init_all bytes bufs; Ret (buf :: bufs)
      else Ret (buf :: bufs)
  end.

#[export] Instance recv_from_completable `{!BoundedBuf V T Bounds} `{!BoundedBufMut V T Bounds} :
    Completable (RecvFrom V) (BufResult (N * SocketAddr) V) :=
  fun self c =>
    match result_ c with
    | Err e => Ret (with_buffer same_error (rf_buf self) (Err e))
    | Ok n =>
        addr ← unwrap "called `Option::unwrap()` on a `None` value" (as_socket (rf_addr self));
        buf ← set_init n (rf_buf self);
        Ret (with_buffer same_error buf (Ok (n, addr)))
    end.
#[export] Instance recvmsg_completable `{!BoundedBuf V T Bounds} `{!BoundedBufMut V T Bounds} :
    Completable (RecvMsg V) (BufResult (N * SocketAddr) (list V)) :=
  fun self c =>
    match result_ c with
    | Err e => Ret (with_buffer same_error (rmg_bufs self) (Err e))
    | Ok n =>
        addr ← unwrap "called `Option::unwrap()` on a `None` value" (as_socket (rmg_addr self));
        bufs ← init_all n (rmg_bufs self);
        Ret (with_buffer same_error bufs (Ok (n, addr)))
    end.

(** * Properties *)

(** Feeding the completions that announce more ones. *)
Fixpoint updates `{!Updateable D Out} (cs : list CqeResult) (d : D) : outcome D :=
  match cs with
  | [] => Ret d
  | c :: cs => d ← update d c; updates cs d
  end.
Definition sent (n : N) : CqeResult := mkCqeResult (Ok n) 0.

Lemma more_bytes_sent bytes n :
  bytes + n <= usize_max -> more_bytes bytes (sent n) = Ret (bytes + n).
Proof. apply add_usize_Ret. Qed.

Lemma total_result_spec bytes c :
  bytes + match result_ c with Ok n => n | Err _ => 0 end <= usize_max ->
  total_result bytes c =
    Ret (match result_ c with Ok n => Ok (bytes + n) | Err e => Err e end).
Proof.
  unfold total_result. destruct (result_ c); [|done]. intros. by rewrite add_usize_Ret.
Qed.

(** A zero-copy send reports every byte. Whatever the number of
    completions, the result is the sum of the bytes of all of them, the last
    one included; an error on the last one is reported as the error; the
    buffers, and the control data, come back unchanged either way. *)
Theorem zc_total {W V U} (d : SendZc W) (m : SendMsgZc V U) (ns : list N) (last : CqeResult) :
  let sum_with b :=
    match result_ last with Ok n => Ok (b + sum_N ns + n) | Err e => Err e end in
  let fits b := b + sum_N ns + match result_ last with Ok n => n | Err _ => 0 end <= usize_max in
  (fits (sz_bytes d) ->
   exists d', updates (sent <$> ns) d = Ret d' /\
     complete d' last = Ret (with_buffer same_error (sz_buf d) (sum_with (sz_bytes d)))) /\
  (fits (smz_bytes m) ->
   exists m', updates (sent <$> ns) m = Ret m' /\
     complete m' last =
       Ret (sum_with (smz_bytes m), sm_bufs (smz_msg m), sm_control (smz_msg m))).
Proof.
  cbv zeta. split.
  - revert d. induction ns as [|n ns IH]; intros d Hf; cbn [fmap list_fmap updates sum_N] in *.
    + exists d. split; [done|]. rewrite N.add_0_r in *. unfold complete, send_zc_completable.
      by rewrite total_result_spec.
    + cbn [update send_zc_updateable]. rewrite more_bytes_sent by lia. cbn [mbind outcome_bind].
      destruct (IH (mkSendZc (sz_fd d) (sz_buf d) (sz_bytes d + n))) as (d' & E & E');
        [cbn; lia|]. exists d'. split; [done|]. rewrite E'. cbn [sz_bytes smz_bytes sz_buf smz_msg].
      by rewrite N.add_assoc.
  - revert m. induction ns as [|n ns IH]; intros m Hf; cbn [fmap list_fmap updates sum_N] in *.
    + exists m. split; [done|]. rewrite N.add_0_r in *. unfold complete, sendmsg_zc_completable.
      by rewrite total_result_spec.
    + cbn [update sendmsg_zc_updateable]. rewrite more_bytes_sent by lia. cbn [mbind outcome_bind].
      destruct (IH (mkSendMsgZc (smz_msg m) (smz_bytes m + n))) as (m' & E & E');
        [cbn; lia|]. exists m'. split; [done|]. rewrite E'. cbn [sz_bytes smz_bytes sz_buf smz_msg].
      by rewrite N.add_assoc.
Qed.

(** A message shows the kernel exactly the initialised bytes. The header of
    [sendmsg] names, in order, one region per buffer, which is its
    initialised part; the count, the address and the control data match. *)
Theorem sendmsg_gathers (bx : Boxes) (fd : FdRef) (bufs : list VecU8)
    (addr : option SocketAddr) (control : option VecU8) :
  exists d, sendmsg bx fd bufs addr control = Ret (d, build (OpSendMsg (fr_fd fd) (bx_msghdr bx))) /\
    sm_slices d = (fun v => mkRef (v_ptr v) (v_len v)) <$> bufs /\
    sm_bufs d = bufs /\ sm_control d = control /\
    msg_iov (sm_msghdr d) = bx_iov bx /\ msg_iovlen (sm_msghdr d) = N.of_nat (length bufs) /\
    msg_namelen_ (sm_msghdr d) = N.of_nat (length (from_option sockaddr_from [] addr)) /\
    (addr = None -> msg_name (sm_msghdr d) = 0) /\
    msg_controllen_ (sm_msghdr d) = from_option v_len 0 control.
Proof.
  assert (E : mapM_outcome io_slice bufs = Ret ((fun v => mkRef (v_ptr v) (v_len v)) <$> bufs)).
  { induction bufs as [|v bufs IH]; [done|]. cbn. cbn in IH. by rewrite IH. }
  unfold sendmsg, send_header. rewrite E. cbn [mbind outcome_bind].
  destruct addr as [a|], control as [u|]; cbn; eexists; (split; [done|]); cbn;
    rewrite length_fmap; by split_and!.
Qed.

(** A received message that fits the first buffer is in it: the buffer shows
    the bytes that arrived (never less than before), the other buffers are
    as they were, and the sender is the one of the header. A message that goes on
    into the second buffer is initialised beyond the first one's capacity: the
    loop passes the whole length to it before it looks at the capacity. *)
Theorem recvmsg_vecs (self : RecvMsg VecU8) (n : N) (v : VecU8) (vs : list VecU8) addr fl :
  rmg_bufs self = v :: vs -> as_socket (rmg_addr self) = Some addr -> v_len v <= v_cap v ->
  (n <= v_cap v ->
     complete self (mkCqeResult (Ok n) fl) =
       Ret (Ok (n, addr, mkVec (v_ptr v) (N.max (v_len v) n) (v_cap v) :: vs) : BufResult _ _)) /\
  (v_cap v < n ->
     complete self (mkCqeResult (Ok n) fl) =
       (Undefined "Vec::set_len beyond the capacity" : outcome (BufResult _ _))).
Proof.
  intros Hb Ha Hv. unfold complete, recvmsg_completable. rewrite Hb, Ha. cbn.
  destruct (N.ltb_spec (v_len v) n); unfold set_len; split; intros Hn; try lia.
  - rewrite (proj2 (N.leb_le n (v_cap v))) by lia. cbn.
    rewrite (proj2 (N.ltb_ge (v_cap v) n)) by lia. cbn. by rewrite N.max_r by lia.
  - by rewrite (proj2 (N.leb_gt n (v_cap v))) by lia.
  - cbn. rewrite (proj2 (N.ltb_ge (v_cap v) n)) by lia. cbn. rewrite N.max_l by lia.
    by destruct v.
Qed.
End messages.

(** * Concrete messages *)
#[local] Existing Instance debug_profile.
Import RecvMultishot.Socket.
#[export] Instance demo_from : SockAddrFrom := fun a => a.
Definition demo_boxes : Boxes := mkBoxes 10 20 30.
Definition empty_msg : SendMsg VecU8 VecU8 :=
  mkSendMsg (mkFdRef 3) [] [] None None zeroed_msghdr.

Lemma zc_total_witness :
  exists d', updates [sent 4; sent 5] (mkSendZc (mkFdRef 3) tt 0) = Ret d' /\
    complete d' (sent 6) = Ret (Ok (15, tt) : BufResult N unit).
Proof.
  exact (proj1 (zc_total (mkSendZc (mkFdRef 3) tt 0) (mkSendMsgZc empty_msg 0) [4; 5] (sent 6))
           ltac:(vm_compute; discriminate)).
Defined.

Lemma sendmsg_gathers_witness :
  exists d, sendmsg demo_boxes (mkFdRef 3) [mkVec 100 5 8; mkVec 200 0 4] None
              (None : option VecU8) = Ret (d, build (OpSendMsg 3 30)) /\
    sm_slices d = [mkRef 100 5; mkRef 200 0] /\ msg_name (sm_msghdr d) = 0.
Proof.
  destruct (sendmsg_gathers demo_boxes (mkFdRef 3) [mkVec 100 5 8; mkVec 200 0 4] None None)
    as (d & E & Hs & _ & _ & _ & _ & _ & Hn & _).
  exists d. split; [exact E|]. split; [exact Hs|]. by apply Hn.
Defined.

Definition demo_recvmsg : RecvMsg VecU8 :=
  mkRecvMsg (mkFdRef 3) [mkVec 100 2 8; mkVec 200 0 8] [] name zeroed_msghdr.
Lemma recvmsg_vecs_witness :
  complete demo_recvmsg (mkCqeResult (Ok 12) 0) =
    (Undefined "Vec::set_len beyond the capacity" :
       outcome (BufResult (N * @SocketAddr demo_addrs) (list VecU8))).
Proof.
  refine (proj2 (recvmsg_vecs demo_recvmsg 12 (mkVec 100 2 8) [mkVec 200 0 8]
                   (name : @SocketAddr demo_addrs) 0 _ _ _) _); by vm_compute.
Defined.
