(* ===== verification/WritevAll.v ===== *)
(** [src/src/io/writev_all.rs]: a write of several buffers that means to go
    on until all bytes are written. No [mod] declaration names the file, so
    that it is not part of the crate; it is a sibling of the loops in
    [WriteAll.v], whose [Answer]s it takes.

    [iov] is the address of the vector of [iovec]s, and a pointer into it is
    a position [k]. *)
From S2P Require Import Prelude Buf Buffer BufSpec Types IoUring Op ReadWrite IoOps Messages WriteAll.

(** [struct WritevAll]. *)
Record WritevAll (V : Type) : Type := mkWritevAll {
  wa_fd : FdRef; wa_bufs : list V; wa_iovs : list iovec;
}.
Arguments mkWritevAll {V} wa_fd wa_bufs wa_iovs.
Arguments wa_fd {V} _.
Arguments wa_bufs {V} _.
Arguments wa_iovs {V} _.
#[export] Instance writev_all_completable {V} :
    Completable (WritevAll V) (io_result N * FdRef * list V * list iovec) :=
  fun self c => Ret (result_ c, wa_fd self, wa_bufs self, wa_iovs self).

Definition iovec_size : N := 16.

Section writev_all.
Context {Prof : Profile} `{!BoundedBuf V T Bounds} (iov : N).

(** [bufs.iter().all(|b| b.bytes_init() == 0)]. *)
Fixpoint all_empty (bufs : list V) : outcome bool :=
  match bufs with
  | [] => Ret true
  | b :: bufs => n ← bytes_init b; if n =? 0 then all_empty bufs else Ret false
  end.
Definition iovec_of (b : V) : outcome iovec :=
  p ← stable_ptr b; n ← bytes_init b; Ret (mkIovec p n).

(** [Op::writev_at_all2]; [k] and [len] stand for [iovs_ptr], [iovs_len]. *)
Definition writev_at_all2 (fd : FdRef) (bufs : list V) (iovs : list iovec) (k len offset : N) :
    WritevAll V * sqe :=
  (mkWritevAll fd bufs iovs, build (OpWritev (fr_fd fd) (iov + iovec_size * k) len offset)).

(** The inner loop: [n] bytes were written; [rest] are the vectors from [k]
    on. The vector that is written in part is a copy, whose new start and
    length are dropped. *)
Fixpoint consume (rest : list iovec) (n k len : N) : outcome (N * N * N) :=
  if (n =? 0) || (len =? 0) then Ret (n, k, len)
  else
    match rest with
    | [] => Undefined "iovs_ptr is not in the vector"
    | v :: rest =>
        if iov_len v <=? n then consume rest (n - iov_len v) (k + 1) (len - 1)
        else Ret (0, k, len)
    end.

Fixpoint writev_loop (answers : list Answer) (fd : FdRef) (bufs : list V) (iovs : list iovec)
    (k len : N) (offset : option N) (total : N) (log : list sqe) :
    outcome (Poll (BufResult N (list V)) * list sqe) :=
  o ← match offset with Some m => add_usize m total | None => Ret 0 end;
  let '(op, e) := writev_at_all2 fd bufs iovs k len o in
  let log := log ++ [e] in
  match answers with
  | [] => Ret (Pending, log)
  | NotSubmitted _ :: _ => Panic (PUnwrap "called `Result::unwrap()` on an `Err` value")
  | Answered c :: answers =>
      '(res, fd, bufs, iovs) ← complete op c;
      match res with
      | Err e => Ret (Ready (Err (mkError e bufs)), log)
      | Ok n =>
          if n =? 0 then
            Ret (Ready (Err (mkError (CustomError WriteZero "write returned 0 bytes") bufs)), log)
          else
            total ← add_usize total n;
            '(n, k, len) ← consume (drop (N.to_nat k) iovs) n k len;
            if ((len =? 0) && negb (n =? 0)) || ((0 <? len) && (n =? 0))
            then Panic (PUnreachable "internal error: entered unreachable code")
            else if n =? 0 then Ret (Ready (Ok (total, bufs)), log)
            else writev_loop answers fd bufs iovs k len offset total log
      end
  end.

Definition writev_at_all (answers : list Answer) (fd : FdRef) (bufs : list V) (offset : option N) :
    outcome (Poll (BufResult N (list V)) * list sqe) :=
  empty ← all_empty bufs;
  if (empty : bool) then Ret (Ready (Ok (0, bufs)), [])
  else
    iovs ← mapM_outcome iovec_of bufs;
    writev_loop answers fd bufs iovs 0 (as_u32 (N.of_nat (length iovs))) offset 0 [].

(** * What it does *)

(** [vs] are the initialised parts of the buffers. *)
Definition parts (bufs : list V) (vs : list iovec) : Prop :=
  Forall2 (fun b v => iovec_of b = Ret v) bufs vs.

Lemma parts_init b v : iovec_of b = Ret v -> bytes_init b = Ret (iov_len v).
Proof.
  unfold iovec_of. intros (p & _ & E)%bind_Ret. apply bind_Ret in E as (n & -> & E).
  by injection E as <-.
Qed.
Lemma parts_empty bufs vs :
  parts bufs vs -> all_empty bufs = Ret (forallb (fun v => iov_len v =? 0) vs).
Proof.
  induction 1 as [|b v bufs vs Hb _ IH]; [done|]. cbn. rewrite (parts_init b v Hb). cbn.
  by destruct (iov_len v =? 0).
Qed.
Lemma parts_iovs bufs vs : parts bufs vs -> mapM_outcome iovec_of bufs = Ret vs.
Proof. induction 1 as [|b v bufs vs Hb _ IH]; [done|]. cbn. by rewrite Hb, IH. Qed.

Definition lengths (vs : list iovec) : N := sum_N (iov_len <$> vs).
(** The last vector is not empty. *)
Definition ends_full (vs : list iovec) : bool :=
  match last vs with Some v => negb (iov_len v =? 0) | None => true end.

Lemma ends_full_pos v vs : ends_full (v :: vs) = true -> 0 < lengths (v :: vs).
Proof.
  revert v. induction vs as [|v' vs IH]; intros v; unfold ends_full, lengths in *.
  - cbn. destruct (N.eqb_spec (iov_len v) 0); [done|]. lia.
  - change (last (v :: v' :: vs)) with (last (v' :: vs)). intros H%IH. cbn in *. lia.
Qed.

(** The inner loop ends with [n = 0] or with no vector left; both at once
    only if exactly everything was written. *)
Lemma consume_spec vs n k :
  let len := N.of_nat (length vs) in
  exists n' k' len', consume vs n k len = Ret (n', k', len') /\ (n' = 0 \/ len' = 0) /\
    (n' = 0 /\ len' = 0 <-> n = lengths vs /\ (n = 0 -> len = 0) /\ ends_full vs = true).
Proof.
  revert n k. induction vs as [|v vs IH]; intros n k len.
  - exists n, k, 0. cbn. rewrite orb_true_r. split; [done|]. split; [by right|]. cbn. naive_solver.
  - unfold len. cbn [length]. cbn [consume]. destruct (N.eqb_spec n 0) as [->|Hn].
    { cbn [orb]. eexists 0, k, _. split; [done|]. split; [by left|]. cbn. split; [lia|].
      intros (_ & H & _). specialize (H eq_refl). lia. }
    rewrite (proj2 (N.eqb_neq _ 0)) by lia. cbn [orb].
    destruct (N.leb_spec (iov_len v) n) as [Hl|Hl].
    + destruct (IH (n - iov_len v) (k + 1)) as (n' & k' & len' & E & Hor & Hiff).
      replace (N.of_nat (S (length vs)) - 1) with (N.of_nat (length vs)) by lia.
      exists n', k', len'. split; [done|]. split; [done|]. rewrite Hiff. unfold lengths, ends_full.
      cbn [fmap list_fmap sum_N]. destruct vs as [|v' vs].
      * cbn. destruct (N.eqb_spec (iov_len v) 0); cbn; naive_solver lia.
      * change (last (v :: v' :: vs)) with (last (v' :: vs)). split.
        -- intros (H1 & H2 & H3). unfold lengths in H1. split_and!; [lia|lia|done].
        -- intros (H1 & _ & H3). pose proof (ends_full_pos v' vs H3). unfold lengths in *. cbn in *.
           split_and!; [lia|lia|done].
    + eexists 0, k, _. split; [done|]. split; [by left|]. split; [lia|].
      unfold lengths. cbn. intros (H & _). lia.
Qed.
Lemma all_zero vs : forallb (fun v => iov_len v =? 0) vs = (lengths vs =? 0).
Proof.
  induction vs as [|v vs IH]; [done|]. unfold lengths in *. cbn. rewrite IH.
  destruct (N.eqb_spec (iov_len v) 0), (N.eqb_spec (sum_N (iov_len <$> vs)) 0),
    (N.eqb_spec (iov_len v + sum_N (iov_len <$> vs)) 0); done || lia.
Qed.
Lemma first_offset offset :
  default 0 offset <= usize_max ->
  match offset with Some m => add_usize m 0 | None => Ret 0 end = Ret (default 0 offset).
Proof. destruct offset; cbn; [|done]. intros. by rewrite add_usize_Ret, N.add_0_r by lia. Qed.

Lemma first_entry fd bufs vs len o :
  writev_at_all2 fd bufs vs 0 len o =
    (mkWritevAll fd bufs vs, build (OpWritev (fr_fd fd) iov len o)).
Proof. unfold writev_at_all2. by rewrite N.mul_0_r, N.add_0_r. Qed.

(** A write of several buffers submits at most one operation, and answers
    or panics when it completes. Empty buffers are written without one.
    Otherwise the entry names all initialised parts and the offset, and an
    error, or a write of nothing, gives the buffers back. A write of
    everything answers the count, provided that the last buffer is not empty.
    In all other cases, a write of a part among them, the code takes the
    [unreachable!] branch: the loop never goes round a second time. *)
Theorem writev_at_all_spec (answers : list Answer) (fd : FdRef) (bufs : list V) (vs : list iovec)
    (offset : option N) :
  parts bufs vs -> N.of_nat (length vs) < 2 ^ 32 -> default 0 offset <= usize_max ->
  (forall c n, Answered c ∈ answers -> result_ c = Ok n -> n <= usize_max) ->
  let entry := build (OpWritev (fr_fd fd) iov (N.of_nat (length vs)) (default 0 offset)) in
  writev_at_all answers fd bufs offset =
    if lengths vs =? 0 then Ret (Ready (Ok (0, bufs)), [])
    else match answers with
         | [] => Ret (Pending, [entry])
         | NotSubmitted _ :: _ => Panic (PUnwrap "called `Result::unwrap()` on an `Err` value")
         | Answered c :: _ =>
             match result_ c with
             | Err e => Ret (Ready (Err (mkError e bufs)), [entry])
             | Ok n =>
                 if n =? 0 then
                   Ret (Ready (Err (mkError (CustomError WriteZero "write returned 0 bytes") bufs)),
                        [entry])
                 else if (n =? lengths vs) && ends_full vs then Ret (Ready (Ok (n, bufs)), [entry])
                 else Panic (PUnreachable "internal error: entered unreachable code")
             end
         end.
Proof.
  intros Hp Hlen Hoff Hc entry. unfold writev_at_all. rewrite (parts_empty bufs vs Hp), all_zero.
  cbn [mbind outcome_bind]. destruct (N.eqb_spec (lengths vs) 0) as [|Hpos]; [done|].
  rewrite (parts_iovs bufs vs Hp). cbn [mbind outcome_bind].
  assert (E32 : as_u32 (N.of_nat (length vs)) = N.of_nat (length vs)) by (by apply N.mod_small).
  rewrite E32. destruct answers as [|[e|c] answers]; cbn [writev_loop];
    rewrite first_offset by done; cbn [mbind outcome_bind]; rewrite first_entry; [done..|].
  unfold complete, writev_all_completable. cbn [mbind outcome_bind wa_fd wa_bufs wa_iovs].
  destruct (result_ c) as [n|e] eqn:Er; [|done].
  destruct (N.eqb_spec n 0) as [|Hn]; [done|].
  rewrite add_usize_Ret by (rewrite N.add_0_l; eapply Hc; [left|done]).
  cbn [mbind outcome_bind]. change (drop (N.to_nat 0) vs) with vs.
  destruct (consume_spec vs n 0) as (n' & k' & len' & E & Hor & Hiff). rewrite E.
  cbn [mbind outcome_bind]. rewrite N.add_0_l.
  destruct ((n =? lengths vs) && ends_full vs) eqn:Ed.
  - apply andb_true_iff in Ed as [->%N.eqb_eq Hf]. destruct Hiff as [_ Hi].
    destruct Hi as [-> ->]; [by split|]. done.
  - destruct ((n' =? 0) && (len' =? 0)) eqn:Eb.
    { apply andb_true_iff in Eb as [->%N.eqb_eq ->%N.eqb_eq]. destruct Hiff as [[-> [_ Hf]] _]; [done|].
      by rewrite N.eqb_refl, Hf in Ed. }
    destruct Hor as [->| ->]; rewrite N.eqb_refl, ?andb_true_r, ?andb_false_r in *; cbn [andb] in Eb.
    + apply N.eqb_neq in Eb. rewrite (proj2 (N.ltb_lt 0 len')) by lia. by rewrite orb_true_r.
    + by rewrite Eb.
Qed.
End writev_all.

(** Two buffers of five and three bytes: all of them written, the first one
    written, and all of them when an empty buffer follows. *)
#[local] Existing Instance debug_profile.
Definition two : list VecU8 := [mkVec 100 5 8; mkVec 200 3 4].
Lemma writev_at_all_spec_witness :
  (exists log, writev_at_all 900 [wrote 8] (mkFdRef 5) two (Some 64) = Ret (Ready (Ok (8, two)), log)) /\
  (exists p, writev_at_all 900 [wrote 5; wrote 3] (mkFdRef 5) two (Some 64) = Panic p) /\
  (exists p, writev_at_all 900 [wrote 8] (mkFdRef 5) (two ++ [mkVec 300 0 4]) None = Panic p).
Proof.
  assert (H : parts two [mkIovec 100 5; mkIovec 200 3]) by (repeat constructor).
  assert (H' : parts (two ++ [mkVec 300 0 4]) [mkIovec 100 5; mkIovec 200 3; mkIovec 300 0])
    by (repeat constructor).
  assert (Hw : forall ns, Forall (fun n => n <= 8) ns ->
            forall c n, Answered c ∈ wrote <$> ns -> result_ c = Ok n -> n <= usize_max).
  { intros ns Hns c n (m & [= ->] & Hm)%list_elem_of_fmap [= <-].
    rewrite Forall_forall in Hns. specialize (Hns m Hm). unfold usize_max. lia. }
  split; [|split].
  - rewrite (writev_at_all_spec 900 [wrote 8] (mkFdRef 5) two [mkIovec 100 5; mkIovec 200 3] (Some 64) H);
      [by eexists|done..|apply (Hw [8]); by repeat constructor].
  - rewrite (writev_at_all_spec 900 [wrote 5; wrote 3] (mkFdRef 5) two
               [mkIovec 100 5; mkIovec 200 3] (Some 64) H);
      [by eexists|done..|apply (Hw [5; 3]); by repeat constructor].
  - rewrite (writev_at_all_spec 900 [wrote 8] (mkFdRef 5) (two ++ [mkVec 300 0 4])
               [mkIovec 100 5; mkIovec 200 3; mkIovec 300 0] None H');
      [by eexists|done..|apply (Hw [8]); by repeat constructor].
Defined.
