(* ===== verification/Clients.v ===== *)
(** The operations of [src/src/io/] as clients of the driver. Those with
    several completions, [RecvFromMultishot], [SendZc] and [SendMsgZc], meet
    what the driver asks of them ([ClientLaws]), and whatever happens to the
    data of an operation, the descriptor that it cloned stays inside
    ([KeyedLaws]). So the results on the driver and on descriptors hold for
    any mix of operations. *)
From S2P Require Import Prelude Slab IoUring SlabList Op Driver DriverSpec System SharedFd Ownership.
From S2P Require Import Descriptor Buf Buffer BufSpec Types Compat Libc OpenOptions ReadWrite RecvMultishot IoOps Messages.

(** An operation of one of the three kinds, and what its polls give. *)
Inductive Multishot {Sa : SockAddrs} (V U : Type) : Type :=
  | MRecv (d : RecvFromMultishot)
  | MSend (d : SendZc V)
  | MSendMsg (d : SendMsgZc V U).
Arguments MRecv {Sa V U} d.
Arguments MSend {Sa V U} d.
Arguments MSendMsg {Sa V U} d.
Inductive MultishotOutput {Sa : SockAddrs} (V U : Type) : Type :=
  | MRecvd (batch : RecvFromMultishotBatch)
  | MSent (r : BufResult N V)
  | MSentMsg (r : io_result N * list V * option U).
Arguments MRecvd {Sa V U} batch.
Arguments MSent {Sa V U} r.
Arguments MSentMsg {Sa V U} r.

#[export] Instance FdRef_eq_dec : EqDecision FdRef.
Proof. solve_decision. Defined.

Section clients.
Context {Prof : Profile} {Cq : Cqueue} {Lc : Libc} {Sa : SockAddrs} {Sf : SockAddrFrom} {Bp : BufferProvider}.
Context {V U : Type}.
Abbreviation M := (Multishot V U).
Abbreviation Out := (MultishotOutput V U).

#[export] Instance multishot_completable : Completable M Out := fun d c =>
  match d with
  | MRecv d => r ← complete d c; Ret (MRecvd r)
  | MSend d => r ← complete d c; Ret (MSent r)
  | MSendMsg d => r ← complete d c; Ret (MSentMsg r)
  end.
#[export] Instance multishot_updateable : Updateable M Out := {
  update := fun d c =>
    match d with
    | MRecv d => d ← update d c; Ret (MRecv d)
    | MSend d => d ← update d c; Ret (MSend d)
    | MSendMsg d => d ← update d c; Ret (MSendMsg d)
    end;
  should_yield := fun d =>
    match d with
    | MRecv d => should_yield d
    | MSend d => should_yield d
    | MSendMsg d => should_yield d
    end;
  yield_result := fun d =>
    match d with
    | MRecv d => '(r, d) ← yield_result d; Ret (MRecvd r, MRecv d)
    | MSend d => '(r, d) ← yield_result d; Ret (MSent r, MSend d)
    | MSendMsg d => '(r, d) ← yield_result d; Ret (MSentMsg r, MSendMsg d)
    end;
}.

(** The descriptor inside. *)
#[export] Instance multishot_fd : Keyed M FdRef := fun d =>
  match d with
  | MRecv d => rm_fd d
  | MSend d => sz_fd d
  | MSendMsg d => sm_fd _ _ (smz_msg d)
  end.

(** What the kernel promises: packets with a header in order, and no error
    that announces more. *)
Definition multishot_promise (namelen controllen : N) (c : CqeResult) : Prop :=
  well_formed namelen controllen c /\ (more (flags c) = true -> exists n, result_ c = Ok n).
Definition multishot_good (namelen controllen : N) (_ : Kind) (d : M) : Prop :=
  match d with MRecv d => layout_of namelen controllen d | _ => True end.

Lemma record_fd n fl d d' : record n fl d = Ret d' -> rm_fd d' = rm_fd d.
Proof.
  unfold record. destruct (buffer_select fl); [|by intros [= <-]].
  intros (r & _ & E)%bind_Ret. by destruct r as [[[a off] len]|e]; simplify_eq.
Qed.

#[export] Instance multishot_key_laws : KeyedLaws M Out FdRef.
Proof.
  split.
  - intros [d|d|d] d' c (x & E & E')%bind_Ret; simplify_eq; cbn in E |- *.
    + destruct (result_ c); [by eapply record_fd|by simplify_eq].
    + apply bind_Ret in E as (n & _ & E). by simplify_eq.
    + apply bind_Ret in E as (n & _ & E). by simplify_eq.
  - intros [d|d|d] d' out ([r x] & E & E')%bind_Ret; simplify_eq; cbn in E; by simplify_eq.
Qed.

(** Without overflow checks the byte count wraps. *)
Context (wraps : overflow_checks = false).
Lemma add_wraps a b : exists n, add_usize a b = Ret n.
Proof. unfold add_usize. rewrite wraps. case_match; eauto. Qed.
Lemma total_wraps bytes c : exists r, total_result bytes c = Ret r.
Proof.
  unfold total_result. destruct (result_ c) as [v|e]; [|eauto].
  destruct (add_wraps bytes v) as [n ->]. cbn. eauto.
Qed.
Lemma more_wraps bytes c n : result_ c = Ok n -> exists m, more_bytes bytes c = Ret m.
Proof. intros E. unfold more_bytes. rewrite E. apply add_wraps. Qed.

(** Whatever the kernel does within its promise, none of the three kinds of
    operation panics while it consumes its completions. *)
Lemma multishot_laws namelen controllen :
  small_layout namelen controllen ->
  ClientLaws M Out (multishot_promise namelen controllen) (multishot_good namelen controllen).
Proof.
  intros Hs. destruct (recv_laws namelen controllen Hs) as [Hu Hy Hc]. split.
  - intros [d|d|d] c Hd [Hp Hok] Hm; cbn [update multishot_updateable].
    + eapply ret_with_bind; [by apply Hu|done].
    + destruct (Hok Hm) as [n E]. cbn. destruct (more_wraps (sz_bytes d) c n E) as [m ->]. done.
    + destruct (Hok Hm) as [n E]. cbn. destruct (more_wraps (smz_bytes d) c n E) as [m ->]. done.
  - intros [d|d|d] Hd Hy'; cbn [yield_result multishot_updateable]; [|done..].
    eapply ret_with_bind; [by apply Hy|]. by intros [r d'].
  - intros [d|d|d] c Hd [Hp _]; unfold complete, multishot_completable.
    + eapply ret_with_bind; [by apply Hc|done].
    + unfold complete, send_zc_completable. by destruct (total_wraps (sz_bytes d) c) as [r ->].
    + unfold complete, sendmsg_zc_completable. by destruct (total_wraps (smz_bytes d) c) as [r ->].
Qed.

(** * Every operation of the crate *)

(** The data of an operation, as it is kept while the operation is in flight.
    Buffers are of type [V], control data of type [U]. *)
Inductive Operation : Type :=
  | OMulti (d : M)
  | OReadWrite (transform : ReadWriteTransform) (d : ReadWriteData)
  | OReadFixed (d : ReadFixed V)
  | OWriteFixed (d : WriteFixed V)
  | OSendTo (d : SendTo V)
  | OSendMsg (d : SendMsg V U)
  | ORecvFrom (d : RecvFrom V)
  | ORecvMsg (d : RecvMsg V)
  | OAccept (d : Accept)
  | OConnect (d : Connect)
  | OFallocate (d : Fallocate)
  | OFsync (d : Fsync)
  | OStatx (d : Statx)
  | OClose (d : Close)
  | ONoOp (d : NoOp)
  | OProvideBuffers (d : ProvideBuffers)
  | OOpen (d : Open)
  | OMkdir (d : Mkdir)
  | OUnlink (d : Unlink)
  | ORenameAt (d : RenameAt)
  | OSymlink (d : Symlink).

(** What the completion of an operation becomes. *)
Inductive OperationOutput : Type :=
  | OutMulti (r : Out)
  | OutReadWrite (r : BufResult N Buffer)
  | OutCount (r : BufResult N V)
  | OutSent (r : io_result N * list V * option U)
  | OutReceived (r : BufResult (N * SocketAddr) V)
  | OutMessage (r : BufResult (N * SocketAddr) (list V))
  | OutAccepted (r : io_result (FdRef * option SocketAddr))
  | OutDone (r : io_result unit)
  | OutStatx (r : io_result statx_buf)
  | OutOpened (r : io_result FdRef).

Context `{!BoundedBuf V Buffer Bounds} `{!BoundedBufMut V Buffer Bounds}.
(** Plain reads and writes have no [complete]: their transform is applied to
    the completion outside the driver. *)
#[export] Instance operation_completable : Completable Operation OperationOutput := fun d c =>
  match d with
  | OMulti d => r ← complete d c; Ret (OutMulti r)
  | OReadWrite _ _ => Panic (PUnreachable "no impl Completable")
  | OReadFixed d => r ← complete_read_fixed d c; Ret (OutCount r)
  | OWriteFixed d => r ← complete_write_fixed d c; Ret (OutCount r)
  | OSendTo d => r ← complete d c; Ret (OutCount r)
  | OSendMsg d => r ← complete d c; Ret (OutSent r)
  | ORecvFrom d => r ← complete d c; Ret (OutReceived r)
  | ORecvMsg d => r ← complete d c; Ret (OutMessage r)
  | OAccept d => r ← accept_completable d c; Ret (OutAccepted r)
  | OConnect d => r ← complete d c; Ret (OutDone r)
  | OFallocate d => r ← complete d c; Ret (OutDone r)
  | OFsync d => r ← complete d c; Ret (OutDone r)
  | OStatx d => r ← complete d c; Ret (OutStatx r)
  | OClose d => r ← complete d c; Ret (OutDone r)
  | ONoOp d => r ← complete d c; Ret (OutDone r)
  | OProvideBuffers d => r ← complete d c; Ret (OutDone r)
  | OOpen d => r ← complete d c; Ret (OutOpened r)
  | OMkdir d => r ← complete d c; Ret (OutDone r)
  | OUnlink d => r ← complete d c; Ret (OutDone r)
  | ORenameAt d => r ← complete d c; Ret (OutDone r)
  | OSymlink d => r ← complete d c; Ret (OutDone r)
  end.

(** Only the first are [Updateable], and only they can be submitted as
    operations with several completions, which the types of Rust see to. *)
Definition not_updateable : panic := PUnreachable "no impl Updateable".
#[export] Instance operation_updateable : Updateable Operation OperationOutput := {
  update := fun d c =>
    match d with OMulti d => d ← update d c; Ret (OMulti d) | _ => Panic not_updateable end;
  should_yield := fun d => match d with OMulti d => should_yield d | _ => false end;
  yield_result := fun d =>
    match d with
    | OMulti d => '(r, d) ← yield_result d; Ret (OutMulti r, OMulti d)
    | _ => Panic not_updateable
    end;
}.

(** The views that the code makes of a [Buffer]: their size can be asked, and
    any part of them can be declared initialised, which leaves the owner of
    the memory alone. *)
Class ViewLaws (valid : V -> Prop) : Prop := {
  view_total v : valid v -> exists n, bytes_total v = Ret n;
  view_inits v n : valid v -> exists v', set_init n v = Ret v' /\ valid v';
  view_owner v n v' : set_init n v = Ret v' -> user_data (get_buf v') = user_data (get_buf v);
}.
Context (valid : V -> Prop).

(** What the owner of the buffers promises when they are submitted to be read
    into. *)
Definition operation_valid (d : Operation) : Prop :=
  match d with
  | OReadWrite _ d => buffer_ok (rw_buf d)
  | OReadFixed d => valid (rfx_buf d)
  | ORecvFrom d => valid (rf_buf d)
  | ORecvMsg d => Forall valid (rmg_bufs d)
  | _ => True
  end.
Definition operation_good (namelen controllen : N) (k : Kind) (d : Operation) : Prop :=
  match k, d with
  | Multi, OMulti d => multishot_good namelen controllen k d
  | Single, OMulti _ | Multi, _ => False
  | Single, _ => operation_valid d
  end.

Lemma operation_laws namelen controllen :
  small_layout namelen controllen ->
  ClientLaws Operation OperationOutput (multishot_promise namelen controllen)
    (operation_good namelen controllen).
Proof.
  intros Hs. destruct (multishot_laws namelen controllen Hs) as [Hu Hy Hc]. split.
  - intros [d| | | | | | | | | | | | | | | | | | | |] c Hd Hp Hm; [|by destruct Hd..].
    eapply ret_with_bind; [by apply Hu|done].
  - intros [d| | | | | | | | | | | | | | | | | | | |] Hd Hyd; [|by destruct Hd..].
    eapply ret_with_bind; [by apply Hy|]. by intros [r d'].
  - intros [d| | | | | | | | | | | | | | | | | | | |] c Hd Hp; [|by destruct Hd..].
    eapply ret_with_bind; [by apply Hc|done].
Qed.

(** The descriptor that an operation has cloned; [close], the operations on
    paths and those without a file have none. *)
Definition operation_fd (d : Operation) : option FdRef :=
  match d with
  | OMulti d => Some (key d)
  | OReadWrite _ d => Some (rw_fd d)
  | OReadFixed d => Some (rfx_fd _ d)
  | OWriteFixed d => Some (wfx_fd _ d)
  | OSendTo d => Some (st_fd _ d)
  | OSendMsg d => Some (sm_fd _ _ d)
  | ORecvFrom d => Some (rf_fd _ d)
  | ORecvMsg d => Some (rmg_fd _ d)
  | OAccept d => Some (ac_fd d)
  | OConnect d => Some (cn_fd d)
  | OFallocate d => Some (fl_fd d)
  | OFsync d => Some (fs_fd d)
  | OStatx d => sx_fd d
  | OClose _ | ONoOp _ | OProvideBuffers _ | OOpen _ | OMkdir _ | OUnlink _ | ORenameAt _
  | OSymlink _ => None
  end.
#[export] Instance operation_key : Keyed Operation (option FdRef) := operation_fd.
#[export] Instance operation_key_laws : KeyedLaws Operation OperationOutput (option FdRef).
Proof.
  split.
  - intros [d| | | | | | | | | | | | | | | | | | | |] d' c; try done.
    intros (x & E & E')%bind_Ret. simplify_eq. apply (f_equal Some). by eapply update_key.
  - intros [d| | | | | | | | | | | | | | | | | | | |] d' out; try done.
    intros ([r x] & E & E')%bind_Ret. simplify_eq. apply (f_equal Some). by eapply yield_key.
Qed.
End clients.
Arguments OutMulti {Sa V U} r.
Arguments OutReadWrite {Sa V U} r.
Arguments OutCount {Sa V U} r.
Arguments OutSent {Sa V U} r.
Arguments OutReceived {Sa V U} r.
Arguments OutMessage {Sa V U} r.
Arguments OutAccepted {Sa V U} r.
Arguments OutDone {Sa V U} r.
Arguments OutStatx {Sa V U} r.
Arguments OutOpened {Sa V U} r.

(** * The views of the crate *)
Section views.
Context {Prof : Profile}.

Lemma init_iovecs_user vs cs pos (b b' : Buffer) :
  (iovs ← set_init_iovecs vs cs pos; Ret (with_iovecs iovs b)) = Ret b' ->
  user_data b' = user_data b.
Proof. intros (iovs & _ & E)%bind_Ret. by simplify_eq. Qed.

(** A whole buffer. *)
#[export] Instance whole_buffer : ViewLaws (V := Buffer) (Bounds := unit) buffer_ok.
Proof.
  split.
  - intros v Hv. eexists. by apply buffer_bytes_total.
  - intros v n Hv. destruct (buffer_set_init_parts v n Hv) as (v' & E & Hv' & _). by exists v'.
  - intros v n v' E. cbn in E. by eapply init_iovecs_user.
Qed.

(** A part of one; without overflow checks, whatever its bounds. *)
Lemma part_of_buffer :
  overflow_checks = false ->
  ViewLaws (V := Slice Buffer) (Bounds := N * N) (fun s => buffer_ok (sl_buf s)).
Proof.
  intros Hw. split.
  - intros v Hv. cbn. unfold sub_usize. rewrite Hw. case_match; eauto.
  - intros v n Hv. cbn. destruct (add_wraps Hw (sl_begin v) n) as [p ->]. cbn [mbind outcome_bind].
    destruct (buffer_set_init_parts (sl_buf v) p Hv) as (b & E & Hb & _). cbn in E. rewrite E.
    eexists. by split.
  - intros v n v' E. cbn in E. apply bind_Ret in E as (p & _ & E).
    apply bind_Ret in E as (b & E & E'). simplify_eq. by eapply init_iovecs_user.
Qed.
End views.
