(* ===== verification/Answers.v ===== *)
(** The answers of the operations of [src/src/io/], in the driver. When the
    future of a single-shot operation is polled and its completion is there,
    [Driver::poll_op] hands it to [Completable::complete], and
    [InFlightOneshot::poll] to the transform of a read or write. Here polls do
    so, next to the state of [System.v] and [Descriptor.v]: what the kernel
    wrote into the boxes of an operation is kept from its completion to its
    poll. *)
From S2P Require Import Prelude Slab IoUring SlabList Op Driver DriverSpec System SharedFd Ownership.
From S2P Require Import Descriptor Buf Buffer BufSpec Types Compat Libc OpenOptions ReadWrite RecvMultishot.
From S2P Require Import IoOps Messages Clients.

(** What the kernel writes besides the completion: an address with its
    length, the structure of [statx]. *)
Record Wrote : Type := mkWrote {
  wr_name : list byte; wr_namelen : N; wr_statx : statx_buf;
}.
Definition nothing_written : Wrote := mkWrote [] 0 zeroed_statx.

Section answers.
Context {Prof : Profile} {Cq : Cqueue} {Lc : Libc} {Sa : SockAddrs} {Sf : SockAddrFrom} {Bp : BufferProvider}.
Context {V U : Type} `{!BoundedBuf V Buffer Bounds} `{!BoundedBufMut V Buffer Bounds}.
Context `{!SlabOps slab}.
Abbreviation Op := (Operation (V := V) (U := U)).
Abbreviation Output := (OperationOutput (V := V) (U := U)).
Abbreviation Sys := (sys slab Op).
Implicit Types (d : Op) (s : Sys).

(** The data of an operation with what the kernel wrote into its boxes. *)
Definition written (w : Wrote) d : Op :=
  match d with
  | ORecvFrom d =>
      ORecvFrom (mkRecvFrom (rf_fd _ d) (rf_buf d) (rf_slices _ d) (wr_name w) (rf_msghdr _ d))
  | ORecvMsg d =>
      ORecvMsg (mkRecvMsg (rmg_fd _ d) (rmg_bufs d) (rmg_slices _ d) (wr_name w) (rmg_msghdr _ d))
  | OAccept d => OAccept (mkAccept (ac_fd d) (wr_name w) (wr_namelen w))
  | OStatx d => OStatx (mkStatxData (sx_fd d) (sx_path d) (wr_statx w))
  | _ => d
  end.

(** Polling operation [i]: [InFlightOneshot::poll] for a plain read or write,
    [Driver::poll_op] for any other. *)
Definition poll_single (i : N) d (cx : Waker) (o : Ops slab) : outcome (Poll Output * Ops slab) :=
  match d with
  | OReadWrite t d =>
      '(p, o) ← poll_op_2 i cx o;
      match p with
      | Pending => Ret (Pending, o)
      | Ready c => r ← transform_oneshot_output t d c; Ret (Ready (OutReadWrite r), o)
      end
  | _ => '(p, _, o) ← poll_op (mkOp i (Some d)) cx o; Ret (p, o)
  end.

Definition ready {A} (p : Poll A) : option A :=
  match p with Ready a => Some a | Pending => None end.

(** What the writes of the kernel, by operation, and an event answer. *)
Definition written_at (ws : gmap N Wrote) (i : N) : Wrote := default nothing_written (ws !! i).
Definition answer (ws : gmap N Wrote) s (e : event Op) : outcome (option Output) :=
  match e with
  | EPoll h cx =>
      match s_handles s !! h with
      | Some (HSingle i d) =>
          '(p, _) ← poll_single i (written (written_at ws i) d) cx (s_ops s); Ret (ready p)
      | Some (HMulti op) =>
          '(p, _, _, _) ← poll_multishot_op op cx (s_ops s); Ret (ready p)
      | None => Ret None
      end
  | _ => Ret None
  end.
Definition wrote_after (e : event Op) (w : Wrote) (ws : gmap N Wrote) : gmap N Wrote :=
  match e with ECompletion i _ => <[i := w]> ws | _ => ws end.

(** A message from a datagram socket carries the address of its sender. *)
Definition answer_promise (w : Wrote) d (c : CqeResult) : Prop :=
  match d, result_ c with
  | (ORecvFrom _ | ORecvMsg _), Ok _ => is_Some (as_socket (wr_name w))
  | _, _ => True
  end.
Definition answer_enabled s (e : event Op) (w : Wrote) : Prop :=
  match e with
  | ECompletion i c => forall h d,
      s_handles s !! h = Some (HSingle i d) -> answer_promise w d (pure_result c)
  | _ => True
  end.
End answers.

(** * A completion in the table was posted for the operation that is there *)
Section posted.
Context {Prof : Profile} {Cq : Cqueue} `{!SlabOps slab} `{!SlabLaws slab}.
Context {T Output : Type} `{!Completable T Output} `{!Updateable T Output}.
Context (promise : CqeResult -> Prop) (good : Kind -> T -> Prop) `{!ClientLaws T Output promise good}.
Implicit Types (s : sys slab T) (a : aops).

Lemma related_completed (o : Ops slab) a i c :
  related o a -> get_mut i o = Some (Completed c) <-> a !! i = Some (ACompleted c).
Proof.
  intros [own H]. unfold get_mut. rewrite slab_get_view.
  destruct (related_cases _ _ _ i H) as [(-> & -> & _)|(lc & al & -> & -> & Hr)]; [done|].
  destruct lc, al; cbn in Hr; try done. destruct Hr as [-> _].
  split; intros E; injection E; by intros ->.
Qed.

(** No step of the table makes a completion, but for [a_complete]. *)
Definition no_new_completion a a' : Prop :=
  forall j c, a' !! j = Some (ACompleted c) -> a !! j = Some (ACompleted c).
Lemma no_new_set a i al :
  match al with ACompleted _ => False | _ => True end -> no_new_completion a (<[i := al]> a).
Proof. by intros Hal j c [[_ ->]|[_ ?]]%lookup_insert_Some. Qed.
Lemma no_new_delete a i : no_new_completion a (delete i a).
Proof. by intros j c [_ ?]%lookup_delete_Some. Qed.
Lemma no_new_refl a : no_new_completion a a.
Proof. by intros j c. Qed.
Hint Resolve no_new_set no_new_delete no_new_refl : core.

Lemma no_new_wait a i cx al :
  match al with ASubmitted | AWaiting _ => True | _ => False end ->
  no_new_completion a (<[i := a_wait_with cx al]> a).
Proof. intros Hal. apply no_new_set. destruct al; try done. cbn. by destruct (negb _). Qed.

Lemma no_new_poll_2 i cx a p a' : a_poll_2 i cx a = Ret (p, a') -> no_new_completion a a'.
Proof.
  unfold a_poll_2. intros (al & _ & E)%bind_Ret.
  destruct al as [|w| | |]; simplify_eq; auto.
  exact (no_new_wait a i cx (AWaiting w) I).
Qed.
Lemma no_new_remove {D} i (d : D) a a' : a_remove i d a = Ret a' -> no_new_completion a a'.
Proof.
  unfold a_remove. destruct (a !! i) as [[]|] eqn:E; intros E'; simplify_eq; auto; try done.
  apply bind_Ret in E' as ([] & _ & E'); simplify_eq; auto.
Qed.
Lemma no_new_poll_multishot (op : Op T) cx a p op' a' w :
  a_poll_multishot (Output := Output) op cx a = Ret (p, op', a', w) -> no_new_completion a a'.
Proof.
  unfold a_poll_multishot. intros (d & _ & E)%bind_Ret.
  destruct (a !! op_index op) as [[|w0|b|c|xs]|] eqn:Ei; [..|by apply bind_Ret in E as (? & _ & E); simplify_eq].
  - simplify_eq. auto.
  - simplify_eq. exact (no_new_wait a _ cx (AWaiting w0) I).
  - done.
  - apply bind_Ret in E as (? & _ & E). apply bind_Ret in E as (? & _ & E). by simplify_eq; auto.
  - apply bind_Ret in E as (r & _ & E). destruct r as [d' rest|d' c|d'].
    + apply bind_Ret in E as ([out d2] & _ & E). destruct rest; simplify_eq; auto.
    + apply bind_Ret in E as (? & _ & E). simplify_eq; auto.
    + simplify_eq; auto.
Qed.
Lemma new_complete i c a a' w j c' :
  a_complete i c a = Ret (a', w) -> a' !! j = Some (ACompleted c') ->
  a !! j = Some (ACompleted c') \/ j = i /\ c' = c.
Proof.
  unfold a_complete, received.
  destruct (a !! i) as [[]|] eqn:Ei; intros E Hj; repeat case_match; simplify_eq; auto;
    first [apply lookup_insert_Some in Hj as [[<- [= <-]]|[_ ?]]|apply lookup_delete_Some in Hj as [_ ?]]; auto.
Qed.

Lemma completed_before s e s' j c :
  sys_inv promise good s -> enabled promise good s e -> run_event (Output := Output) s e = Ret s' ->
  get_mut j (s_ops s') = Some (Completed c) ->
  get_mut j (s_ops s) = Some (Completed c) \/ e = ECompletion j c.
Proof.
  intros (a & Hr & Ha & Hg) He E Hj.
  assert (Hfin : forall a', related (s_ops s') a' -> no_new_completion a a' ->
            get_mut j (s_ops s) = Some (Completed c) \/ e = ECompletion j c).
  { intros a' Hr' Hn. left. by apply (related_completed _ _ _ _ Hr), Hn, (related_completed _ _ _ _ Hr'). }
  destruct e as [h k d|i c'|h cx|h].
  - cbn in E. apply bind_Ret in E as ([i o] & E & E'). simplify_eq.
    pose proof (insert_spec _ _ Hr) as Hi. rewrite E in Hi. destruct Hi as (_ & _ & Ho).
    by apply (Hfin _ Ho), no_new_set.
  - destruct He as (Hc & _). cbn in E. apply bind_Ret in E as ([o w] & E & E'). simplify_eq.
    pose proof (complete_refines _ _ i c' Hr Hc) as HR. rewrite E in HR.
    destruct (a_complete i c' a) as [[a' w']| | |] eqn:Ea; try done. destruct HR as [_ Ho].
    apply (related_completed _ _ _ _ Ho) in Hj.
    destruct (new_complete _ _ _ _ _ _ _ Ea Hj) as [?|[-> ->]]; [left|by right].
    by apply (related_completed _ _ _ _ Hr).
  - destruct He as (hd & Hh & _). cbn in E. rewrite Hh in E. destruct hd as [i d|op].
    + apply bind_Ret in E as ([p o] & E & E'). simplify_eq.
      pose proof (poll_2_refines _ _ i cx Hr) as HR. rewrite E in HR.
      destruct (a_poll_2 i cx a) as [[p' a']| | |] eqn:Ea; try done. destruct HR as [_ Ho].
      apply (Hfin _ Ho). by eapply no_new_poll_2.
    + apply bind_Ret in E as ([[[p op'] o] w] & E & E'). simplify_eq.
      pose proof (poll_multishot_refines (Output := Output) _ _ op cx Hr) as HR. rewrite E in HR.
      destruct (a_poll_multishot op cx a) as [[[[p' op''] a'] w']| | |] eqn:Ea; try done.
      destruct HR as (_ & _ & _ & Ho). apply (Hfin _ Ho). by eapply no_new_poll_multishot.
  - destruct He as [hd Hh]. destruct (live hd) as [[i k]|] eqn:Hl.
    + destruct (drop_event_live (Output := Output) s h hd i k Hh Hl) as (D & data & _ & Ee).
      rewrite Ee in E. apply bind_Ret in E as (o & E & E'). simplify_eq.
      pose proof (remove_2_refines _ _ i data Hr) as HR. rewrite E in HR.
      destruct (a_remove i data a) as [a'| | |] eqn:Ea; try done. apply (Hfin _ HR).
      by eapply no_new_remove.
    + rewrite (drop_event_finished s h hd Hh Hl) in E. simplify_eq. by left.
Qed.

(** A single-shot handle was there, or is new. *)
Lemma single_before s e s' h i d :
  run_event (Output := Output) s e = Ret s' -> s_handles s' !! h = Some (HSingle i d) ->
  s_handles s !! h = Some (HSingle i d) \/
  exists k o, e = ESubmit h k d /\ ops_insert (s_ops s) = Ret (i, o) /\ s_ops s' = o.
Proof.
  intros E Hh. destruct e as [h' k d'|i' c|h' cx|h'].
  - cbn in E. apply bind_Ret in E as ([j o] & E & E'). simplify_eq. cbn in Hh.
    apply lookup_insert_Some in Hh as [[<- Hk]|[_ ?]]; [|by left].
    right. destruct k; simplify_eq. by do 2 eexists.
  - cbn in E. apply bind_Ret in E as ([o w] & _ & E). simplify_eq. by left.
  - left. cbn in E. destruct (s_handles s !! h') as [[j d'|op]|]; [..|by simplify_eq].
    + apply bind_Ret in E as ([p o] & _ & E). simplify_eq. cbn in Hh.
      destruct p; [by apply lookup_delete_Some in Hh as [_ ?]|done].
    + apply bind_Ret in E as ([[[p op'] o] w] & _ & E). simplify_eq. cbn in Hh.
      by apply lookup_insert_Some in Hh as [[_ ?]|[_ ?]].
  - left. cbn in E. destruct (s_handles s !! h') as [[j d'|op]|]; [..|by simplify_eq].
    + apply bind_Ret in E as (o & _ & E). simplify_eq. cbn in Hh. by apply lookup_delete_Some in Hh as [_ ?].
    + apply bind_Ret in E as ([op' o] & _ & E). simplify_eq. cbn in Hh. by apply lookup_delete_Some in Hh as [_ ?].
Qed.

(** The completion that waits for a handle. *)
Lemma completion_ok s i c :
  sys_inv promise good s -> get_mut i (s_ops s) = Some (Completed c) -> cqe_ok c.
Proof.
  intros (a & Hr & Ha & _) Hc. apply (related_completed _ _ _ _ Hr) in Hc.
  pose proof (inv_slots _ _ _ _ Ha i) as Hs. unfold slot_ok in Hs. rewrite Hc in Hs.
  by destruct Hs as (ow & _ & _ & _ & ? & _).
Qed.
End posted.

(** * No answer panics *)
Section answered.
Context {Prof : Profile} {Cq : Cqueue} {Lc : Libc} {Sa : SockAddrs} {Sf : SockAddrFrom} {Bp : BufferProvider}.
Context {V U : Type} `{!BoundedBuf V Buffer Bounds} `{!BoundedBufMut V Buffer Bounds}.
Context (valid : V -> Prop) `{!ViewLaws (V := V) (Bounds := Bounds) valid}.
Context `{!SlabOps slab} `{!SlabLaws slab} (namelen controllen : N).
Context (wraps : overflow_checks = false) (small : small_layout namelen controllen).
Abbreviation Op := (Operation (V := V) (U := U)).
Abbreviation Output := (OperationOutput (V := V) (U := U)).
Abbreviation promise := (multishot_promise namelen controllen).
Abbreviation good := (operation_good (V := V) (U := U) valid namelen controllen).
Implicit Types (d : Op) (s : sys slab Op).

Lemma init_all_returns n bufs :
  Forall valid bufs -> ret_with (fun _ => True) (init_all n bufs).
Proof.
  intros Hv. revert n. induction Hv as [|b bufs Hb Hv IH]; intros n; [done|]. cbn.
  destruct (view_inits b n Hb) as (b' & -> & Hb'). destruct (view_total b' Hb') as [total E].
  cbn [mbind outcome_bind]. rewrite E. cbn [mbind outcome_bind].
  destruct (N.ltb_spec total n); [|done]. rewrite sub_usize_Ret by lia. cbn [mbind outcome_bind].
  eapply ret_with_bind; [apply IH|done].
Qed.

(** [Completable::complete] of every single-shot operation. *)
Lemma complete_returns w d c :
  good Single d -> answer_promise w d c ->
  match d with
  | OReadWrite _ _ => True
  | _ => ret_with (fun _ => True) (complete (written w d) c)
  end.
Proof.
  intros Hd Hp. destruct d as [d|t d|d|d|d|d|d|d|d|d|d|d|d|d|d|d|d|d|d|d|d]; try done;
    unfold complete, operation_completable, written; cbn in Hd; unfold answer_promise in Hp.
  - unfold complete_read_fixed. destruct (result_ c) as [n|e]; [|done].
    by destruct (view_inits _ n Hd) as (b & -> & _).
  - unfold complete, recv_from_completable. destruct (result_ c) as [n|e]; [|done]. cbn in Hp |- *.
    destruct Hp as [addr ->]. by destruct (view_inits _ n Hd) as (b & -> & _).
  - unfold complete, recvmsg_completable. destruct (result_ c) as [n|e]; [|done]. cbn in Hp |- *.
    destruct Hp as [addr ->]. cbn [unwrap or_panic mbind outcome_bind].
    pose proof (init_all_returns n (rmg_bufs d) Hd) as H. by destruct (init_all n (rmg_bufs d)).
  - unfold accept_completable. by destruct (result_ c).
Qed.
(** The transform of a read or write. *)
Lemma transform_returns (t : ReadWriteTransform) (d : ReadWriteData) c :
  buffer_ok (rw_buf d) -> cqe_ok c -> ret_with (fun _ => True) (transform_oneshot_output t d c).
Proof.
  intros Hd [Hlo Hhi]. unfold transform_oneshot_output, rw_transform.
  destruct (Z.ltb_spec (cqe_result c) 0).
  - unfold neg_i32. destruct (Z.eqb_spec (cqe_result c) (-2147483648)); [lia|done].
  - destruct (rw_kind t); [|done].
    by destruct (buffer_set_init_parts (rw_buf d) (usize_of_i32 (cqe_result c)) Hd) as (b & -> & _).
Qed.

Lemma poll_2_ready i cx (o : Ops slab) c o' :
  poll_op_2 i cx o = Ret (Ready c, o') -> get_mut i o = Some (Completed c).
Proof.
  unfold poll_op_2. intros (lc & Hlc & E)%bind_Ret. destruct (get_mut i o) as [lc'|]; [|done].
  cbn in Hlc. simplify_eq. destruct lc; simplify_eq. apply bind_Ret in E as (o1 & _ & E). by simplify_eq.
Qed.

Lemma poll_single_safe w i d cx (o : Ops slab) :
  safe (fun _ => True) (poll_op_2 i cx o) -> good Single d ->
  (forall c, get_mut i o = Some (Completed c) -> cqe_ok c /\ answer_promise w d (pure_result c)) ->
  safe (fun _ => True) (poll_single i (written w d) cx o).
Proof.
  intros Ho Hd Hc.
  assert (Hr : forall c o', poll_op_2 i cx o = Ret (Ready c, o') ->
            cqe_ok c /\ answer_promise w d (pure_result c)).
  { intros c o' E. by eapply Hc, poll_2_ready. }
  assert (Hop : (forall c, answer_promise w d c -> ret_with (fun _ => True) (complete (written w d) c)) ->
            safe (fun _ => True) ('(p, _, o) ← poll_op (mkOp i (Some (written w d))) cx o; Ret (p, o))).
  { intros H. rewrite poll_op_as. cbn [op_index op_data].
    destruct (poll_op_2 i cx o) as [[[c|] o']|[]| |]; try done. destruct (Hr c o' eq_refl) as [Hk Hp].
    cbn. rewrite from_cqe_ok by done. cbn [mbind outcome_bind]. specialize (H _ Hp).
    by destruct (complete (written w d) (pure_result c)). }
  pose proof (fun c => complete_returns w d c Hd) as H.
  destruct d as [d|t d|d|d|d|d|d|d|d|d|d|d|d|d|d|d|d|d|d|d|d]; try exact (Hop H). cbn [written poll_single].
  destruct (poll_op_2 i cx o) as [[[c|] o']|[]| |]; try done. destruct (Hr c o' eq_refl) as [Hk _].
  cbn [mbind outcome_bind]. pose proof (transform_returns t d c Hd Hk) as Ht.
  by destruct (transform_oneshot_output t d c).
Qed.

(** What the kernel promised of a completion, when it waits for a handle. *)
Definition answers_ok s (ws : gmap N Wrote) : Prop := forall h i d c,
  s_handles s !! h = Some (HSingle i d) -> get_mut i (s_ops s) = Some (Completed c) ->
  answer_promise (written_at ws i) d (pure_result c).

Lemma answers_step s e w ws s' :
  sys_inv promise good s -> enabled promise good s e -> answer_enabled s e w ->
  run_event (Output := Output) s e = Ret s' -> answers_ok s ws -> answers_ok s' (wrote_after e w ws).
Proof.
  pose proof (operation_laws (V := V) (U := U) wraps valid namelen controllen small) as Hl.
  intros Hs He Hw E Ha h i d c Hh Hc.
  destruct (completed_before promise good s e s' i c Hs He E Hc) as [Hb| ->].
  - destruct (single_before s e s' h i d E Hh) as [Hh'|(k & o & -> & Ei & Eo)].
    + assert (Hn : forall c', e <> ECompletion i c').
      { intros c' ->. destruct Hs as (a & Hr & Hai & _). destruct He as (_ & _ & Hk).
        apply (related_completed _ _ _ _ Hr) in Hb. pose proof (inv_slots _ _ _ _ Hai i) as Hsl.
        unfold slot_ok in Hsl. rewrite Hb in Hsl. destruct Hsl as (ow & _ & Hn & _).
        by rewrite Hn in Hk. }
      replace (written_at (wrote_after e w ws) i) with (written_at ws i); [by apply (Ha h)|].
      unfold written_at, wrote_after. destruct e as [| j c'| |]; try done.
      rewrite lookup_insert_ne; [done|]. intros ->. by destruct (Hn c').
    + destruct Hs as (a & Hr & _). pose proof (insert_spec _ _ Hr) as Hi. rewrite Ei in Hi.
      destruct Hi as (Hi & _). apply (related_completed _ _ _ _ Hr) in Hb. congruence.
  - assert (Hh' : s_handles s !! h = Some (HSingle i d)).
    { destruct (single_before s _ s' h i d E Hh) as [?|(? & ? & ? & _)]; done. }
    unfold written_at. cbn. rewrite lookup_insert_eq. by apply (Hw h).
Qed.

Lemma answer_safe s e ws :
  sys_inv promise good s -> enabled promise good s e -> answers_ok s ws ->
  safe (fun _ => True) (answer ws s e).
Proof.
  pose proof (operation_laws (V := V) (U := U) wraps valid namelen controllen small) as Hl.
  intros Hs He Ha. pose proof (event_inv promise good s e Hs He) as Hev.
  destruct e as [| |h cx|]; try done. cbn in *. destruct (s_handles s !! h) as [[i d|op]|] eqn:Hh; [| |done].
  - eapply safe_bind; [|by intros [p o]]. apply poll_single_safe.
    + by destruct (poll_op_2 i cx (s_ops s)) as [[]|[]| |].
    + destruct Hs as (a & _ & _ & Hg). exact (Hg _ _ Hh).
    + intros c Hc. split; [by eapply completion_ok|by apply (Ha h)].
  - by destruct (poll_multishot_op op cx (s_ops s)) as [[[[p op'] o] w]|[]| |].
Qed.
End answered.

(** * Operations on a descriptor *)
Section client.
Context {Prof : Profile} {Cq : Cqueue} {Lc : Libc} {Sa : SockAddrs} {Sf : SockAddrFrom} {Bp : BufferProvider}.
Context {V U : Type} `{!BoundedBuf V Buffer Bounds} `{!BoundedBufMut V Buffer Bounds}.
Context `{!SlabOps slab}.
Abbreviation Op := (Operation (V := V) (U := U)).
Abbreviation Output := (OperationOutput (V := V) (U := U)).
Abbreviation D := (desc (slab := slab) (T := Op) (K := option FdRef)).

(** A descriptor and the driver, and what the kernel wrote. *)
Record client : Type := mkClient { c_desc : D; c_wrote : gmap N Wrote }.
Definition client_new (fd : Z) : client := mkClient (desc_new fd) ∅.

Context (mine : FdRef).
(** An event, with what the kernel writes when it is a completion; a poll
    gives its answer. *)
Definition run_client (c : client) (ev : desc_event (T := Op)) (w : Wrote) :
    outcome (client * option Output * list Waker) :=
  out ← match ev with
        | DDriver e => answer (c_wrote c) (d_sys (c_desc c)) e
        | _ => Ret None
        end;
  '(d, woken) ← run_desc (Output := Output) (Some mine) (c_desc c) ev;
  let ws := match ev with DDriver e => wrote_after e w (c_wrote c) | _ => c_wrote c end in
  Ret (mkClient d ws, out, woken).

Context (promise : CqeResult -> Prop) (good : Kind -> Op -> Prop).
Definition client_enabled (c : client) (ev : desc_event (T := Op)) (w : Wrote) : Prop :=
  desc_enabled (Some mine) promise good (c_desc c) ev /\
  match ev with
  | DDriver e => answer_enabled (d_sys (c_desc c)) e w
  | DPollClose fuel _ _ => fuel <> 0%nat
  | _ => True
  end.
Inductive client_reachable : client -> Prop :=
  | client_starts : client_reachable (client_new (fr_fd mine))
  | client_steps c ev w c' out woken :
      client_reachable c -> client_enabled c ev w ->
      run_client c ev w = Ret (c', out, woken) -> client_reachable c'.

Lemma run_client_desc c ev w c' out woken :
  run_client c ev w = Ret (c', out, woken) ->
  run_desc (Output := Output) (Some mine) (c_desc c) ev = Ret (c_desc c', woken) /\
  c_wrote c' = match ev with DDriver e => wrote_after e w (c_wrote c) | _ => c_wrote c end.
Proof.
  unfold run_client. intros (o & _ & E)%bind_Ret. apply bind_Ret in E as ([d wk] & E & E').
  by simplify_eq.
Qed.
Lemma client_desc c :
  client_reachable c ->
  desc_reachable (Output := Output) (Some mine) promise good (fr_fd mine) (c_desc c).
Proof.
  induction 1 as [|c ev w c' out woken _ IH [He _] E]; [apply desc_starts|].
  apply run_client_desc in E as [E _]. by eapply desc_steps.
Qed.
End client.
Arguments mkClient {Sa V U slab} c_desc c_wrote.

Section safe_clients.
Context {Prof : Profile} {Cq : Cqueue} {Lc : Libc} {Sa : SockAddrs} {Sf : SockAddrFrom} {Bp : BufferProvider}.
Context {V U : Type} `{!BoundedBuf V Buffer Bounds} `{!BoundedBufMut V Buffer Bounds}.
Context (valid : V -> Prop) `{!ViewLaws (V := V) (Bounds := Bounds) valid}.
Context `{!SlabOps slab} `{!SlabLaws slab} (namelen controllen : N).
Context (wraps : overflow_checks = false) (small : small_layout namelen controllen).
Abbreviation promise := (multishot_promise namelen controllen).
Abbreviation good := (operation_good (V := V) (U := U) valid namelen controllen).
Abbreviation C := (client (slab := slab) (V := V) (U := U)).

Lemma client_answers mine (c : C) :
  client_reachable mine promise good c -> answers_ok (d_sys (c_desc c)) (c_wrote c).
Proof.
  pose proof (operation_laws (V := V) (U := U) wraps valid namelen controllen small) as Hl.
  induction 1 as [|c ev w c' out woken Hc IH [He Hw] E].
  { intros h i d x Hh. cbn in Hh. by rewrite lookup_empty in Hh. }
  apply client_desc in Hc. destruct (desc_reachable_inv promise good _ _ _ Hc) as [sent Hd].
  apply run_client_desc in E as [E ->]. destruct ev as [| |fuel r cx|e]; cbn in E.
  - injection E as <- _. exact IH.
  - destruct (drop_shared (d_inner (c_desc c))). injection E as <- _. exact IH.
  - apply bind_Ret in E as ([p i] & _ & E). injection E as <- _. exact IH.
  - apply bind_Ret in E as (s & E & E').
    assert (Hs : d_sys (c_desc c') = s).
    { destruct e; [|destruct (drop_many _ _)..]; by injection E' as <- _. }
    rewrite Hs. apply (answers_step valid namelen controllen wraps small (d_sys (c_desc c)) e w); try done.
    + apply (own_sys _ _ _ _ _ (di_own _ _ _ _ _ _ Hd)).
    + apply He.
Qed.

(** C26. The operations of the crate are safe together. The crate is built without
    overflow checks. Whatever clients, kernel and the owners of a file or
    socket do within their promises, with any mix of operations, of one or
    several completions, each of which is handed to the operation's own
    [complete] or transform: nothing panics; while the kernel works on an
    operation, the data that was submitted, with its own clone of the
    descriptor, is owned by its future or by the driver; and a descriptor
    that it uses has not been closed. *)
Theorem operations_safe (mine : FdRef) (c : C) :
  client_reachable mine promise good c ->
  (forall ev w, client_enabled mine promise good c ev w ->
     safe (fun _ => True) (run_client mine c ev w)) /\
  (forall i k, s_kernel (d_sys (c_desc c)) !! i = Some k -> exists fd,
     d_kept (c_desc c) !! i = Some fd /\ held (d_sys (c_desc c)) i fd /\
     (fd = Some mine -> i_log (d_inner (c_desc c)) = [] /\ i_state (d_inner (c_desc c)) <> Closed)).
Proof.
  pose proof (operation_laws (V := V) (U := U) wraps valid namelen controllen small) as Hl.
  intros Hc. pose proof (client_answers mine c Hc) as Ha. apply client_desc in Hc as Hr.
  destruct (desc_reachable_inv promise good _ _ _ Hr) as [sent Hd]. split.
  - intros ev w [He Hw]. unfold run_client. apply (safe_bind (fun _ => True)).
    + destruct ev as [| | |e]; try done. apply (answer_safe valid namelen controllen wraps small); [|apply He|done].
      apply (own_sys _ _ _ _ _ (di_own _ _ _ _ _ _ Hd)).
    + intros out _. apply (safe_bind (fun _ => True)); [|by intros [d woken]].
      apply (desc_event_safe promise good (Some mine) (fr_fd mine)); [done|done|by destruct ev].
  - intros i k Hi. destruct (in_flight_held _ _ _ _ _ _ _ (di_own _ _ _ _ _ _ Hd) Hi) as (fd & Hk & _ & Hh).
    exists fd. split; [done|]. split; [done|]. intros ->.
    by apply (desc_in_use promise good (Some mine) (fr_fd mine) (c_desc c) sent i).
Qed.
End safe_clients.

(** * Runs *)
Section client_runs.
Context {Prof : Profile} {Cq : Cqueue} {Lc : Libc} {Sa : SockAddrs} {Sf : SockAddrFrom} {Bp : BufferProvider}.
Context {V U : Type} `{!BoundedBuf V Buffer Bounds} `{!BoundedBufMut V Buffer Bounds}.
Context `{!SlabOps slab} (mine : FdRef).
Context (promise : CqeResult -> Prop) (good : Kind -> Operation (V := V) (U := U) -> Prop).
Abbreviation C := (client (slab := slab) (V := V) (U := U)).
Abbreviation Ev := (desc_event (T := Operation (V := V) (U := U))).

Fixpoint run_clients (c : C) (evs : list (Ev * Wrote)) : outcome C :=
  match evs with
  | [] => Ret c
  | (ev, w) :: evs => '(c, _, _) ← run_client mine c ev w; run_clients c evs
  end.
Fixpoint clients_allowed (c : C) (evs : list (Ev * Wrote)) : Prop :=
  match evs with
  | [] => True
  | (ev, w) :: evs => client_enabled mine promise good c ev w /\
                      match run_client mine c ev w with
                      | Ret (c, _, _) => clients_allowed c evs
                      | _ => True
                      end
  end.
Lemma clients_reachable c evs c' :
  client_reachable mine promise good c -> clients_allowed c evs ->
  run_clients c evs = Ret c' -> client_reachable mine promise good c'.
Proof.
  revert c. induction evs as [|[ev w] evs IH]; intros c Hc Ha E; cbn in *; [by simplify_eq|].
  destruct Ha as [He Ha]. destruct (run_client mine c ev w) as [[[c1 out] woken]| | |] eqn:E1; try done.
  apply (IH c1); [|done..]. by apply (client_steps _ _ _ c ev w c1 out woken).
Qed.
End client_runs.

(** ** Two receives, a send and a read on one socket that is closed meanwhile *)
Module Both.
Import RecvMultishot.Socket.
#[local] Existing Instance release_profile.
Abbreviation Op := (Operation (V := Buffer) (U := VecU8)).
Abbreviation C := (client (slab := gmap N) (V := Buffer) (U := VecU8)).
Abbreviation promise := (multishot_promise 8 0).
Abbreviation good := (operation_good (V := Buffer) (U := VecU8) buffer_ok 8 0).
Definition sock : FdRef := mkFdRef 3.
Definition w : Waker := mkWaker 1 0.
Definition buffer (len : N) : Buffer :=
  mkBuffer 9000 [mkIovec 100 len] [8] UdUnit TyVec (fun _ _ _ _ => Ret []).
Definition quiet (ev : desc_event (T := Op)) : desc_event (T := Op) * Wrote := (ev, nothing_written).
Definition asked : RecvFrom Buffer :=
  mkRecvFrom sock (buffer 0) [mkRef 100 8] [] (mkMsgHdr 300 8 200 1 0 0).
Definition sender : Wrote := mkWrote [Byte.x0a; Byte.x00; Byte.x00; Byte.x07] 4 zeroed_statx.

(** The send has put its bytes on the wire and its buffer is still in use
    when its future is dropped; then the socket is closed, and the read and
    the receive of one message end. *)
Definition events : list (desc_event (T := Op) * Wrote) :=
  [quiet DClone; quiet (DDriver (ESubmit 7 Multi (OMulti (MRecv start)))); quiet DClone;
   quiet (DDriver (ESubmit 8 Multi (OMulti (MSend (mkSendZc sock (buffer 5) 0))))); quiet DClone;
   quiet (DDriver (ESubmit 9 Single (OReadWrite (mkRwTransform Read) (mkRwData sock (buffer 0)))));
   quiet DClone; quiet (DDriver (ESubmit 10 Single (ORecvFrom asked)));
   quiet (DDriver (EPoll 7 w)); quiet (DDriver (EPoll 8 w)); quiet (DDriver (ECompletion 1 (Cqe 1 5 2)));
   quiet (DDriver (EDrop 8)); quiet (DPollClose 1 (Ok tt) w); quiet (DDriver (ECompletion 2 (Cqe 2 4 0)));
   (DDriver (ECompletion 3 (Cqe 3 6 0)), sender); quiet (DDriver (EPoll 9 w))].
Definition closing : C :=
  match run_clients sock (client_new 3) events with Ret c => c | _ => client_new 3 end.
Lemma piece_fits len : len <= 8 -> buffer_ok (buffer len).
Proof. intros H. by split; [|repeat constructor|]. Qed.
Lemma closing_reachable : client_reachable sock promise good closing.
Proof.
  apply (clients_reachable sock promise good (client_new 3) events closing);
    [apply client_starts| |vm_compute; reflexivity].
  vm_compute. repeat match goal with |- _ /\ _ => split | |- ex _ => eexists end; auto;
    try discriminate; intros; split_and?; try discriminate; try lia;
    first [apply (piece_fits 0); lia|by eexists|
      match goal with |- match ?d with _ => _ end => destruct d; first [exact I|by eexists] end].
Qed.

(** The next poll takes the message that the kernel has delivered. *)
Definition polling : desc_event (T := Op) := DDriver (EPoll 10 w).
Lemma operations_safe_witness :
  s_kernel (d_sys (c_desc closing)) !! 0 = Some Multi /\
  s_kernel (d_sys (c_desc closing)) !! 1 = Some Multi /\
  i_state (d_inner (c_desc closing)) <> Closed /\
  safe (fun _ => True) (run_client sock closing polling nothing_written) /\
  exists c woken, run_client sock closing polling nothing_written =
    Ret (c, Some (OutReceived (Ok (6, wr_name sender : @SocketAddr demo_addrs, buffer 6))), woken).
Proof.
  destruct (operations_safe (Prof := release_profile) (V := Buffer) (U := VecU8) buffer_ok
              8 0 eq_refl demo_small sock closing closing_reachable) as [Hs H].
  split; [vm_compute; reflexivity|]. split; [vm_compute; reflexivity|]. split; [|split].
  - destruct (H 1 Multi) as (fd & Hk & _ & Hm); [vm_compute; reflexivity|]. apply Hm.
    vm_compute in Hk. injection Hk as <-. reflexivity.
  - apply Hs. split; [split; [|exact I]|exact I].
    eexists. split; [vm_compute; reflexivity|]. exists (3, Single). reflexivity.
  - do 2 eexists. vm_compute. reflexivity.
Defined.
End Both.
