(* ===== verification/ClientBuffers.v ===== *)
(** The registered buffers inside the operations of [src/src/io/]. An
    operation owns the buffers that it was given; those of them that come
    from a pool or a registry ([src/src/buf/fixed/]) are slots of that
    collection. The results of [BufferFlight.v] for the operations of
    [Clients.v], whose polls give the answers of [Answers.v]: what is in the
    answer is in the hands of the task again. *)
From S2P Require Import Prelude Slab IoUring SlabList Op Driver DriverSpec System Ownership.
From S2P Require Import Buf Buffer BufSpec FixedBuf FixedBufSpec Lender BufferFlight.
From S2P Require Import Types Compat Libc OpenOptions ReadWrite RecvMultishot IoOps Messages Clients Answers.

(** A collection by its address. *)
Inductive Collection : Type := PoolAt (a : N) | RegistryAt (a : N).

(** The slot of a buffer in a collection. *)
Definition slot (c : Collection) (b : Buffer) : list N :=
  match c, user_data b with
  | PoolAt a, UdPool info => if decide (pi_pool info = a) then [pi_index info] else []
  | RegistryAt a, UdRegistry info => if decide (ri_registry info = a) then [ri_index info] else []
  | _, _ => []
  end.

Section client_buffers.
Context {Prof : Profile} {Cq : Cqueue} {Lc : Libc} {Sa : SockAddrs} {Sf : SockAddrFrom} {Bp : BufferProvider}.
Context {V U : Type} `{!BoundedBuf V Buffer Bounds} `{!BoundedBufMut V Buffer Bounds}.
Abbreviation Op := (Operation (V := V) (U := U)).

(** The buffers in the data of an operation. *)
Definition operation_buffers (d : Op) : list Buffer :=
  match d with
  | OMulti (MRecv _) => []
  | OMulti (MSend d) => [get_buf (sz_buf d)]
  | OMulti (MSendMsg d) => get_buf <$> sm_bufs (smz_msg d)
  | OReadWrite _ d => [rw_buf d]
  | OReadFixed d => [get_buf (rfx_buf d)]
  | OWriteFixed d => [get_buf (wfx_buf d)]
  | OSendTo d => [get_buf (st_buf d)]
  | OSendMsg d => get_buf <$> sm_bufs d
  | ORecvFrom d => [get_buf (rf_buf d)]
  | ORecvMsg d => get_buf <$> rmg_bufs d
  | _ => []
  end.
(** The buffers that an answer gives back. *)
Definition output_buffers (out : OperationOutput (V := V) (U := U)) : list Buffer :=
  match out with
  | OutMulti (MSent r) => [get_buf (buf_of r)]
  | OutMulti (MSentMsg (_, bufs, _)) => get_buf <$> bufs
  | OutReadWrite r => [buf_of r]
  | OutCount r => [get_buf (buf_of r)]
  | OutSent (_, bufs, _) => get_buf <$> bufs
  | OutReceived r => [get_buf (buf_of r)]
  | OutMessage r => get_buf <$> buf_of r
  | _ => []
  end.
Context (c : Collection).
Definition operation_slots : Keyed Op (list N) := fun d => operation_buffers d ≫= slot c.
Definition output_slots (out : OperationOutput (V := V) (U := U)) : list N :=
  output_buffers out ≫= slot c.
#[local] Existing Instance operation_slots.

Lemma operation_slots_laws : KeyedLaws Op OperationOutput (list N).
Proof.
  assert (H : forall d d', operation_buffers d' = operation_buffers d ->
            operation_slots d' = operation_slots d) by (unfold operation_slots; by intros d d' ->).
  split.
  - intros [d| | | | | | | | | | | | | | | | | | | |] d' e; try done.
    intros (x & E & E')%bind_Ret. simplify_eq. apply H.
    destruct d as [d|d|d]; apply bind_Ret in E as (y & E & E'); simplify_eq; [done|..];
      apply bind_Ret in E as (n & _ & E); by simplify_eq.
  - intros [d| | | | | | | | | | | | | | | | | | | |] d' out; try done.
    intros ([r x] & E & E')%bind_Ret. simplify_eq. apply H.
    destruct d as [d|d|d]; apply bind_Ret in E as ([y z] & E & E'); simplify_eq; [done|..];
      by cbn in E.
Qed.

(** ** What an answer gives back *)
Context (valid : V -> Prop) `{!ViewLaws (V := V) (Bounds := Bounds) valid}.

Lemma slot_owner b b' : user_data b' = user_data b -> slot c b' = slot c b.
Proof. unfold slot. by intros ->. Qed.
Lemma slot_set_init (v v' : V) n : set_init n v = Ret v' -> slot c (get_buf v') = slot c (get_buf v).
Proof. intros E. by eapply slot_owner, view_owner. Qed.
Lemma init_all_slots n (bufs bufs' : list V) :
  init_all n bufs = Ret bufs' -> (get_buf <$> bufs') ≫= slot c = (get_buf <$> bufs) ≫= slot c.
Proof.
  revert n bufs'. induction bufs as [|b bufs IH]; intros n bufs' E; cbn in E; [by simplify_eq|].
  apply bind_Ret in E as (b' & Eb & E). apply bind_Ret in E as (total & _ & E).
  destruct (total <? n); [|simplify_eq; cbn; by rewrite (slot_set_init _ _ _ Eb)].
  apply bind_Ret in E as (m & _ & E). apply bind_Ret in E as (bufs1 & E1 & E). simplify_eq.
  cbn. by rewrite (slot_set_init _ _ _ Eb), (IH _ _ E1).
Qed.
Lemma written_slots w d : operation_slots (written w d) = operation_slots d.
Proof. by destruct d. Qed.
Lemma back_slots {A E} (into : E -> io_error) (b : V) (r : result A E) :
  [get_buf (buf_of (with_buffer into b r))] ≫= slot c = [get_buf b] ≫= slot c.
Proof. by destruct r. Qed.

(** What was submitted comes back, whatever the completion. *)
Lemma complete_slots d e out : complete d e = Ret out -> output_slots out = operation_slots d.
Proof.
  unfold output_slots, operation_slots. unfold complete at 1, operation_completable.
  destruct d as [d|t d|d|d|d|d|d|d|d|d|d|d|d|d|d|d|d|d|d|d|d]; try (intros (r & _ & E)%bind_Ret; by simplify_eq);
    try done; intros (r & Er & E)%bind_Ret; simplify_eq; cbn [output_buffers operation_buffers].
  - destruct d as [d|d|d]; apply bind_Ret in Er as (x & Er & E); simplify_eq; [done|..];
      apply bind_Ret in Er as (n & _ & Er); simplify_eq; [|done]. by rewrite back_slots.
  - apply bind_Ret in Er as (b & Eb & Er). simplify_eq. rewrite back_slots.
    destruct (result_ e); [cbn; by rewrite (slot_set_init _ _ _ Eb)|by simplify_eq].
  - injection Er as <-. apply back_slots.
  - injection Er as <-. apply back_slots.
  - injection Er as <-. done.
  - unfold complete, recv_from_completable in Er. destruct (result_ e); [|by simplify_eq].
    apply bind_Ret in Er as (ad & _ & Er). apply bind_Ret in Er as (b & Eb & Er). simplify_eq.
    cbn. by rewrite (slot_set_init _ _ _ Eb).
  - unfold complete, recvmsg_completable in Er. destruct (result_ e); [|by simplify_eq].
    apply bind_Ret in Er as (ad & _ & Er). apply bind_Ret in Er as (b & Eb & Er). simplify_eq.
    cbn. by apply init_all_slots in Eb.
Qed.
Lemma transform_slots t (d : ReadWriteData) e r :
  transform_oneshot_output t d e = Ret r -> slot c (buf_of r) = slot c (rw_buf d).
Proof.
  unfold transform_oneshot_output, rw_transform. destruct (cqe_result e <? 0)%Z.
  - intros (n & _ & E)%bind_Ret. by simplify_eq.
  - intros (b & Eb & E)%bind_Ret. simplify_eq. cbn. destruct (rw_kind t); [|by simplify_eq].
    cbn in Eb. apply slot_owner. by eapply init_iovecs_user.
Qed.
(** Packets are in buffers of the kernel's choice, and nothing else is
    yielded. *)
Lemma yield_slots d d' out : yield_result d = Ret (out, d') -> output_slots out = [].
Proof.
  destruct d as [[d|d|d]| | | | | | | | | | | | | | | | | | | |]; try done.
  intros ([r x] & E & E')%bind_Ret. simplify_eq. apply bind_Ret in E as ([y z] & _ & E). by simplify_eq.
Qed.
End client_buffers.

(** * What an answered poll frees *)
Section freed.
Context {Prof : Profile} {Cq : Cqueue} `{!SlabOps slab} `{!SlabLaws slab}.
Context {T Output : Type} `{!Completable T Output} `{!Updateable T Output}.
Context (promise : CqeResult -> Prop) (good : Kind -> T -> Prop) `{!ClientLaws T Output promise good}.
Context `{!Keyed T K} `{!KeyedLaws T Output K}.
Implicit Types (s : sys slab T) (a : aops) (hs : gmap N (handle T)) (kept sent : gmap N K).

Lemma handle_key s sent kept h hd i k d :
  own_inv promise good s sent kept -> s_handles s !! h = Some hd -> live hd = Some (i, k) ->
  hd_data hd = Some d -> kept !! i = Some (key d).
Proof.
  intros Ho Hh Hl Hd. destruct (own_sys _ _ _ _ _ Ho) as (a & Hr & Ha & _).
  assert (Hof : of_op i hd) by (apply of_op_live; eauto).
  destruct (own_known _ _ _ _ _ Ho i) as [κ Hκ]; [left; by exists h, hd|].
  destruct (own_held _ _ _ _ _ Ho i κ Hκ) as [_ [(h' & hd' & d' & Hh' & Hi' & Hd' & Hk)|(b & d' & Hb & _)]].
  - apply of_op_live in Hi' as [k' Hl'].
    assert (h' = h) as -> by by eapply (inv_unique _ _ _ _ Ha). congruence.
  - apply (related_ignored _ _ _ _ Hr) in Hb.
    by destruct (ignored_no_owner promise _ _ _ _ _ _ _ Ha Hb Hh Hof).
Qed.

(** The poll of handle [h] of operation [i] turns it into [x]. *)
Lemma poll_holds s o' a a' h hd i k x :
  related (s_ops s) a -> related o' a' -> abs_inv promise a (s_kernel s) (s_handles s) ->
  s_handles s !! h = Some hd -> live hd = Some (i, k) -> (forall j, j <> i -> a' !! j = a !! j) ->
  (forall b, a' !! i <> Some (AIgnored b)) ->
  let s' := mkSys o' (s_kernel s) (partial_alter (fun _ => x) h (s_handles s)) in
  (forall j, j <> i -> holds s j -> holds s' j) /\
  (x ≫= live = None -> ~ holds s' i) /\ (x ≫= live = Some (i, k) -> holds s' i).
Proof.
  intros Hr Hr' Ha Hh Hl Hfr Hn s'.
  assert (Huniq : forall h' hd', s_handles s !! h' = Some hd' -> of_op i hd' -> h' = h).
  { intros h' hd' Hh' [k' Hl']%of_op_live. by eapply (inv_unique _ _ _ _ Ha). }
  split_and!.
  - intros j Hj [(h' & hd' & Hh' & Hi')|Hi]; [left|right].
    + exists h', hd'. cbn. rewrite lookup_partial_alter_ne; [done|]. intros <-.
      apply of_op_live in Hi' as [k' Hl']. congruence.
    + apply (ignored_related _ _ _ Hr) in Hi as [b Hb]. apply (ignored_related _ _ _ Hr').
      exists b. by rewrite Hfr.
  - intros Hx [(h' & hd' & Hh' & Hi')|Hi].
    + cbn in Hh'. destruct (decide (h = h')) as [<-|Hne].
      * rewrite lookup_partial_alter_eq in Hh'. subst x. apply of_op_live in Hi' as [k' Hl'].
        cbn in Hx. congruence.
      * rewrite lookup_partial_alter_ne in Hh' by done. by destruct Hne; symmetry; eapply Huniq.
    + apply (ignored_related _ _ _ Hr') in Hi as [b Hb]. by destruct (Hn b).
  - intros Hx. left. destruct x as [hd'|]; [|done]. exists h, hd'. cbn.
    rewrite lookup_partial_alter_eq. split; [done|]. apply of_op_live. eauto.
Qed.

Lemma gone_one s s' sent kept i κ :
  own_inv promise good s sent kept -> kept !! i = Some κ -> ~ holds s' i ->
  (forall j, j <> i -> holds s j -> holds s' j) ->
  filter (fun ik => ~ holds s' ik.1) kept = {[ i := κ ]}.
Proof.
  intros Ho Hi Hn Hj. apply map_eq. intros j. destruct (decide (j = i)) as [->|Hne].
  - rewrite lookup_singleton_eq. by apply map_lookup_filter_Some.
  - rewrite lookup_singleton_ne by done. apply map_lookup_filter_None. right. intros κ' Hk Hn'.
    apply Hn', Hj; [done|]. destruct (own_held _ _ _ _ _ Ho j κ' Hk) as [_ H]. by eapply held_holds.
Qed.
Lemma gone_none s s' sent kept :
  own_inv promise good s sent kept -> (forall j, holds s j -> holds s' j) ->
  filter (fun ik => ~ holds s' ik.1) kept = ∅.
Proof.
  intros Ho Hj. apply map_eq. intros j. rewrite lookup_empty. apply map_lookup_filter_None. right.
  intros κ Hk Hn. apply Hn, Hj. destruct (own_held _ _ _ _ _ Ho j κ Hk) as [_ H]. by eapply held_holds.
Qed.

(** What an answer of an operation with several completions carries: all of
    the data when it is the last, [nokey] otherwise. *)
Lemma a_poll_answer (outkey : Output -> K) (nokey : K) i d cx a out op a' w :
  (forall d c out, complete d c = Ret out -> outkey out = key (T := T) d) ->
  (forall d out d', yield_result (T := T) d = Ret (out, d') -> outkey out = nokey) ->
  a_poll_multishot (mkOp i (Some d)) cx a = Ret (Ready out, op, a', w) ->
  outkey out = match op_data op with None => key d | Some _ => nokey end.
Proof.
  intros Hc Hy. unfold a_poll_multishot. cbn [op_index op_data or_panic mbind outcome_bind].
  destruct (a !! i) as [[|w0|b|c|xs]|]; try done.
  - intros (r & _ & E)%bind_Ret. apply bind_Ret in E as (x & Ex & E). simplify_eq. by eapply Hc.
  - intros (r & Er & E)%bind_Ret. apply (a_drain_key (K := K)) in Er. destruct r as [d' rest|d' c|d'].
    + apply bind_Ret in E as ([x d2] & Ex & E). destruct rest; simplify_eq; by eapply Hy.
    + apply bind_Ret in E as (x & Ex & E). simplify_eq. cbn. rewrite <- Er. by eapply Hc.
    + done.
  - intros (x & Ex & E)%bind_Ret. simplify_eq. by eapply Hc.
Qed.
End freed.

(** * Answers that tasks take *)
Section hand.
Context {Prof : Profile} {Cq : Cqueue} {Lc : Libc} {Sa : SockAddrs} {Sf : SockAddrFrom} {Bp : BufferProvider}.
Context {Ui : UioMaxIov}.
Context {V U : Type} `{!BoundedBuf V Buffer Bounds} `{!BoundedBufMut V Buffer Bounds}.
Context `{!SlabOps slab} `{!Lender P C} (c : Collection).
Abbreviation Op := (Operation (V := V) (U := U)).
Abbreviation Output := (OperationOutput (V := V) (U := U)).
#[local] Instance slots_here : Keyed Op (list N) := operation_slots c.
Abbreviation F := (fleet (slab := slab) (T := Op) (P := P)).

(** A collection and the driver, and what the kernel wrote. *)
Record hand : Type := mkHand { h_fleet : F; h_wrote : gmap N Wrote }.

(** The buffers of an answer are the task's; when data is dropped instead,
    its buffers have [len] bytes initialised. *)
Inductive hand_event : Type :=
  | HAsk (ask : C)
  | HGive (k : nat) (len : N)
  | HDriver (e : event Op) (w : Wrote) (len : N).
Definition answered (out : option Output) : bool :=
  match out with Some _ => true | None => false end.
Definition run_hand (h : hand) (ev : hand_event) : outcome (hand * option Output) :=
  match ev with
  | HAsk a => f ← run_fleet (Output := Output) (h_fleet h) (FAsk a); Ret (mkHand f (h_wrote h), None)
  | HGive k len =>
      f ← run_fleet (Output := Output) (h_fleet h) (FGive k len); Ret (mkHand f (h_wrote h), None)
  | HDriver e w len =>
      out ← answer (h_wrote h) (f_sys (h_fleet h)) e;
      f ← run_fleet (Output := Output) (h_fleet h) (FDriver e (answered out) len);
      Ret (mkHand f (wrote_after e w (h_wrote h)), out)
  end.

Context (promise : CqeResult -> Prop) (good : Kind -> Op -> Prop).
Definition hand_enabled (h : hand) (ev : hand_event) : Prop :=
  match ev with
  | HAsk a => fleet_enabled promise good (h_fleet h) (FAsk a)
  | HGive k len => fleet_enabled promise good (h_fleet h) (FGive (C := C) k len)
  | HDriver e w len =>
      fleet_enabled promise good (h_fleet h) (FDriver (C := C) e false len) /\
      answer_enabled (f_sys (h_fleet h)) e w
  end.
Inductive hand_reachable (first : P) : hand -> Prop :=
  | hand_starts : hand_reachable first (mkHand (mkFleet sys_init ∅ first []) ∅)
  | hand_steps h ev h' out :
      hand_reachable first h -> hand_enabled h ev -> run_hand h ev = Ret (h', out) ->
      hand_reachable first h'.

Lemma hand_fleet first h :
  hand_reachable first h -> fleet_reachable (Output := Output) promise good first (h_fleet h).
Proof.
  induction 1 as [|h [a|k len|e w len] h' out _ IH He E]; [apply fleet_starts|..]; cbn [run_hand] in E.
  - apply bind_Ret in E as (f & E & E'). simplify_eq. exact (fleet_steps _ _ _ _ _ _ IH He E).
  - apply bind_Ret in E as (f & E & E'). simplify_eq. exact (fleet_steps _ _ _ _ _ _ IH He E).
  - apply bind_Ret in E as (o & _ & E). apply bind_Ret in E as (f & E & E'). simplify_eq.
    exact (fleet_steps _ _ _ _ (FDriver e (answered out) len) _ IH (proj1 He) E).
Qed.
End hand.
Arguments mkHand {Sa V U slab P} h_fleet h_wrote.
Arguments h_fleet {Sa V U slab P} _.
Arguments h_wrote {Sa V U slab P} _.
Arguments HAsk {Sa V U C} ask.
Arguments HGive {Sa V U C} k len.
Arguments HDriver {Sa V U C} e w len.

Section answers_back.
Context {Prof : Profile} {Cq : Cqueue} {Lc : Libc} {Sa : SockAddrs} {Sf : SockAddrFrom} {Bp : BufferProvider}.
Context {Ui : UioMaxIov}.
Context {V U : Type} `{!BoundedBuf V Buffer Bounds} `{!BoundedBufMut V Buffer Bounds}.
Context (valid : V -> Prop) `{!ViewLaws (V := V) (Bounds := Bounds) valid}.
Context `{!SlabOps slab} `{!SlabLaws slab} `{!Lender P C} `{!LenderLaws P C} (c : Collection).
Context (namelen controllen : N).
Context (wraps : overflow_checks = false) (small : small_layout namelen controllen).
Abbreviation Op := (Operation (V := V) (U := U)).
Abbreviation Output := (OperationOutput (V := V) (U := U)).
Abbreviation promise := (multishot_promise namelen controllen).
Abbreviation good := (operation_good (V := V) (U := U) valid namelen controllen).
#[local] Instance slots_here2 : Keyed Op (list N) := operation_slots c.
Abbreviation H := (hand (slab := slab) (V := V) (U := U) (P := P)).

Lemma poll_single_slots w i (d : Op) cx (o o' : Ops slab) out :
  poll_single i (written w d) cx o = Ret (Ready out, o') ->
  output_slots c out = operation_slots c d /\ exists e, poll_op_2 i cx o = Ret (Ready e, o').
Proof.
  assert (Hop : ('(p, _, o) ← poll_op (mkOp i (Some (written w d))) cx o; Ret (p, o)) = Ret (Ready out, o') ->
            output_slots c out = operation_slots c d /\ exists e, poll_op_2 i cx o = Ret (Ready e, o')).
  { rewrite poll_op_as. cbn [op_index op_data]. intros E. apply bind_Ret in E as ([[p x] o1] & E & E').
    simplify_eq. apply bind_Ret in E as ([[e|] o2] & E & E'); [|done]. cbn in E'.
    apply bind_Ret in E' as (r & _ & E'). apply bind_Ret in E' as (y & Ey & E'). simplify_eq.
    split; [|by exists e]. rewrite <- (written_slots c w d). by eapply complete_slots. }
  destruct d as [d|t d|d|d|d|d|d|d|d|d|d|d|d|d|d|d|d|d|d|d|d]; try exact Hop. cbn [written poll_single].
  intros E. apply bind_Ret in E as ([[e|] o1] & E & E'); [|done]. apply bind_Ret in E' as (r & Er & E').
  simplify_eq. split; [|by exists e]. unfold output_slots, operation_slots. cbn [output_buffers operation_buffers].
  cbn. by rewrite (transform_slots c t d e r Er).
Qed.

(** A poll that answers frees what is in the answer, and nothing else. *)
Lemma answer_frees s sent kept ws e out s' :
  own_inv promise good s sent kept -> enabled promise good s e -> answer ws s e = Ret (Some out) ->
  run_event (Output := Output) s e = Ret s' ->
  inside (filter (fun ik => ~ holds s' ik.1) kept) = output_slots c out.
Proof.
  pose proof (operation_laws (V := V) (U := U) wraps valid namelen controllen small) as Hl.
  pose proof (operation_slots_laws (V := V) (U := U) c) as Hk.
  intros Ho He Ea E. destruct (own_sys _ _ _ _ _ Ho) as (a & Hr & Hai & _).
  destruct e as [| |h cx|]; try done. destruct He as (hd & Hh & [[i k] Hlv]). cbn in Ea, E. rewrite Hh in Ea, E.
  destruct hd as [j d|[j [d|]]]; cbn in Hlv; simplify_eq.
  - apply bind_Ret in Ea as ([[out'|] o1] & Ea & E'); [|done]. cbn in E'. simplify_eq.
    apply poll_single_slots in Ea as [-> [x Ex]]. rewrite Ex in E. cbn in E. simplify_eq.
    pose proof (poll_2_refines _ _ i cx Hr) as HR. rewrite Ex in HR.
    destruct (a_poll_2 i cx a) as [[p' a']| | |] eqn:Ep; try done. destruct HR as [Hp Hr'].
    cbn in Hp, Hr'. subst p'. unfold a_poll_2 in Ep. apply bind_Ret in Ep as (al & Hal & Ep).
    destruct al; simplify_eq.
    destruct (poll_holds promise s o1 a (delete i a) h (HSingle i d) i Single None Hr Hr' Hai Hh eq_refl)
      as (H1 & H2 & _).
    { intros j Hj. by apply lookup_delete_ne. } { intros b. by rewrite lookup_delete_eq. }
    rewrite (gone_one promise good s _ sent kept i (operation_slots c d) Ho); [|exact (handle_key promise good s sent kept h _ i Single d Ho Hh eq_refl eq_refl)|by apply H2|done].
    unfold inside. rewrite map_to_list_singleton. cbn. by rewrite app_nil_r.
  - apply bind_Ret in Ea as ([[[p op] o1] w] & Ep & E'). rewrite Ep in E. cbn in E, E'. simplify_eq.
    destruct p as [out'|]; [|done]. cbn in E'. simplify_eq.
    pose proof (poll_multishot_refines (Output := Output) _ _ (mkOp i (Some d)) cx Hr) as HR. rewrite Ep in HR.
    destruct (a_poll_multishot _ cx a) as [[[[p' op'] a'] w']| | |] eqn:Eap; try done.
    destruct HR as (<- & <- & _ & Hr').
    pose proof (a_poll_answer (output_slots c) [] i d cx a out op a' w'
      (complete_slots c valid) (fun d out d' => yield_slots c d d' out) Eap) as Hs.
    apply (a_poll_multishot_key (K := list N)) in Eap as (Hi & Hfr & _ & _ & Hn).
    destruct (poll_holds promise s o1 a a' h _ i Multi (Some (HMulti op)) Hr Hr' Hai Hh eq_refl Hfr Hn)
      as (H1 & H2 & H3).
    rewrite Hs. destruct op as [i' [d'|]]; cbn in Hi; subst i'; cbn [op_data].
    + rewrite (gone_none promise good s _ sent kept Ho); [by unfold inside; rewrite map_to_list_empty|].
      intros j Hj. destruct (decide (j = i)) as [->|]; [by apply H3|by apply H1].
    + rewrite (gone_one promise good s _ sent kept i (operation_slots c d) Ho); [|exact (handle_key promise good s sent kept h _ i Multi d Ho Hh eq_refl eq_refl)|by apply H2|done].
      unfold inside. rewrite map_to_list_singleton. cbn. by rewrite app_nil_r.
Qed.

Lemma idle_sys (f f' : fleet (slab := slab) (T := Op) (P := P)) ev :
  run_fleet (Output := Output) f ev = Ret f' ->
  match ev with FDriver _ _ _ => False | _ => True end -> f_sys f' = f_sys f.
Proof.
  destruct ev as [x|x n|]; [..|done]; cbn; intros E _.
  - apply bind_Ret in E as ([got p] & _ & E). by simplify_eq.
  - destruct (f_out f !! x); [|by simplify_eq]. apply bind_Ret in E as (p & _ & E). by simplify_eq.
Qed.
Lemma hand_answers first (h : H) :
  unlent first -> hand_reachable c promise good first h ->
  answers_ok (f_sys (h_fleet h)) (h_wrote h).
Proof.
  pose proof (operation_laws (V := V) (U := U) wraps valid namelen controllen small) as Hl.
  pose proof (operation_slots_laws (V := V) (U := U) c) as Hk.
  intros Hu. induction 1 as [|h ev h' out Hh IH He E].
  { intros x i d y Hx. cbn in Hx. by rewrite lookup_empty in Hx. }
  apply hand_fleet in Hh. destruct (fleet_reachable_inv promise good first _ Hu Hh) as [sent [Ho _]].
  destruct ev as [x|x n|e w n]; cbn [run_hand] in E.
  - apply bind_Ret in E as (f & E & E'). simplify_eq. cbn. by rewrite (idle_sys _ _ _ E I).
  - apply bind_Ret in E as (f & E & E'). simplify_eq. cbn. by rewrite (idle_sys _ _ _ E I).
  - apply bind_Ret in E as (o & _ & E). apply bind_Ret in E as (f & E & E'). simplify_eq. cbn.
    destruct He as [[He _] Hw]. cbn in E. apply bind_Ret in E as (s & E & Ef).
    assert (f_sys f = s) as ->.
    { destruct e; [by simplify_eq|..]; (destruct (answered out);
        [by simplify_eq|apply bind_Ret in Ef as (p & _ & Ef); by simplify_eq]). }
    by apply (answers_step valid namelen controllen wraps small (f_sys (h_fleet h)) e w);
      [apply (own_sys _ _ _ _ _ Ho)|..].
Qed.

(** C34. The registered buffers of the crate's operations. The crate is built
    without overflow checks. Whatever is taken from a new pool or registry,
    submitted inside any operation of the crate, completed, polled, dropped,
    cancelled or given back, in any order: nothing panics; while the kernel
    works on an operation, the data that owns its registered buffers exists,
    they are checked out, no task and no other operation has one of them, and
    the collection gives none of them out; and a poll that is answered, with
    success or failure, hands back in its answer exactly the registered
    buffers that leave the driver, which are then the task's. *)
Theorem operations_buffers_exclusive (first : P) (h : H) :
  unlent first -> hand_reachable c promise good first h ->
  (forall ev, hand_enabled c promise good h ev -> safe (fun _ => True) (run_hand c h ev)) /\
  (forall i k, s_kernel (f_sys (h_fleet h)) !! i = Some k -> exists ks, only_inside (h_fleet h) i ks) /\
  (forall ev h' out, hand_enabled c promise good h ev -> run_hand c h ev = Ret (h', Some out) ->
     f_out (h_fleet h') = output_slots c out ++ f_out (h_fleet h) /\
     f_pool (h_fleet h') = f_pool (h_fleet h)).
Proof.
  pose proof (operation_laws (V := V) (U := U) wraps valid namelen controllen small) as Hl.
  pose proof (operation_slots_laws (V := V) (U := U) c) as Hk.
  intros Hu Hh. pose proof (hand_answers first h Hu Hh) as Ha. apply hand_fleet in Hh as Hr.
  destruct (fleet_reachable_inv promise good first _ Hu Hr) as [sent Hf]. pose proof Hf as [Ho _].
  split; [|split].
  - intros ev He. assert (Hs : forall fe, fleet_enabled promise good (h_fleet h) fe ->
      safe (fun _ => True) (run_fleet (Output := Output) (h_fleet h) fe))
      by (intros fe; by apply (fleet_safe promise good first)).
    destruct ev as [x|x n|e w n]; cbn [run_hand].
    + by apply (safe_bind (fun _ => True)); [apply (Hs (FAsk x))|].
    + by apply (safe_bind (fun _ => True)); [apply (Hs (FGive x n))|].
    + destruct He as [He Hw]. apply (safe_bind (fun _ => True)).
      * apply (answer_safe valid namelen controllen wraps small); [apply (own_sys _ _ _ _ _ Ho)|apply He|done].
      * intros out _. by apply (safe_bind (fun _ => True)); [apply (Hs (FDriver e (answered out) n))|].
  - intros i k. by apply (in_flight_inside promise good (h_fleet h) sent).
  - intros [x|x n|e w n] h' out He E; cbn [run_hand] in E;
      apply bind_Ret in E as (f & E & E'); [by simplify_eq..|].
    apply bind_Ret in E' as (f' & Ef & E'). simplify_eq. destruct He as [[He _] _]. cbn in Ef.
    apply bind_Ret in Ef as (s & Es & Ef). pose proof (answer_frees _ _ _ _ _ _ _ Ho He E Es) as Hg.
    destruct e as [| |y cx|]; try done. simplify_eq. cbn. by rewrite Hg.
Qed.
End answers_back.

(** * Runs *)
Section hand_runs.
Context {Prof : Profile} {Cq : Cqueue} {Lc : Libc} {Sa : SockAddrs} {Sf : SockAddrFrom} {Bp : BufferProvider}.
Context {Ui : UioMaxIov}.
Context {V U : Type} `{!BoundedBuf V Buffer Bounds} `{!BoundedBufMut V Buffer Bounds}.
Context `{!SlabOps slab} `{!Lender P C} (c : Collection).
Context (promise : CqeResult -> Prop) (good : Kind -> Operation (V := V) (U := U) -> Prop).
Abbreviation H := (hand (slab := slab) (V := V) (U := U) (P := P)).
Abbreviation Ev := (hand_event (V := V) (U := U) (C := C)).

Fixpoint run_hands (h : H) (evs : list Ev) : outcome H :=
  match evs with
  | [] => Ret h
  | ev :: evs => '(h, _) ← run_hand c h ev; run_hands h evs
  end.
Fixpoint hands_allowed (h : H) (evs : list Ev) : Prop :=
  match evs with
  | [] => True
  | ev :: evs => hand_enabled c promise good h ev /\
                 match run_hand c h ev with Ret (h, _) => hands_allowed h evs | _ => True end
  end.
Lemma hands_reachable first h evs h' :
  hand_reachable c promise good first h -> hands_allowed h evs -> run_hands h evs = Ret h' ->
  hand_reachable c promise good first h'.
Proof.
  revert h. induction evs as [|ev evs IH]; intros h Hh Ha E; cbn in *; [by simplify_eq|].
  destruct Ha as [He Ha]. destruct (run_hand c h ev) as [[h1 out]| | |] eqn:E1; try done.
  apply (IH h1); [|done..]. by apply (hand_steps c _ _ first h ev h1 out).
Qed.
End hand_runs.

(** ** Two reads into pool buffers: the future of one is dropped, the other ends *)
Module Read.
Import RecvMultishot.Socket.
#[local] Existing Instance release_profile.
Abbreviation Op := (Operation (V := Buffer) (U := VecU8)).
Abbreviation H := (hand (slab := gmap N) (V := Buffer) (U := VecU8) (P := Pool)).
Abbreviation promise := (multishot_promise 8 0).
Abbreviation good := (operation_good (V := Buffer) (U := VecU8) buffer_ok 8 0).
Definition file : FdRef := mkFdRef 3.

(** A pool at address 1 with three buffers; buffers 1 and 2 are read into. *)
Definition pool : Pool := match pool_new demo_bufs with Ret p => p | _ => mkPool [] [] ∅ ∅ [] end.
Definition buffer (i len : N) : Buffer :=
  mkBuffer 9000 [mkIovec 300 len] [8] (UdPool (mkPoolInfo 1 i)) TyPoolFixedBuf (fun _ _ _ _ => Ret []).
Definition events : list (hand_event (V := Buffer) (U := VecU8) (C := N)) :=
  [HAsk 8; HAsk 4;
   HDriver (ESubmit 7 Single (OReadWrite (mkRwTransform ReadWrite.Read) (mkRwData file (buffer 2 0))))
     nothing_written 0;
   HDriver (ESubmit 8 Single (OReadFixed (mkReadFixed file (buffer 1 0)))) nothing_written 0;
   HDriver (EPoll 7 (mkWaker 1 0)) nothing_written 0; HDriver (EDrop 7) nothing_written 0;
   HDriver (ECompletion 1 (Cqe 1 5 0)) nothing_written 0].
Definition first : H := mkHand (mkFleet sys_init ∅ pool []) ∅.
Definition ended : H := match run_hands (PoolAt 1) first events with Ret h => h | _ => first end.
Lemma slot_fits i : buffer_ok (buffer i 0).
Proof. by split; [|repeat constructor|]. Qed.
Lemma ended_reachable : hand_reachable (PoolAt 1) promise good pool ended.
Proof.
  apply (hands_reachable (PoolAt 1) promise good pool first events ended).
  - apply hand_starts.
  - vm_compute. repeat match goal with |- _ /\ _ => split | |- ex _ => eexists end; auto;
      first [discriminate|apply NoDup_singleton|apply (slot_fits 1)|apply (slot_fits 2)
            |intros x ->%list_elem_of_singleton; by repeat constructor
            |intros ? [] ?; first [exact I|by eexists]].
  - vm_compute. reflexivity.
Qed.
Lemma pool_unlent : unlent pool.
Proof. apply (pool_new_unlent demo_bufs). vm_compute. reflexivity. Qed.

(** The read that has ended gives its buffer back; the other is still in
    flight. *)
Definition polling : hand_event (V := Buffer) (U := VecU8) (C := N) :=
  HDriver (EPoll 8 (mkWaker 1 0)) nothing_written 0.
Definition taken : H :=
  match run_hand (PoolAt 1) ended polling with Ret (h, _) => h | _ => ended end.
Lemma operations_buffers_exclusive_witness :
  s_kernel (f_sys (h_fleet ended)) !! 0 = Some Single /\
  st (p_states (f_pool (h_fleet ended))) 2 = Some PCheckedOut /\
  run_hand (PoolAt 1) ended polling = Ret (taken, Some (OutCount (Ok (5, buffer 1 5)))) /\
  f_out (h_fleet ended) = [] /\ f_out (h_fleet taken) = [1].
Proof.
  destruct (operations_buffers_exclusive (Prof := release_profile) (V := Buffer) (U := VecU8)
              buffer_ok (PoolAt 1) 8 0 eq_refl demo_small pool ended pool_unlent ended_reachable)
    as (_ & H & Hb).
  split; [vm_compute; reflexivity|]. split.
  - destruct (H 0 Single) as (ks & Hk & _ & Hj); [vm_compute; reflexivity|].
    destruct (Hj 2) as [Hc _]; [|exact Hc]. vm_compute in Hk. injection Hk as <-. by left.
  - assert (E : run_hand (PoolAt 1) ended polling = Ret (taken, Some (OutCount (Ok (5, buffer 1 5)))))
      by (vm_compute; reflexivity).
    split; [exact E|]. split; [vm_compute; reflexivity|].
    destruct (Hb polling _ _ ltac:(split; [split; [|exact I]|exact I];
      eexists; split; [vm_compute; reflexivity|]; exists (1, Single); reflexivity) E) as [-> _].
    vm_compute. reflexivity.
Defined.
End Read.
