(* ===== verification/AsyncOp.v ===== *)
(** The asynchronous functions that submit one operation and await it, as
    the state machines the compiler makes of them: [Op::..(..)?.await] and
    [Op::..(..).unwrap().await], and [..submit().await] for single-shot
    operations of [UnsubmittedOneshot]. The methods of [src/src/io/socket.rs],
    [src/src/net/] and [src/src/fs/] are of this kind (see [Api.v]). *)
From S2P Require Import Prelude Slab IoUring SlabList Op Driver DriverSpec RingSpec System Handle HandleSpec.

(** The data that [submit_op] takes, and its closure. *)
Record Start (T : Type) : Type := mkStart { st_data : T; st_entry : T -> outcome (sqe * T) }.
Arguments mkStart {T} st_data st_entry.
Arguments st_data {T} _.
Arguments st_entry {T} _ _.

Inductive AsyncState (T : Type) : Type := Unstarted | Awaiting (op : Op T) | Resolved.
Arguments Unstarted {T}.
Arguments Awaiting {T} op.
Arguments Resolved {T}.

Section async.
Context {Prof : Profile} {Cq : Cqueue} {Er : Errno} `{!SlabOps slab} `{!Uring ring}.
Context (fuel : nat).
Abbreviation driver_rc := (DriverRc (Driver slab ring)).
Abbreviation world := (World (slab := slab) (ring := ring)).
Implicit Types w : world.

(** An asynchronous function of this kind: what it does before it submits,
    which may fail or panic, what becomes of an error, and how the future of
    its [Op] is polled. *)
Record AsyncFn (T Output : Type) : Type := mkAsyncFn {
  af_start : outcome (io_result (Start T));
  af_error : io_error -> outcome Output;
  af_poll : Op T -> Waker -> driver_rc -> outcome (Poll Output * Op T * list Waker * driver_rc);
}.
Arguments mkAsyncFn {T Output} af_start af_error af_poll.
Arguments af_start {T Output} _.
Arguments af_error {T Output} _ _.
Arguments af_poll {T Output} _ _ _ _.

Definition poll_single `{!Completable T Output} (op : Op T) (cx : Waker) (rc : driver_rc) :
  outcome (Poll Output * Op T * list Waker * driver_rc) :=
  '(p, op, rc) ← op_poll op cx rc; Ret (p, op, [], rc).
Definition poll_multi `{!Completable T Output} `{!Updateable T Output} (op : Op T) (cx : Waker)
    (rc : driver_rc) : outcome (Poll Output * Op T * list Waker * driver_rc) :=
  op_poll_multi op cx rc.

(** The two ways of the code to begin: [?] and [unwrap()]. *)
Definition try_op `{!Completable T (io_result A)} (start : outcome (io_result (Start T))) :
  AsyncFn T (io_result A) := mkAsyncFn start (fun e => Ret (Err e)) poll_single.
Definition unwrap_failed : panic := PUnwrap "called `Result::unwrap()` on an `Err` value".
Definition unwrap_op `{!Completable T Output} (start : outcome (Start T)) : AsyncFn T Output :=
  mkAsyncFn (s ← start; Ret (Ok s)) (fun _ => Panic unwrap_failed) poll_single.
Definition unwrap_multi `{!Completable T Output} `{!Updateable T Output}
    (start : outcome (Start T)) : AsyncFn T Output :=
  mkAsyncFn (s ← start; Ret (Ok s)) (fun _ => Panic unwrap_failed) poll_multi.

Definition not_in_a_runtime : string := "Not in a runtime context".

(** [op.await]: when the operation is ready its [Op] is dropped. *)
Definition await_op {T Output} (f : AsyncFn T Output) (op : Op T) (cx : Waker) w :
  outcome (Poll Output * AsyncState T * list Waker * world) :=
  '(p, op, woken, rc) ← af_poll f op cx (w_rc w);
  match p with
  | Pending => Ret (Pending, Awaiting op, woken, mkWorld rc (w_ctx w))
  | Ready out =>
      rc ← op_drop op rc;
      Ret (Ready out, Resolved, woken, mkWorld rc (w_ctx w))
  end.

(** One poll of the function's future, and its destruction. *)
Definition poll_async {T Output} (f : AsyncFn T Output) (st : AsyncState T) (cx : Waker) w :
  outcome (Poll Output * AsyncState T * list Waker * world) :=
  match st with
  | Unstarted =>
      started ← af_start f;
      match started with
      | Err e => out ← af_error f e; Ret (Ready out, Resolved, [], w)
      | Ok s =>
          h ← unwrap not_in_a_runtime (context_handle (w_ctx w));
          '(r, woken, rc) ← h_submit_op fuel h (st_data s) (st_entry s) (w_rc w);
          let w := mkWorld rc (w_ctx w) in
          match r with
          | Err e => out ← af_error f e; Ret (Ready out, Resolved, woken, w)
          | Ok op => '(p, st, woken', w) ← await_op f op cx w; Ret (p, st, woken ++ woken', w)
          end
      end
  | Awaiting op => await_op f op cx w
  | Resolved => Panic (PUnreachable "`async fn` resumed after completion")
  end.
Definition drop_async {T} (st : AsyncState T) w : outcome world :=
  match st with
  | Awaiting op => rc ← op_drop op (w_rc w); Ret (mkWorld rc (w_ctx w))
  | Unstarted | Resolved => Ret w
  end.

(** [u.submit().await] of a single-shot operation: an asynchronous function
    that is given by [u], which its first poll evaluates. *)
Definition OneshotFn (D T : Type) : Type := outcome (UnsubmittedOneshot D T).
Inductive OneshotState (D T : Type) : Type :=
  | NotSubmitted
  | InFlight (f : InFlightOneshot D T)
  | Answered.
Arguments NotSubmitted {D T}.
Arguments InFlight {D T} f.
Arguments Answered {D T}.
Definition poll_submit `{!OneshotOutputTransform T D Output}
    (u : OneshotFn D T) (st : OneshotState D T) (cx : Waker) w :
  outcome (Poll Output * OneshotState D T * list Waker * world) :=
  '(f, woken, w) ← match st with
    | NotSubmitted => u ← u; submit_oneshot fuel u w
    | InFlight f => Ret (f, [], w)
    | Answered => Panic (PUnreachable "`async fn` resumed after completion")
    end;
  '(p, f, w) ← poll_oneshot f cx w;
  match p with
  | Pending => Ret (Pending, InFlight f, woken, w)
  | Ready out => w ← drop_oneshot f w; Ret (Ready out, Answered, woken, w)
  end.
End async.
Arguments AsyncFn {slab ring} T Output.
Arguments mkAsyncFn {slab ring T Output} af_start af_error af_poll.
Arguments af_start {slab ring T Output} _.
Arguments af_error {slab ring T Output} _ _.
Arguments af_poll {slab ring T Output} _ _ _ _.
Arguments NotSubmitted {D T}.
Arguments InFlight {D T} f.
Arguments Answered {D T}.
