(* ===== verification/AsyncOpSpec.v ===== *)
(** One asynchronous operation from its first poll to its end, against the
    driver: it submits once, waits without losing the wake-up, and delivers
    what the kernel answered, or is abandoned. *)
From S2P Require Import Prelude Slab IoUring SlabList Op Driver DriverSpec RingSpec System Handle.
From S2P Require Import HandleSpec ReadWrite IoOps AsyncOp.

Section spec.
Context {Prof : Profile} {Cq : Cqueue} {Er : Errno} `{!SlabOps slab} `{!SlabLaws slab}.
Context `{!Uring ring} `{!UringLaws ring} (fuel : nat).
Context `{!Completable T Output}.
Abbreviation world := (World (slab := slab) (ring := ring)).
Implicit Types w : world.
Implicit Types f : AsyncFn (slab := slab) (ring := ring) T Output.

Definition table w : gmap N Lifecycle := slab_view (lifecycle (ops (world_driver w))).
(** Inside [block_on], with operation [i] in state [lc]. *)
Definition op_at (i : N) (lc : Lifecycle) w : Prop := running w /\ table w !! i = Some lc.
(** Only operation [i] changes, to [lc], or leaves the table. *)
Definition op_becomes (i : N) (lc : option Lifecycle) w w' : Prop :=
  running w' /\ w_ctx w' = w_ctx w /\ uring (world_driver w') = uring (world_driver w) /\
  completions (ops (world_driver w')) = completions (ops (world_driver w)) /\
  table w' = partial_alter (fun _ => lc) i (table w).

Lemma running_call {A} (g : Driver slab ring -> outcome (A * Driver slab ring)) w x d :
  running w -> g (world_driver w) = Ret (x, d) ->
  with_borrow_mut g (w_rc w) = Ret (x, mkRc (strong_count (w_rc w)) false d).
Proof.
  intros (_ & Hb & _) E. unfold with_borrow_mut. rewrite Hb.
  change (value (w_rc w)) with (world_driver w). by rewrite E.
Qed.
Lemma running_upgrade w : running w -> upgrade weak_handle (w_rc w) = Some strong_handle.
Proof. intros (_ & Hb & Hn). by apply upgrade_available. Qed.

(** The world after a call of the driver that ends in [o]. *)
Definition with_table (o : Ops slab) w : world :=
  mkWorld (mkRc (strong_count (w_rc w)) false (mkDriver o (uring (world_driver w)))) (w_ctx w).
Lemma with_table_becomes i lc o w :
  running w -> completions o = completions (ops (world_driver w)) ->
  slab_view (lifecycle o) = partial_alter (fun _ => lc) i (table w) ->
  op_becomes i lc w (with_table o w).
Proof. intros (Hc & _ & Hn) Ho Ht. by split_and!. Qed.

Lemma get_mut_table i w : get_mut i (ops (world_driver w)) = table w !! i.
Proof. apply slab_get_view. Qed.
Lemma remove_at i lc w :
  table w !! i = Some lc ->
  exists o, ops_remove i (ops (world_driver w)) = Ret o /\
    completions o = completions (ops (world_driver w)) /\
    slab_view (lifecycle o) = partial_alter (fun _ => None) i (table w).
Proof.
  intros Hi. unfold ops_remove. destruct (remove_slab_Ret _ _ _ Hi) as (s & -> & Hs).
  cbn. eexists. by split_and!.
Qed.
Lemma set_at i lc lc' w :
  table w !! i = Some lc ->
  slab_view (lifecycle (set_lifecycle i lc' (ops (world_driver w)))) =
    partial_alter (fun _ => Some lc') i (table w).
Proof. intros Hi. cbn. apply slab_set_view. by eexists. Qed.

(** * One poll *)
Definition in_flight (lc : Lifecycle) : Prop :=
  lc = Submitted \/ exists cx, lc = Waiting cx.

Lemma await_pending f (op : Op T) cx lc w :
  af_poll f = poll_single -> op_at (op_index op) lc w -> in_flight lc ->
  exists w', await_op f op cx w = Ret (Pending, Awaiting op, [], w') /\
             op_becomes (op_index op) (Some (Waiting cx)) w w'.
Proof.
  intros Hf [Hr Hi] Hl. set (o := set_lifecycle (op_index op) (Waiting cx) (ops (world_driver w))).
  exists (with_table o w). split.
  2:{ apply with_table_becomes; [done|done|by eapply set_at]. }
  assert (E : poll_op op cx (ops (world_driver w)) = Ret (Pending, op, o)).
  { unfold poll_op. rewrite get_mut_table, Hi. cbn [unwrap mbind outcome_bind].
    destruct Hl as [->|[cx0 ->]]; rewrite wait_with_waiting; done. }
  unfold await_op. rewrite Hf. unfold poll_single, op_poll. rewrite running_upgrade by done.
  cbn [unwrap mbind outcome_bind]. unfold h_poll_op.
  erewrite running_call; [|done|rewrite E; done]. done.
Qed.

Lemma drop_finished i w :
  running w -> op_drop (mkOp (T := T) i None) (w_rc w) = Ret (w_rc w).
Proof.
  intros Hr. unfold op_drop. rewrite running_upgrade by done. cbn [unwrap mbind outcome_bind].
  unfold h_remove_op. erewrite running_call; [|done|cbn; done].
  cbn. destruct w as [[n b d] cx]. destruct Hr as (_ & Hb & _). cbn in *. subst b. by destruct d.
Qed.

Lemma await_completed f i d c cx w :
  af_poll f = poll_single -> op_at i (Completed c) w -> cqe_ok c ->
  exists w', op_becomes i None w w' /\
    await_op f (mkOp i (Some d)) cx w =
      (out ← complete d (pure_result c); Ret (Ready out, Resolved, [], w')).
Proof.
  intros Hf [Hr Hi] Hc. destruct (remove_at i _ w Hi) as (o & Er' & Ho & Ht).
  exists (with_table o w). split; [by apply with_table_becomes|].
  assert (E : poll_op (mkOp i (Some d)) cx (ops (world_driver w)) =
    (out ← complete d (pure_result c); Ret (Ready out, mkOp i None, o))).
  { unfold poll_op. cbn [op_index]. rewrite get_mut_table, Hi. cbn [unwrap mbind outcome_bind].
    rewrite Er'. cbn [mbind outcome_bind take_data op_data unwrap]. by rewrite from_cqe_ok. }
  unfold await_op. rewrite Hf. unfold poll_single, op_poll. rewrite running_upgrade by done.
  cbn [unwrap mbind outcome_bind]. unfold h_poll_op, with_borrow_mut.
  destruct Hr as (Hx & Hb & Hn). rewrite Hb.
  change (value (w_rc w)) with (world_driver w). rewrite E.
  destruct (complete d (pure_result c)) as [out| | |]; [|done..]. cbn [mbind outcome_bind].
  change (mkRc _ _ _) with (w_rc (with_table o w)). rewrite drop_finished by by split_and!. done.
Qed.

(** * Destruction *)
Lemma drop_at i d lc o' w :
  running w ->
  (('(_, o) ← remove_op (mkOp i (Some d)) (ops (world_driver w)); Ret o) = Ret o') ->
  table w !! i = Some lc ->
  drop_async (T := T) (Awaiting (mkOp i (Some d))) w = Ret (with_table o' w).
Proof.
  intros Hr E Hi. apply bind_Ret in E as ([op o] & E & E'). injection E' as ->.
  unfold drop_async, op_drop. rewrite running_upgrade by done. cbn [unwrap mbind outcome_bind].
  unfold h_remove_op. erewrite running_call; [|done|rewrite E; cbn; done]. done.
Qed.

Lemma drop_in_flight i d lc w :
  op_at i lc w -> in_flight lc ->
  exists w', drop_async (T := T) (Awaiting (mkOp i (Some d))) w = Ret w' /\
             op_becomes i (Some (Ignored (box_any (option T) (Some d)))) w w'.
Proof.
  intros [Hr Hi] Hl. eexists. split.
  - eapply drop_at; [done| |done]. unfold remove_op. cbn [is_finished op_data op_index].
    rewrite get_mut_table, Hi. by destruct Hl as [->|[cx ->]].
  - apply with_table_becomes; [done|done|by eapply set_at].
Qed.
Lemma drop_completed i d c w :
  op_at i (Completed c) w ->
  exists w', drop_async (T := T) (Awaiting (mkOp i (Some d))) w = Ret w' /\ op_becomes i None w w'.
Proof.
  intros [Hr Hi]. destruct (remove_at i _ w Hi) as (o & E & Ho & Ht).
  exists (with_table o w). split; [|by apply with_table_becomes].
  eapply drop_at; [done| |done]. unfold remove_op. cbn [is_finished op_data op_index].
  rewrite get_mut_table, Hi, E. done.
Qed.

(** * The first poll *)
Lemma complete_waiting_once i cx c o :
  get_mut i o = Some (Waiting cx) -> more (cqe_flags c) = false ->
  exists o', ops_complete i c o = Ret (o', [cx]) /\ get_mut i o' = Some (Completed c).
Proof.
  intros Hi Hm. unfold get_mut in Hi. pose proof Hi as Hv. rewrite slab_get_view in Hv.
  unfold ops_complete, index_slab. rewrite Hi. cbn [or_panic mbind outcome_bind complete_lifecycle].
  unfold first_completion. rewrite Hm. cbn [mbind outcome_bind]. eexists. split; [done|].
  unfold get_mut. rewrite slab_get_view. cbn. rewrite slab_set_view by (by eexists).
  apply lookup_insert_eq.
Qed.

Lemma submit_op_room (data data' : T) (entry : T -> outcome (sqe * T)) s drop d :
  entry data = Ret (s, data') -> has_room 1 d ->
  safe (fun '(r, d', woken) => woken = [] /\ exists i, r = Ok (mkOp i (Some data')) /\
          inserted i (ops d) (ops d') /\ pushed [set_user_data (as_u64 i) s] (uring d) (uring d'))
       (submit_op (S fuel) data entry drop d).
Proof.
  intros Ee Hroom. unfold submit_op. eapply safe_bind; [apply ops_insert_safe|].
  intros [i o] Hi. rewrite Ee. cbn [mbind outcome_bind].
  destruct (push_loop_room fuel (set_user_data (as_u64 i) s) (mkDriver o (uring d)))
    as (u & -> & Hu); [done|]. cbn. split; [done|]. by exists i.
Qed.

(** The states of an operation that was submitted with index [i]. *)
Definition follows f (i : N) (d : T) : Prop :=
  let st := Awaiting (mkOp i (Some d)) in
  (forall cx0 cx w, op_at i (Waiting cx0) w ->
     exists w', poll_async fuel f st cx w = Ret (Pending, st, [], w') /\
                op_becomes i (Some (Waiting cx)) w w') /\
  (forall cx c o, get_mut i o = Some (Waiting cx) -> more (cqe_flags c) = false ->
     exists o', ops_complete i c o = Ret (o', [cx]) /\ get_mut i o' = Some (Completed c)) /\
  (forall cx c w, op_at i (Completed c) w -> cqe_ok c ->
     exists w', op_becomes i None w w' /\
       poll_async fuel f st cx w =
         (out ← complete d (pure_result c); Ret (Ready out, Resolved, [], w'))) /\
  (forall lc w, op_at i lc w -> in_flight lc ->
     exists w', drop_async st w = Ret w' /\
                op_becomes i (Some (Ignored (box_any (option T) (Some d)))) w w') /\
  (forall c w, op_at i (Completed c) w ->
     exists w', drop_async st w = Ret w' /\ op_becomes i None w w').

(** C7. An operation from beginning to end. The first poll of the function,
    inside a runtime with room in the queue, submits exactly one entry, the
    one its arguments describe, under a fresh index, and leaves the task
    registered. From then on: a poll from another task replaces the waker;
    the completion wakes the task of the last poll; the next poll takes the
    operation out of the table and answers what its type makes of the data
    and of the kernel's answer; and if the future is dropped instead, the
    data stays with the driver while the kernel works on it, while a
    completion that has arrived is thrown away, descriptor or not, with
    nothing submitted to undo it. No other operation is ever touched. *)
Theorem async_op_spec f (data data' : T) (entry : T -> outcome (sqe * T)) s cx w :
  af_poll f = poll_single -> af_start f = Ret (Ok (mkStart data entry)) ->
  entry data = Ret (s, data') -> running w -> has_room 1 (world_driver w) ->
  safe (fun '(p, st, woken, w') =>
          p = Pending /\ woken = [] /\ running w' /\
          exists i, st = Awaiting (mkOp i (Some data')) /\ table w !! i = None /\
            table w' = <[i := Waiting cx]> (table w) /\
            pending (world_driver w') =
              pending (world_driver w) ++ [set_user_data (as_u64 i) s] /\
            follows f i data')
       (poll_async (S fuel) f Unstarted cx w).
Proof.
  intros Hf Hs He Hr Hroom. unfold poll_async. rewrite Hs. cbn [mbind outcome_bind].
  pose proof Hr as (Hc & Hb & Hn). rewrite Hc. cbn [unwrap mbind outcome_bind st_data st_entry].
  unfold h_submit_op, with_borrow_mut. rewrite Hb. change (value (w_rc w)) with (world_driver w).
  match goal with |- context [submit_op _ _ _ ?drop _] => set (dr := drop) end.
  pose proof (submit_op_room data data' entry s dr (world_driver w) He Hroom) as H.
  destruct (submit_op (S fuel) data entry dr (world_driver w)) as [[[r d1] w1]|p| |]; try done.
  destruct H as (-> & i & -> & (Hi & _ & Hv & _) & Hp & _). cbn [mbind outcome_bind].
  set (w1 := mkWorld _ _). assert (Hr1 : running w1) by (by split_and!).
  destruct (await_pending f (mkOp i (Some data')) cx Submitted w1 Hf)
    as (w2 & -> & Hr2 & _ & Hu2 & _ & Ht2).
  { split; [done|]. unfold table. cbn. rewrite Hv. apply lookup_insert_eq. }
  { by left. }
  cbn. split_and!; try done; try apply Hr2. exists i.
  rewrite get_mut_table in Hi. split_and!; [done|done| | |].
  - rewrite Ht2. change (partial_alter _ ?j ?m) with (<[j := Waiting cx]> m).
    replace (table w1) with (<[i := Submitted]> (table w)) by done. apply insert_insert_eq.
  - unfold pending. by rewrite Hu2.
  - split_and!.
    + intros cx0 cx' w3 Hat. apply (await_pending f (mkOp i (Some data')) cx' (Waiting cx0) w3 Hf Hat).
      right. by eexists.
    + apply complete_waiting_once.
    + intros cx' c w3 Hat Hok. by apply (await_completed f i data' c cx' w3).
    + intros lc w3 Hat Hl. by eapply drop_in_flight.
    + intros c w3 Hat. by eapply drop_completed.
Qed.
End spec.

(** * An [fsync] *)
#[local] Existing Instance debug_profile.
Definition fsync_fn : AsyncFn (slab := gmap N) (ring := script_ring) Fsync (io_result unit) :=
  try_op (Ret (Ok (mkStart (mkFsync (mkFdRef 3)) (fun d => Ret ((fsync (fs_fd d)).2, d))))).

Lemma async_op_spec_witness :
  exists w st, poll_async 2 fsync_fn Unstarted (mkWaker 7 7) (demo_world 4 []) =
      Ret (Pending, st, [], w) /\
    pending (world_driver w) = [set_user_data 0 (build (OpFsync 3 false))] /\
    follows 1 fsync_fn 0 (mkFsync (mkFdRef 3)).
Proof.
  pose proof (async_op_spec 1 fsync_fn (mkFsync (mkFdRef 3)) (mkFsync (mkFdRef 3))
    (fun d => Ret ((fsync (fs_fd d)).2, d)) (build (OpFsync 3 false)) (mkWaker 7 7)
    (demo_world 4 []) eq_refl eq_refl eq_refl) as H.
  assert (Hr : running (demo_world 4 [])) by (split_and!; [reflexivity..|apply Nat.ltb_lt; reflexivity]).
  specialize (H Hr). assert (Hroom : has_room 1 (world_driver (demo_world 4 []))) by (apply Nat.leb_le; reflexivity).
  specialize (H Hroom).
  destruct (poll_async 2 fsync_fn Unstarted (mkWaker 7 7) (demo_world 4 [])) as [[[[p st] wk] w]| | |] eqn:E;
    [|discriminate E..].
  exists w, st. destruct H as (-> & -> & _ & i & Est & _ & _ & _ & Hf).
  assert (i = 0) as ->.
  { revert E. rewrite Est. vm_compute. by intros [= <-]. }
  split; [reflexivity|]. split; [|exact Hf].
  revert E. vm_compute. by intros [= _ <-].
Defined.
