(* ===== verification/EndToEnd.v ===== *)
(** The event loop and the table together: the loop of [EventLoop.v] moves
    completions that a lawful kernel has posted into the table of
    [System.v], and wakes the tasks that wait for them. *)
From S2P Require Import Prelude Slab IoUring SlabList Op Driver DriverSpec System Handle.
From S2P Require Import EventLoop EventLoopSpec AsyncOpSpec.

Section end_to_end.
Context {Prof : Profile} {Cq : Cqueue} {Er : Errno} `{!SlabOps slab} `{!SlabLaws slab}.
Context {T Output : Type} `{!Completable T Output} `{!Updateable T Output}.
Context (promise : CqeResult -> Prop) (good : Kind -> T -> Prop) `{!ClientLaws T Output promise good}.
Implicit Types (st : sys slab T) (kn : gmap N Kind) (o : Ops slab).
Abbreviation reaches := (reachable (Output := Output) promise good).

(** The operation that a completion in the queue is for; [None] is the
    answer to a cancellation. *)
Definition completes (c : cqe) : option N :=
  if cqe_user_data c =? u64_max then None else Some (as_usize (cqe_user_data c)).

(** A batch of completions that the kernel may post, one after the other,
    while it works on [kn], and what it works on afterwards. *)
Fixpoint lawful kn (cs : list cqe) : Prop :=
  match cs with
  | [] => True
  | c :: cs =>
      match completes c with
      | None => lawful kn cs
      | Some i =>
          cqe_ok c /\ promise (pure_result c) /\
          match kn !! i with
          | Some Single => more (cqe_flags c) = false
          | Some Multi => True
          | None => False
          end /\
          lawful (if more (cqe_flags c) then kn else delete i kn) cs
      end
  end.
Fixpoint works_on kn (cs : list cqe) : gmap N Kind :=
  match cs with
  | [] => kn
  | c :: cs =>
      match completes c with
      | None => works_on kn cs
      | Some i => works_on (if more (cqe_flags c) then kn else delete i kn) cs
      end
  end.

(** A completion concerns its own operation. *)
Lemma complete_frame i j c o o' w :
  ops_complete i c o = Ret (o', w) -> i <> j -> get_mut j o' = get_mut j o.
Proof.
  unfold ops_complete, index_slab, get_mut. rewrite !slab_get_view.
  destruct (slab_view (lifecycle o) !! i) as [lc|] eqn:Hi; [|done]. cbn [or_panic].
  intros E Hne. apply bind_Ret in E as (lc0 & [= <-] & E).
  apply bind_Ret in E as ([[[d lc'] s] w'] & _ & E). apply bind_Ret in E as (o1 & E1 & E).
  simplify_eq. assert (His : is_Some (slab_view (lifecycle o) !! i)) by by eexists.
  destruct d; [|injection E1 as <-; by apply slab_set_ne].
  apply bind_Ret in E1 as ([v s'] & E1 & E2). simplify_eq. cbn in *.
  apply remove_slab_inv in E1 as [_ ->]. rewrite lookup_delete_ne by done. by apply slab_set_ne.
Qed.

(** What [dispatch] does to one operation. *)
Definition answered st (cs : list cqe) o' (woken : list Waker) : Prop :=
  forall c i cx, c ∈ cs -> completes c = Some i -> get_mut i (s_ops st) = Some (Waiting cx) ->
  cx ∈ woken /\ (s_kernel st !! i = Some Single -> get_mut i o' = Some (Completed c)).

Lemma dispatch_frame cs kn o o' w i :
  lawful kn cs -> kn !! i = None -> dispatch cs o = Ret (o', w) -> get_mut i o' = get_mut i o.
Proof.
  revert kn o w. induction cs as [|c cs IH]; intros kn o w; cbn [lawful dispatch].
  { by intros _ _ [= <- _]. }
  unfold completes. destruct (cqe_user_data c =? u64_max); [by apply IH|].
  set (j := as_usize (cqe_user_data c)). intros (_ & _ & Hk & Hl) Hi E.
  apply bind_Ret in E as ([o1 w1] & E1 & E). apply bind_Ret in E as ([o2 w2] & E2 & E).
  simplify_eq. assert (Hij : j <> i) by (intros <-; by rewrite Hi in Hk).
  rewrite <- (complete_frame _ _ _ _ _ _ E1 Hij). eapply IH; [exact Hl| |exact E2].
  destruct (more _); [done|]. by rewrite lookup_delete_ne.
Qed.

Lemma lawful_known cs kn c i :
  lawful kn cs -> c ∈ cs -> completes c = Some i -> is_Some (kn !! i).
Proof.
  revert kn. induction cs as [|c0 cs IH]; intros kn; cbn [lawful].
  { by intros _ ?%elem_of_nil. }
  intros Hl [->|Hc]%elem_of_cons Hi.
  - rewrite Hi in Hl. destruct Hl as (_ & _ & Hk & _). by destruct (kn !! i).
  - destruct (completes c0) as [j|]; [|by eapply IH]. destruct Hl as (_ & _ & _ & Hl).
    destruct (more _); [by eapply IH|]. destruct (IH _ Hl Hc Hi) as [k Hk].
    apply lookup_delete_Some in Hk as [_ ?]. by eexists.
Qed.

(** The first completion of a batch, given what the others do. *)
Lemma answered_cons st c cs i o1 w1 o w :
  completes c = Some i -> lawful (s_kernel st) (c :: cs) ->
  ops_complete i c (s_ops st) = Ret (o1, w1) -> dispatch cs o1 = Ret (o, w) ->
  answered (mkSys o1 (if more (cqe_flags c) then s_kernel st else delete i (s_kernel st))
              (s_handles st)) cs o w ->
  answered st (c :: cs) o (w1 ++ w).
Proof.
  intros Hi Hl E1 E2 Ha c' i' cx Hc Hi' Hcx. cbn [lawful] in Hl. rewrite Hi in Hl.
  destruct Hl as (_ & _ & Hk & Hl). destruct (decide (i = i')) as [<-|Hne].
  - split; [rewrite (complete_waiting i cx _ Hcx c _ _ E1); set_solver|]. intros Hs.
    rewrite Hs in Hk. rewrite Hk in Hl.
    apply elem_of_cons in Hc as [->|Hc].
    + destruct (complete_waiting_once i cx c _ Hcx Hk) as (o2 & E & Hg). rewrite E in E1.
      simplify_eq. rewrite (dispatch_frame _ _ _ _ _ i Hl (lookup_delete_eq _ _) E2). done.
    + destruct (lawful_known _ _ _ _ Hl Hc Hi') as [k Hk']. by rewrite lookup_delete_eq in Hk'.
  - apply elem_of_cons in Hc as [->|Hc]; [by rewrite Hi in Hi'; simplify_eq|].
    destruct (Ha c' i' cx Hc Hi') as [Hw Hs].
    + cbn. by rewrite (complete_frame _ _ _ _ _ _ E1 Hne).
    + split; [set_solver|]. intros Hs'. apply Hs. cbn. destruct (more _); [done|].
      by rewrite lookup_delete_ne.
Qed.

Lemma completion_reaches st i c o w :
  reaches st -> enabled promise good st (ECompletion i c) ->
  ops_complete i c (s_ops st) = Ret (o, w) ->
  reaches (mkSys o (if more (cqe_flags c) then s_kernel st else delete i (s_kernel st))
             (s_handles st)).
Proof.
  intros Hst He E. eapply reach_step; [exact Hst|]. eapply step_event; [exact He|].
  cbn. by rewrite E.
Qed.

Lemma dispatch_lawful cs st :
  reaches st -> lawful (s_kernel st) cs ->
  safe (fun '(o, woken) =>
          reaches (mkSys o (works_on (s_kernel st) cs) (s_handles st)) /\ answered st cs o woken)
       (dispatch cs (s_ops st)).
Proof.
  revert st. induction cs as [|c cs IH]; intros st Hst Hl.
  { cbn. split; [by destruct st|]. intros c i cx Hc. by apply elem_of_nil in Hc. }
  cbn [dispatch works_on]. destruct (completes c) as [i|] eqn:Hc; pose proof Hc as Hi; unfold completes in Hi;
    destruct (cqe_user_data c =? u64_max); try done.
  - injection Hi as ->. pose proof Hl as Hl'. cbn [lawful] in Hl'. rewrite Hc in Hl'.
    destruct Hl' as (Hok & Hp & Hk & Hl').
    assert (He : enabled promise good st (ECompletion i c)) by done.
    pose proof (event_inv promise good st _ (reachable_inv promise good st Hst) He) as Hsafe.
    cbn in Hsafe. destruct (ops_complete i c (s_ops st)) as [[o1 w1]|[]| |] eqn:E1; try done.
    cbn [mbind outcome_bind]. specialize (IH _ (completion_reaches _ _ _ _ _ Hst He E1) Hl').
    cbn [s_ops s_kernel s_handles] in IH.
    destruct (dispatch cs o1) as [[o w]|[]| |] eqn:E2; try done. destruct IH as [Hr Ha].
    split; [done|]. by eapply answered_cons.
  - clear Hi. cbn [lawful] in Hl. rewrite Hc in Hl. specialize (IH st Hst Hl).
    destruct (dispatch cs _) as [[o w]|[]| |]; try done. destruct IH as [Hr Ha].
    split; [done|]. intros c' i cx [->|Hc']%elem_of_cons Hi; [by rewrite Hc in Hi|by apply Ha].
Qed.

(** * The loop *)
Context `{!Uring ring} `{!UringBuilder B ring} `{!Tokio F G} `{!Epoll ring}.
Context `{!TokioLaws F G} `{!EpollLaws ring} `{!BuilderLaws B ring}.
Context (fuel : nat) (wakes : Waker) (b : Builder B).
Abbreviation Runtime := (Runtime (slab := slab) (ring := ring) (F := F)).
Implicit Types s : Runtime.

Lemma poll_completed i c cx o :
  get_mut i o = Some (Completed c) -> exists o', poll_op_2 i cx o = Ret (Ready c, o').
Proof.
  intros H. unfold poll_op_2. rewrite H. cbn [unwrap mbind outcome_bind]. unfold ops_remove.
  unfold get_mut in H. rewrite slab_get_view in H.
  destruct (remove_slab_Ret _ _ _ H) as (s' & -> & _). by eexists.
Qed.

(** When the thread has parked with completions in the queue, the wakes task
    is in tokio's queue and about to dispatch what the ring holds then. *)
Lemma parked_dispatches s s1 woken :
  loop_reachable fuel wakes b s -> inside s -> park wakes s = Ret (s1, woken) ->
  cq_ready (cq_of (rt_ring s)) <> [] ->
  rt_scheduled s1 = true /\ inside s1 /\ exists seen u fd,
    cq_take (rt_ring s1) = (seen, u) /\ cq_ready (cq_of (rt_ring s)) `prefix_of` seen /\
    poll_wakes wakes s1 =
      ('(o, woken) ← dispatch seen (rt_ops s);
       Ret (mkRuntime (rt_world (with_driver (mkDriver o u) s1)) fd (bool_decide (wakes ∈ woken)),
            woken)).
Proof.
  intros Hs Hin Ep Hne. apply loop_reachable_inv in Hs. rewrite (park_spec wakes) in Ep by done.
  injection Ep as Ep. destruct (submitted_inv wakes s Hs) as [H0 Hp0].
  destruct (turn_spec wakes (submitted s) H0) as (r & u1 & _ & Ht). rewrite Ep in Ht.
  destruct Ht as (H1 & <- & Ho1 & Hc1 & Hp1 & Hwake).
  destruct Hwake as [Hf _]; [intros E; rewrite E in Hp0; by apply prefix_nil_inv in Hp0|].
  split; [by apply (li_ready _ _ H1)|]. split; [unfold inside; by rewrite Hc1|].
  destruct (poll_wakes_spec wakes s1 H1) as (fd & _ & _ & Hp). rewrite Hf in Hp.
  destruct Hp as (seen & u & Et & Hseen & _ & Hp). exists seen, u, fd.
  split; [done|]. split; [exact (transitivity Hp0 (transitivity Hp1 Hseen))|].
  by rewrite Hp, Ho1.
Qed.

(** C5. An awaited operation is woken and answered. The table of the runtime is
    one that clients and kernel can reach together, and the thread parks
    while completions are in the queue. Then parking does not panic; the
    wakes task is to run; and if what the kernel has posted by then is
    lawful, its poll does not panic and leaves the table in a reachable
    state again, with every client's handles untouched. Each task that
    awaited an operation whose completion was in the queue has been woken,
    and its poll of a single-shot operation now answers that completion. *)
Theorem awaited_is_woken s st :
  loop_reachable fuel wakes b s -> inside s -> reaches st -> rt_ops s = s_ops st ->
  cq_ready (cq_of (rt_ring s)) <> [] ->
  exists s1 woken, park wakes s = Ret (s1, woken) /\ rt_scheduled s1 = true /\
    (lawful (s_kernel st) (cq_take (rt_ring s1)).1 ->
     safe (fun '(s2, woken') =>
             loop_reachable fuel wakes b s2 /\ inside s2 /\
             (exists st', reaches st' /\ rt_ops s2 = s_ops st' /\ s_handles st' = s_handles st) /\
             forall c i cx, c ∈ cq_ready (cq_of (rt_ring s)) -> completes c = Some i ->
               get_mut i (rt_ops s) = Some (Waiting cx) ->
               cx ∈ woken' /\
               (s_kernel st !! i = Some Single ->
                forall cx', exists o, poll_op_2 i cx' (rt_ops s2) = Ret (Ready c, o)))
          (poll_wakes wakes s1)).
Proof.
  intros Hs Hin Hst Ho Hne. pose proof (loop_reachable_inv fuel wakes b s Hs) as Hinv.
  destruct (turn wakes (submitted s)) as [s1 woken] eqn:Et.
  assert (Ep : park wakes s = Ret (s1, woken)) by (rewrite park_spec by done; by rewrite Et).
  assert (Hs1 : loop_reachable fuel wakes b s1) by (by eapply (loop_steps _ _ _ s LPark)).
  destruct (parked_dispatches s s1 woken Hs Hin Ep Hne)
    as (Hsch & Hin1 & seen & u & fd & Etk & Hseen & Hpoll).
  exists s1, woken. split; [done|]. split; [done|]. rewrite Etk. cbn [fst]. intros Hl.
  pose proof (dispatch_lawful seen st Hst Hl) as Hd.
  assert (Hs2 : forall s2 w, poll_wakes wakes s1 = Ret (s2, w) -> loop_reachable fuel wakes b s2).
  { intros s2 w E. by eapply (loop_steps _ _ _ s1 LPollWakes). }
  rewrite Hpoll, Ho in *. destruct (dispatch seen (s_ops st)) as [[o w]|[]| |]; try done.
  destruct Hd as [Hr Ha]. cbn [mbind outcome_bind safe] in *. split; [by eapply Hs2|].
  split; [done|]. split; [by eexists|]. intros c i cx Hc Hi Hcx.
  destruct (Ha c i cx) as [Hw Hk]; [|done..|].
  - by eapply elem_of_prefix.
  - split; [done|]. intros Hsi cx'. by apply poll_completed, Hk.
Qed.
End end_to_end.

(** * Two operations, one of which is awaited *)
Module Awaited.
Import Tally Edge.
#[local] Existing Instance debug_profile.

(** The clients of the two entries that [Edge.asleep] has submitted. *)
Definition clients : list (event data) := [ESubmit 7 Single []; ESubmit 8 Single []; EPoll 7 w1].
Definition table : sys (gmap N) data :=
  match run_all (Output := data) start clients with Ret st => st | _ => start end.
Lemma table_reachable : reachable (Output := data) anything anyone table.
Proof.
  apply (run_all_reachable (Output := data) _ _ start clients); [constructor| |vm_compute; reflexivity].
  vm_compute. repeat match goal with |- _ /\ _ => split | |- ex _ => eexists end; auto.
Qed.

Definition waiting : Rt :=
  match run_steps asleep [LCall (CTable (s_ops table))] with Ret s => s | _ => asleep end.
Lemma waiting_reachable : loop_reachable 3 wakes config waiting.
Proof.
  apply (run_steps_reachable asleep [LCall (CTable (s_ops table))]); [apply asleep_reachable| |].
  - split; [vm_compute; reflexivity|]. by destruct (run_loop 3 wakes asleep _) as [[? ?]| | |].
  - vm_compute. reflexivity.
Qed.

Lemma awaited_is_woken_witness :
  exists s1 woken s2 woken', park wakes waiting = Ret (s1, woken) /\
    poll_wakes wakes s1 = Ret (s2, woken') /\ w1 ∈ woken' /\
    exists o, poll_op_2 0 w2 (rt_ops s2) = Ret (Ready (Cqe 0 7 0), o).
Proof.
  destruct (awaited_is_woken (Output := data) anything anyone 3 wakes config waiting table
              waiting_reachable eq_refl table_reachable) as (s1 & woken & Ep & _ & H).
  - vm_compute. reflexivity.
  - vm_compute. discriminate.
  - exists s1, woken. assert (Ep' := Ep). vm_compute in Ep'. injection Ep' as <- <-.
    match type of H with lawful _ _ _ -> safe _ ?p => destruct p as [[s2 w']| | |] eqn:E end.
    2-4: vm_compute in E; discriminate E.
    destruct H as (_ & _ & _ & H); [vm_compute; repeat split; discriminate|].
    exists s2, w'. split; [exact Ep|]. split; [reflexivity|].
    destruct (H (Cqe 0 7 0) 0 w1) as [Hw Ho];
      [vm_compute; by left|vm_compute; reflexivity|vm_compute; reflexivity|].
    split; [exact Hw|]. apply Ho. vm_compute. reflexivity.
Defined.
End Awaited.
