(* ===== verification/Api.v ===== *)
(** The methods of [src/src/io/socket.rs], [src/src/net/] and
    [src/src/fs/file.rs], [directory.rs] and [symlink.rs] that submit an
    operation and wait for it, each as the asynchronous function it is (see
    [AsyncOp.v]). Whole writes are in [WriteAll.v], constructors in [Net.v].
    [bx] are the addresses of the boxes a call allocates, [namelen] the
    length that [SockAddr::try_init] leaves. *)
From S2P Require Import Prelude Slab Buf Buffer BufSpec FixedBuf Types IoUring SlabList Op Driver Handle.
From S2P Require Import Libc OpenOptions ReadWrite RecvMultishot IoOps Messages AsyncOp WriteAll.

(** An operation whose data and entry are made before [submit_op]. *)
Definition made {T} (p : T * sqe) : Start T := mkStart p.1 (fun d => Ret (p.2, d)).

Record Socket : Type := mkSocket { sk_fd : FdRef }.
Record TcpStream : Type := mkTcpStream { ts_inner : Socket }.
Record UnixStream : Type := mkUnixStream { us_inner : Socket }.
Record UdpSocket : Type := mkUdpSocket { udp_inner : Socket }.
Record File : Type := mkFile { f_fd : FdRef }.

Section api.
Context {Prof : Profile} {Cq : Cqueue} {Lc : Libc} {Sa : SockAddrs} {Sf : SockAddrFrom}.
Context {slab : Type -> Type} {ring : Type}.
Context `{!SlabOps slab}.
Abbreviation Async := (AsyncFn (slab := slab) (ring := ring)).

Abbreviation Oneshot := (OneshotFn ReadWriteData ReadWriteTransform).

#[export] Instance read_fixed_completable `{!BoundedBuf V Buffer Bounds}
    `{!BoundedBufMut V Buffer Bounds} : Completable (ReadFixed V) (BufResult N V) :=
  complete_read_fixed.
#[export] Instance write_fixed_completable {V} : Completable (WriteFixed V) (BufResult N V) :=
  complete_write_fixed.

(** [Op::read_fixed_at], [Op::write_fixed_at]. *)
Definition read_fixed_at `{!BoundedBuf V Buffer Bounds} `{!BoundedBufMut V Buffer Bounds}
    (fd : FdRef) (buf : V) (offset : N) : Start (ReadFixed V) :=
  mkStart (mkReadFixed fd buf) (read_fixed_sqe offset).
Definition write_fixed_at `{!BoundedBuf V Buffer Bounds} (fd : FdRef) (buf : V) (offset : N) :
    Start (WriteFixed V) :=
  mkStart (mkWriteFixed fd buf) (write_fixed_sqe offset).

(** * [Socket] *)
Definition socket_write (self : Socket) (buf : Buffer) : outcome Unsubmitted :=
  write_at (sk_fd self) buf 0.
Definition socket_write_fixed `{!BoundedBuf V Buffer Bounds} (self : Socket) (buf : V) :
    Async (WriteFixed V) (BufResult N V) := unwrap_op (Ret (write_fixed_at (sk_fd self) buf 0)).
Definition socket_send_to `{!BoundedBuf V T Bounds} (bx : Boxes) (self : Socket) (buf : V)
    (socket_addr : option SocketAddr) : Async (SendTo V) (BufResult N V) :=
  unwrap_op (p ← send_to bx (sk_fd self) buf socket_addr; Ret (made p)).
Definition socket_send_zc `{!BoundedBuf V T Bounds} (self : Socket) (buf : V) :
    Async (SendZc V) (BufResult N V) :=
  unwrap_multi (p ← send_zc (sk_fd self) buf; Ret (made p)).
Definition socket_sendmsg `{!BoundedBuf V T Bounds} `{!BoundedBuf U T' Bounds'} (bx : Boxes)
    (self : Socket) (io_slices : list V) (socket_addr : option SocketAddr)
    (msg_control : option U) : Async (SendMsg V U) (io_result N * list V * option U) :=
  unwrap_op (p ← sendmsg bx (sk_fd self) io_slices socket_addr msg_control; Ret (made p)).
Definition socket_sendmsg_zc `{!BoundedBuf V T Bounds} `{!BoundedBuf U T' Bounds'} (bx : Boxes)
    (self : Socket) (io_slices : list V) (socket_addr : option SocketAddr)
    (msg_control : option U) : Async (SendMsgZc V U) (io_result N * list V * option U) :=
  unwrap_multi (p ← sendmsg_zc bx (sk_fd self) io_slices socket_addr msg_control; Ret (made p)).
(** [read_at(..).submit().await]. *)
Definition socket_read (self : Socket) (buf : Buffer) : Oneshot := read_at (sk_fd self) buf 0.
Definition socket_read_fixed `{!BoundedBuf V Buffer Bounds} `{!BoundedBufMut V Buffer Bounds}
    (self : Socket) (buf : V) : Async (ReadFixed V) (BufResult N V) :=
  unwrap_op (Ret (read_fixed_at (sk_fd self) buf 0)).
Definition socket_recv_from `{!BoundedBuf V T Bounds} `{!BoundedBufMut V T Bounds} (bx : Boxes)
    (namelen : N) (self : Socket) (buf : V) :
    Async (RecvFrom V) (BufResult (N * SocketAddr) V) :=
  unwrap_op (p ← recv_from bx namelen (sk_fd self) buf; Ret (made p)).
Definition socket_recvmsg `{!BoundedBuf V T Bounds} `{!BoundedBufMut V T Bounds} (bx : Boxes)
    (namelen : N) (self : Socket) (bufs : list V) :
    Async (RecvMsg V) (BufResult (N * SocketAddr) (list V)) :=
  unwrap_op (p ← recvmsg bx namelen (sk_fd self) bufs; Ret (made p)).
(** [bx_name] is where the boxed [storage] is, with its length after it. *)
Definition socket_accept_op (addrlen : N) (bx : Boxes) (self : Socket) :
    Async Accept (io_result (FdRef * option SocketAddr)) :=
  try_op (Ret (Ok (made (accept (sk_fd self) (bx_name bx) addrlen)))).
Definition socket_connect_op (bx : Boxes) (self : Socket) (socket_addr : list byte) :
    Async Connect (io_result unit) :=
  try_op (Ret (Ok (made (connect (sk_fd self) (bx_name bx) (N.of_nat (length socket_addr)))))).

(** * [TcpStream] and [UnixStream] *)
Definition tcp_read (self : TcpStream) (buf : Buffer) : Oneshot := socket_read (ts_inner self) buf.
Definition tcp_read_fixed (self : TcpStream) (buf : Buffer) :=
  socket_read_fixed (ts_inner self) buf.
Definition tcp_write (self : TcpStream) (buf : Buffer) : outcome Unsubmitted :=
  socket_write (ts_inner self) buf.
Definition tcp_write_fixed `{!BoundedBuf V Buffer Bounds} (self : TcpStream) (buf : V) :=
  socket_write_fixed (ts_inner self) buf.
(** [self.inner.write(buf).submit().await]. *)
Definition tcp_writev (self : TcpStream) (buf : Buffer) : Oneshot :=
  socket_write (ts_inner self) buf.
Definition unix_read (self : UnixStream) (buf : Buffer) : Oneshot := socket_read (us_inner self) buf.
Definition unix_read_fixed `{!BoundedBuf V Buffer Bounds} `{!BoundedBufMut V Buffer Bounds}
    (self : UnixStream) (buf : V) := socket_read_fixed (us_inner self) buf.
Definition unix_write (self : UnixStream) (buf : Buffer) : outcome Unsubmitted :=
  socket_write (us_inner self) buf.
Definition unix_write_fixed `{!BoundedBuf V Buffer Bounds} (self : UnixStream) (buf : V) :=
  socket_write_fixed (us_inner self) buf.
Definition unix_writev (self : UnixStream) (buf : Buffer) : Oneshot :=
  socket_write (us_inner self) buf.

(** * [UdpSocket] *)
Definition udp_connect (bx : Boxes) (self : UdpSocket) (socket_addr : SocketAddr) :=
  socket_connect_op bx (udp_inner self) (sockaddr_from socket_addr).
Definition udp_send `{!BoundedBuf V T Bounds} (bx : Boxes) (self : UdpSocket) (buf : V) :=
  socket_send_to bx (udp_inner self) buf None.
Definition udp_send_to `{!BoundedBuf V T Bounds} (bx : Boxes) (self : UdpSocket) (buf : V)
    (socket_addr : SocketAddr) := socket_send_to bx (udp_inner self) buf (Some socket_addr).
Definition udp_send_zc `{!BoundedBuf V T Bounds} (self : UdpSocket) (buf : V) :=
  socket_send_zc (udp_inner self) buf.
Definition udp_sendmsg `{!BoundedBuf V T Bounds} `{!BoundedBuf U T' Bounds'} (bx : Boxes)
    (self : UdpSocket) (io_slices : list V) (socket_addr : option SocketAddr)
    (msg_control : option U) :=
  socket_sendmsg bx (udp_inner self) io_slices socket_addr msg_control.
Definition udp_sendmsg_zc `{!BoundedBuf V T Bounds} `{!BoundedBuf U T' Bounds'} (bx : Boxes)
    (self : UdpSocket) (io_slices : list V) (socket_addr : option SocketAddr)
    (msg_control : option U) :=
  socket_sendmsg_zc bx (udp_inner self) io_slices socket_addr msg_control.
Definition udp_recv_from `{!BoundedBuf V T Bounds} `{!BoundedBufMut V T Bounds} (bx : Boxes)
    (namelen : N) (self : UdpSocket) (buf : V) :=
  socket_recv_from bx namelen (udp_inner self) buf.
Definition udp_recvmsg `{!BoundedBuf V T Bounds} `{!BoundedBufMut V T Bounds} (bx : Boxes)
    (namelen : N) (self : UdpSocket) (buf : list V) :=
  socket_recvmsg bx namelen (udp_inner self) buf.
Definition udp_read (self : UdpSocket) (buf : Buffer) : Oneshot := socket_read (udp_inner self) buf.
Definition udp_read_fixed (self : UdpSocket) (buf : Buffer) :=
  socket_read_fixed (udp_inner self) buf.
Definition udp_write (self : UdpSocket) (buf : Buffer) : outcome Unsubmitted :=
  socket_write (udp_inner self) buf.
Definition udp_write_fixed (self : UdpSocket) (buf : Buffer) :=
  socket_write_fixed (udp_inner self) buf.
(** These two submit at once and return the operation. *)
Definition started (p : RecvFromMultishot * (RecvFromMultishot -> sqe)) : Start RecvFromMultishot :=
  mkStart p.1 (fun d => Ret (p.2 d, d)).
Definition udp_recv_from_multishot (bx : Boxes) (namelen : N) (self : UdpSocket)
    (buf_group_id : N) : Start RecvFromMultishot :=
  started (recv_from_multishot (sk_fd (udp_inner self)) buf_group_id (bx_iov bx) (bx_name bx)
             (bx_msghdr bx) namelen).
Definition udp_recv_from_multishot_with_batch_size (bx : Boxes) (namelen : N) (self : UdpSocket)
    (buf_group_id batch_size : N) : Start RecvFromMultishot :=
  started (recv_from_multishot_with_batch_size (sk_fd (udp_inner self)) buf_group_id batch_size
             (bx_iov bx) (bx_name bx) (bx_msghdr bx) namelen).

(** Whole writes, with the answers they meet (see [WriteAll.v]). *)
Definition tcp_write_fixed_all `{!BoundedBuf V Buffer Bounds} (answers : list Answer)
    (self : TcpStream) (buf : V) : outcome (Poll (BufResult unit V) * list sqe) :=
  write_fixed_all (sk_fd (ts_inner self)) answers buf.
Definition unix_write_fixed_all `{!BoundedBuf V Buffer Bounds} (answers : list Answer)
    (self : UnixStream) (buf : V) : outcome (Poll (BufResult unit V) * list sqe) :=
  write_fixed_all (sk_fd (us_inner self)) answers buf.

(** * [File] and the functions of [fs] *)
(** [File::from_shared_fd], [File::from_std]. *)
Definition file_from_shared_fd (fd : FdRef) : File := mkFile fd.
Definition file_from_std (file : Z) : File := file_from_shared_fd (mkFdRef file).
Definition start_result {T} (r : io_result (T * sqe)) : outcome (io_result (Start T)) :=
  Ret (map_ok made r).
(** [OpenOptions::open]. *)
Definition options_open (self : OpenOptions) (path : list byte) : Async Open (io_result FdRef) :=
  try_op (start_result (open path self)).
Definition file_open (path : list byte) : Async Open (io_result FdRef) :=
  options_open file_open_options path.
Definition file_create (path : list byte) : Async Open (io_result FdRef) :=
  options_open file_create_options path.
Definition file_read_at (self : File) (buf : Buffer) (pos : N) : outcome Unsubmitted :=
  read_at (f_fd self) buf pos.
Definition file_read_fixed_at `{!BoundedBuf V Buffer Bounds} `{!BoundedBufMut V Buffer Bounds}
    (self : File) (buf : V) (pos : N) : Async (ReadFixed V) (BufResult N V) :=
  unwrap_op (Ret (read_fixed_at (f_fd self) buf pos)).
Definition file_write_at (self : File) (buf : Buffer) (pos : N) : outcome Unsubmitted :=
  write_at (f_fd self) buf pos.
Definition file_write_fixed_at `{!BoundedBuf V Buffer Bounds} (self : File) (buf : V) (pos : N) :
    Async (WriteFixed V) (BufResult N V) := unwrap_op (Ret (write_fixed_at (f_fd self) buf pos)).
Definition file_sync_all (self : File) : Async Fsync (io_result unit) :=
  try_op (Ret (Ok (made (fsync (f_fd self))))).
Definition file_sync_data (self : File) : Async Fsync (io_result unit) :=
  try_op (Ret (Ok (made (datasync (f_fd self))))).
Definition file_fallocate (self : File) (offset len : N) (flags : Z) :
    Async Fallocate (io_result unit) :=
  try_op (Ret (Ok (made (fallocate (f_fd self) offset len flags)))).

Definition fs_remove_file (path : list byte) : Async Unlink (io_result unit) :=
  try_op (start_result (unlink_file path)).
Definition fs_rename (from to : list byte) : Async RenameAt (io_result unit) :=
  try_op (start_result (rename_at from to 0)).
Definition fs_create_dir (path : list byte) : Async Mkdir (io_result unit) :=
  try_op (start_result (make_dir path 511)).
Definition fs_remove_dir (path : list byte) : Async Unlink (io_result unit) :=
  try_op (start_result (unlink_dir path)).
Definition fs_symlink (src dst : list byte) : Async Symlink (io_result unit) :=
  try_op (start_result (symlink src dst)).

(** [no_op] of [src/src/lib.rs]. *)
Definition no_op_fn : Async NoOp (io_result unit) := unwrap_op (Ret (made no_op)).
End api.
