(* ===== verification/ApiSpec.v ===== *)
(** What the methods of sockets, streams and files ask of the kernel and what
    their callers get back: each call in terms of a contract for its kind
    (transfer, datagram, receipt), that says what memory, file, position and
    address the kernel is given, and where the buffers are in the answer. *)
From S2P Require Import Prelude Slab Buf Buffer BufSpec FixedBuf Types IoUring SlabList Op Driver Handle.
From S2P Require Import Libc OpenOptions ReadWrite ReadWriteSpec RecvMultishot IoOps Messages AsyncOp Api.

(** * Messages *)
Inductive message_kind : Type := SendMessage | SendZeroCopy | ReceiveMessage.
(** The memory a message is taken from or put into, where the kernel finds
    or leaves the address, and the control data; pointers with lengths. *)
Record message : Type := mkMessage {
  mg_kind : message_kind; mg_fd : Z; mg_regions : list Ref; mg_name : N * N; mg_control : N * N;
}.
(** What the kernel makes of an entry when the box for the header holds [h],
    and the array of the call the [slices]; nothing is known of other memory. *)
Definition message_of (bx : Boxes) (h : MsgHdr) (slices : list Ref) (o : opcode) : option message :=
  let through k fd hdr :=
    if decide (hdr = bx_msghdr bx /\ msg_iov h = bx_iov bx /\
               (N.to_nat (msg_iovlen h) <= length slices)%nat)
    then Some (mkMessage k fd (take (N.to_nat (msg_iovlen h)) slices)
                 (msg_name h, msg_namelen_ h) (msg_control h, msg_controllen_ h))
    else None in
  match o with
  | OpSendMsg fd hdr => through SendMessage fd hdr
  | OpSendMsgZc fd hdr => through SendZeroCopy fd hdr
  | OpRecvMsg fd hdr => through ReceiveMessage fd hdr
  | OpSendZc fd ptr len => Some (mkMessage SendZeroCopy fd [mkRef ptr len] (0, 0) (0, 0))
  | _ => None
  end.
(** A datagram is named by the boxed address, if there is one. *)
Definition named (bx : Boxes) (addr : option (list byte)) : N * N :=
  match addr with Some a => (bx_name bx, N.of_nat (length a)) | None => (0, 0) end.

Section spec.
Context {Prof : Profile} {Cq : Cqueue} {Lc : Libc} {Sa : SockAddrs} {Sf : SockAddrFrom}.
Context {slab : Type -> Type} {ring : Type} `{!SlabOps slab}.
Abbreviation Async := (AsyncFn (slab := slab) (ring := ring)).
Abbreviation oneshot := (OneshotFn ReadWriteData ReadWriteTransform).
Abbreviation failure err fl := (mkCqeResult (Err err) fl).
Abbreviation success n fl := (mkCqeResult (Ok n) fl).

(** * Transfers through a whole buffer *)

(** [o] reads from [fd] at [off] into the allocations of [buf], up to their
    capacities. The count and the allocations come back, with the bytes read
    marked as initialised; an error comes back with the allocations. *)
Definition reads_into (fd : FdRef) (off : N) (buf : Buffer) (o : oneshot) : Prop :=
  exists u, o = Ret u /\ asks Read fd off (fill buf) (u_sqe u) /\
    u_stable_data u = mkRwData fd (fill buf) /\
    (forall c, cqe_ok c -> (0 <= cqe_result c)%Z -> Z.to_N (cqe_result c) <= sum_N (caps buf) ->
       exists b', finish u c = Ret (Ok (Z.to_N (cqe_result c), b')) /\
         iov_base <$> iovecs b' = iov_base <$> iovecs buf /\ caps b' = caps buf /\
         iov_len <$> iovecs b' = spread (caps buf) (Z.to_N (cqe_result c))) /\
    (forall c, cqe_ok c -> (cqe_result c < 0)%Z ->
       finish u c = Ret (Err (mkError (OsError (- cqe_result c)) (fill buf)))).
(** [o] writes the initialised bytes of [buf] to [fd] at [off], and the buffer
    comes back as it was. *)
Definition writes_from (fd : FdRef) (off : N) (buf : Buffer) (o : oneshot) : Prop :=
  exists u, o = Ret u /\ asks Write fd off buf (u_sqe u) /\ u_stable_data u = mkRwData fd buf /\
    (forall c, cqe_ok c -> (0 <= cqe_result c)%Z ->
       finish u c = Ret (Ok (Z.to_N (cqe_result c), buf))) /\
    (forall c, cqe_ok c -> (cqe_result c < 0)%Z ->
       finish u c = Ret (Err (mkError (OsError (- cqe_result c)) buf))).

Lemma read_at_reads fd off buf :
  buffer_ok buf -> buffer_typed buf -> reads_into fd off buf (read_at fd buf off).
Proof.
  intros Hok Hty. destruct (read_at_asks fd buf off Hok Hty) as (u & E & Hd & Hp & Ha).
  exists u. split_and!; [done..| |].
  - intros c Hc Hn Hle. destruct (read_done u fd buf c) as (b' & H1 & H2 & H3 & H4 & _); try done.
    by exists b'.
  - intros c Hc Hn. by apply rw_failed with (fd := fd) (k := Read).
Qed.
Lemma write_at_writes fd off buf :
  buffer_ok buf -> buffer_typed buf -> writes_from fd off buf (write_at fd buf off).
Proof.
  intros Hok Hty. destruct (write_at_asks fd buf off Hok Hty) as (u & E & Hd & Hp & Ha).
  exists u. split_and!; [done..| |].
  - intros c Hc Hn. by apply write_done with (fd := fd).
  - intros c Hc Hn. by apply rw_failed with (fd := fd) (k := Write).
Qed.

(** * Transfers through a view of a registered buffer *)

(** [f] reads through the registered buffer under [buf], into the view, or
    panics if it is not a registered one. The view comes back, on success
    with the bytes read marked as initialised. *)
Definition reads_fixed `{!BoundedBuf V Buffer Bounds} `{!BoundedBufMut V Buffer Bounds}
    (fd : FdRef) (off : N) (buf : V) (f : Async (ReadFixed V) (BufResult N V)) : Prop :=
  let d := mkReadFixed fd buf in
  (exists entry, f = unwrap_op (Ret (mkStart d entry)) /\
     forall p n, stable_mut_ptr buf = Ret p -> bytes_total buf = Ret n ->
       buffer_typed (get_buf buf) ->
       match registered (get_buf buf) with
       | Some i => exists e, entry d = Ret (e, d) /\ sqe_flags e = 0 /\
           transfer_of (sqe_op e) (get_buf buf) =
             Some (mkTransfer Read (fr_fd fd) off [mkRef p (as_u32 n)] (Some i))
       | None => exists m, entry d = Panic (PUnreachable m)
       end) /\
  (forall err fl, complete d (failure err fl) = Ret (Err (mkError err buf))) /\
  (forall n fl buf', set_init n buf = Ret buf' -> complete d (success n fl) = Ret (Ok (n, buf'))).
Definition writes_fixed `{!BoundedBuf V Buffer Bounds}
    (fd : FdRef) (off : N) (buf : V) (f : Async (WriteFixed V) (BufResult N V)) : Prop :=
  let d := mkWriteFixed fd buf in
  (exists entry, f = unwrap_op (Ret (mkStart d entry)) /\
     forall p n, stable_ptr buf = Ret p -> bytes_init buf = Ret n ->
       buffer_typed (get_buf buf) ->
       match registered (get_buf buf) with
       | Some i => exists e, entry d = Ret (e, d) /\ sqe_flags e = 0 /\
           transfer_of (sqe_op e) (get_buf buf) =
             Some (mkTransfer Write (fr_fd fd) off [mkRef p (as_u32 n)] (Some i))
       | None => exists m, entry d = Panic (PUnreachable m)
       end) /\
  (forall err fl, complete d (failure err fl) = Ret (Err (mkError err buf))) /\
  (forall n fl, complete d (success n fl) = Ret (Ok (n, buf))).

Lemma read_fixed_reads `{!BoundedBuf V Buffer Bounds} `{!BoundedBufMut V Buffer Bounds}
    fd off (buf : V) :
  reads_fixed fd off buf (unwrap_op (Ret (read_fixed_at fd buf off))).
Proof.
  split_and!; [eexists; split; [done|]|done|].
  - intros p n Hp Hn Hty. unfold read_fixed_sqe. cbn. rewrite Hp, Hn. cbn.
    rewrite fixed_index_typed by done. cbn. destruct (registered _); cbn; by eexists.
  - intros n fl buf' H. cbn. unfold complete_read_fixed. cbn. by rewrite H.
Qed.
Lemma write_fixed_writes `{!BoundedBuf V Buffer Bounds} fd off (buf : V) :
  writes_fixed fd off buf (unwrap_op (Ret (write_fixed_at fd buf off))).
Proof.
  split_and!; [eexists; split; [done|]|done..].
  intros p n Hp Hn Hty. unfold write_fixed_sqe. cbn. rewrite Hp, Hn. cbn.
  rewrite fixed_index_typed by done. cbn. destruct (registered _); cbn; by eexists.
Qed.

(** * Datagrams *)

(** [f] sends the initialised bytes of [buf] to [addr], or to the peer of a
    connected socket; the buffer comes back with the count or the error. *)
Definition sends `{!BoundedBuf V T Bounds} (bx : Boxes) (fd : FdRef) (buf : V)
    (addr : option SocketAddr) (f : Async (SendTo V) (BufResult N V)) : Prop :=
  forall r, io_slice buf = Ret r -> exists d e, f = unwrap_op (Ret (made (d, e))) /\
    sqe_flags e = 0 /\ st_addr d = sockaddr_from <$> addr /\
    message_of bx (st_msghdr d) (st_slices d) (sqe_op e) =
      Some (mkMessage SendMessage (fr_fd fd) [r] (named bx (st_addr d)) (0, 0)) /\
    (forall err fl, complete d (failure err fl) = Ret (Err (mkError err buf))) /\
    (forall n fl, complete d (success n fl) = Ret (Ok (n, buf))).
Definition sends_zc `{!BoundedBuf V T Bounds} (bx : Boxes) (fd : FdRef) (buf : V)
    (f : Async (SendZc V) (BufResult N V)) : Prop :=
  forall r, io_slice buf = Ret r -> exists d e, f = unwrap_multi (Ret (made (d, e))) /\
    sqe_flags e = 0 /\
    message_of bx zeroed_msghdr [] (sqe_op e) =
      Some (mkMessage SendZeroCopy (fr_fd fd) [mkRef (ref_ptr r) (as_u32 (ref_len r))] (0, 0) (0, 0)) /\
    (forall err fl, complete d (failure err fl) = Ret (Err (mkError err buf))) /\
    (forall n fl, n < 2 ^ 32 -> complete d (success n fl) = Ret (Ok (n, buf))).
(** The control data of a message, as [stable_ptr] and [bytes_init] give it. *)
Definition control_of `{!BoundedBuf U T Bounds} (ctl : option U) (c : N * N) : Prop :=
  match ctl with
  | Some u => stable_ptr u = Ret c.1 /\ bytes_init u = Ret c.2
  | None => c = (0, 0)
  end.
Definition sends_msg `{!BoundedBuf V T Bounds} `{!BoundedBuf U T' Bounds'} (bx : Boxes)
    (fd : FdRef) (bufs : list V) (addr : option SocketAddr) (ctl : option U)
    (f : Async (SendMsg V U) (io_result N * list V * option U)) : Prop :=
  forall rs c, mapM_outcome io_slice bufs = Ret rs -> control_of ctl c ->
    exists d e, f = unwrap_op (Ret (made (d, e))) /\ sqe_flags e = 0 /\
    sm_addr d = sockaddr_from <$> addr /\
    message_of bx (sm_msghdr d) (sm_slices d) (sqe_op e) =
      Some (mkMessage SendMessage (fr_fd fd) rs (named bx (sm_addr d)) c) /\
    (forall r fl, complete d (mkCqeResult r fl) = Ret (r, bufs, ctl)).
Definition sends_msg_zc `{!BoundedBuf V T Bounds} `{!BoundedBuf U T' Bounds'} (bx : Boxes)
    (fd : FdRef) (bufs : list V) (addr : option SocketAddr) (ctl : option U)
    (f : Async (SendMsgZc V U) (io_result N * list V * option U)) : Prop :=
  forall rs c, mapM_outcome io_slice bufs = Ret rs -> control_of ctl c ->
    exists d e, f = unwrap_multi (Ret (made (d, e))) /\ sqe_flags e = 0 /\
    sm_addr (smz_msg d) = sockaddr_from <$> addr /\
    message_of bx (sm_msghdr (smz_msg d)) (sm_slices (smz_msg d)) (sqe_op e) =
      Some (mkMessage SendZeroCopy (fr_fd fd) rs (named bx (sm_addr (smz_msg d))) c) /\
    (forall err fl, complete d (failure err fl) = Ret (Err err, bufs, ctl)) /\
    (forall n fl, n < 2 ^ 32 -> complete d (success n fl) = Ret (Ok n, bufs, ctl)).

(** [f] receives into the whole capacity of [buf]. On success the sender's
    address, which the kernel left in the box, comes back with the count and
    the buffer, its received bytes marked as initialised. *)
Definition receives `{!BoundedBuf V T Bounds} `{!BoundedBufMut V T Bounds} (bx : Boxes)
    (namelen : N) (fd : FdRef) (buf : V)
    (f : Async (RecvFrom V) (BufResult (N * SocketAddr) V)) : Prop :=
  forall r, io_slice_mut buf = Ret r -> exists hdr e,
    let d name := mkRecvFrom fd buf [r] name hdr in
    f = unwrap_op (Ret (made (d [], e))) /\ sqe_flags e = 0 /\
    message_of bx hdr [r] (sqe_op e) =
      Some (mkMessage ReceiveMessage (fr_fd fd) [r] (bx_name bx, as_u32 namelen) (0, 0)) /\
    (forall name err fl, complete (d name) (failure err fl) = Ret (Err (mkError err buf))) /\
    (forall name addr n fl buf', as_socket name = Some addr -> set_init n buf = Ret buf' ->
       complete (d name) (success n fl) = Ret (Ok (n, addr, buf'))).
Definition receives_msg `{!BoundedBuf V T Bounds} `{!BoundedBufMut V T Bounds} (bx : Boxes)
    (namelen : N) (fd : FdRef) (bufs : list V)
    (f : Async (RecvMsg V) (BufResult (N * SocketAddr) (list V))) : Prop :=
  forall rs, mapM_outcome io_slice_mut bufs = Ret rs -> exists hdr e,
    let d name := mkRecvMsg fd bufs rs name hdr in
    f = unwrap_op (Ret (made (d [], e))) /\ sqe_flags e = 0 /\
    message_of bx hdr rs (sqe_op e) =
      Some (mkMessage ReceiveMessage (fr_fd fd) rs (bx_name bx, as_u32 namelen) (0, 0)) /\
    (forall name err fl, complete (d name) (failure err fl) = Ret (Err (mkError err bufs))) /\
    (forall name addr n fl bufs', as_socket name = Some addr -> init_all n bufs = Ret bufs' ->
       complete (d name) (success n fl) = Ret (Ok (n, addr, bufs'))).

Lemma name_of_named bx a : name_of bx a = named bx a.
Proof. by destruct a. Qed.
Lemma add_usize_0 n : n < 2 ^ 32 -> add_usize 0 n = Ret n.
Proof.
  intros H. apply add_usize_Ret. unfold usize_max.
  change (2 ^ 32) with 4294967296 in H. lia.
Qed.
(** A header with as many slices as the array has. *)
Lemma message_through bx k fd slices name namelen ctl ctllen (mk : Z -> N -> opcode) :
  (forall h, message_of bx h slices (mk fd (bx_msghdr bx)) =
     if decide (bx_msghdr bx = bx_msghdr bx /\ msg_iov h = bx_iov bx /\
                (N.to_nat (msg_iovlen h) <= length slices)%nat)
     then Some (mkMessage k fd (take (N.to_nat (msg_iovlen h)) slices)
                  (msg_name h, msg_namelen_ h) (msg_control h, msg_controllen_ h))
     else None) ->
  message_of bx (mkMsgHdr name namelen (bx_iov bx) (N.of_nat (length slices)) ctl ctllen) slices
    (mk fd (bx_msghdr bx)) = Some (mkMessage k fd slices (name, namelen) (ctl, ctllen)).
Proof.
  intros ->. rewrite decide_True by (cbn; split_and!; try done; lia).
  cbn. by rewrite Nat2N.id, firstn_all.
Qed.

Lemma send_to_sends `{!BoundedBuf V T Bounds} bx (s : Socket) (buf : V) addr :
  sends bx (sk_fd s) buf addr (socket_send_to bx s buf addr).
Proof.
  intros r Hr. unfold socket_send_to, send_to. rewrite Hr. cbn [mbind outcome_bind].
  rewrite name_of_named. destruct (named bx (sockaddr_from <$> addr)) as [p n] eqn:E.
  eexists _, _. split; [done|]. split_and!; [done..| |done|done].
  cbn [st_addr st_msghdr st_slices sqe_op build]. rewrite E.
  by apply (message_through bx SendMessage _ [r] p n 0 0 OpSendMsg).
Qed.
Lemma send_zc_sends `{!BoundedBuf V T Bounds} bx (s : Socket) (buf : V) :
  sends_zc bx (sk_fd s) buf (socket_send_zc s buf).
Proof.
  intros r Hr. unfold socket_send_zc, send_zc. rewrite Hr. eexists _, _.
  split; [done|]. split_and!; [done..|]. intros n fl Hn.
  cbn. unfold total_result. cbn. by rewrite add_usize_0.
Qed.
Lemma send_header_Ret `{!BoundedBuf V T Bounds} `{!BoundedBuf U T' Bounds'} bx fd (bufs : list V)
    addr (ctl : option U) rs c :
  mapM_outcome io_slice bufs = Ret rs -> control_of ctl c ->
  send_header bx fd bufs addr ctl =
    Ret (mkSendMsg fd bufs rs (sockaddr_from <$> addr) ctl
           (mkMsgHdr (named bx (sockaddr_from <$> addr)).1 (named bx (sockaddr_from <$> addr)).2
              (bx_iov bx) (N.of_nat (length rs)) c.1 c.2)).
Proof.
  intros Hr Hc. unfold send_header. rewrite Hr. cbn [mbind outcome_bind]. rewrite name_of_named.
  destruct (named _ _) as [p n]. unfold control_of in Hc. destruct ctl as [u|].
  - destruct Hc as [-> ->]. done.
  - by subst c.
Qed.
Lemma sendmsg_sends `{!BoundedBuf V T Bounds} `{!BoundedBuf U T' Bounds'} bx (s : Socket)
    (bufs : list V) addr (ctl : option U) :
  sends_msg bx (sk_fd s) bufs addr ctl (socket_sendmsg bx s bufs addr ctl).
Proof.
  intros rs [p n] Hr Hc. unfold socket_sendmsg, sendmsg. rewrite (send_header_Ret _ _ _ _ _ _ _ Hr Hc).
  eexists _, _. split; [done|]. split_and!; [done..| |done]. cbn [sm_addr sm_msghdr sm_slices].
  rewrite (surjective_pairing (named _ _)). by apply message_through.
Qed.
Lemma sendmsg_zc_sends `{!BoundedBuf V T Bounds} `{!BoundedBuf U T' Bounds'} bx (s : Socket)
    (bufs : list V) addr (ctl : option U) :
  sends_msg_zc bx (sk_fd s) bufs addr ctl (socket_sendmsg_zc bx s bufs addr ctl).
Proof.
  intros rs [p n] Hr Hc. unfold socket_sendmsg_zc, sendmsg_zc.
  rewrite (send_header_Ret _ _ _ _ _ _ _ Hr Hc).
  eexists _, _. split; [done|]. split_and!; [done..| |done|].
  - cbn [smz_msg sm_addr sm_msghdr sm_slices].
    rewrite (surjective_pairing (named _ _)). by apply message_through.
  - intros k fl Hk. cbn. unfold total_result. cbn. by rewrite add_usize_0.
Qed.
Lemma recv_from_receives `{!BoundedBuf V T Bounds} `{!BoundedBufMut V T Bounds} bx namelen
    (s : Socket) (buf : V) :
  receives bx namelen (sk_fd s) buf (socket_recv_from bx namelen s buf).
Proof.
  intros r Hr. unfold socket_recv_from, recv_from. rewrite Hr. eexists _, _. cbv zeta.
  split; [done|]. split_and!; [done| |done|].
  - by apply (message_through bx ReceiveMessage _ [r] _ _ 0 0 OpRecvMsg).
  - intros name addr n fl buf' Ha Hs. cbn. rewrite Ha. cbn. by rewrite Hs.
Qed.
Lemma recvmsg_receives `{!BoundedBuf V T Bounds} `{!BoundedBufMut V T Bounds} bx namelen
    (s : Socket) (bufs : list V) :
  receives_msg bx namelen (sk_fd s) bufs (socket_recvmsg bx namelen s bufs).
Proof.
  intros rs Hr. unfold socket_recvmsg, recvmsg. rewrite Hr. eexists _, _. cbv zeta.
  split; [done|]. split_and!; [done| |done|].
  - by apply (message_through bx ReceiveMessage _ rs _ _ 0 0 OpRecvMsg).
  - intros name addr n fl bufs' Ha Hs. cbn. rewrite Ha. cbn. by rewrite Hs.
Qed.

(** [f] submits exactly this entry. *)
Definition submits `{!Completable T (io_result A)} (f : Async T (io_result A)) (e : sqe) : Prop :=
  exists d, f = try_op (Ret (Ok (made (d, e)))).
(** The call returns nothing but whether it worked. *)
Definition only_fails `{!Completable T (io_result unit)} (f : Async T (io_result unit)) (e : sqe) :
  Prop := exists d, f = try_op (Ret (Ok (made (d, e)))) /\
    (forall err fl, complete d (failure err fl) = Ret (Err err)) /\
    (forall n fl, complete d (success n fl) = Ret (Ok tt)).

(** A contract for each of the calls in a list. *)
Ltac each_call tac := repeat (apply Forall_cons_2; [tac|]); try apply Forall_nil_2.

(** C29. Sockets and streams do what their names say. Each call of a [Socket],
    [TcpStream], [UnixStream] or [UdpSocket] that submits one operation acts on
    the descriptor of that very socket, and a transfer at offset 0. A read
    asks the kernel to fill the capacity of the caller's buffer, a write to
    take its initialised bytes, through the registered index for the fixed
    kinds, which panic on other buffers; a send names the address it was given
    or none, with the control data; a receipt names the box for the address.
    Every one returns the caller's buffers, as they were or, after a read or a
    receipt, with the bytes the kernel wrote marked as initialised; an error
    brings them back too. (A failed plain read brings them back prepared for
    the kernel, see [read_failed_exposes].) No entry is linked to another. *)
Theorem socket_calls (s : Socket) (bx : Boxes) (namelen : N) :
  let fd := sk_fd s in
  let tcp := mkTcpStream s in let unix := mkUnixStream s in let udp := mkUdpSocket s in
  (forall buf, buffer_ok buf -> buffer_typed buf ->
     Forall (reads_into fd 0 buf)
       [socket_read s buf; tcp_read tcp buf; unix_read unix buf; udp_read udp buf] /\
     Forall (writes_from fd 0 buf)
       [socket_write s buf; tcp_write tcp buf; tcp_writev tcp buf; unix_write unix buf;
        unix_writev unix buf; udp_write udp buf]) /\
  (forall V Bounds (B : BoundedBuf V Buffer Bounds) (M : BoundedBufMut V Buffer Bounds) (buf : V),
     Forall (reads_fixed fd 0 buf) [socket_read_fixed s buf; unix_read_fixed unix buf]) /\
  (forall V Bounds (B : BoundedBuf V Buffer Bounds) (buf : V),
     Forall (writes_fixed fd 0 buf)
       [socket_write_fixed s buf; tcp_write_fixed tcp buf; unix_write_fixed unix buf]) /\
  (forall buf : Buffer,
     Forall (reads_fixed fd 0 buf) [tcp_read_fixed tcp buf; udp_read_fixed udp buf] /\
     writes_fixed fd 0 buf (udp_write_fixed udp buf)) /\
  (forall V T Bounds (B : BoundedBuf V T Bounds) (buf : V) addr,
     sends bx fd buf addr (socket_send_to bx s buf addr) /\
     sends bx fd buf None (udp_send bx udp buf) /\
     (forall a, sends bx fd buf (Some a) (udp_send_to bx udp buf a)) /\
     Forall (sends_zc bx fd buf) [socket_send_zc s buf; udp_send_zc udp buf]) /\
  (forall V T Bounds U T' Bounds' (B : BoundedBuf V T Bounds) (B' : BoundedBuf U T' Bounds')
     (bufs : list V) addr (ctl : option U),
     Forall (sends_msg bx fd bufs addr ctl)
       [socket_sendmsg bx s bufs addr ctl; udp_sendmsg bx udp bufs addr ctl] /\
     Forall (sends_msg_zc bx fd bufs addr ctl)
       [socket_sendmsg_zc bx s bufs addr ctl; udp_sendmsg_zc bx udp bufs addr ctl]) /\
  (forall V T Bounds (B : BoundedBuf V T Bounds) (M : BoundedBufMut V T Bounds) (buf : V)
     (bufs : list V),
     Forall (receives bx namelen fd buf)
       [socket_recv_from bx namelen s buf; udp_recv_from bx namelen udp buf] /\
     Forall (receives_msg bx namelen fd bufs)
       [socket_recvmsg bx namelen s bufs; udp_recvmsg bx namelen udp bufs]) /\
  submits (socket_accept_op namelen bx s)
    (build (OpAccept (fr_fd fd) (bx_name bx) namelen O_CLOEXEC)) /\
  (forall addr, only_fails (udp_connect bx udp addr)
     (build (OpConnect (fr_fd fd) (bx_name bx) (N.of_nat (length (sockaddr_from addr)))))) /\
  (forall group size,
     Forall (fun st => st_entry st (st_data st) =
               Ret (build (OpRecvMsgMulti (fr_fd fd) (bx_msghdr bx) group), st_data st))
       [udp_recv_from_multishot bx namelen udp group;
        udp_recv_from_multishot_with_batch_size bx namelen udp group size]).
Proof.
  cbv zeta. split_and!.
  - intros buf Hok Hty.
    split; each_call ltac:(by (apply read_at_reads || apply write_at_writes)).
  - intros V Bounds B M buf. each_call ltac:(apply read_fixed_reads).
  - intros V Bounds B buf. each_call ltac:(apply write_fixed_writes).
  - intros buf. split; [each_call ltac:(apply read_fixed_reads)|apply write_fixed_writes].
  - intros V T Bounds B buf addr. split_and!; [apply send_to_sends..| |].
    + intros a. apply send_to_sends.
    + each_call ltac:(apply send_zc_sends).
  - intros V T Bounds U T' Bounds' B B' bufs addr ctl.
    split; each_call ltac:(apply sendmsg_sends || apply sendmsg_zc_sends).
  - intros V T Bounds B M buf bufs.
    split; each_call ltac:(apply recv_from_receives || apply recvmsg_receives).
  - by eexists.
  - intros addr. eexists. by split_and!.
  - intros group size. by each_call idtac.
Qed.

(** C30. Files are read and written where the caller says. [read_at] and
    [write_at] of a [File], and the fixed kinds, are transfers between the
    file's own descriptor, at the position that was passed, and the buffer:
    a read fills it, a write takes from it, and it comes back in every case,
    with the count, and after a read with the bytes read marked as
    initialised. [sync_all] and [sync_data] differ in the flag that tells the
    kernel to skip metadata; [fallocate] passes its offset and length in the
    order the kernel wants; the three answer nothing but an error. *)
Theorem file_calls (f : File) (pos : N) :
  let fd := f_fd f in
  (forall buf, buffer_ok buf -> buffer_typed buf ->
     reads_into fd pos buf (file_read_at f buf pos) /\
     writes_from fd pos buf (file_write_at f buf pos)) /\
  (forall V Bounds (B : BoundedBuf V Buffer Bounds) (M : BoundedBufMut V Buffer Bounds) (buf : V),
     reads_fixed fd pos buf (file_read_fixed_at f buf pos) /\
     writes_fixed fd pos buf (file_write_fixed_at f buf pos)) /\
  only_fails (file_sync_all f) (build (OpFsync (fr_fd fd) false)) /\
  only_fails (file_sync_data f) (build (OpFsync (fr_fd fd) true)) /\
  (forall offset len flags,
     only_fails (file_fallocate f offset len flags)
       (build (OpFallocate (fr_fd fd) len offset flags))).
Proof.
  cbv zeta. split_and!.
  - intros buf Hok Hty. split; [by apply read_at_reads|by apply write_at_writes].
  - intros V Bounds B M buf. split; [apply read_fixed_reads|apply write_fixed_writes].
  - eexists. by split_and!.
  - eexists. by split_and!.
  - intros offset len flags. eexists. by split_and!.
Qed.

(** A function of this kind that fails before it submits. *)
Definition rejected {T A} (f : Async T (io_result A)) : Prop :=
  exists e, forall `(U : Uring ring) `(E : Errno) fuel cx w,
  poll_async (Uring0 := U) fuel f Unstarted cx w = Ret (Ready (Err e), Resolved, [], w).
Definition nul_path : io_error := CustomError InvalidInput "data provided contains a nul byte".

Lemma try_rejected {T A} `{!Completable T (io_result A)} (r : io_result (T * sqe)) e :
  r = Err e -> rejected (try_op (slab := slab) (ring := ring) (start_result r)).
Proof. intros ->. by exists e. Qed.
Lemma cstr_nul (p : list byte) : Byte.x00 ∈ p -> cstr p = Err nul_path.
Proof. intros H. unfold cstr. by rewrite bool_decide_true. Qed.

(** A path with a zero byte never reaches the kernel. Each function that
    takes a path answers the error at its first poll, without a runtime if
    need be, with nothing submitted and the driver untouched; so do the two
    that take two paths, whichever of them is bad. ([fs::statx] panics
    instead, see [Statx.v].) *)
Theorem nul_path_rejected (p q : list byte) :
  Byte.x00 ∈ p ->
  rejected (file_open p) /\ rejected (file_create p) /\ rejected (fs_remove_file p) /\
  rejected (fs_create_dir p) /\ rejected (fs_remove_dir p) /\
  rejected (fs_rename p q) /\ rejected (fs_rename q p) /\
  rejected (fs_symlink p q) /\ rejected (fs_symlink q p).
Proof.
  intros H%cstr_nul.
  assert (Hq : exists e, match cstr q with Ok _ => Err nul_path | Err e => Err e end = Err e :> io_result unit).
  { destruct (cstr q); by eexists. }
  split_and!.
  1-6,8: by eapply try_rejected; unfold file_open, file_create, options_open, open, unlink_file, unlink_dir, unlink, make_dir, rename_at, symlink; rewrite H.
  all: unfold fs_rename, fs_symlink, rename_at, symlink; rewrite H.
  all: destruct (cstr q); by eapply try_rejected.
Qed.
End spec.

(** * Concrete calls *)
#[local] Existing Instance debug_profile.
Import RecvMultishot.Socket.
#[local] Instance demo_from : SockAddrFrom := fun a => a.
Definition demo_buf : Buffer := mkBuffer 9000 [mkIovec 100 3] [8] UdUnit TyVec (fun _ _ _ _ => Ret []).

Lemma demo_buf_ok : buffer_ok demo_buf.
Proof.
  split; [done| |vm_compute; discriminate].
  constructor; [vm_compute; discriminate|constructor].
Qed.

Lemma socket_calls_witness :
  writes_from (mkFdRef 5) 0 demo_buf (tcp_write (mkTcpStream (mkSocket (mkFdRef 5))) demo_buf).
Proof.
  destruct (proj1 (socket_calls (slab := gmap N) (ring := script_ring) (mkSocket (mkFdRef 5))
                     (mkBoxes 1 2 3) 28) demo_buf demo_buf_ok I) as [_ H].
  exact (Forall_inv (Forall_inv_tail H)).
Defined.

Lemma file_calls_witness :
  reads_into (mkFdRef 5) 4096 demo_buf (file_read_at (mkFile (mkFdRef 5)) demo_buf 4096).
Proof.
  exact (proj1 (proj1 (file_calls (slab := gmap N) (ring := script_ring) (mkFile (mkFdRef 5)) 4096)
                  demo_buf demo_buf_ok I)).
Defined.

Lemma nul_path_rejected_witness :
  rejected (fs_rename (slab := gmap N) (ring := script_ring) [Byte.x61] [Byte.x61; Byte.x00]).
Proof.
  apply (nul_path_rejected (slab := gmap N) (ring := script_ring) [Byte.x61; Byte.x00] [Byte.x61]).
  apply list_elem_of_further, list_elem_of_here.
Defined.
