(* ===== verification/Path.v ===== *)
(** [std::path::Path] on Unix, as far as [src/src/fs/] uses it: a path is its
    bytes, and [parent] works on its components. Repeated separators, a
    trailing separator, and a component ["."] that is not the first are no
    components. *)
From S2P Require Import Prelude.

Definition sep : Byte.byte := Byte.x2f.
Definition dot : Byte.byte := Byte.x2e.
Abbreviation Path := (list Byte.byte).

(** Drops what is no component from the end of a path without its root; the
    argument is reversed. *)
Fixpoint trim (has_root : bool) (r : list Byte.byte) : list Byte.byte :=
  match r with
  | c :: r' =>
      if decide (c = sep) then trim has_root r'
      else if decide (c = dot) then
        match r' with
        | [] => if has_root then [] else r
        | c' :: _ => if decide (c' = sep) then trim has_root r' else r
        end
      else r
  | [] => []
  end.
(** Drops the last component. *)
Fixpoint drop_component (r : list Byte.byte) : list Byte.byte :=
  match r with
  | c :: r' => if decide (c = sep) then r else drop_component r'
  | [] => []
  end.
Definition split_root (p : Path) : bool * list Byte.byte :=
  match p with
  | c :: p' => if decide (c = sep) then (true, p') else (false, p)
  | [] => (false, [])
  end.

(** [Path::parent]: [None] for the root and for the empty path. *)
Definition parent (p : Path) : option Path :=
  let '(has_root, body) := split_root p in
  match trim has_root (rev body) with
  | [] => None
  | r => Some ((if has_root then [sep] else []) ++ rev (trim has_root (drop_component r)))
  end.

Lemma trim_length b r : (length (trim b r) <= length r)%nat.
Proof.
  induction r as [|c r IH]; [done|]. cbn.
  repeat case_decide; cbn; try lia. destruct r as [|c' r']; [by destruct b; cbn; lia|].
  case_decide; cbn in *; lia.
Qed.
Lemma trim_head b r c r' : trim b r = c :: r' -> c <> sep.
Proof.
  induction r as [|x r IH]; [done|]. cbn. repeat case_decide; [done| |by intros [= <- <-]].
  destruct r as [|y r]; [by destruct b; intros [= <- <-]|].
  case_decide; [done|by intros [= <- <-]].
Qed.
Lemma drop_component_length r : (length (drop_component r) <= length r)%nat.
Proof. induction r as [|c r IH]; cbn; [lia|]. case_decide; cbn; lia. Qed.

(** The parent is shorter: climbing up ends. *)
Lemma parent_shorter p q : parent p = Some q -> (length q < length p)%nat.
Proof.
  unfold parent. destruct (split_root p) as [b body] eqn:E.
  assert (Hl : length p = ((if b then 1 else 0) + length body)%nat).
  { destruct p as [|c p]; cbn in E; [by injection E as <- <-|].
    case_decide; by injection E as <- <-. }
  destruct (trim b (rev body)) as [|c r] eqn:Et; [done|]. intros [= <-].
  pose proof (trim_length b (rev body)) as H. rewrite Et, length_rev in H.
  pose proof (trim_length b (drop_component (c :: r))) as H1.
  pose proof (drop_component_length r) as H2. pose proof (trim_head _ _ _ _ Et).
  cbn in H1. rewrite decide_False in H1 by done.
  rewrite length_app, length_rev. cbn in *. rewrite decide_False by done.
  destruct b; cbn in *; lia.
Qed.

Lemma elem_of_rev {A} (l : list A) x : x ∈ rev l <-> x ∈ l.
Proof. by rewrite !list_elem_of_In, <- in_rev. Qed.
Lemma trim_subset b r x : x ∈ trim b r -> x ∈ r.
Proof.
  induction r as [|c r IH]; [done|]. cbn. repeat case_decide; intros Hx; try (by right; auto); [|done].
  destruct r as [|c' r]; [destruct b; [by apply elem_of_nil in Hx|done]|]. case_decide; [right; auto|done].
Qed.
Lemma drop_component_subset r x : x ∈ drop_component r -> x ∈ r.
Proof. induction r as [|c r IH]; [done|]. cbn. case_decide; [done|]. intros. right. auto. Qed.

(** The parent has no bytes of its own. *)
Lemma split_root_subset p x :
  let '(b, body) := split_root p in x ∈ (if b then [sep] else []) ++ body -> x ∈ p.
Proof. destruct p as [|c p]; cbn; [by intros|]. case_decide; cbn; intros; by subst. Qed.
Lemma parent_subset p q x : parent p = Some q -> x ∈ q -> x ∈ p.
Proof.
  unfold parent. pose proof (split_root_subset p x) as Hp.
  destruct (split_root p) as [b body]. destruct (trim b (rev body)) as [|c r] eqn:Et; [done|].
  intros Hq Hx. apply Hp.
  assert (Hq' : q = (if b then [sep] else []) ++ rev (trim b (drop_component (c :: r))))
    by congruence.
  rewrite Hq' in Hx.
  apply elem_of_app in Hx as [Hx|Hx]; apply elem_of_app; [by left|right].
  apply elem_of_rev. apply elem_of_rev, trim_subset in Hx.
  apply (trim_subset b). rewrite Et. by apply drop_component_subset.
Qed.

(** A path whose last written component is a ["."] after a separator; the
    kernel does not create it. *)
Fixpoint drop_seps (r : list Byte.byte) : list Byte.byte :=
  match r with
  | c :: r' => if decide (c = sep) then drop_seps r' else r
  | [] => []
  end.
Definition dotted (p : Path) : bool :=
  match drop_seps (rev p) with
  | c :: c' :: _ => bool_decide (c = dot) && bool_decide (c' = sep)
  | _ => false
  end.

Lemma trim_dot b r t : trim b r = dot :: t -> match t with c :: _ => c <> sep | [] => b = false end.
Proof.
  induction r as [|x r IH]; [done|]. cbn. repeat case_decide; [done| |congruence].
  destruct r as [|y r]; [by destruct b; intros [= _ <-]|].
  case_decide; [done|by intros [= _ <-]].
Qed.
Lemma parent_not_dotted p q : parent p = Some q -> dotted q = false.
Proof.
  unfold parent, dotted. destruct (split_root p) as [b body].
  destruct (trim b (rev body)) as [|c0 l]; [done|]. intros [= <-].
  match goal with |- context [trim b ?r] => destruct (trim b r) as [|c t] eqn:E end;
    [by destruct b|].
  rewrite rev_app_distr, rev_involutive. cbn. rewrite decide_False by (by eapply trim_head).
  destruct (decide (c = dot)) as [->|Hc].
  - apply trim_dot in E. destruct t as [|c' t]; [by subst b|].
    cbn. by rewrite (bool_decide_eq_false_2 (c' = sep)).
  - rewrite (bool_decide_eq_false_2 (c = dot)) by done. by destruct (t ++ _).
Qed.

(** ["/a//b/"], ["a/./b"], ["a"], ["/a"], ["/."], ["."]. *)
Example parents :
  parent [sep; Byte.x61; sep; sep; Byte.x62; sep] = Some [sep; Byte.x61] /\
  parent [Byte.x61; sep; dot; sep; Byte.x62] = Some [Byte.x61] /\
  parent [Byte.x61] = Some [] /\ parent [sep; Byte.x61] = Some [sep] /\
  parent [sep; dot] = None /\ parent [dot] = Some [].
Proof. by vm_compute. Qed.
