(* ===== verification/Dirs.v ===== *)
(** [src/src/fs/create_dir_all.rs] and [src/src/fs/statx.rs]: creating a
    directory with its parents, and the [statx] builder it uses to ask
    whether something is a directory.

    The functions are asynchronous and submit one operation at a time. The
    kernel is a parameter: it answers an entry, may write the bytes of the
    [statx] box, and goes on to a new state. *)
From S2P Require Import Prelude Buf Types Compat IoUring Op Libc OpenOptions ReadWrite RecvMultishot.
From S2P Require Import IoOps Path.

Class Kernel (K : Type) : Type :=
  k_answer : opcode -> K -> io_result N * list Byte.byte * K.

(** [io::Error::kind() == NotFound]. *)
Definition is_not_found {Lc : Libc} (e : io_error) : bool :=
  match e with
  | OsError c => (c =? ENOENT)%Z
  | CustomError k _ => bool_decide (k = NotFound)
  end.

Section dirs.
Context {Lc : Libc} `{!Kernel K}.
Implicit Types k : K.

(** * [StatxBuilder] *)
Record StatxBuilder : Type := mkStatxBuilder {
  sb_file : option FdRef; sb_path : option (list byte); sb_flags : Z; sb_mask : N;
}.
Definition statx_builder_new : StatxBuilder := mkStatxBuilder None None AT_EMPTY_PATH STATX_ALL.
Definition sb_dirfd (fd : FdRef) (b : StatxBuilder) : StatxBuilder :=
  mkStatxBuilder (Some fd) (sb_path b) (sb_flags b) (sb_mask b).
Definition sb_pathname (p : Path) (b : StatxBuilder) : io_result StatxBuilder :=
  map_ok (fun c => mkStatxBuilder (sb_file b) (Some c) (sb_flags b) (sb_mask b)) (cstr p).
Definition sb_set_flags (f : Z) (b : StatxBuilder) : StatxBuilder :=
  mkStatxBuilder (sb_file b) (sb_path b) f (sb_mask b).
Definition sb_set_mask (m : N) (b : StatxBuilder) : StatxBuilder :=
  mkStatxBuilder (sb_file b) (sb_path b) (sb_flags b) m.

(** [StatxBuilder::statx]: the descriptor and the path are taken. *)
Definition sb_statx (b : StatxBuilder) k :
    outcome (io_result statx_buf * StatxBuilder * K) :=
  let '(d, s) := statx (sb_file b) (sb_path b) (sb_flags b) (sb_mask b) in
  let '(r, buf, k) := k_answer (sqe_op s) k in
  out ← complete (mkStatxData (sx_fd d) (sx_path d) (statx_of_bytes buf)) (mkCqeResult r 0);
  Ret (out, mkStatxBuilder None None (sb_flags b) (sb_mask b), k).

(** [is_dir] of [create_dir_all.rs]. *)
Definition is_dir (p : Path) k : outcome (bool * K) :=
  match sb_pathname p (sb_set_mask STATX_TYPE statx_builder_new) with
  | Err _ => Ret (false, k)
  | Ok builder =>
      '(res, _, k) ← sb_statx builder k;
      match res with
      | Ok statx => Ret (N.land (stx_mode statx) S_IFMT =? S_IFDIR, k)
      | Err _ => Ret (false, k)
      end
  end.
(** [is_dir_regfile] of [statx.rs]. *)
Definition is_dir_regfile (p : Path) k : outcome (bool * bool * K) :=
  match sb_pathname p (sb_set_mask STATX_TYPE statx_builder_new) with
  | Err _ => Ret (false, false, k)
  | Ok builder =>
      '(res, _, k) ← sb_statx builder k;
      match res with
      | Ok statx => Ret (N.land (stx_mode statx) S_IFMT =? S_IFDIR,
                         N.land (stx_mode statx) S_IFMT =? S_IFREG, k)
      | Err _ => Ret (false, false, k)
      end
  end.

(** * [DirBuilder] *)
Record DirBuilder : Type := mkDirBuilder { db_mode : N; db_recursive : bool }.

(** [DirBuilder::new]; 0o777 is 511. *)
Definition dir_builder_new : DirBuilder := mkDirBuilder 511 false.
Definition db_set_recursive (r : bool) (b : DirBuilder) : DirBuilder := mkDirBuilder (db_mode b) r.
Definition db_set_mode (m : N) (b : DirBuilder) : DirBuilder := mkDirBuilder m (db_recursive b).

(** [fs_imp::DirBuilder::mkdir]. *)
Definition mkdir (self : DirBuilder) (p : Path) k : outcome (io_result unit * K) :=
  match make_dir p (db_mode self) with
  | Err e => Ret (Err e, k)
  | Ok (d, s) =>
      let '(r, _, k) := k_answer (sqe_op s) k in
      out ← complete d (mkCqeResult r 0);
      Ret (out, k)
  end.

(** [Err(_) if is_dir(path).await => Ok(())], [Err(e) => Err(e)]. *)
Definition ok_if_dir (p : Path) (e : io_error) k : outcome (io_result unit * K) :=
  '(d, k) ← is_dir p k;
  Ret (if (d : bool) then Ok tt else Err e, k).

(** [DirBuilder::recurse_create_dir_all]; [fuel] bounds the recursion on the
    parents. *)
Fixpoint recurse_create_dir_all (fuel : nat) (self : DirBuilder) (p : Path) k :
    outcome (io_result unit * K) :=
  match fuel with
  | O => NoFuel
  | S fuel =>
      if decide (p = []) then Ret (Ok tt, k)
      else
        '(r, k) ← mkdir self p k;
        match r with
        | Ok _ => Ret (Ok tt, k)
        | Err e =>
            '(stop, k) ← (if is_not_found e then Ret (None : option (io_result unit), k)
                          else '(r, k) ← ok_if_dir p e k; Ret (Some r, k));
            match stop with
            | Some r => Ret (r, k)
            | None =>
                match parent p with
                | None => Ret (Err (CustomError Other "failed to create whole tree"), k)
                | Some q =>
                    '(r, k) ← recurse_create_dir_all fuel self q k;
                    match r with
                    | Err e => Ret (Err e, k)
                    | Ok _ =>
                        '(r, k) ← mkdir self p k;
                        match r with
                        | Ok _ => Ret (Ok tt, k)
                        | Err e' =>
                            ok_if_dir p e' k
                        end
                    end
                end
            end
        end
  end.

(** [DirBuilder::create] and [create_dir_all]. *)
Definition create (fuel : nat) (self : DirBuilder) (p : Path) k : outcome (io_result unit * K) :=
  if db_recursive self then recurse_create_dir_all fuel self p k else mkdir self p k.
Definition create_dir_all (p : Path) k : outcome (io_result unit * K) :=
  create (S (length p)) (db_set_recursive true dir_builder_new) p k.

(** * What the kernel documents of [mkdirat] and [statx] *)
Inductive NodeKind : Type := Dir | NotDir.
#[export] Instance NodeKind_eq_dec : EqDecision NodeKind.
Proof. solve_decision. Defined.
Variable kind : K -> Path -> option NodeKind.

(** The nearest of [p] and its ancestors that exists, if there is one. The
    empty path stands for the current directory, which may be gone. *)
Fixpoint nearest_in (n : nat) k (p : Path) : option NodeKind :=
  match kind k p with
  | Some t => Some t
  | None =>
      match n, parent p with
      | S n, Some q => nearest_in n k q
      | _, _ => None
      end
  end.
Definition nearest k (p : Path) : option NodeKind := nearest_in (length p) k p.

(** [a] is [p] or one of its ancestors. *)
Inductive on_way (p : Path) : Path -> Prop :=
  | way_here : on_way p p
  | way_up a q : on_way p a -> parent a = Some q -> on_way p q.

(** Nothing disappears, and what is new is a directory. *)
Definition grows k k' : Prop :=
  forall q, kind k' q = kind k q \/ (kind k q = None /\ kind k' q = Some Dir).
Definition unchanged k k' : Prop := forall q, kind k' q = kind k q.

Definition mkdir_of (m : N) (p : Path) k := k_answer (OpMkDirAt AT_FDCWD p m) k.
Definition statx_of (m : N) (p : Path) k := k_answer (OpStatx AT_FDCWD p AT_EMPTY_PATH m) k.

(** The states that calls of the two kinds lead to. *)
Inductive later k : K -> Prop :=
  | later_refl : later k k
  | later_mkdir k1 m a : later k k1 -> later k (mkdir_of m a k1).2
  | later_statx k1 m a : later k k1 -> later k (statx_of m a k1).2.

(** [mkdirat] may fail for any reason and then changes nothing. What exists
    and what lies below something that is no directory is not made, and is
    not reported as missing. [statx] may fail; if not, it tells the truth. *)
Record FsLaws : Prop := {
  top_exists k p : parent p = None -> p <> [] -> kind k p = Some Dir;
  mkdir_answers k p m : let '(r, _, k') := mkdir_of m p k in
    match r with
    | Ok _ => kind k' p = Some Dir /\ grows k k'
    | Err _ => unchanged k k'
    end;
  mkdir_exists k p m : p <> [] -> kind k p = Some Dir \/ nearest k p = Some NotDir ->
    exists e, (mkdir_of m p k).1.1 = Err e /\ is_not_found e = false;
  statx_tells k p m : let '(r, b, k') := statx_of m p k in
    unchanged k k' /\
    match r with
    | Ok _ => exists s, b = statx_bytes s /\ statx_fits s /\
                (N.land (stx_mode s) S_IFMT = S_IFDIR <-> kind k p = Some Dir)
    | Err _ => True
    end;
}.
(** From [k] on the kernel refuses nothing on the way to [p]: it makes what is
    missing in a directory that is there, reports a missing parent as such,
    and looks at what exists. *)
Record Permits (m : N) (p : Path) k : Prop := {
  permits_make k1 a q : later k k1 -> on_way p a -> dotted a = false -> kind k1 a = None ->
    parent a = Some q -> kind k1 q = Some Dir -> exists n, (mkdir_of m a k1).1.1 = Ok n;
  permits_walk k1 a q : later k k1 -> on_way p a -> kind k1 a = None ->
    parent a = Some q -> kind k1 q = None ->
    exists e, (mkdir_of m a k1).1.1 = Err e /\ is_not_found e = true;
  permits_stat k1 a : later k k1 -> on_way p a -> kind k1 a = Some Dir ->
    exists n, (statx_of STATX_TYPE a k1).1.1 = Ok n;
}.
Context (laws : FsLaws).

Lemma unchanged_refl k : unchanged k k.
Proof. by intros q. Qed.
Lemma grows_unchanged k k' : unchanged k k' -> grows k k'.
Proof. intros H q. by left. Qed.
Lemma grows_trans k k' k'' : grows k k' -> grows k' k'' -> grows k k''.
Proof.
  intros H H' q. destruct (H q) as [E|[E E']], (H' q) as [F|[F F']]; rewrite ?E, ?F in *;
    naive_solver.
Qed.
Lemma grows_dir k k' p : grows k k' -> kind k p = Some Dir -> kind k' p = Some Dir.
Proof. intros H E. destruct (H p) as [->|[E' _]]; congruence. Qed.

Lemma later_grows k k' : later k k' -> grows k k'.
Proof.
  induction 1 as [|k1 m a _ IH|k1 m a _ IH]; [by apply grows_unchanged, unchanged_refl|..].
  - eapply grows_trans; [exact IH|]. pose proof (mkdir_answers laws k1 a m) as H.
    destruct (mkdir_of m a k1) as [[[n|e] b] k2]; [apply H|by apply grows_unchanged].
  - eapply grows_trans; [exact IH|]. pose proof (statx_tells laws k1 a m) as H.
    destruct (statx_of m a k1) as [[r b] k2]. apply grows_unchanged, H.
Qed.
Lemma later_trans k k1 k2 : later k k1 -> later k1 k2 -> later k k2.
Proof. intros H. induction 1; [done|by apply later_mkdir|by apply later_statx]. Qed.

Lemma nearest_in_mono n m k p :
  (length p <= n)%nat -> (length p <= m)%nat -> nearest_in n k p = nearest_in m k p.
Proof.
  revert m p. induction n as [|n IH]; intros m p Hn Hm.
  - destruct p as [|? ?]; [|cbn in Hn; lia]. destruct m; cbn; by destruct (kind k []) as [[]|].
  - destruct m as [|m].
    + destruct p as [|? ?]; [|cbn in Hm; lia]. cbn; by destruct (kind k []) as [[]|].
    + cbn. destruct (kind k p) as [[]|]; [done..|]. destruct (parent p) as [q|] eqn:E; [|done].
      apply parent_shorter in E. apply IH; lia.
Qed.
Lemma nearest_parent k p q :
  kind k p = None -> parent p = Some q -> nearest k p = nearest k q.
Proof.
  intros Hk Hq. pose proof (parent_shorter _ _ Hq). unfold nearest.
  destruct (length p) as [|n] eqn:E; [lia|]. cbn. rewrite Hk, Hq. apply nearest_in_mono; lia.
Qed.
Lemma nearest_unchanged k k' p : unchanged k k' -> nearest k' p = nearest k p.
Proof.
  intros Hu. unfold nearest. generalize (length p). intros n. revert p.
  induction n as [|n IH]; intros p; cbn; rewrite Hu; [done|].
  destruct (kind k p) as [[]|]; [done..|]. by destruct (parent p).
Qed.
Lemma nearest_kind k p t : kind k p = Some t -> nearest k p = Some t.
Proof. unfold nearest. by destruct (length p); cbn; intros ->. Qed.

(** What the helpers do, given the laws. *)
Lemma is_dir_spec p k :
  exists d k', is_dir p k = Ret (d, k') /\ later k k' /\ unchanged k k' /\
    (d = true -> kind k p = Some Dir) /\
    (d = false -> Byte.x00 ∉ p -> kind k p <> Some Dir \/
       exists e, (statx_of STATX_TYPE p k).1.1 = Err e).
Proof.
  unfold is_dir, sb_pathname, cstr. case_bool_decide as Hn.
  { exists false, k. by split_and!; [|constructor|apply unchanged_refl| |]. }
  pose proof (statx_tells laws k p STATX_TYPE) as H.
  pose proof (later_statx k k STATX_TYPE p (later_refl k)) as Hl. unfold statx_of in *.
  cbn -[statx_of_bytes]. unfold sb_statx. cbn -[statx_of_bytes].
  destruct (k_answer _ k) as [[r b] k']. destruct H as [Hu Hr]. cbn -[statx_of_bytes].
  destruct r as [n|e]; cbn -[statx_of_bytes].
  - destruct Hr as (s & -> & Hs & Hr). rewrite (statx_read s Hs). eexists _, k'.
    split_and!; [done|done|done|..]; destruct (N.eqb_spec (N.land (stx_mode s) S_IFMT) S_IFDIR); try done.
    + intros _. by apply Hr.
    + intros _ _. left. by intros ?%Hr.
  - exists false, k'. split_and!; [done..|]. intros _ _. right. by eexists.
Qed.
Lemma mkdir_call self p k :
  Byte.x00 ∉ p ->
  mkdir self p k = Ret (map_ok (fun _ => tt) (mkdir_of (db_mode self) p k).1.1,
                        (mkdir_of (db_mode self) p k).2).
Proof.
  intros Hn. unfold mkdir, make_dir, cstr. rewrite bool_decide_eq_false_2 by done. cbn.
  unfold mkdir_of. by destruct (k_answer _ k) as [[r b] k'].
Qed.
(** One attempt at making [p]: it is there, or the kernel said why not. *)
Lemma mkdir_case self p k :
  Byte.x00 ∉ p ->
  exists r, mkdir self p k = Ret (r, (mkdir_of (db_mode self) p k).2) /\
    match r with
    | Ok _ => kind (mkdir_of (db_mode self) p k).2 p = Some Dir
    | Err e => unchanged k (mkdir_of (db_mode self) p k).2 /\
               (mkdir_of (db_mode self) p k).1.1 = Err e
    end.
Proof.
  intros Hn. rewrite mkdir_call by done. eexists. split; [done|].
  pose proof (mkdir_answers laws k p (db_mode self)) as H.
  destruct (mkdir_of (db_mode self) p k) as [[r b] k']. cbn. destruct r; cbn; tauto.
Qed.

(** Error [e] is what the kernel answered in state [k1] when asked to make
    [a], which it then did not show to be a directory. *)
Definition kernel_error m k a e : Prop :=
  exists k1, later k k1 /\ (mkdir_of m a k1).1.1 = Err e /\
    (kind k1 a <> Some Dir \/
     exists e', (statx_of STATX_TYPE a (mkdir_of m a k1).2).1.1 = Err e').
Definition made_or_refused m (p : Path) k (r : io_result unit) k' : Prop :=
  later k k' /\
  match r with
  | Ok _ => p = [] \/ kind k' p = Some Dir
  | Err e => exists a, on_way p a /\ kernel_error m k a e
  end.

(** The directory test after an error. *)
Lemma ok_if_dir_case m p e k :
  let k1 := (mkdir_of m p k).2 in
  Byte.x00 ∉ p -> (mkdir_of m p k).1.1 = Err e -> unchanged k k1 ->
  exists r k', ok_if_dir p e k1 = Ret (r, k') /\ unchanged k1 k' /\ made_or_refused m p k r k' /\
    (kind k p = Some Dir -> (exists n, (statx_of STATX_TYPE p k1).1.1 = Ok n) -> r = Ok tt) /\
    (kind k p <> Some Dir -> r = Err e).
Proof.
  intros k1 Hn He Hu. destruct (is_dir_spec p k1) as (d & k' & E & Hl & Hu' & Ht & Hf).
  unfold ok_if_dir. rewrite E. cbn. eexists _, k'. split; [done|]. split; [done|].
  assert (Hl' : later k k') by (eapply later_trans; [apply later_mkdir, later_refl|exact Hl]).
  destruct d; split_and!; try (by auto).
  - split; [done|]. right. rewrite Hu'. by apply Ht.
  - intros H. destruct H. rewrite <- Hu. by apply Ht.
  - split; [done|]. exists p. split; [constructor|]. exists k.
    split_and!; [constructor|done|]. destruct (Hf eq_refl Hn) as [Hk|[e' He']].
    + left. by rewrite <- Hu.
    + right. by exists e'.
  - intros Hk [n Hs]. destruct (Hf eq_refl Hn) as [H|[e' He']]; [|congruence].
    destruct H. by rewrite Hu.
Qed.

Lemma kernel_error_later m k k' a e : later k k' -> kernel_error m k' a e -> kernel_error m k a e.
Proof. intros Hl (k1 & Hl1 & H). exists k1. split; [by eapply later_trans|done]. Qed.
Lemma made_or_refused_later m p k k1 r k' :
  later k k1 -> made_or_refused m p k1 r k' -> made_or_refused m p k r k'.
Proof.
  intros Hl [Hl' H]. split; [by eapply later_trans|]. destruct r; [done|].
  destruct H as (a & Ha & H). exists a. split; [done|by eapply kernel_error_later].
Qed.
Lemma on_way_trans p q a : on_way p q -> on_way q a -> on_way p a.
Proof. intros Hpq. induction 1; [done|]. by eapply way_up. Qed.
Lemma on_way_parent p q a : parent p = Some q -> on_way q a -> on_way p a.
Proof. intros Hq. apply on_way_trans. by eapply way_up; [constructor|]. Qed.
Lemma Permits_later m p q k k' : on_way p q -> later k k' -> Permits m p k -> Permits m q k'.
Proof.
  intros Hq Hg [H1 H2 H3].
  split; intros; [eapply H1|eapply H2|eapply H3]; eauto using later_trans, on_way_trans.
Qed.

(** The answers of a kernel that permits. *)
Lemma permits_dir m p k :
  Permits m p k -> kind k p = Some Dir -> unchanged k (mkdir_of m p k).2 ->
  exists n, (statx_of STATX_TYPE p (mkdir_of m p k).2).1.1 = Ok n.
Proof.
  intros HP Hk Hu. apply (permits_stat _ _ _ HP);
    [apply later_mkdir, later_refl|constructor|by rewrite Hu].
Qed.
Lemma permits_missing m p q k e :
  Permits m p k -> dotted p = false -> kind k p = None -> parent p = Some q ->
  (mkdir_of m p k).1.1 = Err e -> kind k q <> Some Dir.
Proof.
  intros HP Hd Hk Hq He Hkq.
  destruct (permits_make _ _ _ HP k p q (later_refl k) (way_here p)) as [n Hn]; congruence.
Qed.

(** One more attempt, at the end of the function. *)
Lemma mkdir_again self p q k :
  Byte.x00 ∉ p ->
  exists r k', ('(r, k) ← mkdir self p k;
                match r with Ok _ => Ret (Ok tt, k) | Err e' => ok_if_dir p e' k end) = Ret (r, k') /\
    made_or_refused (db_mode self) p k r k' /\
    (Permits (db_mode self) p k -> dotted p = false -> kind k p <> Some NotDir ->
     parent p = Some q -> kind k q = Some Dir -> r = Ok tt).
Proof.
  intros Hn. pose proof (later_mkdir k k (db_mode self) p (later_refl k)) as Hl.
  destruct (mkdir_case self p k Hn) as (r & E & H). rewrite E. cbn. destruct r as [[]|e].
  { eexists (Ok tt), _. by split_and!; [|split; [|right]|]. }
  destruct H as [Hu He]. destruct (ok_if_dir_case _ p e k Hn He Hu) as (r & k2 & E2 & _ & Hm & Hok & _).
  exists r, k2. split_and!; [done|done|]. intros HP Hd Hk Hq Hkq.
  destruct (kind k p) as [[]|] eqn:Ek; [|done|].
  - apply Hok; [done|]. by apply permits_dir.
  - by destruct (permits_missing _ _ _ _ _ HP Hd Ek Hq He).
Qed.

(** What the function promises. *)
Definition tree_made m (p : Path) k (r : io_result unit) k' : Prop :=
  made_or_refused m p k r k' /\
  (p <> [] -> nearest k p = Some NotDir -> (exists e, r = Err e) /\ unchanged k k') /\
  (Permits m p k -> dotted p = false -> nearest k p = Some Dir -> r = Ok tt).

(** The case of a missing parent, by the promise for the parent. *)
Lemma missing_case self fuel p k e :
  let m := db_mode self in let k1 := (mkdir_of m p k).2 in
  Byte.x00 ∉ p -> p <> [] -> (mkdir_of m p k).1.1 = Err e -> is_not_found e = true ->
  unchanged k k1 -> later k k1 ->
  (forall q k2, (length q < length p)%nat -> Byte.x00 ∉ q ->
     exists r k', recurse_create_dir_all fuel self q k2 = Ret (r, k') /\ tree_made m q k2 r k') ->
  exists r k',
    match parent p with
    | None => Ret (Err (CustomError Other "failed to create whole tree"), k1)
    | Some q =>
        '(r, k) ← recurse_create_dir_all fuel self q k1;
        match r with
        | Err e => Ret (Err e, k)
        | Ok _ => '(r, k) ← mkdir self p k;
                  match r with Ok _ => Ret (Ok tt, k) | Err e' => ok_if_dir p e' k end
        end
    end = Ret (r, k') /\ tree_made m p k r k'.
Proof.
  intros m k1 Hn Hp He Ee Hu Hl1 IH.
  assert (Hne : kind k p <> Some Dir /\ nearest k p <> Some NotDir).
  { split; intros Hk; destruct (mkdir_exists laws k p m Hp) as (e' & He' & Hnf);
      try (by auto); congruence. }
  destruct Hne as [Hkp Hnb].
  destruct (parent p) as [q|] eqn:Eq; [|by rewrite (top_exists laws) in Hkp].
  pose proof (parent_shorter _ _ Eq) as Hlen.
  assert (Hw : on_way p q) by (eapply way_up; [constructor|done]).
  destruct (IH q k1) as (r & k2 & E2 & Hm & _ & Hok); [done|by intros ?%(parent_subset p q)|].
  rewrite E2. cbn.
  assert (Ekp : nearest k p = Some Dir -> kind k p = None /\ nearest k1 q = Some Dir).
  { intros Hnear. assert (kind k p = None) as Ek.
    { destruct (kind k p) as [[]|] eqn:Ek; [done| |done]. by apply nearest_kind in Ek. }
    by rewrite (nearest_unchanged k k1 q), <- (nearest_parent k p q). }
  assert (Hl2 : later k k2) by (eapply later_trans; [done|apply Hm]).
  destruct r as [[]|e2].
  - destruct (mkdir_again self p q k2 Hn) as (r & k3 & E3 & Hm3 & Hok3). rewrite E3.
    exists r, k3. split; [done|]; unfold tree_made; split_and!; [by eapply made_or_refused_later|done|].
    intros HP Hd Hnear. destruct (Ekp Hnear) as [Ek Hq]. apply Hok3; [|done| |done|].
    + by eapply Permits_later; [constructor|..].
    + destruct (later_grows _ _ Hl2 p) as [->|[_ ->]]; [by rewrite Ek|done].
    + destruct Hm as [Hl12 [->|Hkq]]; [|done].
      eapply grows_dir; [exact (later_grows _ _ Hl12)|]. unfold nearest in Hq. cbn in Hq.
      by destruct (kind k1 []) as [[]|].
  - exists (Err e2), k2. split; [done|]; unfold tree_made; split_and!; [ |done|].
    + eapply made_or_refused_later; [exact Hl1|]. destruct Hm as [? (a & Ha & H)].
      split; [done|]. exists a. split; [by eapply on_way_parent|done].
    + intros HP Hd Hnear. destruct (Ekp Hnear) as [_ Hq].
      apply Hok; [by eapply Permits_later|by eapply parent_not_dotted|done].
Qed.

Lemma recurse_spec self fuel p k :
  (length p < fuel)%nat -> Byte.x00 ∉ p ->
  exists r k', recurse_create_dir_all fuel self p k = Ret (r, k') /\ tree_made (db_mode self) p k r k'.
Proof.
  revert p k. induction fuel as [|fuel IH]; intros p k Hf Hn; [lia|].
  cbn [recurse_create_dir_all]. destruct (decide (p = [])) as [->|Hp].
  { exists (Ok tt), k. split; [done|]; unfold tree_made; split_and!; [split; [constructor|by left]|done|done]. }
  set (m := db_mode self) in *.
  pose proof (later_mkdir k k m p (later_refl k)) as Hl1.
  destruct (mkdir_case self p k Hn) as (r & E & H). rewrite E. fold m in H, E |- *.
  set (k1 := (mkdir_of m p k).2) in *. cbn [mbind outcome_bind]. destruct r as [[]|e].
  { exists (Ok tt), k1. split; [done|]; unfold tree_made; split_and!; [split; [done|by right]| |done].
    intros _ Hb. destruct (mkdir_exists laws k p m Hp (or_intror Hb)) as (e & He & _).
    rewrite mkdir_call in E by done. fold m in E. by rewrite He in E. }
  destruct H as [Hu He]. destruct (is_not_found e) eqn:Ee; cbn [mbind outcome_bind].
  - apply (missing_case self fuel p k e); try done. intros q k2 Hq. by apply IH; lia.
  - destruct (ok_if_dir_case m p e k Hn He Hu) as (r & k2 & E2 & Hu2 & Hm & Hok & Hno).
    fold k1 in E2. rewrite E2. cbn. exists r, k2. split; [done|]; unfold tree_made; split_and!; [done| |].
    + intros _ Hb. split; [|intros q; by rewrite Hu2, Hu]. exists e. apply Hno.
      intros Hk%nearest_kind. congruence.
    + intros HP Hd Hnear. destruct (kind k p) as [t|] eqn:Ek.
      { rewrite (nearest_kind k p t Ek) in Hnear. injection Hnear as ->.
        apply Hok; [done|]. by apply permits_dir. }
      destruct (parent p) as [q|] eqn:Eq; [|by rewrite (top_exists laws) in Ek].
      rewrite (nearest_parent k p q) in Hnear by done.
      pose proof (permits_missing _ _ _ _ _ HP Hd Ek Eq He) as Hkq.
      destruct (kind k q) as [t|] eqn:Ekq.
      * rewrite (nearest_kind k q t Ekq) in Hnear. by injection Hnear as ->.
      * destruct (permits_walk _ _ _ HP k p q (later_refl k) (way_here p)) as (e' & He' & Hnf);
          congruence.
Qed.

(** C20. [create_dir_all] does what it promises, and ends, on a file system
    that may refuse anything. For a path without a zero byte it returns after
    at most one recursion per component; nothing that existed has changed and
    what is new are directories.
    If the result is [Ok], the path is a directory (the empty path is left
    alone). If it is an error, it is what the kernel answered when asked to
    make the path or one of its ancestors, and the kernel did not show that
    one to be a directory.
    If the nearest existing ancestor is no directory, it is an error and
    nothing at all has changed. If it is a directory, the path does not end in
    a component ["."], and the kernel refuses nothing on the way, the result
    is [Ok].
    A path with a zero byte is an error and the kernel is not asked. *)
Theorem create_dir_all_spec (p : Path) (k : K) :
  (Byte.x00 ∈ p -> exists e, create_dir_all p k = Ret (Err e, k)) /\
  (Byte.x00 ∉ p -> exists r k', create_dir_all p k = Ret (r, k') /\ grows k k' /\
    match r with
    | Ok _ => p = [] \/ kind k' p = Some Dir
    | Err e => exists a, on_way p a /\ kernel_error 511 k a e
    end /\
    (p <> [] -> nearest k p = Some NotDir -> (exists e, r = Err e) /\ unchanged k k') /\
    (Permits 511 p k -> dotted p = false -> nearest k p = Some Dir -> r = Ok tt)).
Proof.
  unfold create_dir_all, create. cbn [db_recursive db_set_recursive]. split; intros Hn.
  - cbn [recurse_create_dir_all]. destruct (decide (p = [])) as [->|_]; [by apply elem_of_nil in Hn|].
    unfold mkdir, make_dir, ok_if_dir, is_dir, sb_pathname, cstr.
    rewrite bool_decide_eq_true_2 by done. cbn. eauto.
  - destruct (recurse_spec (db_set_recursive true dir_builder_new) (S (length p)) p k)
      as (r & k' & E & [Hl Hr] & Hb & Hok); [lia|done|].
    exists r, k'. split_and!; [done|by apply later_grows|done..].
Qed.
End dirs.

(** * A file system that is a map, with directories one may not write to *)
Module TreeFs.
#[local] Instance byte_countable : Countable Byte.byte :=
  inj_countable Byte.to_N Byte.of_N Byte.of_to_N.
Record tree : Type := mkTree { nodes : gmap (list Byte.byte) NodeKind; locked : gset (list Byte.byte) }.
Definition tree_kind (k : tree) (p : Path) : option NodeKind :=
  match parent p with None => Some Dir | Some _ => nodes k !! p end.
Definition failed (n : Z) (k : tree) : io_result N * list Byte.byte * tree :=
  (Err (OsError n), [], k).
Definition node (mode : N) : statx_buf :=
  let t := mkTimestamp 0 0 0 in
  mkStatx 1 4096 0 1 0 0 mode 2 0 0 0 t t t t 0 0 8 1 0 0 0.
#[export] Instance tree_kernel : Kernel tree := fun o k =>
  match o with
  | OpMkDirAt _ p _ =>
      if decide (p = []) then failed ENOENT k
      else
        match tree_kind k p, parent p with
        | None, Some q =>
            match nearest tree_kind k p, tree_kind k q with
            | Some NotDir, _ => failed 20 k
            | _, None => failed ENOENT k
            | _, Some _ => if decide (q ∈ locked k) then failed 13 k
                           else (Ok 0, [], mkTree (<[p := Dir]> (nodes k)) (locked k))
            end
        | _, _ => failed 17 k
        end
  | OpStatx _ p _ _ =>
      match tree_kind k p with
      | Some Dir => (Ok 0, statx_bytes (node 16877), k)
      | Some NotDir => (Ok 0, statx_bytes (node 33188), k)
      | None => failed ENOENT k
      end
  | _ => failed 22 k
  end.

Lemma made_kind k p q j :
  parent p = Some q ->
  tree_kind (mkTree (<[p := Dir]> (nodes k)) (locked k)) j =
    if decide (j = p) then Some Dir else tree_kind k j.
Proof.
  intros Eq. unfold tree_kind. cbn. case_decide as Ej.
  - subst j. rewrite Eq. by rewrite lookup_insert_eq.
  - destruct (parent j); [|done]. by rewrite lookup_insert_ne.
Qed.
Lemma tree_laws : FsLaws tree_kind.
Proof.
  split.
  - intros k p E _. unfold tree_kind. by rewrite E.
  - intros k p m. unfold mkdir_of, k_answer, tree_kernel. case_decide; [done|].
    destruct (tree_kind k p) as [t|] eqn:Ek; [done|]. destruct (parent p) as [q|] eqn:Eq; [|done].
    destruct (nearest tree_kind k p) as [[]|], (tree_kind k q); try done; case_decide; try done.
    all: split; [by rewrite (made_kind k p q), decide_True|].
    all: intros j; rewrite (made_kind k p q) by done; case_decide; [subst; by right|by left].
  - intros k p m Hp H. unfold mkdir_of, k_answer, tree_kernel. rewrite decide_False by done.
    destruct (tree_kind k p) as [t|] eqn:Ek; [by eexists|]. destruct H as [H|H]; [done|].
    destruct (parent p) as [q|] eqn:Eq; [|by eexists]. rewrite H. by eexists.
  - intros k p m. unfold statx_of, k_answer, tree_kernel.
    destruct (tree_kind k p) as [[]|] eqn:E; (split; [by intros ?|]); try done;
      (eexists; split; [done|split; [|done]]); (split; [repeat constructor; cbn; done|cbv; repeat constructor]).
Qed.

(** A tree without locked directories permits everything. *)
Lemma later_unlocked k k' : later k k' -> locked k = ∅ -> locked k' = ∅.
Proof.
  intros H Hk. induction H as [|k1 m a _ IH|k1 m a _ IH]; [done|..].
  - unfold mkdir_of, k_answer, tree_kernel. repeat case_match; done.
  - unfold statx_of, k_answer, tree_kernel. repeat case_match; done.
Qed.
Definition no_file_on_way (p : Path) k : Prop := forall a, on_way p a -> tree_kind k a <> Some NotDir.
Lemma later_no_file p k k' : later k k' -> no_file_on_way p k -> no_file_on_way p k'.
Proof.
  intros Hl H a Ha. destruct (later_grows tree_kind tree_laws _ _ Hl a) as [->|[_ ->]]; [by apply H|done].
Qed.
Lemma nearest_no_file p k a : no_file_on_way p k -> on_way p a -> nearest tree_kind k a <> Some NotDir.
Proof.
  intros H. unfold nearest. generalize (length a). intros n. revert a.
  induction n as [|n IH]; intros a Ha; cbn; pose proof (H a Ha) as Hk;
    destruct (tree_kind k a) as [[]|]; try done.
  destruct (parent a) as [q|] eqn:Eq; [|done]. apply IH. by eapply way_up.
Qed.
Lemma tree_permits m p k : locked k = ∅ -> no_file_on_way p k -> Permits tree_kind m p k.
Proof.
  intros Hk Hf. split; intros k1 a.
  - intros q Hl Ha _ Ek Eq Ekq. pose proof (later_unlocked _ _ Hl Hk) as Hk1.
    unfold mkdir_of, k_answer, tree_kernel. rewrite decide_False by (by intros ->).
    rewrite Ek, Eq, (nearest_parent tree_kind k1 a q), (nearest_kind tree_kind k1 q Dir), Ekq by done.
    rewrite decide_False by (rewrite Hk1; apply not_elem_of_empty). by eexists.
  - intros q Hl Ha Ek Eq Ekq.
    pose proof (nearest_no_file p k1 a (later_no_file _ _ _ Hl Hf) Ha) as Hn.
    unfold mkdir_of, k_answer, tree_kernel. rewrite decide_False by (by intros ->).
    rewrite Ek, Eq, Ekq. destruct (nearest tree_kind k1 a) as [[]|]; try done; by eexists.
  - intros Hl Ha Ek. unfold statx_of, k_answer, tree_kernel. rewrite Ek. by eexists.
Qed.

(** ["/a/b"] in an empty tree, below a file ["/a"], and where ["/"] is not
    writable. *)
Definition path_a : Path := [sep; Byte.x61].
Definition path_ab : Path := [sep; Byte.x61; sep; Byte.x62].
Definition empty_tree : tree := mkTree ∅ ∅.
Definition file_tree : tree := mkTree {[path_a := NotDir]} ∅.
Definition locked_tree : tree := mkTree ∅ {[ [sep] ]}.
Lemma path_ab_nul : Byte.x00 ∉ path_ab.
Proof. by apply (bool_decide_eq_false_1 (Byte.x00 ∈ path_ab)). Qed.
Lemma create_dir_all_spec_witness :
  (exists k', create_dir_all path_ab empty_tree = Ret (Ok tt, k') /\ tree_kind k' path_ab = Some Dir) /\
  (exists e k', create_dir_all path_ab file_tree = Ret (Err e, k')) /\
  (exists a e k', create_dir_all path_ab locked_tree = Ret (Err e, k') /\ on_way path_ab a /\
     kernel_error tree_kind 511 locked_tree a e).
Proof.
  split_and!.
  - destruct (create_dir_all_spec tree_kind tree_laws path_ab empty_tree) as [_ H].
    destruct (H path_ab_nul) as (r & k' & E & _ & Hr & _ & Hok).
    assert (r = Ok tt) as ->.
    { apply Hok; [|reflexivity|reflexivity]. apply tree_permits; [reflexivity|].
      intros a _. unfold tree_kind. destruct (parent a); discriminate. }
    exists k'. split; [exact E|]. destruct Hr as [Hr|Hr]; [discriminate Hr|exact Hr].
  - destruct (create_dir_all_spec tree_kind tree_laws path_ab file_tree) as [_ H].
    destruct (H path_ab_nul) as (r & k' & E & _ & _ & Hb & _).
    destruct Hb as [[e ->] _]; [discriminate|reflexivity|]. by exists e, k'.
  - destruct (create_dir_all_spec tree_kind tree_laws path_ab locked_tree) as [_ H].
    destruct (H path_ab_nul) as (r & k' & E & _ & Hr & _).
    destruct r as [u|e]; [vm_compute in E; discriminate E|].
    destruct Hr as (a & Ha & He). by exists a, e, k'.
Defined.
End TreeFs.
