(* ===== verification/Statx.v ===== *)
(** [src/src/fs/statx.rs]: the methods that ask for metadata, as asynchronous
    functions. [Dirs.v] has the builder, [Compat.v] the structure that the
    kernel fills, [IoOps.v] the operation. *)
From S2P Require Import Prelude Slab Buf Compat Types IoUring SlabList Op Driver Handle.
From S2P Require Import Libc OpenOptions ReadWrite RecvMultishot IoOps AsyncOp Api ApiSpec Path Dirs.

Section statx.
Context {Prof : Profile} {Cq : Cqueue} {Lc : Libc} {Sa : SockAddrs} {Sf : SockAddrFrom}.
Context {slab : Type -> Type} {ring : Type} `{!SlabOps slab}.
Abbreviation Async := (AsyncFn (slab := slab) (ring := ring)).

(** [File::statx] and [File::statx_builder]. *)
Definition file_statx (self : File) : Async Statx (io_result statx_buf) :=
  try_op (Ret (Ok (made (statx (Some (f_fd self)) None AT_EMPTY_PATH STATX_ALL)))).
Definition file_statx_builder (self : File) : StatxBuilder :=
  mkStatxBuilder (Some (f_fd self)) None AT_EMPTY_PATH STATX_ALL.

(** [StatxBuilder::statx]: the future, and the builder that is left. *)
Definition builder_statx (self : StatxBuilder) : Async Statx (io_result statx_buf) * StatxBuilder :=
  (try_op (Ret (Ok (made (statx (sb_file self) (sb_path self) (sb_flags self) (sb_mask self))))),
   mkStatxBuilder None None (sb_flags self) (sb_mask self)).

(** The function [statx]. *)
Definition fs_statx (path : list byte) : Async Statx (io_result statx_buf) :=
  mkAsyncFn
    (match sb_pathname path statx_builder_new with
     | Err _ => Panic unwrap_failed
     | Ok builder => af_start (builder_statx builder).1
     end) (fun e => Ret (Err e)) poll_single.

(** The entry that a call submits, and its answer from the bytes that the
    kernel has put into the box. *)
Definition asks (f : Async Statx (io_result statx_buf)) (e : opcode) : Prop :=
  exists s d, af_start f = Ret (Ok s) /\ st_entry s (st_data s) = Ret (build e, d) /\
  forall n bytes fl,
  complete (mkStatxData (sx_fd d) (sx_path d) (statx_of_bytes bytes)) (mkCqeResult (Ok n) fl) =
    Ret (Ok (statx_of_bytes bytes)).
Lemma statx_asks fd path fl m :
  asks (try_op (Ret (Ok (made (statx fd path fl m)))))
    (OpStatx (match fd with Some fd => fr_fd fd | None => AT_FDCWD end) (default [] path)
       (match path with Some _ => fl | None => Z.lor fl AT_EMPTY_PATH end) m).
Proof. by destruct path; eexists _, _. Qed.

(** What metadata calls ask the kernel. [statx] on a file asks for the file
    itself, by its descriptor and the empty path, for everything; so does the
    builder of a file. A builder passes the descriptor, path, flags and mask
    it was given; it gives the descriptor and the path away, so that a second
    call on the same builder asks about the current directory instead. The
    function [statx] asks for a path as it is, but a path with a zero byte is
    a panic of its first poll, where every other function of [fs] returns
    the error. The answer is the structure the kernel wrote. *)
Theorem statx_calls (f : File) (dir : FdRef) (path : list byte) (fl : Z) (m : N) :
  asks (file_statx f) (OpStatx (fr_fd (f_fd f)) [] AT_EMPTY_PATH STATX_ALL) /\
  (builder_statx (file_statx_builder f)).1 = file_statx f /\
  (Byte.x00 ∉ path -> exists b,
     sb_pathname path (sb_dirfd dir (sb_set_flags fl (sb_set_mask m statx_builder_new))) = Ok b /\
     asks (builder_statx b).1 (OpStatx (fr_fd dir) path fl m) /\
     asks (builder_statx (builder_statx b).2).1 (OpStatx AT_FDCWD [] (Z.lor fl AT_EMPTY_PATH) m)) /\
  (Byte.x00 ∉ path -> asks (fs_statx path) (OpStatx AT_FDCWD path AT_EMPTY_PATH STATX_ALL)) /\
  (Byte.x00 ∈ path -> forall `(U : Uring ring) `(E : Errno) fuel cx w,
     poll_async (Uring0 := U) fuel (fs_statx path) Unstarted cx w = Panic unwrap_failed).
Proof.
  split; [|split; [done|]].
  { pose proof (statx_asks (Some (f_fd f)) None AT_EMPTY_PATH STATX_ALL) as H.
    rewrite Z.lor_diag in H. exact H. }
  assert (Hc : Byte.x00 ∉ path -> cstr path = Ok path) by (intros; unfold cstr; by rewrite bool_decide_false).
  split_and!.
  - intros Hn. unfold sb_pathname. rewrite (Hc Hn). cbn [map_ok]. eexists. split; [done|].
    split; apply statx_asks.
  - intros Hn. destruct (statx_asks None (Some path) AT_EMPTY_PATH STATX_ALL) as (s & d & Hs & H).
    exists s, d. split; [|done]. cbn. unfold sb_pathname. by rewrite (Hc Hn).
  - intros Hn U E fuel cx w. cbn. unfold sb_pathname. by rewrite (cstr_nul path Hn).
Qed.
End statx.

#[local] Existing Instance debug_profile.
(** The path ["a"]. *)
Lemma statx_calls_witness :
  asks (slab := gmap N) (ring := script_ring) (fs_statx [Byte.x61])
    (OpStatx (-100) [Byte.x61] 4096 0xfff).
Proof.
  destruct (statx_calls (slab := gmap N) (ring := script_ring) (mkFile (mkFdRef 5)) (mkFdRef 6)
              [Byte.x61] 0 1) as (_ & _ & _ & H & _).
  apply H. apply (bool_decide_eq_false_1 (Byte.x00 ∈ [Byte.x61])). reflexivity.
Defined.
