(* ===== verification/Net.v ===== *)
(** [src/src/io/socket.rs] and the constructors of [src/src/net/]: which
    descriptors exist while a socket is made, bound, connected or accepted.

    The kernel answers [request]s, which are the system calls made through
    [socket2] and [libc] and the operations [connect] and [accept]. The state
    keeps the requests made and the descriptors that are open; a value that
    owns a descriptor closes it when an early return ([?]) drops it. Calls
    on a socket that is there already ([shutdown], [set_nodelay],
    [local_addr]) are made through it and leave it open. *)
From S2P Require Import Prelude Buf IoUring Op Libc ReadWrite RecvMultishot IoOps.

(** [libc] constants of this file and the two families of [SocketAddr]. *)
Class SocketConsts {Sa : SockAddrs} : Type := {
  SOCK_STREAM : Z; SOCK_DGRAM : Z; SOCK_CLOEXEC : Z; AF_INET : Z; AF_INET6 : Z; AF_UNIX : Z;
  is_v4 : SocketAddr -> bool;
}.

(** A socket address of any family, as the bytes of [socket2::SockAddr]. *)
Inductive request : Type :=
  | RSocket (domain type : Z)
  | RReusePort (fd : Z)
  | RReuseAddress (fd : Z)
  | RBind (fd : Z) (addr : list byte)
  | RListen (fd backlog : Z)
  | RConnect (fd : Z) (addr : list byte)
  | RAccept (fd : Z)
  | RSockName (fd : Z)
  | RShutdown (fd how : Z)
  | RNoDelay (fd : Z) (nodelay : bool).

(** What the kernel answers: a number or an error, and the address of
    [accept] and [getsockname]. *)
Class NetKernel (K : Type) {Sa : SockAddrs} : Type :=
  net_answer : request -> K -> io_result N * option SocketAddr * K.

Record NetState (K : Type) : Type := mkNet { ns_kernel : K; ns_log : list request; ns_open : list Z }.
Arguments mkNet {K} ns_kernel ns_log ns_open.
Arguments ns_kernel {K} _.
Arguments ns_log {K} _.
Arguments ns_open {K} _.

Fixpoint remove_first (x : Z) (l : list Z) : list Z :=
  match l with
  | [] => []
  | y :: l => if decide (x = y) then l else y :: remove_first x l
  end.

Section net.
Context {Sa : SockAddrs} {Sf : SockAddrFrom} {Sc : SocketConsts} `{!NetKernel K}.

(** Code that may fail, with the descriptors it opens and closes. *)
Definition NM (A : Type) : Type := NetState K -> io_result A * NetState K.
#[export] Instance nm_ret : MRet NM := fun A a s => (Ok a, s).
#[export] Instance nm_bind : MBind NM := fun A B f m s =>
  match m s with (Ok a, s) => f a s | (Err e, s) => (Err e, s) end.

Definition fail {A} (e : io_error) : NM A := fun s => (Err e, s).
Definition ask (r : request) : NM (N * option SocketAddr) := fun s =>
  let '(x, peer, k) := net_answer r (ns_kernel s) in
  (map_ok (fun n => (n, peer)) x, mkNet k (ns_log s ++ [r]) (ns_open s)).
(** A value around a new descriptor, and its destructor. *)
Definition own (n : N) : NM Z := fun s =>
  (Ok (as_i32 n), mkNet (ns_kernel s) (ns_log s) (as_i32 n :: ns_open s)).
Definition dropping {A} (fd : Z) (m : NM A) : NM A := fun s =>
  match m s with
  | (Ok a, s) => (Ok a, s)
  | (Err e, s) => (Err e, mkNet (ns_kernel s) (ns_log s) (remove_first fd (ns_open s)))
  end.

Definition get_domain (addr : SocketAddr) : Z := if is_v4 addr then AF_INET else AF_INET6.

(** [socket2::Socket::new]. *)
Definition socket2_new (domain type : Z) : NM Z :=
  '(n, _) ← ask (RSocket domain type); own n.

(** [Socket::new], [Socket::new_unix]; the descriptor is handed from the
    [socket2] value to the [SharedFd] without being closed. *)
Definition socket_new (addr : SocketAddr) (socket_type : Z) : NM Z :=
  socket2_new (get_domain addr) (Z.lor socket_type SOCK_CLOEXEC).
Definition socket_new_unix (socket_type : Z) : NM Z :=
  socket2_new AF_UNIX (Z.lor socket_type SOCK_CLOEXEC).

(** [Socket::bind_internal], [Socket::bind], [Socket::bind_unix]; [addr] of
    the latter is the result of [SockAddr::unix]. *)
Definition bind_internal (addr : list byte) (domain socket_type : Z) : NM Z :=
  sys_listener ← socket2_new domain socket_type;
  dropping sys_listener
    (_ ← ask (RReusePort sys_listener);
     _ ← ask (RReuseAddress sys_listener);
     _ ← ask (RBind sys_listener addr);
     mret sys_listener).
Definition socket_bind (addr : SocketAddr) (socket_type : Z) : NM Z :=
  bind_internal (sockaddr_from addr) (get_domain addr) socket_type.
Definition socket_bind_unix (addr : io_result (list byte)) (socket_type : Z) : NM Z :=
  match addr with
  | Err e => fail e
  | Ok addr => bind_internal addr AF_UNIX socket_type
  end.

(** [Socket::listen], [Socket::connect], [Socket::accept]. *)
Definition listen (fd backlog : Z) : NM unit := _ ← ask (RListen fd backlog); mret tt.
Definition socket_connect (fd : Z) (addr : list byte) : NM unit :=
  _ ← ask (RConnect fd addr); mret tt.
Definition socket_accept (fd : Z) : NM (Z * option SocketAddr) :=
  '(n, peer) ← ask (RAccept fd); s ← own n; mret (s, peer).

(** [TcpListener::bind], [UnixListener::bind], [UdpSocket::bind]. *)
Definition tcp_bind (addr : SocketAddr) : NM Z :=
  socket ← socket_bind addr SOCK_STREAM;
  dropping socket (_ ← listen socket 1024; mret socket).
Definition unix_bind (path : io_result (list byte)) : NM Z :=
  socket ← socket_bind_unix path SOCK_STREAM;
  dropping socket (_ ← listen socket 1024; mret socket).
Definition udp_bind (addr : SocketAddr) : NM Z := socket_bind addr SOCK_DGRAM.

(** [TcpStream::connect], [UnixStream::connect]. *)
Definition tcp_connect (addr : SocketAddr) : NM Z :=
  socket ← socket_new addr SOCK_STREAM;
  dropping socket (_ ← socket_connect socket (sockaddr_from addr); mret socket).
Definition unix_connect (path : io_result (list byte)) : NM Z :=
  socket ← socket_new_unix SOCK_STREAM;
  dropping socket
    (addr ← match path with Ok a => mret a | Err e => fail e end;
     _ ← socket_connect socket addr; mret socket).

(** [TcpListener::accept], [UnixListener::accept]. *)
Definition tcp_accept (fd : Z) : NM (Z * SocketAddr) :=
  '(stream, peer) ← socket_accept fd;
  dropping stream
    match peer with
    | Some a => mret (stream, a)
    | None => fail (CustomError Other "Could not get socket IP address")
    end.
Definition unix_accept (fd : Z) : NM Z := '(stream, _) ← socket_accept fd; mret stream.

(** [Socket::from_std]: the descriptor of the argument is taken over by
    [into_raw_fd]. The [from_std] of the socket types. *)
Definition from_std (fd : Z) : NM Z := mret fd.
Definition tcp_listener_from_std (socket : Z) : NM Z := from_std socket.
Definition tcp_stream_from_std (socket : Z) : NM Z := from_std socket.
Definition unix_stream_from_std (socket : Z) : NM Z := from_std socket.
Definition udp_from_std (socket : Z) : NM Z := from_std socket.

(** A value of the standard library around a descriptor, until it is moved
    away; its destructor at the end of the scope closes the descriptor. *)
Definition std_from_raw_fd (fd : Z) : NM (option Z) := mret (Some fd).
Definition std_local_addr (l : option Z) : NM SocketAddr :=
  match l with
  | None => fail (CustomError Other "moved")
  | Some fd =>
      '(_, addr) ← ask (RSockName fd);
      match addr with
      | Some a => mret a
      | None => fail (CustomError InvalidInput "invalid argument")
      end
  end.
Definition forget (l : option Z) : NM (option Z) := mret None.
Definition end_of_scope (l : option Z) : NM unit := fun s =>
  match l with
  | Some fd => (Ok tt, mkNet (ns_kernel s) (ns_log s) (remove_first fd (ns_open s)))
  | None => (Ok tt, s)
  end.
Definition as_value {A} (m : NM A) : NM (io_result A) := fun s => let '(r, s) := m s in (Ok r, s).

(** [local_addr] of [TcpListener], [UnixListener] and [UdpSocket]: a value of
    the standard library is made around the descriptor, asked and forgotten;
    an error is kept until then. *)
Definition local_addr (fd : Z) : NM SocketAddr :=
  l ← std_from_raw_fd fd;
  local_addr ← as_value (std_local_addr l);
  l ← forget l;
  _ ← end_of_scope l;
  match local_addr with Ok a => mret a | Err e => fail e end.
Definition tcp_listener_local_addr (fd : Z) : NM SocketAddr := local_addr fd.
Definition unix_listener_local_addr (fd : Z) : NM SocketAddr := local_addr fd.

(** [Socket::shutdown], [Socket::set_nodelay], through a borrowed [SockRef],
    and the methods that call them. *)
Definition socket_shutdown (fd how : Z) : NM unit := _ ← ask (RShutdown fd how); mret tt.
Definition socket_set_nodelay (fd : Z) (nodelay : bool) : NM unit :=
  _ ← ask (RNoDelay fd nodelay); mret tt.
Definition tcp_shutdown (fd how : Z) : NM unit := socket_shutdown fd how.
Definition unix_shutdown (fd how : Z) : NM unit := socket_shutdown fd how.
Definition udp_shutdown (fd how : Z) : NM unit := socket_shutdown fd how.
Definition tcp_set_nodelay (fd : Z) (nodelay : bool) : NM unit := socket_set_nodelay fd nodelay.

(** * No descriptor is lost *)

(** [m] opens exactly the descriptor [fd_of a] when it succeeds with [a], and
    leaves none behind when it fails. *)
Definition owns_exactly {A} (fd_of : A -> list Z) (m : NM A) : Prop :=
  forall s, match m s with
            | (Ok a, s') => ns_open s' = fd_of a ++ ns_open s
            | (Err _, s') => ns_open s' = ns_open s
            end.
Definition nothing {A} (_ : A) : list Z := [].

Lemma owns_ask r : owns_exactly nothing (ask r).
Proof. intros s. unfold ask. by destruct (net_answer r (ns_kernel s)) as [[[n|e] p] k]. Qed.
Lemma owns_ret {A} (a : A) : owns_exactly nothing (mret a : NM A).
Proof. by intros s. Qed.
Lemma owns_fail {A} (fd_of : A -> list Z) e : owns_exactly fd_of (fail e).
Proof. by intros s. Qed.
Lemma owns_own n : owns_exactly (fun fd => [fd]) (own n).
Proof. by intros s. Qed.
Lemma owns_bind_nothing {A B} fd_of (m : NM A) (f : A -> NM B) :
  owns_exactly nothing m -> (forall a, owns_exactly fd_of (f a)) -> owns_exactly fd_of (m ≫= f).
Proof.
  intros Hm Hf s. specialize (Hm s). unfold mbind, nm_bind.
  destruct (m s) as [[a|e] s1]; [|done]. specialize (Hf a s1).
  destruct (f a s1) as [[b|e] s2]; by rewrite Hf, Hm.
Qed.

(** What takes over descriptor [fd]: with it on top of the open ones, it keeps
    it when it succeeds, and may leave it there when it fails, where the
    destructor closes it. *)
Definition keeps {A} (fd : Z) (fd_of : A -> list Z) (m : NM A) : Prop :=
  forall s l, ns_open s = fd :: l ->
    match m s with
    | (Ok a, s') => ns_open s' = fd_of a ++ l
    | (Err _, s') => ns_open s' = l
    end.
Lemma keeps_dropping {A} fd (fd_of : A -> list Z) (m : NM A) :
  owns_exactly nothing m -> (forall s a s', m s = (Ok a, s') -> fd_of a = [fd]) ->
  keeps fd fd_of (dropping fd m).
Proof.
  intros Hm Hf s l Hs. specialize (Hm s). unfold dropping.
  destruct (m s) as [[a|e] s'] eqn:E; cbn in *; rewrite Hm, Hs.
  - by rewrite (Hf _ _ _ E).
  - cbn. by rewrite decide_True.
Qed.
Lemma owns_bind_keeps {A B} (top : A -> Z) (fd_of : B -> list Z) (m : NM A) (f : A -> NM B) :
  owns_exactly (fun a => [top a]) m -> (forall a, keeps (top a) fd_of (f a)) ->
  owns_exactly fd_of (m ≫= f).
Proof.
  intros Hm Hf s. specialize (Hm s). unfold mbind, nm_bind.
  destruct (m s) as [[a|e] s1]; [|done]. specialize (Hf a s1 _ Hm). done.
Qed.
Lemma keeps_ret {A} (fd : Z) (fd_of : A -> list Z) a : fd_of a = [fd] -> keeps fd fd_of (mret a).
Proof. intros H s l Hs. cbn. by rewrite Hs, H. Qed.

Lemma owns_socket2 d ty : owns_exactly (fun fd => [fd]) (socket2_new d ty).
Proof. apply owns_bind_nothing; [apply owns_ask|]. intros [n p]. apply owns_own. Qed.
(** A chain of requests followed by the value that is already there. *)
Lemma owns_then {A} (m : NM A) {B} (b : B) :
  owns_exactly nothing m -> owns_exactly nothing (_ ← m; mret b).
Proof. intros H. apply owns_bind_nothing; [done|]. intros _. apply owns_ret. Qed.
Lemma result_then {A B} (m : NM A) (b : B) s a s' : (_ ← m; mret b) s = (Ok a, s') -> a = b.
Proof. unfold mbind, nm_bind. destruct (m s) as [[x|e] s1]; [|done]. by intros [= <- _]. Qed.
Lemma result_bind {A B} (m : NM A) (f : A -> NM B) (P : B -> Prop) :
  (forall x s a s', f x s = (Ok a, s') -> P a) ->
  forall s a s', (m ≫= f) s = (Ok a, s') -> P a.
Proof.
  intros Hf s a s'. unfold mbind, nm_bind. destruct (m s) as [[x|e] s1]; [apply Hf|done].
Qed.

Lemma owns_bind_internal addr d ty : owns_exactly (fun fd => [fd]) (bind_internal addr d ty).
Proof.
  apply (owns_bind_keeps (fun fd => fd)); [apply owns_socket2|]. intros fd. apply keeps_dropping.
  - repeat (apply owns_bind_nothing; [apply owns_ask|intros _]). apply owns_ret.
  - do 3 (apply (result_bind _ _ (fun a => [a] = [fd])); intros _). by intros s a s' [= <- _].
Qed.
Lemma owns_bind_unix addr ty : owns_exactly (fun fd => [fd]) (socket_bind_unix addr ty).
Proof. destruct addr; [apply owns_bind_internal|apply owns_fail]. Qed.
Lemma owns_listen (m : NM Z) n :
  owns_exactly (fun fd => [fd]) m ->
  owns_exactly (fun fd => [fd]) (fd ← m; dropping fd (_ ← listen fd n; mret fd)).
Proof.
  intros Hm. apply (owns_bind_keeps (fun fd => fd)); [done|]. intros fd. apply keeps_dropping.
  - apply owns_then, owns_then, owns_ask.
  - intros s a s' E%result_then. by subst.
Qed.
Lemma owns_accept fd : owns_exactly (fun x => [x.1]) (socket_accept fd).
Proof.
  apply owns_bind_nothing; [apply owns_ask|]. intros [n peer].
  apply (owns_bind_keeps (fun s => s)); [apply owns_own|]. intros s. by apply keeps_ret.
Qed.

Lemma owns_local_addr fd : owns_exactly nothing (local_addr fd).
Proof.
  apply owns_bind_nothing; [apply owns_ret|]. intros l. apply owns_bind_nothing.
  - intros s. unfold as_value. assert (H : owns_exactly nothing (std_local_addr l)).
    { destruct l; [|apply owns_fail].
      apply owns_bind_nothing; [apply owns_ask|]. intros [n [a|]]; [apply owns_ret|apply owns_fail]. }
    specialize (H s). by destruct (std_local_addr l s) as [[a|e] s'].
  - intros [a|e]; [apply owns_ret|apply owns_fail].
Qed.

(** C38. No descriptor is lost. However the kernel answers, each constructor of
    a listener, socket or stream that succeeds has opened exactly the
    descriptor that it returns, and one that fails has left none open: what
    it opened is closed when the early return drops it. Asking a socket for
    its address, shutting it down or setting an option opens nothing and
    leaves it open, on an error too. *)
Theorem no_descriptor_lost (addr : SocketAddr) (path : io_result (list byte)) (fd : Z) :
  owns_exactly (fun s => [s]) (tcp_bind addr) /\
  owns_exactly (fun s => [s]) (unix_bind path) /\
  owns_exactly (fun s => [s]) (udp_bind addr) /\
  owns_exactly (fun s => [s]) (tcp_connect addr) /\
  owns_exactly (fun s => [s]) (unix_connect path) /\
  owns_exactly (fun x => [x.1]) (tcp_accept fd) /\
  owns_exactly (fun s => [s]) (unix_accept fd) /\
  owns_exactly nothing (local_addr fd) /\
  owns_exactly nothing (tcp_listener_local_addr fd) /\
  owns_exactly nothing (unix_listener_local_addr fd) /\
  (forall how, owns_exactly nothing (socket_shutdown fd how)) /\
  (forall nodelay, owns_exactly nothing (socket_set_nodelay fd nodelay)).
Proof.
  split_and!.
  - apply owns_listen, owns_bind_internal.
  - apply owns_listen, owns_bind_unix.
  - apply owns_bind_internal.
  - apply (owns_bind_keeps (fun s => s)); [apply owns_socket2|]. intros s. apply keeps_dropping.
    + apply owns_then, owns_then, owns_ask.
    + intros ? a ? E%result_then. by subst.
  - apply (owns_bind_keeps (fun s => s)); [apply owns_socket2|]. intros s. apply keeps_dropping.
    + apply owns_bind_nothing; [destruct path; [apply owns_ret|apply owns_fail]|].
      intros a. apply owns_then, owns_then, owns_ask.
    + apply (result_bind _ _ (fun a => [a] = [s])). intros x ? a ? E%result_then. by subst.
  - apply (owns_bind_keeps (fun x => x.1)); [apply owns_accept|]. intros [s peer].
    apply keeps_dropping; [destruct peer; [apply owns_ret|apply owns_fail]|].
    intros ? a ?. destruct peer; [|done]. by intros [= <- _].
  - apply (owns_bind_keeps (fun x => x.1)); [apply owns_accept|]. intros [s peer].
    by apply keeps_ret.
  - apply owns_local_addr.
  - apply owns_local_addr.
  - apply owns_local_addr.
  - intros how. apply owns_then, owns_ask.
  - intros nodelay. apply owns_then, owns_ask.
Qed.

(** A bound listener has made its requests in this order. *)
Lemma tcp_bind_requests (addr : SocketAddr) (s s' : NetState K) (fd : Z) :
  tcp_bind addr s = (Ok fd, s') ->
  ns_log s' = ns_log s ++
    [RSocket (get_domain addr) SOCK_STREAM; RReusePort fd; RReuseAddress fd;
     RBind fd (sockaddr_from addr); RListen fd 1024].
Proof.
  unfold tcp_bind, socket_bind, bind_internal, socket2_new, listen, dropping, own, ask,
    mbind, nm_bind.
  repeat (let E := fresh in
          match goal with |- context [net_answer ?r ?k] => destruct (net_answer r k) as [[[?|?] ?] ?] eqn:E end;
          cbn; [|done]).
  intros [= <- <-]. cbn. by rewrite <- !app_assoc.
Qed.
End net.
