(* ===== verification/Tests.v ===== *)
(** The unit tests of the crate, run on the development: the test modules of
    [src/src/runtime/driver/op/slab_list.rs], [src/src/runtime/driver/mod.rs]
    and [src/src/runtime/mod.rs], translated line by line with their
    assertions, on any ring that [io_uring] builds. Each returns, so no
    assertion fails; what the authors expect of the code is what the
    definitions do. *)
From S2P Require Import Prelude Slab IoUring SlabList Op Driver Handle Runtime EventLoop.

Definition assert_eq `{!EqDecision A} (x y : A) : outcome unit :=
  assert (bool_decide (x = y)) "assertion `left == right` failed".
Definition assert_that (b : bool) : outcome unit := assert b "assertion failed".

(** * [slab_list.rs] *)
Module ListTests.
Abbreviation list_ := (SlabList (gmap N) N).

Definition no_slab : gmap N (SlabListEntry N) := ∅.

(** The two loops of [push_pop]. *)
Fixpoint push_each (is_ : list N) (list : list_) : outcome list_ :=
  match is_ with
  | [] => Ret list
  | i :: is_ =>
      list ← push i list;
      last ← peek_end list;
      _ ← assert_eq last (Some i);
      _ ← assert_that (negb (is_empty list));
      _ ← assert_that (negb (is_empty_slab (store list)));
      push_each is_ list
  end.
Fixpoint pop_each (is_ : list N) (list : list_) : outcome list_ :=
  match is_ with
  | [] => Ret list
  | i :: is_ =>
      let '(x, list) := pop list in
      _ ← assert_eq x (Some i);
      pop_each is_ list
  end.
Definition push_pop : outcome unit :=
  let list : list_ := into_list new_indices no_slab in
  _ ← assert_that (is_empty list);
  let '(x, list) := pop list in
  _ ← assert_eq x None;
  list ← push_each [0; 1; 2; 3; 4] list;
  list ← pop_each [0; 1; 2; 3; 4] list;
  _ ← assert_that (is_empty list);
  _ ← assert_that (is_empty_slab (store list));
  let '(x, list) := pop list in
  _ ← assert_eq x None;
  _ ← drop_list list;
  Ret tt.

(** The list goes out of scope at the end of the inner block. *)
Definition entries_freed_on_drop : outcome unit :=
  list ← push 42 (into_list new_indices no_slab);
  _ ← assert_that (negb (is_empty list));
  slab ← drop_list list;
  assert_that (is_empty_slab slab).
Definition entries_kept_on_converion_to_index : outcome unit :=
  list ← push 42 (into_list new_indices no_slab);
  _ ← assert_that (negb (is_empty list));
  '(_, slab) ← into_indices list;
  assert_that (negb (is_empty_slab slab)).

Example list_tests_pass :
  push_pop = Ret tt /\ entries_freed_on_drop = Ret tt /\ entries_kept_on_converion_to_index = Ret tt.
Proof. by vm_compute. Qed.
End ListTests.

(** * [driver/mod.rs] *)

(** [data: Rc<()>] is one allocation; what the tests count is who has a
    reference to it. *)
Inductive RcUnit : Type := rc_unit.
Module DriverTests.
Record Completion : Type := mkCompletion { result : io_result N; flags : N; data : RcUnit }.
#[export] Instance rc_completable : Completable RcUnit Completion := fun self c =>
  Ret (mkCompletion (result_ c) (Op.flags c) self).

Section tests.
Context {Prof : Profile} {Er : Errno} `{!Uring ring} `{!UringBuilder B ring}.
Context (fuel : nat).
Abbreviation world := (World (slab := gmap N) (ring := ring)).
Implicit Types w : world.

Definition no_handle : string := "called `Option::unwrap()` on a `None` value".
(** [CONTEXT.with(|cx| cx.handle().unwrap().inner.borrow_mut() ..)]. *)
Definition with_ops {A} (f : Ops (gmap N) -> outcome (A * Ops (gmap N))) w : outcome (A * world) :=
  _ ← unwrap no_handle (context_handle (w_ctx w));
  '(x, rc) ← with_borrow_mut (fun d => '(x, o) ← f (ops d); Ret (x, mkDriver o (uring d))) (w_rc w);
  Ret (x, mkWorld rc (w_ctx w)).

Definition init : outcome (Op RcUnit * world) :=
  driver ← unwrap_ok (driver_new (B := B) builder);
  cx ← set_handle strong_handle context_new;
  '(index, w) ← with_ops ops_insert (mkWorld (mkRc 1 false driver) cx);
  Ret (new_op rc_unit index, w).
(** The function [num_operations] of the test module: the driver's, through
    the handle. [borrow()] panics while the driver is mutably borrowed. *)
Definition test_num_operations w : outcome nat :=
  _ ← unwrap no_handle (context_handle (w_ctx w));
  if borrowed (w_rc w) then Panic PBorrow else Ret (num_operations (value (w_rc w))).
(** [ops.complete(index, unsafe { mem::zeroed() })]. *)
Definition complete_index (index : N) w : outcome (list Waker * world) :=
  with_ops (fun o => '(o, woken) ← ops_complete index zeroed_cqe o; Ret (woken, o)) w.
Definition complete (op : Op RcUnit) w : outcome (list Waker * world) :=
  complete_index (op_index op) w.
(** Both slabs are cleared, and the last handle drops the driver. *)
Definition release w : outcome world :=
  let w := mkWorld (clone_handle (w_rc w)) (w_ctx w) in
  '(_, w) ← with_ops (fun o => Ret (tt, mkOps slab_empty (completions o))) w;
  '(_, w) ← with_ops (fun o => Ret (tt, mkOps (lifecycle o) slab_empty)) w;
  cx ← unset_driver (w_ctx w);
  '(rc, _) ← drop_handle fuel (w_rc w);
  '(rc, _) ← drop_handle fuel rc;
  Ret (mkWorld rc cx).

(** [Rc::strong_count(&data)]: the test itself, its operation, the boxes of
    ignored operations, and a result the test holds on to. *)
Definition strong_count (op : option (Op RcUnit)) (held : list RcUnit) w : nat :=
  S ((if op is Some op then match op_data op with Some _ => 1 | None => 0 end else 0)
     + length (List.filter (fun i => match slab_get i (lifecycle (ops (value (w_rc w)))) with
                                     | Some (Ignored _) => true
                                     | _ => false
                                     end) (slab_keys (lifecycle (ops (value (w_rc w))))))
     + length held).

(** [tokio_test::task::spawn]: a task with a waker of its own, that knows
    whether it was woken. *)
Record Spawn : Type := mkSpawn { sp_op : Op RcUnit; sp_waker : Waker; sp_woken : bool }.
Definition spawn (n : N) (op : Op RcUnit) : Spawn := mkSpawn op (mkWaker n n) false.
Definition wake (woken : list Waker) (t : Spawn) : Spawn :=
  mkSpawn (sp_op t) (sp_waker t) (sp_woken t || bool_decide (sp_waker t ∈ woken)).
Definition poll (t : Spawn) w : outcome (Poll Completion * Spawn * world) :=
  '(p, op, rc) ← op_poll (sp_op t) (sp_waker t) (w_rc w);
  Ret (p, mkSpawn op (sp_waker t) false, mkWorld rc (w_ctx w)).
Definition assert_pending (t : Spawn) w : outcome (Spawn * world) :=
  '(p, t, w) ← poll t w;
  match p with Pending => Ret (t, w) | Ready _ => Panic (PAssert "ready") end.
Definition assert_ready (t : Spawn) w : outcome (Completion * Spawn * world) :=
  '(p, t, w) ← poll t w;
  match p with Ready c => Ret (c, t, w) | Pending => Panic (PAssert "pending") end.
Definition drop (op : Op RcUnit) w : outcome world :=
  rc ← op_drop op (w_rc w); Ret (mkWorld rc (w_ctx w)).
(** [assert_eq!(0, result.unwrap()); assert_eq!(0, flags);] *)
Definition all_zero (c : Completion) : outcome unit :=
  n ← unwrap_ok (result c); _ ← assert_eq 0 n; assert_eq 0 (flags c).

(** The tests up to the [release()] that ends each of them. *)
Definition op_stays_in_slab_on_drop : outcome world :=
  '(op, w) ← init;
  w ← drop op w;
  _ ← assert_eq 2%nat (strong_count None [] w);
  n ← test_num_operations w; _ ← assert_eq 1%nat n;
  Ret w.
Definition poll_op_once : outcome world :=
  '(op, w) ← init;
  '(op, w) ← assert_pending (spawn 1 op) w;
  _ ← assert_eq 2%nat (strong_count (Some (sp_op op)) [] w);
  '(woken, w) ← complete (sp_op op) w;
  let op := wake woken op in
  n ← test_num_operations w; _ ← assert_eq 1%nat n;
  _ ← assert_eq 2%nat (strong_count (Some (sp_op op)) [] w);
  _ ← assert_that (sp_woken op);
  '(c, op, w) ← assert_ready op w;
  _ ← assert_eq 2%nat (strong_count (Some (sp_op op)) [data c] w);
  _ ← all_zero c;
  _ ← assert_eq 1%nat (strong_count (Some (sp_op op)) [] w);
  w ← drop (sp_op op) w;
  n ← test_num_operations w; _ ← assert_eq 0%nat n;
  Ret w.
Definition poll_op_twice : outcome world :=
  '(op, w) ← init;
  '(op, w) ← assert_pending (spawn 1 op) w;
  '(op, w) ← assert_pending op w;
  '(woken, w) ← complete (sp_op op) w;
  let op := wake woken op in
  _ ← assert_that (sp_woken op);
  '(c, op, w) ← assert_ready op w;
  _ ← all_zero c;
  w ← drop (sp_op op) w;
  Ret w.
(** [op.into_inner()] gives the operation to a second task. *)
Definition poll_change_task : outcome world :=
  '(op, w) ← init;
  '(op, w) ← assert_pending (spawn 1 op) w;
  '(op, w) ← assert_pending (spawn 2 (sp_op op)) w;
  '(woken, w) ← complete (sp_op op) w;
  let op := wake woken op in
  _ ← assert_that (sp_woken op);
  '(c, op, w) ← assert_ready op w;
  _ ← all_zero c;
  w ← drop (sp_op op) w;
  Ret w.
Definition complete_before_poll : outcome world :=
  '(op, w) ← init;
  let op := spawn 1 op in
  '(woken, w) ← complete (sp_op op) w;
  let op := wake woken op in
  n ← test_num_operations w; _ ← assert_eq 1%nat n;
  _ ← assert_eq 2%nat (strong_count (Some (sp_op op)) [] w);
  '(c, op, w) ← assert_ready op w;
  _ ← all_zero c;
  w ← drop (sp_op op) w;
  n ← test_num_operations w; _ ← assert_eq 0%nat n;
  Ret w.
Definition complete_after_drop : outcome world :=
  '(op, w) ← init;
  let index := op_index op in
  w ← drop op w;
  _ ← assert_eq 2%nat (strong_count None [] w);
  n ← test_num_operations w; _ ← assert_eq 1%nat n;
  '(_, w) ← complete_index index w;
  _ ← assert_eq 1%nat (strong_count None [] w);
  n ← test_num_operations w; _ ← assert_eq 0%nat n;
  Ret w.

Definition all_tests : list (outcome world) :=
  (fun test => w ← test; release w) <$>
  [op_stays_in_slab_on_drop; poll_op_once; poll_op_twice; poll_change_task;
   complete_before_poll; complete_after_drop].

(** The world of a test whose driver has the table [o]. *)
Definition left_with (o : Ops (gmap N)) (r : ring) : world :=
  mkWorld (mkRc 1 false (mkDriver o r)) (mkContext (Some strong_handle)).
Lemma release_ok o r :
  sq_is_empty r = true -> (1 <= fuel)%nat ->
  exists w, release (left_with o r) = Ret w.
Proof.
  intros Hr Hf. unfold release, with_ops. cbn. unfold drop_driver. cbn.
  destruct fuel as [|f]; [lia|]. cbn. rewrite Hr. cbn. by eexists.
Qed.

(** The unit tests of the driver pass, with whatever ring the kernel gives:
    an operation that is dropped in flight stays in the table with its data
    until its completion, the task that polled last is woken, a completion
    that comes before the first poll is kept, the data is handed back exactly
    once, and the driver can be dropped after each of them. *)
Theorem driver_tests_pass (r : ring) :
  builder_build (urb (builder (B := B))) (entries (builder (B := B))) = Ok r ->
  sq_is_empty r = true -> (1 <= fuel)%nat ->
  Forall (fun test => exists w, test = Ret w) all_tests.
Proof.
  intros Hb Hr Hf.
  assert (Hi : init = Ret (new_op rc_unit 0,
    left_with (mkOps (slab := gmap N) {[0 := Submitted]} ∅) r)).
  { unfold init, driver_new, unwrap_ok. rewrite Hb. reflexivity. }
  assert (Hw : forall test : outcome world, (exists o, test = Ret (left_with o r)) ->
    exists w, (w ← test; release w) = Ret w).
  { intros test [o ->]. exact (release_ok o r Hr Hf). }
  clear Hb Hr Hf. repeat constructor; apply Hw; eexists;
    (etransitivity; [eapply (f_equal (fun o => mbind _ o)), Hi|]); vm_compute; reflexivity.
Qed.
End tests.

#[local] Existing Instance debug_profile.
#[local] Instance script_builder : UringBuilder unit script_ring := {
  builder_new := tt;
  builder_setup_sqpoll := fun _ b => b;
  builder_build := fun _ n => Ok (ScriptRing [] (N.to_nat n) [] []);
}.
Lemma driver_tests_pass_witness :
  Forall (fun test => exists w, test = Ret w) (all_tests (B := unit) (ring := script_ring) 1).
Proof. by apply (driver_tests_pass 1 (ScriptRing [] 256 [] [])); [..|lia]. Defined.
End DriverTests.

(** * [runtime/mod.rs] *)
Definition test_block_on : code unit := run (BlockOn strong_handle Done).
Definition test_block_on_twice : code unit :=
  run (Then (BlockOn strong_handle Done) (BlockOn strong_handle Done)).
Example runtime_tests_pass :
  test_block_on context_new = (Returned tt, context_new) /\
  test_block_on_twice context_new = (Returned tt, context_new).
Proof. by split. Qed.
