(* ===== verification/CopyExamples.v ===== *)
(** [src/examples/cat.rs] and [src/examples/mix.rs]: a file is read in chunks
    with [File::read_at], and written to the standard output or to a stream.

    The programs are clients of the whole library. What lies between the
    submission of an entry and its completion is the subject of [AsyncOp.v];
    here an entry is answered by the kernel, a parameter, which reads and
    writes the memory that the entry names. *)
From S2P Require Import Prelude Slab Buf Buffer BufSpec Types IoUring Op Handle Libc OpenOptions.
From S2P Require Import ReadWrite ReadWriteSpec IoOps AsyncOp Api.

(** The kernel's answer to an entry: the result of the completion, memory,
    and its own state. *)
Class RwKernel (K : Type) : Type := rw_answer : opcode -> Mem -> K -> Z * Mem * K.

Definition newline : Byte.byte := Byte.x0a.

Section copy.
Context {Prof : Profile} {Er : Errno} {Lc : Libc} `{!RwKernel K}.

(** The memory of the process and the kernel. *)
Record Sys : Type := mkSys { sys_mem : Mem; sys_kernel : K }.
Implicit Types s : Sys.

(** [.submit().await] of a read or a write. *)
Definition submit_await (u : Unsubmitted) s : outcome (BufResult N Buffer * Sys) :=
  let '(res, m, k) := rw_answer (sqe_op (u_sqe u)) (sys_mem s) (sys_kernel s) in
  r ← transform_oneshot_output (u_post_op u) (u_stable_data u) (Cqe 0 res 0);
  Ret (r, mkSys m k).
(** [File::open(path).await]. *)
Definition open_await (path : list byte) s : outcome (io_result File * Sys) :=
  match open path file_open_options with
  | Err e => Ret (Err e, s)
  | Ok (d, e) =>
      let '(res, m, k) := rw_answer (sqe_op e) (sys_mem s) (sys_kernel s) in
      c ← from_cqe (Cqe 0 res 0);
      r ← complete d c;
      Ret (map_ok mkFile r, mkSys m k)
  end.
Definition unwrap_result {A E} (r : result A E) : outcome A :=
  match r with Ok x => Ret x | Err _ => Panic unwrap_failed end.

(** [&b[0][..n]]. *)
Definition prefix_of_buffer (b : Buffer) (n : N) (m : Mem) : outcome (list byte) :=
  bytes ← buffer_index 0 b m;
  if N.of_nat (length bytes) <? n then Panic (PIndex "range end index out of range")
  else Ret (take (N.to_nat n) bytes).

(** The loop of [cat.rs]; [out] is what the standard output has received. *)
Fixpoint cat_loop (fuel : nat) (file : File) (buf : Buffer) (pos : N) (out : list byte) s :
    outcome (list byte * Sys) :=
  match fuel with
  | O => NoFuel
  | S fuel =>
      u ← file_read_at file buf pos;
      '(r, s) ← submit_await u s;
      '(n, b) ← unwrap_result r;
      if n =? 0 then Ret (out, s)
      else
        chunk ← prefix_of_buffer b n (sys_mem s);
        pos ← add_usize pos n;
        cat_loop fuel file b pos (out ++ chunk) s
  end.
(** [main] of [cat.rs]; [v] is [vec![0; 16 * 1_024]], [addr] where its
    [Buffer] keeps the [iovec]. *)
Definition cat (fuel : nat) (args : list (list byte)) (addr : N) (v : VecU8) s :
    outcome (list byte * Sys) :=
  if Nat.leb (length args) 1 then Panic (PUnreachable "no path specified")
  else
    path ← index_vec args 1;
    '(r, s) ← open_await path s;
    file ← unwrap_result r;
    buf ← buffer_new addr v;
    '(out, s) ← cat_loop fuel file buf 0 [] s;
    Ret (out ++ [newline], s).

(** The loop of [mix.rs]. *)
Fixpoint mix_loop (fuel : nat) (file : File) (socket : TcpStream) (buf : Buffer) (pos : N) s :
    outcome Sys :=
  match fuel with
  | O => NoFuel
  | S fuel =>
      u ← file_read_at file buf pos;
      '(r, s) ← submit_await u s;
      '(n, b) ← unwrap_result r;
      if n =? 0 then Ret s
      else
        u ← tcp_write socket b;
        '(r, s) ← submit_await u s;
        '(n, b) ← unwrap_result r;
        pos ← add_usize pos n;
        mix_loop fuel file socket b pos s
  end.
(** The task that [mix.rs] spawns for each connection. *)
Definition mix_task (fuel : nat) (path : list byte) (socket : TcpStream) (addr : N) (v : VecU8) s :
    outcome Sys :=
  '(r, s) ← open_await path s;
  file ← unwrap_result r;
  buf ← buffer_new addr v;
  mix_loop fuel file socket buf 0 s.

(** * One operation on a buffer of one vector *)

(** A [Buffer] made of one vector of [c] bytes at [p], of which [n] count as
    initialised. *)
Definition one_vec (b : Buffer) (p n c : N) : Prop :=
  iovecs b = [mkIovec p n] /\ caps b = [c] /\ ty b = TyVec.

Lemma fixed_index_vec b : ty b = TyVec -> fixed_index b = Ret None.
Proof. intros E. unfold fixed_index, buffer_type_id. by rewrite E. Qed.


Definition finished (u : Unsubmitted) (res : Z) : outcome (BufResult N Buffer) :=
  transform_oneshot_output (u_post_op u) (u_stable_data u) (Cqe 0 res 0).

(** A read asks for the whole vector, and what arrives is what counts as
    initialised. *)
Lemma read_entry fd b p n0 c off :
  one_vec b p n0 c -> c < 4294967296 ->
  exists u, read_at fd b off = Ret u /\ sqe_op (u_sqe u) = OpRead (fr_fd fd) p c off /\
    forall n, n <= c -> n < 2147483648 ->
      exists b', finished u (Z.of_N n) = Ret (Ok (n, b')) /\ one_vec b' p n c.
Proof.
  intros (Hv & Hc & Ht) Hlt.
  unfold read_at. cbn [io_stable_mut_ptr buffer_io_buf_mut io_bytes_total buffer_io_buf].
  rewrite Hc. cbn [sum_usize]. rewrite add_usize_Ret by (unfold usize_max; lia).
  cbn [mbind outcome_bind sum_usize]. rewrite N.add_0_l.
  assert (Hf : fill b = with_iovecs [mkIovec p c] b) by (unfold fill; by rewrite Hv, Hc).
  assert (Hp : buffer_stable_ptr b = p) by (unfold buffer_stable_ptr; by rewrite Hv).
  rewrite Hf, Hp, fixed_index_vec by done.
  cbn [buffer_len with_iovecs iovecs length Nat.eqb mbind outcome_bind].
  unfold as_u32. rewrite wrap_small by done. eexists. split; [done|]. split; [done|].
  intros n Hn Hi. unfold finished, transform_oneshot_output, rw_transform.
  cbn [u_post_op u_stable_data cqe_result].
  rewrite (proj2 (Z.ltb_ge _ _)) by lia. rewrite usize_of_i32_nonneg by lia. rewrite N2Z.id.
  cbn [rw_kind rw_buf io_set_init buffer_io_buf_mut with_iovecs iovecs caps].
  rewrite Hc. cbn [set_init_iovecs]. rewrite N.min_r by done.
  rewrite sub_usize_Ret by done. cbn [mbind outcome_bind iov_base]. by eexists.
Qed.
(** A write shows the initialised bytes, and gives the buffer back. *)
Lemma write_entry fd b p n c off :
  one_vec b p n c -> n < 4294967296 ->
  exists u, write_at fd b off = Ret u /\ sqe_op (u_sqe u) = OpWrite (fr_fd fd) p n off /\
    forall n', n' < 2147483648 -> finished u (Z.of_N n') = Ret (Ok (n', b)).
Proof.
  intros (Hv & Hcap & Ht) Hc. unfold write_at.
  assert (Hp : buffer_stable_ptr b = p) by (unfold buffer_stable_ptr; by rewrite Hv).
  cbn [io_stable_ptr io_bytes_init buffer_io_buf]. rewrite Hp, Hv. cbn [fmap list_fmap iov_len sum_usize].
  rewrite add_usize_Ret by (unfold usize_max; lia). cbn [mbind outcome_bind sum_usize].
  unfold buffer_len. rewrite Hv, fixed_index_vec, N.add_0_l by done.
  cbn [length Nat.eqb mbind outcome_bind]. unfold as_u32. rewrite wrap_small by done.
  eexists. split; [done|]. split; [done|]. intros n' Hi.
  unfold finished, transform_oneshot_output, rw_transform. cbn [u_post_op u_stable_data cqe_result].
  rewrite (proj2 (Z.ltb_ge _ _)) by lia. rewrite usize_of_i32_nonneg by lia. rewrite N2Z.id.
  cbn [rw_kind rw_buf mbind outcome_bind]. done.
Qed.
Lemma chunk_of_buffer b p n c bs m :
  one_vec b p n c -> read_bytes m p (N.to_nat n) = Ret bs -> N.of_nat (length bs) = n ->
  prefix_of_buffer b n m = Ret bs.
Proof.
  intros (Hv & _) Hr Hl. unfold prefix_of_buffer, buffer_index. rewrite Hv. cbn.
  rewrite Hr. cbn. rewrite Hl, N.ltb_irrefl. by rewrite take_ge by lia.
Qed.
Lemma chunk_length (bs : list byte) n pos :
  pos + n <= N.of_nat (length bs) ->
  N.of_nat (length (take (N.to_nat n) (drop (N.to_nat pos) bs))) = n.
Proof. intros. rewrite length_take, length_drop. lia. Qed.

(** A fresh vector: allocated, and shorter than 4 GiB. *)
Definition fresh (v : VecU8) s : Prop :=
  0 < v_cap v < 4294967296 /\ allocated (sys_mem s) (v_ptr v) (v_cap v).
Lemma one_vec_new v addr : exists b, buffer_new addr v = Ret b /\ one_vec b (v_ptr v) (v_len v) (v_cap v).
Proof. by eexists. Qed.

(** The answer of the kernel, and how the await ends with it. *)
Lemma await_done u s res m k n b :
  rw_answer (sqe_op (u_sqe u)) (sys_mem s) (sys_kernel s) = (res, m, k) -> finished u res = Ret (Ok (n, b)) ->
  submit_await u s = Ret (Ok (n, b), mkSys m k).
Proof. intros E F. unfold submit_await. rewrite E. unfold finished in F. by rewrite F. Qed.

(** * What the kernel documents of regular files and streams *)

(** The file at a path, the file that a descriptor is open on, and what the
    peer of a connected stream has been sent. *)
Variable stored : K -> list byte -> option (list byte).
Variable opened : K -> Z -> option (list byte).
Variable sent : K -> Z -> option (list byte).
(** Whether the kernel may answer with an error. *)
Variable errors : Prop.

Definition refused (res : Z) : Prop := errors /\ (-2147483648 < res < 0)%Z.
Definition i32_count (n : N) : Prop := n < 2147483648.

Record CopyLaws : Prop := {
  open_file k m p bs : stored k p = Some bs ->
    exists res k', rw_answer (OpOpenAt AT_FDCWD p (Z.lor O_CLOEXEC O_RDONLY) 438) m k = (res, m, k') /\
      (refused res \/ ((0 <= res < 2147483648)%Z /\ opened k' res = Some bs /\ sent k' = sent k));
  (** A read gives at least one byte unless the file ends there. *)
  read_file k m fd bs ptr len off :
    opened k fd = Some bs -> allocated m ptr len -> off <= N.of_nat (length bs) ->
    exists res m' k', rw_answer (OpRead fd ptr len off) m k = (res, m', k') /\
      (refused res \/
       exists n, res = Z.of_N n /\ i32_count n /\ n <= len /\ off + n <= N.of_nat (length bs) /\
         (n = 0 -> len = 0 \/ off = N.of_nat (length bs)) /\
         write_bytes m ptr (take (N.to_nat n) (drop (N.to_nat off) bs)) = Ret m' /\
         opened k' = opened k /\ sent k' = sent k);
  (** A write to a stream takes at least one byte of those it is shown. *)
  write_stream k m fd old bs ptr len :
    sent k fd = Some old -> read_bytes m ptr (N.to_nat len) = Ret bs ->
    exists res k', rw_answer (OpWrite fd ptr len 0) m k = (res, m, k') /\
      (refused res \/
       exists n, res = Z.of_N n /\ i32_count n /\ n <= len /\ (n = 0 -> len = 0) /\
         opened k' = opened k /\ sent k' fd = Some (old ++ take (N.to_nat n) bs));
}.
Context (laws : CopyLaws).

Lemma await_refused u s res m k :
  rw_answer (sqe_op (u_sqe u)) (sys_mem s) (sys_kernel s) = (res, m, k) -> refused res ->
  exists e, submit_await u s = Ret (Err e, mkSys m k) /\ errors.
Proof.
  intros E [He Hr]. unfold submit_await. rewrite E.
  unfold transform_oneshot_output, rw_transform. cbn [cqe_result].
  rewrite (proj2 (Z.ltb_lt _ _)) by lia. unfold neg_i32.
  destruct (Z.eqb_spec res (-2147483648)); [lia|]. cbn. by eexists.
Qed.

(** One read of the loops. *)
Lemma read_chunk file b p n0 c pos s bs :
  one_vec b p n0 c -> 0 < c < 4294967296 -> allocated (sys_mem s) p c ->
  opened (sys_kernel s) (fr_fd (f_fd file)) = Some bs -> pos <= N.of_nat (length bs) ->
  exists u, file_read_at file b pos = Ret u /\
  ((exists e s', submit_await u s = Ret (Err e, s') /\ errors) \/
   exists n b' s', submit_await u s = Ret (Ok (n, b'), s') /\ one_vec b' p n c /\ n <= c /\
     pos + n <= N.of_nat (length bs) /\ (n = 0 -> pos = N.of_nat (length bs)) /\
     read_bytes (sys_mem s') p (N.to_nat n) = Ret (take (N.to_nat n) (drop (N.to_nat pos) bs)) /\
     allocated (sys_mem s') p c /\
     opened (sys_kernel s') = opened (sys_kernel s) /\ sent (sys_kernel s') = sent (sys_kernel s)).
Proof.
  intros Hb Hlt Ha Ho Hpos. unfold file_read_at.
  destruct (read_entry (f_fd file) b p n0 c pos Hb ltac:(lia)) as (u & -> & Hu & Hfin).
  exists u. split; [done|].
  destruct (read_file laws _ (sys_mem s) _ bs p c pos Ho Ha Hpos) as (res & m' & k' & E & [Hr|H]);
    rewrite <- Hu in E.
  { left. destruct (await_refused u s res m' k' E Hr) as (e & E' & He). by eexists _, _. }
  right. destruct H as (n & -> & Hi & Hn & Hle & Hz & Hw & Hok & Hsk). unfold i32_count in Hi.
  destruct (Hfin n Hn Hi) as (b' & F & Hb').
  exists n, b', (mkSys m' k'). split; [by eapply await_done|]. cbn [sys_mem sys_kernel].
  assert (Hlen : length (take (N.to_nat n) (drop (N.to_nat pos) bs)) = N.to_nat n).
  { rewrite length_take, length_drop. lia. }
  destruct (write_bytes_spec (take (N.to_nat n) (drop (N.to_nat pos) bs)) (sys_mem s) p)
    as (m2 & E2 & R & _ & A).
  { rewrite Hlen. intros a Hin. apply Ha. lia. }
  rewrite E2 in Hw. injection Hw as <-. rewrite Hlen in R.
  split_and!; try done.
  - intros ->. destruct Hz; [done|lia|done].
  - intros a Hin. by apply A, Ha.
Qed.

(** A program that ends well, or panics because the kernel refused something. *)
Definition ends {A} (P : A -> Prop) (o : outcome A) : Prop :=
  match o with
  | Ret a => P a
  | Panic q => errors /\ q = unwrap_failed
  | _ => False
  end.

Lemma cat_loop_spec file bs p c fuel :
  N.of_nat (length bs) <= usize_max -> 0 < c < 4294967296 ->
  forall b n0 pos s, one_vec b p n0 c -> allocated (sys_mem s) p c ->
  opened (sys_kernel s) (fr_fd (f_fd file)) = Some bs -> pos <= N.of_nat (length bs) ->
  (length bs < fuel + N.to_nat pos)%nat ->
  ends (fun r => r.1 = bs) (cat_loop fuel file b pos (take (N.to_nat pos) bs) s).
Proof.
  intros Hmax Hc. induction fuel as [|fuel IH]; intros b n0 pos s Hb Ha Ho Hpos Hf; [lia|].
  cbn [cat_loop]. destruct (read_chunk file b p n0 c pos s bs Hb Hc Ha Ho Hpos) as (u & -> & H).
  cbn [mbind outcome_bind]. destruct H as [(e & s' & -> & He)|H]; [done|].
  destruct H as (n & b' & s' & -> & Hb' & Hnc & Hle & Hz & Hr & Ha' & Ho' & _).
  cbn [mbind outcome_bind unwrap_result]. destruct (N.eqb_spec n 0) as [->|Hn].
  { cbn. rewrite (Hz eq_refl), take_ge by lia. done. }
  rewrite (chunk_of_buffer b' p n c _ _ Hb' Hr) by (by apply chunk_length).
  cbn [mbind outcome_bind]. rewrite add_usize_Ret by lia. cbn [mbind outcome_bind].
  rewrite take_take_drop, <- N2Nat.inj_add. apply (IH b' n); try done; [by rewrite Ho'|lia].
Qed.

Lemma open_spec path bs s :
  stored (sys_kernel s) path = Some bs -> Byte.x00 ∉ path ->
  (exists e s', open_await path s = Ret (Err e, s') /\ errors) \/
  exists file s', open_await path s = Ret (Ok file, s') /\ sys_mem s' = sys_mem s /\
    opened (sys_kernel s') (fr_fd (f_fd file)) = Some bs /\ sent (sys_kernel s') = sent (sys_kernel s).
Proof.
  intros Hs Hn. unfold open_await, open, cstr. rewrite bool_decide_eq_false_2 by done.
  assert (Hf : open_flags file_open_options = Ok (Z.lor O_CLOEXEC O_RDONLY)).
  { unfold open_flags. cbn -[Z.lor Z.land Z.lnot]. by rewrite Z.land_0_l, !Z.lor_0_r. }
  rewrite Hf.
  cbv iota beta. destruct (open_file laws _ (sys_mem s) path bs Hs) as (res & k' & E & H).
  cbn [sqe_op build]. change (o_mode file_open_options) with 438. rewrite E.
  destruct H as [[He Hr]|(Hr & Ho & Hk)].
  - rewrite from_cqe_ok by (unfold cqe_ok; cbn; lia).
    left. unfold pure_result. cbn. rewrite (proj2 (Z.leb_gt _ _)) by lia. by eexists _, _.
  - rewrite from_cqe_ok by (unfold cqe_ok; cbn; lia).
    right. unfold pure_result. cbn. rewrite (proj2 (Z.leb_le _ _)) by lia. cbn.
    eexists _, _. split; [done|]. cbn. split_and!; try done.
    unfold as_i32. replace (as_u32 (Z.to_N res)) with (Z.to_N res).
    + rewrite Z2N.id by lia. by rewrite (proj2 (Z.ltb_lt _ _)) by lia.
    + symmetry. apply wrap_small. change (2 ^ 32) with 4294967296. lia.
Qed.

(** C23. [cat] prints the file. However the kernel splits the reads, the output is
    the content of the file and a newline, after at most as many reads as the
    file has bytes and one more; nothing is lost, repeated or invented. Only
    an error of the kernel can keep it from that, and then it panics. *)
Theorem cat_prints_file prog path args addr v bs s :
  stored (sys_kernel s) path = Some bs -> N.of_nat (length bs) <= usize_max ->
  Byte.x00 ∉ path -> fresh v s ->
  ends (fun r => r.1 = bs ++ [newline]) (cat (S (length bs)) (prog :: path :: args) addr v s).
Proof.
  intros Hs Hmax Hn [Hc Ha]. unfold cat, index_vec. cbn [length Nat.leb lookup list_lookup].
  cbn [or_panic mbind outcome_bind].
  destruct (open_spec path bs s Hs Hn) as [(e & s' & -> & He)|(file & s' & -> & Hm & Ho & _)]; [done|].
  cbn [mbind outcome_bind unwrap_result].
  destruct (one_vec_new v addr) as (b & -> & Hb). cbn [mbind outcome_bind].
  pose proof (cat_loop_spec file bs (v_ptr v) (v_cap v) (S (length bs)) Hmax Hc b (v_len v) 0 s' Hb) as H.
  rewrite Hm in H. specialize (H Ha Ho). cbn [N.to_nat take] in H.
  destruct (cat_loop _ _ _ _ _ _) as [[out s'']|q| |]; cbn in *; try (apply H; lia).
  f_equal. apply H; lia.
Qed.

(** One write of the loop of [mix]. *)
Lemma write_chunk socket b p n c s old chunk :
  one_vec b p n c -> n <= c < 4294967296 ->
  sent (sys_kernel s) (fr_fd (sk_fd (ts_inner socket))) = Some old ->
  read_bytes (sys_mem s) p (N.to_nat n) = Ret chunk ->
  exists u, tcp_write socket b = Ret u /\
  ((exists e s', submit_await u s = Ret (Err e, s') /\ errors) \/
   exists n' s', submit_await u s = Ret (Ok (n', b), s') /\ n' <= n /\ (n' = 0 -> n = 0) /\
     sys_mem s' = sys_mem s /\ opened (sys_kernel s') = opened (sys_kernel s) /\
     sent (sys_kernel s') (fr_fd (sk_fd (ts_inner socket))) = Some (old ++ take (N.to_nat n') chunk)).
Proof.
  intros Hb Hc Hs Hr. unfold tcp_write, socket_write.
  destruct (write_entry (sk_fd (ts_inner socket)) b p n c 0 Hb ltac:(lia)) as (u & -> & Hu & Hfin).
  exists u. split; [done|].
  destruct (write_stream laws _ (sys_mem s) _ old chunk p n Hs Hr) as (res & k' & E & [Hx|H]);
    rewrite <- Hu in E.
  { left. destruct (await_refused u s res _ k' E Hx) as (e & E' & He). by eexists _, _. }
  right. destruct H as (n' & -> & Hi & Hn & Hz & Ho & Hk). unfold i32_count in Hi.
  exists n', (mkSys (sys_mem s) k'). split; [by eapply await_done, Hfin|]. done.
Qed.

Lemma mix_loop_spec file socket bs old p c fuel :
  N.of_nat (length bs) <= usize_max -> 0 < c < 4294967296 ->
  forall b n0 pos s, one_vec b p n0 c -> allocated (sys_mem s) p c ->
  opened (sys_kernel s) (fr_fd (f_fd file)) = Some bs -> pos <= N.of_nat (length bs) ->
  sent (sys_kernel s) (fr_fd (sk_fd (ts_inner socket))) = Some (old ++ take (N.to_nat pos) bs) ->
  (length bs < fuel + N.to_nat pos)%nat ->
  ends (fun s' => sent (sys_kernel s') (fr_fd (sk_fd (ts_inner socket))) = Some (old ++ bs))
    (mix_loop fuel file socket b pos s).
Proof.
  intros Hmax Hc. induction fuel as [|fuel IH]; intros b n0 pos s Hb Ha Ho Hpos Hs Hf; [lia|].
  cbn [mix_loop]. destruct (read_chunk file b p n0 c pos s bs Hb Hc Ha Ho Hpos) as (u & -> & H).
  cbn [mbind outcome_bind]. destruct H as [(e & s' & -> & He)|H]; [done|].
  destruct H as (n & b' & s' & -> & Hb' & Hnc & Hle & Hz & Hr & Ha' & Ho' & Hk').
  cbn [mbind outcome_bind unwrap_result]. destruct (N.eqb_spec n 0) as [->|Hn].
  { cbn. rewrite Hk', Hs. f_equal. f_equal. rewrite (Hz eq_refl). apply take_ge. lia. }
  rewrite <- Hk' in Hs.
  destruct (write_chunk socket b' p n c s' (old ++ take (N.to_nat pos) bs)
    (take (N.to_nat n) (drop (N.to_nat pos) bs)) Hb' ltac:(lia) Hs Hr) as (u' & -> & H).
  cbn [mbind outcome_bind]. destruct H as [(e & s'' & -> & He)|H]; [done|].
  destruct H as (n' & s'' & -> & Hn' & Hz' & Hm & Ho'' & Hs'').
  cbn [mbind outcome_bind unwrap_result]. rewrite add_usize_Ret by lia. cbn [mbind outcome_bind].
  apply (IH b' n); try done; [by rewrite Hm|by rewrite Ho'', Ho'|lia| |lia].
  rewrite Hs'', take_take, <- app_assoc, take_take_drop. do 3 f_equal. lia.
Qed.

(** C22. [mix] serves the file. However the kernel splits reads and writes (a read
    that is only partly written is read again from where the writes ended),
    the peer of the stream is sent the content of the file exactly once and
    in order, with at most one round per byte; only an error of the kernel
    can keep the task from that, and then it panics. *)
Theorem mix_serves_file path socket addr v bs old s :
  stored (sys_kernel s) path = Some bs -> N.of_nat (length bs) <= usize_max ->
  Byte.x00 ∉ path -> fresh v s ->
  sent (sys_kernel s) (fr_fd (sk_fd (ts_inner socket))) = Some old ->
  ends (fun s' => sent (sys_kernel s') (fr_fd (sk_fd (ts_inner socket))) = Some (old ++ bs))
    (mix_task (S (length bs)) path socket addr v s).
Proof.
  intros Hs Hmax Hn [Hc Ha] Hk. unfold mix_task.
  destruct (open_spec path bs s Hs Hn) as [(e & s' & -> & He)|(file & s' & -> & Hm & Ho & Hk')]; [done|].
  cbn [mbind outcome_bind unwrap_result].
  destruct (one_vec_new v addr) as (b & -> & Hb). cbn [mbind outcome_bind].
  apply (mix_loop_spec file socket bs old (v_ptr v) (v_cap v) _ Hmax Hc b (v_len v));
    [done|by rewrite Hm|done|lia| |lia].
  by rewrite Hk', Hk, app_nil_r.
Qed.
End copy.

(** * A kernel that reads three bytes at a time and writes two *)
Module Trickle.
Record trickle : Type := Trick { tk_file : list byte; tk_sent : list byte }.
Definition the_path : list byte := [Byte.x61].
#[export] Instance trickle_kernel : RwKernel trickle := fun o m k =>
  match o with
  | OpOpenAt _ _ _ _ => (5%Z, m, k)
  | OpRead _ ptr len off =>
      let bs := take (N.to_nat (N.min 3 len)) (drop (N.to_nat off) (tk_file k)) in
      match write_bytes m ptr bs with
      | Ret m => (Z.of_nat (length bs), m, k)
      | _ => ((-14)%Z, m, k)
      end
  | OpWrite _ ptr len _ =>
      match read_bytes m ptr (N.to_nat len) with
      | Ret bs =>
          (Z.of_N (N.min 2 len), m,
           Trick (tk_file k) (tk_sent k ++ take (N.to_nat (N.min 2 len)) bs))
      | _ => ((-14)%Z, m, k)
      end
  | _ => ((-22)%Z, m, k)
  end.
Definition tk_stored (k : trickle) (p : list byte) : option (list byte) :=
  if decide (p = the_path) then Some (tk_file k) else None.
Definition tk_opened (k : trickle) (fd : Z) : option (list byte) :=
  if decide (fd = 5%Z) then Some (tk_file k) else None.
Definition tk_sends (k : trickle) (fd : Z) : option (list byte) :=
  if decide (fd = 7%Z) then Some (tk_sent k) else None.

Lemma trickle_laws : CopyLaws tk_stored tk_opened tk_sends False.
Proof.
  split; unfold rw_answer, trickle_kernel.
  - intros k m p bs E. unfold tk_stored in E. case_decide; [|done]. injection E as <-.
    exists 5%Z, k. split; [done|]. by right.
  - intros k m fd bs ptr len off E Ha Hoff. unfold tk_opened in E. case_decide; [|done].
    injection E as <-. remember (N.min (N.min 3 len) (N.of_nat (length (tk_file k)) - off)) as n eqn:Hn.
    assert (Ht : take (N.to_nat (N.min 3 len)) (drop (N.to_nat off) (tk_file k)) =
                 take (N.to_nat n) (drop (N.to_nat off) (tk_file k))).
    { destruct (decide (N.min 3 len <= N.of_nat (length (tk_file k)) - off)).
      - by replace n with (N.min 3 len) by lia.
      - rewrite !take_ge; [done|rewrite length_drop; lia..]. }
    rewrite Ht. assert (Hl : length (take (N.to_nat n) (drop (N.to_nat off) (tk_file k))) = N.to_nat n)
      by (rewrite length_take, length_drop; lia).
    destruct (write_bytes_spec (take (N.to_nat n) (drop (N.to_nat off) (tk_file k))) m ptr)
      as (m' & Hw & _).
    { rewrite Hl. intros a Hin. apply Ha. lia. }
    rewrite Hw. eexists _, m', k. split; [done|]. right. exists n. rewrite Hl. unfold i32_count.
    split_and!; try done; lia.
  - intros k m fd old bs ptr len E Hr. unfold tk_sends in E. case_decide; [|done].
    injection E as <-. rewrite Hr. eexists _, _. split; [done|]. right. exists (N.min 2 len).
    unfold i32_count, tk_sends. rewrite decide_True by done. split_and!; try done; lia.
Qed.

#[local] Existing Instance debug_profile.
(** Seven bytes, through a buffer of four. *)
Definition content : list byte :=
  [Byte.x68; Byte.x65; Byte.x6c; Byte.x6c; Byte.x6f; Byte.x21; Byte.x21].
Definition vec4 : VecU8 := mkVec 100 4 4.
Definition sys0 : Sys (K := trickle) :=
  mkSys (list_to_map ((fun a => (a, Some Byte.x00)) <$> [100; 101; 102; 103])) (Trick content []).
Lemma sys0_fresh : fresh vec4 sys0.
Proof.
  split; [done|]. intros a Ha. cbn in Ha.
  assert (a = 100 \/ a = 101 \/ a = 102 \/ a = 103) as [->|[->|[->| ->]]] by lia; by eexists.
Qed.
Lemma path_ok : Byte.x00 ∉ the_path.
Proof. by apply (bool_decide_eq_false_1 (Byte.x00 ∈ the_path)). Qed.

Lemma cat_prints_file_witness :
  exists s, cat 8 [[Byte.x63]; the_path] 500 vec4 sys0 = Ret (content ++ [newline], s).
Proof.
  pose proof (cat_prints_file tk_stored tk_opened tk_sends False trickle_laws [Byte.x63] the_path []
    500 vec4 content sys0 eq_refl ltac:(done) path_ok sys0_fresh) as H.
  change (S (length content)) with 8%nat in H.
  destruct (cat _ _ _ _ _) as [[out s]|q| |]; cbn in H; [|by destruct H|done..].
  exists s. by rewrite H.
Defined.
Definition the_socket : TcpStream := mkTcpStream (mkSocket (mkFdRef 7)).
Lemma mix_serves_file_witness :
  exists s, mix_task 8 the_path the_socket 500 vec4 sys0 = Ret s /\ tk_sent (sys_kernel s) = content.
Proof.
  pose proof (mix_serves_file tk_stored tk_opened tk_sends False trickle_laws the_path the_socket
    500 vec4 content [] sys0 eq_refl ltac:(done) path_ok sys0_fresh eq_refl) as H.
  change (S (length content)) with 8%nat in H.
  destruct (mix_task _ _ _ _ _ _) as [s|q| |]; cbn in H; [|by destruct H|done..].
  exists s. split; [done|]. by injection H.
Defined.
Example cat_runs :
  match cat 8 [[Byte.x63]; the_path] 500 vec4 sys0 with Ret (out, _) => out | _ => [] end =
    content ++ [newline].
Proof. by vm_compute. Qed.
End Trickle.
