(* ===== verification/StreamExamples.v ===== *)
(** [src/examples/tcp_stream.rs], [unix_stream.rs], [unix_listener.rs] and
    [udp_socket.rs]: one exchange with a peer. The programs of the first
    three send a vector of 128 bytes and print the first read that answers;
    the last sends a datagram back to where it came from. *)
From S2P Require Import Prelude Slab Buf Buffer BufSpec Types IoUring Op Handle Libc OpenOptions.
From S2P Require Import ReadWrite RecvMultishot IoOps Messages AsyncOp Api CopyExamples.

Section streams.
Context {Prof : Profile} `{!RwKernel K}.
Abbreviation sys := (Sys (K := K)).
Implicit Types s : sys.

(** What the programs print: the bytes written, and the bytes read. *)
Definition exchange (write read : Buffer -> outcome Unsubmitted) (addr : N) (v : VecU8) s :
    outcome (N * list byte * sys) :=
  buf ← buffer_new addr v;
  u ← write buf;
  '(r, s) ← submit_await u s;
  '(n, buf) ← unwrap_result r;
  u ← read buf;
  '(r, s) ← submit_await u s;
  '(read, buf) ← unwrap_result r;
  out ← prefix_of_buffer buf read (sys_mem s);
  Ret (n, out, s).
(** [main] of [tcp_stream.rs] and of [unix_stream.rs] once connected, and the
    task that [unix_listener.rs] spawns for a connection. *)
Definition tcp_stream_main (stream : TcpStream) := exchange (tcp_write stream) (tcp_read stream).
Definition unix_stream_main (stream : UnixStream) := exchange (unix_write stream) (unix_read stream).
Definition unix_listener_task (stream : UnixStream) := exchange (unix_write stream) (unix_read stream).

(** A connected stream: what its peer has sent and the program has not read. *)
Variable incoming : K -> Z -> option (list byte).
Variable errors : Prop.
Record StreamLaws : Prop := {
  stream_write k m fd bs ptr len : incoming k fd = Some bs ->
    exists res k', rw_answer (OpWrite fd ptr len 0) m k = (res, m, k') /\
      (refused errors res \/
       exists n, res = Z.of_N n /\ i32_count n /\ n <= len /\ exists more_, incoming k' fd = Some (bs ++ more_));
  (** A read waits for the first byte, or for the end of the stream. *)
  stream_read k m fd bs ptr len : incoming k fd = Some bs -> allocated m ptr len ->
    exists res m' k', rw_answer (OpRead fd ptr len 0) m k = (res, m', k') /\
      (refused errors res \/
       exists n more_, res = Z.of_N n /\ i32_count n /\ n <= len /\
         n <= N.of_nat (length (bs ++ more_)) /\ (n = 0 -> len = 0 \/ bs ++ more_ = []) /\
         write_bytes m ptr (take (N.to_nat n) (bs ++ more_)) = Ret m');
}.
Context (laws : StreamLaws).

(** What an exchange printed, when [bs] was there to be read at the start. *)
Definition printed (v : VecU8) (bs : list byte) (r : N * list byte * sys) : Prop :=
  r.1.1 <= v_len v /\
  exists sent, r.1.2 `prefix_of` bs ++ sent /\
    N.of_nat (length r.1.2) <= v_cap v /\ (r.1.2 = [] -> bs ++ sent = []).
Lemma exchange_spec fd (write read : Buffer -> outcome Unsubmitted) addr v bs s :
  (forall b, write b = write_at fd b 0) -> (forall b, read b = read_at fd b 0) ->
  fresh v s -> v_len v <= v_cap v -> incoming (sys_kernel s) (fr_fd fd) = Some bs ->
  ends errors (printed v bs) (exchange write read addr v s).
Proof.
  intros Hw Hr [Hc Ha] Hl Hin. unfold exchange.
  destruct (one_vec_new v addr) as (b & -> & Hb). cbn [mbind outcome_bind]. rewrite Hw.
  destruct (write_entry fd b _ _ _ 0 Hb ltac:(lia)) as (u & -> & Hu & Hfin). cbn [mbind outcome_bind].
  destruct (stream_write laws _ (sys_mem s) _ bs (v_ptr v) (v_len v) Hin) as (res & k & E & H).
  rewrite <- Hu in E. destruct H as [Hx|(n & -> & Hi & Hn & sent1 & Hin')].
  { by destruct (await_refused errors u s _ _ _ E Hx) as (e & -> & He). }
  rewrite (await_done u s _ _ _ _ _ E (Hfin n Hi)). cbn [mbind outcome_bind unwrap_result]. rewrite Hr.
  destruct (read_entry fd b _ _ _ 0 Hb ltac:(lia)) as (u' & -> & Hu' & Hfin'). cbn [mbind outcome_bind].
  destruct (stream_read laws k (sys_mem s) _ _ (v_ptr v) (v_cap v) Hin' Ha) as (res & m' & k' & E' & H).
  rewrite <- Hu' in E'. set (s1 := mkSys (sys_mem s) k).
  destruct H as [Hx|(n' & sent2 & -> & Hi' & Hn' & Hle & Hz & Hm)].
  { by destruct (await_refused errors u' s1 _ _ _ E' Hx) as (e & -> & He). }
  destruct (Hfin' n' Hn' Hi') as (b' & F & Hb').
  rewrite (await_done u' s1 _ _ _ _ _ E' F). cbn [mbind outcome_bind unwrap_result sys_mem].
  set (got := take (N.to_nat n') ((bs ++ sent1) ++ sent2)) in *.
  assert (Hlen : N.of_nat (length got) = n') by (unfold got; rewrite length_take; lia).
  destruct (write_bytes_spec got (sys_mem s) (v_ptr v)) as (m2 & E2 & R & _).
  { intros a Hin2. apply Ha. lia. }
  rewrite Hm in E2. injection E2 as <-. replace (length got) with (N.to_nat n') in R by lia.
  rewrite (chunk_of_buffer b' _ _ _ _ _ Hb' R Hlen). cbn. unfold printed. cbn. split; [done|].
  exists (sent1 ++ sent2). rewrite app_assoc. split_and!; [by apply prefix_take|lia|].
  intros Hg. rewrite Hg in Hlen. destruct Hz; [done|lia|done].
Qed.
(** The exchange prints what the peer sent. At most the vector's bytes are
    written; what is printed is the beginning of what the peer sends,
    at least one byte unless it sends nothing at all, and no byte of the
    vector that was sent before. The slice of the buffer is never out of
    range; only an error of the kernel ends in a panic. *)
Theorem exchange_prints fd addr v bs s :
  fresh v s -> v_len v <= v_cap v -> incoming (sys_kernel s) (fr_fd fd) = Some bs ->
  ends errors (printed v bs) (tcp_stream_main (mkTcpStream (mkSocket fd)) addr v s) /\
  ends errors (printed v bs) (unix_stream_main (mkUnixStream (mkSocket fd)) addr v s) /\
  ends errors (printed v bs) (unix_listener_task (mkUnixStream (mkSocket fd)) addr v s).
Proof. intros. split_and!; by apply (exchange_spec fd). Qed.
End streams.

Section udp.
Context {Prof : Profile} {Lc : Libc} {Sa : SockAddrs} {Sf : SockAddrFrom}.
(** [Vec::reserve]: a vector of at least that capacity with the same bytes. *)
Context (reserve : N -> VecU8 -> Mem -> VecU8 * Mem).

(** [Vec::resize(new_len, value)]. *)
Definition vec_resize (new_len : N) (value : byte) (v : VecU8) (m : Mem) : outcome (VecU8 * Mem) :=
  if new_len <=? v_len v then Ret (mkVec (v_ptr v) new_len (v_cap v), m)
  else
    let '(v, m) := reserve new_len v m in
    m ← write_bytes m (v_ptr v + v_len v) (replicate (N.to_nat (new_len - v_len v)) value);
    Ret (mkVec (v_ptr v) new_len (v_cap v), m).

(** [main] of [udp_socket.rs] up to the submission of the reply: [c] is the
    completion of the receive, [name] what the kernel has put into the box
    of the address, and [m] memory after it. The reply, and what is printed. *)
Definition udp_socket_main (bx bx' : Boxes) (namelen : N) (socket : UdpSocket) (buf : VecU8)
    (c : CqeResult) (name : list byte) (m : Mem) : outcome (SendTo VecU8 * sqe * list byte * Mem) :=
  '(d, _) ← recv_from bx namelen (sk_fd (udp_inner socket)) buf;
  r ← complete (mkRecvFrom (rf_fd _ d) (rf_buf d) (rf_slices _ d) name (rf_msghdr _ d)) c;
  '((read, socket_addr), buf) ← unwrap_result r;
  '(buf, m) ← vec_resize read Byte.x00 buf m;
  out ← read_bytes m (v_ptr buf) (N.to_nat (v_len buf));
  '(reply, e) ← send_to bx' (sk_fd (udp_inner socket)) buf (Some socket_addr);
  Ret (reply, e, out, m).

(** The datagram goes back to its sender. When the kernel has received [n]
    bytes the reply is exactly these bytes, as they lie in the vector, for the
    address they came from and on the same socket; nothing is copied. *)
Theorem udp_echoes bx bx' namelen socket buf fl n name a m bs :
  v_len buf = v_cap buf -> n <= v_cap buf -> as_socket name = Some a ->
  read_bytes m (v_ptr buf) (N.to_nat n) = Ret bs ->
  exists d, udp_socket_main bx bx' namelen socket buf (mkCqeResult (Ok n) fl) name m =
      Ret (d, build (OpSendMsg (fr_fd (sk_fd (udp_inner socket))) (bx_msghdr bx')), bs, m) /\
    st_slices d = [mkRef (v_ptr buf) n] /\ st_addr d = Some (sockaddr_from a) /\
    st_buf d = mkVec (v_ptr buf) n (v_cap buf).
Proof.
  intros Hl Hn Ha Hr. unfold udp_socket_main, recv_from, io_slice_mut. cbn.
  rewrite Ha. cbn. rewrite (proj2 (N.ltb_ge _ _)) by lia. cbn. unfold vec_resize.
  rewrite (proj2 (N.leb_le _ _)) by lia. cbn. rewrite Hr. cbn. by eexists.
Qed.
End udp.

(** * A peer that has sent three bytes *)
Module Peer.
#[export] Instance peer_kernel : RwKernel (list byte) := fun o m k =>
  match o with
  | OpWrite _ _ len _ => (Z.of_N (N.min len 100), m, k)
  | OpRead _ ptr len _ =>
      let bs := take (N.to_nat (N.min len 2147483647)) k in
      match write_bytes m ptr bs with
      | Ret m => (Z.of_nat (length bs), m, drop (length bs) k)
      | _ => ((-14)%Z, m, k)
      end
  | _ => ((-22)%Z, m, k)
  end.
Lemma peer_laws : StreamLaws (fun k _ => Some k) False.
Proof.
  split; unfold rw_answer, peer_kernel.
  - intros k m fd bs ptr len [= ->]. eexists _, _. split; [done|]. right. exists (N.min len 100).
    unfold i32_count. split_and!; [done|lia..|]. exists []. by rewrite app_nil_r.
  - intros k m fd bs ptr len [= ->] Ha.
    set (got := take (N.to_nat (N.min len 2147483647)) bs).
    assert (Hl : length got = Nat.min (N.to_nat (N.min len 2147483647)) (length bs)) by apply length_take.
    destruct (write_bytes_spec got m ptr) as (m' & Hw & _).
    { intros a Hin. apply Ha. lia. }
    rewrite Hw. eexists _, m', _. split; [done|]. right. exists (N.of_nat (length got)), [].
    rewrite !app_nil_r. unfold i32_count. split_and!; [lia|lia|lia|lia| |].
    + intros Hz. destruct (decide (len = 0)); [by left|right]. apply length_zero_iff_nil. lia.
    + rewrite <- Hw. f_equal. rewrite Nat2N.id, Hl. unfold got.
      destruct (Nat.min_spec (N.to_nat (N.min len 2147483647)) (length bs)) as [[_ ->]|[? ->]]; [done|].
      by rewrite !take_ge by lia.
Qed.
#[local] Existing Instance debug_profile.
Definition vec3 : VecU8 := mkVec 100 3 3.
Definition sys3 : Sys (K := list byte) :=
  mkSys (list_to_map ((fun a => (a, Some Byte.x01)) <$> [100; 101; 102])) [Byte.x6f; Byte.x6b].
Lemma exchange_prints_witness :
  ends False (printed vec3 [Byte.x6f; Byte.x6b])
    (tcp_stream_main (mkTcpStream (mkSocket (mkFdRef 7))) 500 vec3 sys3).
Proof.
  apply (exchange_prints (fun k _ => Some k) False peer_laws (mkFdRef 7) 500 vec3
           [Byte.x6f; Byte.x6b] sys3); [|done|done].
  split; [done|]. intros a Ha. cbn in Ha.
  assert (a = 100 \/ a = 101 \/ a = 102) as [->|[->| ->]] by lia; by eexists.
Defined.
End Peer.

#[local] Existing Instance debug_profile.
Import RecvMultishot.Socket.
Lemma udp_echoes_witness :
  exists d, udp_socket_main (fun _ v m => (v, m)) demo_boxes demo_boxes 16 (mkUdpSocket (mkSocket (mkFdRef 4)))
      (mkVec 100 3 3) (mkCqeResult (Ok 2) 0) [Byte.x02; Byte.x07] (sys_mem Peer.sys3) =
      Ret (d, build (OpSendMsg 4 (bx_msghdr demo_boxes)), [Byte.x01; Byte.x01], sys_mem Peer.sys3) /\
    st_slices d = [mkRef 100 2].
Proof.
  destruct (udp_echoes (Sa := demo_addrs) (Sf := demo_from) (fun _ v m => (v, m)) demo_boxes demo_boxes 16
    (mkUdpSocket (mkSocket (mkFdRef 4))) (mkVec 100 3 3) 0 2 [Byte.x02; Byte.x07] [Byte.x02; Byte.x07]
    (sys_mem Peer.sys3) [Byte.x01; Byte.x01]) as (d & H & Hs & _); [done|done|done|done|].
  by exists d.
Defined.
