(* ===== verification/EchoExample.v ===== *)
(** [src/examples/tcp_listener_fixed_buffers.rs]: an echo server whose
    connections take one of two buffers of a registry. The kernel's answers
    to the operations of a connection are given round by round: the
    completion of a [read_fixed], and what the [write_fixed_all] of the same
    round meets. A connection whose answers are used up is still waiting. *)
From S2P Require Import Prelude Slab Buf Buffer BufSpec FixedBuf Types IoUring Op Handle Libc.
From S2P Require Import OpenOptions ReadWrite AsyncOp Api CopyExamples WriteAll.

Definition POOL_SIZE : N := 2.

Section echo.
Context {Prof : Profile} {Ui : UioMaxIov}.

Record Round : Type := mkRound { rd_read : Answer; rd_writes : list Answer }.

(** [stream.read_fixed(fbuf).await], answered; the entry that was submitted. *)
Definition read_fixed_answered (stream : TcpStream) (fbuf : Buffer) (a : Answer) :
    outcome (sqe * BufResult N Buffer) :=
  '(e, op) ← read_fixed_sqe 0 (mkReadFixed (sk_fd (ts_inner stream)) fbuf);
  match a with
  | NotSubmitted _ => Panic unwrap_failed
  | Answered c => r ← complete_read_fixed op c; Ret (e, r)
  end.

(** The loop of [echo_handler]; [n] counts the bytes that went back. When
    the peer has closed, the buffer is dropped at the end of the scope. *)
Fixpoint echo_loop (rounds : list Round) (stream : TcpStream) (fbuf : Buffer) (n : N) :
    outcome (Poll (N * Buffer)) :=
  match rounds with
  | [] => Ret Pending
  | r :: rounds =>
      '(_, res) ← read_fixed_answered stream fbuf (rd_read r);
      '(read, fbuf1) ← unwrap_result res;
      if read =? 0 then Ret (Ready (n, fbuf1))
      else
        _ ← assert (4096 =? N.of_nat (buffer_len fbuf1)) "assertion `left == right` failed";
        s ← slice (mkRange Unbounded (Excluded read)) fbuf1;
        '(p, _) ← tcp_write_fixed_all (rd_writes r) stream s;
        match p with
        | Pending => Ret Pending
        | Ready res =>
            '(_, nslice) ← unwrap_result res;
            n ← add_usize n read;
            echo_loop rounds stream (slice_into_inner nslice) n
        end
  end.

(** How a connection ends: no buffer was free, or the peer closed it after
    [n] bytes; or it is still open. *)
Inductive Served : Type := NoBuffer | Closed (n : N) | StillOpen.

(** [echo_handler]. [addr] is where a checked-out [Buffer] keeps its
    [iovec]; the shutdown of the stream has no effect on the rest. *)
Definition echo_handler (rounds : list Round) (stream : TcpStream) (registry addr : N) (st : Store) :
    outcome (Served * Store) :=
  '(fbuf, st) ← fixed_registry_check_out registry addr 0 st;
  '(fbuf, st) ← match fbuf with
                | None => fixed_registry_check_out registry addr 1 st
                | Some b => Ret (Some b, st)
                end;
  match fbuf with
  | None => Ret (NoBuffer, st)
  | Some fbuf =>
      p ← echo_loop rounds stream fbuf 0;
      match p with
      | Pending => Ret (StillOpen, st)
      | Ready (n, fbuf) => st ← drop_in_store fbuf st; Ret (Closed n, st)
      end
  end.

(** A registry of regions that are smaller than the address space. *)
Definition small_registry (r : Registry) : Prop :=
  Forall (fun v => iov_len v <= usize_max) (r_iovecs r).

(** What a checked-out buffer looks like. *)
Definition from_registry (registry : N) (b : Buffer) : Prop :=
  exists v n i, iovecs b = [mkIovec (iov_base v) n] /\ caps b = [iov_len v] /\
    iov_len v <= usize_max /\ ty b = TyRegistryFixedBuf /\
    user_data b = UdRegistry (mkRegistryInfo registry i).

Lemma check_out_shape registry addr index st r b st' :
  st_registries st !! registry = Some r -> small_registry r ->
  fixed_registry_check_out registry addr index st = Ret (Some b, st') -> from_registry registry b.
Proof.
  intros Hr Hs. unfold fixed_registry_check_out. rewrite Hr. cbn [dangling mbind outcome_bind].
  unfold registry_check_out.
  destruct (r_states r !! N.to_nat index) as [[init|]|]; [|done..].
  cbn [unwrap mbind outcome_bind]. unfold index_vec. cbn [r_iovecs].
  destruct (r_iovecs r !! N.to_nat index) as [v|] eqn:Hv; [|done].
  cbn [or_panic mbind outcome_bind]. intros [= <- _].
  exists v, init, (as_u16 index). unfold small_registry in Hs. rewrite Forall_lookup in Hs.
  split_and!; [done..|by eapply Hs|done|done].
Qed.

Lemma fixed_index_registry b registry i :
  ty b = TyRegistryFixedBuf -> user_data b = UdRegistry (mkRegistryInfo registry i) ->
  fixed_index b = Ret (Some i).
Proof.
  intros Ht Hu. unfold fixed_index, buffer_type_id, buffer_user_data. rewrite Ht, Hu.
  by rewrite decide_True.
Qed.

(** The first round of a connection. *)
Lemma echo_round registry stream b c ws rounds n :
  from_registry registry b ->
  match result_ c with
  | Ok 0 => exists b', echo_loop (mkRound (Answered c) ws :: rounds) stream b n = Ret (Ready (n, b'))
  | Ok _ => echo_loop (mkRound (Answered c) ws :: rounds) stream b n =
      Panic (PAssert "assertion `left == right` failed")
  | Err _ => echo_loop (mkRound (Answered c) ws :: rounds) stream b n = Panic unwrap_failed
  end.
Proof.
  intros (v & n0 & i & Hv & Hc & Hl & Ht & Hu).
  cbn [echo_loop rd_read rd_writes]. unfold read_fixed_answered, read_fixed_sqe.
  cbn [rfx_buf rfx_fd bytes_total io_buf_bounded stable_mut_ptr io_buf_mut_bounded get_buf
       io_bytes_total buffer_io_buf mbind outcome_bind].
  rewrite Hc. cbn [sum_usize]. rewrite add_usize_Ret by lia. cbn [mbind outcome_bind sum_usize].
  rewrite (fixed_index_registry b registry i Ht Hu).
  cbn [mbind outcome_bind must_be_fixed]. unfold complete_read_fixed.
  cbn [rfx_buf set_init io_buf_mut_bounded io_set_init buffer_io_buf_mut].
  destruct (result_ c) as [k|e]; [|done].
  rewrite Hv, Hc. cbn [set_init_iovecs mbind outcome_bind rfx_buf].
  cbn. rewrite sub_usize_Ret by lia.
  cbn [mbind outcome_bind with_buffer unwrap_result]. destruct k as [|k]; [|done].
  by eexists.
Qed.

(** The buffer that a new connection takes. *)
Definition take_buffer (registry addr : N) (st : Store) : outcome (option Buffer * Store) :=
  '(fbuf, st) ← fixed_registry_check_out registry addr 0 st;
  match fbuf with
  | None => fixed_registry_check_out registry addr 1 st
  | Some b => Ret (Some b, st)
  end.
Lemma handler_after rounds stream registry addr st b st' :
  take_buffer registry addr st = Ret (Some b, st') ->
  echo_handler rounds stream registry addr st =
    (p ← echo_loop rounds stream b 0;
     match p with
     | Pending => Ret (StillOpen, st')
     | Ready (n, fbuf) => st ← drop_in_store fbuf st'; Ret (Closed n, st)
     end).
Proof.
  unfold take_buffer, echo_handler. intros (p & -> & E)%bind_Ret. destruct p as [o st1].
  cbn [mbind outcome_bind]. by rewrite E.
Qed.
Lemma check_out_registry registry addr index st r o st' :
  st_registries st !! registry = Some r -> fixed_registry_check_out registry addr index st = Ret (o, st') ->
  exists r', st_registries st' !! registry = Some r' /\ r_iovecs r' = r_iovecs r.
Proof.
  intros Hr. unfold fixed_registry_check_out. rewrite Hr. cbn [dangling mbind outcome_bind].
  unfold registry_check_out. destruct (r_states r !! N.to_nat index) as [[init|]|]; [| |done];
    cbn [unwrap mbind outcome_bind].
  - unfold index_vec. cbn [r_iovecs]. destruct (r_iovecs r !! N.to_nat index) as [v|]; [|done].
    cbn. intros [= <- <-]. cbn. rewrite lookup_insert_eq. by eexists.
  - cbn. intros [= <- <-]. cbn. rewrite lookup_insert_eq. by eexists.
Qed.
Lemma take_buffer_shape registry addr st r b st' :
  st_registries st !! registry = Some r -> small_registry r ->
  take_buffer registry addr st = Ret (Some b, st') -> from_registry registry b.
Proof.
  unfold take_buffer. intros Hr Hs ([[b1|] st1] & E & E')%bind_Ret.
  - injection E' as -> ->. by eapply check_out_shape.
  - destruct (check_out_registry _ _ _ _ _ _ _ Hr E) as (r' & Hr' & Hi).
    eapply check_out_shape; [exact Hr'| |exact E']. unfold small_registry. by rewrite Hi.
Qed.

(** The echo server of the examples does not echo. Its handler asserts that
    [fbuf1.len()] is 4096, the size of the buffer; [Buffer::len] is the number
    of allocations, which is one. So the first read of a connection that
    brings any byte panics, whatever the registry, the kernel and the peer
    do, and a connection that is served to its end has sent nothing. *)
Theorem echo_never_echoes rounds stream registry addr st r b st' :
  st_registries st !! registry = Some r -> small_registry r ->
  take_buffer registry addr st = Ret (Some b, st') ->
  match rounds with
  | [] => echo_handler rounds stream registry addr st = Ret (StillOpen, st')
  | mkRound (Answered (mkCqeResult (Ok (N.pos _)) _)) _ :: _ =>
      echo_handler rounds stream registry addr st =
        Panic (PAssert "assertion `left == right` failed")
  | mkRound (Answered (mkCqeResult (Ok 0) _)) _ :: _ =>
      exists b', echo_handler rounds stream registry addr st =
        (st ← drop_in_store b' st'; Ret (Closed 0, st))
  | _ => echo_handler rounds stream registry addr st = Panic unwrap_failed
  end.
Proof.
  intros Hr Hs Hb. rewrite (handler_after _ _ _ _ _ _ _ Hb).
  pose proof (take_buffer_shape _ _ _ _ _ _ Hr Hs Hb) as Hf.
  destruct rounds as [|[[e|c] ws] rounds]; [done| |].
  - destruct Hf as (v & n0 & i & Hv & Hc & Hl & Ht & Hu).
    cbn [echo_loop rd_read]. unfold read_fixed_answered, read_fixed_sqe.
    cbn [rfx_buf rfx_fd bytes_total io_buf_bounded stable_mut_ptr io_buf_mut_bounded get_buf
         io_bytes_total buffer_io_buf mbind outcome_bind].
    rewrite Hc. cbn [sum_usize]. rewrite add_usize_Ret by lia. cbn [mbind outcome_bind sum_usize].
    by rewrite (fixed_index_registry b registry i Ht Hu).
  - pose proof (echo_round registry stream b c ws rounds 0 Hf) as H. destruct c as [[[|k]|e] fl];
      cbv beta iota delta [result_] in H.
    + destruct H as [b' ->]. by exists b'.
    + by rewrite H.
    + by rewrite H.
Qed.
End echo.

#[local] Existing Instance debug_profile.
(** Both buffers are free; the first read of the connection brings 5 bytes. *)
Definition two_buffers : Registry :=
  mkRegistry [mkIovec 1000 4096; mkIovec 9000 4096] [RFree 4096; RFree 4096] [].
Definition demo_store : Store := mkStore ∅ {[3 := two_buffers]}.
Lemma echo_never_echoes_witness :
  echo_handler [mkRound (Answered (mkCqeResult (Ok 5) 0)) [wrote 5]]
    (mkTcpStream (mkSocket (mkFdRef 7))) 3 500 demo_store =
  Panic (PAssert "assertion `left == right` failed").
Proof.
  destruct (take_buffer 3 500 demo_store) as [[[b|] st']| | |] eqn:E;
    [|discriminate E..].
  apply (echo_never_echoes [mkRound (Answered (mkCqeResult (Ok 5) 0)) [wrote 5]]
    (mkTcpStream (mkSocket (mkFdRef 7))) 3 500 demo_store two_buffers b st'); [done| |done].
  by repeat constructor.
Defined.
