(* ===== verification/DirSuite.v ===== *)
(** [src/examples/test_create_dir_all.rs]: a program that tries the functions
    of [fs] on directories and files one after the other, each with the
    expectation that it passes or fails, and counts. [main1_counts] says what
    its verdict means on any kernel; [suite_passes] runs it, with every call
    of the library as it is modelled, on a small file system with
    permissions, where all expectations of the authors are met. *)
From S2P Require Import Prelude Buf Types Compat IoUring Op Libc OpenOptions ReadWrite RecvMultishot.
From S2P Require Import IoOps Path Dirs.
From Stdlib Require Strings.String.

(** * The calls of the program *)

(** An asynchronous function with result [io::Result<A>], run to its end. *)
Definition Fs (K A : Type) : Type := K -> outcome (io_result A * K).
#[export] Instance fs_ret {K} : MRet (Fs K) := fun A a k => Ret (Ok a, k).
#[export] Instance fs_bind {K} : MBind (Fs K) := fun A B f m k =>
  '(r, k) ← m k;
  match r with Ok a => f a k | Err e => Ret (Err e, k) end.
Definition fs_fail {K A} (e : io_error) : Fs K A := fun k => Ret (Err e, k).
Definition fs_lift {K A} (r : io_result A) : Fs K A := fun k => Ret (r, k).
(** [let res = m.await;] keeps an error as a value. *)
Definition fs_try {K A} (m : Fs K A) : Fs K (io_result A) := fun k =>
  '(r, k) ← m k; Ret (Ok r, k).

Section calls.
Context {Er : Errno} {Lc : Libc} `{!Kernel K}.
Abbreviation F := (Fs K).

(** An operation whose data the kernel does not write to. *)
Definition submit_op_await `{!Completable T (io_result A)} (p : io_result (T * sqe)) : F A := fun k =>
  match p with
  | Err e => Ret (Err e, k)
  | Ok (d, s) =>
      let '(r, _, k) := k_answer (sqe_op s) k in
      out ← complete d (mkCqeResult r 0);
      Ret (out, k)
  end.
(** [fs::create_dir], [fs::remove_dir], [fs::remove_file], [OpenOptions::open]
    and [File::close]. *)
Definition create_dir (p : Path) : F unit := submit_op_await (make_dir p 511).
Definition remove_dir (p : Path) : F unit := submit_op_await (unlink_dir p).
Definition remove_file (p : Path) : F unit := submit_op_await (unlink_file p).
Definition open_file (o : OpenOptions) (p : Path) : F FdRef := submit_op_await (open p o).
Definition close_file (f : FdRef) : F unit := submit_op_await (Ok (close (fr_fd f))).
Definition run_statx (b : StatxBuilder) : F statx_buf := fun k =>
  '(r, _, k) ← sb_statx b k; Ret (r, k).

Definition suite_statx (p : Path) : F unit := fun k =>
  match sb_pathname p statx_builder_new with
  | Err _ => Panic (PUnwrap "called `Result::unwrap()` on an `Err` value")
  | Ok b => (_ ← run_statx b; mret tt) k
  end.
Definition statx_builder (p : Path) : F unit :=
  b ← fs_lift (sb_pathname p statx_builder_new);
  _ ← run_statx b;
  mret tt.
Definition statx_builder2 (dir_path rel_path : Path) : F unit :=
  f ← open_file file_open_options dir_path;
  b ← fs_lift (sb_pathname rel_path (mkStatxBuilder (Some f) None AT_EMPTY_PATH STATX_ALL));
  res ← fs_try (run_statx b);
  _ ← close_file f;
  fs_lift (map_ok (fun _ => tt) res).
Definition matches_mode (p : Path) (want_mode : N) : F unit :=
  b ← fs_lift (sb_pathname p (sb_set_mask STATX_MODE statx_builder_new));
  statx ← run_statx b;
  let got_mode := N.land (stx_mode statx) 4095 in
  if want_mode =? got_mode then mret tt else fs_fail (CustomError Other "want mode, got mode").
Definition touch_file (p : Path) : F unit :=
  file ← open_file (set_create true (set_append true options_new)) p;
  close_file file.
Definition is_dir_regfile_await (p : Path) : F (bool * bool) := fun k =>
  '(d, f, k) ← is_dir_regfile p k; Ret (Ok (d, f), k).
Definition suite_is_regfile (p : Path) : F unit :=
  '(_, is_regfile) ← is_dir_regfile_await p;
  if (is_regfile : bool) then mret tt else fs_fail (CustomError Other "not regular file").
Definition suite_is_dir (p : Path) : F unit :=
  '(is_dir, _) ← is_dir_regfile_await p;
  if (is_dir : bool) then mret tt else fs_fail (CustomError Other "not directory").

(** [enum Op] and [enum Expected]. *)
Inductive FsOp : Type :=
  | OStatx (p : Path)
  | OStatxBuilder (p : Path)
  | OStatxBuilder2 (p rel : Path)
  | OMatchesMode (p : Path) (mode : N)
  | OIsRegfile (p : Path)
  | OIsDir (p : Path)
  | OTouchFile (p : Path)
  | OCreateDir (p : Path)
  | OCreateDirAll (p : Path)
  | ODirBuilder (p : Path)
  | ODirBuilder2 (p : Path) (recursive : bool) (mode : N)
  | ORemoveFile (p : Path)
  | ORemoveDir (p : Path).
Inductive Expected : Type := Pass (op : FsOp) | Fails (op : FsOp).

(** The [match op] of [main1]. *)
Definition run_fs_op (op : FsOp) : F unit :=
  match op with
  | OStatx p => suite_statx p
  | OStatxBuilder p => statx_builder p
  | OStatxBuilder2 p rel => statx_builder2 p rel
  | OMatchesMode p mode => matches_mode p mode
  | OIsRegfile p => suite_is_regfile p
  | OIsDir p => suite_is_dir p
  | OTouchFile p => touch_file p
  | OCreateDir p => create_dir p
  | OCreateDirAll p => create_dir_all p
  | ODirBuilder p => create (S (length p)) dir_builder_new p
  | ODirBuilder2 p recursive mode =>
      create (S (length p)) (db_set_mode mode (db_set_recursive recursive dir_builder_new)) p
  | ORemoveFile p => remove_file p
  | ORemoveDir p => remove_dir p
  end.

(** The loop of [main1], with its two counters. *)
Definition as_wanted (test : Expected) (res : io_result unit) : bool :=
  match test, res with
  | Pass _, Ok _ | Fails _, Err _ => true
  | _, _ => false
  end.
Definition op_of (test : Expected) : FsOp := match test with Pass op | Fails op => op end.
Fixpoint count (tests : list Expected) (as_expected unexpected : N) (k : K) :
    outcome (N * N * K) :=
  match tests with
  | [] => Ret (as_expected, unexpected, k)
  | test :: tests =>
      '(res, k) ← run_fs_op (op_of test) k;
      if as_wanted test res then count tests (as_expected + 1) unexpected k
      else count tests as_expected (unexpected + 1) k
  end.
Definition main1 (tests : list Expected) (k : K) : outcome (io_result unit * K) :=
  '(as_expected, unexpected, k) ← count tests 0 0 k;
  Ret (if unexpected =? 0 then Ok tt else Err (CustomError Other "unexpected result(s)"), k).

(** The results of the operations one after the other. *)
Fixpoint results (tests : list Expected) (k : K) : outcome (list bool * K) :=
  match tests with
  | [] => Ret ([], k)
  | test :: tests =>
      '(res, k) ← run_fs_op (op_of test) k;
      '(rs, k) ← results tests k;
      Ret (as_wanted test res :: rs, k)
  end.
Definition tally (b : bool) (rs : list bool) : N :=
  N.of_nat (length (List.filter (Bool.eqb b) rs)).

Lemma count_results tests a u k :
  count tests a u k =
    ('(rs, k) ← results tests k; Ret (a + tally true rs, u + tally false rs, k)).
Proof.
  revert a u k. induction tests as [|test tests IH]; intros a u k; cbn [count results].
  { cbn. by rewrite !N.add_0_r. }
  destruct (run_fs_op (op_of test) k) as [[res k1]| | |]; cbn [mbind outcome_bind]; try done.
  destruct (as_wanted test res); rewrite IH; destruct (results tests k1) as [[rs k2]| | |];
    cbn [mbind outcome_bind]; try done; unfold tally; cbn [List.filter Bool.eqb length];
    repeat first [lia | reflexivity | f_equal].
Qed.

(** What the verdict of the program means. Every operation is run once, in
    order, on the state the ones before it left; the verdict is [Ok] exactly
    when each had the result that was expected. *)
Theorem main1_counts tests k :
  match results tests k with
  | Ret (rs, k') =>
      length rs = length tests /\
      exists r, main1 tests k = Ret (r, k') /\ (r = Ok tt <-> Forall (eq true) rs)
  | Panic p => main1 tests k = Panic p
  | Undefined w => main1 tests k = Undefined w
  | NoFuel => main1 tests k = NoFuel
  end.
Proof.
  unfold main1. rewrite count_results.
  destruct (results tests k) as [[rs k']| | |] eqn:E; cbn [mbind outcome_bind]; try done. split.
  - revert k rs k' E. induction tests as [|test tests IH]; intros k rs k' E; cbn [results] in E.
    { by injection E as <- _. }
    apply bind_Ret in E as ([res k1] & _ & E). apply bind_Ret in E as ([rs' k2] & E' & E).
    injection E as <- _. cbn. by rewrite (IH _ _ _ E').
  - eexists. split; [done|]. rewrite N.add_0_l. clear E. unfold tally.
    induction rs as [|[] rs IH]; cbn [List.filter Bool.eqb length]; [split; [constructor|done]| |].
    + rewrite IH. split; [by constructor|by inversion 1].
    + destruct (N.eqb_spec (N.of_nat (S (length (List.filter (Bool.eqb false) rs)))) 0); [lia|].
      split; [done|by inversion 1].
Qed.
End calls.

(** [tests()]; the modes are in decimal, 0o777 = 511 and 0o700 = 448. *)
Definition path (s : string) : Path := String.list_byte_of_string s.
Definition tests : list Expected :=
  [Fails (OCreateDir (path "/no-good"));
   Fails (OCreateDir (path "/no-good/lots/more"));
   Fails (OCreateDirAll (path "/no-good"));
   Fails (OCreateDirAll (path "/no-good/lots/more"));
   Fails (ODirBuilder (path "/no-good"));
   Fails (ODirBuilder2 (path "/no-good/lots/more") false 511);
   Fails (ODirBuilder2 (path "/no-good/lots/more") true 511);
   Pass (OCreateDir (path "/tmp/test-good"));
   Pass (OStatx (path "/tmp/test-good"));
   Pass (OStatxBuilder (path "/tmp/test-good"));
   Pass (OStatxBuilder2 (path "/tmp") (path "test-good"));
   Pass (OStatxBuilder2 (path "/tmp") (path "./test-good"));
   Pass (OStatxBuilder2 (path "/tmp/") (path "./test-good"));
   Pass (OStatxBuilder2 (path "/etc/") (path "/tmp/test-good"));
   Pass (OIsDir (path "/tmp/test-good"));
   Fails (OIsRegfile (path "/tmp/test-good"));
   Pass (OCreateDir (path "/tmp/test-good/x1"));
   Fails (OCreateDir (path "/tmp/test-good/x1"));
   Pass (ORemoveDir (path "/tmp/test-good/x1"));
   Fails (ORemoveDir (path "/tmp/test-good/x1"));
   Pass (ORemoveDir (path "/tmp/test-good"));
   Pass (OCreateDirAll (path "/tmp/test-good/lots/lots/more"));
   Pass (OCreateDirAll (path "/tmp/test-good/lots/lots/more"));
   Pass (ORemoveDir (path "/tmp/test-good/lots/lots/more"));
   Pass (ORemoveDir (path "/tmp/test-good/lots/lots"));
   Pass (ORemoveDir (path "/tmp/test-good/lots"));
   Pass (ORemoveDir (path "/tmp/test-good"));
   Fails (OStatx (path "/tmp/test-good"));
   Fails (OStatxBuilder (path "/tmp/test-good"));
   Pass (ODirBuilder2 (path "/tmp/test-good") true 0);
   Pass (OMatchesMode (path "/tmp/test-good") 0);
   Fails (OCreateDir (path "/tmp/test-good/x1"));
   Pass (ORemoveDir (path "/tmp/test-good"));
   Pass (ODirBuilder2 (path "/tmp/test-good") true 448);
   Pass (OMatchesMode (path "/tmp/test-good") 448);
   Pass (OCreateDir (path "/tmp/test-good/x1"));
   Pass (ORemoveDir (path "/tmp/test-good/x1"));
   Pass (ORemoveDir (path "/tmp/test-good"));
   Pass (ODirBuilder2 (path "/tmp/test-good") false 0);
   Fails (OCreateDir (path "/tmp/test-good/x1"));
   Pass (ORemoveDir (path "/tmp/test-good"));
   Pass (OTouchFile (path "/tmp/test-good-file"));
   Pass (OIsRegfile (path "/tmp/test-good-file"));
   Fails (OIsDir (path "/tmp/test-good-file"));
   Pass (ORemoveFile (path "/tmp/test-good-file"));
   Fails (OIsRegfile (path "/tmp/test-good-file"));
   Fails (OIsDir (path "/tmp/test-good-file"))].

(** * A file system with permissions *)
Module PermFs.
#[local] Instance byte_countable : Countable Byte.byte :=
  inj_countable Byte.to_N Byte.of_N Byte.of_to_N.
(** A path inside, by its components; a node is a directory or a file, with
    its permissions, owned by the process or by root. *)
Abbreviation Comps := (list (list Byte.byte)).
Record node : Type := mkNode { nd_dir : bool; nd_mode : N; nd_own : bool }.
#[export] Instance node_eq_dec : EqDecision node.
Proof. solve_decision. Defined.
Record perm_fs : Type := mkFs { pf_tree : gmap Comps node; pf_fds : gmap Z Comps; pf_next : N }.

Fixpoint split_path (p : Path) (cur : list Byte.byte) : Comps :=
  match p with
  | [] => [rev cur]
  | c :: p => if decide (c = sep) then rev cur :: split_path p [] else split_path p (c :: cur)
  end.
Definition comps (p : Path) : Comps :=
  List.filter (fun c => negb (bool_decide (c = [] \/ c = [dot]))) (split_path p []).
Definition resolve (k : perm_fs) (dirfd : Z) (p : Path) : Comps :=
  match p with
  | c :: _ => if decide (c = sep) then comps p else default [] (pf_fds k !! dirfd) ++ comps p
  | [] => default [] (pf_fds k !! dirfd)
  end.

Definition may (bit : N) (n : node) : bool := N.testbit (nd_mode n) (if nd_own n then bit + 6 else bit).
(** The errno with which a walk to a path fails: its ancestors must be
    directories that may be searched. *)
Fixpoint walk (t : gmap Comps node) (done rest : Comps) : option Z :=
  match rest with
  | [] => None
  | c :: rest =>
      match t !! done with
      | None => Some 2%Z
      | Some n => if negb (nd_dir n) then Some 20%Z
                  else if may 0 n then walk t (done ++ [c]) rest else Some 13%Z
      end
  end.
Definition answer_err (e : Z) (k : perm_fs) : io_result N * list Byte.byte * perm_fs :=
  (Err (OsError e), [], k).
Definition may_change (k : perm_fs) (c : Comps) : bool :=
  match pf_tree k !! removelast c with Some n => may 1 n | None => false end.
Definition add_node (c : Comps) (n : node) (k : perm_fs) : perm_fs :=
  mkFs (<[c := n]> (pf_tree k)) (pf_fds k) (pf_next k).
Definition masked (mode : N) : N := N.ldiff mode 18.
Definition open_fd (c : Comps) (k : perm_fs) : io_result N * list Byte.byte * perm_fs :=
  (Ok (pf_next k), [],
   mkFs (pf_tree k) (<[Z.of_N (pf_next k) := c]> (pf_fds k)) (pf_next k + 1)).
Definition has_child (t : gmap Comps node) (c : Comps) : bool :=
  existsb (fun kn => bool_decide (removelast kn.1 = c /\ kn.1 <> [])) (map_to_list t).

#[export] Instance perm_kernel : Kernel perm_fs := fun o k =>
  let at_ dirfd p f :=
    let c := resolve k dirfd p in
    match walk (pf_tree k) [] c with
    | Some e => answer_err e k
    | None => f c (pf_tree k !! c)
    end in
  match o with
  | OpMkDirAt d p mode => at_ d p (fun c n =>
      match n with
      | Some _ => answer_err 17 k
      | None => if may_change k c then (Ok 0, [], add_node c (mkNode true (masked mode) true) k)
                else answer_err 13 k
      end)
  | OpOpenAt d p flags mode => at_ d p (fun c n =>
      match n with
      | Some _ => open_fd c k
      | None => if Z.land flags 64 =? 0 then answer_err 2 k
                else if may_change k c then open_fd c (add_node c (mkNode false (masked mode) true) k)
                else answer_err 13 k
      end%Z)
  | OpClose fd => (Ok 0, [], mkFs (pf_tree k) (delete fd (pf_fds k)) (pf_next k))
  | OpUnlinkAt d p flags => at_ d p (fun c n =>
      match n with
      | None => answer_err 2 k
      | Some n =>
          if negb (may_change k c) then answer_err 13 k
          else if negb (Bool.eqb (nd_dir n) (flags =? 512)%Z) then answer_err 20 k
          else if has_child (pf_tree k) c then answer_err 39 k
          else (Ok 0, [], mkFs (delete c (pf_tree k)) (pf_fds k) (pf_next k))
      end)
  | OpStatx d p _ _ => at_ d p (fun c n =>
      match n with
      | None => answer_err 2 k
      | Some n => (Ok 0, statx_bytes (TreeFs.node (N.lor (if nd_dir n then 16384 else 32768) (nd_mode n))), k)
      end)
  | _ => answer_err 22 k
  end.

(** [/], [/tmp] and [/etc] belong to root; 0o755 = 493. *)
Definition start_fs : perm_fs :=
  mkFs {[ [] := mkNode true 493 false; [path "tmp"] := mkNode true 511 false;
          [path "etc"] := mkNode true 493 false ]} ∅ 3.

(** The program reports no unexpected result, and leaves the file system as
    it found it. *)
Example suite_passes :
  match main1 tests start_fs with
  | Ret (Ok _, k) => bool_decide (map_to_list (pf_tree k) = map_to_list (pf_tree start_fs))
                     && bool_decide (map_to_list (pf_fds k) = [])
  | _ => false
  end = true.
Proof. by vm_compute. Qed.
End PermFs.
