(* ===== verification/Legacy.v ===== *)
(** Two files that no [mod] declaration names any more: [src/src/io/pool.rs],
    the buffer pool of an older driver, and [src/src/buf/fixed/handle.rs], the
    handle that [pool.rs] and [registry.rs] of [buf/fixed/] have replaced.
    What they call and is gone ([FixedBuffers], the pool of the driver) is an
    argument. *)
From S2P Require Import Prelude Slab IoUring SlabList Op Buf Buffer BufSpec.

(** * [io/pool.rs] *)
Record LegacyPool : Type := mkLegacyPool { lp_mem : N; lp_num : N; lp_size : N }.

Section pool.
Context {Prof : Profile} `{!Uring ring}.

(** [a * b] on [usize]. *)
Definition mul_usize (a b : N) : outcome N :=
  if a * b <=? usize_max then Ret (a * b)
  else if overflow_checks then Panic (POverflow "attempt to multiply with overflow")
  else Ret (wrap 64 (a * b)).

(** [Pool::new]; [alloc] is [Vec::with_capacity]: an address and a capacity. *)
Definition legacy_pool_new (alloc : N -> N * N) (num size : N) : outcome LegacyPool :=
  total ← mul_usize num size;
  let '(mem, capacity) := alloc total in
  _ ← assert (capacity =? total) "assertion `left == right` failed";
  Ret (mkLegacyPool mem num size).

Definition unimplemented : panic := PUnreachable "not implemented".
Definition provide_entry (addr size num bid user : N) : sqe :=
  set_user_data user (build (OpProvideBuffers addr (as_i32 size) (as_u16 num) 0 (as_u16 bid))).

(** [Pool::provide_buffers]. *)
Definition legacy_provide_buffers (self : LegacyPool) (u : ring) : outcome (io_result unit * ring) :=
  match sq_push (provide_entry (lp_mem self) (lp_size self) (lp_num self) 0 0) u with
  | None => Panic unimplemented
  | Some u =>
      let '(r, u) := ring_submit_and_wait 1 u in
      match r with
      | Err e => Ret (Err e, u)
      | Ok _ =>
          let '(cs, u) := cq_take u in
          _ ← assert (forallb (fun c => cqe_user_data c =? 0) cs) "assertion `left == right` failed";
          Ret (Ok tt, u)
      end
  end.

(** [impl Drop for ProvidedBuf], on the ring of the driver; [ptr] is the
    start of the vector. *)
Definition provided_buf_drop (pool : LegacyPool) (ptr : N) (u : ring) : outcome ring :=
  offset ← sub_usize ptr (lp_mem pool);
  if lp_size pool =? 0 then Panic (POverflow "attempt to divide by zero")
  else
    let bid := offset / lp_size pool in
    or_panic unimplemented (sq_push (provide_entry ptr (lp_size pool) 1 bid u64_max) u).

(** A buffer is given back under its own number. For each of at most 2^16
    buffers of a pool, the entry of its destructor names its address, its
    size and the number the kernel knows it by; its completion is marked for
    the driver to skip. *)
Theorem provided_buf_returns (pool : LegacyPool) (i : N) (u : ring) :
  0 < lp_size pool < 2147483648 -> i < lp_num pool -> lp_num pool <= 65536 ->
  provided_buf_drop pool (lp_mem pool + i * lp_size pool) u =
    or_panic unimplemented
      (sq_push (set_user_data u64_max
        (build (OpProvideBuffers (lp_mem pool + i * lp_size pool) (Z.of_N (lp_size pool)) 1 0 i))) u).
Proof.
  intros Hs Hi Hn. unfold provided_buf_drop. rewrite sub_usize_Ret by lia. cbn [mbind outcome_bind].
  destruct (N.eqb_spec (lp_size pool) 0); [lia|]. rewrite N.add_comm, N.add_sub, N.div_mul by done.
  unfold provide_entry. rewrite (as_u16_small i), (as_u16_small 1) by lia.
  unfold as_i32, as_u32. rewrite wrap_small by (change (2 ^ 32) with 4294967296; lia).
  by rewrite (proj2 (Z.ltb_lt _ _)) by lia.
Qed.
End pool.

(** * [buf/fixed/handle.rs] *)
Record CheckedOutBuf : Type := mkCheckedOut { co_iovec : iovec; co_init_len : N; co_index : N }.

(** [trait FixedBuffers], as far as the handle uses it. *)
Class FixedBuffers (R : Type) : Type := fb_check_in : N -> N -> R -> outcome R.

Section handle.
Context `{!FixedBuffers R}.

(** [FixedBuf], less its reference to the collection. *)
Record LegacyFixedBuf : Type := mkLegacyBuf { lf_buf : CheckedOutBuf }.
Definition legacy_fixed_new (buf : CheckedOutBuf) : LegacyFixedBuf := mkLegacyBuf buf.
Definition legacy_buf_index (self : LegacyFixedBuf) : N := co_index (lf_buf self).
Definition legacy_fixed_drop (self : LegacyFixedBuf) (registry : R) : outcome R :=
  fb_check_in (co_index (lf_buf self)) (co_init_len (lf_buf self)) registry.

#[export] Instance legacy_io_buf : IoBuf LegacyFixedBuf := {
  io_stable_ptr := fun self => iov_base (co_iovec (lf_buf self));
  io_bytes_init := fun self => Ret (co_init_len (lf_buf self));
  io_bytes_total := fun self => Ret (iov_len (co_iovec (lf_buf self)));
}.
#[export] Instance legacy_io_buf_mut : IoBufMut LegacyFixedBuf := {
  io_stable_mut_ptr := fun self => iov_base (co_iovec (lf_buf self));
  io_set_init := fun pos self =>
    let b := lf_buf self in
    Ret (if co_init_len b <? pos then mkLegacyBuf (mkCheckedOut (co_iovec b) pos (co_index b))
         else self);
}.
#[export] Instance legacy_watermark_laws : WatermarkLaws LegacyFixedBuf.
Proof.
  split; [done|]. intros b pos init total [[= <-] [= <-]] Hi Hp. cbn. eexists. split; [done|].
  destruct (N.ltb_spec (co_init_len (lf_buf b)) pos).
  - by rewrite N.max_r by lia.
  - by rewrite N.max_l by lia.
Qed.
(** [Deref] and [DerefMut]. *)
Definition legacy_deref (self : LegacyFixedBuf) : Ref :=
  mkRef (iov_base (co_iovec (lf_buf self))) (co_init_len (lf_buf self)).

(** The completions of operations on the buffer, in order. *)
Fixpoint set_inits (ps : list N) (self : LegacyFixedBuf) : outcome LegacyFixedBuf :=
  match ps with
  | [] => Ret self
  | p :: ps => self ← io_set_init p self; set_inits ps self
  end.

(** What the handle brings back to its collection. After any operations the
    buffer is checked in under its own index, with the highest watermark that
    any of them reached; until then it shows exactly these bytes, from
    the start of its region. *)
Theorem legacy_watermark (ps : list N) (buf : CheckedOutBuf) (registry : R) :
  exists b, set_inits ps (legacy_fixed_new buf) = Ret b /\
    let top := foldr N.max (co_init_len buf) ps in
    legacy_fixed_drop b registry = fb_check_in (co_index buf) top registry /\
    legacy_deref b = mkRef (iov_base (co_iovec buf)) top.
Proof.
  revert buf. induction ps as [|p ps IH]; intros buf; cbn [set_inits foldr].
  { by eexists. }
  assert (Hf : forall x, foldr N.max (N.max p x) ps = N.max p (foldr N.max x ps)).
  { clear. intros x. induction ps as [|q ps IH]; cbn; [done|]. rewrite IH. lia. }
  cbn [io_set_init legacy_io_buf_mut mbind outcome_bind lf_buf legacy_fixed_new].
  destruct (N.ltb_spec (co_init_len buf) p) as [Hp|Hp].
  - destruct (IH (mkCheckedOut (co_iovec buf) p (co_index buf))) as (b & E & H). exists b.
    split; [exact E|]. cbn [co_init_len co_iovec co_index] in H. rewrite <- Hf.
    by replace (N.max p (co_init_len buf)) with p by lia.
  - destruct (IH buf) as (b & E & H). exists b. split; [exact E|]. rewrite <- Hf.
    by replace (N.max p (co_init_len buf)) with (co_init_len buf) by lia.
Qed.
End handle.

#[local] Existing Instance debug_profile.
(** Buffer 2 of four buffers of 16 bytes. *)
Lemma provided_buf_returns_witness :
  provided_buf_drop (mkLegacyPool 1000 4 16) 1032 (ScriptRing [] 4 [] []) =
    Ret (ScriptRing [set_user_data u64_max (build (OpProvideBuffers 1032 16 1 0 2))] 4 [] []).
Proof.
  pose proof (provided_buf_returns (mkLegacyPool 1000 4 16) 2 (ScriptRing [] 4 [] [])
    ltac:(done) ltac:(done) ltac:(done)) as H.
  exact H.
Defined.
